(* ===== verification/_CoqProject ===== *)
-Q . S2P
Prelude.v
RustStd.v
Json.v
WdTypes.v
WdLog.v
WdLogFacts.v
WdAuthority.v
WdProtocol.v
WdProtocolFacts.v
WdCore.v
WdStoreFacts.v
WdCoreFacts.v
WdStartup.v
WdHistory.v
WdSystem.v
WdDemo.v
WdTheorems.v
WdLogTheorems.v
WdWireTheorems.v
TxTypes.v
TxState.v
TxStorage.v
TxNames.v
TxWalFacts.v
TxEngine.v
TxChain.v
TxEngineFacts.v
TxOpFacts.v
TxOpening.v
TxDemo.v
TxTheorems.v
TxOpenTheorems.v
TxEvents.v
Reading.v
Steps.v
EngineSteps.v
Concurrent.v
ConcurrentFacts.v
ConcurrentTheorems.v
ConcurrentDemo.v
Wire.v
Jcs.v
JcsFacts.v
JcsTheorems.v
Policy.v
Quota.v
QuotaTheorems.v
PolicyTheorems.v
Dispatch.v
DispatchFacts.v
DispatchDemo.v
DispatchTheorems.v
StepsCalm.v
Frames.v
FramesFacts.v
FramesTheorems.v
FramesDemo.v
Frame.v
FrameTheorems.v
Serve.v
ServeTheorems.v
RustText.v
NixScan.v
NixScanTheorems.v
NixRunner.v
NixCapture.v
NixFacts.v
NixTheorems.v
WdTopology.v
WdTopologyTheorems.v
WdMountTable.v
WdSealed.v
Gw.v
GwTheorems.v
BrokerHost.v
BrokerProcess.v
ProcessTheorems.v
WdClient.v
Schemas.v
