(* ===== verification/Prelude.v ===== *)
(** * Agentbed: a verification development

    Agentbed lets an agent change a machine's configuration through a broker
    that proposes, tests and applies transactions, and a watchdog that alone
    decides whether an applied transaction is committed or reverted.  This
    library models the parts that carry that logic and proves what makes them
    correct.

    ** How the program is modelled

    Each operation of the source is one definition, with its guards in the
    order of the code and every call that changes state.  Operations live in
    the monad [M S E] of this file: a state, and an outcome that is a value, an
    error or a panic ([outcome]).  [wp] is its weakest precondition; proofs
    walk a computation with the rewrite base [wp].

    The file system ([RustStd], [FS]) is a map from paths to contents and a
    set of directories.  Every call on it asks the environment [IoEnv], which
    may let it through, refuse it, or (for a write) let a prefix of the bytes
    through: a theorem that quantifies over [IoEnv] holds whatever fails and
    whenever.  A crash is a run that stops, so what a failed run leaves is what
    a restart finds.  Machine integers are [Z] with their bounds and their
    saturating or checked operations written out.

    Code outside the repository is a parameter: [serde_json] and the other
    codecs ([RecordCodec], [WireCodec], [BrokerCodec], [WireSerde],
    [JsonDocument], [JsonNumberFrom], [ResponseSerde], [TokenCodec]), the YAML
    reader with the schema validator ([ManifestCodec]), SHA-256
    ([Sha256Hash]), the digits of a double ([JsonFloat]), the clock, the
    entropy source, the process fencer, the invariant evaluator
    ([Dependencies], [Clock]), the host ([HostAdapter], [HostReport]), what
    the kernel tells of mounts and files ([HostView]), the commands of the Nix
    adapter and its JSON ([CommandRunner], [CaptureCodec]), the tables of
    Unicode ([UnicodeCase]), the gateway's JSON, peer and process ([GwCodec],
    [GwPeer], [GwProcess]), the broker's system calls ([HostSys],
    [ProcessEnv]), the socket of the watchdog ([WatchdogSocket]) and the
    schema compiler ([SchemaLib]).  What a theorem needs of them is a class of laws
    ([RecordCodecLaws], [WireCodecLaws], [BrokerCodecLaws],
    [JsonNumberFromLaws], [HonestReadback]) or a named hypothesis, which the
    concrete instances of [WdDemo], [TxDemo], [JcsTheorems] and
    [DispatchDemo] satisfy.

    ** The watchdog (watchdogd/src)

    - [WdTypes], [WdLog]: error.rs, interfaces.rs, worker_group_tag.rs, and
      read_model.rs with the decision log: records, schema, framing, reader,
      writer and the reconstruction of the authority.
    - [WdProtocol]: session.rs and rpc/protocol.rs: frames, envelopes,
      sessions, capability and counters.
    - [WdCore]: core.rs, durability_store.rs, fencing.rs, rpc/server.rs:
      startup, binding, the handlers, the fence, safe mode.
    - [WdLogFacts], [WdAuthority], [WdProtocolFacts], [WdStoreFacts],
      [WdCoreFacts], [WdStartup]: the facts about each; [WdHistory] that
      whatever a handler does only extends the log; [WdSystem] the system as a
      step relation (any frame that decodes to a binding, any frame of a
      session, a restart) with its invariant.  A restart is a [reopen],
      whatever fails in it, or an [open] in which no call fails: [open] takes
      a log whose stat fails for absent, and forgets it
      ([open_forgets_unseen_log]).  Strings are of any length: the writer
      takes a record of more than 64 KiB, which the reader does not, and the
      invariant has that case ([bricked]) beside agreement of log and memory.
    - [WdTheorems]: the invariant of all reachable states; that once a
      decision is on the log not a byte of it changes, and no other decision
      is held; what each handler does, startup, panics.  [WdLogTheorems]: the
      log reader is exact, damage is detected, appends are whole or torn, the
      lease policy.  [WdWireTheorems]: frames, requests and responses round
      trip, and counters admit no replay.

    ** The broker's transactions (broker/src/transaction, storage, events.rs)

    - [TxTypes]: proto/src/digest.rs and dto/transaction.rs, state.rs and the
      stored records.  [TxStorage]: durability.rs, wal.rs, idempotency.rs,
      events.rs.  [TxEngine]: recovery.rs and engine.rs.
    - [TxNames], [TxWalFacts]: names and directories of the log, recovery,
      and what an append or its undoing leaves when anything fails.
      [TxChain]: what makes a log lawful, record by record.
      [TxEngineFacts]: the engine agrees with a log ([agrees]).  [TxOpFacts]:
      what each operation does to that agreement.  [TxOpening]: what an
      opening reads, and which files it leaves alone.
    - [TxTheorems]: appends survive failures, every operation refines one
      record of the log or leaves what a restart recovers.  [TxOpenTheorems]: opening
      fails closed, retries, safe mode, the sequences of a transaction, and
      two ways to lose the engine to safe mode.  [TxEvents]: the event log and
      the digests.

    ** The broker's request path (proto/src, broker/src)

    - [Wire]: proto/src/wire.rs and dto/system_info.rs.  [Jcs]: strict.rs,
      jcs.rs and digest.rs; [JcsFacts] that what is written is read in one
      way only; [JcsTheorems] that the strict reader accepts exactly the
      documents with one meaning, that canonical bytes identify it, and that
      a digest binds an operation.
    - [Policy]: safety.rs, manifest.rs, policy.rs and the kinds of
      schemas/src/lib.rs.  [Quota]: quota.rs and identity.rs.
      [PolicyTheorems]: the ladder is the five stages in their order, it is
      monotone, and what a loaded manifest is.  [QuotaTheorems]: budgets,
      tokens and the token file.
    - [Dispatch]: dispatch.rs, tools/ and observability.rs, on top of the
      ladder, the budgets and the engine.  [DispatchFacts]: no operation of
      the engine panics; what loading, deciding and refusing leave alone.
      [DispatchDemo]: a dispatcher to run.  [DispatchTheorems]: one answer and
      one observation per frame, the engine is reached by authorized calls
      only, what a success implies, and what the credential is used for.
    - [Frame]: proto/src/frame.rs over a stream of read events.  [Serve]:
      server.rs and config.rs, the connection loop and the accept loop.
      [FrameTheorems], [ServeTheorems]: framing does not depend on how the
      bytes arrive, a connection is served frame by frame and ends, and the
      accept loop keeps its bound and its slots.

    ** Concurrent requests (server.rs, dispatch.rs, transaction/engine.rs)

    Each connection is served by a thread of its own.  [Dispatch] and
    [TxEngine] write a frame and an operation as they run when nobody
    interferes; this part takes them apart at their locks and puts the pieces
    together in any order.

    - [Steps]: computations as programs of atomic steps ([Prog]), and when the
      steps of one, taken alone, are a given operation ([implements]).
      [Reading]: computations that only read.  [EngineSteps]: the operations
      of engine.rs, one step for each use of an inner mutex or of the host.
    - [Concurrent]: threads on one engine and one file system.  A writer
      holds [dm_lock] from its first step to its last; [tx_status] and
      [events_replay] run in between its steps.  Each thread has the answers
      of the clock, the host and the disk to itself.  [ConcurrentFacts]: what
      a writer's steps do to the table of transactions.  [ConcurrentTheorems]:
      whatever the schedule the writers are those of whole operations one
      after another, a status that is read in between is one of an engine
      between them unless the run ends in safe mode, and every request is
      answered.  [ConcurrentDemo]: runs, and two races: a status of a
      transaction that is undone, and an event that a cursor skips.
    - [Frames]: a frame as a program: its own steps (the clock, the manifest,
      the ladder with the ledger under its lock, the observer) and at most
      one call of the engine, which is a thread of [Concurrent].
      [StepsCalm]: no step panics, so no lock is poisoned.  [FramesFacts],
      [FramesTheorems]: any number of frames at once: a frame alone is
      [handle_frame], each call was cleared and is answered to its own frame,
      the writers are serialised, and every frame is answered.
      [FramesDemo]: four frames that interleave.

    ** The broker's process (broker/src/main.rs, signals.rs, host.rs)

    - [BrokerHost]: adapter.rs, host.rs, peercred.rs and the line of
      observability.rs.  [BrokerProcess]: the arguments, the order of the
      start, the socket and the shutdown of server.rs, the signals.
      [ProcessTheorems]: what a start has behind it when it comes to
      the socket and to accepting, that the broker main.rs assembles only
      reads, and that the shutdown ends.
    - [WdClient]: watchdog/client.rs and the watchdog's own socket; a session
      that the client asks for, composed with [serve_one] of [WdCore].
    - [Schemas]: schemas/src/lib.rs; keeping the validators changes nothing,
      so [ManifestCodec] and [GwCodec] may take validation for a function.

    ** The sealed store (watchdogd/src/topology.rs)

    - [WdTopology]: the whole startup check, from the words of the mount table
      to the probe of writing with its cleanup.  [WdTopologyTheorems]: a store
      that passes is the sealed one - the configured path leads to the one
      mount, and what the host said of the mount, the domains and the paths of
      the layout while it was asked is as it must be ([sealed]) - and the check
      leaves no trace.  The check does not list the store's directory.  [WdMountTable]:
      the reader of the mount table inverts what the kernel writes.  [WdCore]
      takes the verdict of the check from the interface [Dependencies], as the
      code does.  [WdSealed] puts the check in that place
      ([ProductionTopology]: the verdict of a moment is that of the check
      started then): the watchdog starts on a sealed store only.

    ** The Nix adapter (adapters/nix/src, broker/src/nix_host_adapter.rs)

    - [RustText]: texts, lines, words and path components of Rust's library.
    - [NixScan]: protected.rs.  [NixScanTheorems]: a change passes exactly
      when its normalized text and path do, comments hide nothing, and two
      kinds of strings that do.
    - [NixRunner]: command_runner.rs, probe.rs, adapter.rs.  [NixCapture]:
      capture.rs, propose.rs and promotion/: the capture, the reservation of
      an activation, the pin and the steps to the boot entry.
    - [NixFacts]: which commands and files each piece can touch ([acts]).
      [NixTheorems]: over any sequence of operations no closure is tested
      twice and a capture never changes; promotion only follows a whole pin;
      what a failure leaves; and the base that is never read again.

    ** The gateway (gw/src)

    - [Gw]: client.rs, session.rs, mcp.rs, main.rs.  [GwTheorems]: what a
      session can send whatever lines it is given, how lines are answered, and
      a call composed with [Frame], [Serve] and [Dispatch]: the agent is told
      what the broker answered to that request.

    ** Fuel and bounds

    [read_loop] of the decision log takes as fuel the length of the file: a
    turn consumes at least a header.  [format_decimal] writes at most 40
    digits, more than a [u64] has.  The theorems on the logs assume fewer than
    2^64 records.  [read_full] takes the size of the stream as fuel, since a
    turn uses up an event or a byte, and [serve_loop] the same, since a frame
    uses up its prefix; [read_frame_exact] and [connection_serves_its_frames]
    show that it is enough.  The scanners of texts in [RustText] and [NixScan]
    take the length of the text, of which a turn uses up a character or more,
    and [parse_args] the number of arguments.  [wait_finished] takes the polls
    that fit into its deadline, which [shutdown_returns] shows to be enough;
    [wait_for_termination] is looked at over as many signals as one likes.

    ** Not modelled

    The system calls themselves, timeouts of streams, what is printed to
    stderr, and the texts of the schema files, which are data; an error of a
    single entry while a directory is listed (the whole listing may fail); the
    loss of writes that were not synced when the machine, not the process,
    stops; the apt adapter
    is a stub, and the test doubles (a runner, a sync and a durability that
    fail on demand, a collecting observer) are covered by environments that
    fail anywhere.  Poisoned locks
    are not modelled: no operation under a lock panics
    ([DispatchFacts], [calm]; [StepsCalm] for its steps).  [Serve] has the
    counter of the accept loop's threads and the order of its updates;
    [Frames] has what the threads do, frame by frame. *)

From stdpp Require Export base tactics list gmap strings numbers option fin_maps.
From Stdlib Require Export ZArith Lia.
From Stdlib Require Import Strings.Byte.

#[export] Set Default Goal Selector "!".
Open Scope Z_scope.

(** ** Automation shared by the whole development *)

Create HintDb agentbed.

(** Split every [match] or [if] whose scrutinee is not a variable. *)
Ltac case_match_all := repeat (case_match; simplify_eq/=).

(** Close an arithmetic or contradictory leaf. *)
Ltac leaf := try done; try lia; try congruence; eauto with agentbed.

(** Split the outermost boolean test of the goal or of a hypothesis and turn
    it into the proposition it decides. *)
Ltac bool_to_prop :=
  repeat match goal with
  | H : (_ && _)%bool = true |- _ => apply andb_true_iff in H as [? ?]
  | H : (_ || _)%bool = false |- _ => apply orb_false_iff in H as [? ?]
  | H : negb _ = true |- _ => apply negb_true_iff in H
  | H : negb _ = false |- _ => apply negb_false_iff in H
  | H : (_ <? _) = true |- _ => apply Z.ltb_lt in H
  | H : (_ <? _) = false |- _ => apply Z.ltb_ge in H
  | H : (_ <=? _) = true |- _ => apply Z.leb_le in H
  | H : (_ <=? _) = false |- _ => apply Z.leb_gt in H
  | H : (_ =? _) = true |- _ => apply Z.eqb_eq in H
  | H : (_ =? _) = false |- _ => apply Z.eqb_neq in H
  | H : bool_decide _ = true |- _ => apply bool_decide_eq_true in H
  | H : bool_decide _ = false |- _ => apply bool_decide_eq_false in H
  | H : ~ (_ <> _) |- _ => apply dec_stable in H
  end.

Lemma bool_decide_neq_refl {A} `{EqDecision A} (x : A) : bool_decide (x <> x) = false.
Proof. apply bool_decide_eq_false_2. intros Hx. by apply Hx. Qed.

(** ** Folds *)

(** The place of a value in a list. *)
Fixpoint index_of {A} `{EqDecision A} (x : A) (l : list A) : option nat :=
  match l with
  | [] => None
  | y :: l => if decide (x = y) then Some 0%nat else S <$> index_of x l
  end.

Lemma index_of_lookup {A} `{EqDecision A} (x : A) l i :
  index_of x l = Some i -> l !! i = Some x.
Proof.
  revert i. induction l as [|y l IH]; intros i; [done|]. cbn. case_decide as Hx.
  - by intros [= <-]; subst.
  - destruct (index_of x l); [|done]. cbn. intros [= <-]. cbn. by apply IH.
Qed.

Section Fold.
Context {A B : Type} (f : A -> B -> A) (P : A -> Prop).
Hypothesis Hstep : forall a b, P a -> P (f a b).

Lemma fold_left_inv bs a : P a -> P (fold_left f bs a).
Proof. revert a; induction bs; simpl; auto. Qed.

(** A fold whose steps are injective in the accumulator is injective in it. *)
Lemma fold_left_inj bs a c :
  (forall a c b, P a -> P c -> f a b = f c b -> a = c) ->
  P a -> P c -> fold_left f bs a = fold_left f bs c -> a = c.
Proof.
  intros Hinj. revert a c; induction bs as [|b bs IH]; simpl; [done|].
  intros a c Ha Hc Heq. eapply Hinj; [done|done|]. by apply IH in Heq; auto.
Qed.

(** Folding over two lists that differ in one element. *)
Lemma fold_left_one_diff p s a b c :
  (forall a c b, P a -> P c -> f a b = f c b -> a = c) ->
  P a -> fold_left f (p ++ b :: s) a = fold_left f (p ++ c :: s) a ->
  exists x, P x /\ f x b = f x c.
Proof.
  intros Hinj Ha. rewrite !fold_left_app. simpl. intros Heq.
  exists (fold_left f p a). split; [by apply fold_left_inv|].
  eapply (fold_left_inj s); eauto using fold_left_inv.
Qed.
End Fold.

(** ** Results: Rust's [Result<A, E>] *)

Inductive result (E A : Type) : Type :=
  | Ok (a : A)
  | Err (e : E).
Arguments Ok {E A} a.
Arguments Err {E A} e.

#[export] Instance result_eq_dec {E A} `{EqDecision E, EqDecision A} :
  EqDecision (result E A).
Proof. solve_decision. Defined.

#[export] Instance result_ret {E} : MRet (result E) := fun A a => Ok a.
#[export] Instance result_bind {E} : MBind (result E) := fun A B f r =>
  match r with
  | Ok a => f a
  | Err e => Err e
  end.

#[export] Instance result_fmap {E} : FMap (result E) := fun A B f r =>
  match r with Ok a => Ok (f a) | Err e => Err e end.

Section Result.
Context {E F A B : Type}.

(** [Option::ok_or] *)
Definition ok_or (o : option A) (e : E) : result E A :=
  match o with
  | Some a => Ok a
  | None => Err e
  end.

(** [Result::map_err] *)
Definition map_err (f : E -> F) (r : result E A) : result F A :=
  match r with
  | Ok a => Ok a
  | Err e => Err (f e)
  end.

(** [Result::ok] *)
Definition result_ok (r : result E A) : option A :=
  match r with
  | Ok a => Some a
  | Err _ => None
  end.

Definition is_ok (r : result E A) : bool :=
  match r with
  | Ok _ => true
  | Err _ => false
  end.

(** A guard of the source: [if cond { return Err(e); }]. *)
Definition fail_if (cond : bool) (e : E) : result E unit :=
  if cond then Err e else Ok tt.

Lemma ok_or_Ok (o : option A) (e : E) a :
  ok_or o e = Ok a <-> o = Some a.
Proof. destruct o; simpl; naive_solver. Qed.

Lemma fail_if_Ok cond (e : E) u : fail_if cond e = Ok u <-> cond = false.
Proof. destruct cond, u; simpl; naive_solver. Qed.

Lemma bind_Ok (a : A) (f : A -> result E B) : Ok a ≫= f = f a.
Proof. done. Qed.

Lemma bind_Err (e : E) (f : A -> result E B) : Err e ≫= f = Err e.
Proof. done. Qed.

Lemma result_bind_Ok (r : result E A) (f : A -> result E B) b :
  r ≫= f = Ok b <-> exists a, r = Ok a /\ f a = Ok b.
Proof.
  destruct r; simpl; split; try done; [eauto|intros (?&?&?); congruence|].
  by intros (?&?&?).
Qed.

Lemma result_bind_Err (r : result E A) (f : A -> result E B) e :
  r ≫= f = Err e <-> r = Err e \/ exists a, r = Ok a /\ f a = Err e.
Proof.
  destruct r; simpl; split; try done.
  - eauto.
  - intros [|(?&?&?)]; congruence.
  - intros [= ->]; auto.
  - intros [[= ->]|(?&?&?)]; congruence.
Qed.
End Result.

Create Rewrite HintDb result.
#[export] Hint Rewrite @bind_Ok @bind_Err : result.

(** Run the binds at the head of a chain. *)
Ltac run_ok := repeat (rewrite ?bind_Ok, ?bind_Err; cbn beta iota).

(** Invert a chain of [Ok] binds in the context. *)
Ltac inv_ok :=
  repeat match goal with
  | H : mbind _ _ = Ok _ |- _ =>
      let a := fresh "a" in let H1 := fresh H in
      apply result_bind_Ok in H as (a & H1 & H); cbn beta in H
  | H : (let '(_, _) := ?x in _) = Ok _ |- _ => destruct x
  | u : unit |- _ => destruct u
  | H : fail_if _ _ = Ok _ |- _ => apply fail_if_Ok in H
  | H : ok_or _ _ = Ok _ |- _ => apply ok_or_Ok in H
  | H : map_err _ ?r = Ok _ |- _ => destruct r eqn:?; [|discriminate H]; cbn [map_err] in H
  | H : Ok _ = Ok _ |- _ => injection H as H; subst
  | H : Err _ = Ok _ |- _ => discriminate H
  | H : Ok _ = Err _ |- _ => discriminate H
  end.

(** ** Effectful code: a state monad with errors and panics

    A handler of the source takes [&mut self], may return [Err] after it has
    changed the state, and may panic.  [Throw] keeps the state, as the source
    does. *)

Inductive outcome (E A : Type) : Type :=
  | Ret (a : A)
  | Throw (e : E)
  | Panic.
Arguments Ret {E A} a.
Arguments Throw {E A} e.
Arguments Panic {E A}.

Definition M (S E A : Type) : Type := S -> outcome E A * S.

#[export] Instance M_ret {S E} : MRet (M S E) := fun A a s => (Ret a, s).
#[export] Instance M_bind {S E} : MBind (M S E) := fun A B f m s =>
  match m s with
  | (Ret a, s') => f a s'
  | (Throw e, s') => (Throw e, s')
  | (Panic, s') => (Panic, s')
  end.

Section Monad.
Context {S E F A B : Type}.

Definition throw (e : E) : M S E A := fun s => (Throw e, s).
Definition panic : M S E A := fun s => (Panic, s).
Definition gets (f : S -> A) : M S E A := fun s => (Ret (f s), s).
Definition modify (f : S -> S) : M S E unit := fun s => (Ret tt, f s).

(** [expr?] on a [Result] *)
Definition of_result (r : result E A) : M S E A := fun s =>
  match r with
  | Ok a => (Ret a, s)
  | Err e => (Throw e, s)
  end.

(** Run an effectful call and look at its [Result]: [match call { .. }],
    [if let Err(e) = call { .. }], [call.is_err()]. *)
Definition attempt (m : M S E A) : M S F (result E A) := fun s =>
  match m s with
  | (Ret a, s') => (Ret (Ok a), s')
  | (Throw e, s') => (Ret (Err e), s')
  | (Panic, s') => (Panic, s')
  end.

(** [call.map_err(f)?] *)
Definition mapping_err (f : E -> F) (m : M S E A) : M S F A := fun s =>
  match m s with
  | (Ret a, s') => (Ret a, s')
  | (Throw e, s') => (Throw (f e), s')
  | (Panic, s') => (Panic, s')
  end.

(** A guard: [if cond { return Err(e); }]. *)
Definition throw_if (cond : bool) (e : E) : M S E unit := fun s =>
  if cond then (Throw e, s) else (Ret tt, s).
End Monad.

Lemma bind_of_Ok {S E A B} (a : A) (f : A -> M S E B) : of_result (Ok a) ≫= f = f a.
Proof. reflexivity. Qed.

(** Run a computation on a component of a larger state. *)
Definition zoom {S T E A} (get : S -> T) (put : T -> S -> S) (m : M T E A) : M S E A :=
  fun s => let '(o, t) := m (get s) in (o, put t s).

(** ** A predicate-transformer reading of the monad *)

Definition wp {S E A} (m : M S E A) (Q : outcome E A -> S -> Prop) (s : S) : Prop :=
  Q (fst (m s)) (snd (m s)).

Section Wp.
Context {S E F A B : Type}.
Implicit Types (s : S).

Lemma wp_mono (m : M S E A) (Q R : outcome E A -> S -> Prop) s :
  wp m Q s -> (forall o s', Q o s' -> R o s') -> wp m R s.
Proof. unfold wp; auto. Qed.

Lemma wp_ret (a : A) (Q : outcome E A -> S -> Prop) s : wp (mret a) Q s <-> Q (Ret a) s.
Proof. done. Qed.

Lemma wp_bind (m : M S E A) (f : A -> M S E B) Q s :
  wp (m ≫= f) Q s <->
  wp m (fun o s' => match o with
                    | Ret a => wp (f a) Q s'
                    | Throw e => Q (Throw e) s'
                    | Panic => Q Panic s'
                    end) s.
Proof.
  unfold wp, mbind, M_bind. destruct (m s) as [[] ?]; done.
Qed.

Lemma wp_throw (e : E) (Q : outcome E A -> S -> Prop) s : wp (throw e) Q s <-> Q (Throw e) s.
Proof. done. Qed.

Lemma wp_panic (Q : outcome E A -> S -> Prop) s : wp panic Q s <-> Q Panic s.
Proof. done. Qed.

Lemma wp_gets (f : S -> A) (Q : outcome E A -> S -> Prop) s :
  wp (gets f) Q s <-> Q (Ret (f s)) s.
Proof. done. Qed.

Lemma wp_modify f (Q : outcome E unit -> S -> Prop) s :
  wp (modify f) Q s <-> Q (Ret tt) (f s).
Proof. done. Qed.

Lemma wp_of_result (r : result E A) Q s :
  wp (of_result r) Q s <->
  match r with Ok a => Q (Ret a) s | Err e => Q (Throw e) s end.
Proof. unfold wp, of_result; destruct r; done. Qed.

Lemma wp_throw_if cond (e : E) Q s :
  wp (throw_if cond e) Q s <->
  (if cond then Q (Throw e) s else Q (Ret tt) s).
Proof. unfold wp, throw_if; destruct cond; done. Qed.

Lemma wp_attempt (m : M S E A) (Q : outcome F (result E A) -> S -> Prop) s :
  wp (attempt m) Q s <->
  wp m (fun o s' => match o with
                    | Ret a => Q (Ret (Ok a)) s'
                    | Throw e => Q (Ret (Err e)) s'
                    | Panic => Q Panic s'
                    end) s.
Proof. unfold wp, attempt. destruct (m s) as [[] ?]; done. Qed.

Lemma wp_mapping_err (f : E -> F) (m : M S E A) Q s :
  wp (mapping_err f m) Q s <->
  wp m (fun o s' => match o with
                    | Ret a => Q (Ret a) s'
                    | Throw e => Q (Throw (f e)) s'
                    | Panic => Q Panic s'
                    end) s.
Proof. unfold wp, mapping_err. destruct (m s) as [[] ?]; done. Qed.

Lemma wp_zoom {T} (get : S -> T) put (m : M T E A) Q s :
  wp (zoom get put m) Q s <-> wp m (fun o t => Q o (put t s)) (get s).
Proof. unfold wp, zoom. destruct (m (get s)) as [o t]; done. Qed.

(** What is returned last does not depend on what came before. *)
Lemma wp_returns (m : M S E A) (f : A -> M S E B) (P : B -> Prop) s :
  (forall a s1, wp (f a) (fun o _ => forall b, o = Ret b -> P b) s1) ->
  wp (m ≫= f) (fun o _ => forall b, o = Ret b -> P b) s.
Proof. intros Hf. rewrite wp_bind. unfold wp at 1. destruct (m s) as [[a|e|] s1]; [apply Hf|done|done]. Qed.

(** What a run returned is what its [wp] says. *)
Lemma wp_run (m : M S E A) Q s o s' : wp m Q s -> m s = (o, s') -> Q o s'.
Proof. unfold wp. intros H Hm. by rewrite Hm in H. Qed.
End Wp.

Create Rewrite HintDb wp.
#[export] Hint Rewrite @wp_ret @wp_bind @wp_throw @wp_panic @wp_gets @wp_modify
  @wp_of_result @wp_throw_if @wp_attempt @wp_mapping_err @wp_zoom : wp.

(** Push [wp] through the monadic structure. *)
Ltac wp_simpl := repeat (autorewrite with wp; cbn beta iota).

(** ** Machine integers *)

Definition u32_max : Z := 2 ^ 32 - 1.
Definition i32_max : Z := 2 ^ 31 - 1.
Definition u64_max : Z := 2 ^ 64 - 1.

Definition is_u32 (z : Z) : Prop := 0 <= z <= u32_max.
Definition is_u64 (z : Z) : Prop := 0 <= z <= u64_max.

Definition u64_checked_add (a b : Z) : option Z :=
  if a + b <=? u64_max then Some (a + b) else None.
Definition u64_saturating_add (a b : Z) : Z := Z.min (a + b) u64_max.
Definition u64_saturating_sub (a b : Z) : Z := Z.max (a - b) 0.

Lemma u64_checked_add_Some a b c :
  u64_checked_add a b = Some c <-> c = a + b /\ a + b <= u64_max.
Proof.
  unfold u64_checked_add. destruct (_ <=? _) eqn:H; bool_to_prop; split; intros;
    destruct_and?; simplify_eq; auto; lia.
Qed.

Lemma u64_checked_add_None a b : u64_checked_add a b = None <-> u64_max < a + b.
Proof.
  unfold u64_checked_add. destruct (_ <=? _) eqn:H; bool_to_prop; split; intros;
    simplify_eq; auto; lia.
Qed.

(** ** Bytes and big-endian encodings *)

Definition byte := Byte.byte.
#[export] Instance byte_eq_dec : EqDecision byte := Byte.byte_eq_dec.

Definition byte_val (b : byte) : Z := Z.of_N (Byte.to_N b).
Definition byte_of (z : Z) : byte :=
  match Byte.of_N (Z.to_N (z mod 256)) with
  | Some b => b
  | None => Byte.x00
  end.

Lemma byte_val_range b : 0 <= byte_val b < 256.
Proof. destruct b; vm_compute; split; congruence. Qed.

Lemma byte_val_of z : byte_val (byte_of z) = z mod 256.
Proof.
  unfold byte_val, byte_of.
  assert (Hz : 0 <= z mod 256 < 256) by (apply Z.mod_pos_bound; lia).
  destruct (Byte.of_N (Z.to_N (z mod 256))) eqn:Hb.
  - apply Byte.to_of_N in Hb. rewrite Hb, Z2N.id; lia.
  - apply Byte.of_N_None_iff in Hb. lia.
Qed.

Lemma byte_of_val b : byte_of (byte_val b) = b.
Proof. by destruct b. Qed.

Lemma byte_val_inj b c : byte_val b = byte_val c -> b = c.
Proof. intros H. by rewrite <-(byte_of_val b), <-(byte_of_val c), H. Qed.

(** [to_be_bytes] of an integer of [n] bytes, and [from_be_bytes]. *)
Fixpoint be_bytes (n : nat) (z : Z) : list byte :=
  match n with
  | O => []
  | S n => be_bytes n (z / 256) ++ [byte_of z]
  end.

Definition be_value (bs : list byte) : Z :=
  fold_left (fun acc b => acc * 256 + byte_val b) bs 0.

Lemma length_be_bytes n z : length (be_bytes n z) = n.
Proof. revert z; induction n; intros; simpl; [done|]. rewrite length_app, IHn; simpl; lia. Qed.

Lemma be_value_snoc bs b : be_value (bs ++ [b]) = be_value bs * 256 + byte_val b.
Proof. unfold be_value. by rewrite fold_left_app. Qed.

Lemma be_value_bytes n z : 0 <= z < 256 ^ Z.of_nat n -> be_value (be_bytes n z) = z.
Proof.
  revert z; induction n as [|n IH]; intros z Hz.
  - simpl in *. unfold be_value; simpl. lia.
  - rewrite Nat2Z.inj_succ, Z.pow_succ_r in Hz by lia.
    simpl. rewrite be_value_snoc, byte_val_of, IH.
    + pose proof (Z.div_mod z 256). lia.
    + split; [apply Z.div_pos; lia | apply Z.div_lt_upper_bound; lia].
Qed.

Lemma be_bytes_value bs : be_bytes (length bs) (be_value bs) = bs.
Proof.
  induction bs as [|b bs IH] using rev_ind; [done|].
  rewrite length_app, Nat.add_comm, be_value_snoc. simpl.
  pose proof (byte_val_range b). f_equal.
  - rewrite Z.div_add_l by lia. rewrite Z.div_small by lia. by rewrite Z.add_0_r.
  - f_equal. apply byte_val_inj. rewrite byte_val_of.
    rewrite Z.add_comm, Z.mod_add by lia. by rewrite Z.mod_small by lia.
Qed.

Lemma be_value_range bs : 0 <= be_value bs < 256 ^ Z.of_nat (length bs).
Proof.
  induction bs as [|b bs IH] using rev_ind; [done|].
  rewrite be_value_snoc, length_app; simpl.
  rewrite Nat2Z.inj_add, Z.pow_add_r by lia. pose proof (byte_val_range b).
  change (256 ^ Z.of_nat 1) with 256. nia.
Qed.

#[global] Arguments be_bytes : simpl never.
