(* ===== verification/RustStd.v ===== *)
(** * The parts of Rust's standard library the code relies on

    Time ([SystemTime], [Duration]), paths, decimal formatting and a file
    system.  The file system is a store of files and directories; every call
    on it may fail, as the environment [IoEnv] decides call by call, and a
    failing write may leave a prefix of its bytes behind. *)

From S2P Require Import Prelude.

(** ** Time

    An instant is a number of nanoseconds since [UNIX_EPOCH]; the platform's
    [SystemTime] holds its seconds in an [i64]. *)

Definition SystemTime := Z.
Definition Duration := Z.

Definition NSEC : Z := 1000000000.
Definition UNIX_EPOCH : SystemTime := 0.

(** [Duration::new(secs, nanos)]: the nanoseconds carry into the seconds, and
    the call panics ([None]) when the seconds overflow a [u64]. *)
Definition Duration_new (secs nanos : Z) : option Duration :=
  let s := secs + nanos / NSEC in
  if s <=? u64_max then Some (s * NSEC + nanos mod NSEC) else None.

Definition Duration_from_secs (secs : Z) : Duration := secs * NSEC.

(** [SystemTime::checked_add] *)
Definition SystemTime_checked_add (t : SystemTime) (d : Duration) : option SystemTime :=
  if t + d <? 2 ^ 63 * NSEC then Some (t + d) else None.

(** [SystemTime::duration_since]; [None] is the error of a negative distance. *)
Definition SystemTime_duration_since (t earlier : SystemTime) : option Duration :=
  if earlier <=? t then Some (t - earlier) else None.

Definition Duration_as_secs (d : Duration) : Z := d / NSEC.
Definition Duration_subsec_nanos (d : Duration) : Z := d mod NSEC.

(** An instant the platform can hold, at or after the epoch. *)
Definition instant_ok (t : SystemTime) : Prop := 0 <= t < 2 ^ 63 * NSEC.

Lemma SystemTime_checked_add_Some t d t' :
  SystemTime_checked_add t d = Some t' <-> t' = t + d /\ t + d < 2 ^ 63 * NSEC.
Proof.
  unfold SystemTime_checked_add. destruct (_ <? _) eqn:H; bool_to_prop; split; intros;
    destruct_and?; simplify_eq; auto; lia.
Qed.

Lemma duration_parts_new t :
  instant_ok t ->
  Duration_new (Duration_as_secs t) (Duration_subsec_nanos t) = Some t.
Proof.
  unfold instant_ok, Duration_new, Duration_as_secs, Duration_subsec_nanos, NSEC.
  intros [H0 H1].
  assert (Hm : 0 <= t mod 1000000000 < 1000000000) by (apply Z.mod_pos_bound; lia).
  rewrite (Z.div_small (t mod _)) by lia. rewrite (Z.mod_small (t mod _)) by lia.
  assert (t / 1000000000 < 2 ^ 63) by (apply Z.div_lt_upper_bound; lia).
  destruct (_ <=? _) eqn:E; bool_to_prop; [|unfold u64_max in *; lia].
  f_equal. rewrite (Z.div_mod t 1000000000) at 3 by lia. lia.
Qed.

Lemma duration_parts_bounds t :
  instant_ok t ->
  is_u64 (Duration_as_secs t) /\ 0 <= Duration_subsec_nanos t < NSEC.
Proof.
  unfold instant_ok, Duration_as_secs, Duration_subsec_nanos, is_u64, u64_max, NSEC.
  intros [H0 H1]. split; [|apply Z.mod_pos_bound; lia].
  split; [apply Z.div_pos; lia|].
  assert (t / 1000000000 < 2 ^ 63) by (apply Z.div_lt_upper_bound; lia). lia.
Qed.

(** ** Paths: a path is the list of its components *)

Definition Path := list string.

Definition path_join (p rel : Path) : Path := p ++ rel.
Definition path_parent (p : Path) : option Path :=
  match p with
  | [] => None
  | _ => Some (removelast p)
  end.

Lemma path_parent_snoc p n : path_parent (p ++ [n]) = Some p.
Proof. unfold path_parent. rewrite removelast_last. by destruct p. Qed.

(** ** Decimal formatting of unsigned integers *)

Definition digit_char (d : Z) : Ascii.ascii := Ascii.ascii_of_nat (48 + Z.to_nat d).

Fixpoint decimal_digits (fuel : nat) (n : Z) (acc : string) : string :=
  match fuel with
  | O => acc
  | S fuel =>
      let acc := String (digit_char (n mod 10)) acc in
      if n <? 10 then acc else decimal_digits fuel (n / 10) acc
  end.

(** [format!("{n}")] for [n : u64] or [u128]: at most 39 digits. *)
Definition format_decimal (n : Z) : string := decimal_digits 40 n "".

(** [str::parse::<u64>] : an optional sign and at least one digit, in range. *)
Definition digit_value (c : Ascii.ascii) : option Z :=
  let v := Z.of_nat (Ascii.nat_of_ascii c) - 48 in
  if (0 <=? v) && (v <=? 9) then Some v else None.

Fixpoint parse_digits (s : string) (acc : Z) : option Z :=
  match s with
  | EmptyString => Some acc
  | String c s =>
      v ← digit_value c;
      let acc := acc * 10 + v in
      if acc <=? u64_max then parse_digits s acc else None
  end.

Definition PLUS : Ascii.ascii := Ascii.ascii_of_nat 43.

Definition parse_u64 (s : string) : option Z :=
  match s with
  | EmptyString => None
  | String c rest =>
      if decide (c = PLUS)
      then match rest with EmptyString => None | _ => parse_digits rest 0 end
      else parse_digits s 0
  end.

(** [format!("{:016x}")] of a [u64] *)
Definition hex_char (d : Z) : Ascii.ascii :=
  Ascii.ascii_of_nat (if d <? 10 then 48 + Z.to_nat d else 87 + Z.to_nat d).

Fixpoint hex_digits (width : nat) (n : Z) (acc : string) : string :=
  match width with
  | O => acc
  | S width => hex_digits width (n / 16) (String (hex_char (n mod 16)) acc)
  end.
Definition format_hex16 (n : Z) : string := hex_digits 16 n "".

(** [Path::file_stem] and [Path::extension] of a file name: the name is cut
    at its last dot, unless that dot is its first character. *)
Definition DOT : Ascii.ascii := Ascii.ascii_of_nat 46.

Fixpoint split_last_dot (s : string) : option (string * string) :=
  match s with
  | EmptyString => None
  | String c s =>
      match split_last_dot s with
      | Some (a, b) => Some (String c a, b)
      | None => if decide (c = DOT) then Some ("", s) else None
      end
  end.

Definition file_stem (name : string) : string :=
  match split_last_dot name with
  | Some (EmptyString, _) | None => name
  | Some (stem, _) => stem
  end.

Definition extension (name : string) : option string :=
  match split_last_dot name with
  | Some (EmptyString, _) | None => None
  | Some (_, ext) => Some ext
  end.

(** [sort_by_key]: a stable sort. *)
Section Sort.
Context {A : Type} (key : A -> Z).

Fixpoint insert_by_key (x : A) (l : list A) : list A :=
  match l with
  | [] => [x]
  | y :: l => if key x <=? key y then x :: y :: l else y :: insert_by_key x l
  end.

Fixpoint sort_by_key (l : list A) : list A :=
  match l with
  | [] => []
  | x :: l => insert_by_key x (sort_by_key l)
  end.
End Sort.

(** [String::from_utf8]: well-formed UTF-8. *)
Definition is_cont (b : byte) : bool := (128 <=? byte_val b) && (byte_val b <=? 191).
Definition in_bytes (lo hi : Z) (b : byte) : bool := (lo <=? byte_val b) && (byte_val b <=? hi).

Fixpoint utf8_ok (bs : list byte) : bool :=
  match bs with
  | [] => true
  | b0 :: rest =>
      if byte_val b0 <=? 127 then utf8_ok rest else
      match rest with
      | [] => false
      | b1 :: rest1 =>
          if in_bytes 194 223 b0 then is_cont b1 && utf8_ok rest1 else
          match rest1 with
          | [] => false
          | b2 :: rest2 =>
              if in_bytes 224 239 b0 then
                in_bytes (if byte_val b0 =? 224 then 160 else 128)
                         (if byte_val b0 =? 237 then 159 else 191) b1 &&
                is_cont b2 && utf8_ok rest2
              else
              match rest2 with
              | [] => false
              | b3 :: rest3 =>
                  in_bytes 240 244 b0 &&
                  in_bytes (if byte_val b0 =? 240 then 144 else 128)
                           (if byte_val b0 =? 244 then 143 else 191) b1 &&
                  is_cont b2 && is_cont b3 && utf8_ok rest3
              end
          end
      end
  end.

(** A string as the bytes it is stored as, and back. *)
Definition bytes_of_string (s : string) : list byte :=
  map (fun c => byte_of (Z.of_nat (Ascii.nat_of_ascii c))) (String.list_ascii_of_string s).
Definition string_of_bytes (bs : list byte) : string :=
  String.string_of_list_ascii (map (fun b => Ascii.ascii_of_nat (Z.to_nat (byte_val b))) bs).

(** ** The file system *)

Record FS := mkFS {
  fs_files : gmap Path (list byte);
  fs_dirs : gset Path;
}.

Definition fs_empty : FS := mkFS ∅ ∅.

(** What the environment does to one call: let it through, refuse it before
    it has an effect, or (for a write) let [k] bytes through and then fail. *)
Inductive fault :=
  | NoFault
  | FailBefore
  | FailAfter (k : nat).

Class IoEnv := {
  io_fault : nat -> fault;
}.

(** The world a component acts on: the file system, how many environment
    calls were made, and the calls on injected interfaces, oldest first. *)
Record World (C : Type) := mkWorld {
  w_fs : FS;
  w_tick : nat;
  w_calls : list C;
}.
Arguments mkWorld {C} _ _ _.
Arguments w_fs {C} _.
Arguments w_tick {C} _.
Arguments w_calls {C} _.

Definition IoError := string.

Section Io.
Context {C : Type} `{!IoEnv}.

Abbreviation FsM := (M (World C) IoError).

Definition w_set_fs (fs : FS) (w : World C) : World C :=
  mkWorld fs (S (w_tick w)) (w_calls w).

(** One system call: [f] is its effect, [None] when it cannot succeed. *)
Definition io_call {A} (f : FS -> option (A * FS)) : FsM A := fun w =>
  match io_fault (w_tick w) with
  | NoFault =>
      match f (w_fs w) with
      | Some (a, fs) => (Ret a, w_set_fs fs w)
      | None => (Throw "io", w_set_fs (w_fs w) w)
      end
  | _ => (Throw "io", w_set_fs (w_fs w) w)
  end.

Definition dir_exists (fs : FS) (p : Path) : bool := bool_decide (p ∈ fs_dirs fs).

Definition fs_exists (fs : FS) (p : Path) : bool :=
  bool_decide (is_Some (fs_files fs !! p)) || dir_exists fs p.

Definition put_file (p : Path) (bs : list byte) (fs : FS) : FS :=
  mkFS (<[p := bs]> (fs_files fs)) (fs_dirs fs).

(** [Path::exists]: a failing [stat] reads as absent. *)
Definition path_exists {E} (p : Path) : M (World C) E bool := fun w =>
  match io_fault (w_tick w) with
  | NoFault => (Ret (fs_exists (w_fs w) p), w_set_fs (w_fs w) w)
  | _ => (Ret false, w_set_fs (w_fs w) w)
  end.

(** [fs::read], [File::open] followed by [read_to_end], [fs::read_to_string] *)
Definition fs_read (p : Path) : FsM (list byte) :=
  io_call (fun fs => bs ← fs_files fs !! p; Some (bs, fs)).

(** [fs::read_to_string]: the text, as its bytes. *)
Definition fs_read_to_string (p : Path) : FsM (list byte) :=
  io_call (fun fs => bs ← fs_files fs !! p; if utf8_ok bs then Some (bs, fs) else None).

(** Opening an existing file for writing, or a directory for [sync_all]. *)
Definition open_existing (p : Path) : FsM unit :=
  io_call (fun fs => if bool_decide (is_Some (fs_files fs !! p)) then Some (tt, fs) else None).
Definition open_dir (p : Path) : FsM unit :=
  io_call (fun fs => if dir_exists fs p then Some (tt, fs) else None).

(** [fs::create_dir_all] *)
Fixpoint prefixes (p : Path) : list Path :=
  match p with
  | [] => [[]]
  | n :: p => [] :: map (cons n) (prefixes p)
  end.

Definition create_dir_all (p : Path) : FsM unit :=
  io_call (fun fs =>
    if bool_decide (Exists (fun q => is_Some (fs_files fs !! q)) (prefixes p))
    then None
    else Some (tt, mkFS (fs_files fs) (list_to_set (prefixes p) ∪ fs_dirs fs))).

(** [fs::read_dir]: the names of the entries, in no particular order. *)
Definition entry_name (p q : Path) : option string :=
  match q with
  | [] => None
  | _ => if bool_decide (removelast q = p) then last q else None
  end.

Definition entries (fs : FS) (p : Path) : list string :=
  omap (entry_name p) (elements (dom (fs_files fs)) ++ elements (fs_dirs fs)).

Definition read_dir (p : Path) : FsM (list string) :=
  io_call (fun fs => if dir_exists fs p then Some (entries fs p, fs) else None).

(** Opening for writing: the parent directory has to exist, and the path
    must not be a directory. *)
Definition can_create (fs : FS) (p : Path) : bool :=
  match path_parent p with
  | Some d => dir_exists fs d && negb (dir_exists fs p)
  | None => false
  end.

(** [OpenOptions::new().write(true).create_new(true).open] *)
Definition open_create_new (p : Path) : FsM unit :=
  io_call (fun fs =>
    if can_create fs p && negb (fs_exists fs p)
    then Some (tt, put_file p [] fs) else None).

(** [OpenOptions::new().create(true).append(true).open] *)
Definition open_append (p : Path) : FsM unit :=
  io_call (fun fs =>
    if can_create fs p
    then Some (tt, put_file p (default [] (fs_files fs !! p)) fs) else None).

(** Opening with truncation, as [fs::write] and [File::create] do. *)
Definition open_truncate (p : Path) : FsM unit :=
  io_call (fun fs =>
    if can_create fs p then Some (tt, put_file p [] fs) else None).

(** [file.write_all(bs)] on a handle positioned at the end of file [p]. *)
Definition write_all (p : Path) (bs : list byte) : FsM unit := fun w =>
  let old := default [] (fs_files (w_fs w) !! p) in
  match io_fault (w_tick w) with
  | NoFault => (Ret tt, w_set_fs (put_file p (old ++ bs) (w_fs w)) w)
  | FailBefore => (Throw "io", w_set_fs (w_fs w) w)
  | FailAfter k => (Throw "io", w_set_fs (put_file p (old ++ take k bs) (w_fs w)) w)
  end.

(** [file.sync_all()] *)
Definition sync_all (p : Path) : FsM unit := io_call (fun fs => Some (tt, fs)).

(** [fs::write] *)
Definition fs_write (p : Path) (bs : list byte) : FsM unit :=
  open_truncate p ;; write_all p bs.

(** [fs::rename] of a file *)
Definition rename_file (from to : Path) (fs : FS) : option FS :=
  bs ← fs_files fs !! from;
  if can_create fs to
  then Some (mkFS (<[to := bs]> (delete from (fs_files fs))) (fs_dirs fs))
  else None.

Definition fs_rename (from to : Path) : FsM unit :=
  io_call (fun fs => fs' ← rename_file from to fs; Some (tt, fs')).

(** [fs::remove_file] *)
Definition remove_file (p : Path) : FsM unit :=
  io_call (fun fs =>
    _ ← fs_files fs !! p; Some (tt, mkFS (delete p (fs_files fs)) (fs_dirs fs))).

(** ** What the calls do *)

Implicit Types (w : World C) (p q : Path).

Lemma wp_path_exists {E} p (Q : outcome E bool -> World C -> Prop) w :
  wp (path_exists p) Q w <->
  Q (Ret (match io_fault (w_tick w) with
          | NoFault => fs_exists (w_fs w) p
          | _ => false
          end)) (w_set_fs (w_fs w) w).
Proof. unfold wp, path_exists. by destruct (io_fault _). Qed.

(** A call whose effect is [f]: either it did it, or nothing changed but
    the clock of the environment. *)
Lemma wp_io_call {A} (f : FS -> option (A * FS)) Q w :
  (forall a fs, f (w_fs w) = Some (a, fs) -> Q (Ret a) (w_set_fs fs w)) ->
  Q (Throw "io") (w_set_fs (w_fs w) w) ->
  wp (io_call f) Q w.
Proof.
  intros H1 H2. unfold wp, io_call.
  destruct (io_fault _); [|done|done].
  destruct (f (w_fs w)) as [[a fs]|] eqn:E; [by apply H1|done].
Qed.

Lemma wp_write_all p bs Q w :
  (forall k, Q (Throw "io")
    (w_set_fs (put_file p (default [] (fs_files (w_fs w) !! p) ++ take k bs) (w_fs w)) w)) ->
  Q (Throw "io") (w_set_fs (w_fs w) w) ->
  Q (Ret tt) (w_set_fs (put_file p (default [] (fs_files (w_fs w) !! p) ++ bs) (w_fs w)) w) ->
  wp (write_all p bs) Q w.
Proof. intros H1 H2 H3. unfold wp, write_all. destruct (io_fault _); [done|done|apply H1]. Qed.
End Io.

(** An environment in which every call succeeds. *)
Definition reliable_io : IoEnv := {| io_fault := fun _ => NoFault |}.
