(* ===== verification/Json.v ===== *)
(** * JSON values as [serde_json] presents them

    [serde_json] is a dependency: its number type and its accessors are the
    operations of the interface [JsonNumber].  The tree of a parsed document
    is the enumeration [Value]; an object is the list of its members, in the
    order its map iterates them. *)

From S2P Require Import Prelude.

(** [serde_json::Number] and the two accessors the code calls. *)
Class JsonNumber := {
  Number : Type;
  as_i64 : Number -> option Z;
  as_u64 : Number -> option Z;
}.

(** What the accessors promise: the value, when it fits the integer type;
    the two agree where both answer. *)
Class JsonNumberLaws `{JsonNumber} : Prop := {
  as_i64_range n z : as_i64 n = Some z -> - 2 ^ 63 <= z < 2 ^ 63;
  as_u64_range n z : as_u64 n = Some z -> is_u64 z;
  as_u64_i64 n z : as_u64 n = Some z -> z < 2 ^ 63 -> as_i64 n = Some z;
  as_i64_u64 n z : as_i64 n = Some z -> 0 <= z -> as_u64 n = Some z;
}.

Section Value.
Context `{JsonNumber}.

(** [serde_json::Value] *)
Inductive Value :=
  | VNull
  | VBool (b : bool)
  | VNumber (n : Number)
  | VString (s : string)
  | VArray (items : list Value)
  | VObject (members : list (string * Value)).

Fixpoint members_get (key : string) (ms : list (string * Value)) : option Value :=
  match ms with
  | [] => None
  | (k, v) :: ms => if decide (k = key) then Some v else members_get key ms
  end.

(** [Value::get] with a string index *)
Definition value_get (key : string) (v : Value) : option Value :=
  match v with
  | VObject ms => members_get key ms
  | _ => None
  end.

(** [Value::as_u64], [Value::as_str], [Value::as_object] *)
Definition value_as_u64 (v : Value) : option Z :=
  match v with VNumber n => as_u64 n | _ => None end.
Definition value_as_str (v : Value) : option string :=
  match v with VString s => Some s | _ => None end.
Definition value_as_object (v : Value) : option (list (string * Value)) :=
  match v with VObject ms => Some ms | _ => None end.
End Value.

(** Integers as numbers: the instance the witnesses compute with. *)
Definition in_range (lo hi z : Z) : option Z :=
  if (lo <=? z) && (z <? hi) then Some z else None.

Lemma in_range_Some lo hi z z' : in_range lo hi z = Some z' <-> z' = z /\ lo <= z < hi.
Proof.
  unfold in_range. destruct (_ && _)%bool eqn:E; bool_to_prop.
  - split; [intros [= <-]; lia | by intros [-> _]].
  - apply andb_false_iff in E as [E|E]; bool_to_prop; split; try done; lia.
Qed.

Definition int_number : JsonNumber :=
  {| Number := Z; as_i64 := in_range (- 2 ^ 63) (2 ^ 63); as_u64 := in_range 0 (2 ^ 64) |}.

Lemma int_number_laws : @JsonNumberLaws int_number.
Proof.
  split; intros n z; simpl; rewrite ?in_range_Some; unfold is_u64, u64_max; lia.
Qed.
