(* ===== verification/WdTypes.v ===== *)
(** * Watchdog: error types, worker tags and injected interfaces

    [watchdogd/src/error.rs], [worker_group_tag.rs], [interfaces.rs],
    [fencing.rs] and the binding record of [session.rs]. *)

From S2P Require Import Prelude RustStd Json.

(** ** error.rs *)

Inductive TopologyError :=
  | MissingMount | SameDeviceAlias | SymlinkComponent | NonRegularComponent
  | WrongOwnershipOrMode | WrongLinkCount | HardLinkAmbiguity
  | OrdinaryDirectoryFallback | Unwritable | UnavailableStore.

Inductive DurabilityError :=
  | InjectedFailure
  | DurIo (message : string).

Inductive ExternalFloorError := FloorAmbiguous | FloorUnavailable.
Inductive PeerCredError := PeerCredUnavailable.
Inductive FenceStage := AfterTerm | AfterKill.
Inductive FenceError := SignalFailed | FenceErrIncomplete | WaitFailed | FenceUnavailable.
Inductive InvariantError := InvariantUnavailable.
Inductive JobInspectError := JobsUnavailable.

Inductive WatchdogError :=
  | WTopology (e : TopologyError)
  | WSafeModeActive
  | WSafeModePersistUnavailable
  | WEpochLogMismatch
  | WDurability (e : DurabilityError).

Inductive RpcError :=
  | RDurability (e : DurabilityError)
  | SafeModeActive
  | OversizeFrame
  | MalformedFrame
  | CrcMismatch
  | UnknownVersion
  | DenyUnknown
  | ReplayCounter
  | StaleReconnect
  | ConflictingRequest
  | WrongCapability
  | WrongPeer
  | ResponseBindingMismatch
  | MovedBase
  | WeakenedMandatoryInvariant
  | ExpiredDeadline
  | WrongEpoch
  | UnknownTransaction
  | StaleEpoch
  | WrongBinding
  | ClockRegression
  | FenceIncomplete
  | MalformedRequest
  | Transport (message : string).

#[export] Instance TopologyError_eq_dec : EqDecision TopologyError.
Proof. solve_decision. Defined.
#[export] Instance DurabilityError_eq_dec : EqDecision DurabilityError.
Proof. solve_decision. Defined.
#[export] Instance RpcError_eq_dec : EqDecision RpcError.
Proof. solve_decision. Defined.

(** ** worker_group_tag.rs *)

Record WorkerGroupTag := mkTag { tag_raw : Z }.
#[export] Instance WorkerGroupTag_eq_dec : EqDecision WorkerGroupTag.
Proof. solve_decision. Defined.

(** [WorkerGroupTag::try_from_raw] of a [u32] *)
Definition try_from_raw (value : Z) : result RpcError WorkerGroupTag :=
  if (2 <=? value) && (value <=? i32_max) then Ok (mkTag value) else Err MalformedRequest.

(** [u32::try_from] of a wider integer *)
Definition u32_try_from (z : Z) : option Z :=
  if (0 <=? z) && (z <=? u32_max) then Some z else None.

Definition parse_worker_group_tag_value `{JsonNumber} (value : Value) :
    result RpcError WorkerGroupTag :=
  match value with
  | VNumber number =>
      match as_i64 number with
      | Some signed =>
          if signed <? 0 then Err MalformedRequest
          else raw ← ok_or (u32_try_from signed) MalformedRequest; try_from_raw raw
      | None =>
          match as_u64 number with
          | Some unsigned =>
              raw ← ok_or (u32_try_from unsigned) MalformedRequest; try_from_raw raw
          | None => Err MalformedRequest
          end
      end
  | _ => Err MalformedRequest
  end.

(** A tag the constructor lets through. *)
Definition tag_ok (t : WorkerGroupTag) : Prop := 2 <= tag_raw t <= i32_max.

Lemma try_from_raw_Ok value t :
  try_from_raw value = Ok t <-> t = mkTag value /\ tag_ok (mkTag value).
Proof.
  unfold try_from_raw, tag_ok; simpl.
  destruct (_ && _)%bool eqn:E; bool_to_prop.
  - split; [intros [= <-]; split; [done|simpl; lia] | by intros [-> _]].
  - apply andb_false_iff in E as [E|E]; bool_to_prop; (split; [done|intros [_ ?]; lia]).
Qed.

(** ** session.rs: the durable binding *)

Record BoundSession := mkBound {
  bs_host_id : string;
  bs_tx_id : string;
  bs_epoch : Z;
  bs_lease_id : string;
  bs_worker_group_tag : WorkerGroupTag;
}.
#[export] Instance BoundSession_eq_dec : EqDecision BoundSession.
Proof. solve_decision. Defined.

(** ** interfaces.rs *)

Record PeerCred := mkCred { cred_uid : Z; cred_gid : Z; cred_pid : Z }.
Inductive InvariantOutcome := InvPass | InvFail.
Inductive SignalKind := Term | Kill.

(** The injected interfaces.  Each answers a call with what it observes at
    that moment: the argument is the number of environment calls made so far.
    A rename may or may not have moved the file by the time it answers. *)
Class Dependencies := {
  clock_now : nat -> SystemTime;
  entropy_byte : nat -> nat -> byte;
  topology_verify_startup : nat -> Path -> result TopologyError unit;
  dur_file_fsync : nat -> Path -> result DurabilityError unit;
  dur_dir_fsync : nat -> Path -> result DurabilityError unit;
  dur_atomic_rename : nat -> Path -> Path -> result DurabilityError unit;
  dur_rename_moves : nat -> bool;
  dur_readback_verify : nat -> FS -> Path -> list byte -> result DurabilityError unit;
  pg_signal : nat -> SignalKind -> result FenceError unit;
  pg_group_alive : nat -> FenceStage -> bool;
  pg_bounded_wait : nat -> Duration -> result FenceError unit;
  job_candidate_count : nat -> result JobInspectError Z;
  floor_read_epoch : nat -> result ExternalFloorError Z;
  inv_evaluate : nat -> result InvariantError InvariantOutcome;
  base_observed : nat -> string;
  peer_credentials : nat -> result PeerCredError PeerCred;
  temp_nanos : nat -> Z;  (* [SystemTime::now()] in [unique_temp_path] *)
}.

(** [readback_verify] reads the file and compares. *)
Class HonestReadback `{Dependencies} : Prop :=
  readback_honest n fs p bs :
    dur_readback_verify n fs p bs = Ok tt -> fs_files fs !! p = Some bs.

(** The record of the calls made on the interfaces, with their answers. *)
Inductive Call :=
  | CClock (t : SystemTime)
  | CTopology (r : result TopologyError unit)
  | CFileFsync (p : Path) (r : result DurabilityError unit)
  | CDirFsync (p : Path) (r : result DurabilityError unit)
  | CRename (from to : Path) (r : result DurabilityError unit)
  | CReadback (p : Path) (r : result DurabilityError unit)
  | CSignal (k : SignalKind) (r : result FenceError unit)
  | CAlive (s : FenceStage) (b : bool)
  | CWait (d : Duration) (r : result FenceError unit)
  | CJobs (r : result JobInspectError Z)
  | CFloor (r : result ExternalFloorError Z)
  | CInvariants (r : result InvariantError InvariantOutcome)
  | CBase (s : string)
  | CPeer (r : result PeerCredError PeerCred)
  | CEntropy.

Abbreviation WdWorld := (World Call).

(** One call on an interface. *)
Definition dep_call {E A} (log : A -> Call) (answer : nat -> A) : M WdWorld E A := fun w =>
  let a := answer (w_tick w) in
  (Ret a, mkWorld (w_fs w) (S (w_tick w)) (w_calls w ++ [log a])).

(** ** fencing.rs: the production fencer refuses everything *)

Module UnavailableProcessGroupFencer.
Definition signal (_ : SignalKind) : result FenceError unit := Err FenceUnavailable.
Definition group_alive (_ : FenceStage) : bool := true.
Definition bounded_wait (_ : Duration) : result FenceError unit := Err FenceUnavailable.
End UnavailableProcessGroupFencer.
