(* ===== verification/WdLog.v ===== *)
(** * Watchdog: the append-only authority log ([watchdogd/src/read_model.rs])

    The log is a file of frames: a big-endian [u32] length, a big-endian
    CRC-32 and a JSON payload.  The JSON form of a record is produced and read
    by [serde_json]: it is the interface [RecordCodec]. *)

From S2P Require Import Prelude RustStd WdTypes.

(** ** CRC-32 *)

Definition crc_bit (crc : Z) : Z :=
  let mask := (0 - Z.land crc 1) mod 2 ^ 32 in
  Z.lxor (Z.shiftr crc 1) (Z.land 0xedb88320 mask).

Definition crc_byte (crc : Z) (b : byte) : Z :=
  Nat.iter 8 crc_bit (Z.lxor crc (byte_val b)).

Definition crc32 (data : list byte) : Z :=
  Z.lxor (fold_left crc_byte data 0xffffffff) 0xffffffff.

(** ** Constants and record types *)

Definition Error := string.
Definition invalid_log (message : string) : Error := message.

Definition HEADER_BYTES : Z := 8.
Definition MAX_RECORD_BYTES : Z := 64 * 1024.
Definition LEASE_WINDOW : Duration := Duration_from_secs 3600.

Definition lease_expiry_at (observed_at hard_deadline : SystemTime) : result Error SystemTime :=
  if hard_deadline <=? observed_at then Err (invalid_log "deadline before observed_at")
  else
    candidate ← ok_or (SystemTime_checked_add observed_at LEASE_WINDOW)
                      (invalid_log "lease window overflow");
    Ok (if candidate <=? hard_deadline then candidate else hard_deadline).

Inductive AuthorityRecordKind :=
  | Armed | ProbationPassed | LeaseRenewed | BeginCommit | BeginRevert
  | Committed | Reverted.
#[export] Instance AuthorityRecordKind_eq_dec : EqDecision AuthorityRecordKind.
Proof. solve_decision. Defined.

Record AuthorityRecord := mkRecord {
  ar_sequence : Z;
  ar_epoch : Z;
  ar_kind : AuthorityRecordKind;
  ar_host_id : option string;
  ar_tx_id : option string;
  ar_base : option string;
  ar_lease_id : option string;
  ar_worker_group_tag : option WorkerGroupTag;
  ar_armed_at_secs : option Z;
  ar_armed_at_nanos : option Z;
  ar_deadline_secs : option Z;
  ar_deadline_nanos : option Z;
  ar_lease_expires_at_secs : option Z;
  ar_lease_expires_at_nanos : option Z;
  ar_renewed_at_secs : option Z;
  ar_renewed_at_nanos : option Z;
}.
#[export] Instance AuthorityRecord_eq_dec : EqDecision AuthorityRecord.
Proof. solve_decision. Defined.

Record ReconstructedAuthority := mkReconstructed {
  ra_binding : BoundSession;
  ra_base : string;
  ra_armed_at : SystemTime;
  ra_deadline : SystemTime;
  ra_lease_expires_at : SystemTime;
  ra_chosen : option AuthorityRecordKind;
  ra_log_seq : Z;
  ra_last_activity : SystemTime;
}.

Record DecisionLogReader := mkReader { dl_records : list AuthorityRecord }.

(** [serde_json] on a record: the bytes it writes, the record it reads. *)
Class RecordCodec := {
  record_to_vec : AuthorityRecord -> option (list byte);
  record_from_slice : list byte -> option AuthorityRecord;
}.

(** A record whose fields are in the ranges of their types. *)
Definition opt_all {A} (P : A -> Prop) (o : option A) : Prop :=
  match o with Some a => P a | None => True end.

Definition record_ok (r : AuthorityRecord) : Prop :=
  is_u64 (ar_sequence r) /\ is_u64 (ar_epoch r) /\ opt_all tag_ok (ar_worker_group_tag r) /\
  opt_all is_u64 (ar_armed_at_secs r) /\ opt_all is_u32 (ar_armed_at_nanos r) /\
  opt_all is_u64 (ar_deadline_secs r) /\ opt_all is_u32 (ar_deadline_nanos r) /\
  opt_all is_u64 (ar_lease_expires_at_secs r) /\
  opt_all is_u32 (ar_lease_expires_at_nanos r) /\
  opt_all is_u64 (ar_renewed_at_secs r) /\ opt_all is_u32 (ar_renewed_at_nanos r).

(** The bytes of the strings of a record. *)
Definition opt_length (o : option string) : Z := from_option (fun s => Z.of_nat (String.length s)) 0 o.
Definition strings_length (r : AuthorityRecord) : Z :=
  opt_length (ar_host_id r) + opt_length (ar_tx_id r) + opt_length (ar_base r) +
  opt_length (ar_lease_id r).

(** It reads back what it wrote, what it reads is in range, and a document is
    no longer than its strings, escaped, and room for names and numbers. *)
Class RecordCodecLaws `{RecordCodec} : Prop := {
  record_size r bs :
    record_ok r -> record_to_vec r = Some bs ->
    Z.of_nat (length bs) <= 6 * strings_length r + 1024;
  record_roundtrip r bs :
    record_ok r -> record_to_vec r = Some bs -> record_from_slice bs = Some r;
  record_parse_ok bs r : record_from_slice bs = Some r -> record_ok r;
}.

(** ** AuthorityRecord *)

Definition is_empty (s : string) : bool := bool_decide (s = "").

Definition binding_fields (r : AuthorityRecord) :
    result Error (string * string * string * WorkerGroupTag) :=
  host_id ← ok_or (ar_host_id r) (invalid_log "missing host_id");
  tx_id ← ok_or (ar_tx_id r) (invalid_log "missing tx_id");
  lease_id ← ok_or (ar_lease_id r) (invalid_log "missing lease_id");
  tag ← ok_or (ar_worker_group_tag r) (invalid_log "missing worker_group_tag");
  fail_if (is_empty host_id) (invalid_log "empty host_id");;
  fail_if (is_empty tx_id) (invalid_log "empty tx_id");;
  fail_if (is_empty lease_id) (invalid_log "empty lease_id");;
  Ok (host_id, tx_id, lease_id, tag).

Definition time_field (secs nanos : option Z) (label : string) : result Error SystemTime :=
  secs ← ok_or secs (invalid_log ("missing " +:+ label +:+ "_secs"));
  nanos ← ok_or nanos (invalid_log ("missing " +:+ label +:+ "_nanos"));
  fail_if (NSEC <=? nanos) (invalid_log ("invalid " +:+ label +:+ "_nanos"));;
  duration ← ok_or (Duration_new secs nanos) (invalid_log ("invalid " +:+ label));
  ok_or (SystemTime_checked_add UNIX_EPOCH duration) (invalid_log ("invalid " +:+ label)).

Definition is_some {A} (o : option A) : bool := bool_decide (is_Some o).

Definition has_renewed_at_fields (r : AuthorityRecord) : bool :=
  is_some (ar_renewed_at_secs r) || is_some (ar_renewed_at_nanos r).
Definition has_armed_time_fields (r : AuthorityRecord) : bool :=
  is_some (ar_armed_at_secs r) || is_some (ar_armed_at_nanos r).
Definition has_deadline_fields (r : AuthorityRecord) : bool :=
  is_some (ar_deadline_secs r) || is_some (ar_deadline_nanos r).
Definition has_lease_expiry_fields (r : AuthorityRecord) : bool :=
  is_some (ar_lease_expires_at_secs r) || is_some (ar_lease_expires_at_nanos r).

Definition field_present (r : AuthorityRecord) (label : string) : bool :=
  if decide (label = "base") then is_some (ar_base r)
  else if decide (label = "armed_at") then has_armed_time_fields r
  else if decide (label = "deadline") then has_deadline_fields r
  else if decide (label = "lease_expires_at") then has_lease_expiry_fields r
  else if decide (label = "renewed_at") then has_renewed_at_fields r
  else false.

Fixpoint reject_forbidden_fields (r : AuthorityRecord) (forbidden : list string) :
    result Error unit :=
  match forbidden with
  | [] => Ok tt
  | label :: forbidden =>
      fail_if (field_present r label) (invalid_log ("forbidden field " +:+ label));;
      reject_forbidden_fields r forbidden
  end.

Definition all_time_fields : list string :=
  ["base"; "armed_at"; "deadline"; "lease_expires_at"; "renewed_at"].

Definition validate_schema (r : AuthorityRecord) : result Error unit :=
  match ar_kind r with
  | Armed =>
      binding_fields r;;
      fail_if (match ar_base r with None => true | Some b => is_empty b end)
              (invalid_log "missing base");;
      reject_forbidden_fields r ["renewed_at"];;
      armed_at ← time_field (ar_armed_at_secs r) (ar_armed_at_nanos r) "armed_at";
      deadline ← time_field (ar_deadline_secs r) (ar_deadline_nanos r) "deadline";
      lease_expires_at ← time_field (ar_lease_expires_at_secs r)
                           (ar_lease_expires_at_nanos r) "lease_expires_at";
      fail_if (deadline <=? armed_at) (invalid_log "armed_at not before deadline");;
      expected ← lease_expiry_at armed_at deadline;
      fail_if (negb (lease_expires_at =? expected))
              (invalid_log "lease_expires_at policy mismatch")
  | LeaseRenewed =>
      binding_fields r;;
      reject_forbidden_fields r ["base"; "armed_at"; "deadline"];;
      time_field (ar_renewed_at_secs r) (ar_renewed_at_nanos r) "renewed_at";;
      time_field (ar_lease_expires_at_secs r) (ar_lease_expires_at_nanos r)
                 "lease_expires_at";;
      Ok tt
  | BeginCommit | BeginRevert =>
      binding_fields r;;
      reject_forbidden_fields r all_time_fields
  | ProbationPassed | Committed | Reverted =>
      '(_, tx_id, _, _) ← binding_fields r;
      fail_if (is_empty tx_id) (invalid_log "missing tx_id");;
      reject_forbidden_fields r all_time_fields
  end.

Definition to_bound_session (r : AuthorityRecord) : result Error BoundSession :=
  '(host_id, tx_id, lease_id, tag) ← binding_fields r;
  Ok (mkBound host_id tx_id (ar_epoch r) lease_id tag).

(** ** Building records *)

Definition time_parts (time : SystemTime) : result Error (Z * Z) :=
  duration ← ok_or (SystemTime_duration_since time UNIX_EPOCH) (invalid_log "pre-unix time");
  Ok (Duration_as_secs duration, Duration_subsec_nanos duration).

Definition armed_record (sequence epoch : Z) (host_id tx_id base lease_id : string)
    (worker_group_tag : WorkerGroupTag) (armed_at deadline : SystemTime) :
    result Error AuthorityRecord :=
  lease_expires_at ← lease_expiry_at armed_at deadline;
  '(armed_at_secs, armed_at_nanos) ← time_parts armed_at;
  '(deadline_secs, deadline_nanos) ← time_parts deadline;
  '(lease_secs, lease_nanos) ← time_parts lease_expires_at;
  Ok {| ar_sequence := sequence; ar_epoch := epoch; ar_kind := Armed;
        ar_host_id := Some host_id; ar_tx_id := Some tx_id; ar_base := Some base;
        ar_lease_id := Some lease_id; ar_worker_group_tag := Some worker_group_tag;
        ar_armed_at_secs := Some armed_at_secs; ar_armed_at_nanos := Some armed_at_nanos;
        ar_deadline_secs := Some deadline_secs; ar_deadline_nanos := Some deadline_nanos;
        ar_lease_expires_at_secs := Some lease_secs;
        ar_lease_expires_at_nanos := Some lease_nanos;
        ar_renewed_at_secs := None; ar_renewed_at_nanos := None |}.

Definition lease_renewed_record (sequence epoch : Z) (host_id tx_id lease_id : string)
    (worker_group_tag : WorkerGroupTag) (renewed_at hard_deadline : SystemTime) :
    result Error AuthorityRecord :=
  lease_expires_at ← lease_expiry_at renewed_at hard_deadline;
  '(renewed_at_secs, renewed_at_nanos) ← time_parts renewed_at;
  '(lease_secs, lease_nanos) ← time_parts lease_expires_at;
  Ok {| ar_sequence := sequence; ar_epoch := epoch; ar_kind := LeaseRenewed;
        ar_host_id := Some host_id; ar_tx_id := Some tx_id; ar_base := None;
        ar_lease_id := Some lease_id; ar_worker_group_tag := Some worker_group_tag;
        ar_armed_at_secs := None; ar_armed_at_nanos := None;
        ar_deadline_secs := None; ar_deadline_nanos := None;
        ar_lease_expires_at_secs := Some lease_secs;
        ar_lease_expires_at_nanos := Some lease_nanos;
        ar_renewed_at_secs := Some renewed_at_secs;
        ar_renewed_at_nanos := Some renewed_at_nanos |}.

Definition decision_record (sequence epoch : Z) (kind : AuthorityRecordKind)
    (host_id tx_id lease_id : string) (worker_group_tag : WorkerGroupTag) : AuthorityRecord :=
  {| ar_sequence := sequence; ar_epoch := epoch; ar_kind := kind;
     ar_host_id := Some host_id; ar_tx_id := Some tx_id; ar_base := None;
     ar_lease_id := Some lease_id; ar_worker_group_tag := Some worker_group_tag;
     ar_armed_at_secs := None; ar_armed_at_nanos := None;
     ar_deadline_secs := None; ar_deadline_nanos := None;
     ar_lease_expires_at_secs := None; ar_lease_expires_at_nanos := None;
     ar_renewed_at_secs := None; ar_renewed_at_nanos := None |}.

(** ** Reading the log *)

Definition slice {A} (i j : nat) (l : list A) : option (list A) :=
  if decide (i <= j <= length l)%nat then Some (take (j - i) (drop i l)) else None.

Definition read_u32 (bytes : list byte) (offset : nat) : result Error Z :=
  array ← ok_or (slice offset (offset + 4) bytes) (invalid_log "truncated record header");
  Ok (be_value array).

Section Reader.
Context `{RecordCodec}.

(** One turn of the loop of [DecisionLogReader::open]: the record at the
    head of the unread bytes and the bytes it takes. *)
Definition read_one (remaining : list byte) (last_epoch : Z) (count : nat) :
    result Error (AuthorityRecord * nat) :=
  fail_if (Z.of_nat (length remaining) <? HEADER_BYTES)
          (invalid_log "truncated record header");;
  len ← read_u32 remaining 0;
  fail_if (MAX_RECORD_BYTES <? len) (invalid_log "oversized decision record");;
  crc ← read_u32 remaining 4;
  record_end ← ok_or (u64_checked_add HEADER_BYTES len)
                     (invalid_log "record length overflow");
  payload ← ok_or (slice (Z.to_nat HEADER_BYTES) (Z.to_nat record_end) remaining)
                  (invalid_log "truncated decision record");
  fail_if (negb (crc32 payload =? crc)) (invalid_log "decision record CRC mismatch");;
  record ← ok_or (record_from_slice payload) (invalid_log "invalid decision record JSON");
  validate_schema record;;
  expected ← ok_or (u64_checked_add (Z.of_nat count) 1)
                   (invalid_log "decision sequence overflow");
  fail_if (negb (ar_sequence record =? expected))
          (invalid_log "non-monotonic decision sequence");;
  fail_if (ar_epoch record <? last_epoch) (invalid_log "decreasing epoch");;
  Ok (record, Z.to_nat record_end).

(** The loop; [remaining] is [bytes[offset..]].  A turn consumes at least a
    header, so as many turns as bytes are enough. *)
Fixpoint read_loop (fuel : nat) (remaining : list byte) (last_epoch : Z)
    (records : list AuthorityRecord) : result Error (list AuthorityRecord) :=
  match remaining, fuel with
  | [], _ => Ok records
  | _, O => Err "out of fuel"
  | _, S fuel =>
      '(record, record_end) ← read_one remaining last_epoch (length records);
      read_loop fuel (drop record_end remaining) (ar_epoch record) (records ++ [record])
  end.

Definition read_records (bytes : list byte) : result Error (list AuthorityRecord) :=
  read_loop (length bytes) bytes 0 [].

Context `{IoEnv}.

(** [DecisionLogReader::open] *)
Definition dl_open (path : Path) : M WdWorld Error DecisionLogReader :=
  exists_ ← path_exists path;
  if negb exists_ then mret (mkReader [])
  else
    bytes ← fs_read path;
    of_result (mkReader <$> read_records bytes).
End Reader.

Definition record_count (d : DecisionLogReader) : nat := length (dl_records d).
Definition last_kind (d : DecisionLogReader) : option AuthorityRecordKind :=
  ar_kind <$> last (dl_records d).
Definition contains_kind (kind : AuthorityRecordKind) (d : DecisionLogReader) : bool :=
  existsb (fun r => bool_decide (ar_kind r = kind)) (dl_records d).
Definition max_epoch (d : DecisionLogReader) : Z :=
  fold_right Z.max 0 (ar_epoch <$> dl_records d).

(** ** Reconstruction of the active authority *)

Definition reconstruct_armed (active : option ReconstructedAuthority)
    (record : AuthorityRecord) : result Error (option ReconstructedAuthority) :=
  fail_if (is_some active) (invalid_log "duplicate armed authority");;
  binding ← to_bound_session record;
  base ← ok_or (ar_base record) (invalid_log "missing base");
  armed_at ← time_field (ar_armed_at_secs record) (ar_armed_at_nanos record) "armed_at";
  deadline ← time_field (ar_deadline_secs record) (ar_deadline_nanos record) "deadline";
  lease_expires_at ← time_field (ar_lease_expires_at_secs record)
                       (ar_lease_expires_at_nanos record) "lease_expires_at";
  Ok (Some {| ra_binding := binding; ra_base := base; ra_armed_at := armed_at;
              ra_deadline := deadline; ra_lease_expires_at := lease_expires_at;
              ra_chosen := None; ra_log_seq := ar_sequence record;
              ra_last_activity := armed_at |}).

Definition reconstruct_renewed (active : option ReconstructedAuthority)
    (record : AuthorityRecord) : result Error (option ReconstructedAuthority) :=
  state ← ok_or active (invalid_log "lease renewal without armed");
  fail_if (is_some (ra_chosen state)) (invalid_log "lease renewal after decision");;
  binding ← to_bound_session record;
  fail_if (bool_decide (binding <> ra_binding state))
          (invalid_log "lease renewal binding mismatch");;
  renewed_at ← time_field (ar_renewed_at_secs record) (ar_renewed_at_nanos record)
                 "renewed_at";
  lease_expires_at ← time_field (ar_lease_expires_at_secs record)
                       (ar_lease_expires_at_nanos record) "lease_expires_at";
  fail_if (renewed_at <? ra_last_activity state)
          (invalid_log "renewal before last activity");;
  fail_if (ra_lease_expires_at state <=? renewed_at)
          (invalid_log "renewal after prior expiry");;
  fail_if (ra_deadline state <=? renewed_at)
          (invalid_log "renewal at or past hard deadline");;
  expected ← lease_expiry_at renewed_at (ra_deadline state);
  fail_if (negb (lease_expires_at =? expected))
          (invalid_log "lease renewal policy mismatch");;
  fail_if (lease_expires_at <=? ra_lease_expires_at state)
          (invalid_log "lease renewal did not extend expiry");;
  Ok (Some {| ra_binding := ra_binding state; ra_base := ra_base state;
              ra_armed_at := ra_armed_at state; ra_deadline := ra_deadline state;
              ra_lease_expires_at := lease_expires_at; ra_chosen := ra_chosen state;
              ra_log_seq := ar_sequence record; ra_last_activity := renewed_at |}).

Definition reconstruct_decision (active : option ReconstructedAuthority)
    (record : AuthorityRecord) : result Error (option ReconstructedAuthority) :=
  state ← ok_or active (invalid_log "decision without armed");
  fail_if (is_some (ra_chosen state)) (invalid_log "duplicate decision authority");;
  binding ← to_bound_session record;
  fail_if (bool_decide (binding <> ra_binding state))
          (invalid_log "decision binding mismatch");;
  Ok (Some {| ra_binding := ra_binding state; ra_base := ra_base state;
              ra_armed_at := ra_armed_at state; ra_deadline := ra_deadline state;
              ra_lease_expires_at := ra_lease_expires_at state;
              ra_chosen := Some (ar_kind record); ra_log_seq := ar_sequence record;
              ra_last_activity := ra_last_activity state |}).

(** One turn of the loop of [reconstruct_active_authority]. *)
Definition reconstruct_step (active : option ReconstructedAuthority)
    (record : AuthorityRecord) : result Error (option ReconstructedAuthority) :=
  match ar_kind record with
  | Armed => reconstruct_armed active record
  | LeaseRenewed => reconstruct_renewed active record
  | BeginCommit | BeginRevert => reconstruct_decision active record
  | ProbationPassed | Committed | Reverted => Ok active
  end.

Fixpoint reconstruct_from (active : option ReconstructedAuthority)
    (records : list AuthorityRecord) : result Error (option ReconstructedAuthority) :=
  match records with
  | [] => Ok active
  | record :: records =>
      active ← reconstruct_step active record; reconstruct_from active records
  end.

Definition reconstruct_active_authority (d : DecisionLogReader) :
    result Error (option ReconstructedAuthority) :=
  reconstruct_from None (dl_records d).

(** ** Appending a record *)

Definition io_durability (error : Error) : DurabilityError := DurIo error.

Definition record_frame (payload : list byte) : list byte :=
  be_bytes 4 (Z.of_nat (length payload)) ++ be_bytes 4 (crc32 payload) ++ payload.

Section Append.
Context `{RecordCodec} `{IoEnv} `{Dependencies}.

Definition file_fsync (path : Path) : M WdWorld DurabilityError unit :=
  r ← dep_call (CFileFsync path) (fun n => dur_file_fsync n path); of_result r.
Definition dir_fsync (path : Path) : M WdWorld DurabilityError unit :=
  r ← dep_call (CDirFsync path) (fun n => dur_dir_fsync n path); of_result r.

Definition append_record (path : Path) (record : AuthorityRecord) :
    M WdWorld DurabilityError unit :=
  of_result (map_err DurIo (validate_schema record));;
  payload ← of_result (ok_or (record_to_vec record) (DurIo "serialize"));
  of_result (ok_or (u32_try_from (Z.of_nat (length payload)))
                   (DurIo "decision record too large"));;
  let frame := record_frame payload in
  parent ← of_result (ok_or (path_parent path) (DurIo "decision log has no parent"));
  mapping_err io_durability (create_dir_all parent);;
  mapping_err io_durability (open_append path);;
  mapping_err io_durability (write_all path frame);;
  file_fsync path;;
  dir_fsync parent.
End Append.
