(* ===== verification/WdLogFacts.v ===== *)
(** * Facts about the authority log

    CRC-32 as an error detector, the frame reader as the inverse of the
    appender, what a torn append leaves behind, and what a reconstructed
    authority is. *)

From stdpp Require Import sorting.
From S2P Require Import Prelude RustStd WdTypes WdLog.

(** ** CRC-32 *)

#[local] Arguments Nat.iter : simpl never.

Lemma in_bits n x :
  0 <= n -> 0 <= x -> (forall i, n <= i -> Z.testbit x i = false) -> x < 2 ^ n.
Proof.
  intros Hn Hx Hb. destruct (Z.eq_dec x 0) as [->|Hx0]; [lia|].
  apply Z.log2_lt_pow2; [lia|].
  destruct (Z.lt_ge_cases (Z.log2 x) n) as [|Hl]; [done|].
  specialize (Hb _ Hl). rewrite Z.bit_log2 in Hb by lia. done.
Qed.

Lemma high_bits n x i : 0 <= x < 2 ^ n -> n <= i -> Z.testbit x i = false.
Proof.
  intros Hx Hi. destruct (Z.eq_dec x 0) as [->|]; [apply Z.testbit_0_l|].
  apply Z.bits_above_log2; [lia|].
  assert (Z.log2 x < n) by (apply Z.log2_lt_pow2; lia). lia.
Qed.

Lemma lxor_range n x y :
  0 <= n -> 0 <= x < 2 ^ n -> 0 <= y < 2 ^ n -> 0 <= Z.lxor x y < 2 ^ n.
Proof.
  intros Hn Hx Hy. assert (0 <= Z.lxor x y) by (apply Z.lxor_nonneg; lia).
  split; [done|]. apply in_bits; [done|done|]. intros i Hi.
  rewrite Z.lxor_spec, !(high_bits n) by done. done.
Qed.

Lemma lxor_cancel_r x y z : Z.lxor x z = Z.lxor y z -> x = y.
Proof.
  intros Hxy. apply (f_equal (fun v => Z.lxor v z)) in Hxy.
  by rewrite !Z.lxor_assoc, Z.lxor_nilpotent, !Z.lxor_0_r in Hxy.
Qed.

Lemma lxor_cancel_l x y z : Z.lxor z x = Z.lxor z y -> x = y.
Proof. rewrite !(Z.lxor_comm z). apply lxor_cancel_r. Qed.

(** One turn of the inner loop, without the mask. *)
Lemma crc_bit_eq c :
  crc_bit c = Z.lxor (Z.shiftr c 1) (if Z.odd c then 0xedb88320 else 0).
Proof.
  unfold crc_bit. f_equal. change (Z.land c 1) with (Z.land c (Z.ones 1)).
  rewrite Z.land_ones by lia. change (2 ^ 1) with 2.
  rewrite Zmod_odd. by destruct (Z.odd c).
Qed.

Lemma crc_bit_range c : 0 <= c < 2 ^ 32 -> 0 <= crc_bit c < 2 ^ 32.
Proof.
  intros Hc. rewrite crc_bit_eq. apply lxor_range; [lia| |by destruct (Z.odd c)].
  rewrite Z.shiftr_div_pow2 by lia. change (2 ^ 1) with 2.
  split; [apply Z.div_pos; lia|]. apply Z.div_lt_upper_bound; lia.
Qed.

Lemma crc_bit_top c : 0 <= c < 2 ^ 32 -> Z.testbit (crc_bit c) 31 = Z.odd c.
Proof.
  intros Hc. rewrite crc_bit_eq, Z.lxor_spec, Z.shiftr_spec by lia.
  rewrite (high_bits 32) by lia. by destruct (Z.odd c).
Qed.

Lemma crc_bit_inj c d :
  0 <= c < 2 ^ 32 -> 0 <= d < 2 ^ 32 -> crc_bit c = crc_bit d -> c = d.
Proof.
  intros Hc Hd Heq. assert (Hodd : Z.odd c = Z.odd d).
  { by rewrite <-!crc_bit_top, Heq. }
  rewrite !crc_bit_eq, Hodd in Heq. apply lxor_cancel_r in Heq.
  rewrite !Z.shiftr_div_pow2 in Heq by lia. change (2 ^ 1) with 2 in Heq.
  rewrite (Z.div_mod c 2), (Z.div_mod d 2), Heq, !Zmod_odd, Hodd by lia. done.
Qed.

Lemma crc_bits_range n c : 0 <= c < 2 ^ 32 -> 0 <= Nat.iter n crc_bit c < 2 ^ 32.
Proof.
  intros Hc. induction n as [|n IH]; [done|].
  change (Nat.iter (S n) crc_bit c) with (crc_bit (Nat.iter n crc_bit c)).
  by apply crc_bit_range.
Qed.

Lemma crc_bits_inj n c d :
  0 <= c < 2 ^ 32 -> 0 <= d < 2 ^ 32 -> Nat.iter n crc_bit c = Nat.iter n crc_bit d -> c = d.
Proof.
  intros Hc Hd. induction n as [|n IH]; [done|].
  change (Nat.iter (S n) crc_bit ?x) with (crc_bit (Nat.iter n crc_bit x)).
  intros Heq. apply IH, crc_bit_inj; auto using crc_bits_range.
Qed.

Lemma byte_val_word b : 0 <= byte_val b < 2 ^ 32.
Proof. pose proof (byte_val_range b). lia. Qed.

Lemma crc_byte_eq c b : crc_byte c b = Nat.iter 8 crc_bit (Z.lxor c (byte_val b)).
Proof. reflexivity. Qed.

Lemma lxor_byte_range c b : 0 <= c < 2 ^ 32 -> 0 <= Z.lxor c (byte_val b) < 2 ^ 32.
Proof. intros Hc. apply lxor_range; [lia|done|apply byte_val_word]. Qed.

Lemma crc_byte_range c b : 0 <= c < 2 ^ 32 -> 0 <= crc_byte c b < 2 ^ 32.
Proof. intros Hc. rewrite crc_byte_eq. by apply crc_bits_range, lxor_byte_range. Qed.

Lemma crc_byte_inj c d a b :
  0 <= c < 2 ^ 32 -> 0 <= d < 2 ^ 32 -> crc_byte c a = crc_byte d b ->
  Z.lxor c (byte_val a) = Z.lxor d (byte_val b).
Proof.
  intros Hc Hd. rewrite !crc_byte_eq. apply crc_bits_inj; by apply lxor_byte_range.
Qed.

#[local] Opaque crc_byte crc_bit.

Lemma crc_byte_inj_l c d b :
  0 <= c < 2 ^ 32 -> 0 <= d < 2 ^ 32 -> crc_byte c b = crc_byte d b -> c = d.
Proof. intros Hc Hd Heq. apply crc_byte_inj in Heq; [|done..]. by eapply lxor_cancel_r. Qed.

Lemma crc_byte_inj_r c a b :
  0 <= c < 2 ^ 32 -> crc_byte c a = crc_byte c b -> a = b.
Proof.
  intros Hc Heq. apply crc_byte_inj in Heq; [|done..].
  eapply byte_val_inj, lxor_cancel_l, Heq.
Qed.

Definition word (c : Z) : Prop := 0 <= c < 2 ^ 32.

Lemma crc32_range bs : 0 <= crc32 bs < 2 ^ 32.
Proof.
  unfold crc32. apply lxor_range; [lia| |lia].
  apply (fold_left_inv crc_byte word); [exact crc_byte_range|]. unfold word; lia.
Qed.

(** Two messages that differ in exactly one byte have different checksums. *)
Lemma crc32_one_byte p a b s : a <> b -> crc32 (p ++ a :: s) <> crc32 (p ++ b :: s).
Proof.
  intros Hab Heq. apply Hab. unfold crc32 in Heq. apply lxor_cancel_r in Heq.
  apply (fold_left_one_diff crc_byte word) in Heq as (x & Hx & Hxab).
  - exact (crc_byte_inj_r _ _ _ Hx Hxab).
  - exact crc_byte_range.
  - exact crc_byte_inj_l.
  - unfold word; lia.
Qed.

#[local] Transparent crc_byte crc_bit.

Example crc32_check_value :
  crc32 (map (fun c => byte_of (Z.of_nat (Ascii.nat_of_ascii c)))
             (String.list_ascii_of_string "123456789")) = 0xcbf43926.
Proof. vm_compute. reflexivity. Qed.

(** ** The frame reader *)

#[local] Opaque crc32 be_bytes.

Lemma slice_Some {A} i j (l x : list A) :
  slice i j l = Some x <-> (i <= j <= length l)%nat /\ x = take (j - i) (drop i l).
Proof.
  unfold slice. case_decide as Hb.
  - split; [by intros [= <-] | by intros [_ ->]].
  - split; [done | intros [? _]; done].
Qed.

Lemma slice_app {A} i j (l m x : list A) : slice i j l = Some x -> slice i j (l ++ m) = Some x.
Proof.
  rewrite !slice_Some, length_app. intros [? ->]. split; [lia|].
  rewrite drop_app_le by lia. rewrite take_app_le; [done|]. rewrite length_drop. lia.
Qed.

Lemma slice_middle {A} (p l s : list A) :
  slice (length p) (length p + length l) (p ++ l ++ s) = Some l.
Proof.
  rewrite slice_Some, !length_app. split; [lia|].
  rewrite drop_app_length. replace (_ + _ - _)%nat with (length l) by lia.
  by rewrite take_app_length.
Qed.

Lemma read_u32_app bs more i v : read_u32 bs i = Ok v -> read_u32 (bs ++ more) i = Ok v.
Proof.
  unfold read_u32. intros H. inv_ok.
  match goal with H : slice _ _ _ = Some _ |- _ => apply (slice_app _ _ _ more) in H; rewrite H end.
  done.
Qed.

Lemma read_u32_at p z s :
  0 <= z < 2 ^ 32 -> read_u32 (p ++ be_bytes 4 z ++ s) (length p) = Ok z.
Proof.
  intros Hz. unfold read_u32.
  pose proof (slice_middle p (be_bytes 4 z) s) as Hs. rewrite length_be_bytes in Hs.
  rewrite Hs. cbn [ok_or mbind result_bind]. by rewrite be_value_bytes.
Qed.

Lemma read_u32_bytes bs i v :
  read_u32 bs i = Ok v ->
  (i + 4 <= length bs)%nat /\ be_bytes 4 v = take 4 (drop i bs) /\ 0 <= v.
Proof.
  unfold read_u32. intros H. inv_ok.
  match goal with H : slice _ _ _ = Some _ |- _ => apply slice_Some in H as [? ->] end.
  replace (i + 4 - i)%nat with 4%nat by lia.
  split; [lia|]. split; [|apply be_value_range].
  pose proof (be_bytes_value (take 4 (drop i bs))) as Hb.
  by rewrite length_take, length_drop, Nat.min_l in Hb by lia.
Qed.

Lemma length_record_frame payload :
  length (record_frame payload) = (8 + length payload)%nat.
Proof. unfold record_frame. rewrite !length_app, !length_be_bytes. lia. Qed.

Section Reading.
Context `{RecordCodec}.

(** What the reader checks of a payload once the frame around it is sound. *)
Definition check_record (payload : list byte) (last_epoch : Z) (count : nat) :
    result Error AuthorityRecord :=
  record ← ok_or (record_from_slice payload) (invalid_log "invalid decision record JSON");
  validate_schema record;;
  expected ← ok_or (u64_checked_add (Z.of_nat count) 1)
                   (invalid_log "decision sequence overflow");
  fail_if (negb (ar_sequence record =? expected))
          (invalid_log "non-monotonic decision sequence");;
  fail_if (ar_epoch record <? last_epoch) (invalid_log "decreasing epoch");;
  Ok record.

(** [read_one] is the frame check followed by [check_record]. *)
Lemma read_one_eq rem e n :
  read_one rem e n =
  (fail_if (Z.of_nat (length rem) <? HEADER_BYTES)
           (invalid_log "truncated record header");;
   len ← read_u32 rem 0;
   fail_if (MAX_RECORD_BYTES <? len) (invalid_log "oversized decision record");;
   crc ← read_u32 rem 4;
   record_end ← ok_or (u64_checked_add HEADER_BYTES len)
                      (invalid_log "record length overflow");
   payload ← ok_or (slice (Z.to_nat HEADER_BYTES) (Z.to_nat record_end) rem)
                   (invalid_log "truncated decision record");
   fail_if (negb (crc32 payload =? crc)) (invalid_log "decision record CRC mismatch");;
   record ← check_record payload e n;
   Ok (record, Z.to_nat record_end)).
Proof.
  unfold read_one, check_record, mbind, result_bind.
  by repeat (case_match; try done; simplify_eq/=).
Qed.

Lemma frame_parts (rem : list byte) (a : nat) :
  (8 + a <= length rem)%nat ->
  rem = take 4 rem ++ take 4 (drop 4 rem) ++ take a (drop 8 rem) ++ drop (8 + a) rem.
Proof.
  intros Hl. rewrite <-(drop_drop rem a 8), (take_drop a).
  change 8%nat with (4 + 4)%nat. by rewrite <-(drop_drop rem 4 4), !take_drop.
Qed.

(** The reader accepts exactly the frames of acceptable payloads. *)
Lemma read_one_spec rem e n r k :
  read_one rem e n = Ok (r, k) <->
  exists payload more,
    rem = record_frame payload ++ more /\
    Z.of_nat (length payload) <= MAX_RECORD_BYTES /\
    k = length (record_frame payload) /\ check_record payload e n = Ok r.
Proof.
  rewrite read_one_eq. unfold HEADER_BYTES, MAX_RECORD_BYTES. split.
  - intros Hr. inv_ok. bool_to_prop.
    match goal with H : u64_checked_add 8 _ = Some _ |- _ =>
      apply u64_checked_add_Some in H as [-> _] end.
    match goal with H : read_u32 _ 0 = Ok _, H' : read_u32 _ 4 = Ok _ |- _ =>
      apply read_u32_bytes in H as (? & Hb0 & ?), H' as (? & Hb4 & ?) end.
    match goal with H : slice _ _ _ = Some _ |- _ => apply slice_Some in H as [? Hp] end.
    match goal with H : be_bytes 4 ?a = take 4 (drop 0 _) |- _ => rename a into len end.
    match goal with H : check_record ?p _ _ = Ok _ |- _ => rename p into payload end.
    replace (Z.to_nat (8 + len) - Z.to_nat 8)%nat with (Z.to_nat len) in Hp by lia.
    change (Z.to_nat 8) with 8%nat in *.
    assert (Hl : length payload = Z.to_nat len).
    { rewrite Hp, length_take, length_drop. lia. }
    exists payload, (drop (8 + Z.to_nat len) rem).
    rewrite length_record_frame, Hl. split_and!; [|lia|lia|done].
    unfold record_frame. rewrite Hl, Z2Nat.id by lia. subst.
    rewrite Hb0, Hb4, <-!app_assoc. apply frame_parts. lia.
  - intros (payload & more & -> & Hlen & -> & Hc).
    assert (H0 : read_u32 (record_frame payload ++ more) 0 = Ok (Z.of_nat (length payload))).
    { unfold record_frame. rewrite <-!app_assoc. apply (read_u32_at []). lia. }
    assert (H4 : read_u32 (record_frame payload ++ more) 4 = Ok (crc32 payload)).
    { unfold record_frame. rewrite <-!app_assoc.
      pose proof (read_u32_at (be_bytes 4 (Z.of_nat (length payload)))
                    (crc32 payload) (payload ++ more)) as Hx.
      rewrite length_be_bytes in Hx. apply Hx, crc32_range. }
    assert (Hs : slice 8 (8 + length payload) (record_frame payload ++ more) = Some payload).
    { unfold record_frame. rewrite <-!app_assoc.
      pose proof (slice_middle (be_bytes 4 (Z.of_nat (length payload)) ++
                    be_bytes 4 (crc32 payload)) payload more) as Hx.
      rewrite length_app, !length_be_bytes, <-app_assoc in Hx. exact Hx. }
    rewrite H0, length_app, length_record_frame.
    rewrite (proj2 (Z.ltb_ge _ _)) by lia. cbn [fail_if]. run_ok.
    rewrite (proj2 (Z.ltb_ge _ _)) by lia. cbn [fail_if]. run_ok.
    rewrite H4. run_ok. unfold u64_checked_add.
    rewrite (proj2 (Z.leb_le _ _)) by (unfold u64_max; lia). cbn [ok_or]. run_ok.
    replace (Z.to_nat (8 + Z.of_nat (length payload))) with (8 + length payload)%nat by lia.
    change (Z.to_nat 8) with 8%nat. rewrite Hs. cbn [ok_or]. run_ok.
    rewrite Z.eqb_refl. cbn [negb fail_if]. run_ok. by rewrite Hc.
Qed.

(** [read_loop] from a reader state; the epoch it leaves behind. *)
Definition end_epoch (e : Z) (rs : list AuthorityRecord) : Z :=
  fold_left (fun _ r => ar_epoch r) rs e.

Lemma read_one_app rem e n r k more :
  read_one rem e n = Ok (r, k) ->
  read_one (rem ++ more) e n = Ok (r, k) /\ (8 <= k <= length rem)%nat.
Proof.
  rewrite !read_one_spec. intros (p & m & -> & Hl & -> & Hc). split.
  - exists p, (m ++ more). by rewrite app_assoc.
  - rewrite length_app, !length_record_frame. lia.
Qed.

(** Enough fuel is any fuel that covers the bytes. *)
Lemma read_loop_fuel f1 f2 rem e rs :
  (length rem <= f1)%nat -> (length rem <= f2)%nat ->
  read_loop f1 rem e rs = read_loop f2 rem e rs.
Proof.
  revert f2 rem e rs. induction f1 as [|f1 IH]; intros [|f2] [|b rem] e rs;
    cbn [length]; try lia; try done.
  intros H1 H2. cbn [read_loop].
  destruct (read_one (b :: rem) e (length rs)) as [[r k]|] eqn:Hr; [|done].
  apply (read_one_app _ _ _ _ _ []) in Hr as [_ Hk]. run_ok.
  apply IH; rewrite length_drop; cbn [length] in *; lia.
Qed.

Lemma read_loop_cons f b rem e rs :
  read_loop (S f) (b :: rem) e rs =
  ('(r, k) ← read_one (b :: rem) e (length rs);
   read_loop f (drop k (b :: rem)) (ar_epoch r) (rs ++ [r])).
Proof. done. Qed.

(** No frame starts with a proper prefix of another frame. *)
Lemma frame_prefix payload k p more :
  (k < length (record_frame payload))%nat -> Z.of_nat (length payload) < 2 ^ 32 ->
  take k (record_frame payload) <> record_frame p ++ more.
Proof.
  intros Hk Hlen Heq. rewrite length_record_frame in Hk.
  assert (Hkl : length (take k (record_frame payload)) = k).
  { rewrite length_take, length_record_frame. lia. }
  assert (Hlp : (8 + length p <= k)%nat).
  { rewrite <-Hkl, Heq, length_app, length_record_frame. lia. }
  assert (Hh : take 4 (take k (record_frame payload)) =
               be_bytes 4 (Z.of_nat (length payload))).
  { rewrite take_take, Nat.min_l by lia. unfold record_frame.
    by rewrite take_app_length' by (by rewrite length_be_bytes). }
  rewrite Heq in Hh. unfold record_frame in Hh.
  rewrite <-!app_assoc, take_app_length' in Hh by (by rewrite length_be_bytes).
  apply (f_equal be_value) in Hh. rewrite !be_value_bytes in Hh by lia. lia.
Qed.

Lemma read_loop_app f f' rem more e rs rs' :
  (length rem <= f)%nat -> (length (rem ++ more) <= f')%nat ->
  read_loop f rem e rs = Ok rs' ->
  exists new, rs' = rs ++ new /\
    read_loop f' (rem ++ more) e rs = read_loop f' more (end_epoch e new) rs'.
Proof.
  revert f' rem e rs. induction f as [|f IH]; intros f' [|b rem] e rs Hf Hf' Hr;
    cbn [length] in *; try lia.
  1, 2: injection Hr as <-; exists []; by rewrite app_nil_r.
  destruct f' as [|f']; [cbn in Hf'; lia|]. cbn [read_loop] in Hr. inv_ok.
  match goal with H : read_one _ _ _ = Ok (?r, ?k) |- _ =>
    rename r into rec, k into n; apply (read_one_app _ _ _ _ _ more) in H as [Hone Hk] end.
  eapply (IH (S f')) in Hr as (new & -> & Hr).
  2: { rewrite length_drop. cbn [length] in *. lia. }
  2: { rewrite length_app, length_drop. rewrite length_app in Hf'.
       cbn [length] in *. lia. }
  rewrite <-app_assoc in *. exists (rec :: new). split; [done|].
  change (end_epoch e (rec :: new)) with (end_epoch (ar_epoch rec) new).
  cbn [app] in Hr |- *. rewrite <-Hr, read_loop_cons. cbn [app] in Hone.
  rewrite Hone. run_ok. rewrite <-(drop_app_le (b :: rem) more) by lia. cbn [app].
  apply read_loop_fuel; rewrite length_drop; cbn [length]; rewrite length_app in *;
    cbn [length] in *; lia.
Qed.

(** Appending the frame of an acceptable record appends the record. *)
Lemma read_records_append bs rs payload r :
  read_records bs = Ok rs ->
  Z.of_nat (length payload) <= MAX_RECORD_BYTES ->
  check_record payload (end_epoch 0 rs) (length rs) = Ok r ->
  read_records (bs ++ record_frame payload) = Ok (rs ++ [r]).
Proof.
  intros Hbs Hlen Hc. unfold read_records in *.
  eapply read_loop_app in Hbs as (new & -> & ->); [|done|done].
  cbn [app] in *. destruct (record_frame payload) as [|b f] eqn:Hf.
  { pose proof (length_record_frame payload). rewrite Hf in *. done. }
  destruct (length (bs ++ b :: f)) as [|n] eqn:Hn.
  { rewrite length_app in Hn. cbn in Hn. lia. }
  rewrite read_loop_cons, <-Hf.
  rewrite (proj2 (read_one_spec _ _ _ r (length (record_frame payload)))).
  - run_ok. rewrite drop_all. by destruct n.
  - exists payload, []. by rewrite app_nil_r.
Qed.

(** A torn append: any proper, non-empty prefix of a frame makes the log
    unreadable. *)
Lemma read_records_torn bs rs payload k :
  read_records bs = Ok rs -> (0 < k < length (record_frame payload))%nat ->
  Z.of_nat (length payload) < 2 ^ 32 ->
  exists e, read_records (bs ++ take k (record_frame payload)) = Err e.
Proof.
  intros Hbs Hk Hlen. unfold read_records in *.
  eapply read_loop_app in Hbs as (new & -> & ->); [|done|done].
  cbn [app]. destruct (take k (record_frame payload)) as [|b f] eqn:Hf.
  { apply (f_equal length) in Hf. rewrite length_take in Hf. cbn in Hf. lia. }
  destruct (length (bs ++ b :: f)) as [|n] eqn:Hn.
  { rewrite length_app in Hn. cbn in Hn. lia. }
  rewrite read_loop_cons, <-Hf.
  destruct (read_one (take k (record_frame payload)) _ _) as [[r k']|] eqn:Hr;
    [|by eexists].
  apply read_one_spec in Hr as (p & more & Hp & _ & -> & _).
  exfalso. apply (frame_prefix payload k p more); [lia|done|done].
Qed.

(** *** What an accepted log is *)

Lemma check_record_Ok p e n r :
  check_record p e n = Ok r <->
  record_from_slice p = Some r /\ validate_schema r = Ok tt /\
  Z.of_nat n + 1 <= u64_max /\ ar_sequence r = Z.of_nat n + 1 /\ e <= ar_epoch r.
Proof.
  unfold check_record. split.
  - intros Hc. inv_ok. bool_to_prop.
    match goal with H : u64_checked_add _ _ = Some _ |- _ =>
      apply u64_checked_add_Some in H as [-> ?] end.
    by split_and!.
  - intros (Hf & Hv & Hn & Hs & He). rewrite Hf. cbn [ok_or]. run_ok. rewrite Hv. run_ok.
    rewrite (proj2 (u64_checked_add_Some _ 1 _) (conj eq_refl Hn)). cbn [ok_or]. run_ok.
    rewrite Hs, Z.eqb_refl. cbn [negb fail_if]. run_ok.
    by rewrite (proj2 (Z.ltb_ge _ _)).
Qed.

(** Payload by payload, what the loop lets through. *)
Fixpoint accepts (ps : list (list byte)) (rs : list AuthorityRecord) (e : Z) (n : nat) :
    Prop :=
  match ps, rs with
  | [], [] => True
  | p :: ps, r :: rs =>
      Z.of_nat (length p) <= MAX_RECORD_BYTES /\ check_record p e n = Ok r /\
      accepts ps rs (ar_epoch r) (S n)
  | _, _ => False
  end.

Lemma read_loop_Ok f rem e rs rs' :
  (length rem <= f)%nat ->
  read_loop f rem e rs = Ok rs' <->
  exists ps new, rem = concat (record_frame <$> ps) /\ rs' = rs ++ new /\
                 accepts ps new e (length rs).
Proof.
  revert rem e rs. induction f as [|f IH]; intros [|b rem] e rs Hf;
    cbn [length] in Hf; try lia.
  1, 2: split; [intros [= <-]; exists [], []; by rewrite app_nil_r|].
  1, 2: intros ([|p ps] & [|r new] & Hrem & -> & Ha); try done;
        try (by rewrite app_nil_r); exfalso;
        apply (f_equal length) in Hrem; cbn in Hrem;
        rewrite length_app, length_record_frame in Hrem; cbn in Hrem; lia.
  rewrite read_loop_cons, result_bind_Ok. split.
  - intros ([r k] & Hone & Hr).
    pose proof (read_one_app _ _ _ _ _ [] Hone) as [_ Hk].
    apply IH in Hr as (ps & new & Hrem & -> & Ha);
      [|rewrite length_drop; cbn [length] in *; lia].
    apply read_one_spec in Hone as (p & more & Heq & Hl & -> & Hc).
    rewrite Heq, drop_app_length in Hrem.
    exists (p :: ps), (r :: new). cbn. rewrite <-app_assoc, Heq, Hrem.
    rewrite length_app, Nat.add_1_r in Ha. by split_and!.
  - intros ([|p ps] & [|r new] & Hrem & -> & Ha); try done.
    destruct Ha as (Hl & Hc & Ha). exists (r, length (record_frame p)).
    cbn in Hrem. split; [apply read_one_spec; by exists p, (concat (record_frame <$> ps))|].
    apply IH; [rewrite length_drop, length_record_frame; cbn [length]; lia|].
    exists ps, new. rewrite Hrem, drop_app_length, <-app_assoc.
    rewrite length_app, Nat.add_1_r. by split_and!.
Qed.

Lemma accepts_spec ps rs e n :
  accepts ps rs e n <->
  Forall (fun p => Z.of_nat (length p) <= MAX_RECORD_BYTES) ps /\
  Forall2 (fun p r => record_from_slice p = Some r) ps rs /\
  Forall (fun r => validate_schema r = Ok tt /\ ar_sequence r <= u64_max) rs /\
  ar_sequence <$> rs = Z.of_nat <$> seq (S n) (length rs) /\
  Sorted Z.le (e :: (ar_epoch <$> rs)).
Proof.
  revert rs e n. induction ps as [|p ps IH]; intros [|r rs] e n; cbn [accepts].
  - split; [|done]. intros _. repeat constructor.
  - split; [done|]. by intros (_ & H2 & _); inversion H2.
  - split; [done|]. by intros (_ & H2 & _); inversion H2.
  - rewrite IH, check_record_Ok, !Forall_cons, Forall2_cons.
    change (seq (S n) (length (r :: rs))) with (S n :: seq (S (S n)) (length rs)).
    rewrite !fmap_cons. split.
    + intros (Hl & (Hf & Hv & Hn & Hs & He) & Hps & H2 & Hrs & Hseq & Hso).
      split_and!; try done; try lia; [|by constructor; [|constructor]].
      rewrite Hseq. f_equal. lia.
    + intros ([Hl Hps] & [Hf H2] & [[Hv Hn] Hrs] & [= Hs Hseq] & Hso).
      apply Sorted_inv in Hso as [Hso He]. apply HdRel_inv in He.
      split_and!; try done; lia.
Qed.

Lemma accepts_app ps1 ps2 rs e n :
  accepts (ps1 ++ ps2) rs e n ->
  exists rs1 rs2, rs = rs1 ++ rs2 /\ accepts ps1 rs1 e n /\
                  accepts ps2 rs2 (end_epoch e rs1) (n + length rs1).
Proof.
  revert rs e n. induction ps1 as [|p ps1 IH]; intros rs e n.
  - intros Ha. exists [], rs. by rewrite Nat.add_0_r.
  - destruct rs as [|r rs]; [done|]. intros (Hl & Hc & Ha).
    apply IH in Ha as (rs1 & rs2 & -> & H1 & H2).
    exists (r :: rs1), rs2. cbn [length]. by rewrite Nat.add_succ_r.
Qed.

(** The length field and the checksum of a frame, whatever follows. *)
Lemma frame_fields p q c more more' :
  length p = length q ->
  Z.of_nat (length p) < 2 ^ 32 ->
  be_bytes 4 (Z.of_nat (length p)) ++ be_bytes 4 (crc32 p) ++ q ++ more =
    record_frame c ++ more' ->
  Z.of_nat (length c) < 2 ^ 32 ->
  c = q /\ crc32 p = crc32 c.
Proof.
  intros Hl Hp Heq Hc. unfold record_frame in Heq. rewrite <-!app_assoc in Heq.
  apply app_inj_1 in Heq as [Hlen Heq]; [|by rewrite !length_be_bytes].
  apply app_inj_1 in Heq as [Hcrc Heq]; [|by rewrite !length_be_bytes].
  apply (f_equal be_value) in Hlen, Hcrc.
  pose proof (crc32_range p). pose proof (crc32_range c).
  rewrite !be_value_bytes in Hlen, Hcrc by lia.
  apply app_inj_1 in Heq as [Hq _]; [|lia]. done.
Qed.

(** One byte of one payload changed on disk: after a readable prefix, and
    whatever follows, the log no longer opens. *)
Lemma read_records_corrupt bs rs p a b s post :
  read_records bs = Ok rs -> a <> b -> Z.of_nat (length (p ++ a :: s)) < 2 ^ 32 ->
  exists e, read_records
    (bs ++ be_bytes 4 (Z.of_nat (length (p ++ a :: s))) ++
     be_bytes 4 (crc32 (p ++ a :: s)) ++ (p ++ b :: s) ++ post) = Err e.
Proof.
  intros Hbs Hab Hlen. set (q := p ++ a :: s) in *. set (q' := p ++ b :: s).
  assert (Hqq : length q = length q') by (unfold q, q'; rewrite !length_app; done).
  set (tail := be_bytes 4 _ ++ _). unfold read_records in *.
  eapply read_loop_app in Hbs as (new & -> & ->); [|done|done].
  destruct (read_loop _ tail _ _) as [rs'|e] eqn:Hr; [exfalso|by eexists].
  apply read_loop_Ok in Hr as ([|c ps] & [|r rs2] & Heq & _ & Ha);
    [|done|done| |by rewrite length_app; lia].
  - apply (f_equal length) in Heq. unfold tail in Heq.
    rewrite !length_app, !length_be_bytes in Heq. cbn in Heq. lia.
  - destruct Ha as (Hc & _ & _). unfold MAX_RECORD_BYTES in Hc.
    apply frame_fields in Heq as [-> Hcrc]; [|done|lia|lia].
    by apply (crc32_one_byte p a b s).
Qed.

(** A frame whose payload is over the reader's limit makes the log unreadable. *)
Lemma read_records_oversized bs rs payload post :
  read_records bs = Ok rs -> MAX_RECORD_BYTES < Z.of_nat (length payload) < 2 ^ 32 ->
  exists e, read_records (bs ++ record_frame payload ++ post) = Err e.
Proof.
  intros Hbs [Hbig Hlen]. unfold read_records in *.
  eapply read_loop_app in Hbs as (new & -> & ->); [|done|done].
  destruct (read_loop _ (record_frame payload ++ post) _ _) as [rs'|e] eqn:Hr;
    [exfalso|by eexists].
  apply read_loop_Ok in Hr as ([|c ps] & [|r rs2] & Heq & _ & Ha); [|done|done| |
    by rewrite (length_app bs); lia].
  - apply (f_equal length) in Heq. rewrite length_app, length_record_frame in Heq. cbn in Heq. lia.
  - destruct Ha as (Hc & _ & _). unfold MAX_RECORD_BYTES in *.
    cbn [fmap list_fmap concat] in Heq. unfold record_frame at 1 in Heq. rewrite <-!app_assoc in Heq.
    apply frame_fields in Heq as [-> _]; [lia|done|lia|lia].
Qed.

Lemma read_records_valid bs rs :
  read_records bs = Ok rs -> Forall (fun r => validate_schema r = Ok tt) rs.
Proof.
  unfold read_records. intros Hr. apply read_loop_Ok in Hr as (ps & new & _ & -> & Ha); [|done].
  apply accepts_spec in Ha as (_ & _ & Hv & _). cbn.
  eapply Forall_impl; [exact Hv|]. by intros r [].
Qed.

Lemma read_records_in_range `{!RecordCodecLaws} bs rs :
  read_records bs = Ok rs -> Forall record_ok rs.
Proof.
  unfold read_records. intros Hr. apply read_loop_Ok in Hr as (ps & new & _ & -> & Ha); [|done].
  apply accepts_spec in Ha as (_ & Hp & _). cbn.
  eapply Forall2_Forall_r; [exact Hp|]. apply Forall_forall. intros p _ r. apply record_parse_ok.
Qed.

Lemma read_records_nil bs : read_records bs = Ok [] -> bs = [].
Proof.
  unfold read_records. intros Hr.
  apply read_loop_Ok in Hr as ([|p ps] & [|r new] & -> & Hn & Ha); done.
Qed.
End Reading.
