(* ===== verification/WdAuthority.v ===== *)
(** * Facts about authority records and the authority they reconstruct *)

From stdpp Require Import sorting.
From S2P Require Import Prelude RustStd WdTypes WdLog.

(** ** Instants in records *)

Lemma lease_expiry_at_Ok o d e :
  lease_expiry_at o d = Ok e <->
  o < d /\ o + LEASE_WINDOW < 2 ^ 63 * NSEC /\ e = Z.min (o + LEASE_WINDOW) d.
Proof.
  unfold lease_expiry_at. destruct (d <=? o) eqn:Hd; bool_to_prop.
  { split; [done|lia]. }
  unfold SystemTime_checked_add. destruct (_ <? _) eqn:Hb; bool_to_prop; cbn [ok_or]; run_ok.
  - destruct (_ <=? d) eqn:Hc; bool_to_prop; split; [intros [= <-]|intros (_ & _ & ->)
      |intros [= <-]|intros (_ & _ & ->)]; try f_equal; try split_and!; lia.
  - split; [done|lia].
Qed.

Lemma lease_expiry_at_Err o d er :
  lease_expiry_at o d = Err er -> d <= o \/ 2 ^ 63 * NSEC <= o + LEASE_WINDOW.
Proof.
  intros He. destruct (Z.le_gt_cases d o); [by left|right].
  destruct (Z.le_gt_cases (2 ^ 63 * NSEC) (o + LEASE_WINDOW)); [done|].
  rewrite (proj2 (lease_expiry_at_Ok o d _)) in He by (split_and!; [lia|lia|done]). done.
Qed.

Lemma time_parts_Ok t :
  0 <= t -> time_parts t = Ok (Duration_as_secs t, Duration_subsec_nanos t).
Proof.
  intros Ht. unfold time_parts, SystemTime_duration_since, UNIX_EPOCH.
  rewrite (proj2 (Z.leb_le 0 t)) by done. by rewrite Z.sub_0_r.
Qed.

Lemma time_parts_inv t p :
  time_parts t = Ok p -> 0 <= t /\ p = (Duration_as_secs t, Duration_subsec_nanos t).
Proof.
  unfold time_parts, SystemTime_duration_since, UNIX_EPOCH. intros Hp.
  destruct (0 <=? t) eqn:Ht; [|done]. bool_to_prop. cbn in Hp. rewrite Z.sub_0_r in Hp.
  by injection Hp as <-.
Qed.

(** What [time_parts] writes, [time_field] reads. *)
Lemma time_field_parts t label :
  instant_ok t ->
  time_field (Some (Duration_as_secs t)) (Some (Duration_subsec_nanos t)) label = Ok t.
Proof.
  intros Ht. pose proof (duration_parts_bounds t Ht) as [_ Hn]. unfold time_field.
  cbn [ok_or]. run_ok. rewrite (proj2 (Z.leb_gt _ _)) by lia. cbn [fail_if]. run_ok.
  rewrite duration_parts_new by done. cbn [ok_or]. run_ok.
  unfold UNIX_EPOCH. rewrite (proj2 (SystemTime_checked_add_Some 0 t t)).
  { done. }
  unfold instant_ok in Ht. lia.
Qed.

Lemma parts_in_range t :
  instant_ok t -> is_u64 (Duration_as_secs t) /\ is_u32 (Duration_subsec_nanos t).
Proof.
  intros Ht. pose proof (duration_parts_bounds t Ht) as [? ?]. split; [done|].
  unfold is_u32, u32_max, NSEC in *. lia.
Qed.

(** ** Records the builders produce pass the reader's checks *)

Lemma is_empty_false s : is_empty s = false <-> s <> "".
Proof. unfold is_empty. by rewrite bool_decide_eq_false. Qed.

(** A binding whose strings the log accepts. *)
Definition binding_ok (host_id tx_id lease_id : string) : Prop :=
  host_id <> "" /\ tx_id <> "" /\ lease_id <> "".

Lemma binding_fields_Ok r h t l g :
  binding_fields r = Ok (h, t, l, g) <->
  ar_host_id r = Some h /\ ar_tx_id r = Some t /\ ar_lease_id r = Some l /\
  ar_worker_group_tag r = Some g /\ binding_ok h t l.
Proof.
  unfold binding_fields, binding_ok. split.
  - intros Hb. inv_ok. rewrite is_empty_false in *. by split_and!.
  - intros (-> & -> & -> & -> & Hh & Ht & Hl). cbn [ok_or]. run_ok.
    apply is_empty_false in Hh, Ht, Hl. by rewrite Hh, Ht, Hl.
Qed.

Definition armed_of (sequence epoch : Z) (h t base l : string) (g : WorkerGroupTag)
    (armed_at deadline lease : SystemTime) : AuthorityRecord :=
  {| ar_sequence := sequence; ar_epoch := epoch; ar_kind := Armed;
     ar_host_id := Some h; ar_tx_id := Some t; ar_base := Some base; ar_lease_id := Some l;
     ar_worker_group_tag := Some g;
     ar_armed_at_secs := Some (Duration_as_secs armed_at);
     ar_armed_at_nanos := Some (Duration_subsec_nanos armed_at);
     ar_deadline_secs := Some (Duration_as_secs deadline);
     ar_deadline_nanos := Some (Duration_subsec_nanos deadline);
     ar_lease_expires_at_secs := Some (Duration_as_secs lease);
     ar_lease_expires_at_nanos := Some (Duration_subsec_nanos lease);
     ar_renewed_at_secs := None; ar_renewed_at_nanos := None |}.

Definition renewed_of (sequence epoch : Z) (h t l : string) (g : WorkerGroupTag)
    (renewed_at lease : SystemTime) : AuthorityRecord :=
  {| ar_sequence := sequence; ar_epoch := epoch; ar_kind := LeaseRenewed;
     ar_host_id := Some h; ar_tx_id := Some t; ar_base := None; ar_lease_id := Some l;
     ar_worker_group_tag := Some g;
     ar_armed_at_secs := None; ar_armed_at_nanos := None;
     ar_deadline_secs := None; ar_deadline_nanos := None;
     ar_lease_expires_at_secs := Some (Duration_as_secs lease);
     ar_lease_expires_at_nanos := Some (Duration_subsec_nanos lease);
     ar_renewed_at_secs := Some (Duration_as_secs renewed_at);
     ar_renewed_at_nanos := Some (Duration_subsec_nanos renewed_at) |}.

Lemma armed_record_Ok n e h t b l g a d r :
  armed_record n e h t b l g a d = Ok r <->
  exists lease, lease_expiry_at a d = Ok lease /\ 0 <= a /\
                r = armed_of n e h t b l g a d lease.
Proof.
  unfold armed_record. split.
  - intros Hr. inv_ok.
    repeat match goal with H : time_parts _ = Ok _ |- _ => apply time_parts_inv in H as [? [= ? ?]] end.
    subst. by eexists.
  - intros (lease & Hl & Ha & ->). rewrite Hl. run_ok.
    apply lease_expiry_at_Ok in Hl as (? & _ & ->).
    rewrite !time_parts_Ok; [done|..]; unfold LEASE_WINDOW, Duration_from_secs, NSEC; lia.
Qed.

Lemma lease_renewed_record_Ok n e h t l g a d r :
  lease_renewed_record n e h t l g a d = Ok r <->
  exists lease, lease_expiry_at a d = Ok lease /\ 0 <= a /\
                r = renewed_of n e h t l g a lease.
Proof.
  unfold lease_renewed_record. split.
  - intros Hr. inv_ok.
    repeat match goal with H : time_parts _ = Ok _ |- _ => apply time_parts_inv in H as [? [= ? ?]] end.
    subst. by eexists.
  - intros (lease & Hl & Ha & ->). rewrite Hl. run_ok.
    apply lease_expiry_at_Ok in Hl as (? & _ & ->).
    rewrite !time_parts_Ok; [done|..]; unfold LEASE_WINDOW, Duration_from_secs, NSEC; lia.
Qed.

Lemma lease_instant a d lease :
  lease_expiry_at a d = Ok lease -> 0 <= a -> a < lease <= d /\ instant_ok lease.
Proof.
  intros Hl Ha. apply lease_expiry_at_Ok in Hl as (? & ? & ->).
  unfold instant_ok, LEASE_WINDOW, Duration_from_secs in *.
  unfold NSEC in *. lia.
Qed.

Lemma armed_of_valid n e h t b l g a d lease :
  lease_expiry_at a d = Ok lease -> 0 <= a -> instant_ok d -> binding_ok h t l -> b <> "" ->
  validate_schema (armed_of n e h t b l g a d lease) = Ok tt.
Proof.
  intros Hl Ha Hd Hb Hbase. unfold validate_schema. cbn [armed_of ar_kind].
  rewrite (proj2 (binding_fields_Ok _ h t l g)) by done. run_ok.
  cbn [armed_of ar_base]. rewrite (proj2 (is_empty_false b)) by done. cbn [fail_if]. run_ok.
  pose proof (lease_instant _ _ _ Hl Ha) as [? Hlease].
  assert (Hat : instant_ok a) by (unfold instant_ok in *; lia).
  change (reject_forbidden_fields _ _) with (@Ok Error unit tt). run_ok.
  cbn [armed_of ar_armed_at_secs ar_armed_at_nanos ar_deadline_secs ar_deadline_nanos
       ar_lease_expires_at_secs ar_lease_expires_at_nanos].
  rewrite !time_field_parts by done. run_ok.
  rewrite (proj2 (Z.leb_gt _ _)) by lia. cbn [fail_if]. run_ok.
  rewrite Hl. run_ok. by rewrite Z.eqb_refl.
Qed.

Lemma renewed_of_valid n e h t l g a lease :
  instant_ok a -> instant_ok lease -> binding_ok h t l ->
  validate_schema (renewed_of n e h t l g a lease) = Ok tt.
Proof.
  intros Ha Hl Hb. unfold validate_schema. cbn [renewed_of ar_kind].
  rewrite (proj2 (binding_fields_Ok _ h t l g)) by done. run_ok.
  change (reject_forbidden_fields _ _) with (@Ok Error unit tt). run_ok.
  cbn [renewed_of ar_renewed_at_secs ar_renewed_at_nanos
       ar_lease_expires_at_secs ar_lease_expires_at_nanos].
  by rewrite !time_field_parts.
Qed.

Lemma decision_record_valid n e k h t l g :
  k = BeginCommit \/ k = BeginRevert -> binding_ok h t l ->
  validate_schema (decision_record n e k h t l g) = Ok tt.
Proof.
  intros Hk Hb. unfold validate_schema.
  replace (binding_fields (decision_record n e k h t l g))
    with (@Ok Error _ (h, t, l, g)) by (symmetry; by apply binding_fields_Ok).
  by destruct Hk as [-> | ->].
Qed.

(** ** Reconstruction *)

Lemma reconstruct_from_app a rs rs' :
  reconstruct_from a (rs ++ rs') =
  (a' ← reconstruct_from a rs; reconstruct_from a' rs').
Proof.
  revert a. induction rs as [|r rs IH]; intros a; [done|]. cbn [reconstruct_from app].
  destruct (reconstruct_step a r); run_ok; [apply IH|done].
Qed.

Lemma reconstruct_from_snoc a rs r :
  reconstruct_from a (rs ++ [r]) =
  (a' ← reconstruct_from a rs; reconstruct_step a' r).
Proof.
  rewrite reconstruct_from_app. destruct (reconstruct_from a rs) as [a'|]; run_ok; [|done].
  cbn [reconstruct_from]. by destruct (reconstruct_step a' r).
Qed.

(** Records that carry authority. *)
Definition carries_authority (r : AuthorityRecord) : Prop :=
  ar_kind r = Armed \/ ar_kind r = LeaseRenewed \/
  ar_kind r = BeginCommit \/ ar_kind r = BeginRevert.
#[export] Instance carries_authority_dec r : Decision (carries_authority r).
Proof. unfold carries_authority. apply _. Defined.

(** The decision an authority ends with, as records. *)
Definition decided_by (chosen : option AuthorityRecordKind) (ds : list AuthorityRecord) : Prop :=
  match chosen with
  | None => ds = []
  | Some k => exists d, ds = [d] /\ ar_kind d = k /\ (k = BeginCommit \/ k = BeginRevert)
  end.

(** The records [rs] carry the authority [a]: an arming, then renewals, then
    at most one decision, all of one binding; the lease in force is the frozen
    policy applied to the last activity. *)
Definition authority_of (rs : list AuthorityRecord) (a : ReconstructedAuthority) : Prop :=
  exists r0 renewals decisions,
    rs = r0 :: renewals ++ decisions /\ ar_kind r0 = Armed /\
    Forall (fun r => ar_kind r = LeaseRenewed) renewals /\
    decided_by (ra_chosen a) decisions /\
    Forall (fun r => to_bound_session r = Ok (ra_binding a)) rs /\
    ra_armed_at a <= ra_last_activity a /\
    lease_expiry_at (ra_last_activity a) (ra_deadline a) = Ok (ra_lease_expires_at a).

Lemma decided_none ds : decided_by None ds -> ds = [].
Proof. done. Qed.

Lemma reconstruct_armed_shape r act a :
  ar_kind r = Armed -> validate_schema r = Ok tt ->
  reconstruct_armed act r = Ok a ->
  act = None /\ exists a', a = Some a' /\ authority_of [r] a'.
Proof.
  intros Hk Hv Ha. unfold reconstruct_armed in Ha. inv_ok.
  unfold is_some in *. bool_to_prop.
  split; [by destruct act; [exfalso; eauto|]|]. eexists. split; [done|].
  exists r, [], []. unfold decided_by, validate_schema in *. rewrite Hk in Hv. inv_ok.
  cbn [ra_binding ra_base ra_armed_at ra_deadline ra_lease_expires_at ra_chosen ra_last_activity].
  bool_to_prop.
  repeat match goal with H : time_field ?s ?n ?l = Ok ?x, H' : time_field ?s ?n ?l = Ok ?y |- _ =>
    rewrite H in H'; injection H' as -> end.
  subst. split_and!; [done|done|done|done| |lia|done]. by repeat constructor.
Qed.

Lemma authority_of_renewed rs r a a' :
  ar_kind r = LeaseRenewed -> authority_of rs a ->
  reconstruct_renewed (Some a) r = Ok a' ->
  exists x, a' = Some x /\ authority_of (rs ++ [r]) x.
Proof.
  intros Hk (r0 & ren & ds & -> & H0 & Hren & Hd & Hb & Hact & Hl) Ha.
  unfold reconstruct_renewed in Ha. inv_ok. unfold is_some in *. bool_to_prop.
  match goal with H : Some _ = Some _ |- _ => injection H as <- end.
  destruct (ra_chosen a) as [k|] eqn:Hc; [exfalso; eauto|].
  apply decided_none in Hd as ->. rewrite app_nil_r in *. eexists. split; [done|].
  exists r0, (ren ++ [r]), []. rewrite app_nil_r.
  cbn [ra_binding ra_base ra_armed_at ra_deadline ra_lease_expires_at ra_chosen ra_last_activity].
  subst.
  split_and!; try done; [| |lia].
  - apply Forall_app. split; [done|by repeat constructor].
  - change (r0 :: ren ++ [r]) with ((r0 :: ren) ++ [r]). apply Forall_app.
    split; [done|by repeat constructor].
Qed.

Lemma authority_of_decision rs r a a' :
  ar_kind r = BeginCommit \/ ar_kind r = BeginRevert -> authority_of rs a ->
  reconstruct_decision (Some a) r = Ok a' ->
  exists x, a' = Some x /\ authority_of (rs ++ [r]) x.
Proof.
  intros Hk (r0 & ren & ds & -> & H0 & Hren & Hd & Hb & Hact & Hl) Ha.
  unfold reconstruct_decision in Ha. inv_ok. unfold is_some in *. bool_to_prop.
  match goal with H : Some _ = Some _ |- _ => injection H as <- end.
  destruct (ra_chosen a) as [k|] eqn:Hc; [exfalso; eauto|].
  apply decided_none in Hd as ->. rewrite app_nil_r in *. eexists. split; [done|].
  exists r0, ren, [r].
  cbn [ra_binding ra_base ra_armed_at ra_deadline ra_lease_expires_at ra_chosen ra_last_activity].
  subst.
  split_and!; try done; [by exists r|].
  change (r0 :: ren ++ [r]) with ((r0 :: ren) ++ [r]). apply Forall_app.
  split; [done|by repeat constructor].
Qed.

Definition authority_shape (rs : list AuthorityRecord) (a : option ReconstructedAuthority) :
    Prop :=
  match a with
  | None => filter carries_authority rs = []
  | Some a => authority_of (filter carries_authority rs) a
  end.

Lemma reconstruct_none_shape r act :
  ar_kind r = LeaseRenewed \/ ar_kind r = BeginCommit \/ ar_kind r = BeginRevert ->
  is_ok (reconstruct_step None r) = true -> act = @None ReconstructedAuthority -> False.
Proof. unfold reconstruct_step. by intros [-> | [-> | ->]]. Qed.

Lemma reconstruct_shape rs a :
  Forall (fun r => validate_schema r = Ok tt) rs ->
  reconstruct_from None rs = Ok a -> authority_shape rs a.
Proof.
  revert a. induction rs as [|r rs IH] using rev_ind; intros a Hv Ha.
  { by injection Ha as <-. }
  rewrite reconstruct_from_snoc in Ha. inv_ok. apply Forall_app in Hv as [Hv Hr].
  apply Forall_inv in Hr.
  match goal with H : reconstruct_from None rs = Ok ?x |- _ =>
    rename x into act; apply IH in H; [|done]; rename H into Hact end.
  unfold authority_shape. rewrite filter_app, (filter_cons _ r), filter_nil.
  unfold reconstruct_step in Ha. case_decide as Hc.
  - destruct Hc as [Hk|Hc].
    { rewrite Hk in Ha. apply reconstruct_armed_shape in Ha as (-> & a' & -> & Ha'); [|exact Hk|exact Hr].
      cbn in Hact. by rewrite Hact. }
    destruct act as [act|]; [|by destruct Hc as [Hk|[Hk|Hk]]; rewrite Hk in Ha].
    assert (exists x, a = Some x /\ authority_of (filter carries_authority rs ++ [r]) x)
      as (x & -> & Hx); [|done].
    destruct Hc as [Hk|[Hk|Hk]]; rewrite Hk in Ha;
      [eapply authority_of_renewed|eapply authority_of_decision..]; eauto.
  - rewrite app_nil_r. unfold carries_authority in Hc.
    destruct (ar_kind r); try (exfalso; naive_solver); by injection Ha as <-.
Qed.

(** The builders' records, reconstructed. *)
Lemma reconstruct_armed_of n e h t b l g a d lease :
  lease_expiry_at a d = Ok lease -> 0 <= a -> instant_ok d -> binding_ok h t l ->
  reconstruct_step None (armed_of n e h t b l g a d lease) =
  Ok (Some {| ra_binding := mkBound h t e l g; ra_base := b; ra_armed_at := a;
              ra_deadline := d; ra_lease_expires_at := lease; ra_chosen := None;
              ra_log_seq := n; ra_last_activity := a |}).
Proof.
  intros Hl Ha Hd Hb. pose proof (lease_instant _ _ _ Hl Ha) as [? Hlease].
  assert (Hat : instant_ok a) by (unfold instant_ok in *; lia).
  unfold reconstruct_step. cbn [armed_of ar_kind]. unfold reconstruct_armed.
  cbn [is_some bool_decide fail_if]. unfold to_bound_session.
  rewrite (proj2 (binding_fields_Ok _ h t l g)) by done.
  cbn [armed_of ar_base ar_armed_at_secs ar_armed_at_nanos ar_deadline_secs ar_deadline_nanos
       ar_lease_expires_at_secs ar_lease_expires_at_nanos ar_epoch ar_sequence].
  rewrite !time_field_parts by done. done.
Qed.

Lemma reconstruct_renewed_of act n e h t l g now lease :
  ra_binding act = mkBound h t e l g -> binding_ok h t l -> ra_chosen act = None ->
  0 <= now -> ra_last_activity act <= now -> now < ra_lease_expires_at act ->
  lease_expiry_at now (ra_deadline act) = Ok lease -> ra_lease_expires_at act < lease ->
  reconstruct_step (Some act) (renewed_of n e h t l g now lease) =
  Ok (Some {| ra_binding := ra_binding act; ra_base := ra_base act;
              ra_armed_at := ra_armed_at act; ra_deadline := ra_deadline act;
              ra_lease_expires_at := lease; ra_chosen := None;
              ra_log_seq := n; ra_last_activity := now |}).
Proof.
  intros Hbind Hb Hc Hn Hla Hlt Hl Hgt. pose proof (lease_instant _ _ _ Hl Hn) as [? Hlease].
  assert (Hnow : instant_ok now) by (unfold instant_ok in *; lia).
  unfold reconstruct_step. cbn [renewed_of ar_kind]. unfold reconstruct_renewed.
  cbn [ok_or]. run_ok. rewrite Hc. cbn [is_some bool_decide fail_if]. unfold to_bound_session.
  rewrite (proj2 (binding_fields_Ok _ h t l g)) by done.
  cbn [renewed_of ar_renewed_at_secs ar_renewed_at_nanos
       ar_lease_expires_at_secs ar_lease_expires_at_nanos ar_epoch ar_sequence].
  rewrite !time_field_parts by done. run_ok. rewrite Hbind.
  rewrite bool_decide_neq_refl.
  rewrite (proj2 (Z.ltb_ge _ _)), !(proj2 (Z.leb_gt _ _)), Hl by lia. cbn [fail_if]. run_ok.
  by rewrite Z.eqb_refl.
Qed.

Lemma reconstruct_decision_record act n e k h t l g :
  k = BeginCommit \/ k = BeginRevert ->
  ra_binding act = mkBound h t e l g -> binding_ok h t l -> ra_chosen act = None ->
  reconstruct_step (Some act) (decision_record n e k h t l g) =
  Ok (Some {| ra_binding := ra_binding act; ra_base := ra_base act;
              ra_armed_at := ra_armed_at act; ra_deadline := ra_deadline act;
              ra_lease_expires_at := ra_lease_expires_at act; ra_chosen := Some k;
              ra_log_seq := n; ra_last_activity := ra_last_activity act |}).
Proof.
  intros Hk Hbind Hb Hc.
  assert (Hs : reconstruct_step (Some act) (decision_record n e k h t l g) =
               reconstruct_decision (Some act) (decision_record n e k h t l g))
    by (by destruct Hk as [-> | ->]).
  rewrite Hs. unfold reconstruct_decision. cbn [ok_or]. run_ok. rewrite Hc.
  cbn [is_some bool_decide fail_if]. unfold to_bound_session.
  rewrite (proj2 (binding_fields_Ok _ h t l g)) by done. run_ok.
  rewrite Hbind, bool_decide_neq_refl. done.
Qed.
