(* ===== verification/WdProtocol.v ===== *)
(** * Watchdog: sessions and the local RPC protocol

    [watchdogd/src/session.rs] and [watchdogd/src/rpc/protocol.rs].  The
    JSON text of an envelope is produced and read by [serde]: it is the
    interface [WireCodec].  Everything the code itself checks (frames,
    versions, top-level keys, bindings, counters) is defined here. *)

From S2P Require Import Prelude RustStd Json WdTypes WdLog.

(** ** Data types *)

Definition PROTOCOL_VERSION : Z := 1.
Definition MAX_FRAME_PAYLOAD_BYTES : Z := 64 * 1024.
Definition FRAME_HEADER_BYTES : Z := 8.

Record SessionBind := mkBind {
  sb_host_id : string;
  sb_tx_id : string;
  sb_epoch : Z;
  sb_lease_id : string;
  sb_worker_group_tag : WorkerGroupTag;
  sb_client_nonce : string;
}.

Record SessionEstablished := mkEstablished {
  se_capability : list byte;
  se_server_nonce : string;
  se_host_id : string;
  se_tx_id : string;
  se_epoch : Z;
  se_counter : Z;
}.

Inductive LocalRequest :=
  | Arm (request_id host_id tx_id : string) (epoch : Z) (base : string)
        (deadline_secs deadline_nanos : Z)
        (mandatory_invariants additive_manifest_checks : list string)
  | ReportHealth (request_id host_id tx_id : string) (epoch : Z)
  | RequestLeaseRenewal (request_id host_id tx_id : string) (epoch : Z)
        (lease_id : string) (worker_group_tag : WorkerGroupTag) (renewal_seq : Z)
  | Heartbeat (request_id host_id tx_id : string) (epoch : Z)
        (lease_id : string) (worker_group_tag : WorkerGroupTag) (heartbeat_seq : Z)
  | RequestDecision (request_id host_id tx_id : string) (epoch : Z).

Inductive LocalResponse :=
  | ArmedResp (request_id : string)
  | HealthAck (request_id : string)
  | LeaseRenewedResp (request_id : string)
  | HeartbeatAck (request_id : string)
  | AuthorityChosen (request_id : string) (kind : AuthorityRecordKind).

#[export] Instance SessionBind_eq_dec : EqDecision SessionBind.
Proof. solve_decision. Defined.
#[export] Instance SessionEstablished_eq_dec : EqDecision SessionEstablished.
Proof. solve_decision. Defined.
#[export] Instance LocalRequest_eq_dec : EqDecision LocalRequest.
Proof. solve_decision. Defined.
#[export] Instance LocalResponse_eq_dec : EqDecision LocalResponse.
Proof. solve_decision. Defined.

Record AuthenticatedRequest := mkAuthenticated {
  au_request : LocalRequest;
  au_counter : Z;
}.

(** [LocalRequest::arm] *)
Definition arm (request_id host_id tx_id : string) (epoch : Z) (base : string)
    (deadline : SystemTime) (mandatory_invariants additive_manifest_checks : list string) :
    LocalRequest :=
  let duration := default 0 (SystemTime_duration_since deadline UNIX_EPOCH) in
  Arm request_id host_id tx_id epoch base (Duration_as_secs duration)
      (Duration_subsec_nanos duration) mandatory_invariants additive_manifest_checks.

Definition request_id (r : LocalRequest) : string :=
  match r with
  | Arm i _ _ _ _ _ _ _ _ | ReportHealth i _ _ _ | RequestLeaseRenewal i _ _ _ _ _ _
  | Heartbeat i _ _ _ _ _ _ | RequestDecision i _ _ _ => i
  end.

Definition binding_identity (r : LocalRequest) : string * string * Z :=
  match r with
  | Arm _ h t e _ _ _ _ _ | ReportHealth _ h t e | RequestLeaseRenewal _ h t e _ _ _
  | Heartbeat _ h t e _ _ _ | RequestDecision _ h t e => (h, t, e)
  end.

Definition verify_envelope_binding (r : LocalRequest)
    (envelope_host_id envelope_tx_id : string) (envelope_epoch : Z) : result RpcError unit :=
  let '(host_id, tx_id, epoch) := binding_identity r in
  fail_if (bool_decide (host_id <> envelope_host_id) ||
           bool_decide (tx_id <> envelope_tx_id)) WrongBinding;;
  fail_if (negb (epoch =? envelope_epoch)) WrongEpoch.

(** The envelopes [serde] reads and writes. *)
Record RequestEnvelope := mkRequestEnvelope {
  rq_version : Z;
  rq_capability : list byte;
  rq_counter : Z;
  rq_request_id : string;
  rq_host_id : string;
  rq_tx_id : string;
  rq_epoch : Z;
  rq_request : LocalRequest;
}.

Record ResponseEnvelope := mkResponseEnvelope {
  rs_version : Z;
  rs_capability : list byte;
  rs_counter : Z;
  rs_request_id : string;
  rs_host_id : string;
  rs_tx_id : string;
  rs_epoch : Z;
  rs_response : LocalResponse;
}.
#[export] Instance RequestEnvelope_eq_dec : EqDecision RequestEnvelope.
Proof. solve_decision. Defined.
#[export] Instance ResponseEnvelope_eq_dec : EqDecision ResponseEnvelope.
Proof. solve_decision. Defined.

Record ControlEnvelope (T : Type) := mkControl {
  ce_version : Z;
  ce_payload : T;
}.
Arguments mkControl {T} _ _.
Arguments ce_version {T} _.
Arguments ce_payload {T} _.

Section Protocol.
Context `{JsonNumber}.

Record SessionBindWire := mkBindWire {
  bw_host_id : string;
  bw_tx_id : string;
  bw_epoch : Z;
  bw_lease_id : string;
  bw_worker_group_tag : Value;
  bw_client_nonce : string;
}.

(** [serde_json] on the documents of the protocol.  The result of
    [from_value] is the error's text, which the code inspects. *)
Class WireCodec := {
  json_from_slice : list byte -> option Value;
  request_to_vec : RequestEnvelope -> option (list byte);
  request_from_value : Value -> result string RequestEnvelope;
  response_to_vec : ResponseEnvelope -> option (list byte);
  response_from_value : Value -> result string ResponseEnvelope;
  bind_to_vec : ControlEnvelope SessionBind -> option (list byte);
  bind_from_value : Value -> result string (ControlEnvelope SessionBindWire);
  established_to_vec : ControlEnvelope SessionEstablished -> option (list byte);
  established_from_value : Value -> result string (ControlEnvelope SessionEstablished);
}.

Definition request_keys : list string :=
  ["version"; "capability"; "counter"; "request_id"; "host_id"; "tx_id"; "epoch"; "request"].

(** Values in the ranges of their types. *)
Definition local_request_ok (r : LocalRequest) : Prop :=
  match r with
  | Arm _ _ _ e _ secs nanos _ _ => is_u64 e /\ is_u64 secs /\ is_u32 nanos
  | ReportHealth _ _ _ e | RequestDecision _ _ _ e => is_u64 e
  | RequestLeaseRenewal _ _ _ e _ tag n | Heartbeat _ _ _ e _ tag n =>
      is_u64 e /\ tag_ok tag /\ is_u64 n
  end.

Definition request_envelope_ok (e : RequestEnvelope) : Prop :=
  is_u32 (rq_version e) /\ is_u64 (rq_counter e) /\ is_u64 (rq_epoch e) /\
  local_request_ok (rq_request e).
Definition response_envelope_ok (e : ResponseEnvelope) : Prop :=
  is_u32 (rs_version e) /\ is_u64 (rs_counter e) /\ is_u64 (rs_epoch e).
Definition bind_ok (b : SessionBind) : Prop :=
  is_u64 (sb_epoch b) /\ tag_ok (sb_worker_group_tag b).

(** A document whose members are among [keys], of the given version. *)
Definition versioned_object (keys : list string) (version : Z) (v : Value) : Prop :=
  (exists ms, v = VObject ms /\ Forall (fun kv => kv.1 ∈ keys) ms) /\
  (n ← value_get "version" v; value_as_u64 n) = Some version.

(** What is written is read back: the members are the fields, and a tag is
    a number. *)
Class WireCodecLaws `{!WireCodec} : Prop := {
  request_roundtrip e bs :
    request_envelope_ok e -> request_to_vec e = Some bs ->
    exists v, json_from_slice bs = Some v /\
      versioned_object request_keys (rq_version e) v /\ request_from_value v = Ok e;
  response_roundtrip e bs :
    response_envelope_ok e -> response_to_vec e = Some bs ->
    exists v, json_from_slice bs = Some v /\
      (n ← value_get "version" v; value_as_u64 n) = Some (rs_version e) /\
      response_from_value v = Ok e;
  bind_roundtrip c bs :
    bind_ok (ce_payload c) -> bind_to_vec c = Some bs ->
    exists v n, json_from_slice bs = Some v /\
      versioned_object ["version"; "payload"] (ce_version c) v /\
      as_u64 n = Some (tag_raw (sb_worker_group_tag (ce_payload c))) /\
      bind_from_value v = Ok (mkControl (ce_version c)
        {| bw_host_id := sb_host_id (ce_payload c); bw_tx_id := sb_tx_id (ce_payload c);
           bw_epoch := sb_epoch (ce_payload c); bw_lease_id := sb_lease_id (ce_payload c);
           bw_worker_group_tag := VNumber n;
           bw_client_nonce := sb_client_nonce (ce_payload c) |});
}.

(** ** Frames *)

Definition crc32 (data : list byte) : Z :=
  Z.lxor (fold_left crc_byte data 0xffffffff) 0xffffffff.

Definition read_u32 (bytes : list byte) (offset : nat) : result RpcError Z :=
  array ← ok_or (slice offset (offset + 4) bytes) MalformedFrame;
  Ok (be_value array).

Definition encode_frame (payload : list byte) : result RpcError (list byte) :=
  fail_if (MAX_FRAME_PAYLOAD_BYTES <? Z.of_nat (length payload)) OversizeFrame;;
  length_ ← ok_or (u32_try_from (Z.of_nat (length payload))) OversizeFrame;
  Ok (be_bytes 4 length_ ++ be_bytes 4 (crc32 payload) ++ payload).

Definition decode_frame (frame : list byte) : result RpcError (list byte) :=
  fail_if (Z.of_nat (length frame) <? FRAME_HEADER_BYTES) MalformedFrame;;
  length_ ← read_u32 frame 0;
  fail_if (MAX_FRAME_PAYLOAD_BYTES <? length_) OversizeFrame;;
  expected_len ← ok_or (u64_checked_add FRAME_HEADER_BYTES length_) MalformedFrame;
  fail_if (Z.of_nat (length frame) <? expected_len) MalformedFrame;;
  fail_if (negb (Z.of_nat (length frame) =? expected_len)) MalformedFrame;;
  expected_crc ← read_u32 frame 4;
  payload ← ok_or (slice (Z.to_nat FRAME_HEADER_BYTES) (Z.to_nat expected_len) frame)
                  MalformedFrame;
  fail_if (negb (crc32 payload =? expected_crc)) CrcMismatch;;
  Ok payload.

(** A byte stream: what can still be read, and the error reported when a
    read cannot be filled (end of file, a timeout). *)
Record Stream := mkStream {
  st_bytes : list byte;
  st_error : string;
}.

Definition read_exact (n : nat) : M Stream string (list byte) := fun s =>
  if decide (n <= length (st_bytes s))%nat
  then (Ret (take n (st_bytes s)), mkStream (drop n (st_bytes s)) (st_error s))
  else (Throw (st_error s), mkStream [] (st_error s)).

Definition read_frame : M Stream RpcError (list byte) :=
  header ← mapping_err Transport (read_exact (Z.to_nat FRAME_HEADER_BYTES));
  length_ ← of_result (read_u32 header 0);
  throw_if (MAX_FRAME_PAYLOAD_BYTES <? length_) OversizeFrame;;
  payload ← mapping_err Transport (read_exact (Z.to_nat length_));
  mret (header ++ payload).

(** ** Documents *)

Context `{WireCodec}.

Definition encode_json (to_vec : option (list byte)) : result RpcError (list byte) :=
  payload ← ok_or to_vec MalformedFrame;
  encode_frame payload.

Definition parse_json (payload : list byte) : result RpcError Value :=
  ok_or (json_from_slice payload) MalformedFrame.

Definition check_version (value : Value) : result RpcError unit :=
  match (v ← value_get "version" value; value_as_u64 v) with
  | Some version => fail_if (negb (version =? PROTOCOL_VERSION)) UnknownVersion
  | None => Err MalformedFrame
  end.

Definition reject_unknown_top_level (value : Value) (allowed : list string) :
    result RpcError unit :=
  object ← ok_or (value_as_object value) MalformedFrame;
  fail_if (existsb (fun key => negb (bool_decide (key ∈ allowed))) (map fst object)) DenyUnknown.

(** [str::contains] *)
Fixpoint str_contains (needle s : string) : bool :=
  String.prefix needle s ||
  match s with
  | EmptyString => false
  | String _ s => str_contains needle s
  end.

Definition classify_json_error (message : string) : RpcError :=
  if str_contains "unknown field" message then DenyUnknown
  else if str_contains "MalformedRequest" message then MalformedRequest
  else MalformedFrame.

Definition decode_control {T} (from_value : Value -> result string (ControlEnvelope T))
    (frame : list byte) : result RpcError (ControlEnvelope T) :=
  decoded ← decode_frame frame;
  value ← parse_json decoded;
  check_version value;;
  reject_unknown_top_level value ["version"; "payload"];;
  map_err classify_json_error (from_value value).

Definition encode_session_bind (bind : SessionBind) : result RpcError (list byte) :=
  encode_json (bind_to_vec (mkControl PROTOCOL_VERSION bind)).

Definition decode_session_bind (frame : list byte) : result RpcError SessionBind :=
  envelope ← decode_control bind_from_value frame;
  let payload := ce_payload envelope in
  tag ← parse_worker_group_tag_value (bw_worker_group_tag payload);
  Ok {| sb_host_id := bw_host_id payload; sb_tx_id := bw_tx_id payload;
        sb_epoch := bw_epoch payload; sb_lease_id := bw_lease_id payload;
        sb_worker_group_tag := tag; sb_client_nonce := bw_client_nonce payload |}.

Definition encode_session_established (established : SessionEstablished) :
    result RpcError (list byte) :=
  encode_json (established_to_vec (mkControl PROTOCOL_VERSION established)).

Definition decode_session_established (frame : list byte) :
    result RpcError SessionEstablished :=
  envelope ← decode_control established_from_value frame;
  Ok (ce_payload envelope).

Definition encode_request (request : LocalRequest) (established : SessionEstablished)
    (counter : Z) : result RpcError (list byte) :=
  encode_json (request_to_vec
    {| rq_version := PROTOCOL_VERSION; rq_capability := se_capability established;
       rq_counter := counter; rq_request_id := request_id request;
       rq_host_id := se_host_id established; rq_tx_id := se_tx_id established;
       rq_epoch := se_epoch established; rq_request := request |}).

Definition encode_response (response : LocalResponse) (request : LocalRequest)
    (established : SessionEstablished) (counter : Z) : result RpcError (list byte) :=
  encode_json (response_to_vec
    {| rs_version := PROTOCOL_VERSION; rs_capability := se_capability established;
       rs_counter := counter; rs_request_id := request_id request;
       rs_host_id := se_host_id established; rs_tx_id := se_tx_id established;
       rs_epoch := se_epoch established; rs_response := response |}).

Definition decode_response (frame : list byte) (request : LocalRequest)
    (established : SessionEstablished) (counter : Z) : result RpcError LocalResponse :=
  decoded ← decode_frame frame;
  value ← parse_json decoded;
  check_version value;;
  envelope ← map_err classify_json_error (response_from_value value);
  fail_if (bool_decide (rs_capability envelope <> se_capability established) ||
           negb (rs_counter envelope =? counter) ||
           bool_decide (rs_request_id envelope <> request_id request) ||
           bool_decide (rs_host_id envelope <> se_host_id established) ||
           bool_decide (rs_tx_id envelope <> se_tx_id established) ||
           negb (rs_epoch envelope =? se_epoch established)) ResponseBindingMismatch;;
  Ok (rs_response envelope).

(** ** Sessions *)

Record SessionState := mkSession {
  ss_established : option SessionEstablished;
  ss_last_counter : Z;
  ss_bound : option BoundSession;
}.

Definition advance_counter (counter : Z) (s : SessionState) : SessionState :=
  mkSession (ss_established s) counter (ss_bound s).

Definition verify_authenticated (s : SessionState) (capability : list byte) (counter : Z)
    (host_id tx_id : string) (epoch : Z) : result RpcError unit :=
  established ← ok_or (ss_established s) WrongCapability;
  fail_if (bool_decide (capability <> se_capability established)) WrongCapability;;
  fail_if (counter =? 0) WrongCapability;;
  expected ← ok_or (u64_checked_add (ss_last_counter s) 1) WrongCapability;
  (if negb (counter =? expected) then
     if counter <=? ss_last_counter s then Err ReplayCounter else Err WrongCapability
   else Ok tt);;
  fail_if (bool_decide (host_id <> se_host_id established) ||
           bool_decide (tx_id <> se_tx_id established) ||
           negb (epoch =? se_epoch established)) WrongBinding.

Definition decode_request (frame : list byte) : M SessionState RpcError AuthenticatedRequest :=
  decoded ← of_result (map_err (fun err =>
    if bool_decide (err = OversizeFrame) &&
       (Z.of_nat (length frame) <? FRAME_HEADER_BYTES + (MAX_FRAME_PAYLOAD_BYTES + 1))
    then MalformedFrame else err) (decode_frame frame));
  value ← of_result (parse_json decoded);
  of_result (check_version value);;
  of_result (reject_unknown_top_level value request_keys);;
  envelope ← of_result (map_err classify_json_error (request_from_value value));
  session ← gets id;
  of_result (verify_authenticated session (rq_capability envelope) (rq_counter envelope)
               (rq_host_id envelope) (rq_tx_id envelope) (rq_epoch envelope));;
  throw_if (bool_decide (rq_request_id envelope <> request_id (rq_request envelope)))
           WrongBinding;;
  of_result (verify_envelope_binding (rq_request envelope) (rq_host_id envelope)
               (rq_tx_id envelope) (rq_epoch envelope));;
  modify (advance_counter (rq_counter envelope));;
  mret (mkAuthenticated (rq_request envelope) (rq_counter envelope)).

(** *** Binding *)

Definition byte_xor (a b : byte) : byte := byte_of (Z.lxor (byte_val a) (byte_val b)).

(** [to_ne_bytes] of a 32-bit integer, on a little-endian target *)
Definition to_ne_bytes (z : Z) : list byte := rev (be_bytes 4 (z mod 2 ^ 32)).

(** [for (index, byte) in bytes.enumerate()]: xor into [capability[from + index]],
    where there is such a slot. *)
Fixpoint xor_at (from : nat) (bytes capability : list byte) : list byte :=
  match bytes with
  | [] => capability
  | b :: bytes => xor_at (S from) bytes (alter (fun slot => byte_xor slot b) from capability)
  end.

Definition derive_capability (filled : list byte) (cred : PeerCred) : list byte :=
  xor_at 16 (to_ne_bytes (cred_gid cred))
    (xor_at 8 (to_ne_bytes (cred_uid cred))
      (xor_at 0 (to_ne_bytes (cred_pid cred)) filled)).

Definition bound_of_bind (bind : SessionBind) : BoundSession :=
  mkBound (sb_host_id bind) (sb_tx_id bind) (sb_epoch bind) (sb_lease_id bind)
          (sb_worker_group_tag bind).

Context `{Dependencies}.

(** [entropy.fill] of a buffer of 32 bytes *)
Definition entropy_fill : M WdWorld RpcError (list byte) :=
  dep_call (fun _ => CEntropy) (fun n => map (entropy_byte n) (seq 0 32)).

(** [SessionState::try_bind_with_cred] *)
Definition try_bind_with_cred (broker_uid broker_gid : Z) (safe_mode : bool)
    (durable_binding : option BoundSession) (cred : PeerCred) (bind : SessionBind) :
    M WdWorld RpcError (SessionState * SessionEstablished * option BoundSession) :=
  throw_if safe_mode SafeModeActive;;
  throw_if (negb (cred_uid cred =? broker_uid) || negb (cred_gid cred =? broker_gid))
           WrongPeer;;
  match durable_binding with
  | Some existing =>
      throw_if (bool_decide (bs_tx_id existing <> sb_tx_id bind) ||
                negb (bs_epoch existing =? sb_epoch bind) ||
                bool_decide (bs_lease_id existing <> sb_lease_id bind) ||
                bool_decide (bs_worker_group_tag existing <> sb_worker_group_tag bind) ||
                bool_decide (bs_host_id existing <> sb_host_id bind)) StaleReconnect
  | None => mret tt
  end;;
  filled ← entropy_fill;
  let established :=
    {| se_capability := derive_capability filled cred;
       se_server_nonce := "srv-" +:+ sb_client_nonce bind;
       se_host_id := sb_host_id bind; se_tx_id := sb_tx_id bind;
       se_epoch := sb_epoch bind; se_counter := 0 |} in
  let bound := bound_of_bind bind in
  mret (mkSession (Some established) 0 (Some bound), established, Some bound).

(** [SessionState::try_bind] *)
Definition try_bind (broker_uid broker_gid : Z) (safe_mode : bool)
    (durable_binding : option BoundSession) (bind : SessionBind) :
    M WdWorld RpcError (SessionState * SessionEstablished * option BoundSession) :=
  peer ← dep_call CPeer peer_credentials;
  cred ← of_result (map_err (fun _ => WrongPeer) peer);
  try_bind_with_cred broker_uid broker_gid safe_mode durable_binding cred bind.
End Protocol.
