(* ===== verification/WdProtocolFacts.v ===== *)
(** * Facts about frames, envelopes and sessions

    Frames are read back as they were written and in no other form; a request
    is accepted exactly once, in counter order, for the session's own binding. *)

From S2P Require Import Prelude RustStd Json WdTypes WdLog WdLogFacts WdProtocol.

#[local] Opaque WdLog.crc32 WdProtocol.crc32 be_bytes.

(** ** Frames *)

Lemma crc32_same data : WdProtocol.crc32 data = WdLog.crc32 data.
Proof. with_strategy transparent [WdLog.crc32 WdProtocol.crc32] reflexivity. Qed.

Lemma u32_try_from_Some z y : u32_try_from z = Some y <-> y = z /\ is_u32 z.
Proof.
  unfold u32_try_from, is_u32. destruct (_ && _)%bool eqn:E; bool_to_prop.
  - split; [by intros [= <-] | by intros [-> _]].
  - split; [done|]. intros [_ ?]. apply andb_false_iff in E as [E|E]; bool_to_prop; lia.
Qed.

Lemma encode_frame_Ok payload f :
  encode_frame payload = Ok f <->
  Z.of_nat (length payload) <= MAX_FRAME_PAYLOAD_BYTES /\ f = record_frame payload.
Proof.
  unfold encode_frame, record_frame. rewrite crc32_same. split.
  - intros He. inv_ok. bool_to_prop.
    match goal with H : u32_try_from _ = Some _ |- _ => apply u32_try_from_Some in H as [-> _] end.
    done.
  - unfold MAX_FRAME_PAYLOAD_BYTES. intros [Hl ->].
    rewrite (proj2 (Z.ltb_ge _ _)) by lia. cbn [fail_if]. run_ok.
    by rewrite (proj2 (u32_try_from_Some _ (Z.of_nat (length payload))))
      by (unfold is_u32, u32_max; split; [done|lia]).
Qed.

Lemma read_u32_rpc bs i :
  WdProtocol.read_u32 bs i = map_err (fun _ => MalformedFrame) (WdLog.read_u32 bs i).
Proof. unfold WdProtocol.read_u32, WdLog.read_u32. by destruct (slice _ _ _). Qed.

Lemma read_u32_head z s : 0 <= z < 2 ^ 32 -> WdLog.read_u32 (be_bytes 4 z ++ s) 0 = Ok z.
Proof. intros Hz. by apply (read_u32_at []). Qed.

Lemma record_frame_u32 payload more :
  Z.of_nat (length payload) < 2 ^ 32 ->
  WdLog.read_u32 (record_frame payload ++ more) 0 = Ok (Z.of_nat (length payload)) /\
  WdLog.read_u32 (record_frame payload ++ more) 4 = Ok (WdLog.crc32 payload) /\
  slice 8 (8 + length payload) (record_frame payload ++ more) = Some payload.
Proof.
  intros Hl. unfold record_frame. rewrite <-!app_assoc. split_and!.
  - apply read_u32_head. lia.
  - pose proof (read_u32_at (be_bytes 4 (Z.of_nat (length payload)))
      (WdLog.crc32 payload) (payload ++ more)) as Hx.
    rewrite length_be_bytes in Hx. apply Hx, crc32_range.
  - pose proof (slice_middle (be_bytes 4 (Z.of_nat (length payload)) ++
      be_bytes 4 (WdLog.crc32 payload)) payload more) as Hx.
    rewrite length_app, !length_be_bytes, <-app_assoc in Hx. exact Hx.
Qed.

Lemma decode_record_frame payload :
  Z.of_nat (length payload) <= MAX_FRAME_PAYLOAD_BYTES ->
  decode_frame (record_frame payload) = Ok payload.
Proof.
  intros Hl. unfold MAX_FRAME_PAYLOAD_BYTES in Hl.
  destruct (record_frame_u32 payload []) as (H0 & H4 & Hs); [lia|].
  rewrite app_nil_r in *. unfold decode_frame, MAX_FRAME_PAYLOAD_BYTES, FRAME_HEADER_BYTES.
  rewrite !read_u32_rpc, H0, H4, length_record_frame. cbn [map_err].
  rewrite (proj2 (Z.ltb_ge _ _)) by lia. cbn [fail_if]. run_ok.
  rewrite (proj2 (Z.ltb_ge _ _)) by lia. cbn [fail_if]. run_ok.
  rewrite (proj2 (u64_checked_add_Some 8 _ (8 + Z.of_nat (length payload))))
    by (unfold u64_max; lia). cbn [ok_or]. run_ok.
  rewrite (proj2 (Z.ltb_ge _ _)) by lia. cbn [fail_if]. run_ok.
  rewrite (proj2 (Z.eqb_eq _ _)) by lia. cbn [negb fail_if]. run_ok.
  change (Z.to_nat 8) with 8%nat.
  replace (Z.to_nat (8 + Z.of_nat (length payload))) with (8 + length payload)%nat by lia.
  rewrite Hs. cbn [ok_or]. run_ok. rewrite crc32_same. by rewrite Z.eqb_refl.
Qed.

Lemma decode_frame_frame f payload :
  decode_frame f = Ok payload ->
  Z.of_nat (length payload) <= MAX_FRAME_PAYLOAD_BYTES /\ f = record_frame payload.
Proof.
  unfold decode_frame, FRAME_HEADER_BYTES. intros Hd. inv_ok. bool_to_prop.
  rewrite !read_u32_rpc in *.
  match goal with H : u64_checked_add 8 _ = Some _ |- _ =>
    apply u64_checked_add_Some in H as [-> _] end.
  inv_ok.
  match goal with H : WdLog.read_u32 f 0 = Ok ?x, H' : WdLog.read_u32 f 4 = Ok _ |- _ =>
    rename H into E0, H' into E4, x into len end.
  apply read_u32_bytes in E0 as (? & Hb0 & ?), E4 as (? & Hb4 & ?).
  match goal with H : slice _ _ _ = Some _ |- _ => apply slice_Some in H as [? Hp] end.
  replace (Z.to_nat (8 + len) - Z.to_nat 8)%nat with (Z.to_nat len) in Hp by lia.
  change (Z.to_nat 8) with 8%nat in *.
  assert (Hl : length payload = Z.to_nat len).
  { rewrite Hp, length_take, length_drop. lia. }
  split; [lia|]. unfold record_frame.
  rewrite <-crc32_same, Hl, Z2Nat.id by lia.
  rewrite Hb0, Hb4. rewrite drop_0.
  rewrite (frame_parts f (Z.to_nat len)) at 1 by lia.
  rewrite <-Hp, (drop_ge f (8 + _)) by lia. by rewrite app_nil_r.
Qed.

Lemma decode_frame_Ok f payload :
  decode_frame f = Ok payload <-> encode_frame payload = Ok f.
Proof.
  rewrite encode_frame_Ok. split; [apply decode_frame_frame|].
  intros [Hl ->]. by apply decode_record_frame.
Qed.

Lemma read_exact_app n a b e :
  length a = n -> read_exact n (mkStream (a ++ b) e) = (Ret a, mkStream b e).
Proof.
  intros <-. unfold read_exact. cbn [st_bytes st_error].
  rewrite decide_True by (rewrite length_app; lia).
  by rewrite take_app_length, drop_app_length.
Qed.

Lemma read_frame_written payload f rest e :
  encode_frame payload = Ok f ->
  read_frame (mkStream (f ++ rest) e) = (Ret f, mkStream rest e).
Proof.
  rewrite encode_frame_Ok. unfold MAX_FRAME_PAYLOAD_BYTES. intros [Hl ->].
  set (hdr := be_bytes 4 (Z.of_nat (length payload)) ++ be_bytes 4 (WdLog.crc32 payload)).
  assert (Hf : record_frame payload = hdr ++ payload)
    by (unfold record_frame, hdr; by rewrite app_assoc).
  assert (Hh : length hdr = 8%nat) by (unfold hdr; by rewrite length_app, !length_be_bytes).
  assert (H0 : WdProtocol.read_u32 hdr 0 = Ok (Z.of_nat (length payload))).
  { rewrite read_u32_rpc. unfold hdr. by rewrite read_u32_head by lia. }
  rewrite Hf. unfold read_frame, mbind, M_bind, mapping_err, of_result, throw_if, mret, M_ret.
  change (Z.to_nat FRAME_HEADER_BYTES) with 8%nat.
  rewrite <-app_assoc, read_exact_app by done. rewrite H0. cbn beta iota.
  rewrite (proj2 (Z.ltb_ge _ _)) by (unfold MAX_FRAME_PAYLOAD_BYTES; lia).
  by rewrite read_exact_app by lia.
Qed.

(** One changed payload byte on the wire. *)
Lemma decode_frame_corrupt p a b s f :
  a <> b -> encode_frame (p ++ a :: s) = Ok f ->
  decode_frame (take 8 f ++ (p ++ b :: s)) = Err CrcMismatch.
Proof.
  rewrite encode_frame_Ok. unfold MAX_FRAME_PAYLOAD_BYTES. intros Hab [Hl ->].
  set (q := p ++ a :: s) in *. set (q' := p ++ b :: s).
  assert (Hqq : length q = length q') by (unfold q, q'; rewrite !length_app; done).
  assert (Ht : take 8 (record_frame q) =
               be_bytes 4 (Z.of_nat (length q)) ++ be_bytes 4 (WdLog.crc32 q)).
  { unfold record_frame. rewrite app_assoc. apply take_app_length'.
    by rewrite length_app, !length_be_bytes. }
  rewrite Ht, <-app_assoc.
  unfold decode_frame, MAX_FRAME_PAYLOAD_BYTES, FRAME_HEADER_BYTES.
  rewrite !read_u32_rpc, read_u32_head, !length_app, !length_be_bytes by lia. cbn [map_err].
  pose proof (read_u32_at (be_bytes 4 (Z.of_nat (length q))) (WdLog.crc32 q) q') as Hx.
  rewrite length_be_bytes in Hx. rewrite Hx by apply crc32_range. cbn [map_err].
  rewrite (proj2 (Z.ltb_ge _ _)) by lia. cbn [fail_if]. run_ok.
  rewrite (proj2 (Z.ltb_ge _ _)) by lia. cbn [fail_if]. run_ok.
  rewrite (proj2 (u64_checked_add_Some 8 _ (8 + Z.of_nat (length q))))
    by (unfold u64_max; lia). cbn [ok_or]. run_ok.
  rewrite (proj2 (Z.ltb_ge _ _)) by lia. cbn [fail_if]. run_ok.
  rewrite (proj2 (Z.eqb_eq _ _)) by lia. cbn [negb fail_if]. run_ok.
  change (Z.to_nat 8) with 8%nat.
  replace (Z.to_nat (8 + Z.of_nat (length q))) with (8 + length q')%nat by lia.
  pose proof (slice_middle (be_bytes 4 (Z.of_nat (length q)) ++ be_bytes 4 (WdLog.crc32 q)) q' [])
    as Hs.
  rewrite length_app, !length_be_bytes, app_nil_r, <-app_assoc in Hs.
  change (4 + 4)%nat with 8%nat in Hs. rewrite Hs. cbn [ok_or]. run_ok.
  rewrite crc32_same, (proj2 (Z.eqb_neq _ _)); [done|].
  intros Heq. by apply (crc32_one_byte p a b s).
Qed.

(** ** Worker group tags *)

Lemma parse_tag_Ok `{JsonNumberLaws} v t :
  parse_worker_group_tag_value v = Ok t <->
  value_as_u64 v = Some (tag_raw t) /\ tag_ok t.
Proof.
  assert (Hraw : forall z, is_u64 z ->
    (raw ← ok_or (u32_try_from z) MalformedRequest; try_from_raw raw) = Ok t <->
    z = tag_raw t /\ tag_ok t).
  { intros z Hz. rewrite result_bind_Ok. setoid_rewrite ok_or_Ok.
    setoid_rewrite u32_try_from_Some. setoid_rewrite try_from_raw_Ok.
    unfold tag_ok, is_u32, u32_max, i32_max. destruct t as [r]; cbn. split.
    - intros (? & [-> ?] & [= ->] & ?). done.
    - intros [-> ?]. exists r. split_and!; try done; lia. }
  destruct v as [| |n| | |]; cbn; try (split; [done|by intros [? _]]).
  destruct (as_i64 n) as [z|] eqn:Hi.
  - destruct (z <? 0) eqn:Hn; bool_to_prop.
    + split; [done|]. intros [Hu Ht]. unfold tag_ok, i32_max in Ht.
      rewrite (as_u64_i64 _ _ Hu) in Hi by lia. injection Hi as <-. lia.
    + pose proof (as_i64_u64 _ _ Hi Hn) as Hu. pose proof (as_i64_range _ _ Hi).
      rewrite Hraw by (unfold is_u64, u64_max; lia). rewrite Hu.
      split; [intros [-> ?]; done|intros [[= ->] ?]; done].
  - destruct (as_u64 n) as [z|] eqn:Hu; [|split; [done|by intros [? _]]].
    rewrite Hraw by eauto using as_u64_range.
    split; [intros [-> ?]; done|intros [[= ->] ?]; done].
Qed.

(** ** Sessions *)

Lemma verify_authenticated_Ok s cap c h t e :
  verify_authenticated s cap c h t e = Ok tt <->
  exists est, ss_established s = Some est /\ cap = se_capability est /\ c <> 0 /\
              c = ss_last_counter s + 1 /\ c <= u64_max /\
              h = se_host_id est /\ t = se_tx_id est /\ e = se_epoch est.
Proof.
  unfold verify_authenticated. split.
  - intros Hv. inv_ok.
    match goal with H : u64_checked_add _ _ = Some _ |- _ =>
      apply u64_checked_add_Some in H as [-> ?] end.
    match goal with H : (if ?b then _ else _) = Ok _ |- _ => destruct b eqn:Hc in H end.
    { by destruct (_ <=? _). }
    bool_to_prop. subst. by eexists.
  - intros (est & -> & -> & H0 & -> & Hm & -> & -> & ->). cbn [ok_or]. run_ok.
    rewrite !bool_decide_neq_refl.
    rewrite (proj2 (Z.eqb_neq _ 0)) by done. cbn [fail_if]. run_ok.
    rewrite (proj2 (u64_checked_add_Some _ 1 _) (conj eq_refl Hm)). cbn [ok_or]. run_ok.
    by rewrite !Z.eqb_refl.
Qed.

Section Sessions.
Context `{JsonNumber} `{!WireCodec}.

(** What the document part of [decode_request] yields. *)
Definition request_document (f : list byte) (env : RequestEnvelope) : Prop :=
  exists payload v,
    decode_frame f = Ok payload /\ json_from_slice payload = Some v /\
    check_version v = Ok tt /\ reject_unknown_top_level v request_keys = Ok tt /\
    request_from_value v = Ok env.

Definition envelope_consistent (env : RequestEnvelope) : Prop :=
  rq_request_id env = request_id (rq_request env) /\
  binding_identity (rq_request env) = (rq_host_id env, rq_tx_id env, rq_epoch env).

Lemma verify_envelope_binding_Ok r h t e :
  verify_envelope_binding r h t e = Ok tt <-> binding_identity r = (h, t, e).
Proof.
  unfold verify_envelope_binding. destruct (binding_identity r) as [[h' t'] e']. split.
  - intros Hv. inv_ok. bool_to_prop. congruence.
  - intros [= -> -> ->]. rewrite !bool_decide_neq_refl.
    by rewrite Z.eqb_refl.
Qed.

Lemma decode_request_Ret f s a s' :
  decode_request f s = (Ret a, s') <->
  exists env, request_document f env /\ envelope_consistent env /\
    verify_authenticated s (rq_capability env) (rq_counter env) (rq_host_id env)
      (rq_tx_id env) (rq_epoch env) = Ok tt /\
    a = mkAuthenticated (rq_request env) (rq_counter env) /\
    s' = advance_counter (rq_counter env) s.
Proof.
  unfold decode_request, request_document, envelope_consistent, parse_json.
  unfold mbind, M_bind, of_result, throw_if, gets, modify, mret, M_ret.
  split.
  - intros Hd.
    destruct (decode_frame f) as [p|] eqn:Hf; cbn [map_err] in Hd; [|by case_match].
    destruct (json_from_slice p) as [v|] eqn:Hj; cbn [ok_or] in Hd; [|done].
    destruct (check_version v) as [[]|] eqn:Hc; [|done].
    destruct (reject_unknown_top_level v _) as [[]|] eqn:Hu; [|done].
    destruct (request_from_value v) as [env|] eqn:Hr; cbn [map_err] in Hd; [|done].
    unfold id in Hd. destruct (verify_authenticated s _ _ _ _ _) as [[]|] eqn:Hv; [|done].
    case_bool_decide as Hi; [done|].
    destruct (verify_envelope_binding _ _ _ _) as [[]|] eqn:Hb; [|done].
    apply verify_envelope_binding_Ok in Hb. injection Hd as <- <-.
    exists env. split_and!; eauto 10.
  - intros (env & (p & v & Hf & Hj & Hc & Hu & Hr) & [Hi Hb] & Hv & -> & ->).
    rewrite Hf. cbn [map_err]. rewrite Hj. cbn [ok_or]. rewrite Hc, Hu, Hr. cbn [map_err].
    unfold id. rewrite Hv, Hi, bool_decide_neq_refl.
    by rewrite (proj2 (verify_envelope_binding_Ok _ _ _ _) Hb).
Qed.

(** A refused frame leaves the session as it was; nothing panics. *)
Lemma decode_request_other f s o s' :
  decode_request f s = (o, s') -> (exists a, o = Ret a) \/ (exists e, o = Throw e) /\ s' = s.
Proof.
  unfold decode_request, mbind, M_bind, of_result, throw_if, gets, modify, mret, M_ret.
  intros Hd. destruct (map_err _ (decode_frame f)) as [p|]; [|injection Hd as <- <-; eauto].
  destruct (parse_json p) as [v|]; [|injection Hd as <- <-; eauto].
  destruct (check_version v); [|injection Hd as <- <-; eauto].
  destruct (reject_unknown_top_level v _); [|injection Hd as <- <-; eauto].
  destruct (map_err _ (request_from_value v)); [|injection Hd as <- <-; eauto].
  destruct (verify_authenticated _ _ _ _ _ _); [|injection Hd as <- <-; eauto].
  destruct (bool_decide _); [injection Hd as <- <-; eauto|].
  destruct (verify_envelope_binding _ _ _ _); injection Hd as <- <-; eauto.
Qed.

(** A document that was accepted is refused as a replay as soon as the
    session's counter has reached it. *)
Lemma decode_request_replayed f s a s1 s2 :
  decode_request f s = (Ret a, s1) ->
  ss_established s2 = ss_established s ->
  au_counter a <= ss_last_counter s2 -> ss_last_counter s2 < u64_max ->
  decode_request f s2 = (Throw ReplayCounter, s2).
Proof.
  rewrite decode_request_Ret.
  intros (env & (p & v & Hf & Hj & Hc & Hu & Hr) & _ & Hv & -> & _) Hest Hle Hlt.
  cbn [au_counter] in Hle. apply verify_authenticated_Ok in Hv as (est & He & Hcap & Hnz & Hcn & _).
  unfold decode_request, parse_json, mbind, M_bind, of_result, gets.
  rewrite Hf. cbn [map_err]. rewrite Hj. cbn [ok_or]. rewrite Hc, Hu, Hr. cbn [map_err].
  unfold id, verify_authenticated. rewrite Hest, He. cbn [ok_or]. run_ok.
  rewrite Hcap, bool_decide_neq_refl.
  rewrite (proj2 (Z.eqb_neq _ 0)) by done. cbn [fail_if]. run_ok.
  rewrite (proj2 (u64_checked_add_Some _ 1 (ss_last_counter s2 + 1))) by lia.
  cbn [ok_or]. run_ok.
  rewrite (proj2 (Z.eqb_neq (rq_counter env) (ss_last_counter s2 + 1))) by lia. cbn [negb].
  by rewrite (proj2 (Z.leb_le _ _)).
Qed.

(** A session fed with frames: the requests it accepts, in order. *)
Fixpoint feed (fs : list (list byte)) (s : SessionState) :
    list AuthenticatedRequest * SessionState :=
  match fs with
  | [] => ([], s)
  | f :: fs =>
      let '(o, s) := decode_request f s in
      let '(as_, s') := feed fs s in
      (match o with Ret a => a :: as_ | _ => as_ end, s')
  end.

Lemma feed_counters fs s as_ s' :
  feed fs s = (as_, s') ->
  au_counter <$> as_ = (fun i => ss_last_counter s + Z.of_nat i) <$> seq 1 (length as_) /\
  ss_last_counter s' = ss_last_counter s + Z.of_nat (length as_) /\
  ss_established s' = ss_established s.
Proof.
  revert s as_ s'. induction fs as [|f fs IH]; intros s as_ s'; cbn [feed].
  { intros [= <- <-]. cbn. by rewrite Z.add_0_r. }
  destruct (decode_request f s) as [o s1] eqn:Hd.
  destruct (feed fs s1) as [bs s2] eqn:Hf. apply IH in Hf as (Hc & Hl & He).
  destruct (decode_request_other _ _ _ _ Hd) as [[a ->]|[[e ->] ->]];
    intros [= <- <-]; [|done].
  apply decode_request_Ret in Hd as (env & _ & _ & Hv & -> & ->).
  apply verify_authenticated_Ok in Hv as (est & _ & _ & _ & Hcn & _).
  cbn [advance_counter ss_last_counter ss_established] in *.
  cbn [length]. split_and!; [|lia|done].
  cbn [seq]. rewrite !fmap_cons. f_equal; [cbn; lia|]. rewrite Hc, <-(fmap_S_seq 1).
  rewrite <-list_fmap_compose. apply list_fmap_ext. intros i x _. unfold compose. lia.
Qed.

(** *** Round trips *)

Lemma check_version_1 v :
  (n ← value_get "version" v; value_as_u64 n) = Some PROTOCOL_VERSION ->
  check_version v = Ok tt.
Proof. intros Hv. unfold check_version. rewrite Hv. by rewrite Z.eqb_refl. Qed.

Lemma versioned_object_ok keys v :
  versioned_object keys PROTOCOL_VERSION v ->
  check_version v = Ok tt /\ reject_unknown_top_level v keys = Ok tt.
Proof.
  intros [(ms & -> & Hms) Hv]. split; [by apply check_version_1|].
  unfold reject_unknown_top_level. cbn [value_as_object ok_or]. run_ok.
  replace (existsb _ _) with false; [done|]. symmetry. clear Hv.
  induction Hms as [|[k x] ms Hk _ IH]; [done|]. cbn in *.
  by rewrite bool_decide_eq_true_2.
Qed.

Lemma encode_json_Ok o f :
  encode_json o = Ok f <-> exists p, o = Some p /\ encode_frame p = Ok f.
Proof. unfold encode_json. rewrite result_bind_Ok. by setoid_rewrite ok_or_Ok. Qed.

Context `{!WireCodecLaws}.

Lemma encode_request_document r est c f :
  encode_request r est c = Ok f -> is_u64 c -> is_u64 (se_epoch est) ->
  local_request_ok r ->
  request_document f
    {| rq_version := PROTOCOL_VERSION; rq_capability := se_capability est;
       rq_counter := c; rq_request_id := request_id r; rq_host_id := se_host_id est;
       rq_tx_id := se_tx_id est; rq_epoch := se_epoch est; rq_request := r |}.
Proof.
  unfold encode_request. rewrite encode_json_Ok. intros (p & Hp & Hf) Hc He Hr.
  apply request_roundtrip in Hp as (v & Hj & Hv & Hfrom);
    [|by unfold request_envelope_ok].
  apply decode_frame_Ok in Hf. apply versioned_object_ok in Hv as [? ?]. by exists p, v.
Qed.

Lemma decode_encode_request r est c f s :
  encode_request r est c = Ok f -> is_u64 c -> is_u64 (se_epoch est) ->
  local_request_ok r ->
  ss_established s = Some est -> c = ss_last_counter s + 1 -> c <> 0 ->
  binding_identity r = (se_host_id est, se_tx_id est, se_epoch est) ->
  decode_request f s = (Ret (mkAuthenticated r c), advance_counter c s).
Proof.
  intros Hf Hc He Hr Hs Hcn Hnz Hb.
  apply (encode_request_document r est c) in Hf; [|done..].
  apply decode_request_Ret. eexists. split; [exact Hf|]. split; [done|].
  split; [|done]. apply verify_authenticated_Ok. exists est. unfold is_u64 in Hc.
  split_and!; simpl; try done; lia.
Qed.

Lemma decode_encode_response resp r est c f r' est' c' :
  encode_response resp r est c = Ok f -> is_u64 c -> is_u64 (se_epoch est) ->
  decode_response f r' est' c' =
  if bool_decide (se_capability est = se_capability est' /\ c = c' /\
                  request_id r = request_id r' /\ se_host_id est = se_host_id est' /\
                  se_tx_id est = se_tx_id est' /\ se_epoch est = se_epoch est')
  then Ok resp else Err ResponseBindingMismatch.
Proof.
  unfold encode_response. rewrite encode_json_Ok. intros (p & Hp & Hf) Hc He.
  apply response_roundtrip in Hp as (v & Hj & Hv & Hfrom);
    [|by unfold response_envelope_ok].
  apply decode_frame_Ok in Hf. unfold decode_response, parse_json.
  rewrite Hf. run_ok. rewrite Hj. cbn [ok_or]. run_ok.
  rewrite check_version_1 by done. run_ok. rewrite Hfrom. cbn [map_err]. run_ok.
  cbn [rs_capability rs_counter rs_request_id rs_host_id rs_tx_id rs_epoch rs_response].
  match goal with |- _ = if bool_decide ?P then _ else _ =>
    destruct (bool_decide P) eqn:Hx end; bool_to_prop.
  - destruct Hx as (-> & -> & -> & -> & -> & ->).
    by rewrite !bool_decide_neq_refl, !Z.eqb_refl.
  - destruct (_ || _)%bool eqn:Hor; [done|]. exfalso. apply Hx. bool_to_prop. done.
Qed.

Lemma decode_encode_bind `{!JsonNumberLaws} b f :
  encode_session_bind b = Ok f -> bind_ok b -> decode_session_bind f = Ok b.
Proof.
  unfold encode_session_bind. rewrite encode_json_Ok. intros (p & Hp & Hf) Hb.
  apply bind_roundtrip in Hp as (v & n & Hj & Hv & Hn & Hfrom); [|done].
  apply decode_frame_Ok in Hf. apply versioned_object_ok in Hv as [Hver Hkeys].
  unfold decode_session_bind, decode_control, parse_json.
  rewrite Hf. run_ok. rewrite Hj. cbn [ok_or]. run_ok. rewrite Hver. run_ok.
  rewrite Hkeys. run_ok. rewrite Hfrom. cbn [map_err ce_payload bw_worker_group_tag]. run_ok.
  rewrite (proj2 (parse_tag_Ok _ (sb_worker_group_tag b))) by (split; [done|apply Hb]).
  run_ok. by destruct b.
Qed.
End Sessions.

(** ** Capabilities *)

Lemma length_xor_at from bs cap : length (xor_at from bs cap) = length cap.
Proof.
  revert from cap. induction bs as [|b bs IH]; intros from cap; [done|].
  cbn [xor_at]. by rewrite IH, length_alter.
Qed.

Lemma lookup_xor_at_ne from bs cap i :
  (i < from \/ from + length bs <= i)%nat -> xor_at from bs cap !! i = cap !! i.
Proof.
  revert from cap. induction bs as [|b bs IH]; intros from cap Hi; [done|].
  cbn [xor_at length] in *. rewrite IH by lia. apply list_lookup_alter_ne. lia.
Qed.

Lemma lookup_xor_at from bs cap i b x :
  bs !! i = Some b -> cap !! (from + i)%nat = Some x ->
  xor_at from bs cap !! (from + i)%nat = Some (byte_xor x b).
Proof.
  revert from cap i. induction bs as [|b' bs IH]; intros from cap [|i] Hb Hx; try done.
  - injection Hb as ->. cbn [xor_at]. rewrite lookup_xor_at_ne by lia.
    rewrite Nat.add_0_r in *. rewrite list_lookup_alter. by rewrite decide_True, Hx.
  - cbn [xor_at]. rewrite <-Nat.add_succ_comm in *. apply IH; [done|].
    rewrite list_lookup_alter_ne by lia. done.
Qed.

Lemma byte_xor_inj x a b : byte_xor x a = byte_xor x b -> a = b.
Proof.
  unfold byte_xor. intros Hx. apply (f_equal byte_val) in Hx. rewrite !byte_val_of in Hx.
  pose proof (byte_val_range x). pose proof (byte_val_range a). pose proof (byte_val_range b).
  rewrite !Z.mod_small in Hx by (apply (lxor_range 8); lia).
  by apply byte_val_inj, (lxor_cancel_l _ _ (byte_val x)).
Qed.

Lemma xor_at_inj from bs bs' cap :
  length bs = length bs' -> (from + length bs <= length cap)%nat ->
  (forall i, (i < length bs)%nat ->
     xor_at from bs cap !! (from + i)%nat = xor_at from bs' cap !! (from + i)%nat) ->
  bs = bs'.
Proof.
  intros Hl Hc Heq. apply list_eq_same_length with (length bs); [done|done|].
  intros i x y Hi Hx Hy. specialize (Heq i Hi).
  destruct (lookup_lt_is_Some_2 cap (from + i)) as [z Hz]; [lia|].
  rewrite (lookup_xor_at _ _ _ _ _ _ Hx Hz), (lookup_xor_at _ _ _ _ _ _ Hy Hz) in Heq.
  injection Heq as Heq. by eapply byte_xor_inj.
Qed.

Lemma to_ne_bytes_inj a b : to_ne_bytes a = to_ne_bytes b -> a mod 2 ^ 32 = b mod 2 ^ 32.
Proof.
  unfold to_ne_bytes. intros H. apply (f_equal (@rev byte)) in H. rewrite !rev_involutive in H.
  apply (f_equal be_value) in H.
  rewrite !be_value_bytes in H by (apply Z.mod_pos_bound; lia). done.
Qed.

Lemma length_to_ne_bytes z : length (to_ne_bytes z) = 4%nat.
Proof. unfold to_ne_bytes. by rewrite length_rev, length_be_bytes. Qed.

(** The same entropy gives different peers different capabilities. *)
Lemma derive_capability_inj filled c c' :
  length filled = 32%nat -> derive_capability filled c = derive_capability filled c' ->
  cred_uid c mod 2 ^ 32 = cred_uid c' mod 2 ^ 32 /\
  cred_gid c mod 2 ^ 32 = cred_gid c' mod 2 ^ 32 /\
  cred_pid c mod 2 ^ 32 = cred_pid c' mod 2 ^ 32.
Proof.
  intros Hl Heq. unfold derive_capability in Heq.
  assert (Hp : to_ne_bytes (cred_pid c) = to_ne_bytes (cred_pid c')).
  { apply (xor_at_inj 0 _ _ filled); rewrite ?length_to_ne_bytes; [done|lia|].
    intros i Hi. apply (f_equal (lookup (0 + i)%nat)) in Heq.
    by rewrite !(lookup_xor_at_ne 16), !(lookup_xor_at_ne 8) in Heq
      by (rewrite ?length_to_ne_bytes; lia). }
  rewrite Hp in Heq. set (base := xor_at 0 _ filled) in *.
  assert (Hb : length base = 32%nat) by (unfold base; by rewrite length_xor_at).
  assert (Hu : to_ne_bytes (cred_uid c) = to_ne_bytes (cred_uid c')).
  { apply (xor_at_inj 8 _ _ base); rewrite ?length_to_ne_bytes; [done|lia|].
    intros i Hi. apply (f_equal (lookup (8 + i)%nat)) in Heq.
    by rewrite !(lookup_xor_at_ne 16) in Heq by (rewrite ?length_to_ne_bytes; lia). }
  rewrite Hu in Heq. set (base' := xor_at 8 _ base) in *.
  assert (Hb' : length base' = 32%nat) by (unfold base'; by rewrite length_xor_at).
  assert (Hg : to_ne_bytes (cred_gid c) = to_ne_bytes (cred_gid c')).
  { apply (xor_at_inj 16 _ _ base'); rewrite ?length_to_ne_bytes; [done|lia|].
    intros i Hi. by rewrite Heq. }
  split_and!; by apply to_ne_bytes_inj.
Qed.
