(* ===== verification/WdCore.v ===== *)
(** * Watchdog: the decision authority

    [watchdogd/src/core.rs], [durability_store.rs] and
    [rpc/server.rs::serve_one].  Handlers run in the monad [M] over the
    core's fields and the world; an error leaves the state as the source
    leaves it. *)

From S2P Require Import Prelude RustStd Json WdTypes WdLog WdProtocol.

(** ** durability_store.rs *)

Definition ascii_bytes (s : string) : list byte :=
  map (fun c => byte_of (Z.of_nat (Ascii.nat_of_ascii c))) (String.list_ascii_of_string s).

(** The bytes of the JSON text {"safe_mode":true} *)
Definition QUOTE : string := String (Ascii.ascii_of_nat 34) "".
Definition SAFE_MODE_PAYLOAD : list byte :=
  ascii_bytes ("{" +:+ QUOTE +:+ "safe_mode" +:+ QUOTE +:+ ":true}").
Definition EPOCH_TEMP_PREFIX : string := ".tmp-epoch".
Definition SAFE_MODE_TEMP_PREFIX : string := ".tmp-safe-mode".

Definition DECISION_LOG_REL : Path := ["decisions"; "decision.log"].
Definition EPOCH_HIGH_WATER_REL : Path := ["epoch"; "high-water.json"].
Definition SAFE_MODE_REL : Path := ["state"; "safe-mode.json"].

Section Store.
Context `{IoEnv} `{Dependencies}.

(** [durability.atomic_rename]: the answer, and whether the file moved *)
Definition atomic_rename (from to : Path) : M WdWorld DurabilityError unit := fun w =>
  let n := w_tick w in
  let r := dur_atomic_rename n from to in
  let fs := if dur_rename_moves n then default (w_fs w) (rename_file from to (w_fs w))
            else w_fs w in
  of_result r (mkWorld fs (S n) (w_calls w ++ [CRename from to r])).

Definition readback_verify (path : Path) (expected : list byte) :
    M WdWorld DurabilityError unit :=
  fs ← gets w_fs;
  r ← dep_call (CReadback path) (fun n => dur_readback_verify n fs path expected);
  of_result r.

Definition durable_atomic_rename (from to : Path) : M WdWorld DurabilityError unit :=
  atomic_rename from to;;
  still ← path_exists from;
  if still : bool then mapping_err DurIo (fs_rename from to) else mret tt.

Definition unique_temp_path {E} (parent_dir : Path) (label : string) : M WdWorld E Path :=
  fun w => (Ret (path_join parent_dir
              [".tmp-" +:+ label +:+ "-" +:+ format_decimal (temp_nanos (w_tick w))]),
            mkWorld (w_fs w) (S (w_tick w)) (w_calls w)).

Definition ambiguous_temp_residue {E} (parent : Path) (prefix : string) :
    M WdWorld E bool :=
  entries ← attempt (read_dir parent);
  mret (match entries with
        | Err _ => true
        | Ok names => existsb (String.prefix prefix) names
        end).

Definition ambiguous_epoch_temp_residue {E} (parent : Path) : M WdWorld E bool :=
  ambiguous_temp_residue parent EPOCH_TEMP_PREFIX.

(** [write_exclusive] and [write_epoch_temp_exclusive] (unix) *)
Definition write_exclusive (path : Path) (bytes : list byte) : M WdWorld IoError unit :=
  open_create_new path;; write_all path bytes;; sync_all path.

Definition persist_safe_mode_marker (store_root : Path) : M WdWorld RpcError unit :=
  let marker := path_join store_root SAFE_MODE_REL in
  parent ← of_result (ok_or (path_parent marker) SafeModeActive);
  mapping_err (fun _ => SafeModeActive) (create_dir_all parent);;
  residue ← ambiguous_temp_residue parent SAFE_MODE_TEMP_PREFIX;
  throw_if residue SafeModeActive;;
  tmp ← unique_temp_path parent "safe-mode";
  mapping_err (fun _ => SafeModeActive) (write_exclusive tmp SAFE_MODE_PAYLOAD);;
  mapping_err RDurability (file_fsync tmp);;
  mapping_err (fun _ => SafeModeActive) (durable_atomic_rename tmp marker);;
  mapping_err RDurability (dir_fsync parent);;
  mapping_err RDurability (readback_verify marker SAFE_MODE_PAYLOAD).

(** ** The epoch file *)

Definition epoch_bytes (epoch : Z) : list byte := be_bytes 8 epoch.

Definition read_epoch_file (path : Path) : M WdWorld WatchdogError Z :=
  data ← mapping_err (fun _ => WEpochLogMismatch) (fs_read path);
  throw_if (negb (Nat.eqb (length data) 8)) WEpochLogMismatch;;
  mret (be_value data).

Definition write_epoch_file (path : Path) (epoch : Z) : M WdWorld WatchdogError unit :=
  let bytes := epoch_bytes epoch in
  mapping_err (fun _ => WDurability (DurIo "io")) (fs_write path bytes);;
  mapping_err WDurability (file_fsync path);;
  match path_parent path with
  | Some parent => mapping_err WDurability (dir_fsync parent)
  | None => mret tt
  end.
End Store.

(** ** The core's state *)

Record CoreConfig := mkConfig {
  cfg_store_root : Path;
  cfg_broker_uid : Z;
  cfg_broker_gid : Z;
  cfg_host_id : string;
}.

Record ArmedState := mkArmed {
  as_host_id : string;
  as_tx_id : string;
  as_epoch : Z;
  as_base : string;
  as_lease_id : string;
  as_worker_group_tag : WorkerGroupTag;
  as_armed_at : SystemTime;
  as_deadline : SystemTime;
  as_lease_expires_at : SystemTime;
  as_chosen : option AuthorityRecordKind;
}.

Record WatchdogCore := mkCore {
  wc_config : CoreConfig;
  wc_safe_mode : bool;
  wc_durable_binding : option BoundSession;
  wc_armed : option ArmedState;
  wc_log_seq : Z;
  wc_last_clock : SystemTime;
}.

(** The fields a handler assigns. *)
Definition set_safe_mode (b : bool) (c : WatchdogCore) :=
  mkCore (wc_config c) b (wc_durable_binding c) (wc_armed c) (wc_log_seq c) (wc_last_clock c).
Definition set_durable_binding (b : option BoundSession) (c : WatchdogCore) :=
  mkCore (wc_config c) (wc_safe_mode c) b (wc_armed c) (wc_log_seq c) (wc_last_clock c).
Definition set_armed (a : option ArmedState) (c : WatchdogCore) :=
  mkCore (wc_config c) (wc_safe_mode c) (wc_durable_binding c) a (wc_log_seq c) (wc_last_clock c).
Definition set_log_seq (n : Z) (c : WatchdogCore) :=
  mkCore (wc_config c) (wc_safe_mode c) (wc_durable_binding c) (wc_armed c) n (wc_last_clock c).
Definition set_last_clock (t : SystemTime) (c : WatchdogCore) :=
  mkCore (wc_config c) (wc_safe_mode c) (wc_durable_binding c) (wc_armed c) (wc_log_seq c) t.

Definition set_lease_expires_at (t : SystemTime) (a : ArmedState) : ArmedState :=
  mkArmed (as_host_id a) (as_tx_id a) (as_epoch a) (as_base a) (as_lease_id a)
          (as_worker_group_tag a) (as_armed_at a) (as_deadline a) t (as_chosen a).
Definition set_chosen (k : option AuthorityRecordKind) (a : ArmedState) : ArmedState :=
  mkArmed (as_host_id a) (as_tx_id a) (as_epoch a) (as_base a) (as_lease_id a)
          (as_worker_group_tag a) (as_armed_at a) (as_deadline a) (as_lease_expires_at a) k.

(** A running core: its fields and the world. *)
Record CoreW := mkCoreW {
  cw_core : WatchdogCore;
  cw_world : WdWorld;
}.

Definition in_world {E A} : M WdWorld E A -> M CoreW E A :=
  zoom cw_world (fun w s => mkCoreW (cw_core s) w).
Definition get_core {E} : M CoreW E WatchdogCore := gets cw_core.
Definition modify_core {E} (f : WatchdogCore -> WatchdogCore) : M CoreW E unit :=
  modify (fun s => mkCoreW (f (cw_core s)) (cw_world s)).

Section Core.
Context `{JsonNumber} `{!RecordCodec} `{!IoEnv} `{!Dependencies}.

Abbreviation Handler := (M CoreW RpcError).

(** ** Startup *)

Definition armed_of_reconstructed (r : ReconstructedAuthority) : ArmedState :=
  let binding := ra_binding r in
  {| as_host_id := bs_host_id binding; as_tx_id := bs_tx_id binding;
     as_epoch := bs_epoch binding; as_base := ra_base r;
     as_lease_id := bs_lease_id binding;
     as_worker_group_tag := bs_worker_group_tag binding;
     as_armed_at := ra_armed_at r; as_deadline := ra_deadline r;
     as_lease_expires_at := ra_lease_expires_at r; as_chosen := ra_chosen r |}.

Definition reopen_state (is_reopen : bool) (log_reader : option DecisionLogReader) :
    result WatchdogError (option BoundSession * option ArmedState * SystemTime) :=
  match is_reopen, log_reader with
  | true, Some reader =>
      reconstructed ← map_err (fun _ => WSafeModeActive)
                        (reconstruct_active_authority reader);
      Ok (match reconstructed with
          | Some r => (Some (ra_binding r), Some (armed_of_reconstructed r),
                       ra_last_activity r)
          | None => (None, None, UNIX_EPOCH)
          end)
  | _, _ => Ok (None, None, UNIX_EPOCH)
  end.

Definition startup (config : CoreConfig) (is_reopen : bool) :
    M WdWorld WatchdogError WatchdogCore :=
  let store_root := cfg_store_root config in
  marked ← path_exists (path_join store_root SAFE_MODE_REL);
  throw_if marked WSafeModeActive;;
  topology ← dep_call CTopology (fun n => topology_verify_startup n store_root);
  match topology with
  | Err UnavailableStore => throw (WTopology UnavailableStore)
  | Err Unwritable =>
      let tmp := path_join store_root [".tmp-safe"] in
      let marker := path_join store_root SAFE_MODE_REL in
      match path_parent marker with
      | Some parent => _ ← attempt (create_dir_all parent); mret tt
      | None => mret tt
      end;;
      mapping_err (fun _ => WSafeModePersistUnavailable) (atomic_rename tmp marker);;
      throw (WTopology Unwritable)
  | Err e => throw (WTopology e)
  | Ok _ => mret tt
  end;;
  let epoch_path := path_join store_root EPOCH_HIGH_WATER_REL in
  let log_path := path_join store_root DECISION_LOG_REL in
  log_there ← path_exists log_path;
  log_reader ← (if log_there : bool
                then d ← mapping_err (fun _ => WSafeModeActive) (dl_open log_path);
                     mret (Some d)
                else mret None);
  let log_records := from_option record_count 0%nat log_reader in
  let log_epoch := from_option max_epoch 0 log_reader in
  floor ← dep_call CFloor floor_read_epoch;
  match floor with
  | Err _ => throw WSafeModeActive
  | Ok floor =>
      if is_reopen || (0 <? log_records)%nat then
        file_epoch ← read_epoch_file epoch_path;
        throw_if (file_epoch <? floor) WSafeModeActive;;
        throw_if ((0 <? log_records)%nat && negb (file_epoch =? log_epoch))
                 WEpochLogMismatch;;
        throw_if ((0 <? file_epoch) && Nat.eqb log_records 0) WEpochLogMismatch
      else
        epoch_there ← path_exists epoch_path;
        if epoch_there : bool then
          file_epoch ← read_epoch_file epoch_path;
          throw_if (file_epoch <? floor) WSafeModeActive
        else
          match path_parent epoch_path with
          | Some parent =>
              mapping_err (fun _ => WDurability (DurIo "io")) (create_dir_all parent)
          | None => mret tt
          end;;
          write_epoch_file epoch_path 0
  end;;
  '(durable_binding, armed, last_clock) ←
    of_result (reopen_state (is_reopen || (0 <? log_records)%nat) log_reader);
  mret {| wc_config := config; wc_safe_mode := false;
          wc_durable_binding := durable_binding; wc_armed := armed;
          wc_log_seq := Z.of_nat log_records; wc_last_clock := last_clock |}.

Definition open (config : CoreConfig) := startup config false.
Definition reopen (config : CoreConfig) := startup config true.

(** ** Safe mode and the durable epoch *)

Definition ensure_not_safe_mode : Handler unit :=
  c ← get_core; throw_if (wc_safe_mode c) SafeModeActive.

Definition store_path (rel : Path) : Handler Path :=
  c ← get_core; mret (path_join (cfg_store_root (wc_config c)) rel).

Definition enter_safe_mode : Handler unit :=
  modify_core (set_safe_mode true);;
  c ← get_core;
  in_world (persist_safe_mode_marker (cfg_store_root (wc_config c))).

Definition latch_safe_mode_best_effort : Handler unit :=
  modify_core (set_safe_mode true);;
  c ← get_core;
  _ ← attempt (in_world (persist_safe_mode_marker (cfg_store_root (wc_config c))));
  mret tt.

(** [self.enter_safe_mode()?; return Err(RpcError::SafeModeActive);] *)
Definition refuse_into_safe_mode {A} : Handler A :=
  enter_safe_mode;; throw SafeModeActive.

Definition read_durable_epoch_strict : Handler Z :=
  path ← store_path EPOCH_HIGH_WATER_REL;
  r ← attempt (in_world (read_epoch_file path));
  match r with
  | Ok epoch => mret epoch
  | Err _ => refuse_into_safe_mode
  end.

Definition checked_epoch_successor (high_water : Z) : Handler Z :=
  match u64_checked_add high_water 1 with
  | Some successor => mret successor
  | None => refuse_into_safe_mode
  end.

Definition advance_epoch : Handler unit :=
  path ← store_path EPOCH_HIGH_WATER_REL;
  parent ← of_result (ok_or (path_parent path) SafeModeActive);
  residue ← in_world (ambiguous_epoch_temp_residue parent);
  if residue : bool then refuse_into_safe_mode else
  created ← attempt (in_world (create_dir_all parent));
  if negb (is_ok created) then refuse_into_safe_mode else
  current ← read_durable_epoch_strict;
  successor ← checked_epoch_successor current;
  let bytes := epoch_bytes successor in
  tmp ← in_world (unique_temp_path parent "epoch");
  written ← attempt (in_world (write_exclusive tmp bytes));
  if negb (is_ok written) then refuse_into_safe_mode else
  synced ← attempt (in_world (file_fsync tmp));
  match synced with
  | Err error => latch_safe_mode_best_effort;; throw (RDurability error)
  | Ok _ =>
      renamed ← attempt (in_world (durable_atomic_rename tmp path));
      if negb (is_ok renamed) then refuse_into_safe_mode else
      dir_synced ← attempt (in_world (dir_fsync parent));
      match dir_synced with
      | Err error => latch_safe_mode_best_effort;; throw (RDurability error)
      | Ok _ =>
          verified ← attempt (in_world (readback_verify path bytes));
          if negb (is_ok verified) then refuse_into_safe_mode else mret tt
      end
  end.

Definition next_sequence : Handler Z :=
  c ← get_core; of_result (ok_or (u64_checked_add (wc_log_seq c) 1) SafeModeActive).

(** [WatchdogCore::append_record] *)
Definition core_append_record (record : AuthorityRecord) : Handler unit :=
  path ← store_path DECISION_LOG_REL;
  appended ← attempt (in_world (append_record path record));
  match appended with
  | Err error => latch_safe_mode_best_effort;; throw (RDurability error)
  | Ok _ => modify_core (set_log_seq (ar_sequence record))
  end.

Definition bound_epoch : Handler Z :=
  c ← get_core; of_result (ok_or (bs_epoch <$> wc_durable_binding c) WrongBinding).

(** ** Requests *)

Definition BASE_MANDATORY_INVARIANTS : list string := ["route_present"].

Definition validate_manifest (mandatory_invariants additive_manifest_checks : list string) :
    result RpcError unit :=
  fail_if (bool_decide (mandatory_invariants = [])) WeakenedMandatoryInvariant;;
  fail_if (existsb (fun required => negb (bool_decide (required ∈ mandatory_invariants)))
                   BASE_MANDATORY_INVARIANTS) WeakenedMandatoryInvariant;;
  fail_if (existsb (fun additive => negb (bool_decide (additive ∈ mandatory_invariants)))
                   additive_manifest_checks) WeakenedMandatoryInvariant.

Definition require_armed_tx (tx_id : string) : Handler unit :=
  c ← get_core;
  armed ← of_result (ok_or (wc_armed c) UnknownTransaction);
  throw_if (bool_decide (as_tx_id armed <> tx_id)) UnknownTransaction.

(** [let observed = ..; if !observed.is_empty() && observed != base] *)
Definition check_base_unmoved (base : string) : Handler unit :=
  observed ← in_world (dep_call CBase base_observed);
  throw_if (negb (is_empty observed) && bool_decide (observed <> base)) MovedBase.

Definition handle_arm (request_id host_id tx_id : string) (epoch : Z) (base : string)
    (deadline : SystemTime) (mandatory_invariants additive_manifest_checks : list string) :
    Handler LocalResponse :=
  c ← get_core;
  throw_if (bool_decide (host_id <> cfg_host_id (wc_config c))) WrongBinding;;
  throw_if (is_some (wc_armed c)) ConflictingRequest;;
  check_base_unmoved base;;
  of_result (validate_manifest mandatory_invariants additive_manifest_checks);;
  durable_epoch ← read_durable_epoch_strict;
  expected_successor ← checked_epoch_successor durable_epoch;
  bound ← bound_epoch;
  throw_if (negb (epoch =? bound) || negb (epoch =? expected_successor)) WrongEpoch;;
  now ← in_world (dep_call CClock clock_now);
  throw_if (deadline <=? now) ExpiredDeadline;;
  c ← get_core;
  binding ← of_result (ok_or (wc_durable_binding c) WrongBinding);
  let lease_id := bs_lease_id binding in
  let worker_group_tag := bs_worker_group_tag binding in
  advance_epoch;;
  match lease_expiry_at now deadline with
  | Err _ => refuse_into_safe_mode
  | Ok lease_expires_at =>
      sequence ← next_sequence;
      match armed_record sequence epoch host_id tx_id base lease_id worker_group_tag
                         now deadline with
      | Err _ => refuse_into_safe_mode
      | Ok record =>
          core_append_record record;;
          modify_core (set_armed (Some
            {| as_host_id := host_id; as_tx_id := tx_id; as_epoch := epoch;
               as_base := base; as_lease_id := lease_id;
               as_worker_group_tag := worker_group_tag; as_armed_at := now;
               as_deadline := deadline; as_lease_expires_at := lease_expires_at;
               as_chosen := None |}));;
          modify_core (set_last_clock now);;
          mret (ArmedResp request_id)
      end
  end.

Definition handle_lease_renewal (tx_id : string) (epoch : Z) (lease_id : string)
    (worker_group_tag : WorkerGroupTag) : Handler unit :=
  c ← get_core;
  armed ← of_result (ok_or (wc_armed c) UnknownTransaction);
  throw_if (bool_decide (as_tx_id armed <> tx_id)) UnknownTransaction;;
  throw_if (negb (as_epoch armed =? epoch)) StaleEpoch;;
  throw_if (bool_decide (as_lease_id armed <> lease_id) ||
            bool_decide (as_worker_group_tag armed <> worker_group_tag)) WrongBinding;;
  throw_if (is_some (as_chosen armed)) ConflictingRequest;;
  now ← in_world (dep_call CClock clock_now);
  throw_if (now <? wc_last_clock c) ClockRegression;;
  throw_if ((as_lease_expires_at armed <=? now) || (as_deadline armed <? now))
           ExpiredDeadline;;
  match lease_expiry_at now (as_deadline armed) with
  | Err _ => refuse_into_safe_mode
  | Ok new_expiry =>
      if new_expiry <=? as_lease_expires_at armed then
        modify_core (set_last_clock now)
      else
        sequence ← next_sequence;
        match lease_renewed_record sequence epoch (as_host_id armed) tx_id lease_id
                                   worker_group_tag now (as_deadline armed) with
        | Err _ => refuse_into_safe_mode
        | Ok record =>
            core_append_record record;;
            modify_core (fun c =>
              set_armed (set_lease_expires_at new_expiry <$> wc_armed c) c);;
            modify_core (set_last_clock now)
        end
  end.

(** *** Fencing the worker's process group *)

Definition dep_signal (kind : SignalKind) : M WdWorld RpcError unit :=
  r ← dep_call (CSignal kind) (fun n => pg_signal n kind);
  of_result (map_err (fun _ => FenceIncomplete) r).

Definition dep_wait (timeout : Duration) : M WdWorld RpcError unit :=
  r ← dep_call (CWait timeout) (fun n => pg_bounded_wait n timeout);
  of_result (map_err (fun _ => FenceIncomplete) r).

Definition dep_alive (stage : FenceStage) : M WdWorld RpcError bool :=
  dep_call (CAlive stage) (fun n => pg_group_alive n stage).

Definition do_run_fence : M WdWorld RpcError unit :=
  dep_signal Term;;
  dep_wait (Duration_from_secs 1);;
  alive_after_term ← dep_alive AfterTerm;
  (if alive_after_term : bool then
     dep_signal Kill;;
     dep_wait (Duration_from_secs 1);;
     alive_after_kill ← dep_alive AfterKill;
     throw_if alive_after_kill FenceIncomplete
   else mret tt);;
  r ← dep_call CJobs job_candidate_count;
  jobs ← of_result (map_err (fun _ => FenceIncomplete) r);
  throw_if (negb (jobs =? 0)) FenceIncomplete.

Definition run_fence : Handler unit :=
  r ← attempt (in_world do_run_fence);
  match r with
  | Err error => _ ← attempt enter_safe_mode; throw error
  | Ok _ => mret tt
  end.

(** [log_path.exists() && DecisionLogReader::open(&log_path).is_err()] *)
Definition log_unreadable : Handler bool :=
  path ← store_path DECISION_LOG_REL;
  there ← in_world (path_exists path);
  if there : bool then
    r ← attempt (in_world (dl_open path)); mret (negb (is_ok r))
  else mret false.

Definition handle_decision (request_id tx_id : string) (epoch : Z) :
    Handler LocalResponse :=
  c ← get_core;
  armed ← of_result (ok_or (wc_armed c) UnknownTransaction);
  throw_if (bool_decide (as_tx_id armed <> tx_id)) UnknownTransaction;;
  throw_if (negb (as_epoch armed =? epoch)) StaleEpoch;;
  throw_if (is_some (as_chosen armed)) ConflictingRequest;;
  unreadable ← log_unreadable;
  if unreadable : bool then refuse_into_safe_mode else
  now ← in_world (dep_call CClock clock_now);
  throw_if (now <? wc_last_clock c) ClockRegression;;
  check_base_unmoved (as_base armed);;
  (if as_lease_expires_at armed <=? now then run_fence else mret tt);;
  throw_if (as_deadline armed <? now) ExpiredDeadline;;
  r ← in_world (dep_call CInvariants inv_evaluate);
  outcome ← of_result (map_err (fun _ => SafeModeActive) r);
  let kind := match outcome with InvPass => BeginCommit | InvFail => BeginRevert end in
  sequence ← next_sequence;
  core_append_record
    (decision_record sequence epoch kind (as_host_id armed) tx_id (as_lease_id armed)
                     (as_worker_group_tag armed));;
  modify_core (fun c => set_armed (set_chosen (Some kind) <$> wc_armed c) c);;
  mret (AuthorityChosen request_id kind).

(** [SystemTime::UNIX_EPOCH.checked_add(Duration::new(secs, nanos))] *)
Definition deadline_of (secs nanos : Z) : Handler SystemTime :=
  match Duration_new secs nanos with
  | None => panic
  | Some d => of_result (ok_or (SystemTime_checked_add UNIX_EPOCH d) ExpiredDeadline)
  end.

Definition dispatch_request (req : LocalRequest) : Handler LocalResponse :=
  match req with
  | Arm request_id host_id tx_id epoch base secs nanos mandatory additive =>
      deadline ← deadline_of secs nanos;
      handle_arm request_id host_id tx_id epoch base deadline mandatory additive
  | ReportHealth request_id _ tx_id _ =>
      require_armed_tx tx_id;; mret (HealthAck request_id)
  | RequestLeaseRenewal request_id _ tx_id epoch lease_id tag _ =>
      handle_lease_renewal tx_id epoch lease_id tag;; mret (LeaseRenewedResp request_id)
  | Heartbeat request_id _ tx_id epoch lease_id tag _ =>
      handle_lease_renewal tx_id epoch lease_id tag;; mret (HeartbeatAck request_id)
  | RequestDecision request_id _ tx_id epoch => handle_decision request_id tx_id epoch
  end.

(** [handle_request]: the response, and the session it leaves. *)
Definition handle_request (verified : AuthenticatedRequest) (session : SessionState) :
    Handler (LocalResponse * SessionState) :=
  ensure_not_safe_mode;;
  resp ← dispatch_request (au_request verified);
  mret (resp, advance_counter (au_counter verified) session).

(** ** Binding a session *)

Definition normalize_session_bind (bind : SessionBind) (durable : option BoundSession) :
    Handler SessionBind :=
  if is_some durable then mret bind
  else
    high_water ← read_durable_epoch_strict;
    issued ← checked_epoch_successor high_water;
    mret (mkBind (sb_host_id bind) (sb_tx_id bind) issued (sb_lease_id bind)
                 (sb_worker_group_tag bind) (sb_client_nonce bind)).

Definition store_binding (binding : option BoundSession) : Handler unit :=
  match binding with
  | Some b => modify_core (set_durable_binding (Some b))
  | None => mret tt
  end.

(** [SessionState::bind] *)
Definition session_bind (bind : SessionBind) :
    Handler (SessionState * SessionEstablished) :=
  c ← get_core;
  normalized ← normalize_session_bind bind (wc_durable_binding c);
  c' ← get_core;
  '(state, established, binding) ← in_world
    (try_bind (cfg_broker_uid (wc_config c')) (cfg_broker_gid (wc_config c'))
              (wc_safe_mode c') (wc_durable_binding c) normalized);
  store_binding binding;;
  mret (state, established).

(** [SessionState::bind_with_stream_cred] *)
Definition bind_with_stream_cred (cred : PeerCred) (bind : SessionBind) :
    Handler (SessionState * SessionEstablished) :=
  c ← get_core;
  normalized ← normalize_session_bind bind (wc_durable_binding c);
  c' ← get_core;
  '(state, established, binding) ← in_world
    (try_bind_with_cred (cfg_broker_uid (wc_config c')) (cfg_broker_gid (wc_config c'))
              (wc_safe_mode c') (wc_durable_binding c) cred normalized);
  store_binding binding;;
  mret (state, established).
End Core.

(** ** rpc/server.rs: one connection *)

(** An accepted stream: what the peer sends, what was sent to it, whether the
    next writes succeed, and whether accepting it and setting its timeouts
    did. *)
Record Conn := mkConn {
  cn_in : Stream;
  cn_out : list byte;
  cn_write_ok : list bool;
  cn_ready : bool;
}.

Record ServeState := mkServe {
  sv_core : CoreW;
  sv_conn : Conn;
}.

Definition stream_write_all (bs : list byte) : M Conn RpcError unit := fun c =>
  match cn_write_ok c with
  | false :: oks => (Throw MalformedFrame, mkConn (cn_in c) (cn_out c) oks (cn_ready c))
  | oks => (Ret tt, mkConn (cn_in c) (cn_out c ++ bs) (tail oks) (cn_ready c))
  end.

Definition in_core {E A} : M CoreW E A -> M ServeState E A :=
  zoom sv_core (fun c s => mkServe c (sv_conn s)).
Definition in_conn {E A} : M Conn E A -> M ServeState E A :=
  zoom sv_conn (fun c s => mkServe (sv_core s) c).
Definition in_stream {E A} : M Stream E A -> M Conn E A :=
  zoom cn_in (fun i c => mkConn i (cn_out c) (cn_write_ok c) (cn_ready c)).

(** Run on a local variable: its final value is part of the result. *)
Definition with_local {S T E A} (m : M T E A) (t : T) : M S E (A * T) := fun s =>
  match m t with
  | (Ret a, t) => (Ret (a, t), s)
  | (Throw e, _) => (Throw e, s)
  | (Panic, _) => (Panic, s)
  end.

Section Server.
Context `{JsonNumber} `{!RecordCodec} `{!IoEnv} `{!Dependencies} `{!WireCodec}.

Definition serve_one : M ServeState RpcError unit :=
  ready ← gets (fun s => cn_ready (sv_conn s));
  throw_if (negb ready) MalformedFrame;;
  bind_frame ← in_conn (in_stream read_frame);
  bind ← of_result (decode_session_bind bind_frame);
  peer ← in_core (in_world (dep_call CPeer peer_credentials));
  cred ← of_result (map_err (fun _ => WrongPeer) peer);
  '(session, established) ← in_core (bind_with_stream_cred cred bind);
  est_frame ← of_result (encode_session_established established);
  in_conn (stream_write_all est_frame);;
  req_frame ← in_conn (in_stream read_frame);
  '(verified, session) ← with_local (decode_request req_frame) session;
  let counter := au_counter verified in
  let req := au_request verified in
  '(resp, session) ← in_core (handle_request verified session);
  resp_frame ← of_result (encode_response resp req established counter);
  in_conn (stream_write_all resp_frame).
End Server.
