(* ===== verification/WdStoreFacts.v ===== *)
(** * What the store operations of the watchdog do to the file system

    Every operation touches only files of its own directory; the frame of an
    appended record is at the end of the log, or a prefix of it is when the
    append failed. *)

From S2P Require Import Prelude RustStd Json WdTypes WdLog WdProtocol WdCore.

#[local] Opaque record_frame WdLog.crc32.

(** ** Footprints *)

Definition only_touches (P : Path -> Prop) (w w' : WdWorld) : Prop :=
  forall p, ~ P p -> fs_files (w_fs w') !! p = fs_files (w_fs w) !! p.

#[export] Instance only_touches_refl P : Reflexive (only_touches P).
Proof. by intros w p. Qed.
#[export] Instance only_touches_trans P : Transitive (only_touches P).
Proof. intros w1 w2 w3 H1 H2 p Hp. by rewrite H2, H1. Qed.

Lemma only_touches_mono (P Q : Path -> Prop) w w' :
  (forall p, P p -> Q p) -> only_touches P w w' -> only_touches Q w w'.
Proof. intros HPQ H p Hp. apply H. auto. Qed.

(** [m] only touches files in [P], whatever it answers, and does not panic. *)
Definition touches {E A} (P : Path -> Prop) (m : M WdWorld E A) : Prop :=
  forall w, only_touches P w (snd (m w)) /\ fst (m w) <> Panic.

Section Touches.
Context (P : Path -> Prop).

Lemma touches_ret {E A} (a : A) : touches P (mret a : M WdWorld E A).
Proof. by intros w. Qed.
Lemma touches_throw {E A} (e : E) : touches P (throw e : M WdWorld E A).
Proof. by intros w. Qed.
Lemma touches_of_result {E A} (r : result E A) : touches P (of_result r).
Proof. intros w. by destruct r. Qed.
Lemma touches_throw_if {E} b (e : E) : touches P (throw_if b e).
Proof. intros w. by destruct b. Qed.
Lemma touches_gets {E A} (f : WdWorld -> A) : touches P (gets f : M WdWorld E A).
Proof. by intros w. Qed.

Lemma touches_bind {E A B} (m : M WdWorld E A) (f : A -> M WdWorld E B) :
  touches P m -> (forall a, touches P (f a)) -> touches P (m ≫= f).
Proof.
  intros Hm Hf w. unfold mbind, M_bind. specialize (Hm w) as [Hm Hp].
  destruct (m w) as [[a|e|] w']; cbn in *; [|done|done].
  split; [etrans; [exact Hm|]|]; apply Hf.
Qed.

Lemma touches_attempt {E F A} (m : M WdWorld E A) :
  touches P m -> touches P (attempt m : M WdWorld F _).
Proof. intros Hm w. unfold attempt. specialize (Hm w). by destruct (m w) as [[] w'], Hm. Qed.

Lemma touches_mapping_err {E F A} (f : E -> F) (m : M WdWorld E A) :
  touches P m -> touches P (mapping_err f m).
Proof. intros Hm w. unfold mapping_err. specialize (Hm w). by destruct (m w) as [[] w'], Hm. Qed.

Lemma touches_dep_call {E A} log (ans : nat -> A) :
  touches P (dep_call log ans : M WdWorld E A).
Proof. by intros w. Qed.

Context `{!IoEnv}.

Lemma touches_path_exists {E} p : touches P (path_exists p : M WdWorld E bool).
Proof. intros w. unfold path_exists. by destruct (io_fault _). Qed.

(** A system call that only changes files in [P]. *)
Lemma touches_io_call {A} (f : FS -> option (A * FS)) :
  (forall fs a fs' q, f fs = Some (a, fs') -> ~ P q -> fs_files fs' !! q = fs_files fs !! q) ->
  touches P (io_call f : M WdWorld IoError A).
Proof.
  intros Hf w. unfold io_call. destruct (io_fault _); [|done|done].
  destruct (f (w_fs w)) as [[a fs]|] eqn:E; [|done]. split; [|done].
  intros q Hq. cbn. eauto.
Qed.

Lemma touches_fs_read p : touches P (fs_read p : M WdWorld IoError _).
Proof.
  apply touches_io_call. intros fs a fs' q Hr _.
  destruct (fs_files fs !! p); cbn in Hr; [|done]. by injection Hr as <- <-.
Qed.

Lemma touches_create_dir_all p : touches P (create_dir_all p : M WdWorld IoError _).
Proof. apply touches_io_call. intros fs a fs' q Hr _. case_match; [done|]. by simplify_eq. Qed.

Lemma touches_read_dir p : touches P (read_dir p : M WdWorld IoError _).
Proof. apply touches_io_call. intros fs a fs' q Hr _. case_match; [|done]. by simplify_eq. Qed.

Lemma touches_sync_all p : touches P (sync_all p : M WdWorld IoError _).
Proof. apply touches_io_call. intros fs a fs' q Hr _. by simplify_eq. Qed.

Lemma put_file_other p q bs fs : P p -> ~ P q -> fs_files (put_file p bs fs) !! q = fs_files fs !! q.
Proof. intros Hp Hq. cbn. apply lookup_insert_ne. by intros ->. Qed.

Lemma touches_open_create_new p : P p -> touches P (open_create_new p : M WdWorld IoError _).
Proof.
  intros Hp. apply touches_io_call. intros fs a fs' q Hr Hq. case_match; [|done].
  simplify_eq. by apply put_file_other.
Qed.

Lemma touches_open_append p : P p -> touches P (open_append p : M WdWorld IoError _).
Proof.
  intros Hp. apply touches_io_call. intros fs a fs' q Hr Hq. case_match; [|done].
  simplify_eq. by apply put_file_other.
Qed.

Lemma touches_open_truncate p : P p -> touches P (open_truncate p : M WdWorld IoError _).
Proof.
  intros Hp. apply touches_io_call. intros fs a fs' q Hr Hq. case_match; [|done].
  simplify_eq. by apply put_file_other.
Qed.

Lemma touches_write_all p bs : P p -> touches P (write_all p bs : M WdWorld IoError _).
Proof.
  intros Hp w. unfold write_all. split; [|by destruct (io_fault _)].
  intros q Hq. destruct (io_fault _); cbn [snd w_set_fs w_fs];
    [by apply put_file_other|done|by apply put_file_other].
Qed.

Lemma rename_file_other from to fs fs' q :
  P from -> P to -> ~ P q -> rename_file from to fs = Some fs' ->
  fs_files fs' !! q = fs_files fs !! q.
Proof.
  intros Hf Ht Hq Hr. unfold rename_file in Hr.
  destruct (fs_files fs !! from); cbn in Hr; [|done].
  case_match; [|done]. injection Hr as <-. cbn.
  rewrite lookup_insert_ne by (by intros ->). apply lookup_delete_ne. by intros ->.
Qed.

Lemma touches_fs_rename from to :
  P from -> P to -> touches P (fs_rename from to : M WdWorld IoError _).
Proof.
  intros Hf Ht. apply touches_io_call. intros fs a fs' q Hr Hq.
  destruct (rename_file from to fs) as [fs1|] eqn:E; cbn in Hr; [|done].
  injection Hr as <- <-. by eapply rename_file_other in E.
Qed.

Context `{!Dependencies}.

Lemma touches_atomic_rename from to : P from -> P to -> touches P (atomic_rename from to).
Proof.
  intros Hf Ht w. split; [|unfold atomic_rename, of_result; by destruct (dur_atomic_rename _ _ _)].
  intros q Hq. unfold atomic_rename.
  set (w1 := mkWorld _ _ _). assert (Hw : fs_files (w_fs w1) !! q = fs_files (w_fs w) !! q).
  { cbn. destruct (dur_rename_moves _); [|done].
    destruct (rename_file from to (w_fs w)) eqn:E; [|done]. by eapply rename_file_other in E. }
  unfold of_result. by destruct (dur_atomic_rename _ _ _).
Qed.
End Touches.

Create HintDb touches.
#[export] Hint Resolve touches_ret touches_throw touches_of_result touches_throw_if
  touches_gets touches_attempt touches_mapping_err touches_dep_call touches_path_exists
  touches_fs_read touches_create_dir_all touches_read_dir touches_sync_all
  touches_open_create_new touches_open_append touches_open_truncate touches_write_all
  touches_fs_rename touches_atomic_rename : touches.

#[export] Hint Extern 1 (touches _ (if ?b then _ else _)) => destruct b : touches.
#[export] Hint Extern 2 (touches _ (_ ≫= _)) => apply touches_bind; [|intros ?] : touches.

(** Walk a computation, leaf by leaf. *)
Ltac touches_tac :=
  repeat (apply touches_bind; [solve [eauto 20 with touches]|intros ?]); eauto 20 with touches.

(** ** The operations of the store *)

(** The files of a directory [dir] under [root]. *)
Definition in_dir (root : Path) (dir : string) (p : Path) : Prop :=
  exists x, p = path_join root [dir; x].

Section StoreOps.
Context `{!IoEnv} `{!Dependencies}.

Lemma touches_file_fsync P p : touches P (file_fsync p).
Proof. unfold file_fsync. touches_tac. Qed.
Lemma touches_dir_fsync P p : touches P (dir_fsync p).
Proof. unfold dir_fsync. touches_tac. Qed.
Lemma touches_readback P p bs : touches P (readback_verify p bs).
Proof. unfold readback_verify. touches_tac. Qed.

Lemma touches_durable_atomic_rename (P : Path -> Prop) from to :
  P from -> P to -> touches P (durable_atomic_rename from to).
Proof.
  intros Hf Ht. unfold durable_atomic_rename. touches_tac.
Qed.

Lemma touches_residue {E} P parent prefix :
  touches P (ambiguous_temp_residue parent prefix : M WdWorld E bool).
Proof. unfold ambiguous_temp_residue. touches_tac. Qed.

Lemma touches_write_exclusive (P : Path -> Prop) p bs : P p -> touches P (write_exclusive p bs).
Proof. intros Hp. unfold write_exclusive. touches_tac. Qed.

Lemma touches_unique_temp_path {E} P parent label :
  touches P (unique_temp_path parent label : M WdWorld E Path).
Proof. by intros w. Qed.

Lemma unique_temp_path_eq {E} parent label w :
  exists x w', (unique_temp_path parent label : M WdWorld E Path) w = (Ret (parent ++ [x]), w').
Proof. by do 2 eexists. Qed.

(** Binding on a fresh temporary name. *)
Lemma touches_bind_temp {E B} P parent label (f : Path -> M WdWorld E B) :
  (forall x, touches P (f (path_join parent [x]))) ->
  touches P (tmp ← unique_temp_path parent label; f tmp).
Proof. intros Hf w. unfold mbind, M_bind, unique_temp_path. apply (Hf _ (mkWorld _ _ _)). Qed.
End StoreOps.
#[export] Hint Resolve touches_file_fsync touches_dir_fsync touches_readback
  touches_durable_atomic_rename touches_residue touches_write_exclusive : touches.

Lemma parent_of root dir x : path_parent (path_join root [dir; x]) = Some (path_join root [dir]).
Proof.
  unfold path_join. change [dir; x] with ([dir] ++ [x]). rewrite app_assoc.
  apply path_parent_snoc.
Qed.

Lemma in_dir_join root dir x : in_dir root dir (path_join (path_join root [dir]) [x]).
Proof. exists x. unfold path_join. by rewrite <-app_assoc. Qed.

Lemma in_dir_leaf root dir x : in_dir root dir (path_join root [dir; x]).
Proof. by exists x. Qed.
#[export] Hint Resolve in_dir_join in_dir_leaf : touches.

Lemma in_dir_disjoint root d d' p : d <> d' -> in_dir root d p -> ~ in_dir root d' p.
Proof.
  intros Hd [x ->] [y Hy]. unfold path_join in Hy. apply app_inv_head in Hy. congruence.
Qed.

Section Marker.
Context `{!IoEnv} `{!Dependencies}.

Lemma touches_persist root : touches (in_dir root "state") (persist_safe_mode_marker root).
Proof.
  unfold persist_safe_mode_marker, SAFE_MODE_REL. rewrite parent_of. cbn [ok_or].
  rewrite bind_of_Ok. touches_tac. apply touches_bind_temp. intros x. touches_tac.
Qed.

Lemma touches_read_epoch_file P p : touches P (read_epoch_file p).
Proof. unfold read_epoch_file. touches_tac. Qed.

Lemma touches_dl_open `{!RecordCodec} P p : touches P (dl_open p).
Proof.
  unfold dl_open. touches_tac.
Qed.

Lemma touches_append_record `{!RecordCodec} p r : touches (eq p) (append_record p r).
Proof. unfold append_record. touches_tac. Qed.

Lemma touches_do_run_fence P : touches P do_run_fence.
Proof.
  unfold do_run_fence, dep_signal, dep_wait, dep_alive. touches_tac.
Qed.

Lemma touches_advance_tail root tmp bs :
  in_dir root "epoch" tmp ->
  touches (in_dir root "epoch") (write_exclusive tmp bs) /\
  touches (in_dir root "epoch")
    (durable_atomic_rename tmp (path_join root EPOCH_HIGH_WATER_REL)).
Proof. unfold EPOCH_HIGH_WATER_REL. split; eauto with touches. Qed.
End Marker.
#[export] Hint Resolve touches_persist touches_read_epoch_file touches_dl_open
  touches_append_record touches_do_run_fence : touches.

(** ** What the operations leave in their files *)

Lemma wp_touches {E A} P (m : M WdWorld E A) (Q : outcome E A -> WdWorld -> Prop) w :
  touches P m -> (forall o w', only_touches P w w' -> o <> Panic -> Q o w') -> wp m Q w.
Proof. intros Hm HQ. destruct (Hm w) as [? ?]. by apply HQ. Qed.

Lemma wp_dep_call {E A} log (ans : nat -> A) (Q : outcome E A -> WdWorld -> Prop) w :
  wp (dep_call log ans) Q w <->
  Q (Ret (ans (w_tick w)))
    (mkWorld (w_fs w) (S (w_tick w)) (w_calls w ++ [log (ans (w_tick w))])).
Proof. done. Qed.

Section Contents.
Context `{!IoEnv} `{!Dependencies}.

Lemma wp_fs_read p (Q : outcome IoError (list byte) -> WdWorld -> Prop) w :
  (forall bs, fs_files (w_fs w) !! p = Some bs -> Q (Ret bs) (w_set_fs (w_fs w) w)) ->
  Q (Throw "io") (w_set_fs (w_fs w) w) ->
  wp (fs_read p) Q w.
Proof.
  intros H1 H2. apply wp_io_call; [|done]. intros a fs Hr.
  destruct (fs_files (w_fs w) !! p) eqn:E; cbn in Hr; [|done]. injection Hr as <- <-. auto.
Qed.

(** The epoch file holds [e]. *)
Definition epoch_file (root : Path) (e : Z) (w : WdWorld) : Prop :=
  exists bs, fs_files (w_fs w) !! path_join root EPOCH_HIGH_WATER_REL = Some bs /\
             length bs = 8%nat /\ be_value bs = e.

Lemma epoch_file_range root e w : epoch_file root e w -> is_u64 e.
Proof.
  intros (bs & _ & Hl & <-). pose proof (be_value_range bs) as Hr. rewrite Hl in Hr.
  change (256 ^ Z.of_nat 8) with (2 ^ 64) in Hr. unfold is_u64, u64_max. lia.
Qed.

Lemma epoch_file_fun root e e' w : epoch_file root e w -> epoch_file root e' w -> e = e'.
Proof. intros (bs & H1 & _ & <-) (bs' & H2 & _ & <-). congruence. Qed.

Lemma wp_read_epoch_file root (Q : outcome WatchdogError Z -> WdWorld -> Prop) w :
  (forall e, epoch_file root e w -> Q (Ret e) (w_set_fs (w_fs w) w)) ->
  Q (Throw WEpochLogMismatch) (w_set_fs (w_fs w) w) ->
  wp (read_epoch_file (path_join root EPOCH_HIGH_WATER_REL)) Q w.
Proof.
  intros H1 H2. unfold read_epoch_file. wp_simpl. apply wp_fs_read; [|done].
  intros bs Hbs. wp_simpl. destruct (Nat.eqb (length bs) 8) eqn:Hl; cbn [negb]; [|done].
  apply H1. exists bs. by apply Nat.eqb_eq in Hl.
Qed.

Definition file_of (p : Path) (w : WdWorld) : list byte := default [] (fs_files (w_fs w) !! p).

Context `{!RecordCodec}.

(** What [append_record] answers, and what it leaves. *)
Definition append_post (p : Path) (r : AuthorityRecord) (w : WdWorld)
    (o : outcome DurabilityError unit) (w' : WdWorld) : Prop :=
  match o with
  | Ret _ =>
      exists payload, record_to_vec r = Some payload /\ validate_schema r = Ok tt /\
        Z.of_nat (length payload) < 2 ^ 32 /\
        file_of p w' = file_of p w ++ record_frame payload /\
        w_calls w' = w_calls w ++ [CFileFsync p (Ok tt); CDirFsync (removelast p) (Ok tt)]
  | Throw _ =>
      file_of p w' = file_of p w \/
      exists payload k, record_to_vec r = Some payload /\ validate_schema r = Ok tt /\
        Z.of_nat (length payload) < 2 ^ 32 /\
        file_of p w' = file_of p w ++ take k (record_frame payload)
  | Panic => False
  end.

Lemma file_of_put p bs fs n l : file_of p (mkWorld (put_file p bs fs) n l) = bs.
Proof. unfold file_of. cbn. by rewrite lookup_insert_eq. Qed.

Lemma wp_append_record p r w : wp (append_record p r) (append_post p r w) w.
Proof.
  unfold append_record. wp_simpl.
  destruct (validate_schema r) as [[]|] eqn:Hv; cbn [map_err]; [wp_simpl|by left].
  destruct (record_to_vec r) as [payload|] eqn:Hp; cbn [ok_or]; [wp_simpl|by left].
  destruct (u32_try_from (Z.of_nat (length payload))) eqn:Hlen; cbn [ok_or]; [wp_simpl|by left].
  assert (Hl : Z.of_nat (length payload) < 2 ^ 32).
  { unfold u32_try_from in Hlen. destruct (_ && _)%bool eqn:Hx; [|done]. bool_to_prop. by unfold u32_max in *; lia. }
  destruct (path_parent p) as [d|] eqn:Hd; cbn [ok_or]; [wp_simpl|by left].
  assert (Hrl : removelast p = d) by (destruct p; [done|by injection Hd]).
  apply wp_io_call; [|by left]. intros a fs1 Hmk. wp_simpl.
  assert (Hf1 : file_of p (w_set_fs fs1 w) = file_of p w) by (case_match; by simplify_eq).
  apply wp_io_call; [|by left]. intros [] fs2 Hop. wp_simpl.
  assert (Hf2 : file_of p (w_set_fs fs2 (w_set_fs fs1 w)) = file_of p w).
  { case_match; [|done]. injection Hop as <-. rewrite <-Hf1. apply file_of_put. }
  apply wp_write_all.
  - intros k. right. exists payload, k. split_and!; [done..|]. unfold w_set_fs.
    rewrite file_of_put, <-Hf2. done.
  - left. exact Hf2.
  - unfold file_fsync, dir_fsync. wp_simpl. apply wp_dep_call. wp_simpl.
    assert (Hfull : forall n l, file_of p (mkWorld (put_file p
      (file_of p (w_set_fs fs2 (w_set_fs fs1 w)) ++ record_frame payload) fs2) n l) =
      file_of p w ++ record_frame payload).
    { intros n l. by rewrite file_of_put, Hf2. }
    destruct (dur_file_fsync _ p) as [[]|] eqn:Hs.
    2: { right. exists payload, (length (record_frame payload)). split_and!; [done..|].
         rewrite firstn_all. apply Hfull. }
    wp_simpl. apply wp_dep_call. wp_simpl.
    destruct (dur_dir_fsync _ d) as [[]|] eqn:Hs'.
    2: { right. exists payload, (length (record_frame payload)). split_and!; [done..|].
         rewrite firstn_all. apply Hfull. }
    exists payload. split_and!; [done..|apply Hfull|].
    cbn [w_calls w_set_fs]. by rewrite Hrl, <-app_assoc.
Qed.
End Contents.
