(* ===== verification/WdCoreFacts.v ===== *)
(** * Facts about the decision authority

    The invariant [wd_inv]: unless safe mode is latched, the log on disk can
    be read, and what it reconstructs is what the core holds in memory.  Every
    handler preserves it on every path but one: the writer does not know the
    reader's limit of 64 KiB, and a handler that writes a longer record leaves
    a log nobody can read again ([bricked]). *)

From stdpp Require Import sorting.
From S2P Require Import Prelude RustStd Json WdTypes WdLog WdLogFacts WdAuthority.
From S2P Require Import WdProtocol WdCore WdStoreFacts.

#[local] Opaque record_frame WdLog.crc32 read_records.

Definition store_root (s : CoreW) : Path := cfg_store_root (wc_config (cw_core s)).
Definition log_path (root : Path) : Path := path_join root DECISION_LOG_REL.
Definition log_of (s : CoreW) : list byte := file_of (log_path (store_root s)) (cw_world s).

Lemma only_touches_none P w w' : only_touches (fun _ => False) w w' -> only_touches P w w'.
Proof. by apply only_touches_mono. Qed.

Lemma only_touches_same_fs P w w' : w_fs w' = w_fs w -> only_touches P w w'.
Proof. by intros Hw p _; rewrite Hw. Qed.

(** Safe mode was latched: of the core only that flag changed, to [true], and
    on disk only files of the marker's directory. *)
Record latched (s s' : CoreW) : Prop := {
  la_core : cw_core s' = set_safe_mode true (cw_core s);
  la_files : only_touches (in_dir (store_root s) "state") (cw_world s) (cw_world s');
}.

Lemma latched_after s s1 s' :
  cw_core s1 = cw_core s -> only_touches (fun _ => False) (cw_world s) (cw_world s1) ->
  latched s1 s' -> latched s s'.
Proof.
  intros Hc Hw [Hl Hf]. split; [by rewrite Hl, Hc|].
  assert (Hr : store_root s1 = store_root s) by (unfold store_root; by rewrite Hc).
  rewrite Hr in Hf. etrans; [|exact Hf]. by eapply only_touches_mono; [|exact Hw].
Qed.

(** ** The building blocks of the handlers *)

Section Blocks.
Context `{!IoEnv} `{!Dependencies}.
Implicit Types (s : CoreW).

Lemma wp_in_world {E A} (m : M WdWorld E A) (Q : outcome E A -> CoreW -> Prop) s :
  wp (in_world m) Q s <-> wp m (fun o w => Q o (mkCoreW (cw_core s) w)) (cw_world s).
Proof. unfold in_world. apply wp_zoom. Qed.

Lemma wp_get_core {E} (Q : outcome E WatchdogCore -> CoreW -> Prop) s :
  wp get_core Q s <-> Q (Ret (cw_core s)) s.
Proof. done. Qed.

Lemma wp_modify_core {E} f (Q : outcome E unit -> CoreW -> Prop) s :
  wp (modify_core f) Q s <-> Q (Ret tt) (mkCoreW (f (cw_core s)) (cw_world s)).
Proof. done. Qed.

Lemma wp_store_path rel (Q : outcome RpcError Path -> CoreW -> Prop) s :
  wp (store_path rel) Q s <-> Q (Ret (path_join (store_root s) rel)) s.
Proof. done. Qed.

Lemma wp_enter_safe_mode (Q : outcome RpcError unit -> CoreW -> Prop) s :
  (forall o s', o <> Panic -> latched s s' -> Q o s') -> wp enter_safe_mode Q s.
Proof.
  intros HQ. unfold enter_safe_mode. rewrite !wp_bind, wp_modify_core, wp_bind, wp_get_core.
  rewrite wp_in_world. eapply wp_touches; [apply touches_persist|].
  intros o w' Hw Ho. apply HQ; [done|]. by split.
Qed.

Lemma wp_refuse {A} (Q : outcome RpcError A -> CoreW -> Prop) s :
  (forall e s', latched s s' -> Q (Throw e) s') -> wp refuse_into_safe_mode Q s.
Proof.
  intros HQ. unfold refuse_into_safe_mode. rewrite wp_bind. apply wp_enter_safe_mode.
  intros [[]|e|] s' Ho Hs; [|by apply HQ|done]. rewrite wp_throw. by apply HQ.
Qed.

Lemma wp_latch (Q : outcome RpcError unit -> CoreW -> Prop) s :
  (forall s', latched s s' -> Q (Ret tt) s') -> wp latch_safe_mode_best_effort Q s.
Proof.
  intros HQ. unfold latch_safe_mode_best_effort.
  rewrite !wp_bind, wp_modify_core, wp_bind, wp_get_core, wp_bind, wp_attempt, wp_in_world.
  eapply wp_touches; [apply touches_persist|].
  intros [[]|e|] w' Hw Ho; [..|done]; rewrite wp_ret; apply HQ; by split.
Qed.

Lemma wp_read_durable_epoch (Q : outcome RpcError Z -> CoreW -> Prop) s :
  (forall e, epoch_file (store_root s) e (cw_world s) ->
     Q (Ret e) (mkCoreW (cw_core s) (w_set_fs (w_fs (cw_world s)) (cw_world s)))) ->
  (forall e s', latched s s' -> Q (Throw e) s') ->
  wp read_durable_epoch_strict Q s.
Proof.
  intros HQ HT. unfold read_durable_epoch_strict.
  rewrite wp_bind, wp_store_path, wp_bind, wp_attempt, wp_in_world.
  apply wp_read_epoch_file; [by intros e He; rewrite wp_ret; apply HQ|].
  apply wp_refuse. intros e s' Hl. eapply HT, latched_after; [| |exact Hl]; [done|].
  by apply only_touches_same_fs.
Qed.

Lemma wp_checked_successor hw (Q : outcome RpcError Z -> CoreW -> Prop) s :
  (hw + 1 <= u64_max -> Q (Ret (hw + 1)) s) ->
  (forall e s', latched s s' -> Q (Throw e) s') ->
  wp (checked_epoch_successor hw) Q s.
Proof.
  intros HQ HT. unfold checked_epoch_successor.
  destruct (u64_checked_add hw 1) as [n|] eqn:E.
  - apply u64_checked_add_Some in E as [-> Hn]. rewrite wp_ret. by apply HQ.
  - by apply wp_refuse.
Qed.

(** A step of the world inside a handler, of which only the footprint
    matters. *)
Lemma wp_world_step {E A} P (m : M WdWorld E A) (Q : outcome E A -> CoreW -> Prop) s :
  touches P m ->
  (forall o w', only_touches P (cw_world s) w' -> o <> Panic ->
     Q o (mkCoreW (cw_core s) w')) ->
  wp (in_world m) Q s.
Proof. intros Hm HQ. rewrite wp_in_world. by eapply wp_touches. Qed.

Lemma epoch_file_frame root e w w' :
  only_touches (fun _ => False) w w' -> epoch_file root e w -> epoch_file root e w'.
Proof. intros Hw (bs & Hb & Hr). exists bs. rewrite Hw by tauto. done. Qed.

Context `{!HonestReadback}.

Lemma wp_readback p bs (Q : outcome DurabilityError unit -> WdWorld -> Prop) w :
  (forall w', fs_files (w_fs w') !! p = Some bs -> w_fs w' = w_fs w -> Q (Ret tt) w') ->
  (forall e w', w_fs w' = w_fs w -> Q (Throw e) w') ->
  wp (readback_verify p bs) Q w.
Proof.
  intros HQ HT. unfold readback_verify. rewrite wp_bind, wp_gets, wp_bind, wp_dep_call.
  rewrite wp_of_result. destruct (dur_readback_verify _ _ p bs) as [[]|e] eqn:Hr.
  - apply readback_honest in Hr. by apply HQ.
  - by apply HT.
Qed.

End Blocks.

#[export] Hint Rewrite @wp_in_world @wp_get_core @wp_modify_core @wp_store_path : wp.

(** The world changed in [P] only; the core did not. *)
Ltac world_step P lem := apply (wp_world_step P); [apply lem|].

Section Advance.
Context `{!IoEnv} `{!Dependencies} `{!HonestReadback}.

Lemma epoch_parent root :
  path_parent (path_join root EPOCH_HIGH_WATER_REL) = Some (path_join root ["epoch"]).
Proof. apply parent_of. Qed.

Lemma wp_residue {E} P parent prefix (Q : outcome E bool -> WdWorld -> Prop) w :
  (forall b w', only_touches P w w' -> Q (Ret b) w') ->
  wp (ambiguous_temp_residue parent prefix) Q w.
Proof.
  intros HQ. unfold ambiguous_temp_residue. rewrite wp_bind, wp_attempt.
  eapply wp_touches; [apply touches_read_dir|].
  intros [a|e|] w' Hw Hp; [by apply HQ..|done].
Qed.

Lemma wp_temp_path {E} parent label (Q : outcome E Path -> WdWorld -> Prop) w :
  (forall x w', w_fs w' = w_fs w -> Q (Ret (path_join parent [x])) w') ->
  wp (unique_temp_path parent label) Q w.
Proof. intros HQ. by apply HQ. Qed.

(** Advancing the epoch: the file goes from [hw] to [hw + 1], or safe mode
    is latched. *)
Lemma wp_advance_epoch (Q : outcome RpcError unit -> CoreW -> Prop) s :
  (forall hw w', epoch_file (store_root s) hw (cw_world s) -> hw + 1 <= u64_max ->
     epoch_file (store_root s) (hw + 1) w' ->
     only_touches (in_dir (store_root s) "epoch") (cw_world s) w' ->
     Q (Ret tt) (mkCoreW (cw_core s) w')) ->
  (forall e w' s', only_touches (in_dir (store_root s) "epoch") (cw_world s) w' ->
     latched (mkCoreW (cw_core s) w') s' -> Q (Throw e) s') ->
  wp advance_epoch Q s.
Proof.
  intros HQ HT. unfold advance_epoch. rewrite wp_bind, wp_store_path. cbn beta iota.
  rewrite epoch_parent. cbn [ok_or].
  rewrite bind_of_Ok, wp_bind. set (root := store_root s) in *.
  set (E := in_dir root "epoch") in *.
  assert (Hrefuse : forall w', only_touches E (cw_world s) w' ->
    wp refuse_into_safe_mode Q (mkCoreW (cw_core s) w')).
  { intros w' Hw. apply wp_refuse. intros e s' Hs. by eapply HT. }
  assert (Hlatch : forall er w', only_touches E (cw_world s) w' ->
    wp (latch_safe_mode_best_effort;; throw (RDurability er)) Q (mkCoreW (cw_core s) w')).
  { intros er w' Hw. rewrite wp_bind. apply wp_latch. intros s' Hs. by eapply HT. }
  rewrite wp_in_world. apply (wp_residue (fun _ => False)). intros b w1 Hw1.
  apply (only_touches_none E) in Hw1 as Ht1. destruct b; [by apply Hrefuse|].
  wp_simpl. eapply wp_touches; [apply (touches_create_dir_all (fun _ => False))|].
  intros o w2 Hw2 Hp. apply (only_touches_none E) in Hw2 as Ht2. apply (transitivity Ht1) in Ht2.
  destruct o as [a|er|]; [|by apply Hrefuse|done]. cbn [is_ok negb].
  wp_simpl. apply wp_read_durable_epoch; [|intros e s' Hl; by eapply (HT e w2)].
  intros hw Hhw. wp_simpl. cbn [cw_core cw_world].
  apply wp_checked_successor;
    [|intros e s' Hl; eapply (HT e w2); [done|]; by eapply latched_after; [| |exact Hl]].
  intros Hmax. wp_simpl.
  cbn [cw_core cw_world]. apply wp_temp_path. intros x w3 Hw3. wp_simpl.
  set (tmp := path_join _ [x]).
  assert (Htmp : in_dir root "epoch" tmp) by apply in_dir_join.
  assert (Hleaf : in_dir root "epoch" (path_join root EPOCH_HIGH_WATER_REL))
    by apply in_dir_leaf.
  apply (only_touches_same_fs E) in Hw3 as Ht3. cbn [cw_core cw_world w_fs w_set_fs] in Ht3.
  change (only_touches E w2 w3) in Ht3. apply (transitivity Ht2) in Ht3.
  cbn [cw_core cw_world]. eapply wp_touches; [apply touches_write_exclusive, Htmp|].
  intros o w4 Hw4 Hp4. apply (transitivity Ht3) in Hw4 as Ht4.
  destruct o as [[]|er|]; [|by apply Hrefuse|done]. cbn [is_ok negb]. wp_simpl.
  eapply wp_touches; [apply (touches_file_fsync (fun _ => False))|].
  intros o w5 Hw5 Hp5. apply (only_touches_none E), (transitivity Ht4) in Hw5 as Ht5.
  destruct o as [[]|er|]; [|by apply Hlatch|done]. wp_simpl.
  eapply wp_touches; [apply (touches_durable_atomic_rename _ _ _ Htmp Hleaf)|].
  intros o w6 Hw6 Hp6. apply (transitivity Ht5) in Hw6 as Ht6.
  destruct o as [[]|er|]; [|by apply Hrefuse|done]. cbn [is_ok negb]. wp_simpl.
  eapply wp_touches; [apply (touches_dir_fsync (fun _ => False))|].
  intros o w7 Hw7 Hp7. apply (only_touches_none E), (transitivity Ht6) in Hw7 as Ht7.
  destruct o as [[]|er|]; [|by apply Hlatch|done]. wp_simpl.
  apply wp_readback.
  2: { intros er w8 Hw8. apply Hrefuse. etrans; [exact Ht7|by apply only_touches_same_fs]. }
  intros w8 Hbs Hw8. cbn [is_ok negb]. rewrite wp_ret.
  assert (Hto2 : only_touches (fun _ => False) (cw_world s) w2) by (etrans; [exact Hw1|exact Hw2]).
  pose proof (epoch_file_range _ _ _ Hhw) as Hr.
  apply (HQ hw).
  - eapply epoch_file_frame; [|exact Hhw]. intros p Hn. symmetry. apply Hto2, Hn.
  - done.
  - exists (epoch_bytes (hw + 1)). unfold epoch_bytes. split_and!; [done|apply length_be_bytes|].
    apply be_value_bytes. unfold is_u64, u64_max in *. change (256 ^ Z.of_nat 8) with (2 ^ 64). lia.
  - etrans; [exact Ht7|by apply only_touches_same_fs].
Qed.
End Advance.

(** ** The invariant *)

(** A binding whose tag and epoch are of their types. *)
Definition binding_typed (b : BoundSession) : Prop :=
  tag_ok (bs_worker_group_tag b) /\ is_u64 (bs_epoch b).

Section Invariant.
Context `{!RecordCodec}.

(** The log on disk holds the records [rs], they reconstruct [act], and
    [act] is what the core holds. *)
Record durable (s : CoreW) (rs : list AuthorityRecord) (act : option ReconstructedAuthority) :
    Prop := {
  du_read : read_records (log_of s) = Ok rs;
  du_kinds : Forall carries_authority rs;
  du_rec : reconstruct_from None rs = Ok act;
  du_armed : wc_armed (cw_core s) = armed_of_reconstructed <$> act;
  du_seq : wc_log_seq (cw_core s) = Z.of_nat (length rs);
  du_clock : opt_all (fun a => ra_last_activity a <= wc_last_clock (cw_core s)) act;
  du_epoch : opt_all (fun a => epoch_file (store_root s) (bs_epoch (ra_binding a)) (cw_world s)) act;
  du_typed : opt_all (fun a => binding_typed (ra_binding a)) act;
}.

Definition core_ok (c : WatchdogCore) : Prop := opt_all binding_typed (wc_durable_binding c).

(** A store that only this program writes: what its log reads are records of
    an authority, and once there is a byte in the log the epoch file is past
    zero. *)
Record own_store (root : Path) (w : WdWorld) : Prop := {
  own_records rs : read_records (file_of (log_path root) w) = Ok rs -> Forall carries_authority rs;
  own_epoch : file_of (log_path root) w <> [] -> ~ epoch_file root 0 w;
}.

Definition wd_inv (s : CoreW) : Prop :=
  core_ok (cw_core s) /\ own_store (store_root s) (cw_world s) /\
  (wc_safe_mode (cw_core s) = false -> exists rs act, durable s rs act).

(** A log with a record over the limit of the reader somewhere in it. *)
Definition oversized (bs : list byte) : Prop :=
  exists good rs payload rest, bs = good ++ record_frame payload ++ rest /\
    read_records good = Ok rs /\ MAX_RECORD_BYTES < Z.of_nat (length payload) < 2 ^ 32.

(** What writing such a record leaves: the watchdog runs on, armed. *)
Definition bricked (s : CoreW) : Prop :=
  core_ok (cw_core s) /\ own_store (store_root s) (cw_world s) /\
  oversized (log_of s) /\ is_Some (wc_armed (cw_core s)).

Lemma oversized_unreadable bs : oversized bs -> exists e, read_records bs = Err e.
Proof. intros (good & rs & payload & rest & -> & Hr & Hp). by eapply read_records_oversized. Qed.

Lemma oversized_grows bs bs' : bs `prefix_of` bs' -> oversized bs -> oversized bs'.
Proof.
  intros [more ->] (good & rs & payload & rest & -> & Hr & Hp).
  exists good, rs, payload, (rest ++ more). by rewrite <-!app_assoc.
Qed.

(** The record is within the limit of the reader. *)
Definition fits (r : AuthorityRecord) : Prop :=
  opt_all (fun payload => Z.of_nat (length payload) <= MAX_RECORD_BYTES) (record_to_vec r).
#[export] Instance fits_dec r : Decision (fits r).
Proof. unfold fits. destruct (record_to_vec r); cbn; apply _. Defined.

(** The configuration and the durable binding are as they were. *)
Definition kept (s s' : CoreW) : Prop :=
  wc_config (cw_core s') = wc_config (cw_core s) /\
  wc_durable_binding (cw_core s') = wc_durable_binding (cw_core s).

(** The invariant holds again, and what is kept is kept. *)
Definition stays (s s' : CoreW) : Prop := wd_inv s' /\ kept s s'.

(** The log, which read as [rs], has the frame of the record [r] more; it
    reads with [r] at its end, unless [r] is over the limit. *)
Definition recorded (s s' : CoreW) (rs : list AuthorityRecord) (r : AuthorityRecord) : Prop :=
  (exists payload, record_to_vec r = Some payload /\
                   log_of s' = log_of s ++ record_frame payload) /\
  if decide (fits r) then wd_inv s' /\ read_records (log_of s') = Ok (rs ++ [r]) else bricked s'.

Lemma recorded_sound s s' rs r : recorded s s' rs r -> wd_inv s' \/ bricked s'.
Proof. intros [_ Hr]. case_decide; [by left; destruct Hr|by right]. Qed.

Lemma own_store_frame root w w' :
  file_of (log_path root) w' = file_of (log_path root) w ->
  (epoch_file root 0 w' -> epoch_file root 0 w) -> own_store root w -> own_store root w'.
Proof. intros Hl He [Hr Hn]. split; rewrite Hl; [exact Hr|]. intros Hne Hx. by apply Hn; [|apply He]. Qed.

Lemma own_store_quiet root w w' :
  only_touches (fun _ => False) w w' -> own_store root w -> own_store root w'.
Proof.
  intros Hw. apply own_store_frame; [unfold file_of; by rewrite Hw by tauto|].
  apply epoch_file_frame. intros p Hp. by rewrite Hw.
Qed.

Lemma durable_frame s s' rs act :
  durable s rs act ->
  wc_config (cw_core s') = wc_config (cw_core s) ->
  wc_armed (cw_core s') = wc_armed (cw_core s) ->
  wc_log_seq (cw_core s') = wc_log_seq (cw_core s) ->
  wc_last_clock (cw_core s) <= wc_last_clock (cw_core s') ->
  only_touches (fun _ => False) (cw_world s) (cw_world s') ->
  durable s' rs act.
Proof.
  intros [Hr Hk Hc Ha Hs Ht He Hty] Ecfg Earm Eseq Hclk Hw.
  assert (Eroot : store_root s' = store_root s) by (unfold store_root; by rewrite Ecfg).
  split; try congruence.
  - unfold log_of, file_of in *. rewrite Eroot, Hw by tauto. done.
  - destruct act; [cbn in *; lia|done].
  - destruct act; [|done]. cbn in *. rewrite Eroot. by eapply epoch_file_frame.
Qed.

Lemma stays_quiet s s' :
  wd_inv s -> cw_core s' = cw_core s ->
  only_touches (fun _ => False) (cw_world s) (cw_world s') -> stays s s'.
Proof.
  intros (Hok & Hown & Hinv) Hc Hw. unfold stays, wd_inv, kept, store_root. rewrite Hc.
  split_and!; try done; [by eapply own_store_quiet|].
  intros Hsafe. destruct (Hinv Hsafe) as (rs & act & Hd). exists rs, act.
  eapply durable_frame; [exact Hd|by rewrite Hc..|rewrite Hc; lia|done].
Qed.

Lemma epoch_not_log root : ~ eq (log_path root) (path_join root EPOCH_HIGH_WATER_REL).
Proof. unfold log_path, path_join. by intros Heq%app_inv_head. Qed.

Lemma log_not_in_dir root d : d <> "decisions" -> ~ in_dir root d (log_path root).
Proof.
  intros Hd [x Hx]. unfold log_path, path_join in Hx. apply app_inv_head in Hx.
  unfold DECISION_LOG_REL in Hx. congruence.
Qed.

Lemma epoch_not_in_dir root d : d <> "epoch" -> ~ in_dir root d (path_join root EPOCH_HIGH_WATER_REL).
Proof.
  intros Hd [x Hx]. unfold path_join in Hx. apply app_inv_head in Hx.
  unfold EPOCH_HIGH_WATER_REL in Hx. congruence.
Qed.

Lemma epoch_file_elsewhere P root e w w' :
  ~ P (path_join root EPOCH_HIGH_WATER_REL) -> only_touches P w w' ->
  epoch_file root e w' <-> epoch_file root e w.
Proof. intros HP Hw. unfold epoch_file. by rewrite Hw. Qed.

Lemma log_elsewhere P root w w' :
  ~ P (log_path root) -> only_touches P w w' ->
  file_of (log_path root) w' = file_of (log_path root) w.
Proof. intros HP Hw. unfold file_of. by rewrite Hw. Qed.

(** The marker is neither the log nor the epoch file. *)
Lemma own_store_latched s s' :
  latched s s' -> own_store (store_root s) (cw_world s) -> own_store (store_root s') (cw_world s').
Proof.
  intros [Hc Hf]. assert (Hr : store_root s' = store_root s) by (unfold store_root; by rewrite Hc).
  rewrite Hr. apply own_store_frame.
  - eapply log_elsewhere; [|exact Hf]. by apply log_not_in_dir.
  - apply (epoch_file_elsewhere _ _ _ _ _ (epoch_not_in_dir _ "state" ltac:(done)) Hf).
Qed.

Lemma stays_latched s s1 s' :
  wd_inv s -> cw_core s1 = cw_core s -> own_store (store_root s1) (cw_world s1) ->
  latched s1 s' -> stays s s'.
Proof.
  intros [Hok _] Hc Hown Hl. pose proof (own_store_latched _ _ Hl Hown) as Hown'.
  unfold stays, wd_inv, kept, core_ok. rewrite (la_core _ _ Hl), Hc in *. by split_and!.
Qed.

(** *** Appending to a sound log *)

Lemma end_epoch_last e rs r : end_epoch e (rs ++ [r]) = ar_epoch r.
Proof. unfold end_epoch. by rewrite fold_left_app. Qed.

Lemma to_bound_session_epoch r b : to_bound_session r = Ok b -> bs_epoch b = ar_epoch r.
Proof. unfold to_bound_session. intros Hb. inv_ok. done. Qed.

Lemma carries_all rs : Forall carries_authority rs -> filter carries_authority rs = rs.
Proof. induction 1 as [|r rs Hr _ IH]; [done|]. by rewrite filter_cons_True, IH. Qed.

(** What a sound log with authority looks like. *)
Lemma durable_shape s rs act :
  durable s rs act -> authority_shape rs act /\ Forall (fun r => validate_schema r = Ok tt) rs.
Proof.
  intros [Hr Hk Hc _ _ _ _ _].
  pose proof (read_records_valid _ _ Hr) as Hv.
  split; [by eapply reconstruct_shape|done].
Qed.

Lemma durable_none s rs : durable s rs None -> rs = [].
Proof.
  intros Hd. pose proof (durable_shape _ _ _ Hd) as [Hs _]. cbn in Hs.
  by rewrite carries_all in Hs by apply Hd.
Qed.

Lemma durable_some s rs a :
  durable s rs (Some a) -> authority_of rs a /\ end_epoch 0 rs = bs_epoch (ra_binding a).
Proof.
  intros Hd. pose proof (durable_shape _ _ _ Hd) as [Hs _]. cbn in Hs.
  rewrite carries_all in Hs by apply Hd. split; [done|].
  destruct Hs as (r0 & ren & ds & -> & _ & _ & _ & Hb & _).
  destruct (@exists_last _ (r0 :: ren ++ ds)) as (l & x & Hx); [done|].
  rewrite Hx in *. rewrite end_epoch_last.
  apply Forall_app in Hb as [_ Hb]. apply Forall_inv in Hb.
  by rewrite (to_bound_session_epoch _ _ Hb).
Qed.

Context `{!IoEnv} `{!Dependencies} `{!RecordCodecLaws}.

(** The record [r] may follow the log [rs]. *)
Definition may_follow (rs : list AuthorityRecord) (r : AuthorityRecord) : Prop :=
  record_ok r /\ ar_sequence r = Z.of_nat (length rs) + 1 /\ ar_sequence r <= u64_max /\
  end_epoch 0 rs <= ar_epoch r.

(** Short strings fit. *)
Lemma short_fits r : record_ok r -> strings_length r <= 8192 -> fits r.
Proof.
  intros Hok Hlen. unfold fits. destruct (record_to_vec r) as [payload|] eqn:Hp; [|done]. cbn.
  pose proof (record_size _ _ Hok Hp). unfold MAX_RECORD_BYTES. lia.
Qed.

(** What the log reads after its frame was written. *)
Lemma read_appended bs rs r payload :
  read_records bs = Ok rs -> may_follow rs r -> validate_schema r = Ok tt ->
  record_to_vec r = Some payload -> Z.of_nat (length payload) < 2 ^ 32 ->
  if decide (fits r) then read_records (bs ++ record_frame payload) = Ok (rs ++ [r])
  else oversized (bs ++ record_frame payload).
Proof.
  intros Hr (Hok & Hseq & Hmax & Hep) Hv Hp Hlen. unfold fits. case_decide as Hf; rewrite Hp in Hf; cbn in Hf.
  - apply read_records_append; [exact Hr|done|]. apply check_record_Ok.
    rewrite (record_roundtrip _ _ Hok Hp). split_and!; try done; lia.
  - exists bs, rs, payload, []. rewrite app_nil_r. split_and!; [done|done|lia|done].
Qed.

(** However much of a frame was written, the store is still our own. *)
Lemma own_appended root w w' rs r payload k :
  read_records (file_of (log_path root) w) = Ok rs -> Forall carries_authority rs ->
  may_follow rs r -> validate_schema r = Ok tt -> carries_authority r ->
  record_to_vec r = Some payload -> Z.of_nat (length payload) < 2 ^ 32 ->
  ~ epoch_file root 0 w -> only_touches (eq (log_path root)) w w' ->
  file_of (log_path root) w' = file_of (log_path root) w ++ take k (record_frame payload) ->
  own_store root w'.
Proof.
  intros Hr Hk Hm Hv Hc Hp Hlen He Hw Hf. split.
  - intros rs' Hr'. rewrite Hf in Hr'. destruct (decide (k = 0%nat)) as [->|Hk0].
    { rewrite take_0, app_nil_r in Hr'. congruence. }
    destruct (decide (k < length (record_frame payload))%nat) as [Hlt|Hge].
    { destruct (read_records_torn _ _ payload k Hr) as [e He']; [lia|done|congruence]. }
    rewrite take_ge in Hr' by lia.
    pose proof (read_appended _ _ _ _ Hr Hm Hv Hp Hlen) as Ha. case_decide.
    + rewrite Ha in Hr'. injection Hr' as <-. apply Forall_app. by split; [|apply Forall_singleton].
    + apply oversized_unreadable in Ha as [e Ha]. congruence.
  - intros _ He'. apply He. by apply (epoch_file_elsewhere _ _ _ _ _ (epoch_not_log root) Hw).
Qed.

(** A record was appended, and the memory updated. *)
Lemma recorded_intro s s' rs r payload :
  read_records (log_of s) = Ok rs -> may_follow rs r -> validate_schema r = Ok tt ->
  record_to_vec r = Some payload -> Z.of_nat (length payload) < 2 ^ 32 ->
  log_of s' = log_of s ++ record_frame payload ->
  core_ok (cw_core s') -> own_store (store_root s') (cw_world s') ->
  is_Some (wc_armed (cw_core s')) ->
  (read_records (log_of s') = Ok (rs ++ [r]) -> exists act, durable s' (rs ++ [r]) act) ->
  recorded s s' rs r.
Proof.
  intros Hr Hm Hv Hp Hlen Hlog Hok Hown Harm Hd. split; [by eexists|].
  pose proof (read_appended _ _ _ _ Hr Hm Hv Hp Hlen) as Ha. rewrite <-Hlog in Ha. case_decide; [|done].
  split; [|done]. split_and!; [done|done|]. intros _. destruct (Hd Ha) as [act Hact]. by eauto.
Qed.

(** The append inside a handler: the whole frame, or safe mode. *)
Lemma wp_core_append r s rs (Q : outcome RpcError unit -> CoreW -> Prop) :
  read_records (log_of s) = Ok rs -> Forall carries_authority rs -> may_follow rs r ->
  carries_authority r -> ~ epoch_file (store_root s) 0 (cw_world s) ->
  (forall w' payload, only_touches (eq (log_path (store_root s))) (cw_world s) w' ->
     validate_schema r = Ok tt -> record_to_vec r = Some payload ->
     Z.of_nat (length payload) < 2 ^ 32 ->
     file_of (log_path (store_root s)) w' = log_of s ++ record_frame payload ->
     own_store (store_root s) w' ->
     w_calls w' = w_calls (cw_world s) ++
       [CFileFsync (log_path (store_root s)) (Ok tt);
        CDirFsync (removelast (log_path (store_root s))) (Ok tt)] ->
     Q (Ret tt) (mkCoreW (set_log_seq (ar_sequence r) (cw_core s)) w')) ->
  (forall e s1 s', cw_core s1 = cw_core s -> own_store (store_root s) (cw_world s1) ->
     latched s1 s' -> Q (Throw e) s') ->
  wp (core_append_record r) Q s.
Proof.
  intros Hr Hk Hm Hc He HQ HT.
  unfold core_append_record. wp_simpl. fold (log_path (store_root s)).
  set (p := log_path (store_root s)) in *.
  pose proof (wp_append_record p r (cw_world s)) as Ha.
  pose proof (touches_append_record p r (cw_world s)) as [Ht _].
  unfold wp in Ha |- *. destruct (append_record p r (cw_world s)) as [[[]|er|] w']; cbn in *.
  - destruct Ha as (payload & Hp & Hv & Hlen & Hf & Hcalls).
    apply (HQ w' payload); try done. eapply own_appended; [exact Hr|exact Hk|done..|exact He|exact Ht|].
    rewrite take_ge by done. exact Hf.
  - enough (Hgoal : wp (latch_safe_mode_best_effort;; throw (RDurability er)) Q
                   (mkCoreW (cw_core s) w')) by exact Hgoal.
    rewrite wp_bind. apply wp_latch. intros s' Hs. eapply HT; [|..|exact Hs]; [done|]. cbn [cw_world].
    destruct Ha as [Hf|(payload & k & Hp & Hv & Hlen & Hf)].
    + split.
      * intros rs' Hr'. fold p in Hr'. rewrite Hf in Hr'. unfold log_of in Hr. fold p in Hr. congruence.
      * intros _ He'. apply He. by apply (epoch_file_elsewhere _ _ _ _ _ (epoch_not_log _) Ht).
    + by eapply own_appended.
  - done.
Qed.
End Invariant.

(** ** The three appends *)

Section Appends.
Context `{!RecordCodec}.

Lemma record_ok_armed n e h t b l g a d lease :
  is_u64 n -> is_u64 e -> tag_ok g -> instant_ok a -> instant_ok d -> instant_ok lease ->
  record_ok (armed_of n e h t b l g a d lease).
Proof.
  intros Hn He Hg Ha Hd Hl. apply parts_in_range in Ha as [? ?], Hd as [? ?], Hl as [? ?].
  by unfold record_ok; cbn.
Qed.

Lemma record_ok_renewed n e h t l g a lease :
  is_u64 n -> is_u64 e -> tag_ok g -> instant_ok a -> instant_ok lease ->
  record_ok (renewed_of n e h t l g a lease).
Proof.
  intros Hn He Hg Ha Hl. apply parts_in_range in Ha as [? ?], Hl as [? ?].
  by unfold record_ok; cbn.
Qed.

Lemma record_ok_decision n e k h t l g :
  is_u64 n -> is_u64 e -> tag_ok g -> record_ok (decision_record n e k h t l g).
Proof. by unfold record_ok; cbn. Qed.

Lemma valid_binding_ok r h t l g :
  validate_schema r = Ok tt -> ar_host_id r = Some h -> ar_tx_id r = Some t ->
  ar_lease_id r = Some l -> ar_worker_group_tag r = Some g ->
  binding_ok h t l.
Proof.
  intros Hv Hh Ht Hl Hg.
  assert (Hb : exists x, binding_fields r = Ok x).
  { unfold validate_schema in Hv. destruct (ar_kind r); inv_ok; by eexists. }
  destruct Hb as [[[[h' t'] l'] g'] Hb]. apply binding_fields_Ok in Hb.
  destruct Hb as (? & ? & ? & ? & Hok). congruence.
Qed.

Definition authority_with (a : ReconstructedAuthority) (lease : SystemTime)
    (chosen : option AuthorityRecordKind) (n : Z) (activity : SystemTime) :=
  {| ra_binding := ra_binding a; ra_base := ra_base a; ra_armed_at := ra_armed_at a;
     ra_deadline := ra_deadline a; ra_lease_expires_at := lease; ra_chosen := chosen;
     ra_log_seq := n; ra_last_activity := activity |}.

(** The state after a record [r] was appended, and the memory updated. *)
Lemma durable_append s s' rs act act' r :
  durable s rs act -> carries_authority r ->
  wc_config (cw_core s') = wc_config (cw_core s) ->
  read_records (file_of (log_path (store_root s)) (cw_world s')) = Ok (rs ++ [r]) ->
  reconstruct_step act r = Ok (Some act') ->
  wc_armed (cw_core s') = Some (armed_of_reconstructed act') ->
  wc_log_seq (cw_core s') = Z.of_nat (length rs) + 1 ->
  ra_last_activity act' <= wc_last_clock (cw_core s') ->
  epoch_file (store_root s) (bs_epoch (ra_binding act')) (cw_world s') ->
  binding_typed (ra_binding act') ->
  durable s' (rs ++ [r]) (Some act').
Proof.
  intros Hd Hc Ecfg Hr Hstep Harm Hseq Hclk Hep Hty.
  assert (Eroot : store_root s' = store_root s) by (unfold store_root; by rewrite Ecfg).
  split; cbn.
  - unfold log_of. by rewrite Eroot.
  - apply Forall_app. split; [apply Hd|]. constructor; [done|constructor].
  - rewrite reconstruct_from_snoc, (du_rec _ _ _ Hd). done.
  - done.
  - rewrite length_app. cbn. lia.
  - done.
  - by rewrite Eroot.
  - done.
Qed.

Lemma durable_armed s s' e h t b l g now deadline lease n :
  durable s [] None -> n = 1 ->
  lease_expiry_at now deadline = Ok lease -> 0 <= now -> instant_ok deadline ->
  validate_schema (armed_of n e h t b l g now deadline lease) = Ok tt ->
  read_records (file_of (log_path (store_root s)) (cw_world s')) =
    Ok [armed_of n e h t b l g now deadline lease] ->
  cw_core s' = set_last_clock now (set_armed (Some
    {| as_host_id := h; as_tx_id := t; as_epoch := e; as_base := b; as_lease_id := l;
       as_worker_group_tag := g; as_armed_at := now; as_deadline := deadline;
       as_lease_expires_at := lease; as_chosen := None |}) (set_log_seq n (cw_core s))) ->
  epoch_file (store_root s) e (cw_world s') ->
  binding_typed (mkBound h t e l g) ->
  exists act, durable s' [armed_of n e h t b l g now deadline lease] (Some act).
Proof.
  intros Hd -> Hl Hnow Hdl Hv Hr Hc Hep Hty.
  pose proof (valid_binding_ok _ _ _ _ _ Hv eq_refl eq_refl eq_refl eq_refl) as Hb.
  pose proof (reconstruct_armed_of 1 e h t b l g now deadline lease Hl Hnow Hdl Hb) as Hstep.
  eexists. eapply (durable_append s s' [] None); [exact Hd|by left|by rewrite Hc|exact Hr
    |exact Hstep|by rewrite Hc|by rewrite Hc|rewrite Hc; cbn; lia|done|done].
Qed.

Lemma durable_renewed s s' rs a now lease :
  durable s rs (Some a) -> ra_chosen a = None ->
  0 <= now -> ra_last_activity a <= now -> now < ra_lease_expires_at a ->
  lease_expiry_at now (ra_deadline a) = Ok lease -> ra_lease_expires_at a < lease ->
  let n := Z.of_nat (length rs) + 1 in
  let b := ra_binding a in
  let r := renewed_of n (bs_epoch b) (bs_host_id b) (bs_tx_id b) (bs_lease_id b)
             (bs_worker_group_tag b) now lease in
  validate_schema r = Ok tt ->
  read_records (file_of (log_path (store_root s)) (cw_world s')) = Ok (rs ++ [r]) ->
  cw_core s' = set_last_clock now
    (set_armed (Some (set_lease_expires_at lease (armed_of_reconstructed a)))
               (set_log_seq n (cw_core s))) ->
  epoch_file (store_root s) (bs_epoch b) (cw_world s') ->
  durable s' (rs ++ [r]) (Some (authority_with a lease None n now)).
Proof.
  intros Hd Hch Hnow Hla Hlt Hl Hgt n b r Hv Hr Hc Hep.
  pose proof (valid_binding_ok r _ _ _ _ Hv eq_refl eq_refl eq_refl eq_refl) as Hb.
  assert (Hbind : ra_binding a = mkBound (bs_host_id b) (bs_tx_id b) (bs_epoch b)
    (bs_lease_id b) (bs_worker_group_tag b)) by (unfold b; by destruct (ra_binding a)).
  pose proof (reconstruct_renewed_of a n _ _ _ _ _ now lease Hbind Hb Hch Hnow Hla Hlt Hl Hgt)
    as Hstep.
  eapply (durable_append s s' rs (Some a)); [exact Hd|by right; left|by rewrite Hc|exact Hr
    |exact Hstep| |by rewrite Hc|rewrite Hc; cbn; lia|done|exact (du_typed _ _ _ Hd)].
  rewrite Hc. cbn. unfold armed_of_reconstructed, set_lease_expires_at. cbn. by rewrite Hch.
Qed.

Lemma durable_decided s s' rs a k :
  durable s rs (Some a) -> ra_chosen a = None -> k = BeginCommit \/ k = BeginRevert ->
  let n := Z.of_nat (length rs) + 1 in
  let b := ra_binding a in
  let r := decision_record n (bs_epoch b) k (bs_host_id b) (bs_tx_id b) (bs_lease_id b)
             (bs_worker_group_tag b) in
  validate_schema r = Ok tt ->
  read_records (file_of (log_path (store_root s)) (cw_world s')) = Ok (rs ++ [r]) ->
  cw_core s' = set_armed (Some (set_chosen (Some k) (armed_of_reconstructed a)))
               (set_log_seq n (cw_core s)) ->
  epoch_file (store_root s) (bs_epoch b) (cw_world s') ->
  durable s' (rs ++ [r])
    (Some (authority_with a (ra_lease_expires_at a) (Some k) n (ra_last_activity a))).
Proof.
  intros Hd Hch Hk n b r Hv Hr Hc Hep.
  pose proof (valid_binding_ok r _ _ _ _ Hv eq_refl eq_refl eq_refl eq_refl) as Hb.
  assert (Hbind : ra_binding a = mkBound (bs_host_id b) (bs_tx_id b) (bs_epoch b)
    (bs_lease_id b) (bs_worker_group_tag b)) by (unfold b; by destruct (ra_binding a)).
  pose proof (reconstruct_decision_record a n _ k _ _ _ _ Hk Hbind Hb Hch) as Hstep.
  eapply (durable_append s s' rs (Some a)); [exact Hd|by right; right|by rewrite Hc|exact Hr
    |exact Hstep|by rewrite Hc|by rewrite Hc| |done|exact (du_typed _ _ _ Hd)].
  rewrite Hc. cbn. exact (du_clock _ _ _ Hd).
Qed.
End Appends.

(** ** The handlers *)

(** A refusal: nothing in memory changed, or safe mode was latched. *)
Definition refused (s s' : CoreW) : Prop :=
  cw_core s' = cw_core s \/ cw_core s' = set_safe_mode true (cw_core s).

Section Handlers.
Context `{!RecordCodec} `{!IoEnv} `{!Dependencies}.
Context `{!RecordCodecLaws} `{!HonestReadback}.
Implicit Types (s : CoreW).

(** A refusal before anything but the world's clock moved. *)
Lemma stays_refused s s1 :
  wd_inv s -> cw_core s1 = cw_core s -> w_fs (cw_world s1) = w_fs (cw_world s) ->
  stays s s1 /\ refused s s1.
Proof.
  intros Hinv Hc Hw. split; [|by left].
  apply stays_quiet; [done|done|by apply only_touches_same_fs].
Qed.

Lemma refused_latched s s1 s' : cw_core s1 = cw_core s -> latched s1 s' -> refused s s'.
Proof. intros Hc Hl. right. by rewrite (la_core _ _ Hl), Hc. Qed.

Lemma stays_refused_own s s1 s' :
  wd_inv s -> cw_core s1 = cw_core s -> own_store (store_root s) (cw_world s1) ->
  latched s1 s' -> stays s s' /\ refused s s'.
Proof.
  intros Hinv Hc Hown Hl. split; [|by eapply refused_latched].
  eapply stays_latched; [done|exact Hc| |exact Hl]. unfold store_root in *. by rewrite Hc.
Qed.

Lemma stays_refused_latched s s1 s' :
  wd_inv s -> cw_core s1 = cw_core s -> w_fs (cw_world s1) = w_fs (cw_world s) ->
  latched s1 s' -> stays s s' /\ refused s s'.
Proof.
  intros Hinv Hc Hw. apply stays_refused_own; [done|done|].
  eapply own_store_quiet; [by apply only_touches_same_fs|apply Hinv].
Qed.

Definition arm_state (h t : string) (e : Z) (base l : string) (g : WorkerGroupTag)
    (now deadline lease : SystemTime) : ArmedState :=
  {| as_host_id := h; as_tx_id := t; as_epoch := e; as_base := base; as_lease_id := l;
     as_worker_group_tag := g; as_armed_at := now; as_deadline := deadline;
     as_lease_expires_at := lease; as_chosen := None |}.

(** What arming answers. *)
Definition arm_post (rid h t : string) (e : Z) (base : string) (deadline : SystemTime)
    (mand add : list string) (s : CoreW) (o : outcome RpcError LocalResponse) (s' : CoreW) :
    Prop :=
  match o with
  | Ret resp =>
      kept s s' /\ resp = ArmedResp rid /\ wc_safe_mode (cw_core s') = false /\
      h = cfg_host_id (wc_config (cw_core s)) /\ wc_armed (cw_core s) = None /\
      validate_manifest mand add = Ok tt /\
      exists b hw now lease,
        wc_durable_binding (cw_core s) = Some b /\ e = bs_epoch b /\ e = hw + 1 /\
        epoch_file (store_root s) hw (cw_world s) /\
        epoch_file (store_root s) e (cw_world s') /\
        now < deadline /\ lease_expiry_at now deadline = Ok lease /\
        log_of s = [] /\
        recorded s s' []
          (armed_of 1 e h t base (bs_lease_id b) (bs_worker_group_tag b) now deadline lease) /\
        wc_armed (cw_core s') =
          Some (arm_state h t e base (bs_lease_id b) (bs_worker_group_tag b) now deadline lease)
  | Throw _ => stays s s' /\ refused s s'
  | Panic => False
  end.

(** An armed authority has a log, and an epoch past zero. *)
Lemma durable_live s rs a : wd_inv s -> durable s rs (Some a) -> ~ epoch_file (store_root s) 0 (cw_world s).
Proof.
  intros (_ & Hown & _) Hd. apply (own_epoch _ _ Hown). intros Hnil.
  pose proof (du_read _ _ _ Hd) as Hr. unfold log_of in Hr. rewrite Hnil in Hr.
  injection Hr as <-. pose proof (du_rec _ _ _ Hd) as Hc. discriminate Hc.
Qed.

(** The end of [handle_arm]: the epoch was advanced, and the record is
    written. *)
Lemma wp_record_arming rid h t e base deadline mand add b hw now lease s w'
    (Q := arm_post rid h t e base deadline mand add s) :
  wd_inv s -> durable s [] None -> wc_safe_mode (cw_core s) = false -> wc_armed (cw_core s) = None ->
  h = cfg_host_id (wc_config (cw_core s)) -> validate_manifest mand add = Ok tt ->
  wc_durable_binding (cw_core s) = Some b -> e = bs_epoch b -> e = hw + 1 ->
  epoch_file (store_root s) hw (cw_world s) -> epoch_file (store_root s) e w' ->
  only_touches (in_dir (store_root s) "epoch") (cw_world s) w' ->
  now < deadline -> 0 <= now -> deadline < 2 ^ 63 * NSEC -> lease_expiry_at now deadline = Ok lease ->
  let r := armed_of 1 e h t base (bs_lease_id b) (bs_worker_group_tag b) now deadline lease in
  wp (core_append_record r;;
      modify_core (set_armed (Some
        (arm_state h t e base (bs_lease_id b) (bs_worker_group_tag b) now deadline lease)));;
      modify_core (set_last_clock now);;
      mret (ArmedResp rid)) Q (mkCoreW (cw_core s) w').
Proof.
  intros Hinv Hd Hsafe Harm Hh Hv Hb He Hhw Hep Hep' Htouch Hlt Hnow Hdl El r.
  pose proof Hinv as (Hok & Hown & _).
  pose proof (lease_instant _ _ _ El Hnow) as [Hlt' Hli].
  assert (Hni : instant_ok now) by (unfold instant_ok in *; lia).
  assert (Hdi : instant_ok deadline) by (unfold instant_ok in *; lia).
  assert (Hty : binding_typed b) by (unfold core_ok in Hok; rewrite Hb in Hok; exact Hok).
  assert (He64 : is_u64 e) by (subst e; apply Hty).
  assert (Hnil : log_of s = []) by exact (read_records_nil _ (du_read _ _ _ Hd)).
  assert (Hlog : file_of (log_path (store_root s)) w' = []).
  { rewrite <-Hnil. eapply log_elsewhere; [|exact Htouch]. by apply log_not_in_dir. }
  assert (Hz : ~ epoch_file (store_root s) 0 w').
  { intros Hx. pose proof (epoch_file_fun _ _ _ _ Hx Hep'). pose proof (epoch_file_range _ _ _ Hep).
    unfold is_u64 in *. lia. }
  assert (Hm : may_follow [] r).
  { split; [apply record_ok_armed; try done; apply Hty|]. cbn. unfold is_u64 in He64.
    unfold u64_max. split_and!; lia. }
  assert (Hread : read_records (log_of (mkCoreW (cw_core s) w')) = Ok []).
  { change (read_records (file_of (log_path (store_root s)) w') = Ok []). by rewrite Hlog. }
  rewrite wp_bind. eapply (wp_core_append r _ []); [exact Hread|done|exact Hm|by left|exact Hz| |].
  - intros w2 payload Htouch2 Hval Hp Hlen Hf Hown2 _. wp_simpl. cbn [cw_core cw_world].
    change (only_touches (eq (log_path (store_root s))) w' w2) in Htouch2.
    assert (Hep2 : epoch_file (store_root s) e w2)
      by (by apply (epoch_file_elsewhere _ _ _ _ _ (epoch_not_log _) Htouch2)).
    set (s2 := mkCoreW _ w2). split_and!; try done. exists b, hw, now, lease. split_and!; try done.
    eapply recorded_intro; [exact (du_read _ _ _ Hd)|exact Hm|exact Hval|exact Hp|exact Hlen| | | | |].
    + rewrite Hnil. change (log_of (mkCoreW (cw_core s) w')) with (file_of (log_path (store_root s)) w') in Hf.
      rewrite Hlog in Hf. exact Hf.
    + exact Hok.
    + exact Hown2.
    + by eexists.
    + intros Hread2. subst e. destruct (durable_armed s s2 (bs_epoch b) h t base (bs_lease_id b)
        (bs_worker_group_tag b) now deadline lease 1) as [act2 Hd2]; try done. by eexists.
  - intros er s1 s' Hc Hown1 Hl. by eapply stays_refused_own.
Qed.

Lemma wp_handle_arm rid h t e base deadline mand add s :
  wd_inv s -> wc_safe_mode (cw_core s) = false -> deadline < 2 ^ 63 * NSEC ->
  wp (handle_arm rid h t e base deadline mand add)
     (arm_post rid h t e base deadline mand add s) s.
Proof.
  intros Hinv Hsafe Hdl. pose proof Hinv as (Hok & Hown & Hdur).
  destruct (Hdur Hsafe) as (rs & act & Hd).
  assert (Hlatch : forall er s1 s', cw_core s1 = cw_core s ->
    w_fs (cw_world s1) = w_fs (cw_world s) -> latched s1 s' ->
    arm_post rid h t e base deadline mand add s (Throw er) s')
    by (intros er s1 s' Hc Hw Hl; by eapply stays_refused_latched).
  unfold handle_arm. wp_simpl.
  destruct (bool_decide (h <> _)) eqn:Eh; [by apply stays_refused|]. bool_to_prop. wp_simpl.
  destruct (is_some (wc_armed (cw_core s))) eqn:Ea; [by apply stays_refused|].
  unfold is_some in Ea. bool_to_prop.
  assert (Harm : wc_armed (cw_core s) = None)
    by (destruct (wc_armed (cw_core s)); [exfalso; eauto|done]).
  wp_simpl. unfold check_base_unmoved. wp_simpl. apply wp_dep_call. wp_simpl.
  destruct (_ && _) eqn:Eb; [by apply stays_refused|]. wp_simpl.
  destruct (validate_manifest mand add) as [[]|] eqn:Ev; [|by apply stays_refused]. wp_simpl.
  apply wp_read_durable_epoch; [|intros er s' Hl; by eapply Hlatch; [| |exact Hl]].
  intros hw Hhw. wp_simpl.
  apply wp_checked_successor; [|intros er s' Hl; by eapply Hlatch; [| |exact Hl]].
  intros Hmax. wp_simpl. unfold bound_epoch. wp_simpl. cbn [cw_core cw_world].
  destruct (wc_durable_binding (cw_core s)) as [b|] eqn:Hb; cbn [fmap option_fmap option_map ok_or];
    [|by apply stays_refused]. wp_simpl.
  destruct (negb (e =? bs_epoch b) || negb (e =? hw + 1)) eqn:Ee; [by apply stays_refused|].
  apply orb_false_iff in Ee as [Ee1 Ee2]. bool_to_prop. wp_simpl.
  apply wp_dep_call. set (now := clock_now _). wp_simpl.
  destruct (deadline <=? now) eqn:Ed; [by apply stays_refused|]. bool_to_prop.
  wp_simpl. cbn [cw_core cw_world]. rewrite Hb. cbn [ok_or]. wp_simpl.
  assert (act = None) as ->.
  { pose proof (du_armed _ _ _ Hd) as Hx. rewrite Harm in Hx. by destruct act. }
  pose proof (durable_none _ _ Hd) as ->.
  assert (Hown' : forall w', only_touches (in_dir (store_root s) "epoch") (cw_world s) w' ->
            own_store (store_root s) w').
  { intros w' Hw. pose proof (read_records_nil _ (du_read _ _ _ Hd)) as Hnil.
    assert (Hlog : file_of (log_path (store_root s)) w' = [])
      by (rewrite <-Hnil; eapply log_elsewhere; [|exact Hw]; by apply log_not_in_dir).
    split; rewrite Hlog; [|done]. by intros rs' [= <-]. }
  apply wp_advance_epoch.
  2: { intros er w' s' Hw Hl. eapply (stays_refused_own s (mkCoreW _ w')); [done|done| |exact Hl].
       by apply Hown'. }
  cbn [cw_core cw_world store_root]. intros hw' w' Hhw' Hmax' Hnew Htouch.
  assert (hw' = hw) as -> by exact (epoch_file_fun _ _ _ _ Hhw' Hhw). clear Hhw'.
  change (only_touches (in_dir (store_root s) "epoch") (cw_world s) w') in Htouch.
  change (epoch_file (store_root s) hw (cw_world s)) in Hhw.
  change (epoch_file (store_root s) (hw + 1) w') in Hnew. rewrite <-Ee2 in Hnew.
  assert (Hrefuse : forall er s', latched (mkCoreW (cw_core s) w') s' ->
    arm_post rid h t e base deadline mand add s (Throw er) s').
  { intros er s' Hl. eapply (stays_refused_own s (mkCoreW _ w')); [done|done| |exact Hl]. by apply Hown'. }
  wp_simpl. destruct (lease_expiry_at now deadline) as [lease|] eqn:El; [|by apply wp_refuse].
  wp_simpl. unfold next_sequence. wp_simpl. cbn [cw_core cw_world].
  rewrite (du_seq _ _ _ Hd). change (u64_checked_add (Z.of_nat _) 1) with (Some 1).
  cbn [ok_or]. wp_simpl.
  destruct (armed_record 1 e h t base _ _ now deadline) as [r|] eqn:Er; [|by apply wp_refuse].
  apply armed_record_Ok in Er as (lease' & El' & Hnow & ->).
  rewrite El in El'. injection El' as <-.
  by eapply wp_record_arming.
Qed.

(** *** Lease renewal *)

(** The request names the armed authority [a]. *)
Definition names_authority (a : ReconstructedAuthority) (t : string) (e : Z) : Prop :=
  t = bs_tx_id (ra_binding a) /\ e = bs_epoch (ra_binding a).

Definition renew_post (t : string) (e : Z) (l : string) (g : WorkerGroupTag) (s : CoreW)
    (o : outcome RpcError unit) (s' : CoreW) : Prop :=
  match o with
  | Ret _ =>
      kept s s' /\ wc_safe_mode (cw_core s') = false /\
      exists rs a now lease,
        durable s rs (Some a) /\ names_authority a t e /\
        l = bs_lease_id (ra_binding a) /\ g = bs_worker_group_tag (ra_binding a) /\
        ra_chosen a = None /\
        wc_last_clock (cw_core s) <= now < ra_lease_expires_at a /\ now <= ra_deadline a /\
        lease_expiry_at now (ra_deadline a) = Ok lease /\
        wc_last_clock (cw_core s') = now /\
        if lease <=? ra_lease_expires_at a
        then wd_inv s' /\ log_of s' = log_of s /\ wc_armed (cw_core s') = wc_armed (cw_core s)
        else let r := renewed_of (Z.of_nat (length rs) + 1) e
                        (bs_host_id (ra_binding a)) t l g now lease in
             recorded s s' rs r /\
             wc_armed (cw_core s') =
               Some (set_lease_expires_at lease (armed_of_reconstructed a))
  | Throw _ => stays s s' /\ refused s s'
  | Panic => False
  end.

(** The end of a renewal that extends the lease. *)
Lemma wp_record_renewal s rs a now lease w1 (Q : outcome RpcError unit -> CoreW -> Prop) :
  wd_inv s -> durable s rs (Some a) -> ra_chosen a = None ->
  0 <= now -> wc_last_clock (cw_core s) <= now < ra_lease_expires_at a -> now <= ra_deadline a ->
  lease_expiry_at now (ra_deadline a) = Ok lease -> ra_lease_expires_at a < lease ->
  Z.of_nat (length rs) + 1 <= u64_max -> w_fs w1 = w_fs (cw_world s) ->
  let b := ra_binding a in
  let r := renewed_of (Z.of_nat (length rs) + 1) (bs_epoch b) (bs_host_id b) (bs_tx_id b)
             (bs_lease_id b) (bs_worker_group_tag b) now lease in
  (forall s', kept s s' -> wc_safe_mode (cw_core s') = wc_safe_mode (cw_core s) ->
     wc_last_clock (cw_core s') = now -> recorded s s' rs r ->
     wc_armed (cw_core s') = Some (set_lease_expires_at lease (armed_of_reconstructed a)) ->
     Q (Ret tt) s') ->
  (forall er s', stays s s' /\ refused s s' -> Q (Throw er) s') ->
  wp (core_append_record r;;
      modify_core (fun c => set_armed (set_lease_expires_at lease <$> wc_armed c) c);;
      modify_core (set_last_clock now)) Q (mkCoreW (cw_core s) w1).
Proof.
  intros Hinv Hd Hch Hnow [Hclk Hlt] Hdl El Hgt Hn Hfs b r HQ HT.
  pose proof Hinv as (Hok & Hown & _).
  pose proof (durable_some _ _ _ Hd) as [_ Hend].
  pose proof (du_clock _ _ _ Hd) as Hact. pose proof (du_epoch _ _ _ Hd) as Hep.
  pose proof (du_typed _ _ _ Hd) as [Htag He64]. cbn in Hact, Hep. fold b in Hend, Hep, Htag, He64.
  pose proof (lease_instant _ _ _ El Hnow) as [Hlt' Hli].
  assert (Hni : instant_ok now) by (unfold instant_ok in *; lia).
  assert (Hm : may_follow rs r).
  { split; [apply record_ok_renewed; try done; unfold is_u64; lia|]. cbn. split_and!; lia. }
  assert (Hlog : log_of (mkCoreW (cw_core s) w1) = log_of s)
    by (unfold log_of, file_of; cbn [cw_world]; by rewrite Hfs).
  rewrite wp_bind. eapply (wp_core_append r _ rs).
  - rewrite Hlog. exact (du_read _ _ _ Hd).
  - apply Hd.
  - exact Hm.
  - right; by left.
  - intros Hz. apply (durable_live _ _ _ Hinv Hd). unfold epoch_file in *. cbn in Hz. by rewrite Hfs in Hz.
  - rewrite Hlog. intros w2 payload Htouch2 Hval Hp Hlen Hf Hown2 _. wp_simpl. cbn [cw_core cw_world].
    change (wc_armed (set_log_seq _ ?c)) with (wc_armed c).
    rewrite (du_armed _ _ _ Hd). cbn [fmap option_fmap option_map].
    set (s2 := mkCoreW _ w2). apply HQ; try done.
    eapply recorded_intro; [exact (du_read _ _ _ Hd)|exact Hm|exact Hval|exact Hp|exact Hlen
      |exact Hf|exact Hok|exact Hown2|by eexists|].
    intros Hread. eexists. eapply (durable_renewed s s2 rs a now lease); try done; [lia|].
    change (epoch_file (store_root s) (bs_epoch b) w2).
    apply (epoch_file_elsewhere _ _ _ _ _ (epoch_not_log _) Htouch2).
    unfold epoch_file in *. cbn [cw_world]. by rewrite Hfs.
  - intros er s1 s' Hc Hown1 Hl. apply HT. by eapply stays_refused_own.
Qed.

Lemma wp_handle_renewal t e l g s :
  wd_inv s -> wc_safe_mode (cw_core s) = false ->
  wp (handle_lease_renewal t e l g) (renew_post t e l g s) s.
Proof.
  intros Hinv Hsafe. pose proof Hinv as (Hok & Hown & Hdur).
  destruct (Hdur Hsafe) as (rs & act & Hd).
  assert (Hlatch : forall er s1 s', cw_core s1 = cw_core s ->
    w_fs (cw_world s1) = w_fs (cw_world s) -> latched s1 s' ->
    renew_post t e l g s (Throw er) s')
    by (intros er s1 s' Hc Hw Hl; by eapply stays_refused_latched).
  unfold handle_lease_renewal. wp_simpl. rewrite (du_armed _ _ _ Hd).
  destruct act as [a|]; cbn [fmap option_fmap option_map ok_or]; [|by apply stays_refused].
  wp_simpl. destruct (bool_decide (_ <> t)) eqn:Et; [by apply stays_refused|].
  wp_simpl. destruct (negb (_ =? e)) eqn:Ee; [by apply stays_refused|].
  wp_simpl. destruct (_ || _) eqn:Eb; [by apply stays_refused|].
  wp_simpl. destruct (is_some _) eqn:Ec; [by apply stays_refused|].
  wp_simpl. apply wp_dep_call. set (now := clock_now _).
  wp_simpl. destruct (now <? _) eqn:Eclk; [by apply stays_refused|].
  wp_simpl. destruct ((_ <=? now) || _) eqn:Eexp; [by apply stays_refused|].
  apply orb_false_iff in Eb as [El Eg], Eexp as [Ex Ey].
  unfold is_some in Ec. bool_to_prop.
  cbn [armed_of_reconstructed as_tx_id as_epoch as_lease_id as_worker_group_tag as_chosen
       as_lease_expires_at as_deadline as_host_id] in *.
  assert (Hch : ra_chosen a = None) by (destruct (ra_chosen a); [exfalso; eauto|done]).
  pose proof (du_clock _ _ _ Hd) as Hclk. cbn in Hclk.
  wp_simpl. destruct (lease_expiry_at now (ra_deadline a)) as [lease|] eqn:Elease;
    [|apply wp_refuse; intros er s' Hl; by eapply Hlatch; [| |exact Hl]].
  destruct (lease <=? ra_lease_expires_at a) eqn:Ele.
  { rewrite wp_modify_core. split_and!; try done. exists rs, a, now, lease. rewrite Ele.
    split_and!; try (by subst); try done. split_and!; [exact Hok| |].
    { eapply own_store_quiet; [|exact Hown]. by apply only_touches_same_fs. }
    intros _. exists rs, (Some a).
    eapply durable_frame; [exact Hd|done|done|done| |by apply only_touches_same_fs]. done. }
  wp_simpl. unfold next_sequence. wp_simpl. cbn [cw_core cw_world].
  rewrite (du_seq _ _ _ Hd).
  destruct (u64_checked_add _ 1) as [n|] eqn:En; cbn [ok_or]; [|by apply stays_refused].
  apply u64_checked_add_Some in En as [-> Hn]. wp_simpl.
  destruct (lease_renewed_record _ e _ t l g now _) as [r|] eqn:Er;
    [|apply wp_refuse; intros er s' Hl; by eapply Hlatch; [| |exact Hl]].
  apply lease_renewed_record_Ok in Er as (lease' & Elease' & Hnow & ->).
  rewrite Elease in Elease'. injection Elease' as <-. bool_to_prop. subst t e l g.
  apply (wp_record_renewal s rs a now lease); try done.
  intros s' Hk Hs' Hc' Hrec Harm'. rewrite Hsafe in Hs'. split_and!; try apply Hk; try done.
  exists rs, a, now, lease. rewrite (proj2 (Z.leb_gt _ _)) by done. by split_and!.
Qed.

(** *** Decisions *)

(** The calls of a fence that succeeded: the group was seen dead after
    [Term], or after [Kill], and no candidate job was left. *)
Definition fence_complete (calls : list Call) : Prop :=
  let wait := CWait (Duration_from_secs 1) (Ok tt) in
  calls = [CSignal Term (Ok tt); wait; CAlive AfterTerm false; CJobs (Ok 0)] \/
  calls = [CSignal Term (Ok tt); wait; CAlive AfterTerm true;
           CSignal Kill (Ok tt); wait; CAlive AfterKill false; CJobs (Ok 0)].

Definition fence_post (w : WdWorld) (o : outcome RpcError unit) (w' : WdWorld) : Prop :=
  w_fs w' = w_fs w /\
  match o with
  | Ret _ => exists fence, fence_complete fence /\ w_calls w' = w_calls w ++ fence
  | Throw er => er = FenceIncomplete
  | Panic => False
  end.

Ltac fence_step :=
  wp_simpl; apply wp_dep_call; wp_simpl; cbn [w_fs w_calls w_tick].

Lemma wp_do_run_fence w : wp do_run_fence (fence_post w) w.
Proof.
  unfold do_run_fence, dep_signal, dep_wait, dep_alive, fence_post.
  fence_step. destruct (pg_signal _ Term) as [[]|]; cbn [map_err]; [|done].
  fence_step. destruct (pg_bounded_wait _ _) as [[]|]; cbn [map_err]; [|done].
  fence_step. destruct (pg_group_alive _ AfterTerm).
  - fence_step. destruct (pg_signal _ Kill) as [[]|]; cbn [map_err]; [|done].
    fence_step. destruct (pg_bounded_wait _ _) as [[]|]; cbn [map_err]; [|done].
    fence_step. destruct (pg_group_alive _ AfterKill); [done|].
    fence_step. destruct (job_candidate_count _) as [jobs|]; cbn [map_err]; [|done].
    wp_simpl. destruct (jobs =? 0) eqn:Ej; [|done]. apply Z.eqb_eq in Ej as ->. cbn [negb].
    split; [done|]. eexists. split; [by right|]. by rewrite <-!app_assoc.
  - fence_step. destruct (job_candidate_count _) as [jobs|]; cbn [map_err]; [|done].
    wp_simpl. destruct (jobs =? 0) eqn:Ej; [|done]. apply Z.eqb_eq in Ej as ->. cbn [negb].
    split; [done|]. eexists. split; [by left|]. by rewrite <-!app_assoc.
Qed.

Lemma wp_log_unreadable (Q : outcome RpcError bool -> CoreW -> Prop) s :
  (forall b w', w_fs w' = w_fs (cw_world s) -> w_calls w' = w_calls (cw_world s) ->
     Q (Ret b) (mkCoreW (cw_core s) w')) ->
  wp log_unreadable Q s.
Proof.
  intros HQ. unfold log_unreadable. wp_simpl. apply wp_path_exists. wp_simpl.
  destruct (match io_fault _ with NoFault => _ | _ => false end); [|by apply HQ].
  wp_simpl. unfold dl_open. wp_simpl. apply wp_path_exists. wp_simpl.
  destruct (negb _); [wp_simpl; by apply HQ|]. wp_simpl. apply wp_fs_read; [|by apply HQ].
  intros bs Hbs. wp_simpl. destruct (read_records bs); by apply HQ.
Qed.

Definition kind_of (verdict : InvariantOutcome) : AuthorityRecordKind :=
  match verdict with InvPass => BeginCommit | InvFail => BeginRevert end.

Definition decision_post (rid t : string) (e : Z) (s : CoreW)
    (o : outcome RpcError LocalResponse) (s' : CoreW) : Prop :=
  match o with
  | Ret resp =>
      kept s s' /\ wc_safe_mode (cw_core s') = false /\
      exists rs a now observed fence verdict,
        durable s rs (Some a) /\ names_authority a t e /\ ra_chosen a = None /\
        wc_last_clock (cw_core s) <= now <= ra_deadline a /\
        (observed = "" \/ observed = ra_base a) /\
        (if ra_lease_expires_at a <=? now then fence_complete fence else fence = []) /\
        resp = AuthorityChosen rid (kind_of verdict) /\
        w_calls (cw_world s') =
          w_calls (cw_world s) ++ [CClock now; CBase observed] ++ fence ++
          [CInvariants (Ok verdict);
           CFileFsync (log_path (store_root s)) (Ok tt);
           CDirFsync (removelast (log_path (store_root s))) (Ok tt)] /\
        (let b := ra_binding a in
         recorded s s' rs
           (decision_record (Z.of_nat (length rs) + 1) e (kind_of verdict)
              (bs_host_id b) t (bs_lease_id b) (bs_worker_group_tag b))) /\
        wc_armed (cw_core s') =
          Some (set_chosen (Some (kind_of verdict)) (armed_of_reconstructed a))
  | Throw _ => stays s s' /\ refused s s'
  | Panic => False
  end.

(** The end of [handle_decision]: the verdict is recorded. *)
Lemma wp_record_decision rid t e k a rs s s1
    (Q : outcome RpcError LocalResponse -> CoreW -> Prop) :
  wd_inv s -> wc_safe_mode (cw_core s) = false -> durable s rs (Some a) ->
  names_authority a t e -> ra_chosen a = None -> k = BeginCommit \/ k = BeginRevert ->
  cw_core s1 = cw_core s -> w_fs (cw_world s1) = w_fs (cw_world s) ->
  (forall s', kept s s' -> wc_safe_mode (cw_core s') = false ->
     recorded s s' rs
       (decision_record (Z.of_nat (length rs) + 1) e k (bs_host_id (ra_binding a))
          t (bs_lease_id (ra_binding a)) (bs_worker_group_tag (ra_binding a))) ->
     w_calls (cw_world s') = w_calls (cw_world s1) ++
       [CFileFsync (log_path (store_root s)) (Ok tt);
        CDirFsync (removelast (log_path (store_root s))) (Ok tt)] ->
     wc_armed (cw_core s') = Some (set_chosen (Some k) (armed_of_reconstructed a)) ->
     Q (Ret (AuthorityChosen rid k)) s') ->
  (forall er s', stays s s' -> refused s s' -> Q (Throw er) s') ->
  wp (sequence ← next_sequence;
      core_append_record
        (decision_record sequence e k (as_host_id (armed_of_reconstructed a)) t
           (as_lease_id (armed_of_reconstructed a))
           (as_worker_group_tag (armed_of_reconstructed a)));;
      modify_core (fun c => set_armed (set_chosen (Some k) <$> wc_armed c) c);;
      mret (AuthorityChosen rid k)) Q s1.
Proof.
  intros Hinv Hsafe Hd [-> ->] Hch Hk Hc Hfs HQ HT.
  pose proof Hinv as (Hok & Hown & _).
  pose proof (durable_some _ _ _ Hd) as [_ Hend].
  pose proof (du_typed _ _ _ Hd) as [Htag He64].
  pose proof (du_epoch _ _ _ Hd) as Hep. cbn in Hep.
  unfold next_sequence. wp_simpl. rewrite Hc, (du_seq _ _ _ Hd).
  destruct (u64_checked_add _ 1) as [n|] eqn:En; cbn [ok_or].
  2: { by apply HT; [apply (proj1 (stays_refused s s1 Hinv Hc Hfs))|left]. }
  apply u64_checked_add_Some in En as [-> Hn]. wp_simpl.
  assert (Hroot : store_root s1 = store_root s) by (unfold store_root; by rewrite Hc).
  assert (Hlog : log_of s1 = log_of s) by (unfold log_of, file_of; by rewrite Hroot, Hfs).
  set (r := decision_record _ _ _ _ _ _ _).
  assert (Hm : may_follow rs r).
  { split; [apply record_ok_decision; try done; unfold is_u64; lia|]. cbn. split_and!; lia. }
  eapply (wp_core_append r s1 rs).
  - rewrite Hlog. exact (du_read _ _ _ Hd).
  - apply Hd.
  - exact Hm.
  - right; by right.
  - rewrite Hroot. intros Hz. apply (durable_live _ _ _ Hinv Hd). unfold epoch_file in *. by rewrite Hfs in Hz.
  - rewrite Hroot, Hlog. intros w2 payload Htouch Hval Hp Hlen Hf Hown2 Hcalls. wp_simpl.
    cbn [cw_core cw_world]. rewrite Hc. change (wc_armed (set_log_seq _ ?c)) with (wc_armed c).
    rewrite (du_armed _ _ _ Hd). cbn [fmap option_fmap option_map].
    set (s2 := mkCoreW _ w2). apply HQ; try done.
    eapply recorded_intro; [exact (du_read _ _ _ Hd)|exact Hm|exact Hval|exact Hp|exact Hlen
      |exact Hf|exact Hok|exact Hown2|by eexists|].
    intros Hread. eexists. eapply (durable_decided s s2 rs a k); try done.
    change (epoch_file (store_root s) (bs_epoch (ra_binding a)) w2).
    apply (epoch_file_elsewhere _ _ _ _ _ (epoch_not_log _) Htouch).
    unfold epoch_file in *. by rewrite Hfs.
  - rewrite Hroot. intros er s2 s' Hc2 Hown2 Hl. rewrite Hc in Hc2.
    destruct (stays_refused_own _ _ _ Hinv Hc2 Hown2 Hl). by apply HT.
Qed.

(** The fence before a late decision: done, or the decision is refused. *)
Lemma wp_maybe_fence (late : bool) s (Q : outcome RpcError unit -> CoreW -> Prop) :
  (forall fence w', (if late then fence_complete fence else fence = []) ->
     w_fs w' = w_fs (cw_world s) -> w_calls w' = w_calls (cw_world s) ++ fence ->
     Q (Ret tt) (mkCoreW (cw_core s) w')) ->
  (forall er s1 s', cw_core s1 = cw_core s -> w_fs (cw_world s1) = w_fs (cw_world s) ->
     latched s1 s' -> Q (Throw er) s') ->
  wp (if late then run_fence else mret tt) Q s.
Proof.
  intros HQ HT. destruct late.
  - unfold run_fence. wp_simpl. pose proof (wp_do_run_fence (cw_world s)) as Hf.
    unfold wp in Hf |- *. destruct (do_run_fence (cw_world s)) as [[[]|er|] w'];
      destruct Hf as [Hfs Hf]; [| |done]; cbn [fst snd] in *.
    + destruct Hf as (fence & ? & ?). by apply (HQ fence).
    + enough (Hgoal : wp (_ ← attempt enter_safe_mode; throw er) Q (mkCoreW (cw_core s) w'))
        by exact Hgoal.
      wp_simpl. apply wp_enter_safe_mode. intros [[]|er'|] s' Hp Hl; [..|done];
        wp_simpl; by eapply HT; [| |exact Hl].
  - wp_simpl. destruct s as [c w]. apply (HQ []); try done. by rewrite app_nil_r.
Qed.

Lemma wp_handle_decision rid t e s :
  wd_inv s -> wc_safe_mode (cw_core s) = false ->
  wp (handle_decision rid t e) (decision_post rid t e s) s.
Proof.
  intros Hinv Hsafe. pose proof Hinv as (_ & _ & Hdur).
  destruct (Hdur Hsafe) as (rs & act & Hd).
  assert (Hlatch : forall er s1 s', cw_core s1 = cw_core s ->
    w_fs (cw_world s1) = w_fs (cw_world s) -> latched s1 s' ->
    decision_post rid t e s (Throw er) s')
    by (intros er s1 s' Hc Hw Hl; by eapply stays_refused_latched).
  unfold handle_decision. wp_simpl. rewrite (du_armed _ _ _ Hd).
  destruct act as [a|]; cbn [fmap option_fmap option_map ok_or]; [|by apply stays_refused].
  wp_simpl. destruct (bool_decide (_ <> t)) eqn:Et; [by apply stays_refused|].
  wp_simpl. destruct (negb (_ =? e)) eqn:Ee; [by apply stays_refused|].
  wp_simpl. destruct (is_some _) eqn:Ec; [by apply stays_refused|].
  unfold is_some in Ec. bool_to_prop.
  cbn [armed_of_reconstructed as_tx_id as_epoch as_chosen] in Et, Ee, Ec.
  assert (Hch : ra_chosen a = None) by (destruct (ra_chosen a); [exfalso; eauto|done]).
  wp_simpl. apply wp_log_unreadable. intros b w1 Hfs1 Hcalls1. wp_simpl.
  destruct b.
  { apply wp_refuse. intros er s' Hl. by eapply Hlatch; [| |exact Hl]. }
  wp_simpl. apply wp_dep_call. set (now := clock_now _).
  wp_simpl. destruct (now <? _) eqn:Eclk; [by apply stays_refused|]. bool_to_prop.
  unfold check_base_unmoved. wp_simpl. apply wp_dep_call. set (observed := base_observed _).
  wp_simpl. destruct (_ && _) eqn:Eb; [by apply stays_refused|].
  assert (Hobs : observed = "" \/ observed = ra_base a).
  { apply andb_false_iff in Eb as [Eb|Eb]; bool_to_prop; [left|by right].
    unfold is_empty in Eb. by bool_to_prop. }
  wp_simpl. apply wp_maybe_fence.
  2: { intros er s1 s' Hc Hw Hl. eapply Hlatch; [exact Hc| |exact Hl]. rewrite Hw. exact Hfs1. }
  cbn [cw_core cw_world w_fs w_calls]. intros fence w2 Hfence Hfs2 Hcalls2. wp_simpl.
  destruct (_ <? now) eqn:Edl;
    [by apply stays_refused; [| |cbn [cw_world]; rewrite Hfs2, Hfs1]|]. bool_to_prop.
  wp_simpl. apply wp_dep_call. wp_simpl. cbn [cw_core cw_world w_fs w_calls w_tick].
  destruct (inv_evaluate _) as [verdict|] eqn:Everdict; cbn [map_err];
    [|by apply stays_refused; [| |cbn [cw_world w_fs]; rewrite Hfs2, Hfs1]].
  wp_simpl. fold (kind_of verdict).
  eapply (proj1 (wp_bind next_sequence _ _ _)).
  eapply (wp_record_decision rid t e (kind_of verdict) a rs s); try done.
  - by destruct verdict; [left|right].
  - cbn [cw_world w_fs]. by rewrite Hfs2, Hfs1.
  - cbn [cw_world w_calls]. intros s' Hst Hsafe' Hread Hcalls Harm.
    split; [done|]. split; [done|]. exists rs, a, now, observed, fence, verdict.
    split_and!; try done.
    rewrite Hcalls, Hcalls2, Hcalls1, <-!app_assoc. done.
Qed.

End Handlers.
