(* ===== verification/WdStartup.v ===== *)
(** * Opening and reopening the watchdog

    What a successful startup holds in memory is what the log on disk
    reconstructs, and a restart recovers the authority the core held.  A
    [reopen] does so whatever fails; an [open] takes a log it cannot look at
    for one that is not there, and is followed where nothing fails. *)

From S2P Require Import Prelude RustStd Json WdTypes WdLog WdLogFacts WdAuthority.
From S2P Require Import WdProtocol WdCore WdStoreFacts WdCoreFacts.

#[local] Opaque record_frame WdLog.crc32 read_records.

Section Startup.
Context `{!RecordCodec} `{!IoEnv} `{!Dependencies} `{!RecordCodecLaws}.

(** No system call of a startup fails: it makes fewer than this many. *)
Definition STARTUP_CALLS : nat := 16.
Definition calm (w : WdWorld) : Prop :=
  forall n, (w_tick w <= n < w_tick w + STARTUP_CALLS)%nat -> io_fault n = NoFault.

(** How a startup is followed: by [reopen] whatever fails, by [open] where
    nothing does. *)
Definition starts_well (is_reopen : bool) (w : WdWorld) : Prop := is_reopen = true \/ calm w.

Lemma file_of_absent p w : fs_exists (w_fs w) p = false -> file_of p w = [].
Proof.
  unfold fs_exists, file_of. intros Hx. apply orb_false_iff in Hx as [Hx _]. bool_to_prop.
  destruct (fs_files (w_fs w) !! p); [exfalso; eauto|done].
Qed.

(** The epochs of a log with one authority. *)
Lemma max_epoch_authority rs a :
  authority_of rs a -> 0 <= bs_epoch (ra_binding a) ->
  max_epoch (mkReader rs) = bs_epoch (ra_binding a).
Proof.
  intros (r0 & ren & ds & -> & _ & _ & _ & Hb & _) He. unfold max_epoch. cbn [dl_records].
  set (l := r0 :: _) in *. assert (Hl : l <> []) by done. clearbody l.
  induction l as [|r l IH]; [done|]. apply Forall_cons in Hb as [Hr Hb].
  apply to_bound_session_epoch in Hr. cbn [fmap list_fmap fold_right]. rewrite <-Hr.
  destruct l as [|r' l]; [cbn; lia|]. rewrite IH by done. lia.
Qed.

Lemma to_bound_session_ok r b :
  record_ok r -> to_bound_session r = Ok b -> tag_ok (bs_worker_group_tag b) /\ is_u64 (bs_epoch b).
Proof.
  intros Hok Hb. unfold to_bound_session in Hb. inv_ok.
  match goal with H : binding_fields _ = _ |- _ => apply binding_fields_Ok in H as (_ & _ & _ & Hg & _) end.
  destruct Hok as (_ & He & Ht & _). rewrite Hg in Ht. done.
Qed.

Lemma durable_reopened root w rs act c :
  read_records (file_of (log_path root) w) = Ok rs -> own_store root w ->
  reconstruct_from None rs = Ok act ->
  cfg_store_root (wc_config c) = root ->
  wc_armed c = armed_of_reconstructed <$> act -> wc_log_seq c = Z.of_nat (length rs) ->
  opt_all (fun a => ra_last_activity a <= wc_last_clock c) act ->
  opt_all (fun a => epoch_file root (max_epoch (mkReader rs)) w) act ->
  durable (mkCoreW c w) rs act.
Proof.
  intros Hr Hown Hc Hroot Harm Hseq Hclk Hep. pose proof (own_records _ _ Hown _ Hr) as Hk.
  pose proof (reconstruct_shape _ _ (read_records_valid _ _ Hr) Hc) as Hs.
  assert (Hb : opt_all (fun a => tag_ok (bs_worker_group_tag (ra_binding a)) /\
    is_u64 (bs_epoch (ra_binding a)) /\ max_epoch (mkReader rs) = bs_epoch (ra_binding a)) act).
  { destruct act as [a|]; [|done]. cbn in *. rewrite carries_all in Hs by done.
    assert (Hb : tag_ok (bs_worker_group_tag (ra_binding a)) /\ is_u64 (bs_epoch (ra_binding a))).
    { apply read_records_in_range in Hr. destruct Hs as (r0 & ren & ds & -> & _ & _ & _ & Hb & _).
      apply Forall_inv in Hb, Hr. by eapply to_bound_session_ok. }
    destruct Hb as [? He]. split_and!; [done|done|]. apply max_epoch_authority; [done|apply He]. }
  assert (Hr' : store_root (mkCoreW c w) = root) by done.
  split; rewrite ?Hr'; try done; [unfold log_of; by rewrite Hr'|..];
    destruct act as [a|]; try done; destruct Hb as (? & ? & Hm).
  - cbn in Hep |- *. by rewrite <-Hm.
  - by split.
Qed.

(** What a startup that succeeds holds: the authority the log records. *)
Definition startup_post (config : CoreConfig) (w : WdWorld)
    (o : outcome WatchdogError WatchdogCore) (w' : WdWorld) : Prop :=
  match o with
  | Ret c =>
      wc_config c = config /\ wc_safe_mode c = false /\
      file_of (log_path (cfg_store_root config)) w' =
        file_of (log_path (cfg_store_root config)) w /\
      own_store (cfg_store_root config) w' /\
      exists rs act, durable (mkCoreW c w') rs act /\
        wc_durable_binding c = ra_binding <$> act /\
        wc_last_clock c = from_option ra_last_activity UNIX_EPOCH act
  | Throw _ => True
  | Panic => False
  end.

(** What is seen of a path: nothing, when the call fails. *)
Definition seen (p : Path) (w : WdWorld) : bool :=
  match io_fault (w_tick w) with NoFault => fs_exists (w_fs w) p | _ => false end.

Lemma wp_path_seen {E} p (Q : outcome E bool -> WdWorld -> Prop) w :
  wp (path_exists p) Q w <-> Q (Ret (seen p w)) (w_set_fs (w_fs w) w).
Proof. by rewrite wp_path_exists. Qed.

Lemma log_dir_parent root : path_parent (path_join root SAFE_MODE_REL) = Some (path_join root ["state"]).
Proof. apply parent_of. Qed.

(** The branch of an unwritable store never succeeds. *)
Lemma wp_topology_check config r (Q : outcome WatchdogError unit -> WdWorld -> Prop) w :
  (r = Ok tt -> Q (Ret tt) w) -> (forall e w', Q (Throw e) w') ->
  let marker := path_join (cfg_store_root config) SAFE_MODE_REL in
  wp (match r with
      | Err UnavailableStore => throw (WTopology UnavailableStore)
      | Err Unwritable =>
          match path_parent marker with
          | Some parent => _ ← attempt (create_dir_all parent); mret tt
          | None => mret tt
          end;;
          mapping_err (fun _ => WSafeModePersistUnavailable)
            (atomic_rename (path_join (cfg_store_root config) [".tmp-safe"]) marker);;
          throw (WTopology Unwritable)
      | Err e => throw (WTopology e)
      | Ok _ => mret tt
      end) Q w.
Proof.
  intros HQ HT marker. unfold marker. rewrite log_dir_parent.
  destruct r as [[]|[]]; try (by apply HT); [by apply HQ|].
  wp_simpl. eapply wp_touches; [apply (touches_create_dir_all (fun _ => True))|].
  intros [a|e|] w1 _ Hp; [..|done]; wp_simpl;
    (eapply wp_touches; [by apply (touches_atomic_rename (fun _ => True))|]);
    intros [b|e'|] w2 _ Hp2; try done; wp_simpl; apply HT.
Qed.

(** What startup knows of the log once it has looked: its records, or - in a
    [reopen] - nothing, when it could not see it. *)
Definition looked (root : Path) (ro : bool) (w : WdWorld) (d : option DecisionLogReader) : Prop :=
  let rs := from_option dl_records [] d in
  read_records (file_of (log_path root) w) = Ok rs \/ (ro = true /\ rs = []).

(** Unseen, it is not there, or anything may be the case. *)
Lemma unseen_looked root ro w0 w d :
  starts_well ro w0 -> (w_tick w0 <= w_tick w < w_tick w0 + STARTUP_CALLS)%nat ->
  seen (log_path root) w = false -> from_option dl_records [] d = [] -> looked root ro w d.
Proof.
  intros Hc Hn Hx Hd. unfold looked. rewrite Hd. destruct Hc as [Hc|Hc]; [by right|left].
  unfold seen in Hx. rewrite Hc in Hx by done. by rewrite file_of_absent.
Qed.

(** Reading the log at startup, and what follows. *)
Lemma wp_read_log {B} root ro w0 (f : option DecisionLogReader -> M WdWorld WatchdogError B)
    (Q : outcome WatchdogError B -> WdWorld -> Prop) w :
  starts_well ro w0 -> (w_tick w0 <= w_tick w < w_tick w0 + 10)%nat ->
  (forall d w', looked root ro w d -> w_fs w' = w_fs w -> wp (f d) Q w') ->
  (forall e w', Q (Throw e) w') ->
  wp (log_there ← path_exists (log_path root);
      d ← (if log_there : bool
           then d ← mapping_err (fun _ => WSafeModeActive) (dl_open (log_path root));
                mret (Some d)
           else mret None);
      f d) Q w.
Proof.
  intros Hc Hn HQ HT. wp_simpl. rewrite wp_path_seen. wp_simpl.
  destruct (seen (log_path root) w) eqn:Hx.
  - wp_simpl. unfold dl_open. wp_simpl. rewrite wp_path_seen. wp_simpl.
    destruct (seen (log_path root) (w_set_fs (w_fs w) w)) eqn:Hx'; cbn [negb].
    + wp_simpl. apply wp_fs_read; [|apply HT].
      intros bs Hbs. wp_simpl. destruct (read_records bs) as [rs|] eqn:Hr; [|by apply HT].
      cbn [fmap result_fmap]. wp_simpl. apply HQ; [|done]. left.
      unfold file_of. cbn [w_fs w_set_fs] in Hbs. by rewrite Hbs.
    + wp_simpl. apply HQ; [|done].
      change (looked root ro (w_set_fs (w_fs w) w) (Some {| dl_records := [] |})).
      eapply unseen_looked; [exact Hc|cbn; unfold STARTUP_CALLS; lia|exact Hx'|done].
  - wp_simpl. apply (HQ None); [|done].
    eapply unseen_looked; [exact Hc|unfold STARTUP_CALLS; lia|exact Hx|done].
Qed.

(** The epoch file of a log with authority agrees with the log. *)
Definition epoch_agrees (root : Path) (rs : list AuthorityRecord) (w : WdWorld) : Prop :=
  rs = [] \/ epoch_file root (max_epoch (mkReader rs)) w.

Lemma wp_crosscheck root floor (ro : bool) rs (Q : outcome WatchdogError unit -> WdWorld -> Prop) w :
  let n := length rs in
  own_store root w -> (ro = false -> rs = [] -> file_of (log_path root) w = []) ->
  (forall w', file_of (log_path root) w' = file_of (log_path root) w -> own_store root w' ->
     epoch_agrees root rs w' -> (ro = true -> rs = [] -> epoch_file root 0 w') -> Q (Ret tt) w') ->
  (forall e w', Q (Throw e) w') ->
  let epoch_path := path_join root EPOCH_HIGH_WATER_REL in
  wp (if ro || (0 <? n)%nat then
        file_epoch ← read_epoch_file epoch_path;
        throw_if (file_epoch <? floor) WSafeModeActive;;
        throw_if ((0 <? n)%nat && negb (file_epoch =? max_epoch (mkReader rs))) WEpochLogMismatch;;
        throw_if ((0 <? file_epoch) && Nat.eqb n 0) WEpochLogMismatch
      else
        epoch_there ← path_exists epoch_path;
        if epoch_there : bool then
          file_epoch ← read_epoch_file epoch_path;
          throw_if (file_epoch <? floor) WSafeModeActive
        else
          match path_parent epoch_path with
          | Some parent =>
              mapping_err (fun _ => WDurability (DurIo "io")) (create_dir_all parent)
          | None => mret tt
          end;;
          write_epoch_file epoch_path 0) Q w.
Proof.
  intros n Hown Hempty HQ HT epoch_path. unfold epoch_path.
  assert (Hsame : forall k, own_store root (mkWorld (w_fs w) k (w_calls w))).
  { intros k. eapply own_store_quiet; [|exact Hown]. by apply only_touches_same_fs. }
  destruct (ro || _) eqn:Hx.
  - wp_simpl. apply wp_read_epoch_file; [|apply HT]. intros e He. wp_simpl.
    destruct (e <? floor); [apply HT|]. wp_simpl.
    destruct ((0 <? n)%nat && negb (e =? max_epoch (mkReader rs))) eqn:Hm; [apply HT|]. wp_simpl.
    destruct ((0 <? e) && _) eqn:Hz; [apply HT|]. apply HQ; [done|apply Hsame| |].
    + destruct rs as [|r rs]; [by left|right].
      apply andb_false_iff in Hm as [Hm|Hm]; [done|]. bool_to_prop. by subst e.
    + intros _ ->. pose proof (epoch_file_range _ _ _ He) as [? _].
      apply andb_false_iff in Hz as [Hz|Hz]; [|done]. bool_to_prop.
      assert (e = 0) as -> by lia. exact He.
  - apply orb_false_iff in Hx as [-> Hx]. assert (rs = []) as -> by (by destruct rs).
    specialize (Hempty eq_refl eq_refl).
    assert (Ht : touches (in_dir root "epoch") (write_epoch_file (path_join root EPOCH_HIGH_WATER_REL) 0)).
    { assert (Hleaf : in_dir root "epoch" (path_join root EPOCH_HIGH_WATER_REL))
        by apply in_dir_leaf.
      unfold write_epoch_file, fs_write. rewrite epoch_parent. touches_tac. }
    assert (Hlog : forall w', only_touches (in_dir root "epoch") w w' ->
              file_of (log_path root) w' = file_of (log_path root) w /\ own_store root w').
    { intros w' Hw. assert (Hl : file_of (log_path root) w' = file_of (log_path root) w)
        by (eapply log_elsewhere; [|exact Hw]; by apply log_not_in_dir).
      split; [done|]. split; rewrite Hl, Hempty; [|done]. by intros rs [= <-]. }
    wp_simpl. rewrite wp_path_seen. wp_simpl. destruct (seen _ w).
    + wp_simpl. apply wp_read_epoch_file; [|apply HT]. intros e He. wp_simpl.
      destruct (e <? floor); [apply HT|]. by apply HQ; [|apply Hsame|left|].
    + rewrite epoch_parent. wp_simpl.
      eapply wp_touches; [apply (touches_create_dir_all (fun _ => False))|].
      intros [a|e|] w1 Hw1 Hp; [|apply HT|done]. wp_simpl.
      eapply wp_touches; [exact Ht|]. intros [[]|e|] w2 Hw2 Hp2; [|apply HT|done].
      destruct (Hlog w2) as [Hl Ho]; [|by apply HQ; [| |left|]].
      etrans; [|exact Hw2]. by apply only_touches_none.
Qed.

Lemma reopen_state_Ok ro rs d x :
  rs = from_option dl_records [] d ->
  reopen_state (ro || (0 <? length rs)%nat) d = Ok x ->
  exists act, reconstruct_from None rs = Ok act /\
    x = (ra_binding <$> act, armed_of_reconstructed <$> act,
         from_option ra_last_activity UNIX_EPOCH act).
Proof.
  intros -> Hx. unfold reopen_state in Hx. destruct d as [[rs]|]; cbn [from_option dl_records] in *.
  - destruct (ro || _) eqn:Hro.
    + unfold reconstruct_active_authority in Hx. cbn [dl_records] in Hx.
      destruct (reconstruct_from None rs) as [act|]; [|done]. exists act.
      split; [done|]. cbn in Hx. injection Hx as <-. by destruct act.
    + apply orb_false_iff in Hro as [_ Hro]. assert (rs = []) as -> by (by destruct rs).
      injection Hx as <-. by exists None.
  - exists None. split; [done|]. by destruct (ro || _); injection Hx as <-.
Qed.

Lemma wp_startup config ro w :
  starts_well ro w -> own_store (cfg_store_root config) w ->
  wp (startup config ro) (startup_post config w) w.
Proof.
  intros Hwell Hown. unfold startup. set (root := cfg_store_root config) in *.
  rewrite wp_bind. rewrite wp_path_seen.
  wp_simpl. destruct (seen _ w); [done|]. wp_simpl. apply wp_dep_call.
  wp_simpl. apply wp_topology_check; [|done]. intros Htopo. wp_simpl.
  fold (log_path root).
  apply (proj1 (wp_bind (path_exists (log_path root)) _ _ _)).
  eapply (wp_read_log root ro w); [exact Hwell|cbn; lia| |done].
  intros d w1 Hd Hfs. change (looked root ro w d) in Hd. change (w_fs w1 = w_fs w) in Hfs.
  set (rs := from_option dl_records [] d).
  assert (Hn : from_option record_count 0%nat d = length rs /\
               from_option max_epoch 0 d = max_epoch (mkReader rs)) by (by destruct d as [[]|]).
  destruct Hn as [-> ->].
  wp_simpl. apply wp_dep_call. wp_simpl.
  destruct (floor_read_epoch (w_tick w1)) as [floor|]; [|done]. wp_simpl.
  set (w1' := mkWorld _ _ _). assert (Hsame : only_touches (fun _ => False) w w1').
  { apply only_touches_same_fs. exact Hfs. }
  assert (Hlog1 : file_of (log_path root) w1' = file_of (log_path root) w)
    by (by apply (log_elsewhere (fun _ => False)); [tauto|]).
  apply wp_crosscheck; [by eapply own_store_quiet| | |done].
  { intros -> Hnil. rewrite Hlog1. destruct Hd as [Hd|[? _]]; [|done]. fold rs in Hd.
    rewrite Hnil in Hd. by apply read_records_nil. }
  intros w2 Hlog Hown2 Hep Hzero. wp_simpl. rewrite Hlog1 in Hlog.
  destruct (reopen_state _ d) as [[[binding armed] clock]|] eqn:Hst; [|done].
  apply reopen_state_Ok in Hst as (act & Hrec & [= -> -> ->]); [|done]. wp_simpl.
  assert (Hread : read_records (file_of (log_path root) w2) = Ok rs).
  { rewrite Hlog. destruct Hd as [Hd|[Hro Hnil]]; [exact Hd|]. fold rs in Hnil. rewrite Hnil.
    assert (Hempty : file_of (log_path root) w = []); [|by rewrite Hempty]. rewrite <-Hlog.
    destruct (file_of (log_path root) w2) eqn:E; [done|]. exfalso.
    apply (own_epoch _ _ Hown2); [by rewrite E|by apply Hzero]. }
  split_and!; [done|done|done|done|]. exists rs, act. split_and!; [|done|done].
  apply (durable_reopened root); try done.
  - destruct act; cbn; [lia|done].
  - destruct act as [a|]; [|done]. cbn. destruct Hep as [Hnil | Hep]; [|done].
    rewrite Hnil in Hrec. discriminate Hrec.
Qed.
End Startup.
