(* ===== verification/WdHistory.v ===== *)
(** * The decision log only grows

    No request of the watchdog, whatever fails in it, removes or rewrites a
    byte of the decision log, disarms what is armed or changes what is bound:
    what a later state reads is an extension of what an earlier one read. *)

From S2P Require Import Prelude RustStd Json WdTypes WdLog WdLogFacts WdAuthority.
From S2P Require Import WdProtocol WdCore WdStoreFacts WdCoreFacts.

#[local] Opaque record_frame WdLog.crc32 read_records.

(** ** Steps that extend the log *)

(** [still]: the epoch file is left alone, too. *)
Record extends (still : bool) (s s' : CoreW) : Prop := {
  ex_kept : kept s s';
  ex_armed : is_Some (wc_armed (cw_core s)) -> is_Some (wc_armed (cw_core s'));
  ex_log : log_of s `prefix_of` log_of s';
  ex_epoch : still = true ->
    let p := path_join (store_root s) EPOCH_HIGH_WATER_REL in
    fs_files (w_fs (cw_world s')) !! p = fs_files (w_fs (cw_world s)) !! p;
}.

Lemma kept_root s s' : kept s s' -> store_root s' = store_root s.
Proof. intros [Hc _]. unfold store_root. by rewrite Hc. Qed.

#[export] Instance kept_refl : Reflexive kept.
Proof. by intros s. Qed.
#[export] Instance kept_trans : Transitive kept.
Proof. intros s1 s2 s3 [Hc Hb] [Hc' Hb']. split; congruence. Qed.

#[export] Instance extends_refl still : Reflexive (extends still).
Proof. intros s. by split. Qed.
#[export] Instance extends_trans still : Transitive (extends still).
Proof.
  intros s1 s2 s3 [Hk H1 Hl He] [Hk' H1' Hl' He']. split; [by etrans|auto|by etrans|].
  intros Hs. specialize (He Hs). specialize (He' Hs). rewrite (kept_root _ _ Hk) in He'.
  cbv zeta in *. congruence.
Qed.

(** Whatever [m] answers, it extended the log. *)
Definition logs {E A} (still : bool) (m : M CoreW E A) : Prop :=
  forall s, extends still s (snd (m s)).

Lemma extends_world still s P w' :
  ~ P (log_path (store_root s)) ->
  (still = true -> ~ P (path_join (store_root s) EPOCH_HIGH_WATER_REL)) ->
  only_touches P (cw_world s) w' -> extends still s (mkCoreW (cw_core s) w').
Proof.
  intros HP He Hw. split; [done|done| |].
  - unfold log_of, store_root in *. cbn. unfold file_of. by rewrite Hw.
  - intros Hs p. cbn. apply Hw. by apply He.
Qed.

Lemma extends_latched still s s1 s' :
  extends still s s1 -> cw_core s' = set_safe_mode true (cw_core s1) ->
  only_touches (in_dir (store_root s1) "state") (cw_world s1) (cw_world s') -> extends still s s'.
Proof.
  intros H1 Hc Hw. etrans; [exact H1|]. split.
  - split; by rewrite Hc.
  - by rewrite Hc.
  - unfold log_of, store_root in *. rewrite Hc. cbn [wc_config set_safe_mode]. unfold file_of.
    rewrite Hw; [done|]. by apply log_not_in_dir.
  - intros _ p. apply Hw. by apply epoch_not_in_dir.
Qed.

Section Logs.
Context {E F A B : Type} (still : bool).

Lemma logs_ret (a : A) : logs still (mret a : M CoreW E A).
Proof. by intros s. Qed.
Lemma logs_throw (e : E) : logs still (throw e : M CoreW E A).
Proof. by intros s. Qed.
Lemma logs_panic : logs still (panic : M CoreW E A).
Proof. by intros s. Qed.
Lemma logs_of_result (r : result E A) : logs still (of_result r).
Proof. intros s. by destruct r. Qed.
Lemma logs_throw_if b (e : E) : logs still (throw_if b e).
Proof. intros s. by destruct b. Qed.
Lemma logs_get_core : logs still (get_core : M CoreW E _).
Proof. by intros s. Qed.
Lemma logs_modify_core f :
  (forall c, wc_config (f c) = wc_config c /\ wc_durable_binding (f c) = wc_durable_binding c /\
             (is_Some (wc_armed c) -> is_Some (wc_armed (f c)))) ->
  logs still (modify_core f : M CoreW E unit).
Proof.
  intros Hf s. destruct (Hf (cw_core s)) as (Hc & Hb & Ha). unfold modify_core, modify. cbn [snd].
  split; [by split|done| |done]. unfold log_of, store_root. cbn [cw_core cw_world]. by rewrite Hc.
Qed.

Lemma logs_bind (m : M CoreW E A) (f : A -> M CoreW E B) :
  logs still m -> (forall a, logs still (f a)) -> logs still (m ≫= f).
Proof.
  intros Hm Hf s. unfold mbind, M_bind. specialize (Hm s).
  destruct (m s) as [[a|e|] s']; cbn in *; [|done|done]. etrans; [exact Hm|apply Hf].
Qed.

Lemma logs_attempt (m : M CoreW E A) : logs still m -> logs still (attempt m : M CoreW F _).
Proof. intros Hm s. unfold attempt. specialize (Hm s). by destruct (m s) as [[] s']. Qed.

(** A step of the world that leaves every file of the store alone. *)
Lemma logs_in_world (m : M WdWorld E A) :
  touches (fun _ => False) m -> logs still (in_world m).
Proof.
  intros Hm s. unfold in_world, zoom. specialize (Hm (cw_world s)) as [Hm _].
  destruct (m (cw_world s)) as [o w']. apply (extends_world still s (fun _ => False)); [tauto|tauto|exact Hm].
Qed.
End Logs.

Create HintDb logs.
#[export] Hint Resolve logs_ret logs_throw logs_panic logs_of_result logs_throw_if logs_get_core
  logs_attempt : logs.
#[export] Hint Extern 2 (logs _ (modify_core _)) =>
  apply logs_modify_core; intros []; split_and!; [done|done|cbn; intros [? ->]; by eexists] : logs.
#[export] Hint Extern 2 (logs _ (in_world _)) => apply logs_in_world; touches_tac : logs.
#[export] Hint Extern 1 (logs _ (if ?b then _ else _)) => destruct b : logs.
#[export] Hint Extern 1 (logs _ (match ?x with _ => _ end)) => destruct x : logs.
#[export] Hint Extern 2 (logs _ (_ ≫= _)) => apply logs_bind; [|intros ?] : logs.

Ltac logs_tac :=
  repeat match goal with
    | |- logs _ (_ ≫= _) => apply logs_bind; [solve [eauto 20 with logs]|intros ?]
    | |- logs _ (let '(_, _) := ?x in _) => destruct x
    end; eauto 20 with logs.

Section Handlers.
Context `{JsonNumber} `{!RecordCodec} `{!IoEnv} `{!Dependencies} (still : bool).

(** From a [wp] about the final state. *)
Lemma logs_wp {E A} (m : M CoreW E A) : (forall s, wp m (fun _ => extends still s) s) -> logs still m.
Proof. intros Hm s. apply Hm. Qed.

Lemma logs_at {E A} (m : M CoreW E A) s : logs still m -> wp m (fun _ => extends still s) s.
Proof. intros Hm. apply Hm. Qed.

Lemma logs_enter_safe_mode : logs still enter_safe_mode.
Proof.
  apply logs_wp. intros s. unfold enter_safe_mode. wp_simpl.
  eapply wp_touches; [apply touches_persist|]. intros o w' Hw _. by eapply extends_latched.
Qed.

Lemma logs_latch : logs still latch_safe_mode_best_effort.
Proof.
  apply logs_wp. intros s. unfold latch_safe_mode_best_effort. wp_simpl.
  eapply wp_touches; [apply touches_persist|].
  intros [a|e|] w' Hw _; wp_simpl; by eapply extends_latched.
Qed.

Lemma logs_refuse {A} : logs still (refuse_into_safe_mode : M CoreW RpcError A).
Proof. unfold refuse_into_safe_mode. apply logs_bind; [apply logs_enter_safe_mode|]. logs_tac. Qed.

End Handlers.
#[export] Hint Resolve logs_enter_safe_mode logs_latch logs_refuse : logs.

Section Requests.
Context `{JsonNumber} `{!RecordCodec} `{!IoEnv} `{!Dependencies} (still : bool).

Lemma logs_store_path rel : logs still (store_path rel).
Proof. unfold store_path. logs_tac. Qed.
Hint Resolve logs_store_path : logs.

Lemma logs_read_durable_epoch : logs still read_durable_epoch_strict.
Proof. unfold read_durable_epoch_strict. logs_tac. Qed.

Lemma logs_checked_successor hw : logs still (checked_epoch_successor hw).
Proof. unfold checked_epoch_successor. logs_tac. Qed.

(** The one operation that writes the log writes at its end. *)
Lemma logs_core_append r : logs still (core_append_record r).
Proof.
  apply logs_wp. intros s. unfold core_append_record. wp_simpl.
  set (p := path_join (store_root s) DECISION_LOG_REL).
  apply (wp_mono _ (fun o w' => append_post p r (cw_world s) o w' /\ only_touches (eq p) (cw_world s) w')).
  { split; [apply wp_append_record|apply touches_append_record]. }
  assert (Hend : forall w' l, only_touches (eq p) (cw_world s) w' ->
            file_of p w' = file_of p (cw_world s) ++ l -> extends still s (mkCoreW (cw_core s) w')).
  { intros w' l Hw Hl. split; [done|done|by exists l|]. intros _ q. apply Hw. apply epoch_not_log. }
  intros [[]|e|] w' [Hpost Hw]; [| |done]; wp_simpl.
  - destruct Hpost as (payload & _ & _ & _ & Hl & _).
    destruct (Hend w' _ Hw Hl) as [Hk Ha Hx He]. by split.
  - eapply wp_mono; [apply logs_at, (logs_latch still)|]. intros o s' Hs'.
    assert (Hx : extends still s (mkCoreW (cw_core s) w')).
    { destruct Hpost as [Hl|(payload & k & _ & _ & _ & Hl)]; [|by eapply Hend].
      apply (Hend w' []); [done|]. by rewrite app_nil_r. }
    destruct o; wp_simpl; by etrans.
Qed.

(** Renewals and decisions leave the epoch file alone. *)
Hint Resolve logs_read_durable_epoch logs_checked_successor logs_core_append : logs.
Lemma logs_handle_renewal t e l g : logs still (handle_lease_renewal t e l g).
Proof. unfold handle_lease_renewal, next_sequence. logs_tac. Qed.

Lemma logs_handle_decision rid t e : logs still (handle_decision rid t e).
Proof.
  unfold handle_decision, log_unreadable, check_base_unmoved, run_fence, next_sequence. logs_tac.
Qed.
End Requests.
#[export] Hint Resolve logs_store_path logs_read_durable_epoch logs_checked_successor
  logs_core_append logs_handle_renewal logs_handle_decision : logs.

Section Arming.
Context `{JsonNumber} `{!RecordCodec} `{!IoEnv} `{!Dependencies}.

(** A step of the world that stays in one directory of the store. *)
Lemma extends_in_dir s s1 w' d :
  extends false s s1 -> d <> "decisions" ->
  only_touches (in_dir (store_root s1) d) (cw_world s1) w' ->
  extends false s (mkCoreW (cw_core s1) w').
Proof.
  intros Hx Hd Hw. etrans; [exact Hx|]. eapply extends_world; [|done|exact Hw].
  by apply log_not_in_dir.
Qed.

(** A step of the world on the way, of which the footprint is known. *)
Lemma wp_extends_step {E A} (m : M WdWorld E A) P d (Q : outcome E A -> CoreW -> Prop) s s1 :
  touches P m -> (forall p, P p -> in_dir (store_root s1) d p) -> d <> "decisions" ->
  extends false s s1 ->
  (forall o w', extends false s (mkCoreW (cw_core s1) w') -> Q o (mkCoreW (cw_core s1) w')) ->
  wp (in_world m) Q s1.
Proof.
  intros Hm HP Hd Hx HQ. rewrite wp_in_world. eapply wp_touches; [exact Hm|].
  intros o w' Hw _. apply HQ. eapply extends_in_dir; [exact Hx|exact Hd|].
  eapply only_touches_mono; [exact HP|exact Hw].
Qed.

Lemma wp_and {E A} (m : M CoreW E A) (Q R : outcome E A -> CoreW -> Prop) s :
  wp m Q s -> wp m R s -> wp m (fun o s' => Q o s' /\ R o s') s.
Proof. by split. Qed.

Lemma wp_extends_end {E A} (m : M CoreW E A) s s1 :
  logs false m -> extends false s s1 -> wp m (fun _ => extends false s) s1.
Proof. intros Hm Hx. eapply wp_mono; [by apply logs_at|]. intros o s' Hs. by etrans. Qed.

Lemma wp_refuse_extends {A} s s1 (Q : outcome RpcError A -> CoreW -> Prop) :
  extends false s s1 -> (forall e s', extends false s s' -> Q (Throw e) s') -> wp refuse_into_safe_mode Q s1.
Proof.
  intros Hx HQ. eapply wp_mono; [apply wp_and; [apply (wp_extends_end _ s); [logs_tac|exact Hx]|
    apply (wp_refuse (fun o _ => exists e, o = Throw e)); by eexists]|].
  intros o s' [Hs' [e ->]]. by apply HQ.
Qed.

(** One attempted call of [advance_epoch], inside the epoch directory. *)
Ltac epoch_step P Hx touch :=
  rewrite wp_bind, wp_attempt;
  eapply (wp_extends_step _ P "epoch"); [touch|done|done|exact Hx|]; clear Hx.

Lemma logs_advance_epoch : logs false advance_epoch.
Proof.
  unfold advance_epoch. apply logs_wp. intros s. rewrite wp_bind, wp_store_path. cbn beta iota.
  set (root := store_root s). rewrite epoch_parent. cbn [ok_or]. rewrite bind_of_Ok, wp_bind.
  assert (Hinto : forall p, in_dir root "epoch" p -> in_dir root "epoch" p) by done.
  assert (Hnone : forall p, False -> in_dir root "epoch" p) by done.
  assert (Hleaf : in_dir root "epoch" (path_join root EPOCH_HIGH_WATER_REL)) by apply in_dir_leaf.
  assert (Hleave : forall s1 e, extends false s s1 ->
    wp (latch_safe_mode_best_effort;; throw (E := RpcError) (A := unit) e) (fun _ => extends false s) s1)
    by (intros s1 e Hx; apply wp_extends_end; [logs_tac|exact Hx]).
  assert (Hrefuse : forall s1, extends false s s1 ->
    wp (refuse_into_safe_mode : M CoreW RpcError unit) (fun _ => extends false s) s1)
    by (intros s1 Hx; apply wp_extends_end; [logs_tac|exact Hx]).
  eapply (wp_extends_step _ (fun _ => False) "epoch"); [apply touches_residue|done|done|reflexivity|].
  intros [b|e|] w1 Hx; [|exact Hx|exact Hx]. destruct b; [by apply Hrefuse|].
  epoch_step (fun _ : Path => False) Hx ltac:(apply touches_create_dir_all).
  intros [u|e|] w2 Hx; cbn [is_ok negb]; [|by apply Hrefuse|exact Hx].
  rewrite wp_bind. eapply wp_mono; [apply wp_and; [apply logs_at, logs_read_durable_epoch|
    apply (wp_read_durable_epoch (fun o s' => match o with
             Ret _ => cw_core s' = cw_core s | _ => True end)); by intros]|].
  intros o s3 [Hx3 Hc]. apply (extends_trans _ _ _ _ Hx) in Hx3.
  destruct o as [hw|e|]; [|exact Hx3|exact Hx3]. clear Hx w1 w2.
  rewrite wp_bind. unfold checked_epoch_successor.
  destruct (u64_checked_add hw 1) as [n|]; [rewrite wp_ret|].
  2: { eapply wp_refuse_extends; [exact Hx3|done]. }
  destruct s3 as [c3 w3]; cbn [cw_core] in Hc; subst c3.
  rewrite wp_bind, wp_in_world. apply wp_temp_path. intros x w4 Hw4. cbn beta iota.
  assert (Hx4 : extends false s (mkCoreW (cw_core s) w4)).
  { apply (extends_in_dir s (mkCoreW (cw_core s) w3) w4 "epoch"); [exact Hx3|done|]. by apply only_touches_same_fs. }
  set (tmp := path_join _ [x]). assert (Htmp : in_dir root "epoch" tmp) by apply in_dir_join.
  clear Hx3. epoch_step (in_dir root "epoch") Hx4 ltac:(by apply touches_write_exclusive).
  intros [u1|e|] w5 Hx; cbn [is_ok negb]; [|by apply Hrefuse|exact Hx].
  epoch_step (fun _ : Path => False) Hx ltac:(apply touches_file_fsync).
  intros [u2|e|] w6 Hx; [|by apply Hleave|exact Hx].
  epoch_step (in_dir root "epoch") Hx ltac:(by apply touches_durable_atomic_rename).
  intros [u3|e|] w7 Hx; cbn [is_ok negb]; [|by apply Hrefuse|exact Hx].
  epoch_step (fun _ : Path => False) Hx ltac:(apply touches_dir_fsync).
  intros [u4|e|] w8 Hx; [|by apply Hleave|exact Hx].
  epoch_step (fun _ : Path => False) Hx ltac:(apply touches_readback).
  intros [u5|e|] w9 Hx; cbn [is_ok negb]; [exact Hx|by apply Hrefuse|exact Hx].
Qed.
Hint Resolve logs_advance_epoch : logs.

Lemma logs_handle_arm rid h t e base deadline mand add :
  logs false (handle_arm rid h t e base deadline mand add).
Proof. unfold handle_arm, check_base_unmoved, bound_epoch, next_sequence. logs_tac. Qed.

Hint Resolve logs_handle_arm : logs.

Lemma logs_dispatch r : logs false (dispatch_request r).
Proof. destruct r; cbn [dispatch_request]; unfold deadline_of, require_armed_tx; logs_tac. Qed.
Hint Resolve logs_dispatch : logs.

Lemma logs_handle_request v ses : logs false (handle_request v ses).
Proof. unfold handle_request, ensure_not_safe_mode. logs_tac. Qed.

End Arming.

(** What reads from a log reads from its extensions first. *)
Lemma read_records_prefix `{!RecordCodec} bs bs' rs rs' :
  bs `prefix_of` bs' -> read_records bs = Ok rs -> read_records bs' = Ok rs' -> rs `prefix_of` rs'.
Proof.
  intros [more ->] Hr Hr'. with_strategy transparent [read_records] (unfold read_records in Hr, Hr').
  eapply (read_loop_app _ (length (bs ++ more)) _ more) in Hr as (new & -> & Heq); [|done|done].
  rewrite Heq in Hr'. apply read_loop_Ok in Hr' as (ps & new' & _ & -> & _); [|rewrite length_app; lia].
  by exists new'.
Qed.
