(* ===== verification/WdSystem.v ===== *)
(** * The watchdog as a transition system

    Sessions are bound, their requests decoded and handled, and the process
    may be restarted at any point between two steps.  Rule induction over the
    steps gives what holds in every reachable state: it is [settled], or its
    log was [bricked] by a record the reader does not take. *)

From stdpp Require Import relations.
From S2P Require Import Prelude RustStd Json WdTypes WdLog WdLogFacts WdAuthority.
From S2P Require Import WdProtocol WdProtocolFacts WdCore WdStoreFacts WdCoreFacts WdStartup.
From S2P Require Import WdHistory.

#[local] Opaque record_frame WdLog.crc32 read_records.

(** ** Who is bound *)

Definition armed_binding (a : ArmedState) : BoundSession :=
  mkBound (as_host_id a) (as_tx_id a) (as_epoch a) (as_lease_id a) (as_worker_group_tag a).

(** What is armed is what was bound. *)
Definition armed_bound (c : WatchdogCore) : Prop :=
  opt_all (fun a => wc_durable_binding c = Some (armed_binding a)) (wc_armed c).

(** The session speaks for the durable binding. *)
Definition session_bound (c : WatchdogCore) (ses : SessionState) : Prop :=
  exists est b, ss_established ses = Some est /\ wc_durable_binding c = Some b /\
    (se_host_id est, se_tx_id est, se_epoch est) = (bs_host_id b, bs_tx_id b, bs_epoch b).

Definition request_bound (c : WatchdogCore) (r : LocalRequest) : Prop :=
  exists b, wc_durable_binding c = Some b /\
    binding_identity r = (bs_host_id b, bs_tx_id b, bs_epoch b).

Lemma refused_fields s s' :
  refused s s' -> wc_armed (cw_core s') = wc_armed (cw_core s) /\
    wc_durable_binding (cw_core s') = wc_durable_binding (cw_core s) /\
    wc_config (cw_core s') = wc_config (cw_core s).
Proof. intros [-> | ->]; done. Qed.

(** Unless the log is past reading: the invariant, and what is armed is what
    was bound. *)
Definition settled `{!RecordCodec} (s : CoreW) : Prop := wd_inv s /\ armed_bound (cw_core s).
Definition settled_or_bricked `{!RecordCodec} (s : CoreW) : Prop := settled s \/ bricked s.

Section Bound.
Context `{JsonNumber} `{!WireCodec}.
Context `{!RecordCodec} `{!IoEnv} `{!Dependencies}.
Context `{!RecordCodecLaws} `{!HonestReadback}.

Lemma armed_bound_refused s s' :
  armed_bound (cw_core s) -> refused s s' -> armed_bound (cw_core s').
Proof. intros Ha (Harm & Hb & _)%refused_fields. unfold armed_bound. by rewrite Harm, Hb. Qed.

(** A renewal or a decision does not change who is armed. *)
Lemma armed_bound_same s s' a ar :
  armed_bound (cw_core s) -> kept s s' ->
  wc_armed (cw_core s) = Some (armed_of_reconstructed a) ->
  wc_armed (cw_core s') = Some ar -> armed_binding ar = ra_binding a ->
  armed_bound (cw_core s').
Proof.
  intros Ha [_ Hb] Harm Harm' Hbind. unfold armed_bound in *.
  rewrite Harm in Ha. rewrite Harm', Hb. cbn in *. rewrite Hbind, Ha. f_equal.
  unfold armed_binding. cbn. by destruct (ra_binding a).
Qed.

Lemma armed_binding_reconstructed a : armed_binding (armed_of_reconstructed a) = ra_binding a.
Proof. unfold armed_binding. cbn. by destruct (ra_binding a). Qed.

(** What a request leaves: a sound state, with the binding it had. *)
Definition leaves (s s' : CoreW) : Prop := kept s s' /\ settled_or_bricked s'.

Lemma leaves_stays s s' : armed_bound (cw_core s) -> stays s s' -> refused s s' -> leaves s s'.
Proof. intros Ha [Hinv Hk] Hr. split; [done|]. left. split; [done|]. by eapply armed_bound_refused. Qed.

Lemma leaves_recorded s s1 s' rs r :
  kept s s' -> recorded s1 s' rs r -> armed_bound (cw_core s') -> leaves s s'.
Proof. intros Hk Hr Ha. split; [done|]. by destruct (recorded_sound _ _ _ _ Hr); [left|right]. Qed.

Lemma arm_leaves rid h t e base deadline mand add s o s' :
  armed_bound (cw_core s) ->
  request_bound (cw_core s) (Arm rid h t e base 0 0 mand add) ->
  arm_post rid h t e base deadline mand add s o s' -> leaves s s'.
Proof.
  intros Ha (b & Hb & Hid) Ho. cbn in Hid.
  destruct o as [r|er|]; [|destruct Ho; by apply leaves_stays|done].
  destruct Ho as (Hk & _ & _ & _ & _ & _ & b' & hw & now & lease & Hb' & He & _ & _ & _ & _ & _ & _ & Hrec & Harm).
  assert (b' = b) as -> by congruence.
  eapply leaves_recorded; [exact Hk|exact Hrec|]. destruct Hk as [_ Hbs].
  unfold armed_bound. rewrite Harm, Hbs, Hb. cbn. unfold armed_binding. cbn.
  injection Hid as -> -> ->. by destruct b.
Qed.

Lemma renew_leaves t e l g s o s' :
  armed_bound (cw_core s) -> renew_post t e l g s o s' -> leaves s s'.
Proof.
  intros Ha Ho. destruct o as [r|er|]; [|destruct Ho; by apply leaves_stays|done].
  destruct Ho as (Hk & _ & rs & a & now & lease & Hd & _ & _ & _ & _ & _ & _ & _ & _ & Hcase).
  pose proof (du_armed _ _ _ Hd) as Harm. cbn in Harm.
  destruct (lease <=? _).
  - destruct Hcase as (Hinv & _ & Harm'). split; [done|]. left. split; [done|].
    eapply armed_bound_same; [done|done|exact Harm| |apply armed_binding_reconstructed].
    by rewrite Harm'.
  - destruct Hcase as [Hrec Harm']. eapply leaves_recorded; [exact Hk|exact Hrec|].
    eapply armed_bound_same; [done|done|exact Harm|exact Harm'|].
    by rewrite <-(armed_binding_reconstructed a).
Qed.

Lemma decision_leaves rid t e s o s' :
  armed_bound (cw_core s) -> decision_post rid t e s o s' -> leaves s s'.
Proof.
  intros Ha Ho. destruct o as [r|er|]; [|destruct Ho; by apply leaves_stays|done].
  destruct Ho as (Hk & _ & rs & a & now & obs & fence & v & Hd & _ & _ & _ & _ & _ & _ & _ & Hrec & Harm').
  eapply leaves_recorded; [exact Hk|exact Hrec|].
  eapply armed_bound_same; [done|done|exact (du_armed _ _ _ Hd)|exact Harm'|].
  rewrite <-(armed_binding_reconstructed a). done.
Qed.

Lemma wp_dispatch_settled r s :
  settled s -> wc_safe_mode (cw_core s) = false -> request_bound (cw_core s) r ->
  wp (dispatch_request r) (fun _ => leaves s) s.
Proof.
  intros [Hinv Ha] Hsafe Hb.
  assert (Hsame : leaves s s) by (split; [done|by left]).
  destruct r as [i h t e base secs nanos mand add|i h t e
    |i h t e l g n|i h t e l g n|i h t e]; cbn [dispatch_request].
  - wp_simpl. unfold deadline_of. destruct (Duration_new secs nanos) as [d|]; [|exact Hsame].
    rewrite wp_of_result. destruct (SystemTime_checked_add UNIX_EPOCH d) as [deadline|] eqn:Ed;
      cbn [ok_or]; [|exact Hsame].
    apply SystemTime_checked_add_Some in Ed as [-> Hlt].
    eapply wp_mono; [by apply wp_handle_arm|]. intros o s' Ho. eapply arm_leaves; [exact Ha| |exact Ho]. exact Hb.
  - unfold require_armed_tx. wp_simpl.
    destruct (wc_armed (cw_core s)); cbn [ok_or]; [|exact Hsame].
    wp_simpl. by destruct (bool_decide _); wp_simpl.
  - wp_simpl. eapply wp_mono; [by apply wp_handle_renewal|]. intros o s' Ho%renew_leaves; [|done].
    by destruct o; wp_simpl.
  - wp_simpl. eapply wp_mono; [by apply wp_handle_renewal|]. intros o s' Ho%renew_leaves; [|done].
    by destruct o; wp_simpl.
  - eapply wp_mono; [by apply wp_handle_decision|]. intros o s' Ho. by eapply decision_leaves.
Qed.

(** Past reading, the log stays past reading. *)
Lemma bricked_extends s s' : extends true s s' -> bricked s -> bricked s'.
Proof.
  intros [Hk Harm Hlog He] (Hok & Hown & Hover & Hsome). specialize (He eq_refl).
  pose proof (kept_root _ _ Hk) as Hr. destruct Hk as [_ Hb].
  pose proof (oversized_grows _ _ Hlog Hover) as Hover'. split_and!; [|split|done|by apply Harm].
  - unfold core_ok. by rewrite Hb.
  - intros rs Hread. apply oversized_unreadable in Hover' as [e Hx]. unfold log_of in Hx. congruence.
  - intros _ Hz. apply (own_epoch _ _ Hown).
    + change (log_of s <> []). intros Hnil. destruct Hover as (good & rs & payload & rest & Heq & _).
      rewrite Hnil in Heq. apply (f_equal length) in Heq.
      rewrite !length_app, length_record_frame in Heq. cbn in Heq. lia.
    + rewrite Hr in Hz. unfold epoch_file in *. cbv zeta in He. by rewrite He in Hz.
Qed.

(** Something is armed: a second arming changes nothing. *)
Lemma wp_arm_again rid h t e base deadline mand add s :
  is_Some (wc_armed (cw_core s)) ->
  wp (handle_arm rid h t e base deadline mand add) (fun o s' => s' = s /\ exists er, o = Throw er) s.
Proof.
  intros [a Ha]. unfold handle_arm. wp_simpl. destruct (bool_decide _); [by eauto|]. wp_simpl.
  unfold is_some. rewrite bool_decide_eq_true_2 by (rewrite Ha; by eexists). wp_simpl. eauto.
Qed.

Lemma wp_dispatch_bricked r s :
  bricked s -> wp (dispatch_request r) (fun _ => leaves s) s.
Proof.
  intros Hbr. assert (Hsame : leaves s s) by (split; [done|by right]).
  assert (Hext : forall {A} (m : M CoreW RpcError A), logs true m -> wp m (fun _ => leaves s) s).
  { intros A m Hm. pose proof (Hm s) as Hx. split; [apply Hx|right]. by eapply bricked_extends. }
  destruct r as [i h t e base secs nanos mand add|i h t e
    |i h t e l g n|i h t e l g n|i h t e]; cbn [dispatch_request].
  2, 3, 4, 5: apply Hext; unfold require_armed_tx; logs_tac.
  wp_simpl. unfold deadline_of. destruct (Duration_new secs nanos) as [d|]; [|exact Hsame].
  rewrite wp_of_result. destruct (ok_or _ _); [|exact Hsame].
  eapply wp_mono; [by apply wp_arm_again, Hbr|]. by intros o s' [-> _].
Qed.

(** ** Binding *)

(** What a bind answers: the peer is the broker, a durable binding is met
    exactly, and without one the next epoch is issued, whatever the client
    asked for. *)
Definition bind_post (cred : PeerCred) (bind : SessionBind) (s : CoreW)
    (o : outcome RpcError (SessionState * SessionEstablished)) (s' : CoreW) : Prop :=
  let c := cw_core s in
  match o with
  | Ret (ses, est) =>
      wc_safe_mode c = false /\
      cred_uid cred = cfg_broker_uid (wc_config c) /\
      cred_gid cred = cfg_broker_gid (wc_config c) /\
      w_fs (cw_world s') = w_fs (cw_world s) /\
      ss_established ses = Some est /\ ss_last_counter ses = 0 /\
      (exists n, se_capability est = derive_capability (map (entropy_byte n) (seq 0 32)) cred) /\
      exists b,
        cw_core s' = set_durable_binding (Some b) c /\
        (se_host_id est, se_tx_id est, se_epoch est) = (bs_host_id b, bs_tx_id b, bs_epoch b) /\
        match wc_durable_binding c with
        | Some existing => b = existing /\ b = bound_of_bind bind
        | None => exists hw, epoch_file (store_root s) hw (cw_world s) /\
            hw + 1 <= u64_max /\
            b = mkBound (sb_host_id bind) (sb_tx_id bind) (hw + 1) (sb_lease_id bind)
                        (sb_worker_group_tag bind)
        end
  | Throw _ => refused s s' /\ (wc_safe_mode (cw_core s') = true \/ w_fs (cw_world s') = w_fs (cw_world s)) /\
      only_touches (in_dir (store_root s) "state") (cw_world s) (cw_world s')
  | Panic => False
  end.

Lemma wp_try_bind uid gid safe durable cred bind
    (Q : outcome RpcError (SessionState * SessionEstablished * option BoundSession) -> WdWorld -> Prop) w :
  (forall er w', w_fs w' = w_fs w -> Q (Throw er) w') ->
  (forall ses est w', safe = false -> cred_uid cred = uid -> cred_gid cred = gid ->
     opt_all (fun b => b = bound_of_bind bind) durable -> w_fs w' = w_fs w ->
     ss_established ses = Some est -> ss_last_counter ses = 0 ->
     se_capability est = derive_capability (map (entropy_byte (w_tick w)) (seq 0 32)) cred ->
     (se_host_id est, se_tx_id est, se_epoch est) =
       (sb_host_id bind, sb_tx_id bind, sb_epoch bind) ->
     Q (Ret (ses, est, Some (bound_of_bind bind))) w') ->
  wp (try_bind_with_cred uid gid safe durable cred bind) Q w.
Proof.
  intros HT HQ. unfold try_bind_with_cred. wp_simpl. destruct safe; [by apply HT|]. wp_simpl.
  destruct (_ || _) eqn:Ec; [by apply HT|]. apply orb_false_iff in Ec as [Eu Eg].
  bool_to_prop. wp_simpl.
  destruct durable as [b|]; wp_simpl.
  2: { unfold entropy_fill. wp_simpl. apply wp_dep_call. wp_simpl. by apply HQ. }
  destruct (_ || _) eqn:Eb; [by apply HT|].
  repeat match goal with H : (_ || _) = false |- _ => apply orb_false_iff in H as [? ?] end.
  bool_to_prop. unfold entropy_fill. wp_simpl. apply wp_dep_call. wp_simpl. apply HQ; try done.
  cbn. unfold bound_of_bind. destruct b; cbn in *. by subst.
Qed.

Lemma wp_bind_session cred bind s :
  wp (bind_with_stream_cred cred bind) (bind_post cred bind s) s.
Proof.
  assert (Hquiet : forall er w', w_fs w' = w_fs (cw_world s) ->
    bind_post cred bind s (Throw er) (mkCoreW (cw_core s) w')).
  { intros er w' Hw. split_and!; [by left|by right|by apply only_touches_same_fs]. }
  unfold bind_with_stream_cred, normalize_session_bind. wp_simpl.
  destruct (wc_durable_binding (cw_core s)) as [b|] eqn:Hb.
  - change (is_some (Some b)) with true. cbn iota. wp_simpl.
    apply wp_try_bind; [intros er w' Hw; by apply Hquiet|].
    intros ses est w' Hs Hu Hg Hbind Hfs He Hc Hcap Hid. wp_simpl. cbn [store_binding].
    wp_simpl. cbn in Hbind. split_and!; try done; [by eexists|].
    exists (bound_of_bind bind). split_and!; [done|done|]. by rewrite Hb.
  - change (is_some None) with false. cbn iota. wp_simpl.
    assert (Hlatch : forall (o : outcome RpcError (SessionState * SessionEstablished)) er s1 s',
      cw_core s1 = cw_core s -> w_fs (cw_world s1) = w_fs (cw_world s) -> latched s1 s' ->
      o = Throw er -> bind_post cred bind s o s').
    { intros o er s1 s' Hc Hw Hl ->. split_and!; [by eapply refused_latched| |].
      - left. by rewrite (la_core _ _ Hl).
      - by apply (latched_after s s1 s' Hc (only_touches_same_fs _ _ _ Hw) Hl). }
    apply wp_read_durable_epoch; [|intros er s' Hl; by eapply Hlatch; [| |exact Hl|]].
    intros hw Hhw. wp_simpl.
    apply wp_checked_successor; [|intros er s' Hl; by eapply Hlatch; [| |exact Hl|]].
    intros Hmax. wp_simpl. apply wp_try_bind; [intros er w' Hw; by apply Hquiet|].
    intros ses est w' Hs Hu Hg Hbind Hfs He Hc Hcap Hid. wp_simpl. cbn [store_binding].
    wp_simpl. split_and!; try done; [by eexists|]. eexists. split_and!; [done|exact Hid|].
    rewrite Hb. by exists hw.
Qed.

Lemma decoded_bind_tag f bind : decode_session_bind f = Ok bind -> tag_ok (sb_worker_group_tag bind).
Proof.
  unfold decode_session_bind. intros Hf. inv_ok. cbn.
  match goal with Ht : parse_worker_group_tag_value _ = Ok _ |- _ => unfold parse_worker_group_tag_value in Ht end.
  assert (Hraw : forall z t, (raw ← ok_or (u32_try_from z) MalformedRequest; try_from_raw raw) = Ok t -> tag_ok t).
  { intros z t Hz. inv_ok. match goal with Hx : try_from_raw _ = Ok _ |- _ => by apply try_from_raw_Ok in Hx as [-> ?] end. }
  repeat (case_match; try done); eauto.
Qed.

(** ** Steps *)

Record Sys := mkSys {
  sy_core : CoreW;
  sy_sessions : list SessionState;
}.

(** A peer sends a frame that decodes to a binding, and binds; a session sends
    a frame, and the request it decodes to is handled; the process is
    restarted - with [reopen], whatever fails while it starts, or with [open],
    where no system call of the start fails. *)
Inductive wd_step : Sys -> Sys -> Prop :=
  | StepBind s ss cred f bind o s' :
      decode_session_bind f = Ok bind ->
      bind_with_stream_cred cred bind s = (o, s') ->
      wd_step (mkSys s ss)
              (mkSys s' (match o with Ret (ses, _) => ss ++ [ses] | _ => ss end))
  | StepRequest s ss i ses f v ses1 o s' :
      ss !! i = Some ses -> decode_request f ses = (Ret v, ses1) ->
      handle_request v ses1 s = (o, s') ->
      wd_step (mkSys s ss)
              (mkSys s' (<[i := match o with Ret (_, ses2) => ses2 | _ => ses1 end]> ss))
  | StepRefusedFrame s ss i ses f e ses1 :
      ss !! i = Some ses -> decode_request f ses = (Throw e, ses1) ->
      wd_step (mkSys s ss) (mkSys s (<[i := ses1]> ss))
  | StepRestart s ss is_reopen c w' :
      starts_well is_reopen (cw_world s) ->
      startup (wc_config (cw_core s)) is_reopen (cw_world s) = (Ret c, w') ->
      wd_step (mkSys s ss) (mkSys (mkCoreW c w') []).

Definition sys_inv (y : Sys) : Prop :=
  settled_or_bricked (sy_core y) /\
  Forall (session_bound (cw_core (sy_core y))) (sy_sessions y).

Lemma sessions_keep c c' ss :
  wc_durable_binding c' = wc_durable_binding c ->
  Forall (session_bound c) ss -> Forall (session_bound c') ss.
Proof.
  intros Hb Hss. eapply Forall_impl; [exact Hss|]. intros ses (est & b & He & Hd & Hid).
  exists est, b. by rewrite Hb.
Qed.

Lemma decoded_bound c ses f v ses1 :
  session_bound c ses -> decode_request f ses = (Ret v, ses1) ->
  request_bound c (au_request v) /\ session_bound c ses1.
Proof.
  intros (est & b & He & Hd & Hid) (env & _ & [_ Hb] & Hv & -> & ->)%decode_request_Ret.
  apply verify_authenticated_Ok in Hv as (est' & He' & _ & _ & _ & _ & Hh & Ht & Hep).
  rewrite He in He'. injection He' as <-. split.
  - exists b. split; [done|]. cbn. rewrite Hb, Hh, Ht, Hep. done.
  - by exists est, b.
Qed.

Lemma sound_own s : settled_or_bricked s -> own_store (store_root s) (cw_world s).
Proof. by intros [[(_ & Hown & _) _]|(_ & Hown & _)]. Qed.

Lemma startup_settled config ro w c w' :
  starts_well ro w -> own_store (cfg_store_root config) w ->
  startup config ro w = (Ret c, w') -> settled (mkCoreW c w').
Proof.
  intros Hc Ho Hs. pose proof (wp_run _ _ _ _ _ (wp_startup config ro w Hc Ho) Hs) as Hp.
  destruct Hp as (Hcfg & Hsafe & _ & Hown & rs & act & Hd & Hb & _).
  split; [split_and!|].
  - unfold core_ok. cbn. rewrite Hb. pose proof (du_typed _ _ _ Hd). by destruct act.
  - unfold store_root. cbn. by rewrite Hcfg.
  - intros _. by exists rs, act.
  - unfold armed_bound. pose proof (du_armed _ _ _ Hd) as Ha. cbn in Ha. cbn. rewrite Ha.
    destruct act as [a|]; [|done]. cbn. by rewrite Hb, armed_binding_reconstructed.
Qed.

Lemma sys_inv_init config ro w c w' :
  starts_well ro w -> own_store (cfg_store_root config) w ->
  startup config ro w = (Ret c, w') -> sys_inv (mkSys (mkCoreW c w') []).
Proof. intros Hc Ho Hs. split; [left; by eapply startup_settled|constructor]. Qed.

(** Binding, all told: the log, the epoch file and what is armed are as they
    were, and a durable binding never changes. *)
Record bind_effect (s s' : CoreW) : Prop := {
  be_config : wc_config (cw_core s') = wc_config (cw_core s);
  be_armed : wc_armed (cw_core s') = wc_armed (cw_core s);
  be_seq : wc_log_seq (cw_core s') = wc_log_seq (cw_core s);
  be_clock : wc_last_clock (cw_core s') = wc_last_clock (cw_core s);
  be_binding b : wc_durable_binding (cw_core s) = Some b -> wc_durable_binding (cw_core s') = Some b;
  be_typed : core_ok (cw_core s) -> core_ok (cw_core s');
  be_safe : wc_safe_mode (cw_core s') = false -> wc_safe_mode (cw_core s) = false;
  be_files : only_touches (in_dir (store_root s) "state") (cw_world s) (cw_world s');
}.

Lemma bind_effects cred bind s o s' :
  tag_ok (sb_worker_group_tag bind) -> bind_post cred bind s o s' ->
  bind_effect s s' /\ match o with Ret (ses, _) => session_bound (cw_core s') ses | _ => True end.
Proof.
  intros Htag Hp. destruct o as [[ses est]|er|]; [| |done].
  - destruct Hp as (Hsafe & _ & _ & Hfs & He & _ & _ & b & Hc & Hid & Hb). split.
    + split; rewrite ?Hc; try done; [| |by apply only_touches_same_fs].
      * intros b0 Hb0. rewrite Hb0 in Hb. destruct Hb as [-> _]. done.
      * unfold core_ok. cbn. intros Hok. destruct (wc_durable_binding (cw_core s)) as [b0|].
        { destruct Hb as [-> _]. exact Hok. }
        destruct Hb as (hw & Hhw & Hmax & ->). apply epoch_file_range in Hhw as [? ?].
        split; [exact Htag|]. cbn. unfold is_u64. lia.
    + exists est, b. by rewrite Hc.
  - destruct Hp as (Hr & _ & Hw). split; [|done]. unfold core_ok. by destruct Hr as [Hc|Hc]; split; rewrite ?Hc.
Qed.

Lemma bind_root s s' : bind_effect s s' -> store_root s' = store_root s.
Proof. intros Hb. unfold store_root. by rewrite (be_config _ _ Hb). Qed.

Lemma bind_log s s' : bind_effect s s' -> log_of s' = log_of s.
Proof.
  intros Hb. unfold log_of. rewrite (bind_root _ _ Hb).
  eapply log_elsewhere; [|exact (be_files _ _ Hb)]. by apply log_not_in_dir.
Qed.

Lemma bind_epoch s s' e : bind_effect s s' ->
  epoch_file (store_root s) e (cw_world s') <-> epoch_file (store_root s) e (cw_world s).
Proof.
  intros Hb. eapply epoch_file_elsewhere; [|exact (be_files _ _ Hb)]. by apply epoch_not_in_dir.
Qed.

Lemma bind_own s s' : bind_effect s s' ->
  own_store (store_root s) (cw_world s) -> own_store (store_root s') (cw_world s').
Proof.
  intros Hb. rewrite (bind_root _ _ Hb). apply own_store_frame; [|by apply bind_epoch].
  pose proof (bind_log _ _ Hb) as Hl. unfold log_of in Hl. by rewrite (bind_root _ _ Hb) in Hl.
Qed.

Lemma bind_keeps s s' : bind_effect s s' -> settled_or_bricked s -> settled_or_bricked s'.
Proof.
  intros Hb [[(Hok & Hown & Hdur) Harm]|(Hok & Hown & Hover & Harm)]; [left|right].
  - split; [split_and!|].
    + by apply (be_typed _ _ Hb).
    + by eapply bind_own.
    + intros Hsafe. destruct (Hdur (be_safe _ _ Hb Hsafe)) as (rs & act & Hd). exists rs, act.
      destruct Hd as [Hr Hk Hc Ha Hs Ht He Hty].
      split; rewrite ?(bind_log _ _ Hb), ?(be_armed _ _ Hb), ?(be_seq _ _ Hb), ?(be_clock _ _ Hb),
        ?(bind_root _ _ Hb); try done.
      destruct act as [a|]; [|done]. cbn in *. by apply (bind_epoch _ _ _ Hb).
    + unfold armed_bound in *. rewrite (be_armed _ _ Hb).
      destruct (wc_armed (cw_core s)) as [a|]; [|done]. cbn in *. by apply (be_binding _ _ Hb).
  - split_and!; [by apply (be_typed _ _ Hb)|by eapply bind_own| |by rewrite (be_armed _ _ Hb)].
    by rewrite (bind_log _ _ Hb).
Qed.

Lemma bind_sessions s s' ss :
  bind_effect s s' -> Forall (session_bound (cw_core s)) ss -> Forall (session_bound (cw_core s')) ss.
Proof.
  intros Hb Hss. eapply Forall_impl; [exact Hss|]. intros ses (est & b & He & Hd & Hid).
  exists est, b. split_and!; [done|by apply (be_binding _ _ Hb)|done].
Qed.

Lemma wp_handle_request v ses s :
  settled_or_bricked s -> request_bound (cw_core s) (au_request v) ->
  wp (handle_request v ses) (fun o s' => leaves s s' /\
    match o with Ret (_, ses') => ses' = advance_counter (au_counter v) ses | _ => True end) s.
Proof.
  intros Hs Hb. unfold handle_request, ensure_not_safe_mode. wp_simpl.
  destruct (wc_safe_mode (cw_core s)) eqn:Hsafe; [by split_and!|].
  wp_simpl. apply (wp_mono _ (fun _ => leaves s)).
  - destruct Hs as [Hs|Hs]; [by apply wp_dispatch_settled|by apply wp_dispatch_bricked].
  - intros [r|er|] s' Hl; wp_simpl; by split.
Qed.

Lemma sys_inv_step y y' : sys_inv y -> wd_step y y' -> sys_inv y'.
Proof.
  intros [Hs Hss] Hstep. destruct Hstep as [s ss cred f bind o s' Hdec Hrun|
    s ss i ses f v ses1 o s' Hi Hdec Hrun|s ss i ses f e ses1 Hi Hdec|
    s ss ro c w' Hwell Hrun]; cbn in *.
  - pose proof (wp_run _ _ _ _ _ (wp_bind_session cred bind s) Hrun) as Hp.
    destruct (bind_effects cred bind s o s' (decoded_bind_tag _ _ Hdec) Hp) as [Hb Hnew].
    split; [by eapply bind_keeps|]. cbn. pose proof (bind_sessions _ _ _ Hb Hss) as Hold.
    destruct o as [[x est]|er|]; [|done..]. apply Forall_app; split; auto.
  - destruct (decoded_bound (cw_core s) ses f v ses1) as [Hrb Hsb];
      [by eapply Forall_lookup_1 in Hss|done|].
    pose proof (wp_run _ _ _ _ _ (wp_handle_request v ses1 s Hs Hrb) Hrun) as ([[_ Hb] Hs'] & Hses).
    split; [done|]. cbn.
    eapply (sessions_keep (cw_core s)); [done|]. apply Forall_insert; [done|].
    destruct o as [[r x]|er|]; [|done..]. subst x. exact Hsb.
  - destruct (decode_request_other _ _ _ _ Hdec) as [[a Ha]|[_ ->]]; [done|].
    by rewrite list_insert_id.
  - eapply sys_inv_init; [exact Hwell| |exact Hrun]. exact (sound_own _ Hs).
Qed.

(** Every state the system can reach. *)
Lemma sys_inv_reachable y y' : sys_inv y -> rtc wd_step y y' -> sys_inv y'.
Proof. intros Hy Hr. induction Hr; eauto using sys_inv_step. Qed.

(** ** Along the steps of the system *)

(** From a sound state, no step takes a byte out of the log. *)
Lemma step_extends y y' : sys_inv y -> wd_step y y' -> log_of (sy_core y) `prefix_of` log_of (sy_core y').
Proof.
  intros [Hs _] Hstep. destruct Hstep as [s ss cred f bind o s' Hdec Hrun|
    s ss i ses f v ses1 o s' _ _ Hrun|s ss i ses f e ses1 _ _|
    s ss ro c w' Hwell Hrun]; cbn [sy_core] in *.
  - pose proof (wp_run _ _ _ _ _ (wp_bind_session cred bind s) Hrun) as Hp.
    destruct (bind_effects cred bind s o s' (decoded_bind_tag _ _ Hdec) Hp) as [Hb _].
    by rewrite (bind_log _ _ Hb).
  - pose proof (ex_log _ _ _ (logs_handle_request v ses1 s)) as Hx. by rewrite Hrun in Hx.
  - done.
  - pose proof (wp_run _ _ _ _ _ (wp_startup _ ro _ Hwell (sound_own _ Hs)) Hrun)
      as (Hcfg & _ & Hlog & _).
    unfold log_of, store_root. cbn [cw_core cw_world]. by rewrite Hcfg, Hlog.
Qed.

Lemma steps_extend y y' :
  sys_inv y -> rtc wd_step y y' -> log_of (sy_core y) `prefix_of` log_of (sy_core y').
Proof.
  intros Hy Hr. induction Hr as [|y y1 y' Hstep _ IH]; [done|].
  etrans; [by apply step_extends|]. apply IH. by eapply sys_inv_step.
Qed.

(** ** After a decision *)

(** The decisions of a log that reconstructs: at most one. *)
Definition is_decision (r : AuthorityRecord) : Prop :=
  ar_kind r = BeginCommit \/ ar_kind r = BeginRevert.

(** A log with a decision in it reconstructs to an authority that was
    decided, once, that way. *)
Lemma decision_reconstructs rs act d :
  Forall (fun r => validate_schema r = Ok tt) rs -> reconstruct_from None rs = Ok act ->
  d ∈ rs -> is_decision d ->
  (exists a, act = Some a /\ ra_chosen a = Some (ar_kind d)) /\
  forall d', d' ∈ rs -> is_decision d' -> d' = d.
Proof.
  intros Hv Hc Hd Hk. apply reconstruct_shape in Hc; [|done].
  assert (Hin : forall x, x ∈ rs -> is_decision x -> x ∈ filter carries_authority rs).
  { intros x Hx [Hxk|Hxk]; apply list_elem_of_filter; unfold carries_authority; auto. }
  pose proof (Hin d Hd Hk) as Hd'. destruct act as [a|]; cbn in Hc; [|rewrite Hc in Hd'; by inversion Hd'].
  destruct Hc as (r0 & ren & ds & Heq & Hr0 & Hren & Hdec & _). rewrite Heq in *.
  rewrite Forall_forall in Hren.
  assert (Hlast : forall x, x ∈ r0 :: ren ++ ds -> is_decision x -> x ∈ ds).
  { intros x Hx Hxk. apply elem_of_cons in Hx as [->|Hx]; [destruct Hxk; congruence|].
    apply elem_of_app in Hx as [Hx|Hx]; [|done]. apply Hren in Hx. destruct Hxk; congruence. }
  apply Hlast in Hd'; [|done]. destruct (ra_chosen a) as [k|] eqn:Hch; cbn in Hdec.
  - destruct Hdec as (x & -> & Hx). apply list_elem_of_singleton in Hd' as ->. split.
    + exists a. split; [done|]. rewrite Hch. f_equal. by destruct Hx as [_ ->] || by destruct Hx.
    + intros d' Hd2 Hk2. apply Hin, Hlast in Hd2; [|done..]. by apply list_elem_of_singleton in Hd2.
  - subst ds. by inversion Hd'.
Qed.

(** The log is [L], and the core, where it is not latched, holds the verdict
    [k]. *)
Definition decided (L : list byte) (k : AuthorityRecordKind) (s : CoreW) : Prop :=
  settled s /\ log_of s = L /\
  (wc_safe_mode (cw_core s) = false ->
     exists a, wc_armed (cw_core s) = Some a /\ as_chosen a = Some k).

Lemma settled_decided s rs d :
  settled s -> read_records (log_of s) = Ok rs -> d ∈ rs -> is_decision d ->
  decided (log_of s) (ar_kind d) s.
Proof.
  intros Hs Hr Hd Hk. split_and!; [done|done|]. intros Hsafe.
  destruct Hs as [(_ & _ & Hdur) _]. destruct (Hdur Hsafe) as (rs' & act & Hdu).
  pose proof (du_read _ _ _ Hdu) as Hr'. rewrite Hr in Hr'. injection Hr' as <-.
  destruct (decision_reconstructs rs act d) as [(a & -> & Hch) _]; [by eapply read_records_valid|apply Hdu|done..|].
  exists (armed_of_reconstructed a). split; [exact (du_armed _ _ _ Hdu)|done].
Qed.

(** With a verdict armed, no request changes anything. *)
Lemma wp_dispatch_decided r s a k :
  wc_armed (cw_core s) = Some a -> as_chosen a = Some k ->
  wp (dispatch_request r) (fun _ s' => cw_core s' = cw_core s /\ w_fs (cw_world s') = w_fs (cw_world s)) s.
Proof.
  intros Ha Hch. assert (Hsome : is_some (as_chosen a) = true)
    by (unfold is_some; rewrite Hch; by apply bool_decide_eq_true_2).
  assert (Hren : forall t e l g, wp (handle_lease_renewal t e l g)
    (fun _ s' => cw_core s' = cw_core s /\ w_fs (cw_world s') = w_fs (cw_world s)) s).
  { intros t e l g. unfold handle_lease_renewal. wp_simpl. rewrite Ha. cbn [ok_or]. wp_simpl.
    destruct (bool_decide _); [done|]. wp_simpl. destruct (negb _); [done|]. wp_simpl.
    destruct (_ || _); [done|]. wp_simpl. by rewrite Hsome. }
  destruct r as [i h t e base secs nanos mand add|i h t e
    |i h t e l g n|i h t e l g n|i h t e]; cbn [dispatch_request].
  - wp_simpl. unfold deadline_of. destruct (Duration_new secs nanos) as [d|]; [|done].
    rewrite wp_of_result. destruct (ok_or _ _); [|done].
    eapply wp_mono; [apply wp_arm_again; by eexists|]. by intros o s' [-> _].
  - unfold require_armed_tx. wp_simpl. rewrite Ha. cbn [ok_or]. wp_simpl. by destruct (bool_decide _).
  - wp_simpl. eapply wp_mono; [apply Hren|]. by intros [] s'; wp_simpl.
  - wp_simpl. eapply wp_mono; [apply Hren|]. by intros [] s'; wp_simpl.
  - unfold handle_decision. wp_simpl. rewrite Ha. cbn [ok_or]. wp_simpl.
    destruct (bool_decide _); [done|]. wp_simpl. destruct (negb _); [done|]. wp_simpl.
    by rewrite Hsome.
Qed.

(** A step from a state whose log has a decision leaves the log as it is. *)
Lemma decided_step y y' rs d :
  sys_inv y -> read_records (log_of (sy_core y)) = Ok rs -> d ∈ rs -> is_decision d ->
  wd_step y y' -> log_of (sy_core y') = log_of (sy_core y).
Proof.
  intros [Hs Hss] Hr Hd Hk Hstep.
  assert (Hset : settled (sy_core y)).
  { destruct Hs as [|(_ & _ & Hover & _)]; [done|].
    apply oversized_unreadable in Hover as [e He]. congruence. }
  destruct Hstep as [s ss cred f bind o s' Hdec Hrun|
    s ss i ses f v ses1 o s' _ _ Hrun|s ss i ses f e ses1 _ _|
    s ss ro c w' Hwell Hrun]; cbn [sy_core] in *.
  - pose proof (wp_run _ _ _ _ _ (wp_bind_session cred bind s) Hrun) as Hp.
    destruct (bind_effects cred bind s o s' (decoded_bind_tag _ _ Hdec) Hp) as [Hb _].
    by apply bind_log.
  - destruct (settled_decided s rs d Hset Hr Hd Hk) as (_ & _ & Hch).
    enough (Hw : wp (handle_request v ses1) (fun _ s' => log_of s' = log_of s) s)
      by exact (wp_run _ _ _ _ _ Hw Hrun).
    unfold handle_request, ensure_not_safe_mode. wp_simpl.
    destruct (wc_safe_mode (cw_core s)) eqn:Hsafe; [done|]. wp_simpl.
    destruct (Hch eq_refl) as (a & Ha & Hk').
    eapply wp_mono; [by eapply wp_dispatch_decided|]. intros x s1 [Hc Hw].
    assert (Hl : log_of s1 = log_of s) by (unfold log_of, store_root, file_of; by rewrite Hc, Hw).
    by destruct x; wp_simpl.
  - done.
  - pose proof (wp_run _ _ _ _ _ (wp_startup _ ro _ Hwell (sound_own _ Hs)) Hrun)
      as (Hcfg & _ & Hlog & _).
    unfold log_of, store_root. cbn [cw_core cw_world]. by rewrite Hcfg, Hlog.
Qed.
End Bound.
