(* ===== verification/WdDemo.v ===== *)
(** * A concrete watchdog

    The parameters of the model, instantiated: a clock, an entropy source, a
    peer, a codec that knows the documents of one transaction, an environment
    whose calls succeed.  The properties are applied to this run. *)

From S2P Require Import Prelude RustStd Json WdTypes WdLog WdAuthority WdProtocol.
From S2P Require Import WdCore WdCoreFacts WdStartup WdSystem.

#[export] Existing Instance int_number.
#[export] Existing Instance int_number_laws.
#[export] Existing Instance reliable_io.

(** ** The documents of a transaction *)

Definition demo_tag : WorkerGroupTag := mkTag 7.
Definition demo_clock (n : nat) : SystemTime := (1000 + Z.of_nat n) * NSEC.
Definition demo_deadline : SystemTime := 100000 * NSEC.

Definition demo_armed (now : SystemTime) : AuthorityRecord :=
  armed_of 1 1 "host-1" "tx-1" "base-1" "lease-1" demo_tag now demo_deadline (now + LEASE_WINDOW).
Definition demo_renewed (now : SystemTime) : AuthorityRecord :=
  renewed_of 2 1 "host-1" "tx-1" "lease-1" demo_tag now (now + LEASE_WINDOW).
Definition demo_decision (n : Z) (k : AuthorityRecordKind) : AuthorityRecord :=
  decision_record n 1 k "host-1" "tx-1" "lease-1" demo_tag.

(** The records the codec knows, each written as its number. *)
Definition demo_records : list AuthorityRecord :=
  map (fun n => demo_armed (demo_clock n)) (seq 0 64) ++
  map (fun n => demo_renewed (demo_clock n)) (seq 0 120) ++
  [demo_decision 2 BeginCommit; demo_decision 2 BeginRevert;
   demo_decision 3 BeginCommit; demo_decision 3 BeginRevert].

#[export] Instance demo_codec : RecordCodec := {|
  record_to_vec r := (fun i => [byte_of (Z.of_nat i)]) <$> index_of r demo_records;
  record_from_slice bs :=
    match bs with [b] => demo_records !! Z.to_nat (byte_val b) | _ => None end;
|}.

Lemma demo_records_small : (length demo_records <= 255)%nat.
Proof. vm_compute. lia. Qed.

Definition between (lo hi z : Z) : bool := (lo <=? z) && (z <=? hi).
Definition opt_allb {A} (p : A -> bool) (o : option A) : bool := from_option p true o.

Lemma opt_allb_ok {A} (p : A -> bool) (P : A -> Prop) o :
  (forall x, p x = true -> P x) -> opt_allb p o = true -> opt_all P o.
Proof. intros Hp. destruct o as [x|]; [apply Hp|done]. Qed.

Lemma between_ok lo hi z : between lo hi z = true -> lo <= z <= hi.
Proof. unfold between. intros Hz. bool_to_prop. done. Qed.

Definition record_okb (r : AuthorityRecord) : bool :=
  let u64 := between 0 u64_max in
  let u32 := between 0 u32_max in
  u64 (ar_sequence r) && u64 (ar_epoch r) &&
  opt_allb (fun t => between 2 i32_max (tag_raw t)) (ar_worker_group_tag r) &&
  opt_allb u64 (ar_armed_at_secs r) && opt_allb u32 (ar_armed_at_nanos r) &&
  opt_allb u64 (ar_deadline_secs r) && opt_allb u32 (ar_deadline_nanos r) &&
  opt_allb u64 (ar_lease_expires_at_secs r) && opt_allb u32 (ar_lease_expires_at_nanos r) &&
  opt_allb u64 (ar_renewed_at_secs r) && opt_allb u32 (ar_renewed_at_nanos r).

Lemma record_okb_ok r : record_okb r = true -> record_ok r.
Proof.
  unfold record_okb, record_ok. intros Hr. bool_to_prop.
  split_and!; try (by apply between_ok);
    (eapply opt_allb_ok; [|eassumption]); intros z; apply between_ok.
Qed.

Lemma demo_records_ok : forallb record_okb demo_records = true.
Proof. vm_compute. reflexivity. Qed.

#[export] Instance demo_codec_laws : RecordCodecLaws.
Proof.
  assert (Hto : forall r bs, record_to_vec r = Some bs ->
    exists i, index_of r demo_records = Some i /\ bs = [byte_of (Z.of_nat i)]).
  { intros r bs Hr. unfold record_to_vec, demo_codec in Hr. by apply fmap_Some in Hr. }
  split.
  - intros r bs _ (i & _ & ->)%Hto. cbn [length]. unfold strings_length.
    assert (Hpos : forall o, 0 <= opt_length o) by (intros [x|]; unfold opt_length; cbn [from_option]; lia).
    pose proof (Hpos (ar_host_id r)). pose proof (Hpos (ar_tx_id r)).
    pose proof (Hpos (ar_base r)). pose proof (Hpos (ar_lease_id r)). lia.
  - intros r bs _ (i & Hi & ->)%Hto. cbn [record_from_slice demo_codec].
    apply index_of_lookup in Hi. pose proof (lookup_lt_Some _ _ _ Hi).
    pose proof demo_records_small. rewrite byte_val_of, Z.mod_small by lia. by rewrite Nat2Z.id.
  - intros bs r Hr. destruct bs as [|b [|]]; try done.
    apply record_okb_ok. pose proof demo_records_ok as Hall.
    rewrite forallb_forall in Hall. apply Hall. apply list_elem_of_In.
    unfold record_from_slice, demo_codec in Hr. by eapply list_elem_of_lookup_2.
Qed.

(** ** The documents of the protocol *)

Definition demo_cred : PeerCred := mkCred 1000 1000 42.
Definition demo_capability : list byte := derive_capability (repeat (byte_of 5) 32) demo_cred.

Definition demo_bind : SessionBind :=
  {| sb_host_id := "host-1"; sb_tx_id := "tx-1"; sb_epoch := 9; sb_lease_id := "lease-1";
     sb_worker_group_tag := demo_tag; sb_client_nonce := "n" |}.
Definition demo_established : SessionEstablished :=
  {| se_capability := demo_capability; se_server_nonce := "srv-n"; se_host_id := "host-1";
     se_tx_id := "tx-1"; se_epoch := 1; se_counter := 0 |}.

Definition demo_arm : LocalRequest :=
  Arm "r1" "host-1" "tx-1" 1 "base-1" 100000 0 ["route_present"] [].
Definition demo_health : LocalRequest := ReportHealth "r2" "host-1" "tx-1" 1.
Definition demo_heartbeat : LocalRequest := Heartbeat "r3" "host-1" "tx-1" 1 "lease-1" demo_tag 1.
Definition demo_decide : LocalRequest := RequestDecision "r4" "host-1" "tx-1" 1.

Definition demo_envelope (c : Z) (r : LocalRequest) : RequestEnvelope :=
  {| rq_version := PROTOCOL_VERSION; rq_capability := demo_capability; rq_counter := c;
     rq_request_id := request_id r; rq_host_id := "host-1"; rq_tx_id := "tx-1"; rq_epoch := 1;
     rq_request := r |}.
Definition demo_answer (c : Z) (r : LocalRequest) (resp : LocalResponse) : ResponseEnvelope :=
  {| rs_version := PROTOCOL_VERSION; rs_capability := demo_capability; rs_counter := c;
     rs_request_id := request_id r; rs_host_id := "host-1"; rs_tx_id := "tx-1"; rs_epoch := 1;
     rs_response := resp |}.

Definition demo_requests : list RequestEnvelope :=
  c ← [1; 2; 3; 4]; demo_envelope c <$> [demo_arm; demo_health; demo_heartbeat; demo_decide].
Definition demo_responses : list ResponseEnvelope :=
  [demo_answer 1 demo_arm (ArmedResp "r1"); demo_answer 2 demo_health (HealthAck "r2");
   demo_answer 3 demo_heartbeat (HeartbeatAck "r3");
   demo_answer 4 demo_decide (AuthorityChosen "r4" BeginCommit)].

(** A document is a kind and an index in the table of its kind. *)
Definition demo_document (kind : Z) (i : nat) : list byte :=
  [byte_of kind; byte_of (Z.of_nat i)].
Definition demo_value (key : string) (i : Z) : Value :=
  VObject [("version", VNumber (1 : Number)); (key, VNumber (i : Number))].
Definition value_index (key : string) (v : Value) : option nat :=
  n ← value_get key v; Z.to_nat <$> value_as_u64 n.

#[export] Instance demo_wire : WireCodec := {|
  json_from_slice bs :=
    match bs with
    | [k; i] =>
        let i := byte_val i in
        if byte_val k =? 0 then Some (demo_value "request" i)
        else if byte_val k =? 1 then Some (demo_value "response" i)
        else Some (demo_value "payload" i)
    | _ => None
    end;
  request_to_vec e := demo_document 0 <$> index_of e demo_requests;
  request_from_value v := ok_or (i ← value_index "request" v; demo_requests !! i) "unknown field";
  response_to_vec e := demo_document 1 <$> index_of e demo_responses;
  response_from_value v := ok_or (i ← value_index "response" v; demo_responses !! i) "no response";
  bind_to_vec c :=
    if decide (ce_version c = PROTOCOL_VERSION /\ ce_payload c = demo_bind)
    then Some (demo_document 2 7) else None;
  bind_from_value v :=
    ok_or (i ← value_index "payload" v;
           Some (mkControl PROTOCOL_VERSION
             {| bw_host_id := "host-1"; bw_tx_id := "tx-1"; bw_epoch := 9;
                bw_lease_id := "lease-1"; bw_worker_group_tag := VNumber (Z.of_nat i : Number);
                bw_client_nonce := "n" |})) "no bind";
  established_to_vec _ := Some (demo_document 3 0);
  established_from_value _ := Ok (mkControl PROTOCOL_VERSION demo_established);
|}.

Lemma demo_kind_index k i :
  json_from_slice (demo_document k i) =
  let j := Z.of_nat i mod 256 in
  if k mod 256 =? 0 then Some (demo_value "request" j)
  else if k mod 256 =? 1 then Some (demo_value "response" j)
  else Some (demo_value "payload" j).
Proof. cbn [json_from_slice demo_wire demo_document]. by rewrite !byte_val_of. Qed.

Lemma demo_value_index key i :
  key <> "version" -> (i < 256)%nat -> value_index key (demo_value key (Z.of_nat i)) = Some i.
Proof.
  intros Hk Hi. unfold value_index, demo_value. cbn [value_get members_get].
  rewrite (decide_False (P := "version" = key)) by done. rewrite decide_True by done.
  cbn [mbind option_bind value_as_u64 as_u64 int_number].
  rewrite (proj2 (in_range_Some _ _ _ (Z.of_nat i))) by lia. cbn. by rewrite Nat2Z.id.
Qed.

Lemma index_of_demo {A} `{EqDecision A} (x : A) l i :
  (length l < 256)%nat -> index_of x l = Some i -> l !! i = Some x /\ (i < 256)%nat.
Proof.
  intros Hl Hi. apply index_of_lookup in Hi. split; [done|].
  apply lookup_lt_Some in Hi. lia.
Qed.

Lemma demo_requests_version : Forall (fun e => rq_version e = PROTOCOL_VERSION) demo_requests.
Proof. vm_compute. by repeat constructor. Qed.
Lemma demo_responses_version : Forall (fun e => rs_version e = PROTOCOL_VERSION) demo_responses.
Proof. vm_compute. by repeat constructor. Qed.

#[export] Instance demo_wire_laws : WireCodecLaws.
Proof.
  split.
  - intros e bs _ (i & Hi & ->)%fmap_Some.
    apply index_of_demo in Hi as [Hi Hl]; [|vm_compute; lia].
    exists (demo_value "request" (Z.of_nat i)). rewrite demo_kind_index.
    cbv zeta. rewrite (Z.mod_small (Z.of_nat i)) by lia.
    pose proof (Forall_lookup_1 _ _ _ _ demo_requests_version Hi) as Hv. cbn in Hv.
    split_and!; [done| |].
    + rewrite Hv. split; [|done]. eexists. split; [done|].
      by repeat constructor; cbn; apply bool_decide_eq_true; vm_compute.
    + cbn [request_from_value demo_wire]. rewrite demo_value_index by done. cbn [mbind option_bind].
      by rewrite Hi.
  - intros e bs _ (i & Hi & ->)%fmap_Some.
    apply index_of_demo in Hi as [Hi Hl]; [|vm_compute; lia].
    exists (demo_value "response" (Z.of_nat i)). rewrite demo_kind_index.
    cbv zeta. rewrite (Z.mod_small (Z.of_nat i)) by lia.
    pose proof (Forall_lookup_1 _ _ _ _ demo_responses_version Hi) as Hv. cbn in Hv.
    split_and!; [done|by rewrite Hv|].
    cbn [response_from_value demo_wire]. rewrite demo_value_index by done. cbn [mbind option_bind].
    by rewrite Hi.
  - intros [v b] bs _ Hb. cbn [bind_to_vec demo_wire ce_version ce_payload] in Hb.
    case_decide as Hd; [|done]. destruct Hd as [-> ->]. injection Hb as <-.
    exists (demo_value "payload" 7), (7%Z : @Number int_number). split_and!; [by rewrite demo_kind_index| |done|done].
    split; [|done]. eexists. split; [done|].
    by repeat constructor; cbn; apply bool_decide_eq_true; vm_compute.
Qed.

(** ** The environment *)

#[export] Instance demo_env : Dependencies := {|
  clock_now := demo_clock;
  entropy_byte _ _ := byte_of 5;
  topology_verify_startup _ _ := Ok tt;
  dur_file_fsync _ _ := Ok tt;
  dur_dir_fsync _ _ := Ok tt;
  dur_atomic_rename _ _ _ := Ok tt;
  dur_rename_moves _ := true;
  dur_readback_verify _ fs p bs :=
    if decide (fs_files fs !! p = Some bs) then Ok tt else Err (DurIo "readback mismatch");
  pg_signal _ _ := Ok tt;
  pg_group_alive _ _ := false;
  pg_bounded_wait _ _ := Ok tt;
  job_candidate_count _ := Ok 0;
  floor_read_epoch _ := Ok 0;
  inv_evaluate _ := Ok InvPass;
  base_observed _ := "base-1";
  peer_credentials _ := Ok demo_cred;
  temp_nanos n := Z.of_nat n;
|}.

#[export] Instance demo_readback : HonestReadback.
Proof.
  intros n fs p bs. cbn [dur_readback_verify demo_env]. by case_decide.
Qed.

Definition demo_config : CoreConfig := mkConfig ["srv"] 1000 1000 "host-1".
Definition demo_disk : WdWorld := mkWorld (mkFS ∅ {[ [] ]}) 0 [].

(** ** A run: open, bind, arm, decide *)

Definition or_else {A B} (o : outcome A B) (d : B) : B :=
  match o with Ret b => b | _ => d end.

Definition blank_core : WatchdogCore := mkCore demo_config true None None 0 0.
Definition demo_opened : CoreW :=
  let '(o, w) := open demo_config demo_disk in mkCoreW (or_else o blank_core) w.
Definition demo_bound : outcome RpcError (SessionState * SessionEstablished) * CoreW :=
  bind_with_stream_cred demo_cred demo_bind demo_opened.
Definition demo_session : SessionState := mkSession (Some demo_established) 0
  (Some (mkBound "host-1" "tx-1" 1 "lease-1" demo_tag)).
Definition demo_armed_run : outcome RpcError LocalResponse * CoreW :=
  handle_arm "r1" "host-1" "tx-1" 1 "base-1" demo_deadline ["route_present"] [] (snd demo_bound).
Definition demo_decided_run : outcome RpcError LocalResponse * CoreW :=
  handle_decision "r4" "tx-1" 1 (snd demo_armed_run).

Example demo_opens : fst (open demo_config demo_disk) = Ret (cw_core demo_opened).
Proof. vm_compute. reflexivity. Qed.
Example demo_binds : fst demo_bound = Ret (demo_session, demo_established).
Proof. vm_compute. reflexivity. Qed.
Example demo_arms : fst demo_armed_run = Ret (ArmedResp "r1").
Proof. vm_compute. reflexivity. Qed.
Example demo_decides : fst demo_decided_run = Ret (AuthorityChosen "r4" BeginCommit).
Proof. vm_compute. reflexivity. Qed.
