(* ===== verification/WdTheorems.v ===== *)
(** * The watchdog: its properties

    What makes the decision authority correct: the log on disk and the state
    in memory agree in every reachable state, decisions are final, each
    handler does what it answers, the log reader accepts exactly the logs the
    writer produces, and the session protocol loses, repeats and confuses
    nothing.  Each property is applied to the run of [WdDemo]. *)

From stdpp Require Import relations sorting.
From S2P Require Import Prelude RustStd Json WdTypes WdLog WdLogFacts WdAuthority.
From S2P Require Import WdProtocol WdProtocolFacts WdCore WdStoreFacts WdCoreFacts.
From S2P Require Import WdStartup WdSystem WdHistory WdDemo.

(** ** Helpers of the witnesses *)

Lemma demo_calm w : calm w.
Proof. by intros n _. Qed.

Lemma demo_well ro w : starts_well ro w.
Proof. right. apply demo_calm. Qed.

Lemma demo_own_empty : own_store ["srv"] demo_disk.
Proof.
  assert (Hnil : file_of (log_path ["srv"]) demo_disk = []) by (vm_compute; reflexivity).
  split; rewrite Hnil; [|done]. by intros rs [= <-].
Qed.

Definition demo_sys (s : CoreW) (ses : list SessionState) : Sys := mkSys s ses.

Lemma demo_start_inv : sys_inv (demo_sys demo_opened []).
Proof.
  apply (sys_inv_init demo_config false demo_disk); [apply demo_well|
    apply demo_own_empty|vm_compute; reflexivity].
Qed.

(** ** The invariant of the system *)

Section System.
Context `{JsonNumber} `{!WireCodec} `{!RecordCodec} `{!IoEnv} `{!Dependencies}.
Context `{!RecordCodecLaws} `{!HonestReadback}.

(** C1: in every state the watchdog reaches from a successful startup of a
    store that only it writes, by binding peers, handling their frames,
    whatever is in them and whatever fails on the way, and restarting (by
    [reopen], whatever fails in it, or by an [open] in which no system call
    fails): unless safe mode is latched, the decision log on disk reads, is
    one authority (an arming, renewals, at most one decision), what it
    reconstructs is exactly what the core holds armed, the epoch file agrees
    with it, and what is armed is what was bound.  There is one other case,
    and the code runs into it: a record of more than 64 KiB was written, which
    the reader does not take, and the watchdog runs on, armed, over a log it
    could not open again.  Every session speaks for the durable binding. *)
Theorem reachable_states_agree_with_log config fresh w c w' y :
  starts_well fresh w -> own_store (cfg_store_root config) w ->
  startup config fresh w = (Ret c, w') ->
  rtc wd_step (mkSys (mkCoreW c w') []) y ->
  let s := sy_core y in
  (wc_safe_mode (cw_core s) = false ->
     (exists rs act,
       read_records (log_of s) = Ok rs /\ reconstruct_from None rs = Ok act /\
       match act with
       | None => rs = [] /\ wc_armed (cw_core s) = None
       | Some a =>
           authority_of rs a /\ wc_armed (cw_core s) = Some (armed_of_reconstructed a) /\
           wc_durable_binding (cw_core s) = Some (ra_binding a) /\
           epoch_file (store_root s) (bs_epoch (ra_binding a)) (cw_world s)
       end /\
       wc_log_seq (cw_core s) = Z.of_nat (length rs)) \/
     (oversized (log_of s) /\ is_Some (wc_armed (cw_core s)))) /\
  Forall (session_bound (cw_core s)) (sy_sessions y).
Proof.
  intros Hc Ho Hs Hr. pose proof (sys_inv_init _ _ _ _ _ Hc Ho Hs) as Hinv.
  apply (sys_inv_reachable _ y) in Hinv as [Hsound Hses]; [|done].
  split; [|exact Hses]. intros Hsafe.
  destruct Hsound as [[(_ & _ & Hdur) Harm]|(_ & _ & Hover & Hsome)]; [left|by right].
  destruct (Hdur Hsafe) as (rs & act & Hd).
  exists rs, act. split; [apply Hd|]. split; [apply Hd|]. split; [|apply Hd].
  pose proof (du_armed _ _ _ Hd) as Hx. destruct act as [a|]; cbn in Hx.
  - pose proof (durable_some _ _ _ Hd) as [Ha _]. split_and!; [done|done| |apply (du_epoch _ _ _ Hd)].
    unfold armed_bound in Harm. rewrite Hx in Harm. cbn in Harm.
    by rewrite Harm, armed_binding_reconstructed.
  - split; [by eapply durable_none|done].
Qed.
End System.

(** The run of [WdDemo], as steps: bind, then arm and decide over the wire. *)
Definition demo_frame (c : Z) (r : LocalRequest) : list byte :=
  match encode_request r demo_established c with Ok f => f | Err _ => [] end.
Definition demo_serve (c : Z) (r : LocalRequest) (y : CoreW * SessionState) : CoreW * SessionState :=
  match decode_request (demo_frame c r) (snd y) with
  | (Ret v, ses) =>
      match handle_request v ses (fst y) with
      | (Ret (_, ses), s) => (s, ses)
      | (_, s) => (s, ses)
      end
  | _ => y
  end.
Definition demo_1 : CoreW * SessionState := (snd demo_bound, demo_session).
Definition demo_2 : CoreW * SessionState := demo_serve 1 demo_arm demo_1.
Definition demo_3 : CoreW * SessionState := demo_serve 2 demo_decide demo_2.
Definition sys_of (y : CoreW * SessionState) : Sys := mkSys (fst y) [snd y].

Lemma demo_serve_step c r y v ses1 resp ses2 s :
  decode_request (demo_frame c r) (snd y) = (Ret v, ses1) ->
  handle_request v ses1 (fst y) = (Ret (resp, ses2), s) ->
  wd_step (sys_of y) (sys_of (demo_serve c r y)).
Proof.
  intros Hd Hh. unfold demo_serve. rewrite Hd, Hh.
  exact (StepRequest (fst y) [snd y] 0 (snd y) _ _ _ _ _ eq_refl Hd Hh).
Qed.

Definition demo_bind_frame : list byte :=
  match encode_session_bind demo_bind with Ok f => f | Err _ => [] end.
Lemma demo_bind_decodes : decode_session_bind demo_bind_frame = Ok demo_bind.
Proof. vm_compute. reflexivity. Qed.

Lemma demo_bind_step : wd_step (mkSys demo_opened []) (sys_of demo_1).
Proof.
  pose proof (StepBind demo_opened [] demo_cred _ demo_bind _ _ demo_bind_decodes
    (surjective_pairing demo_bound)) as Hs.
  rewrite demo_binds in Hs. exact Hs.
Qed.

Lemma demo_arm_step : wd_step (sys_of demo_1) (sys_of demo_2).
Proof.
  eapply (demo_serve_step 1 demo_arm); [vm_compute; reflexivity|vm_compute; reflexivity].
Qed.
Lemma demo_decide_step : wd_step (sys_of demo_2) (sys_of demo_3).
Proof.
  eapply (demo_serve_step 2 demo_decide);
    [vm_compute; reflexivity|vm_compute; reflexivity].
Qed.
Lemma demo_run : rtc wd_step (demo_sys demo_opened []) (sys_of demo_3).
Proof.
  eapply rtc_l; [apply demo_bind_step|]. eapply rtc_l; [apply demo_arm_step|].
  apply rtc_once, demo_decide_step.
Qed.

Lemma reachable_states_agree_with_log_witness :
  let s := fst demo_3 in
  wc_safe_mode (cw_core s) = false /\
  exists rs act, read_records (log_of s) = Ok rs /\ reconstruct_from None rs = Ok act /\
    wc_log_seq (cw_core s) = Z.of_nat (length rs).
Proof.
  assert (Hs : wc_safe_mode (cw_core (fst demo_3)) = false) by (vm_compute; reflexivity).
  split; [exact Hs|].
  destruct (reachable_states_agree_with_log demo_config false demo_disk (cw_core demo_opened)
    (cw_world demo_opened) (sys_of demo_3)) as [Hsound _].
  - apply demo_well.
  - apply demo_own_empty.
  - vm_compute. reflexivity.
  - exact demo_run.
  - destruct (Hsound Hs) as [(rs & act & Hr & Hc & _ & Hn)|[Hover _]].
    + exists rs, act. split_and!; done.
    + exfalso. apply oversized_unreadable in Hover as [e He].
      assert (Hok : exists rs, read_records (log_of (fst demo_3)) = Ok rs)
        by (eexists; vm_compute; reflexivity).
      destruct Hok as [rs Hok]. unfold sys_of in He. cbn [sy_core] in He. congruence.
Defined.

(** ** Decisions *)

Section Decisions.
Context `{JsonNumber} `{!WireCodec} `{!RecordCodec} `{!IoEnv} `{!Dependencies}.
Context `{!RecordCodecLaws} `{!HonestReadback}.

(** C5: a decision is final.  Take any state the watchdog reaches from a
    successful startup, as in C1, whose log reads and has a [BeginCommit] or a
    [BeginRevert] in it, latched or not.  Whatever frames and binds come then,
    whatever fails, and however often it restarts: not one byte of the log
    ever changes again; and wherever it runs outside safe mode, it holds that
    verdict, and the log has no other. *)
Theorem decision_is_final config fresh w c w' y y' rs d :
  starts_well fresh w -> own_store (cfg_store_root config) w ->
  startup config fresh w = (Ret c, w') ->
  rtc wd_step (mkSys (mkCoreW c w') []) y ->
  read_records (log_of (sy_core y)) = Ok rs -> d ∈ rs -> is_decision d ->
  rtc wd_step y y' ->
  log_of (sy_core y') = log_of (sy_core y) /\
  (wc_safe_mode (cw_core (sy_core y')) = false ->
     (exists a, wc_armed (cw_core (sy_core y')) = Some a /\ as_chosen a = Some (ar_kind d)) /\
     forall d', d' ∈ rs -> is_decision d' -> d' = d).
Proof.
  intros Hc Ho Hs Hy Hr Hd Hk Hsteps.
  pose proof (sys_inv_reachable _ y (sys_inv_init _ _ _ _ _ Hc Ho Hs) Hy) as Hinv.
  assert (Hlog : log_of (sy_core y') = log_of (sy_core y)).
  { clear Hy. induction Hsteps as [|y y1 y' Hstep _ IH]; [done|].
    pose proof (decided_step _ _ _ _ Hinv Hr Hd Hk Hstep) as Heq.
    rewrite <-Heq. apply IH; [by rewrite Heq|by eapply sys_inv_step]. }
  split; [exact Hlog|]. intros Hsafe.
  pose proof (sys_inv_reachable _ _ Hinv Hsteps) as [[Hset|(_ & _ & Hover & _)] _].
  2: { apply oversized_unreadable in Hover as [e He]. rewrite Hlog in He. congruence. }
  rewrite <-Hlog in Hr. destruct (settled_decided _ _ _ Hset Hr Hd Hk) as (_ & _ & Hch).
  split; [by apply Hch|]. destruct Hset as [(_ & _ & Hdur) _].
  destruct (Hdur Hsafe) as (rs' & act & Hdu).
  pose proof (du_read _ _ _ Hdu) as Hr'. rewrite Hr in Hr'. injection Hr' as <-.
  apply (decision_reconstructs rs act d); [by eapply read_records_valid|apply Hdu|done..].
Qed.

(** C19: what a decision is.  From a sound state outside safe mode,
    [handle_decision] answers a verdict only for the armed transaction and
    epoch, not decided before, at a time the clock did not go back and within
    the deadline, with the base unmoved; when the lease had expired, only
    after the worker's process group was seen dead and no job was left; the
    verdict is the one the invariants gave; and the record was appended and
    both syncs made before it answers, whole: the log has its frame more,
    and reads with it at the end unless the record is over the 64 KiB that the
    reader takes, which no binding with strings of 8 KiB in all makes it
    ([short_fits]).  It never panics, and when it refuses nothing in memory
    changed but the safe-mode latch. *)
Theorem decision_handled rid tx epoch s o s' :
  wd_inv s -> wc_safe_mode (cw_core s) = false ->
  handle_decision rid tx epoch s = (o, s') -> decision_post rid tx epoch s o s'.
Proof. intros Hinv Hsafe. apply wp_run. by apply wp_handle_decision. Qed.

(** C24: arming.  From a sound state outside safe mode, and for any deadline
    that is an instant of the platform ([dispatch_request] makes no other),
    [handle_arm] answers only for this host, with nothing armed, a manifest
    that weakens no invariant, the durable binding's epoch, which is the
    successor of the durable high water, and a deadline in the future; it then
    has advanced the durable epoch to that successor and written the frame of
    the arming, with the lease of the frozen policy, to the empty log.  The log
    then reads as that one record and all is sound - unless the record is over
    the 64 KiB that the reader takes, whatever string of the request or of the
    binding made it so: then the answer is the same and the log cannot be read
    again.  It never panics. *)
Theorem arm_handled rid host tx epoch base deadline mandatory additive s o s' :
  wd_inv s -> wc_safe_mode (cw_core s) = false -> deadline < 2 ^ 63 * NSEC ->
  handle_arm rid host tx epoch base deadline mandatory additive s = (o, s') ->
  arm_post rid host tx epoch base deadline mandatory additive s o s'.
Proof. intros Hinv Hsafe Hd. apply wp_run. by apply wp_handle_arm. Qed.

(** Renewing a lease (or a heartbeat).  It succeeds only for the armed
    binding, undecided, before the lease and the deadline have passed, with a
    clock that did not go back; the new expiry is the frozen policy's, capped
    by the deadline; it is recorded exactly when it extends the lease, and
    what is armed in memory changes with it. *)
Theorem renewal_handled tx epoch lease tag s o s' :
  wd_inv s -> wc_safe_mode (cw_core s) = false ->
  handle_lease_renewal tx epoch lease tag s = (o, s') -> renew_post tx epoch lease tag s o s'.
Proof. intros Hinv Hsafe. apply wp_run. by apply wp_handle_renewal. Qed.
End Decisions.

Section Safety.
Context `{JsonNumber} `{!RecordCodec} `{!IoEnv} `{!Dependencies}.

(** A latched watchdog answers nothing.  In safe mode every request is
    refused with [SafeModeActive], no byte of the store is read or written,
    no interface is called, and the session keeps its counter. *)
Theorem safe_mode_refuses verified session s :
  wc_safe_mode (cw_core s) = true ->
  handle_request verified session s = (Throw SafeModeActive, s).
Proof. intros Hs. unfold handle_request, ensure_not_safe_mode, mbind, M_bind, get_core, gets, throw_if. by rewrite Hs. Qed.

(** A second decision is refused before anything is asked.  With a
    verdict already armed, a decision request is a conflict: no signal, no
    invariant, no clock and no byte of the store is touched. *)
Theorem second_decision_refused rid tx epoch s armed k :
  wc_armed (cw_core s) = Some armed -> as_chosen armed = Some k ->
  as_tx_id armed = tx -> as_epoch armed = epoch ->
  handle_decision rid tx epoch s = (Throw ConflictingRequest, s).
Proof.
  intros Ha Hk <- <-. unfold handle_decision, mbind, M_bind, get_core, gets, of_result, throw_if.
  by rewrite Ha; cbn [ok_or]; rewrite bool_decide_neq_refl, Z.eqb_refl, Hk.
Qed.
End Safety.

Section Panics.
Context `{JsonNumber} `{!RecordCodec} `{!IoEnv} `{!Dependencies}.
Context `{!RecordCodecLaws} `{!HonestReadback}.

(** An arming whose nanoseconds carry the seconds past a [u64]. *)
Definition deadline_overflows (r : LocalRequest) : Prop :=
  match r with
  | Arm _ _ _ _ _ secs nanos _ _ => u64_max < secs + nanos / NSEC
  | _ => False
  end.

Lemma duration_new_None secs nanos :
  Duration_new secs nanos = None <-> u64_max < secs + nanos / NSEC.
Proof. unfold Duration_new. case_match; bool_to_prop; split; try done; lia. Qed.

Lemma wp_dispatch_returns r s :
  wd_inv s -> wc_safe_mode (cw_core s) = false -> ~ deadline_overflows r ->
  wp (dispatch_request r) (fun o _ => o <> Panic) s.
Proof.
  intros Hinv Hsafe Hd.
  destruct r as [i h t e base secs nanos mand add|i h t e|i h t e l g n|i h t e l g n|i h t e];
    cbn [deadline_overflows dispatch_request] in *.
  - unfold deadline_of. destruct (Duration_new secs nanos) as [d|] eqn:Ed;
      [|by apply duration_new_None in Ed].
    rewrite wp_bind, wp_of_result.
    destruct (SystemTime_checked_add UNIX_EPOCH d) as [deadline|] eqn:Ea; cbn [ok_or]; [|done].
    apply SystemTime_checked_add_Some in Ea as [-> Hlt].
    eapply wp_mono; [by apply wp_handle_arm|]. by intros [r|er|] s1 Hp.
  - unfold require_armed_tx. wp_simpl.
    destruct (wc_armed (cw_core s)); cbn [ok_or]; [|done]. wp_simpl. by destruct (bool_decide _).
  - wp_simpl. eapply wp_mono; [by apply wp_handle_renewal|].
    by intros [r|er|] s1 Hp; wp_simpl.
  - wp_simpl. eapply wp_mono; [by apply wp_handle_renewal|].
    by intros [r|er|] s1 Hp; wp_simpl.
  - eapply wp_mono; [by apply wp_handle_decision|]. by intros [r|er|] s1 Hp.
Qed.

#[export] Instance deadline_overflows_dec r : Decision (deadline_overflows r).
Proof. destruct r; cbn; apply _. Defined.

(** The only panic.  From a sound state outside safe mode, handling a
    request panics exactly when it is an arming whose deadline overflows the
    seconds of a [Duration]; nothing was changed before it does. *)
Theorem requests_panic_exactly r s o s' :
  wd_inv s -> wc_safe_mode (cw_core s) = false ->
  dispatch_request r s = (o, s') ->
  (o = Panic <-> deadline_overflows r) /\ (o = Panic -> s' = s).
Proof.
  intros Hinv Hsafe Hrun. destruct (decide (deadline_overflows r)) as [Hd|Hd].
  - destruct r as [i h t e base secs nanos mand add|i h t e|i h t e l g n|i h t e l g n|i h t e];
      try done.
    cbn [dispatch_request] in Hrun. unfold deadline_of in Hrun.
    rewrite (proj2 (duration_new_None _ _) Hd) in Hrun. by injection Hrun as <- <-.
  - pose proof (wp_run _ _ _ _ _ (wp_dispatch_returns r s Hinv Hsafe Hd) Hrun). done.
Qed.
End Panics.

(** ** Startup and binding *)

Section Opening.
Context `{JsonNumber} `{!WireCodec} `{!RecordCodec} `{!IoEnv} `{!Dependencies}.

(** What a start recovers.  On a store that only this program writes,
    [reopen], whatever fails, and [open], where no system call fails, never
    panic, and when they succeed the core is out of safe mode and holds exactly the authority the log
    records: the binding, what is armed, the sequence number and the time of
    the last activity; the log itself was not changed. *)
Theorem startup_recovers `{!RecordCodecLaws} config is_reopen w o w' :
  starts_well is_reopen w -> own_store (cfg_store_root config) w ->
  startup config is_reopen w = (o, w') -> startup_post config w o w'.
Proof. intros Hc Ho. apply wp_run. by apply wp_startup. Qed.

(** A marked store stays closed.  If the safe-mode marker is there and
    can be seen, startup is refused before anything else is looked at, and
    nothing is changed. *)
Theorem marked_store_stays_closed config is_reopen w :
  io_fault (w_tick w) = NoFault ->
  fs_exists (w_fs w) (path_join (cfg_store_root config) SAFE_MODE_REL) = true ->
  startup config is_reopen w = (Throw WSafeModeActive, w_set_fs (w_fs w) w).
Proof.
  intros Hf Hm. unfold startup, path_exists, mbind, M_bind, throw_if. by rewrite Hf, Hm.
Qed.

(** Who may bind, and to what.  A session is established only for the
    configured broker, outside safe mode; an existing durable binding is met
    exactly and never changed; without one, the binding is the request's with
    the next durable epoch, whatever epoch the client asked for; the file
    system is not touched, the session starts at counter zero and its
    capability is fresh entropy mixed with the peer's credentials. *)
Theorem binding_established `{!HonestReadback} cred bind s o s' :
  bind_with_stream_cred cred bind s = (o, s') -> bind_post cred bind s o s'.
Proof. apply wp_run, wp_bind_session. Qed.
End Opening.

(** *** Applied *)

(** The log of a state can be read: it is settled. *)
Lemma demo_settled y rs :
  sys_inv y -> read_records (log_of (sy_core y)) = Ok rs -> wd_inv (sy_core y).
Proof.
  intros [[[Hinv _]|(_ & _ & Hover & _)] _] Hr; [exact Hinv|].
  apply oversized_unreadable in Hover as [e He]. congruence.
Qed.

Lemma demo_inv_2 : wd_inv (fst demo_2) /\ wc_safe_mode (cw_core (fst demo_2)) = false.
Proof.
  split; [|vm_compute; reflexivity].
  assert (Hr : rtc wd_step (demo_sys demo_opened []) (sys_of demo_2)).
  { eapply rtc_l; [apply demo_bind_step|apply rtc_once, demo_arm_step]. }
  eapply (demo_settled (sys_of demo_2)); [exact (sys_inv_reachable _ _ demo_start_inv Hr)|].
  vm_compute. reflexivity.
Qed.
Lemma demo_inv_1 : wd_inv (fst demo_1) /\ wc_safe_mode (cw_core (fst demo_1)) = false.
Proof.
  split; [|vm_compute; reflexivity].
  eapply (demo_settled (sys_of demo_1));
    [exact (sys_inv_reachable _ _ demo_start_inv (rtc_once _ _ demo_bind_step))|].
  vm_compute. reflexivity.
Qed.

(** The logs of the run: empty, armed, decided. *)
Definition demo_log (y : CoreW * SessionState) : list AuthorityRecord :=
  match read_records (log_of (fst y)) with Ok rs => rs | Err _ => [] end.

Lemma demo_log_2 : read_records (log_of (fst demo_2)) = Ok (demo_log demo_2).
Proof. vm_compute. reflexivity. Qed.
Lemma demo_log_3 : read_records (log_of (fst demo_3)) = Ok (demo_log demo_3).
Proof. vm_compute. reflexivity. Qed.
Lemma demo_log_3_decision : demo_log demo_3 !! 1%nat = Some (demo_decision 2 BeginCommit).
Proof. vm_compute. reflexivity. Qed.

(** After the decision: a peer tries to bind with an old epoch, the decision is
    asked for again, and the process restarts. *)
Definition demo_rebound := bind_with_stream_cred demo_cred demo_bind (fst demo_3).
Definition demo_4 : CoreW := snd demo_rebound.
Definition demo_session_3 : SessionState := snd (decode_request (demo_frame 3 demo_decide) (snd demo_3)).
Definition demo_decide_again : outcome RpcError (LocalResponse * SessionState) * CoreW :=
  handle_request (mkAuthenticated demo_decide 3) demo_session_3 demo_4.
Definition demo_again : outcome WatchdogError WatchdogCore * WdWorld :=
  reopen demo_config (cw_world (snd demo_decide_again)).
Definition demo_5 : CoreW := mkCoreW (or_else (fst demo_again) blank_core) (snd demo_again).

Lemma demo_rebind_step ss : wd_step (mkSys (fst demo_3) ss) (mkSys demo_4 ss).
Proof.
  assert (Hret : bind_with_stream_cred demo_cred demo_bind (fst demo_3) = (Throw StaleReconnect, demo_4))
    by (vm_compute; reflexivity).
  exact (StepBind (fst demo_3) ss demo_cred _ demo_bind _ _ demo_bind_decodes Hret).
Qed.

Lemma demo_decide_again_step ss :
  wd_step (mkSys demo_4 (snd demo_3 :: ss)) (mkSys (snd demo_decide_again) (demo_session_3 :: ss)).
Proof.
  assert (Hdec : decode_request (demo_frame 3 demo_decide) (snd demo_3) =
                 (Ret (mkAuthenticated demo_decide 3), demo_session_3)) by (vm_compute; reflexivity).
  assert (Hret : handle_request (mkAuthenticated demo_decide 3) demo_session_3 demo_4 =
                 (Throw ConflictingRequest, snd demo_decide_again))
    by (vm_compute; reflexivity).
  exact (StepRequest demo_4 (snd demo_3 :: ss) 0 (snd demo_3) _ _ _ _ _ eq_refl Hdec Hret).
Qed.

Lemma demo_5_step ss : wd_step (mkSys (snd demo_decide_again) ss) (mkSys demo_5 []).
Proof.
  assert (Hret : startup (wc_config (cw_core (snd demo_decide_again))) true
      (cw_world (snd demo_decide_again)) = (Ret (cw_core demo_5), cw_world demo_5))
    by (vm_compute; reflexivity).
  exact (StepRestart (snd demo_decide_again) ss true _ _ (or_introl eq_refl) Hret).
Qed.

Lemma demo_after : rtc wd_step (sys_of demo_3) (mkSys demo_5 []).
Proof.
  eapply rtc_l; [apply demo_rebind_step|]. eapply rtc_l; [apply demo_decide_again_step|].
  apply rtc_once, demo_5_step.
Qed.

Lemma decision_is_final_witness :
  demo_decision 2 BeginCommit ∈ demo_log demo_3 /\
  log_of demo_5 = log_of (fst demo_3) /\
  exists a, wc_armed (cw_core demo_5) = Some a /\ as_chosen a = Some BeginCommit.
Proof.
  assert (Hd : demo_decision 2 BeginCommit ∈ demo_log demo_3)
    by exact (list_elem_of_lookup_2 _ _ _ demo_log_3_decision).
  split; [exact Hd|].
  destruct (decision_is_final demo_config false demo_disk (cw_core demo_opened)
    (cw_world demo_opened) (sys_of demo_3) (mkSys demo_5 []) (demo_log demo_3)
    (demo_decision 2 BeginCommit)) as [Hlog Hsafe].
  - apply demo_well.
  - exact demo_own_empty.
  - vm_compute. reflexivity.
  - exact demo_run.
  - exact demo_log_3.
  - exact Hd.
  - left. reflexivity.
  - exact demo_after.
  - split; [exact Hlog|]. apply Hsafe. vm_compute. reflexivity.
Defined.

Lemma decision_handled_witness :
  let r := handle_decision "r4" "tx-1" 1 (fst demo_2) in
  decision_post "r4" "tx-1" 1 (fst demo_2) (fst r) (snd r) /\
  fst r = Ret (AuthorityChosen "r4" BeginCommit).
Proof.
  split; [|vm_compute; reflexivity].
  destruct demo_inv_2 as [Hinv Hsafe].
  exact (decision_handled "r4" "tx-1" 1 (fst demo_2) _ _ Hinv Hsafe (surjective_pairing _)).
Defined.

Lemma arm_handled_witness :
  let r := handle_arm "r1" "host-1" "tx-1" 1 "base-1" demo_deadline ["route_present"] [] (fst demo_1) in
  arm_post "r1" "host-1" "tx-1" 1 "base-1" demo_deadline ["route_present"] [] (fst demo_1)
    (fst r) (snd r) /\ fst r = Ret (ArmedResp "r1").
Proof.
  split; [|vm_compute; reflexivity].
  destruct demo_inv_1 as [Hinv Hsafe].
  exact (arm_handled "r1" "host-1" "tx-1" 1 "base-1" demo_deadline ["route_present"] []
    (fst demo_1) _ _ Hinv Hsafe ltac:(by vm_compute)
    (surjective_pairing _)).
Defined.

Lemma renewal_handled_witness :
  let r := handle_lease_renewal "tx-1" 1 "lease-1" demo_tag (fst demo_2) in
  renew_post "tx-1" 1 "lease-1" demo_tag (fst demo_2) (fst r) (snd r) /\ fst r = Ret tt.
Proof.
  split; [|vm_compute; reflexivity].
  destruct demo_inv_2 as [Hinv Hsafe].
  exact (renewal_handled "tx-1" 1 "lease-1" demo_tag (fst demo_2) _ _ Hinv Hsafe
    (surjective_pairing _)).
Defined.

Lemma safe_mode_refuses_witness :
  let s := mkCoreW (set_safe_mode true (cw_core (fst demo_2))) (cw_world (fst demo_2)) in
  handle_request (mkAuthenticated demo_decide 2) demo_session s = (Throw SafeModeActive, s).
Proof. intros s. apply (safe_mode_refuses (mkAuthenticated demo_decide 2) demo_session s). reflexivity. Defined.

Lemma second_decision_refused_witness :
  handle_decision "r5" "tx-1" 1 (fst demo_3) = (Throw ConflictingRequest, fst demo_3).
Proof.
  apply (second_decision_refused "r5" "tx-1" 1 (fst demo_3)
    (match wc_armed (cw_core (fst demo_3)) with Some a => a | None =>
       arm_state "" "" 0 "" "" demo_tag 0 0 0 end) BeginCommit); vm_compute; reflexivity.
Defined.

Lemma requests_panic_exactly_witness :
  let r := Arm "r1" "host-1" "tx-1" 1 "base-1" u64_max NSEC ["route_present"] [] in
  dispatch_request r (fst demo_1) = (Panic, fst demo_1).
Proof.
  intros r. destruct demo_inv_1 as [Hinv Hsafe].
  destruct (dispatch_request r (fst demo_1)) as [o s'] eqn:Hrun.
  destruct (requests_panic_exactly r (fst demo_1) o s' Hinv Hsafe Hrun)
    as [[_ Hp] Hs].
  assert (Ho : o = Panic) by (apply Hp; vm_compute; reflexivity).
  rewrite (Hs Ho), Ho. reflexivity.
Defined.

Lemma startup_recovers_witness :
  let r := startup demo_config false demo_disk in
  startup_post demo_config demo_disk (fst r) (snd r) /\ fst r = Ret (cw_core demo_opened).
Proof.
  split; [|vm_compute; reflexivity].
  apply (startup_recovers demo_config false demo_disk).
  - apply demo_well.
  - exact demo_own_empty.
  - apply surjective_pairing.
Defined.

Definition demo_marked : WdWorld :=
  mkWorld (put_file ["srv"; "state"; "safe-mode.json"] SAFE_MODE_PAYLOAD (w_fs demo_disk)) 0 [].

Lemma marked_store_stays_closed_witness :
  fst (startup demo_config false demo_marked) = Throw WSafeModeActive.
Proof.
  rewrite (marked_store_stays_closed demo_config false demo_marked);
    [reflexivity|reflexivity|vm_compute; reflexivity].
Defined.

Lemma binding_established_witness :
  bind_post demo_cred demo_bind demo_opened (fst demo_bound) (snd demo_bound) /\
  fst demo_bound = Ret (demo_session, demo_established).
Proof.
  split; [|vm_compute; reflexivity].
  exact (binding_established demo_cred demo_bind demo_opened _ _ (surjective_pairing _)).
Defined.
