(* ===== verification/WdLogTheorems.v ===== *)
(** * The decision log: its properties

    Which files read as a log, what an append leaves behind when anything
    fails, what damage is detected, and which authority a log reconstructs. *)

From stdpp Require Import sorting.
From S2P Require Import Prelude RustStd Json WdTypes WdLog WdLogFacts WdAuthority.
From S2P Require Import WdProtocol WdCore WdStoreFacts WdCoreFacts WdStartup WdSystem WdDemo.

#[local] Opaque record_frame WdLog.crc32.

(** The bytes of a log with the given payloads. *)
Definition log_bytes (payloads : list (list byte)) : list byte := concat (record_frame <$> payloads).

(** A codec whose records are over the reader's limit. *)
Definition bulky_codec : RecordCodec := {|
  record_to_vec _ := Some (repeat (byte_of 32) (Z.to_nat 65537));
  record_from_slice _ := None;
|}.

Section Reader.
Context `{!RecordCodec}.

(** C38: the reader accepts exactly the logs made of frames.  A file reads as
    the records [rs] if and only if it is the concatenation of one frame
    (length, CRC-32, payload) per record, each payload within the limit and
    parsing to its record, each record well-formed for its kind, numbered 1, 2,
    3, ... without a gap, with epochs that never decrease. *)
Theorem log_reader_exact bs rs :
  read_records bs = Ok rs <->
  exists payloads,
    bs = log_bytes payloads /\
    Forall (fun p => Z.of_nat (length p) <= MAX_RECORD_BYTES) payloads /\
    Forall2 (fun p r => record_from_slice p = Some r) payloads rs /\
    Forall (fun r => validate_schema r = Ok tt /\ ar_sequence r <= u64_max) rs /\
    ar_sequence <$> rs = Z.of_nat <$> seq 1 (length rs) /\
    Sorted Z.le (0 :: (ar_epoch <$> rs)).
Proof.
  unfold read_records. rewrite read_loop_Ok by done. split.
  - intros (ps & new & -> & -> & Ha). exists ps. cbn [app length] in *.
    apply accepts_spec in Ha. done.
  - intros (ps & -> & Ha). exists ps, rs. split_and!; [done|done|]. by apply accepts_spec.
Qed.

(** One damaged byte is detected.  Change a single byte of any payload of
    a log, anywhere: opening the log fails, whatever follows the record. *)
Theorem log_damage_detected bs rs p a b s post :
  read_records bs = Ok rs -> a <> b -> Z.of_nat (length (p ++ a :: s)) < 2 ^ 32 ->
  let header := be_bytes 4 (Z.of_nat (length (p ++ a :: s))) ++ be_bytes 4 (crc32 (p ++ a :: s)) in
  exists e, read_records (bs ++ header ++ (p ++ b :: s) ++ post) = Err e.
Proof.
  intros Hr Hab Hl header. destruct (read_records_corrupt bs rs p a b s post Hr Hab Hl) as [e He].
  exists e. unfold header. by rewrite <-app_assoc.
Qed.

(** What a readable log reconstructs.  If reconstruction succeeds, the
    records that carry authority are none at all, or one arming, then lease
    renewals, then at most one decision, all of one binding, and the lease in
    force is the frozen policy (an hour, capped by the deadline) applied to
    the last activity. *)
Theorem reconstruction_shape bs rs act :
  read_records bs = Ok rs -> reconstruct_active_authority (mkReader rs) = Ok act ->
  authority_shape rs act.
Proof. intros Hr Hc. apply reconstruct_shape; [by eapply read_records_valid|exact Hc]. Qed.
End Reader.

Section Writer.
Context `{!RecordCodec} `{!IoEnv} `{!Dependencies}.

(** An append is whole or torn, never silent.  Appending to a readable
    log a record that may follow it and is within the reader's limit: a success
    leaves the log with the record at its end, after the file and its directory
    were synced; a failure leaves it as it was, with the whole record, or
    unreadable; no other file is touched, and nothing panics. *)
Theorem append_whole_or_torn `{!RecordCodecLaws} path r rs w o w' :
  read_records (file_of path w) = Ok rs -> may_follow rs r -> fits r ->
  append_record path r w = (o, w') ->
  only_touches (eq path) w w' /\
  match o with
  | Ret _ =>
      read_records (file_of path w') = Ok (rs ++ [r]) /\
      w_calls w' = w_calls w ++ [CFileFsync path (Ok tt); CDirFsync (removelast path) (Ok tt)]
  | Throw _ =>
      file_of path w' = file_of path w \/
      read_records (file_of path w') = Ok (rs ++ [r]) \/
      exists e, read_records (file_of path w') = Err e
  | Panic => False
  end.
Proof.
  intros Hr Hm Hfits Hrun.
  pose proof (wp_run _ _ _ _ _ (wp_append_record path r w) Hrun) as Ha.
  pose proof (touches_append_record path r w) as [Ht _]. rewrite Hrun in Ht. split; [exact Ht|].
  assert (Hwhole : forall payload, record_to_vec r = Some payload -> validate_schema r = Ok tt ->
            Z.of_nat (length payload) < 2 ^ 32 ->
            read_records (file_of path w ++ record_frame payload) = Ok (rs ++ [r])).
  { intros payload Hp Hv Hl. pose proof (read_appended _ _ _ _ Hr Hm Hv Hp Hl) as Hx.
    by rewrite decide_True in Hx. }
  destruct o as [[]|e|]; [| |done].
  - destruct Ha as (payload & Hp & Hv & Hl & Hf & Hcalls). rewrite Hf. by split; [apply Hwhole|].
  - destruct Ha as [Ha|(payload & k & Hp & Hv & Hl & Ha)]; [by left|].
    destruct (decide (k = 0%nat)) as [->|Hk]; [left; by rewrite Ha, take_0, app_nil_r|right].
    destruct (decide (k < length (record_frame payload))%nat) as [Hlt|Hge]; rewrite Ha.
    + right. by eapply read_records_torn; [exact Hr|lia|].
    + left. rewrite take_ge by lia. by apply Hwhole.
Qed.

(** The writer does not know the reader's limit.  Appending a record
    whose payload is over the 64 KiB the reader accepts succeeds, is synced,
    and leaves a log that no longer opens, whatever is appended after it. *)
Theorem oversized_record_bricks_log path r rs payload w u w' post :
  read_records (file_of path w) = Ok rs -> record_to_vec r = Some payload ->
  MAX_RECORD_BYTES < Z.of_nat (length payload) < 2 ^ 32 ->
  append_record path r w = (Ret u, w') ->
  exists e, read_records (file_of path w' ++ post) = Err e.
Proof.
  intros Hr Hp Hbig Hrun.
  pose proof (wp_run _ _ _ _ _ (wp_append_record path r w) Hrun) as (pl & Hp' & _ & _ & Hf & _).
  rewrite Hp in Hp'. injection Hp' as <-. rewrite Hf, <-app_assoc.
  by eapply read_records_oversized.
Qed.
End Writer.

(** The lease policy.  A lease observed before its hard deadline, at an
    instant the platform can represent an hour past, runs for an hour or to
    the deadline, whichever is first; it is refused in every other case, and
    it never outlives the deadline or ends before it starts. *)
Theorem lease_policy observed deadline :
  match lease_expiry_at observed deadline with
  | Ok expiry =>
      expiry = Z.min (observed + 3600 * NSEC) deadline /\ observed < expiry <= deadline
  | Err _ => deadline <= observed \/ 2 ^ 63 * NSEC <= observed + 3600 * NSEC
  end.
Proof.
  destruct (lease_expiry_at observed deadline) as [expiry|e] eqn:He.
  - apply lease_expiry_at_Ok in He as (Hlt & _ & ->).
    unfold LEASE_WINDOW, Duration_from_secs. split; [done|]. unfold NSEC. lia.
  - by apply lease_expiry_at_Err in He.
Qed.

(** *** Applied *)

Definition demo_p : list byte := [byte_of 0].
Definition demo_first : AuthorityRecord := demo_armed (demo_clock 0).

Lemma demo_logged : read_records (log_bytes [demo_p]) = Ok [demo_first].
Proof. vm_compute. reflexivity. Qed.

Lemma log_damage_detected_witness :
  exists e, read_records (log_bytes [demo_p] ++
    (be_bytes 4 1 ++ be_bytes 4 (crc32 demo_p)) ++ [byte_of 1] ++ record_frame demo_p) = Err e.
Proof.
  exact (log_damage_detected (log_bytes [demo_p]) [demo_first] [] (byte_of 0) (byte_of 1) []
    (record_frame demo_p) demo_logged ltac:(by vm_compute) ltac:(by vm_compute)).
Defined.

Lemma reconstruction_shape_witness :
  exists act, reconstruct_active_authority (mkReader [demo_first]) = Ok act /\
    authority_shape [demo_first] act.
Proof.
  eexists. split; [vm_compute; reflexivity|].
  apply (reconstruction_shape (log_bytes [demo_p])); [exact demo_logged|vm_compute; reflexivity].
Defined.

Lemma append_whole_or_torn_witness :
  let w := cw_world demo_opened in
  let path := log_path ["srv"] in
  read_records (file_of path (snd (append_record path demo_first w))) = Ok [demo_first].
Proof.
  intros w path.
  assert (Hr : read_records (file_of path w) = Ok []) by (vm_compute; reflexivity).
  assert (Hf : may_follow [] demo_first).
  { split; [apply record_okb_ok; vm_compute; reflexivity|].
    split_and!; vm_compute; first [reflexivity|discriminate]. }
  assert (Hfit : fits demo_first) by (apply short_fits; [apply record_okb_ok|]; vm_compute;
    first [reflexivity|discriminate]).
  destruct (append_whole_or_torn path demo_first [] w (Ret tt)
    (snd (append_record path demo_first w)) Hr Hf Hfit) as [_ [Hread _]].
  - vm_compute. reflexivity.
  - exact Hread.
Defined.

Lemma oversized_record_bricks_log_witness :
  let w := cw_world demo_opened in
  let path := log_path ["srv"] in
  exists e, @read_records bulky_codec
    (file_of path (snd (@append_record bulky_codec _ _ path demo_first w)) ++ []) = Err e.
Proof.
  intros w path.
  apply (@oversized_record_bricks_log bulky_codec _ _ path demo_first []
    (repeat (byte_of 32) (Z.to_nat 65537)) w tt).
  - vm_compute. reflexivity.
  - reflexivity.
  - rewrite repeat_length. unfold MAX_RECORD_BYTES. lia.
  - assert (Hf : fst (@append_record bulky_codec _ _ path demo_first w) = Ret tt)
      by (vm_compute; reflexivity).
    rewrite <-Hf. apply surjective_pairing.
Defined.

(** ** An [open] that cannot see the log

    [Path::exists] answers no when the call fails.  On a disk whose log holds
    an armed and decided authority, an [open] in which that one call fails
    succeeds, out of safe mode, with nothing armed and sequence number zero;
    [reopen], under the same failure, is refused by the epoch file. *)
Definition decided_disk : WdWorld := cw_world (snd demo_decided_run).
Definition unseeing : IoEnv := {|
  io_fault n := if Nat.eqb n (2 + w_tick decided_disk) then FailBefore else NoFault;
|}.

Lemma open_forgets_unseen_log :
  match @open demo_codec unseeing demo_env demo_config decided_disk with
  | (Ret c, w) => wc_safe_mode c = false /\ wc_armed c = None /\ wc_log_seq c = 0 /\
                  file_of (log_path ["srv"]) w <> []
  | _ => False
  end /\
  fst (@reopen demo_codec unseeing demo_env demo_config decided_disk) = Throw WEpochLogMismatch.
Proof. vm_compute. split_and!; try reflexivity. discriminate. Qed.
