(* ===== verification/WdWireTheorems.v ===== *)
(** * The watchdog's protocol: its properties

    Frames are read back exactly or refused; a session accepts each request
    once, in order, for its own binding; what one side writes is what the
    other reads; and a capability is tied to the peer it was issued to. *)

From S2P Require Import Prelude RustStd Json WdTypes WdLog WdLogFacts WdProtocol WdProtocolFacts.
From S2P Require Import WdDemo.

#[local] Opaque WdLog.crc32 WdProtocol.crc32 be_bytes.

(** ** Frames *)

(** Receive [n] frames, one after the other. *)
Fixpoint receive (n : nat) : M Stream RpcError (list (list byte)) :=
  match n with
  | O => mret []
  | S n =>
      frame ← read_frame;
      payload ← of_result (decode_frame frame);
      payloads ← receive n;
      mret (payload :: payloads)
  end.

(** Decoding a frame inverts encoding it, and nothing else decodes: a
    byte string is a frame of a payload if and only if encoding that payload
    gives that string. *)
Theorem frame_codec_exact frame payload :
  decode_frame frame = Ok payload <-> encode_frame payload = Ok frame.
Proof. apply decode_frame_Ok. Qed.

(** Frames do not run into each other.  From a stream that starts with
    the frames of some payloads, receiving that many frames yields exactly
    those payloads, in order, and leaves what follows unread. *)
Theorem frames_are_delimited payloads frames rest err :
  Forall2 (fun p f => encode_frame p = Ok f) payloads frames ->
  receive (length payloads) (mkStream (concat frames ++ rest) err) = (Ret payloads, mkStream rest err).
Proof.
  intros Hall. induction Hall as [|p f ps fs Hf _ IH]; [done|].
  cbn [length receive concat]. rewrite <-app_assoc.
  unfold mbind, M_bind. rewrite (read_frame_written p f) by done.
  unfold of_result. rewrite (proj2 (decode_frame_Ok f p) Hf).
  by rewrite IH.
Qed.

(** One damaged payload byte is reported as a checksum mismatch. *)
Theorem frame_damage_detected p a b s frame :
  a <> b -> encode_frame (p ++ a :: s) = Ok frame ->
  decode_frame (take 8 frame ++ (p ++ b :: s)) = Err CrcMismatch.
Proof. apply decode_frame_corrupt. Qed.

(** ** Sessions *)

Section Sessions.
Context `{JsonNumber} `{!WireCodec}.

(** C39: which requests a session accepts.  A frame is accepted exactly when
    it holds a well-formed document of the known version with no unknown
    member, whose envelope carries the session's own capability and binding
    and the session's next counter, and agrees with the request inside it;
    the session then moves to that counter and nothing else of it changes. *)
Theorem request_accepted_exactly frame s a s' :
  decode_request frame s = (Ret a, s') <->
  exists env est,
    request_document frame env /\ ss_established s = Some est /\
    rq_capability env = se_capability est /\
    (rq_host_id env, rq_tx_id env, rq_epoch env) = (se_host_id est, se_tx_id est, se_epoch est) /\
    rq_counter env = ss_last_counter s + 1 /\ rq_counter env <> 0 /\ rq_counter env <= u64_max /\
    rq_request_id env = request_id (rq_request env) /\
    binding_identity (rq_request env) = (se_host_id est, se_tx_id est, se_epoch est) /\
    a = mkAuthenticated (rq_request env) (rq_counter env) /\
    s' = mkSession (ss_established s) (ss_last_counter s + 1) (ss_bound s).
Proof.
  rewrite decode_request_Ret. setoid_rewrite verify_authenticated_Ok. split.
  - intros (env & Hdoc & [Hid Hb] & (est & He & Hcap & Hnz & Hcn & Hmax & Hh & Ht & Hep) & -> & ->).
    exists env, est. unfold advance_counter. rewrite <-Hcn, Hb, Hh, Ht, Hep. by split_and!.
  - intros (env & est & Hdoc & He & Hcap & [= Hh Ht Hep] & Hcn & Hnz & Hmax & Hid & Hb & -> & ->).
    exists env. unfold advance_counter, envelope_consistent. rewrite <-Hcn, Hb, Hh, Ht, Hep.
    split_and!; try done. by exists est.
Qed.

(** Counters are accepted in order, without gap or repetition.  Whatever
    frames a session is fed, the counters of the requests it accepts are the
    ones that follow its own, one by one, and it ends at the last of them,
    still bound to what it was established for. *)
Theorem counters_in_order frames s accepted s' :
  feed frames s = (accepted, s') ->
  au_counter <$> accepted =
    (fun i => ss_last_counter s + Z.of_nat i) <$> seq 1 (length accepted) /\
  ss_last_counter s' = ss_last_counter s + Z.of_nat (length accepted) /\
  ss_established s' = ss_established s.
Proof. apply feed_counters. Qed.

(** A request is accepted once.  A frame that a session accepted is
    refused as a replay, without a trace, by every later state of it. *)
Theorem replay_refused frame frames s a s1 accepted s2 :
  decode_request frame s = (Ret a, s1) -> feed frames s1 = (accepted, s2) ->
  ss_last_counter s2 < u64_max ->
  decode_request frame s2 = (Throw ReplayCounter, s2).
Proof.
  intros Hd Hf Hmax. apply feed_counters in Hf as (_ & Hl & He).
  pose proof Hd as Hd'. apply decode_request_Ret in Hd' as (env & _ & _ & _ & -> & ->).
  eapply decode_request_replayed; [exact Hd|by rewrite He| |exact Hmax].
  cbn [au_counter advance_counter ss_last_counter] in *. lia.
Qed.

(** ** Round trips *)

(** A request arrives as it was sent.  The frame a client encodes with
    the session's next counter, for its own binding, is decoded by the session
    to that very request. *)
Theorem request_round_trip `{!WireCodecLaws} r est c frame s :
  encode_request r est c = Ok frame -> is_u64 c -> is_u64 (se_epoch est) -> local_request_ok r ->
  ss_established s = Some est -> c = ss_last_counter s + 1 -> c <> 0 ->
  binding_identity r = (se_host_id est, se_tx_id est, se_epoch est) ->
  decode_request frame s = (Ret (mkAuthenticated r c), advance_counter c s).
Proof. apply decode_encode_request. Qed.

(** A response is taken for the request it answers, and for no other:
    the client decodes it to the response that was sent exactly when
    capability, counter, request, host, transaction and epoch are the ones it
    waits for, and refuses it otherwise. *)
Theorem response_answers_its_request `{!WireCodecLaws} resp r est c frame r' est' c' :
  encode_response resp r est c = Ok frame -> is_u64 c -> is_u64 (se_epoch est) ->
  decode_response frame r' est' c' =
  if bool_decide (se_capability est = se_capability est' /\ c = c' /\
                  request_id r = request_id r' /\ se_host_id est = se_host_id est' /\
                  se_tx_id est = se_tx_id est' /\ se_epoch est = se_epoch est')
  then Ok resp else Err ResponseBindingMismatch.
Proof. apply decode_encode_response. Qed.

(** A bind request arrives as it was sent. *)
Theorem bind_round_trip `{!JsonNumberLaws} `{!WireCodecLaws} b frame :
  encode_session_bind b = Ok frame -> bind_ok b -> decode_session_bind frame = Ok b.
Proof. apply decode_encode_bind. Qed.

(** Which JSON values are a worker group: the integers from 2 to
    [i32::MAX], and nothing else, whichever way the number is represented. *)
Theorem worker_group_tag_exact `{!JsonNumberLaws} v t :
  parse_worker_group_tag_value v = Ok t <-> value_as_u64 v = Some (tag_raw t) /\ tag_ok t.
Proof. apply parse_tag_Ok. Qed.
End Sessions.

(** A capability is tied to its peer.  From the same 32 bytes of
    entropy, peers that differ in user, group or process get different
    capabilities. *)
Theorem capability_tied_to_peer entropy c c' :
  length entropy = 32%nat -> derive_capability entropy c = derive_capability entropy c' ->
  cred_uid c mod 2 ^ 32 = cred_uid c' mod 2 ^ 32 /\
  cred_gid c mod 2 ^ 32 = cred_gid c' mod 2 ^ 32 /\
  cred_pid c mod 2 ^ 32 = cred_pid c' mod 2 ^ 32.
Proof. apply derive_capability_inj. Qed.

(** ** Applied *)

#[local] Transparent WdLog.crc32 WdProtocol.crc32 be_bytes.

Definition demo_frame_of (r : result RpcError (list byte)) : list byte :=
  match r with Ok f => f | Err _ => [] end.
Definition demo_sent (c : Z) (r : LocalRequest) : list byte :=
  demo_frame_of (encode_request r demo_established c).

Lemma frames_are_delimited_witness :
  receive (length [demo_document 0 0; demo_document 0 7])
    (mkStream (concat [demo_sent 1 demo_arm; demo_sent 2 demo_decide] ++ [byte_of 9]) "eof") =
  (Ret [demo_document 0 0; demo_document 0 7], mkStream [byte_of 9] "eof").
Proof.
  assert (Hall : Forall2 (fun p f => encode_frame p = Ok f) [demo_document 0 0; demo_document 0 7]
                   [demo_sent 1 demo_arm; demo_sent 2 demo_decide]).
  { apply Forall2_cons; split; [vm_compute; reflexivity|].
    apply Forall2_cons; split; [vm_compute; reflexivity|constructor]. }
  exact (frames_are_delimited _ _ [byte_of 9] "eof" Hall).
Defined.

Lemma frame_damage_detected_witness :
  decode_frame (take 8 (demo_sent 1 demo_arm) ++ [byte_of 0; byte_of 1]) = Err CrcMismatch.
Proof.
  apply (frame_damage_detected [byte_of 0] (byte_of 0) (byte_of 1) [] (demo_sent 1 demo_arm)).
  - by vm_compute.
  - vm_compute. reflexivity.
Defined.

Lemma counters_in_order_witness :
  let fs := [demo_sent 1 demo_arm; demo_sent 1 demo_arm; demo_sent 3 demo_decide;
             demo_sent 2 demo_health] in
  au_counter <$> fst (feed fs demo_session) = [1; 2].
Proof.
  intros fs.
  destruct (counters_in_order fs demo_session (fst (feed fs demo_session))
    (snd (feed fs demo_session)) (surjective_pairing _)) as [Hc _].
  rewrite Hc. vm_compute. reflexivity.
Defined.

Lemma replay_refused_witness :
  let s2 := snd (feed [demo_sent 2 demo_health] (advance_counter 1 demo_session)) in
  decode_request (demo_sent 1 demo_arm) s2 = (Throw ReplayCounter, s2).
Proof.
  intros s2.
  apply (replay_refused (demo_sent 1 demo_arm) [demo_sent 2 demo_health] demo_session
    (mkAuthenticated demo_arm 1) (advance_counter 1 demo_session)
    (fst (feed [demo_sent 2 demo_health] (advance_counter 1 demo_session)))).
  - vm_compute. reflexivity.
  - apply surjective_pairing.
  - by vm_compute.
Defined.

Lemma request_round_trip_witness :
  decode_request (demo_sent 1 demo_arm) demo_session =
  (Ret (mkAuthenticated demo_arm 1), advance_counter 1 demo_session).
Proof.
  apply (request_round_trip demo_arm demo_established 1);
    first [reflexivity|discriminate|by vm_compute|vm_compute; reflexivity].
Defined.

Lemma response_answers_its_request_witness :
  let f := demo_frame_of (encode_response (HealthAck "r2") demo_health demo_established 2) in
  decode_response f demo_health demo_established 2 = Ok (HealthAck "r2") /\
  decode_response f demo_health demo_established 3 = Err ResponseBindingMismatch.
Proof.
  intros f.
  assert (Hf : encode_response (HealthAck "r2") demo_health demo_established 2 = Ok f)
    by (vm_compute; reflexivity).
  clearbody f.
  pose proof (response_answers_its_request (HealthAck "r2") demo_health demo_established 2 f
    demo_health demo_established 2 Hf ltac:(by vm_compute) ltac:(by vm_compute)) as H2.
  pose proof (response_answers_its_request (HealthAck "r2") demo_health demo_established 2 f
    demo_health demo_established 3 Hf ltac:(by vm_compute) ltac:(by vm_compute)) as H3.
  rewrite bool_decide_eq_true_2 in H2 by (split_and!; reflexivity).
  rewrite bool_decide_eq_false_2 in H3 by (intros (_ & Hc & _); discriminate Hc).
  split; [exact H2|exact H3].
Defined.

Lemma bind_round_trip_witness :
  decode_session_bind (demo_frame_of (encode_session_bind demo_bind)) = Ok demo_bind.
Proof. apply bind_round_trip; [vm_compute; reflexivity|by vm_compute]. Defined.

Lemma worker_group_tag_exact_witness :
  parse_worker_group_tag_value (VNumber (7%Z : @Number int_number)) = Ok demo_tag.
Proof. apply worker_group_tag_exact. split; [reflexivity|by vm_compute]. Defined.

Lemma capability_tied_to_peer_witness :
  derive_capability (repeat (byte_of 5) 32) (mkCred 1 2 3) <>
  derive_capability (repeat (byte_of 5) 32) (mkCred 1 2 4).
Proof.
  intros Heq. destruct (capability_tied_to_peer (repeat (byte_of 5) 32) (mkCred 1 2 3)
    (mkCred 1 2 4) ltac:(reflexivity) Heq) as (_ & _ & Hp). discriminate Hp.
Defined.
