(* ===== verification/TxTypes.v ===== *)
(** * Broker: the data of the transaction engine

    [proto/src/digest.rs], [proto/src/dto/transaction.rs], the parameters of
    [proto/src/wire.rs] the engine takes, [broker/src/transaction/state.rs]
    and the records of [broker/src/storage/] and [broker/src/events.rs]. *)

From S2P Require Import Prelude RustStd Json.

(** ** proto/src/digest.rs *)

Inductive DigestAlgorithm := Sha256.
#[export] Instance DigestAlgorithm_eq_dec : EqDecision DigestAlgorithm.
Proof. solve_decision. Defined.

(** 32 bytes, by construction. *)
Record Digest := mkDigest {
  dg_algorithm : DigestAlgorithm;
  dg_bytes : list byte;
}.
#[export] Instance Digest_eq_dec : EqDecision Digest.
Proof. solve_decision. Defined.

Definition label (a : DigestAlgorithm) : string := match a with Sha256 => "sha256" end.
Definition from_sha256_bytes (bytes : list byte) : Digest := mkDigest Sha256 bytes.

Definition COLON : Ascii.ascii := Ascii.ascii_of_nat 58.

(** [write!(f, "{byte:02x}")] *)
Definition byte_hex (b : byte) : string :=
  String (hex_char (byte_val b / 16)) (String (hex_char (byte_val b mod 16)) "").

Definition digest_fmt (d : Digest) : string :=
  label (dg_algorithm d) +:+ String COLON "" +:+ String.concat "" (map byte_hex (dg_bytes d)).

(** [str::split_once(':')] *)
Fixpoint split_once (sep : Ascii.ascii) (s : string) : option (string * string) :=
  match s with
  | EmptyString => None
  | String c s =>
      if decide (c = sep) then Some ("", s)
      else '(a, b) ← split_once sep s; Some (String c a, b)
  end.

(** A lowercase hexadecimal digit, the only ones [deserialize] lets through. *)
Definition hex_value (c : Ascii.ascii) : option Z :=
  let v := Z.of_nat (Ascii.nat_of_ascii c) in
  if (48 <=? v) && (v <=? 57) then Some (v - 48)
  else if (97 <=? v) && (v <=? 102) then Some (v - 87)
  else None.

Fixpoint parse_hex_pairs (s : string) : option (list byte) :=
  match s with
  | EmptyString => Some []
  | String h (String l s) =>
      vh ← hex_value h; vl ← hex_value l;
      bs ← parse_hex_pairs s;
      Some (byte_of (vh * 16 + vl) :: bs)
  | _ => None
  end.

Definition digest_deserialize (raw : string) : result string Digest :=
  '(algorithm, hex) ← ok_or (split_once COLON raw) "digest missing algorithm tag";
  fail_if (bool_decide (algorithm <> label Sha256)) "unsupported digest algorithm";;
  fail_if (negb (Nat.eqb (String.length hex) 64)) "malformed digest";;
  bytes ← ok_or (parse_hex_pairs hex) "malformed digest";
  Ok (mkDigest Sha256 bytes).

(** ** proto/src/dto/transaction.rs and wire.rs *)

Definition TxId := string.

Record BaseRevision := mkBase {
  br_generation : option string;
  br_etc_git_commit : string;
  br_config_digest : Digest;
}.

Record TestPlan := mkPlan {
  tp_adapter : string;
  tp_steps : list string;
}.

Record ConfigProposeResult := mkProposeResult {
  pr_tx_id : TxId;
  pr_diff : string;
  pr_test_plan : TestPlan;
  pr_affected_resources : list string;
  pr_base_revision : BaseRevision;
}.

(** The states on the wire: [TransactionState] of the protocol crate. *)
Inductive WireState :=
  | WIdle | WProposed | WTesting | WApplying | WProbation | WProbationPassed
  | WCommitting | WCommitted | WRejected | WReverting | WReverted.

Inductive EffectClass := EffR | EffD | EffM | EffE | EffF.

Record TxStepResult := mkStep {
  sr_tx_id : TxId;
  sr_state : WireState;
}.

Record TxStatusResult := mkStatus {
  st_tx_id : TxId;
  st_state : WireState;
  st_effect_set : list EffectClass;
  st_base_revision : option BaseRevision;
}.

Record ConfigFileChange := mkChange {
  ch_path : string;
  ch_content : string;
}.

Record ConfigProposeParams := mkProposeParams {
  cp_idempotency_key : string;
  cp_changes : list ConfigFileChange;
}.

Record TxApplyParams := mkApplyParams {
  ap_tx_id : TxId;
  ap_idempotency_key : string;
}.

#[export] Instance BaseRevision_eq_dec : EqDecision BaseRevision.
Proof. solve_decision. Defined.
#[export] Instance TestPlan_eq_dec : EqDecision TestPlan.
Proof. solve_decision. Defined.
#[export] Instance WireState_eq_dec : EqDecision WireState.
Proof. solve_decision. Defined.
#[export] Instance EffectClass_eq_dec : EqDecision EffectClass.
Proof. solve_decision. Defined.
#[export] Instance TxStepResult_eq_dec : EqDecision TxStepResult.
Proof. solve_decision. Defined.
#[export] Instance ConfigProposeResult_eq_dec : EqDecision ConfigProposeResult.
Proof. solve_decision. Defined.

(** ** broker/src/transaction/state.rs *)

Inductive TransactionState :=
  | TNone | TProposed | TTesting | TApplying | TProbation | TRejected
  | TProbationPassed | TCommitting | TCommitted | TReverting | TReverted.
#[export] Instance TransactionState_eq_dec : EqDecision TransactionState.
Proof. solve_decision. Defined.

Definition from_wire (value : WireState) : TransactionState :=
  match value with
  | WIdle => TNone | WProposed => TProposed | WTesting => TTesting | WApplying => TApplying
  | WProbation => TProbation | WRejected => TRejected
  | WProbationPassed => TProbationPassed | WCommitting => TCommitting
  | WCommitted => TCommitted | WReverting => TReverting | WReverted => TReverted
  end.

Definition to_wire (value : TransactionState) : WireState :=
  match value with
  | TNone => WIdle | TProposed => WProposed | TTesting => WTesting | TApplying => WApplying
  | TProbation => WProbation | TRejected => WRejected
  | TProbationPassed => WProbationPassed | TCommitting => WCommitting
  | TCommitted => WCommitted | TReverting => WReverting | TReverted => WReverted
  end.

Definition is_broker_owned (state : WireState) : bool :=
  match state with
  | WProposed | WTesting | WApplying | WProbation | WRejected => true
  | _ => false
  end.

Definition is_watchdog_owned (state : WireState) : bool :=
  match state with
  | WProbationPassed | WCommitting | WCommitted | WReverting | WReverted => true
  | _ => false
  end.

Definition broker_may_enter (from to : TransactionState) : bool :=
  match from, to with
  | TNone, TProposed => true
  | TProposed, (TTesting | TRejected) => true
  | TTesting, (TApplying | TRejected) => true
  | TApplying, (TProbation | TRejected) => true
  | _, _ => false
  end.

(** ** broker/src/storage/ and broker/src/events.rs: the records *)

Inductive DurabilityError := Io | FsyncFailed | RenameFailed.

Record WalRecord := mkWal {
  wr_record_version : Z;
  wr_seq : Z;
  wr_tx_id : TxId;
  wr_state : WireState;
  wr_idempotency_key : option string;
  wr_idem_fingerprint : option string;
  wr_agent_id : string;
  wr_manifest_digest : Digest;
  wr_base_revision : BaseRevision;
  wr_effect_set : list EffectClass;
  wr_diff : string;
  wr_affected_resources : list string;
  wr_approval_ref : option string;
  wr_result_json : option string;
}.

Record IdempotencyRecord := mkIdem {
  id_key : string;
  id_tx_id : string;
  id_fingerprint : string;
  id_result_json : string;
}.

Record EventRecord := mkEventRecord {
  er_kind : string;
  er_payload : string;
}.

Record StoredEvent := mkStored {
  ev_seq : Z;
  ev_kind : string;
  ev_payload : string;
}.

Record EventCursor := mkCursor {
  cu_log_id : string;
  cu_seq : Z;
}.

Record EventMeta := mkMeta {
  me_log_id : string;
  me_next_seq : Z;
}.

Inductive EventError :=
  | MalformedCursor | ForeignLog | BeyondTail
  | EvIo (e : DurabilityError).

#[export] Instance DurabilityError_eq_dec : EqDecision DurabilityError.
Proof. solve_decision. Defined.
#[export] Instance WalRecord_eq_dec : EqDecision WalRecord.
Proof. solve_decision. Defined.
#[export] Instance IdempotencyRecord_eq_dec : EqDecision IdempotencyRecord.
Proof. solve_decision. Defined.
#[export] Instance StoredEvent_eq_dec : EqDecision StoredEvent.
Proof. solve_decision. Defined.
#[export] Instance EventMeta_eq_dec : EqDecision EventMeta.
Proof. solve_decision. Defined.
#[export] Instance EventError_eq_dec : EqDecision EventError.
Proof. solve_decision. Defined.

(** ** What the engine asks of its libraries and its host *)

(** [serde_json] on the documents of the engine, [uuid], [ulid], [base64] and
    the standard hasher.  A fresh identifier depends on when it is drawn. *)
Class BrokerCodec `{JsonNumber} := {
  wal_to_vec : WalRecord -> option (list byte);
  wal_from_str : list byte -> option WalRecord;
  checkpoint_to_vec : Z -> option (list byte);
  checkpoint_from_str : list byte -> option Z;
  idem_to_vec : IdempotencyRecord -> option (list byte);
  idem_from_str : list byte -> option IdempotencyRecord;
  event_to_string : StoredEvent -> option (list byte);
  event_from_str : list byte -> option StoredEvent;
  meta_to_vec : EventMeta -> option (list byte);
  meta_from_str : list byte -> option EventMeta;
  step_to_string : TxStepResult -> option string;
  step_from_str : string -> option TxStepResult;
  propose_payload_to_string : ConfigProposeResult -> option string -> option string;
  propose_payload_from_str : string -> option (ConfigProposeResult * option string);
  propose_result_from_str : string -> option ConfigProposeResult;
  propose_params_to_string : ConfigProposeParams -> option string;
  apply_params_to_string : TxApplyParams -> option string;
  payload_value_from_str : string -> option Value;
  cursor_to_string : string -> Z -> option string;
  cursor_from_str : string -> option (string * Z);
  base64url_encode : string -> string;
  base64url_decode : string -> option string;  (* to valid UTF-8 *)
  uuid_parse_ok : string -> bool;
  new_uuid : nat -> string;
  new_ulid : nat -> string;
  default_hash : string -> Z;
}.

(** Values in the ranges of their types. *)
Definition wal_record_ok (r : WalRecord) : Prop :=
  is_u32 (wr_record_version r) /\ is_u64 (wr_seq r) /\
  length (dg_bytes (wr_manifest_digest r)) = 32%nat /\
  length (dg_bytes (br_config_digest (wr_base_revision r))) = 32%nat.

(** What the libraries promise: a document is UTF-8 and reads back as the
    value that was written; a compact document is one line. *)
Class BrokerCodecLaws `{BrokerCodec} : Prop := {
  wal_roundtrip r bs :
    wal_record_ok r -> wal_to_vec r = Some bs -> utf8_ok bs = true /\ wal_from_str bs = Some r;
  checkpoint_roundtrip n bs :
    is_u64 n -> checkpoint_to_vec n = Some bs -> utf8_ok bs = true /\ checkpoint_from_str bs = Some n;
  step_roundtrip r text : step_to_string r = Some text -> step_from_str text = Some r;
  event_roundtrip e line :
    is_u64 (ev_seq e) -> event_to_string e = Some line ->
    utf8_ok line = true /\ event_from_str line = Some e /\ line <> [] /\
    (byte_of 10 ∉ line) /\ last line <> Some (byte_of 13);
  meta_roundtrip m bs :
    is_u64 (me_next_seq m) -> meta_to_vec m = Some bs -> utf8_ok bs = true /\ meta_from_str bs = Some m;
}.

(** The host adapter: what it observes and proposes, when it is asked. *)
Record AdapterProposeOutcome := mkOutcome {
  ao_diff : string;
  ao_test_plan : TestPlan;
  ao_affected_resources : list string;
  ao_candidate_closure : option string;
}.

Class HostAdapter := {
  current_base_revision : nat -> BaseRevision;
  propose_config : nat -> list ConfigFileChange -> result string AdapterProposeOutcome;
}.
