(* ===== verification/TxState.v ===== *)
(** * Facts about transaction states and digests *)

From S2P Require Import Prelude RustStd Json TxTypes.

Lemma from_to_wire s : from_wire (to_wire s) = s.
Proof. by destruct s. Qed.
Lemma to_from_wire s : to_wire (from_wire s) = s.
Proof. by destruct s. Qed.

(** Distance to the end of the broker's part of a transaction. *)
Definition rank (s : TransactionState) : nat :=
  match s with TNone => 4 | TProposed => 3 | TTesting => 2 | TApplying => 1 | _ => 0 end.

Lemma broker_may_enter_owned from to :
  broker_may_enter from to = true ->
  is_broker_owned (to_wire to) = true /\ is_watchdog_owned (to_wire to) = false.
Proof. by destruct from, to. Qed.

Lemma broker_may_enter_decreases from to :
  broker_may_enter from to = true -> (rank to < rank from)%nat.
Proof. destruct from, to; try done; cbn; lia. Qed.

(** ** Digests *)

Lemma hex_value_char d : 0 <= d < 16 -> hex_value (hex_char d) = Some d.
Proof.
  intros Hd. assert (Hcases : In d (map Z.of_nat (seq 0 16))).
  { apply in_map_iff. exists (Z.to_nat d). split; [lia|]. apply in_seq. lia. }
  cbn in Hcases. repeat (destruct Hcases as [<-|Hcases]; [done|]). done.
Qed.

Lemma parse_hex_bytes bs : parse_hex_pairs (String.concat "" (map byte_hex bs)) = Some bs.
Proof.
  induction bs as [|b bs IH]; [done|].
  assert (Hc : String.concat "" (map byte_hex (b :: bs)) =
               byte_hex b +:+ String.concat "" (map byte_hex bs)).
  { cbn. by destruct bs. }
  rewrite Hc. pose proof (byte_val_range b).
  change (byte_hex b +:+ ?s) with
    (String (hex_char (byte_val b / 16)) (String (hex_char (byte_val b mod 16)) s)).
  cbn [parse_hex_pairs]. rewrite !hex_value_char.
  - rewrite IH. cbn. rewrite Z.mul_comm, <-Z.div_mod by lia. by rewrite byte_of_val.
  - split; [apply Z.div_pos; lia|apply Z.div_lt_upper_bound; lia].
  - apply Z.mod_pos_bound. lia.
Qed.

Lemma length_hex_bytes bs :
  String.length (String.concat "" (map byte_hex bs)) = (2 * length bs)%nat.
Proof.
  induction bs as [|b bs IH]; [done|].
  assert (Hc : String.concat "" (map byte_hex (b :: bs)) =
               byte_hex b +:+ String.concat "" (map byte_hex bs)).
  { cbn. by destruct bs. }
  rewrite Hc. change (String.length (byte_hex b +:+ ?s)) with (S (S (String.length s))).
  rewrite IH. cbn [length]. lia.
Qed.

Lemma digest_roundtrip_lemma bytes :
  length bytes = 32%nat -> digest_deserialize (digest_fmt (mkDigest Sha256 bytes)) = Ok (mkDigest Sha256 bytes).
Proof.
  intros Hl. unfold digest_deserialize, digest_fmt. cbn [dg_algorithm dg_bytes label].
  set (hex := String.concat "" (map byte_hex bytes)).
  replace (split_once COLON _) with (Some ("sha256", hex)) by reflexivity.
  cbn [ok_or]. run_ok. rewrite bool_decide_neq_refl. cbn [fail_if]. run_ok.
  unfold hex. rewrite length_hex_bytes, Hl. cbn [Nat.mul Nat.add Nat.eqb negb fail_if]. run_ok.
  by rewrite parse_hex_bytes.
Qed.

Lemma parse_hex_length s bs : parse_hex_pairs s = Some bs -> String.length s = (2 * length bs)%nat.
Proof.
  revert s. induction bs as [|b bs IH]; intros s Hs.
  - destruct s as [|h [|l s]]; [done|done|]. cbn in Hs.
    destruct (hex_value h), (hex_value l); cbn in Hs; try done.
    by destruct (parse_hex_pairs s).
  - destruct s as [|h [|l s]]; [done|done|]. cbn in Hs.
    destruct (hex_value h), (hex_value l); cbn in Hs; try done.
    destruct (parse_hex_pairs s) eqn:E; cbn in Hs; [|done]. injection Hs as <- ->.
    apply IH in E. cbn. lia.
Qed.

Lemma digest_parsed_length raw d :
  digest_deserialize raw = Ok d -> length (dg_bytes d) = 32%nat /\ dg_algorithm d = Sha256.
Proof.
  unfold digest_deserialize. intros Hd. inv_ok. cbn. split; [|done].
  match goal with H : parse_hex_pairs _ = Some _ |- _ => apply parse_hex_length in H as Hl end.
  match goal with H : negb (Nat.eqb _ 64) = false |- _ =>
    apply negb_false_iff, Nat.eqb_eq in H as Hn end. lia.
Qed.
