(* ===== verification/TxStorage.v ===== *)
(** * Broker: durable stores of the transaction engine

    [broker/src/storage/durability.rs] (the production implementation),
    [storage/wal.rs], [storage/idempotency.rs] and [broker/src/events.rs]. *)

From S2P Require Import Prelude RustStd Json TxTypes.

(** The calls on the host adapter, with their answers. *)
Inductive TxCall :=
  | CBaseRevision (b : BaseRevision)
  | CPropose (r : result string AdapterProposeOutcome).

Abbreviation TxWorld := (World TxCall).

(** ** storage/durability.rs: [RealDurability] *)

Section Durability.
Context `{!IoEnv}.

Definition io_ {A} (m : M TxWorld IoError A) : M TxWorld DurabilityError A :=
  mapping_err (fun _ => Io) m.

Definition sync_file (path : Path) : M TxWorld DurabilityError unit :=
  io_ (open_existing path);; io_ (sync_all path).

Definition write_all_and_sync (path : Path) (bytes : list byte) :
    M TxWorld DurabilityError unit :=
  io_ (fs_write path bytes);; sync_file path.

Definition sync_parent (path : Path) : M TxWorld DurabilityError unit :=
  match path_parent path with
  | None => mret tt
  | Some parent => io_ (open_dir parent);; io_ (sync_all parent)
  end.

Definition atomic_rename (from to : Path) : M TxWorld DurabilityError unit :=
  io_ (fs_rename from to);; sync_parent to.
End Durability.

(** Run one step after another over a list. *)
Fixpoint mfor {S E A B} (f : A -> M S E B) (l : list A) : M S E (list B) :=
  match l with
  | [] => mret []
  | x :: l => y ← f x; ys ← mfor f l; mret (y :: ys)
  end.

(** ** storage/wal.rs *)

Record WalStore := mkStore {
  ws_root : Path;
  ws_safe_mode : bool;
  ws_checkpoint_seq : Z;
}.

Record WalRecovery := mkRecovery {
  re_safe_mode : bool;
  re_records : list WalRecord;
}.

Definition json_name (stem : string) : string := stem +:+ ".json".

Definition wal_record_seq (name : string) : option Z := parse_u64 (file_stem name).

Definition has_extension (ext name : string) : bool := bool_decide (extension name = Some ext).

Definition max_seq (records : list WalRecord) : Z := fold_right Z.max 0 (wr_seq <$> records).

(** The loop over [records.iter().enumerate()], from index [idx]. *)
Fixpoint sequential_from (idx : Z) (seqs : list Z) : bool :=
  match seqs with
  | [] => true
  | s :: seqs => (s =? u64_saturating_add idx 1) && sequential_from (idx + 1) seqs
  end.

Definition records_consistent_with_checkpoint (records : list WalRecord) (checkpoint_seq : Z) :
    bool :=
  (max_seq records =? checkpoint_seq) && sequential_from 0 (wr_seq <$> records).

Section Wal.
Context `{JsonNumber} `{!BrokerCodec} `{!IoEnv}.

Definition checkpoint_path (root : Path) : Path := path_join root ["checkpoint.json"].
Definition checkpoint_temp (root : Path) : Path := path_join root ["checkpoint.json.tmp"].
Definition records_dir (root : Path) : Path := path_join root ["records"].
Definition record_path (root : Path) (seq : Z) : Path :=
  path_join (records_dir root) [json_name (format_decimal seq)].

(** [WalStore::open] *)
Definition wal_open (root : Path) : M TxWorld DurabilityError WalStore :=
  io_ (create_dir_all root);;
  io_ (create_dir_all (records_dir root));;
  there ← path_exists (checkpoint_path root);
  if there : bool then
    text ← attempt (fs_read_to_string (checkpoint_path root));
    mret (match text with
          | Ok text =>
              match checkpoint_from_str text with
              | Some seq => mkStore root false seq
              | None => mkStore root true 0
              end
          | Err _ => mkStore root true 0
          end)
  else mret (mkStore root false 0).

Definition has_ambiguous_temp_files {E} (dir : Path) : M TxWorld E bool :=
  names ← attempt (read_dir dir);
  mret (match names with
        | Err _ => true
        | Ok names => existsb (has_extension "tmp") names
        end).

Definition read_record (dir : Path) (name : string) : M TxWorld DurabilityError WalRecord :=
  text ← io_ (fs_read_to_string (path_join dir [name]));
  of_result (ok_or (wal_from_str text) FsyncFailed).

Definition load_records (s : WalStore) : M TxWorld DurabilityError (list WalRecord) :=
  throw_if (ws_safe_mode s) FsyncFailed;;
  let dir := records_dir (ws_root s) in
  names ← io_ (read_dir dir);
  let paths := filter (fun n => has_extension "json" n) names in
  let paths := sort_by_key (fun n => default u64_max (wal_record_seq n)) paths in
  mfor (read_record dir) paths.

(** [WalStore::recover] *)
Definition recover {E} (s : WalStore) : M TxWorld E WalRecovery :=
  let safe := mkRecovery true [] in
  if ws_safe_mode s then mret safe
  else
    temps ← has_ambiguous_temp_files (records_dir (ws_root s));
    if temps : bool then mret safe
    else
      loaded ← attempt (load_records s);
      mret (match loaded with
            | Err _ => safe
            | Ok records =>
                if records_consistent_with_checkpoint records (ws_checkpoint_seq s)
                then mkRecovery false records else safe
            end).

(** The checkpoint is replaced by way of its temporary file. *)
Definition write_checkpoint (s : WalStore) (seq : Z) : M TxWorld DurabilityError WalStore :=
  cp_bytes ← of_result (ok_or (checkpoint_to_vec seq) FsyncFailed);
  write_all_and_sync (checkpoint_temp (ws_root s)) cp_bytes;;
  atomic_rename (checkpoint_temp (ws_root s)) (checkpoint_path (ws_root s));;
  mret (mkStore (ws_root s) (ws_safe_mode s) seq).

(** [append_transition]: the store it leaves; an error leaves it unchanged. *)
Definition append_transition (s : WalStore) (record : WalRecord) :
    M TxWorld DurabilityError WalStore :=
  throw_if (ws_safe_mode s) FsyncFailed;;
  let seq := wr_seq record in
  let temp := path_join (records_dir (ws_root s)) [format_decimal seq +:+ ".json.tmp"] in
  let final_path := record_path (ws_root s) seq in
  bytes ← of_result (ok_or (wal_to_vec record) FsyncFailed);
  write_all_and_sync temp bytes;;
  atomic_rename temp final_path;;
  write_checkpoint s seq.

Definition revert_last_transition (s : WalStore) (seq : Z) :
    M TxWorld DurabilityError WalStore :=
  let path := record_path (ws_root s) seq in
  there ← path_exists path;
  (if there : bool then io_ (remove_file path) else mret tt);;
  let prev := u64_saturating_sub seq 1 in
  if prev =? 0 then
    _ ← attempt (remove_file (checkpoint_path (ws_root s)));
    mret (mkStore (ws_root s) (ws_safe_mode s) 0)
  else write_checkpoint s prev.
End Wal.

(** ** storage/idempotency.rs *)

Record IdempotencyStore := mkIdemStore {
  is_root : Path;
  is_entries : gmap string IdempotencyRecord;
}.

Section Idempotency.
Context `{JsonNumber} `{!BrokerCodec} `{!IoEnv}.

Definition idem_get (s : IdempotencyStore) (key : string) : option IdempotencyRecord :=
  is_entries s !! key.

Definition idem_path (root : Path) (key : string) : Path :=
  path_join root [json_name (format_hex16 (default_hash key))].
Definition idem_temp (root : Path) (key : string) : Path :=
  path_join root [json_name (format_hex16 (default_hash key)) +:+ ".tmp"].

Definition read_binding (root : Path) (name : string) :
    M TxWorld DurabilityError IdempotencyRecord :=
  text ← io_ (fs_read_to_string (path_join root [name]));
  of_result (ok_or (idem_from_str text) FsyncFailed).

(** [IdempotencyStore::open] *)
Definition idem_open (root : Path) : M TxWorld DurabilityError IdempotencyStore :=
  io_ (create_dir_all root);;
  names ← attempt (read_dir root);
  let names := filter (fun n => has_extension "json" n)
                 (match names with Ok names => names | Err _ => [] end) in
  records ← mfor (read_binding root) names;
  mret (mkIdemStore root
    (fold_left (fun m r => <[id_key r := r]> m) records (∅ : gmap string IdempotencyRecord))).

(** [IdempotencyStore::insert] *)
Definition idem_insert (s : IdempotencyStore) (record : IdempotencyRecord) :
    M TxWorld DurabilityError IdempotencyStore :=
  let key := id_key record in
  bytes ← of_result (ok_or (idem_to_vec record) FsyncFailed);
  write_all_and_sync (idem_temp (is_root s) key) bytes;;
  atomic_rename (idem_temp (is_root s) key) (idem_path (is_root s) key);;
  mret (mkIdemStore (is_root s) (<[key := record]> (is_entries s))).

(** [IdempotencyStore::remove] *)
Definition idem_remove (s : IdempotencyStore) (key : string) :
    M TxWorld DurabilityError IdempotencyStore :=
  let path := idem_path (is_root s) key in
  there ← path_exists path;
  (if there : bool then io_ (remove_file path) else mret tt);;
  mret (mkIdemStore (is_root s) (delete key (is_entries s))).

Definition apply_refusal_result (result_json : option string) : bool :=
  match (raw ← result_json; step_from_str raw) with
  | Some step => bool_decide (sr_state step = WRejected)
  | None => false
  end.

Definition op_for_state (state : WireState) (result_json : option string) : option string :=
  match state with
  | WProposed => Some "config.propose"
  | WApplying => Some "tx.apply"
  | WRejected => if apply_refusal_result result_json then Some "tx.apply" else None
  | _ => None
  end.

Definition idem_key (agent_id op key : string) : string :=
  agent_id +:+ ":" +:+ op +:+ ":" +:+ key.

(** The binding a WAL record stands for, if it stands for one. *)
Definition wal_binding (record : WalRecord) : option IdempotencyRecord :=
  key ← wr_idempotency_key record;
  result_json ← wr_result_json record;
  op ← op_for_state (wr_state record) (wr_result_json record);
  Some (mkIdem (idem_key (wr_agent_id record) op key) (wr_tx_id record)
          (default (wr_tx_id record) (wr_idem_fingerprint record)) result_json).

(** [merge_from_wal]: a binding that is there stays. *)
Definition merge_from_wal (records : list WalRecord) (s : IdempotencyStore) :
    IdempotencyStore :=
  mkIdemStore (is_root s)
    (fold_left (fun m record =>
       match wal_binding record with
       | Some b => match m !! id_key b with Some _ => m | None => <[id_key b := b]> m end
       | None => m
       end) records (is_entries s)).
End Idempotency.

(** ** events.rs *)

Record EventLog := mkEventLog {
  el_root : Path;
  el_meta : EventMeta;
}.

Definition NEWLINE : byte := byte_of 10.
Definition CARRIAGE_RETURN : byte := byte_of 13.

(** A line of [str::lines]: without its final carriage return. *)
Definition strip_cr (l : list byte) : list byte :=
  match last l with
  | Some c => if decide (c = CARRIAGE_RETURN) then removelast l else l
  | None => l
  end.

(** [str::lines]: split at newlines; the last line may lack its own, and is
    then kept as it is. *)
Fixpoint lines_from (acc : list byte) (text : list byte) : list (list byte) :=
  match text with
  | [] => match acc with [] => [] | _ => [acc] end
  | c :: text =>
      if decide (c = NEWLINE) then strip_cr acc :: lines_from [] text
      else lines_from (acc ++ [c]) text
  end.

Definition lines (text : list byte) : list (list byte) := lines_from [] text.

Section Events.
Context `{JsonNumber} `{!BrokerCodec} `{!IoEnv}.

Definition ev_io {A} (m : M TxWorld IoError A) : M TxWorld EventError A :=
  mapping_err (fun _ => EvIo Io) m.

Definition validate_log_id (log_id : string) : result EventError unit :=
  fail_if (bool_decide (log_id = "")) MalformedCursor;;
  fail_if (negb (uuid_parse_ok log_id)) MalformedCursor.

Definition after_seq (log_id : string) (seq : Z) : EventCursor := mkCursor log_id seq.

Definition cursor_encode (c : EventCursor) : string :=
  base64url_encode (default "" (cursor_to_string (cu_log_id c) (cu_seq c))).

Definition cursor_parse (encoded : string) : result EventError EventCursor :=
  json ← ok_or (base64url_decode encoded) MalformedCursor;
  '(log_id, seq) ← ok_or (cursor_from_str json) MalformedCursor;
  validate_log_id log_id;;
  Ok (mkCursor log_id seq).

Definition meta_path (root : Path) : Path := path_join root ["meta.json"].
Definition meta_temp (root : Path) : Path := path_join root ["meta.json.tmp"].
Definition events_path (root : Path) : Path := path_join root ["log.jsonl"].

Definition persist_meta (root : Path) (meta : EventMeta) : M TxWorld EventError unit :=
  meta_bytes ← of_result (ok_or (meta_to_vec meta) MalformedCursor);
  mapping_err EvIo (write_all_and_sync (meta_temp root) meta_bytes);;
  mapping_err EvIo (atomic_rename (meta_temp root) (meta_path root)).

Definition fresh_uuid {E} : M TxWorld E string := fun w =>
  (Ret (new_uuid (w_tick w)), mkWorld (w_fs w) (S (w_tick w)) (w_calls w)).

(** [EventLog::open] *)
Definition events_open (root : Path) : M TxWorld EventError EventLog :=
  ev_io (create_dir_all root);;
  there ← path_exists (meta_path root);
  meta ← (if there : bool then
            text ← ev_io (fs_read_to_string (meta_path root));
            meta ← of_result (ok_or (meta_from_str text) MalformedCursor);
            of_result (validate_log_id (me_log_id meta));;
            mret meta
          else
            log_id ← fresh_uuid;
            let meta := mkMeta log_id 1 in
            persist_meta root meta;;
            mret meta);
  mret (mkEventLog root meta).

Fixpoint parse_lines (ls : list (list byte)) : result EventError (list StoredEvent) :=
  match ls with
  | [] => Ok []
  | [] :: ls => parse_lines ls
  | line :: ls =>
      event ← ok_or (event_from_str line) MalformedCursor;
      events ← parse_lines ls;
      Ok (event :: events)
  end.

(** [EventLog::read_all] *)
Definition read_all (l : EventLog) : M TxWorld EventError (list StoredEvent) :=
  let log_path := events_path (el_root l) in
  there ← path_exists log_path;
  if negb there then mret []
  else
    text ← ev_io (fs_read_to_string log_path);
    of_result (parse_lines (lines text)).

Definition check_integrity (meta : EventMeta) (events : list StoredEvent) :
    result EventError unit :=
  let expected_next :=
    match last events with
    | Some event => u64_saturating_add (ev_seq event) 1
    | None => 1
    end in
  fail_if (negb (me_next_seq meta =? expected_next)) MalformedCursor;;
  fail_if (negb (sequential_from 0 (ev_seq <$> events))) MalformedCursor.

Definition validate_integrity (l : EventLog) : M TxWorld EventError unit :=
  events ← read_all l;
  of_result (check_integrity (el_meta l) events).

(** [EventLog::append] takes its number before it writes: the log it leaves
    is returned with the outcome, also when the write failed. *)
Definition bump_meta (l : EventLog) : EventLog :=
  mkEventLog (el_root l)
    (mkMeta (me_log_id (el_meta l)) (u64_saturating_add (me_next_seq (el_meta l)) 1)).

Definition events_write (l : EventLog) (stored : StoredEvent) : M TxWorld EventError unit :=
  line ← of_result (ok_or (event_to_string stored) MalformedCursor);
  let log_path := events_path (el_root l) in
  ev_io (open_append log_path);;
  ev_io (write_all log_path (line ++ [NEWLINE]));;
  mapping_err EvIo (sync_file log_path);;
  persist_meta (el_root l) (el_meta (bump_meta l)).

Definition events_append (l : EventLog) (record : EventRecord) :
    M TxWorld EventError (result EventError StoredEvent * EventLog) :=
  let stored := mkStored (me_next_seq (el_meta l)) (er_kind record) (er_payload record) in
  r ← attempt (events_write l stored);
  mret (match r with Ok _ => Ok stored | Err e => Err e end, bump_meta l).

Definition replay (l : EventLog) (cursor : EventCursor) :
    M TxWorld EventError (list StoredEvent) :=
  of_result (validate_log_id (cu_log_id cursor));;
  throw_if (bool_decide (cu_log_id cursor <> me_log_id (el_meta l))) ForeignLog;;
  events ← read_all l;
  let max_seq := u64_saturating_sub (me_next_seq (el_meta l)) 1 in
  throw_if ((max_seq <? cu_seq cursor) && (0 <? max_seq)) BeyondTail;;
  mret (filter (fun e => cu_seq cursor < ev_seq e) events).

Definition latest_cursor (l : EventLog) : EventCursor :=
  mkCursor (me_log_id (el_meta l)) (u64_saturating_sub (me_next_seq (el_meta l)) 1).
End Events.
