(* ===== verification/TxNames.v ===== *)
(** * Broker: names of records, and directory listings

    The number of a WAL record is the stem of its file's name.  What a listing
    of the records directory yields, sorted, is the records in order. *)

From stdpp Require Import sorting.
From S2P Require Import Prelude RustStd Json TxTypes TxStorage.

(** ** Decimal names *)

Lemma digit_char_value d : 0 <= d < 10 -> digit_value (digit_char d) = Some d.
Proof.
  intros Hd. assert (Hcases : In d (map Z.of_nat (seq 0 10))).
  { apply in_map_iff. exists (Z.to_nat d). split; [lia|]. apply in_seq. lia. }
  cbn in Hcases. repeat (destruct Hcases as [<-|Hcases]; [done|]). done.
Qed.

Lemma parse_decimal fuel n acc :
  0 <= n <= u64_max -> n < 10 ^ Z.of_nat fuel ->
  parse_digits (decimal_digits fuel n acc) 0 = parse_digits acc n.
Proof.
  revert n acc. induction fuel as [|fuel IH]; intros n acc Hn Hf.
  { cbn in Hf. replace n with 0 by lia. done. }
  assert (Hm : 0 <= n mod 10 < 10) by (apply Z.mod_pos_bound; lia).
  cbn [decimal_digits]. destruct (n <? 10) eqn:E; bool_to_prop.
  - rewrite Z.mod_small by lia. cbn [parse_digits]. rewrite digit_char_value by lia.
    cbn [mbind option_bind]. rewrite (proj2 (Z.leb_le _ _)) by lia. f_equal.
  - assert (Hd : 0 <= n / 10 <= u64_max).
    { split; [apply Z.div_pos; lia|]. etrans; [apply Z.div_le_upper_bound with (q := n); lia|lia]. }
    rewrite IH; [|done|].
    + cbn [parse_digits]. rewrite digit_char_value by lia. cbn [mbind option_bind].
      rewrite Z.mul_comm, <-Z.div_mod by lia. by rewrite (proj2 (Z.leb_le _ _)) by lia.
    + apply Z.div_lt_upper_bound; [lia|]. rewrite Nat2Z.inj_succ, Z.pow_succ_r in Hf by lia. lia.
Qed.

Lemma decimal_head fuel n acc :
  0 <= n -> exists d s, 0 <= d < 10 /\ decimal_digits (S fuel) n acc = String (digit_char d) s.
Proof.
  revert n acc. induction fuel as [|fuel IH]; intros n acc Hn.
  - exists (n mod 10), acc. split; [apply Z.mod_pos_bound; lia|]. cbn. by destruct (n <? 10).
  - change (decimal_digits (S (S fuel)) n acc) with
      (let acc := String (digit_char (n mod 10)) acc in
       if n <? 10 then acc else decimal_digits (S fuel) (n / 10) acc).
    cbv zeta. destruct (n <? 10) eqn:E.
    + exists (n mod 10), acc. split; [apply Z.mod_pos_bound; lia|done].
    + apply IH, Z.div_pos; lia.
Qed.

Lemma parse_format n : is_u64 n -> parse_u64 (format_decimal n) = Some n.
Proof.
  intros Hn. unfold format_decimal. destruct (decimal_head 39 n "") as (d & s & Hd & Heq); [apply Hn|].
  pose proof (parse_decimal 40 n "" Hn) as Hp. rewrite Heq in *. unfold parse_u64.
  rewrite decide_False.
  - rewrite Hp; [done|]. unfold is_u64, u64_max in Hn. etrans; [apply Z.lt_succ_r, Hn|]. by vm_compute.
  - intros Hplus. apply (f_equal digit_value) in Hplus. by rewrite digit_char_value in Hplus.
Qed.

Lemma format_nonempty n : 0 <= n -> format_decimal n <> "".
Proof.
  intros Hn. unfold format_decimal. destruct (decimal_head 39 n "") as (d & s & _ & ->); done.
Qed.

(** *** Stems and extensions *)

Lemma split_last_dot_app x y a b :
  split_last_dot y = Some (a, b) -> split_last_dot (x +:+ y) = Some (x +:+ a, b).
Proof. intros Hy. induction x as [|c x IH]; [done|].
  change (String c x +:+ y) with (String c (x +:+ y)). cbn [split_last_dot]. by rewrite IH.
Qed.

Lemma append_empty_r x : x +:+ "" = x.
Proof.
  induction x as [|c x IH]; [done|]. change (String c x +:+ "") with (String c (x +:+ "")).
  by rewrite IH.
Qed.

Lemma json_name_stem x : x <> "" -> file_stem (json_name x) = x /\ extension (json_name x) = Some "json".
Proof.
  intros Hx. unfold file_stem, extension, json_name.
  rewrite (split_last_dot_app x ".json" "" "json") by done.
  rewrite append_empty_r. by destruct x.
Qed.

Lemma tmp_name_extension x : extension (x +:+ ".json.tmp") = Some "tmp".
Proof.
  unfold extension. rewrite (split_last_dot_app x ".json.tmp" ".json" "tmp") by done.
  by destruct x.
Qed.

(** The name of the record of index [i]: its number is [i + 1]. *)
Definition record_name (i : nat) : string := json_name (format_decimal (Z.of_nat i + 1)).

Lemma record_name_seq i : Z.of_nat i + 1 <= u64_max -> wal_record_seq (record_name i) = Some (Z.of_nat i + 1).
Proof.
  intros Hi. unfold wal_record_seq, record_name.
  destruct (json_name_stem (format_decimal (Z.of_nat i + 1))) as [-> _].
  - apply format_nonempty. lia.
  - apply parse_format. unfold is_u64. lia.
Qed.

Lemma record_name_ext i : has_extension "json" (record_name i) = true /\ has_extension "tmp" (record_name i) = false.
Proof.
  unfold has_extension, record_name.
  destruct (json_name_stem (format_decimal (Z.of_nat i + 1))) as [_ ->];
    [apply format_nonempty; lia|done].
Qed.

(** ** Sorting a listing *)

Section Sorting.
Context {A : Type} (key : A -> Z).

Lemma insert_by_key_perm x l : insert_by_key key x l ≡ₚ x :: l.
Proof.
  induction l as [|y l IH]; [done|]. cbn. destruct (_ <=? _); [done|].
  rewrite IH. apply Permutation_swap.
Qed.

Lemma sort_by_key_perm l : sort_by_key key l ≡ₚ l.
Proof. induction l as [|x l IH]; [done|]. cbn. by rewrite insert_by_key_perm, IH. Qed.

Definition key_le (x y : A) : Prop := key x <= key y.

Lemma insert_by_key_sorted x l : StronglySorted key_le l -> StronglySorted key_le (insert_by_key key x l).
Proof.
  induction 1 as [|y l Hs IH Hy]; [by repeat constructor|]. cbn.
  destruct (key x <=? key y) eqn:E; bool_to_prop.
  - constructor; [by constructor|]. constructor; [done|].
    eapply Forall_impl; [exact Hy|]. intros z Hz. unfold key_le in *. lia.
  - constructor; [done|]. rewrite insert_by_key_perm. constructor; [unfold key_le; lia|done].
Qed.

Lemma sort_by_key_sorted l : StronglySorted key_le (sort_by_key key l).
Proof. induction l; cbn; [constructor|by apply insert_by_key_sorted]. Qed.

(** A listing of elements with distinct keys sorts to the list in order. *)
Lemma sort_by_key_unique l t :
  l ≡ₚ t -> StronglySorted (fun x y => key x < key y) t -> sort_by_key key l = t.
Proof.
  intros Hp Ht. apply (StronglySorted_unique_strong key_le).
  - intros x y Hx Hy Hxy Hyx. rewrite sort_by_key_perm, Hp in Hx.
    assert (Heq : key x = key y) by (unfold key_le in *; lia). clear Hxy Hyx Hp.
    induction Ht as [|z t Ht IH Hz]; [by apply not_elem_of_nil in Hx|].
    rewrite Forall_forall in Hz. apply elem_of_cons in Hx as [->|Hx], Hy as [->|Hy]; [done|..|auto].
    + apply Hz in Hy. lia.
    + apply Hz in Hx. lia.
  - apply sort_by_key_sorted.
  - clear Hp. induction Ht as [|z t Ht IH Hz]; [constructor|]. constructor; [done|].
    eapply Forall_impl; [exact Hz|]. intros x Hx. cbn in Hx. unfold key_le. lia.
  - by rewrite sort_by_key_perm.
Qed.
End Sorting.

(** ** Listings *)

Lemma entry_name_Some d p x : entry_name d p = Some x <-> p = path_join d [x].
Proof.
  unfold entry_name, path_join. destruct p as [|a p]; [split; [done|]; by destruct d|].
  set (q := a :: p). assert (Hq : q <> []) by done. clearbody q.
  destruct (exists_last Hq) as (l & y & ->). rewrite removelast_last, last_snoc.
  case_bool_decide as Hl; split.
  - intros [= ->]. by subst.
  - intros Heq. by apply app_inj_tail in Heq as [_ ->].
  - done.
  - intros Heq. by apply app_inj_tail in Heq as [-> _].
Qed.

Lemma elem_of_entries fs d x :
  x ∈ entries fs d <->
  is_Some (fs_files fs !! path_join d [x]) \/ path_join d [x] ∈ fs_dirs fs.
Proof.
  unfold entries. rewrite list_elem_of_omap. setoid_rewrite entry_name_Some.
  setoid_rewrite elem_of_app. setoid_rewrite elem_of_elements. setoid_rewrite elem_of_dom.
  split; [intros (p & Hp & ->); exact Hp|intros Hx; exists (path_join d [x]); by split].
Qed.

Lemma NoDup_omap_inj {A B} (f : A -> option B) l :
  (forall x y z, f x = Some z -> f y = Some z -> x = y) -> NoDup l -> NoDup (omap f l).
Proof.
  intros Hinj. induction 1 as [|x l Hx _ IH]; [constructor|]. cbn.
  destruct (f x) as [z|] eqn:Hz; [|done]. constructor; [|done].
  rewrite list_elem_of_omap. intros (y & Hy & Hfy). by rewrite (Hinj x y z Hz Hfy) in Hx.
Qed.

Lemma NoDup_entries fs d :
  (forall x, path_join d [x] ∉ fs_dirs fs) -> NoDup (entries fs d).
Proof.
  intros Hd. unfold entries.
  assert (Hinj : forall x y z, entry_name d x = Some z -> entry_name d y = Some z -> x = y).
  { intros x y z Hx Hy. apply entry_name_Some in Hx, Hy. congruence. }
  rewrite omap_app. apply NoDup_app. split_and!.
  - apply NoDup_omap_inj; [exact Hinj|apply NoDup_elements].
  - intros x _ Hx. apply list_elem_of_omap in Hx as (p & Hp & Hn).
    apply entry_name_Some in Hn as ->. apply elem_of_elements in Hp. by apply (Hd x).
  - apply NoDup_omap_inj; [exact Hinj|apply NoDup_elements].
Qed.
