(* ===== verification/TxWalFacts.v ===== *)
(** * Broker: the write-ahead log on disk

    What the records directory and the checkpoint hold, what recovery reads
    from them, and what an append leaves behind when anything fails. *)

From stdpp Require Import sorting.
From S2P Require Import Prelude RustStd Json TxTypes TxStorage TxNames.

(** ** Directories that are there *)

Lemma elem_of_prefixes (q p : Path) : q ∈ prefixes p <-> q `prefix_of` p.
Proof.
  revert q. induction p as [|n p IH]; intros q; cbn.
  - rewrite list_elem_of_singleton. split; [by intros ->|]. by intros ?%prefix_nil_inv.
  - rewrite elem_of_cons, list_elem_of_fmap. split.
    + intros [->|(x & -> & Hx)]; [apply prefix_nil|]. by apply prefix_cons, IH.
    + destruct q as [|m q]; [by left|]. intros Hq. right.
      pose proof (prefix_cons_inv_1 _ _ _ _ Hq) as ->. apply prefix_cons_inv_2 in Hq.
      exists q. split; [done|]. by apply IH.
Qed.

(** [d] and its ancestors are directories, not files. *)
Definition dir_ready (d : Path) (fs : FS) : Prop :=
  forall q : Path, q `prefix_of` d -> q ∈ fs_dirs fs /\ fs_files fs !! q = None.

Lemma dir_ready_mono d d' fs : d' `prefix_of` d -> dir_ready d fs -> dir_ready d' fs.
Proof. intros Hd Hr q Hq. apply Hr. by etrans. Qed.

(** ** Calls in an environment that answers *)

Section Calm.
Context {C : Type} `{!IoEnv}.
Hypothesis Hcalm : forall n, io_fault n = NoFault.

Lemma wp_calm_call {A} (f : FS -> option (A * FS)) (Q : outcome IoError A -> World C -> Prop) w :
  wp (io_call f) Q w <->
  match f (w_fs w) with
  | Some (a, fs) => Q (Ret a) (w_set_fs fs w)
  | None => Q (Throw "io") (w_set_fs (w_fs w) w)
  end.
Proof. unfold wp, io_call. rewrite Hcalm. by destruct (f (w_fs w)) as [[a fs]|]. Qed.

Lemma wp_calm_exists {E} p (Q : outcome E bool -> World C -> Prop) w :
  wp (path_exists p) Q w <-> Q (Ret (fs_exists (w_fs w) p)) (w_set_fs (w_fs w) w).
Proof. rewrite wp_path_exists. by rewrite Hcalm. Qed.

Lemma wp_calm_create_dir p (Q : outcome IoError unit -> World C -> Prop) w :
  dir_ready p (w_fs w) -> Q (Ret tt) (w_set_fs (w_fs w) w) -> wp (create_dir_all p) Q w.
Proof.
  intros Hp HQ. unfold create_dir_all. rewrite wp_calm_call.
  rewrite bool_decide_eq_false_2.
  - replace (list_to_set (prefixes p) ∪ fs_dirs (w_fs w)) with (fs_dirs (w_fs w));
      [by destruct (w_fs w)|].
    apply leibniz_equiv. symmetry. apply subseteq_union_1. intros q Hq.
    apply elem_of_list_to_set, elem_of_prefixes in Hq. by apply Hp.
  - intros Hx. apply Exists_exists in Hx as (q & Hq & Hf). apply elem_of_prefixes in Hq.
    apply Hp in Hq as [_ Hq]. destruct Hf as [bs Hbs].  congruence.
Qed.

Lemma wp_calm_read p bs (Q : outcome IoError (list byte) -> World C -> Prop) w :
  fs_files (w_fs w) !! p = Some bs -> utf8_ok bs = true ->
  Q (Ret bs) (w_set_fs (w_fs w) w) -> wp (fs_read_to_string p) Q w.
Proof.
  intros Hp Hu HQ. unfold fs_read_to_string. rewrite wp_calm_call, Hp. cbn [mbind option_bind].
  by rewrite Hu.
Qed.

Lemma wp_calm_read_dir p (Q : outcome IoError (list string) -> World C -> Prop) w :
  p ∈ fs_dirs (w_fs w) ->
  Q (Ret (entries (w_fs w) p)) (w_set_fs (w_fs w) w) -> wp (read_dir p) Q w.
Proof.
  intros Hp HQ. unfold read_dir. rewrite wp_calm_call. unfold dir_exists.
  by rewrite bool_decide_eq_true_2.
Qed.
End Calm.

(** ** What the directory of a log holds *)

Section Disk.
Context `{JsonNumber} `{!BrokerCodec}.

(** The disk holds the records [rs], and the checkpoint [cp]. *)
Record wal_disk (root : Path) (rs : list WalRecord) (cp : Z) (fs : FS) : Prop := {
  dk_dirs : dir_ready (records_dir root) fs;
  dk_nosub : forall x, path_join (records_dir root) [x] ∉ fs_dirs fs;
  dk_read : forall i r, rs !! i = Some r ->
    exists bs, fs_files fs !! path_join (records_dir root) [record_name i] = Some bs /\
               utf8_ok bs = true /\ wal_from_str bs = Some r;
  dk_only : forall x, is_Some (fs_files fs !! path_join (records_dir root) [x]) ->
    exists i, (i < length rs)%nat /\ x = record_name i;
  dk_checkpoint :
    match fs_files fs !! checkpoint_path root with
    | None => cp = 0
    | Some bs => utf8_ok bs = true /\ checkpoint_from_str bs = Some cp
    end;
  dk_nodir : ~ (checkpoint_path root ∈ fs_dirs fs) /\ ~ (checkpoint_temp root ∈ fs_dirs fs);
  dk_range : Z.of_nat (length rs) <= u64_max;
}.

(** A temporary record is left in the directory. *)
Definition residue (root : Path) (fs : FS) : Prop :=
  dir_ready (records_dir root) fs /\
  exists x, extension x = Some "tmp" /\ is_Some (fs_files fs !! path_join (records_dir root) [x]).

(** The names of the records, in order. *)
Definition record_names (n : nat) : list string := record_name <$> seq 0 n.

Lemma record_names_sorted n :
  Z.of_nat n <= u64_max ->
  StronglySorted (fun x y => default u64_max (wal_record_seq x) < default u64_max (wal_record_seq y))
    (record_names n).
Proof.
  intros Hn. unfold record_names.
  assert (Hgen : forall k m, Z.of_nat (k + m) <= u64_max ->
    StronglySorted (fun x y => default u64_max (wal_record_seq x) < default u64_max (wal_record_seq y))
      (record_name <$> seq k m)).
  { intros k m. revert k. induction m as [|m IH]; intros k Hk; [constructor|]. cbn [seq fmap list_fmap].
    constructor; [apply IH; lia|]. apply Forall_fmap, Forall_forall. intros j Hj.
    apply elem_of_seq in Hj. cbn. rewrite !record_name_seq by lia. cbn. lia. }
  apply Hgen. lia.
Qed.

Lemma elem_of_record_names n x : x ∈ record_names n <-> exists i, (i < n)%nat /\ x = record_name i.
Proof.
  unfold record_names. rewrite list_elem_of_fmap. setoid_rewrite elem_of_seq.
  split; intros (i & ? & ?); exists i; split; auto with lia.
Qed.

Lemma wal_listing root rs cp fs :
  wal_disk root rs cp fs ->
  filter (fun n => has_extension "json" n) (entries fs (records_dir root)) ≡ₚ record_names (length rs).
Proof.
  intros Hd. apply NoDup_Permutation.
  - apply NoDup_filter, NoDup_entries, (dk_nosub _ _ _ _ Hd).
  - assert (Hs := record_names_sorted _ (dk_range _ _ _ _ Hd)).
    induction Hs as [|x l _ IH Hx]; constructor; [|done].
    intros Hin. rewrite Forall_forall in Hx. apply Hx in Hin. lia.
  - intros x. rewrite list_elem_of_filter, elem_of_entries, elem_of_record_names. split.
    + intros [_ [Hf|Hx]]; [by apply (dk_only _ _ _ _ Hd)|by apply (dk_nosub _ _ _ _ Hd) in Hx].
    + intros (i & Hi & ->). split; [by rewrite (proj1 (record_name_ext i))|]. left.
      destruct (lookup_lt_is_Some_2 rs i Hi) as [r Hr].
      destruct (dk_read _ _ _ _ Hd i r Hr) as (bs & Hbs & _). by rewrite Hbs.
Qed.

Lemma wal_sorted_listing root rs cp fs :
  wal_disk root rs cp fs ->
  sort_by_key (fun n => default u64_max (wal_record_seq n))
    (filter (fun n => has_extension "json" n) (entries fs (records_dir root))) =
  record_names (length rs).
Proof.
  intros Hd. apply sort_by_key_unique; [by eapply wal_listing|].
  apply record_names_sorted, (dk_range _ _ _ _ Hd).
Qed.

Lemma wal_no_temp root rs cp fs :
  wal_disk root rs cp fs -> existsb (has_extension "tmp") (entries fs (records_dir root)) = false.
Proof.
  intros Hd. apply not_true_is_false. intros Hx. apply existsb_exists in Hx as (x & Hin & Hx).
  apply list_elem_of_In, elem_of_entries in Hin as [Hf|Hdir].
  - apply (dk_only _ _ _ _ Hd) in Hf as (i & _ & ->). by rewrite (proj2 (record_name_ext i)) in Hx.
  - by apply (dk_nosub _ _ _ _ Hd) in Hdir.
Qed.

(** ** Reading the log, whatever the environment does *)

Lemma wp_read_record dir x bs r `{!IoEnv} (Q : outcome DurabilityError WalRecord -> TxWorld -> Prop) w :
  fs_files (w_fs w) !! path_join dir [x] = Some bs -> utf8_ok bs = true -> wal_from_str bs = Some r ->
  (forall o w', w_fs w' = w_fs w -> o = Ret r \/ (exists e, o = Throw e) -> Q o w') ->
  wp (read_record dir x) Q w.
Proof.
  intros Hbs Hu Hr HQ. unfold read_record, io_. wp_simpl.
  apply wp_io_call; [|apply HQ; [done|right; by eexists]].
  rewrite Hbs. cbn [mbind option_bind]. rewrite Hu. intros a fs' [= <- <-]. wp_simpl.
  rewrite Hr. cbn [ok_or]. wp_simpl. apply HQ; [done|by left].
Qed.

Lemma wp_read_any root rs cp fs l l' `{!IoEnv}
    (Q : outcome DurabilityError (list WalRecord) -> TxWorld -> Prop) w :
  wal_disk root rs cp fs -> w_fs w = fs -> rs = l ++ l' ->
  (forall o w', w_fs w' = fs -> o = Ret l' \/ (exists e, o = Throw e) -> Q o w') ->
  wp (mfor (read_record (records_dir root)) (record_name <$> seq (length l) (length l'))) Q w.
Proof.
  intros Hd. revert l Q w. induction l' as [|r l' IH]; intros l Q w Hw -> HQ.
  { cbn. rewrite wp_ret. apply HQ; auto. }
  cbn [length seq fmap list_fmap mfor].
  destruct (dk_read _ _ _ _ Hd (length l) r) as (bs & Hbs & Hu & Hr); [by apply list_lookup_middle|].
  rewrite wp_bind. eapply wp_read_record; [by rewrite Hw|exact Hu|exact Hr|].
  intros o w1 Hw1 [->|[e ->]]; [|apply HQ; [congruence|right; by eexists]]. rewrite wp_bind.
  replace (S (length l)) with (length (l ++ [r])) by (rewrite length_app; cbn; lia).
  apply IH; [congruence|by rewrite <-app_assoc|].
  intros o w' Hw' [->|[e ->]]; [rewrite wp_ret|]; apply HQ; try done; [by left|right; by eexists].
Qed.

Lemma wp_load_any root rs cp `{!IoEnv}
    (Q : outcome DurabilityError (list WalRecord) -> TxWorld -> Prop) w s :
  wal_disk root rs cp (w_fs w) -> ws_root s = root -> ws_safe_mode s = false ->
  (forall o w', w_fs w' = w_fs w -> o = Ret rs \/ (exists e, o = Throw e) -> Q o w') ->
  wp (load_records s) Q w.
Proof.
  intros Hd <- Hs HQ. unfold load_records, io_, read_dir. rewrite Hs. wp_simpl.
  apply wp_io_call; [|apply HQ; [done|right; by eexists]].
  intros a fs Ha. case_match; [|done]. injection Ha as <- <-.
  rewrite (wal_sorted_listing _ _ _ _ Hd). by apply (wp_read_any (ws_root s) rs cp (w_fs w) [] rs).
Qed.

(** ** Recovery *)

Context `{!IoEnv}.
Hypothesis Hcalm : forall n, io_fault n = NoFault.

Lemma wp_read_records root rs cp (fs : FS) l l' i (Q : outcome DurabilityError (list WalRecord) -> TxWorld -> Prop) w :
  wal_disk root rs cp fs -> w_fs w = fs -> rs = l ++ l' -> i = length l ->
  (forall w', w_fs w' = fs -> Q (Ret l') w') ->
  wp (mfor (read_record (records_dir root)) (record_name <$> seq i (length l'))) Q w.
Proof.
  intros Hd. revert l i Q w. induction l' as [|r l' IH]; intros l i Q w Hw -> -> HQ.
  { cbn. rewrite wp_ret. by apply HQ. }
  cbn [length seq fmap list_fmap mfor]. rewrite wp_bind. unfold read_record at 1, io_.
  destruct (dk_read _ _ _ _ Hd (length l) r) as (bs & Hbs & Hu & Hr); [by apply list_lookup_middle|].
  rewrite wp_bind, wp_mapping_err. apply (wp_calm_read Hcalm _ bs); [by rewrite Hw|done|].
  rewrite wp_of_result. rewrite Hr. cbn [ok_or]. rewrite wp_bind.
  apply (IH (l ++ [r])); [exact Hw|by rewrite <-app_assoc|by rewrite length_app, Nat.add_1_r|].
  intros w' Hw'. rewrite wp_ret. by apply HQ.
Qed.

Lemma wp_load_records root rs cp (Q : outcome DurabilityError (list WalRecord) -> TxWorld -> Prop) w s :
  wal_disk root rs cp (w_fs w) -> ws_root s = root -> ws_safe_mode s = false ->
  (forall w', w_fs w' = w_fs w -> Q (Ret rs) w') -> wp (load_records s) Q w.
Proof.
  intros Hd <- Hs HQ. unfold load_records, io_. rewrite Hs. rewrite wp_bind, wp_throw_if.
  rewrite wp_bind, wp_mapping_err. apply (wp_calm_read_dir Hcalm).
  { apply (dk_dirs _ _ _ _ Hd). done. }
  rewrite (wal_sorted_listing _ _ _ _ Hd).
  by apply (wp_read_records (ws_root s) rs cp (w_fs w) [] rs).
Qed.

(** What recovery answers for the records and the checkpoint on disk. *)
Definition recovery_of (rs : list WalRecord) (cp : Z) : WalRecovery :=
  if records_consistent_with_checkpoint rs cp then mkRecovery false rs else mkRecovery true [].

Lemma wp_recover {E} root rs cp (Q : outcome E WalRecovery -> TxWorld -> Prop) w :
  wal_disk root rs cp (w_fs w) ->
  (forall w', w_fs w' = w_fs w -> Q (Ret (recovery_of rs cp)) w') ->
  wp (recover (mkStore root false cp)) Q w.
Proof.
  intros Hd HQ. unfold recover, has_ambiguous_temp_files. cbn [ws_safe_mode ws_root].
  rewrite !wp_bind, wp_attempt. apply (wp_calm_read_dir Hcalm).
  { apply (dk_dirs _ _ _ _ Hd). done. }
  rewrite wp_ret, (wal_no_temp _ _ _ _ Hd). rewrite wp_bind, wp_attempt.
  apply (wp_load_records root rs cp); [exact Hd|done|done|].
  intros w' Hw'. rewrite wp_ret. unfold recovery_of in HQ. by apply HQ.
Qed.

(** [WalStore::open], then [recover]: what a restart does. *)
Definition wal_reopen (root : Path) : M TxWorld DurabilityError WalRecovery :=
  s ← wal_open root; recover s.

Lemma wp_wal_open root rs cp (Q : outcome DurabilityError WalStore -> TxWorld -> Prop) w :
  wal_disk root rs cp (w_fs w) ->
  (forall w', w_fs w' = w_fs w -> Q (Ret (mkStore root false cp)) w') ->
  wp (wal_open root) Q w.
Proof.
  intros Hd HQ. unfold wal_open, io_. rewrite wp_bind, wp_mapping_err.
  apply (wp_calm_create_dir Hcalm).
  { eapply dir_ready_mono; [|apply (dk_dirs _ _ _ _ Hd)]. by apply prefix_app_r. }
  rewrite wp_bind, wp_mapping_err. apply (wp_calm_create_dir Hcalm); [apply (dk_dirs _ _ _ _ Hd)|].
  rewrite wp_bind, (wp_calm_exists Hcalm). cbn [w_fs w_set_fs].
  unfold fs_exists, dir_exists. rewrite (bool_decide_eq_false_2 (_ ∈ _)) by apply (dk_nodir _ _ _ _ Hd).
  rewrite orb_false_r. pose proof (dk_checkpoint _ _ _ _ Hd) as Hcp.
  destruct (fs_files (w_fs w) !! checkpoint_path root) as [bs|] eqn:Hf.
  - rewrite bool_decide_eq_true_2 by done. destruct Hcp as [Hu Hcp].
    rewrite wp_bind, wp_attempt. apply (wp_calm_read Hcalm _ bs); [exact Hf|exact Hu|].
    rewrite wp_ret, Hcp. by apply HQ.
  - rewrite bool_decide_eq_false_2 by (by intros [? ?]). rewrite wp_ret, Hcp in *. by apply HQ.
Qed.

Lemma wp_wal_reopen root rs cp (Q : outcome DurabilityError WalRecovery -> TxWorld -> Prop) w :
  wal_disk root rs cp (w_fs w) ->
  (forall w', w_fs w' = w_fs w -> Q (Ret (recovery_of rs cp)) w') ->
  wp (wal_reopen root) Q w.
Proof.
  intros Hd HQ. unfold wal_reopen. rewrite wp_bind. eapply wp_wal_open; [exact Hd|].
  intros w1 Hw1. eapply wp_recover; [by rewrite Hw1|]. intros w2 Hw2. apply HQ. congruence.
Qed.
(** With a temporary record left behind, recovery enters safe mode. *)
Lemma wp_wal_reopen_residue root (Q : outcome DurabilityError WalRecovery -> TxWorld -> Prop) w :
  residue root (w_fs w) ->
  (forall w', w_fs w' = w_fs w -> Q (Ret (mkRecovery true [])) w') ->
  wp (wal_reopen root) Q w.
Proof.
  intros [Hdir (x & Hext & Hx)] HQ. unfold wal_reopen, wal_open, io_.
  assert (Hrec : forall safe cp w1, w_fs w1 = w_fs w -> wp (recover (mkStore root safe cp)) Q w1).
  { intros safe cp w1 Hw1. unfold recover, has_ambiguous_temp_files. cbn [ws_safe_mode ws_root].
    destruct safe; [rewrite wp_ret; by apply HQ|].
    rewrite !wp_bind, wp_attempt. apply (wp_calm_read_dir Hcalm); [rewrite Hw1; by apply Hdir|].
    rewrite wp_ret. assert (Htmp : existsb (has_extension "tmp") (entries (w_fs w1) (records_dir root)) = true).
    { apply existsb_exists. exists x. split.
      - apply list_elem_of_In, elem_of_entries. left. by rewrite Hw1.
      - unfold has_extension. by apply bool_decide_eq_true. }
    rewrite Htmp, wp_ret. by apply HQ. }
  rewrite !wp_bind, wp_mapping_err. apply (wp_calm_create_dir Hcalm).
  { eapply dir_ready_mono; [|exact Hdir]. by apply prefix_app_r. }
  rewrite wp_bind, wp_mapping_err. apply (wp_calm_create_dir Hcalm); [exact Hdir|].
  rewrite wp_bind, (wp_calm_exists Hcalm). cbn [w_fs w_set_fs].
  destruct (fs_exists _ _); [|rewrite wp_ret; by apply Hrec].
  rewrite wp_bind, wp_attempt. unfold fs_read_to_string. rewrite (wp_calm_call Hcalm).
  cbn [w_fs w_set_fs]. destruct (fs_files (w_fs w) !! checkpoint_path root) as [bs|]; cbn [mbind option_bind].
  - destruct (utf8_ok bs); rewrite wp_ret; [|by apply Hrec]. by destruct (checkpoint_from_str bs); apply Hrec.
  - rewrite wp_ret. by apply Hrec.
Qed.
End Disk.

(** ** What a write leaves behind *)

Section Writes.
Context `{!IoEnv}.

Lemma wp_sync_file path (Q : outcome DurabilityError unit -> TxWorld -> Prop) w :
  (forall o w', w_fs w' = w_fs w -> o <> Panic -> Q o w') -> wp (sync_file path) Q w.
Proof.
  intros HQ. unfold sync_file, io_, open_existing, sync_all.
  rewrite wp_bind, wp_mapping_err. apply wp_io_call; [|by apply HQ].
  intros a fs Ha. case_bool_decide; [|done]. injection Ha as <- <-.
  rewrite wp_mapping_err. apply wp_io_call; [|by apply HQ]. intros a fs Ha. injection Ha as <- <-. by apply HQ.
Qed.

Lemma wp_sync_parent path (Q : outcome DurabilityError unit -> TxWorld -> Prop) w :
  (forall o w', w_fs w' = w_fs w -> o <> Panic -> Q o w') -> wp (sync_parent path) Q w.
Proof.
  intros HQ. unfold sync_parent, io_, open_dir, sync_all.
  destruct (path_parent path) as [d|]; [|rewrite wp_ret; by apply HQ].
  rewrite wp_bind, wp_mapping_err. apply wp_io_call; [|by apply HQ].
  intros a fs Ha. case_match; [|done]. injection Ha as <- <-.
  rewrite wp_mapping_err. apply wp_io_call; [|by apply HQ]. intros a fs Ha. injection Ha as <- <-. by apply HQ.
Qed.

(** A whole file is written, or part of it, or nothing. *)
Lemma wp_write_all_and_sync path bytes (Q : outcome DurabilityError unit -> TxWorld -> Prop) w :
  (forall w', w_fs w' = put_file path bytes (w_fs w) -> Q (Ret tt) w') ->
  (forall e w', w_fs w' = w_fs w \/ (exists bs, w_fs w' = put_file path bs (w_fs w)) -> Q (Throw e) w') ->
  wp (write_all_and_sync path bytes) Q w.
Proof.
  intros HQ HT. unfold write_all_and_sync, fs_write, io_.
  rewrite wp_bind, wp_mapping_err, wp_bind. apply wp_io_call; [|apply HT; by left].
  intros a fs Ha. case_match; [|done]. injection Ha as <- <-.
  assert (Hput : forall bs, put_file path (default [] (fs_files (put_file path [] (w_fs w)) !! path) ++ bs)
            (put_file path [] (w_fs w)) = put_file path bs (w_fs w)).
  { intros bs. unfold put_file. cbn [fs_files fs_dirs]. by rewrite lookup_insert_eq, insert_insert_eq. }
  apply wp_write_all; cbn [w_fs w_set_fs].
  - intros k. apply HT. right. eexists. cbn [w_fs w_set_fs]. apply Hput.
  - apply HT. right. by eexists.
  - apply wp_sync_file. cbn [w_fs w_set_fs]. intros [[]|e|] w' Hw Hp; [..|done].
    + apply HQ. by rewrite Hw, Hput.
    + apply HT. right. eexists. rewrite Hw. apply Hput.
Qed.

(** A rename happens, or not; when it answers, it happened. *)
Lemma wp_atomic_rename from to (Q : outcome DurabilityError unit -> TxWorld -> Prop) w :
  (forall fs w', rename_file from to (w_fs w) = Some fs -> w_fs w' = fs -> Q (Ret tt) w') ->
  (forall e w', w_fs w' = w_fs w \/ rename_file from to (w_fs w) = Some (w_fs w') -> Q (Throw e) w') ->
  wp (atomic_rename from to) Q w.
Proof.
  intros HQ HT. unfold atomic_rename, fs_rename, io_.
  rewrite wp_bind, wp_mapping_err. apply wp_io_call; [|apply HT; by left].
  intros a fs Ha. destruct (rename_file from to (w_fs w)) as [fs1|] eqn:Hr; [|done].
  injection Ha as <- <-. apply wp_sync_parent. cbn [w_fs w_set_fs].
  intros [[]|e|] w' Hw Hp; [|apply HT; right; by rewrite Hw|done]. by eapply HQ.
Qed.
End Writes.

(** ** Appending a transition *)

(** Nothing outside [root] changed, and no directory. *)
Definition same_outside (root : Path) (fs fs' : FS) : Prop :=
  fs_dirs fs' = fs_dirs fs /\
  forall p, ~ root `prefix_of` p -> fs_files fs' !! p = fs_files fs !! p.

#[export] Instance same_outside_refl root : Reflexive (same_outside root).
Proof. by intros fs. Qed.
#[export] Instance same_outside_trans root : Transitive (same_outside root).
Proof. intros f1 f2 f3 [Hd H1] [Hd' H2]. split; [congruence|]. intros p Hp. by rewrite H2, H1. Qed.

Lemma rename_put from to bs fs fs' :
  rename_file from to (put_file from bs fs) = Some fs' ->
  fs' = mkFS (<[to := bs]> (delete from (fs_files fs))) (fs_dirs fs).
Proof.
  unfold rename_file, put_file. cbn [fs_files fs_dirs]. rewrite lookup_insert_eq. cbn [mbind option_bind].
  case_match; [|done]. intros [= <-]. by rewrite delete_insert_eq.
Qed.

Lemma not_prefix_sibling (root : Path) a b c :
  a <> b -> ~ root ++ a :: c `prefix_of` root ++ [b].
Proof.
  intros Hab [k Hk]. rewrite <-app_assoc in Hk. apply app_inv_head in Hk. by injection Hk as <-.
Qed.

Section Append.
Context `{JsonNumber} `{!BrokerCodec}.

#[local] Abbreviation rpath root x := (path_join (records_dir root) [x]).

Lemma rpath_inj root x y : rpath root x = rpath root y -> x = y.
Proof. unfold path_join. intros Hx. by apply app_inj_tail in Hx as [_ ->]. Qed.

Lemma checkpoint_not_record root x y : x <> "records" -> path_join root [x] <> rpath root y.
Proof.
  unfold records_dir, path_join. rewrite <-app_assoc. intros Hx Heq.
  apply app_inv_head in Heq. by injection Heq.
Qed.

Lemma dir_ready_put d p bs fs :
  ~ p `prefix_of` d -> dir_ready d fs -> dir_ready d (put_file p bs fs).
Proof.
  intros Hp Hd q Hq. destruct (Hd q Hq) as [Hin Hno]. split; [done|].
  cbn. rewrite lookup_insert_ne; [done|]. by intros ->.
Qed.

Lemma record_not_prefix root x : ~ rpath root x `prefix_of` records_dir root.
Proof. intros Hp. apply prefix_length in Hp. unfold path_join in Hp. rewrite length_app in Hp. cbn in Hp. lia. Qed.

Lemma sibling_not_prefix root x : x <> "records" -> ~ path_join root [x] `prefix_of` records_dir root.
Proof. intros Hx. unfold records_dir, path_join. by apply (not_prefix_sibling root x "records" []). Qed.

(** Writing beside the records changes nothing of the log. *)
Lemma wal_disk_checkpoint root rs cp cp' fs files :
  wal_disk root rs cp fs ->
  (forall p, p <> checkpoint_path root -> p <> checkpoint_temp root -> files !! p = fs_files fs !! p) ->
  match files !! checkpoint_path root with
  | None => cp' = 0
  | Some bs => utf8_ok bs = true /\ checkpoint_from_str bs = Some cp'
  end ->
  wal_disk root rs cp' (mkFS files (fs_dirs fs)).
Proof.
  intros Hd Hsame Hcp.
  assert (Hrec : forall x, files !! rpath root x = fs_files fs !! rpath root x)
    by (intros x; apply Hsame; intros Heq; by apply (eq_sym) in Heq; apply checkpoint_not_record in Heq).
  split; cbn [fs_files fs_dirs]; [| | | |exact Hcp|apply (dk_nodir _ _ _ _ Hd)|apply (dk_range _ _ _ _ Hd)].
  - intros q Hq. destruct (dk_dirs _ _ _ _ Hd q Hq) as [Hin Hno]. split; [exact Hin|]. cbn.
    rewrite Hsame; [exact Hno|intros -> ..]; revert Hq; by apply sibling_not_prefix.
  - apply (dk_nosub _ _ _ _ Hd).
  - intros i r Hr. rewrite Hrec. by apply (dk_read _ _ _ _ Hd).
  - intros x. rewrite Hrec. apply (dk_only _ _ _ _ Hd).
Qed.

(** The record that comes next, put in its place. *)
Lemma wal_disk_record root rs cp fs files r bs :
  wal_disk root rs cp fs -> utf8_ok bs = true -> wal_from_str bs = Some r ->
  Z.of_nat (length rs) + 1 <= u64_max ->
  (forall p, files !! p =
     if decide (p = rpath root (record_name (length rs))) then Some bs else fs_files fs !! p) ->
  wal_disk root (rs ++ [r]) cp (mkFS files (fs_dirs fs)).
Proof.
  intros Hd Hu Hr Hmax Hf. set (n := length rs) in *.
  assert (Hne : forall i, (i < n)%nat -> rpath root (record_name i) <> rpath root (record_name n)).
  { intros i Hi Heq. apply rpath_inj, (f_equal wal_record_seq) in Heq.
    rewrite !record_name_seq in Heq by lia. injection Heq as Heq. lia. }
  split; cbn [fs_files fs_dirs].
  - intros q Hq. destruct (dk_dirs _ _ _ _ Hd q Hq) as [Hin Hno]. split; [exact Hin|]. cbn.
    rewrite Hf, decide_False; [exact Hno|]. intros ->. by apply record_not_prefix in Hq.
  - apply (dk_nosub _ _ _ _ Hd).
  - intros i x Hx. rewrite Hf. apply lookup_app_Some in Hx as [Hx|[Hge Hx]].
    + pose proof (lookup_lt_Some _ _ _ Hx). rewrite decide_False by (apply Hne; done).
      by apply (dk_read _ _ _ _ Hd).
    + apply list_lookup_singleton_Some in Hx as [Hi ->].
      assert (i = n) as -> by (unfold n; lia). rewrite decide_True by done. by exists bs.
  - intros x. rewrite Hf, length_app. cbn [length]. case_decide as Hx.
    + intros _. apply rpath_inj in Hx as ->. exists n. split; [lia|done].
    + intros Hs. apply (dk_only _ _ _ _ Hd) in Hs as (i & Hi & ->). exists i. split; [unfold n; lia|done].
  - rewrite Hf, decide_False; [apply (dk_checkpoint _ _ _ _ Hd)|].
    by apply (checkpoint_not_record root "checkpoint.json").
  - apply (dk_nodir _ _ _ _ Hd).
  - rewrite length_app. cbn [length]. unfold n in *. lia.
Qed.

Context `{!IoEnv} `{!BrokerCodecLaws}.

(** What an append leaves on disk when it did not answer: the log as it was,
    a temporary record, or the record with the old or the new checkpoint. *)
Definition torn_append (root : Path) (rs : list WalRecord) (cp : Z) (r : WalRecord) (fs : FS) : Prop :=
  wal_disk root rs cp fs \/ residue root fs \/
  wal_disk root (rs ++ [r]) cp fs \/ wal_disk root (rs ++ [r]) (wr_seq r) fs.

Definition append_post (root : Path) (rs : list WalRecord) (cp : Z) (r : WalRecord) (fs : FS)
    (o : outcome DurabilityError WalStore) (w' : TxWorld) : Prop :=
  same_outside root fs (w_fs w') /\
  match o with
  | Ret s' => s' = mkStore root false (wr_seq r) /\ wal_disk root (rs ++ [r]) (wr_seq r) (w_fs w')
  | Throw _ => torn_append root rs cp r (w_fs w')
  | Panic => False
  end.

(** The log, seen through writes beside it. *)
Lemma wal_disk_put_temp root rs cp fs bs :
  wal_disk root rs cp fs -> wal_disk root rs cp (put_file (checkpoint_temp root) bs fs).
Proof.
  intros Hd. apply (wal_disk_checkpoint root rs cp cp fs); [exact Hd| |].
  - intros p _ Hp. by rewrite lookup_insert_ne.
  - rewrite lookup_insert_ne; [apply (dk_checkpoint _ _ _ _ Hd)|].
    unfold checkpoint_temp, checkpoint_path, path_join. by intros ?%app_inv_head.
Qed.

Lemma wal_disk_put_checkpoint root rs cp fs bs n :
  wal_disk root rs cp fs -> utf8_ok bs = true -> checkpoint_from_str bs = Some n ->
  wal_disk root rs n
    (mkFS (<[checkpoint_path root := bs]> (delete (checkpoint_temp root) (fs_files fs))) (fs_dirs fs)).
Proof.
  intros Hd Hu Hn. apply (wal_disk_checkpoint root rs cp n fs); [exact Hd| |].
  - intros p Hp Ht. rewrite lookup_insert_ne by done. by rewrite lookup_delete_ne.
  - by rewrite lookup_insert_eq.
Qed.

Lemma prefix_root_join (root : Path) l : root `prefix_of` path_join root l.
Proof. by exists l. Qed.
Lemma prefix_root_record root x : root `prefix_of` rpath root x.
Proof. unfold records_dir, path_join. rewrite <-app_assoc. by eexists. Qed.

Lemma same_outside_put root p bs fs : root `prefix_of` p -> same_outside root fs (put_file p bs fs).
Proof. intros Hp. split; [done|]. intros q Hq. cbn. rewrite lookup_insert_ne; [done|]. by intros ->. Qed.

Lemma same_outside_moved root p q bs fs :
  root `prefix_of` p -> root `prefix_of` q ->
  same_outside root fs (mkFS (<[q := bs]> (delete p (fs_files fs))) (fs_dirs fs)).
Proof.
  intros Hp Hq. split; [done|]. intros x Hx. cbn.
  rewrite lookup_insert_ne by (by intros ->). rewrite lookup_delete_ne; [done|]. by intros ->.
Qed.

(** Replacing the checkpoint, by way of its temporary file. *)
Lemma wp_write_checkpoint root rs cp seq s (Q : outcome DurabilityError WalStore -> TxWorld -> Prop) w :
  wal_disk root rs cp (w_fs w) -> ws_root s = root -> ws_safe_mode s = false -> is_u64 seq ->
  (forall w', same_outside root (w_fs w) (w_fs w') -> wal_disk root rs seq (w_fs w') ->
     Q (Ret (mkStore root false seq)) w') ->
  (forall e w', same_outside root (w_fs w) (w_fs w') ->
     wal_disk root rs cp (w_fs w') \/ wal_disk root rs seq (w_fs w') -> Q (Throw e) w') ->
  wp (write_checkpoint s seq) Q w.
Proof.
  intros Hd <- Hs Hseq HQ HT. unfold write_checkpoint. rewrite Hs. set (root := ws_root s) in *.
  rewrite wp_bind, wp_of_result. destruct (checkpoint_to_vec seq) as [bytes|] eqn:Hb; cbn [ok_or];
    [|apply HT; [done|by left]].
  apply checkpoint_roundtrip in Hb as [Hu Hp]; [|exact Hseq].
  rewrite wp_bind. apply wp_write_all_and_sync.
  2: { intros e w' [Hw|[bs Hw]]; apply HT; rewrite Hw; [done|by left|..].
       - apply same_outside_put, prefix_root_join.
       - left. by apply wal_disk_put_temp. }
  intros w1 Hw1. rewrite wp_bind. apply wp_atomic_rename.
  - intros fs w2 Hr Hw2. rewrite Hw1 in Hr. apply rename_put in Hr as ->. rewrite wp_ret.
    apply HQ; rewrite Hw2; [|by eapply wal_disk_put_checkpoint].
    apply same_outside_moved; apply prefix_root_join.
  - intros e w2 [Hw2|Hr]; apply HT.
    + rewrite Hw2, Hw1. apply same_outside_put, prefix_root_join.
    + left. rewrite Hw2, Hw1. by apply wal_disk_put_temp.
    + rewrite Hw1 in Hr. apply rename_put in Hr as ->. apply same_outside_moved; apply prefix_root_join.
    + right. rewrite Hw1 in Hr. apply rename_put in Hr as ->. by eapply wal_disk_put_checkpoint.
Qed.

Lemma record_path_name root n : record_path root (Z.of_nat n + 1) = rpath root (record_name n).
Proof. done. Qed.

(** The temporary name of a record is no record's name. *)
Lemma temp_absent root rs cp fs x :
  wal_disk root rs cp fs -> fs_files fs !! rpath root (x +:+ ".json.tmp") = None.
Proof.
  intros Hd. destruct (fs_files fs !! _) as [bs|] eqn:Hf; [|done].
  destruct (dk_only _ _ _ _ Hd (x +:+ ".json.tmp")) as (i & _ & Heq); [by rewrite Hf|].
  pose proof (tmp_name_extension x) as Ht. rewrite Heq in Ht.
  pose proof (proj2 (record_name_ext i)) as Hn. unfold has_extension in Hn.
  rewrite Ht in Hn. by apply bool_decide_eq_false in Hn.
Qed.

Lemma residue_put root rs cp fs x bs :
  wal_disk root rs cp fs -> residue root (put_file (rpath root (x +:+ ".json.tmp")) bs fs).
Proof.
  intros Hd. split.
  - apply dir_ready_put; [apply record_not_prefix|apply (dk_dirs _ _ _ _ Hd)].
  - exists (x +:+ ".json.tmp"). split; [apply tmp_name_extension|]. cbn. by rewrite lookup_insert_eq.
Qed.

Lemma wp_append_transition root rs cp r s w :
  wal_disk root rs cp (w_fs w) -> ws_root s = root -> ws_safe_mode s = false ->
  wal_record_ok r -> wr_seq r = Z.of_nat (length rs) + 1 ->
  wp (append_transition s r) (append_post root rs cp r (w_fs w)) w.
Proof.
  intros Hd <- Hs Hok Hseq. unfold append_transition. rewrite Hs. set (root := ws_root s) in *.
  rewrite wp_bind, wp_throw_if, wp_bind, wp_of_result.
  destruct (wal_to_vec r) as [bytes|] eqn:Hb; cbn [ok_or]; [|split; [done|by left]].
  apply wal_roundtrip in Hb as [Hu Hp]; [|exact Hok].
  set (x := format_decimal (wr_seq r)). set (temp := path_join _ _).
  assert (Htemp : temp = rpath root (x +:+ ".json.tmp")) by done.
  assert (Hfinal : record_path root (wr_seq r) = rpath root (record_name (length rs)))
    by (by rewrite Hseq).
  pose proof (temp_absent root rs cp (w_fs w) x Hd) as Habs. rewrite <-Htemp in Habs.
  rewrite wp_bind. apply wp_write_all_and_sync.
  2: { intros e w' [Hw|[bs Hw]]; unfold append_post; rewrite Hw; [split; [done|by left]|]. split.
       - apply same_outside_put. rewrite Htemp. apply prefix_root_record.
       - right; left. rewrite Htemp. by eapply residue_put. }
  intros w1 Hw1.
  assert (Hout : forall bs, same_outside root (w_fs w)
            (mkFS (<[record_path root (wr_seq r) := bs]> (delete temp (fs_files (w_fs w)))) (fs_dirs (w_fs w)))).
  { intros bs. apply same_outside_moved; [rewrite Htemp|rewrite Hfinal]; apply prefix_root_record. }
  assert (Hnew : wal_disk root (rs ++ [r]) cp
            (mkFS (<[record_path root (wr_seq r) := bytes]> (delete temp (fs_files (w_fs w)))) (fs_dirs (w_fs w)))).
  { eapply wal_disk_record; [exact Hd|exact Hu|exact Hp|destruct Hok as (_ & [_ ?] & _); lia|].
    intros p. rewrite Hfinal. case_decide as Hx; [subst; by rewrite lookup_insert_eq|].
    rewrite lookup_insert_ne by done. destruct (decide (p = temp)) as [->|Hne];
      [by rewrite lookup_delete_eq, Habs|by rewrite lookup_delete_ne]. }
  rewrite wp_bind. apply wp_atomic_rename.
  - intros fs w2 Hr Hw2. rewrite Hw1 in Hr. apply rename_put in Hr as ->. rewrite <-Hw2 in Hnew.
    apply (wp_write_checkpoint root (rs ++ [r]) cp); [exact Hnew|done|exact Hs|apply Hok|..].
    + intros w3 Ho Hd3. split; [|done]. etrans; [apply (Hout bytes)|by rewrite <-Hw2].
    + intros e w3 Ho Hd3. split; [etrans; [apply (Hout bytes)|by rewrite <-Hw2]|].
      unfold torn_append. tauto.
  - intros e w2 [Hw2|Hr]; unfold append_post.
    + rewrite Hw2, Hw1. split; [apply same_outside_put; rewrite Htemp; apply prefix_root_record|].
      right; left. rewrite Htemp. by eapply residue_put.
    + rewrite Hw1 in Hr. apply rename_put in Hr as ->. split; [apply Hout|]. unfold torn_append. tauto.
Qed.

(** ** Taking the last record back *)

(** The record that came last, removed. *)
Lemma wal_disk_unrecord root rs cp fs r :
  wal_disk root (rs ++ [r]) cp fs ->
  wal_disk root rs cp
    (mkFS (delete (rpath root (record_name (length rs))) (fs_files fs)) (fs_dirs fs)).
Proof.
  intros Hd. set (n := length rs). pose proof (dk_range _ _ _ _ Hd) as Hmax.
  rewrite length_app in Hmax. cbn [length] in Hmax.
  assert (Hne : forall i, (i < n)%nat -> rpath root (record_name n) <> rpath root (record_name i)).
  { intros i Hi Heq. apply rpath_inj, (f_equal wal_record_seq) in Heq.
    rewrite !record_name_seq in Heq by lia. injection Heq as Heq. lia. }
  split; cbn [fs_files fs_dirs].
  - intros q Hq. destruct (dk_dirs _ _ _ _ Hd q Hq) as [Hin Hno]. split; [exact Hin|]. cbn.
    by apply lookup_delete_None; right.
  - apply (dk_nosub _ _ _ _ Hd).
  - intros i x Hx. rewrite lookup_delete_ne by (apply Hne; by eapply lookup_lt_Some).
    apply (dk_read _ _ _ _ Hd). by apply lookup_app_l_Some.
  - intros x [bs Hx]. apply lookup_delete_Some in Hx as [Hx Hf].
    destruct (dk_only _ _ _ _ Hd x) as (i & Hi & ->); [by rewrite Hf|].
    exists i. split; [|done]. rewrite length_app in Hi. cbn in Hi.
    assert (i <> n) by (by intros ->). unfold n in *. lia.
  - rewrite lookup_delete_ne; [apply (dk_checkpoint _ _ _ _ Hd)|].
    intros Heq. apply eq_sym in Heq. by apply (checkpoint_not_record root "checkpoint.json") in Heq.
  - apply (dk_nodir _ _ _ _ Hd).
  - lia.
Qed.

(** Where taking back the record [r] may end: with or without the record,
    the old checkpoint or the one before. *)
Definition taken_back (root : Path) (rs : list WalRecord) (cp : Z) (r : WalRecord) (fs : FS) : Prop :=
  exists rs' cp', (rs' = rs \/ rs' = rs ++ [r]) /\ (cp' = cp \/ cp' = Z.of_nat (length rs)) /\
                  wal_disk root rs' cp' fs.

Lemma same_outside_delete root p fs :
  root `prefix_of` p -> same_outside root fs (mkFS (delete p (fs_files fs)) (fs_dirs fs)).
Proof. intros Hp. split; [done|]. intros q Hq. cbn. rewrite lookup_delete_ne; [done|]. by intros ->. Qed.

(** The checkpoint goes back, over either log. *)
Lemma wp_uncheckpoint root rs cp r rs' s (Q : outcome DurabilityError WalStore -> TxWorld -> Prop) w :
  wal_disk root rs' cp (w_fs w) -> rs' = rs \/ rs' = rs ++ [r] ->
  ws_root s = root -> ws_safe_mode s = false -> Z.of_nat (length rs) <= u64_max ->
  (forall o w', same_outside root (w_fs w) (w_fs w') -> taken_back root rs cp r (w_fs w') ->
     match o with Ret s' => s' = mkStore root false (Z.of_nat (length rs)) | Throw _ => True | Panic => False end ->
     Q o w') ->
  wp (if Z.of_nat (length rs) =? 0 then
        _ ← attempt (remove_file (checkpoint_path (ws_root s)));
        mret (mkStore (ws_root s) (ws_safe_mode s) 0)
      else write_checkpoint s (Z.of_nat (length rs))) Q w.
Proof.
  intros Hd Hrs <- Hs Hmax HQ. set (root := ws_root s) in *.
  destruct (_ =? 0) eqn:Hz; bool_to_prop.
  - wp_simpl. rewrite Hs, <-Hz. apply wp_io_call.
    + intros a fs Ha. destruct (fs_files (w_fs w) !! checkpoint_path root); [|done].
      injection Ha as _ <-. wp_simpl. apply HQ; [|exists rs', 0; split_and!; [done|by right|]|done].
      * apply same_outside_delete, prefix_root_join.
      * apply (wal_disk_checkpoint root rs' cp 0); [done| |by rewrite lookup_delete_eq].
        intros p Hp _. by rewrite lookup_delete_ne.
    + wp_simpl. apply HQ; [done|exists rs', cp; split_and!; [done|by left|done]|done].
  - apply (wp_write_checkpoint root rs' cp); [done|done|done|unfold is_u64; lia|..].
    + intros w' Ho Hd'. apply HQ; [done|eexists _, _; split_and!; [exact Hrs|by right|done]|done].
    + intros e w' Ho [Hd'|Hd']; (apply HQ; [done|eexists _, _; split_and!; [exact Hrs| |exact Hd']|done]);
        [by left|by right].
Qed.

Lemma wp_revert_last root rs cp r s seq (Q : outcome DurabilityError WalStore -> TxWorld -> Prop) w :
  wal_disk root (rs ++ [r]) cp (w_fs w) -> ws_root s = root -> ws_safe_mode s = false ->
  seq = Z.of_nat (length rs) + 1 ->
  (forall o w', same_outside root (w_fs w) (w_fs w') -> taken_back root rs cp r (w_fs w') ->
     match o with Ret s' => s' = mkStore root false (Z.of_nat (length rs)) | Throw _ => True | Panic => False end ->
     Q o w') ->
  wp (revert_last_transition s seq) Q w.
Proof.
  intros Hd <- Hs -> HQ. unfold revert_last_transition, io_. set (root := ws_root s) in *.
  pose proof (dk_range _ _ _ _ Hd) as Hmax. rewrite length_app in Hmax. cbn [length] in Hmax.
  replace (u64_saturating_sub _ 1) with (Z.of_nat (length rs)) by (unfold u64_saturating_sub; lia).
  assert (Hkept : taken_back root rs cp r (w_fs w))
    by (exists (rs ++ [r]), cp; split_and!; [by right|by left|done]).
  rewrite record_path_name. rewrite wp_bind, wp_path_exists, wp_bind.
  destruct (match io_fault (w_tick w) with NoFault => _ | _ => _ end).
  - rewrite wp_mapping_err. apply wp_io_call; [|by apply HQ].
    intros a fs Ha. cbn [w_fs w_set_fs] in Ha.
    destruct (fs_files (w_fs w) !! rpath root _); [|done]. injection Ha as _ <-.
    set (fs' := mkFS _ _).
    assert (Hout : same_outside root (w_fs w) fs')
      by (apply same_outside_delete; apply prefix_root_record).
    apply (wp_uncheckpoint root rs cp r rs); [by apply (wal_disk_unrecord _ _ _ _ r)|by left|done|done|lia|].
    intros o w' Ho Ht Hs'. apply HQ; [|done|done]. by etrans.
  - rewrite wp_ret. apply (wp_uncheckpoint root rs cp r (rs ++ [r])); [done|by right|done|done|lia|].
    intros o w' Ho Ht Hs'. by apply HQ.
Qed.
End Append.
