(* ===== verification/TxEngine.v ===== *)
(** * Broker: the transaction engine and its recovery

    [broker/src/transaction/recovery.rs] and [transaction/engine.rs].  The
    engine's mutexes serialize its operations: each is one computation on the
    engine's fields and the world. *)

From S2P Require Import Prelude RustStd Json TxTypes TxStorage.

(** ** transaction/recovery.rs *)

Definition SUPPORTED_RECORD_VERSION : Z := 1.

(** The records of one transaction, in the order of their numbers.  The map
    [chains] of the source has one entry per transaction of the log. *)
Definition chain (records : list WalRecord) (tx_id : TxId) : list WalRecord :=
  sort_by_key wr_seq (filter (fun r => wr_tx_id r = tx_id) records).

Definition same_transaction (prev next : WalRecord) : bool :=
  bool_decide (wr_agent_id prev = wr_agent_id next) &&
  bool_decide (wr_manifest_digest prev = wr_manifest_digest next) &&
  bool_decide (wr_base_revision prev = wr_base_revision next) &&
  bool_decide (wr_effect_set prev = wr_effect_set next) &&
  bool_decide (wr_diff prev = wr_diff next) &&
  bool_decide (wr_affected_resources prev = wr_affected_resources next) &&
  bool_decide (wr_approval_ref prev = wr_approval_ref next).

(** The loop over [chain.windows(2)]. *)
Fixpoint windows_ok (prev : WalRecord) (rest : list WalRecord) : bool :=
  match rest with
  | [] => true
  | next :: rest =>
      same_transaction prev next &&
      broker_may_enter (from_wire (wr_state prev)) (from_wire (wr_state next)) &&
      windows_ok next rest
  end.

Definition chain_ok (c : list WalRecord) : bool :=
  match c with
  | [] => true
  | first :: rest => bool_decide (wr_state first = WProposed) && windows_ok first rest
  end.

Definition validate_wal_semantics (records : list WalRecord) : bool :=
  forallb (fun r => (wr_record_version r =? SUPPORTED_RECORD_VERSION) &&
                    negb (is_watchdog_owned (wr_state r))) records &&
  forallb (fun r => chain_ok (chain records (wr_tx_id r))) records.

Definition proto_state_from_debug_name (name : string) : option WireState :=
  if decide (name = "Idle") then Some WIdle
  else if decide (name = "Proposed") then Some WProposed
  else if decide (name = "Testing") then Some WTesting
  else if decide (name = "Applying") then Some WApplying
  else if decide (name = "Probation") then Some WProbation
  else if decide (name = "ProbationPassed") then Some WProbationPassed
  else if decide (name = "Committing") then Some WCommitting
  else if decide (name = "Committed") then Some WCommitted
  else if decide (name = "Rejected") then Some WRejected
  else if decide (name = "Reverting") then Some WReverting
  else if decide (name = "Reverted") then Some WReverted
  else None.

(** [format!("{state:?}")] *)
Definition debug_name (state : WireState) : string :=
  match state with
  | WIdle => "Idle" | WProposed => "Proposed" | WTesting => "Testing"
  | WApplying => "Applying" | WProbation => "Probation"
  | WProbationPassed => "ProbationPassed" | WCommitting => "Committing"
  | WCommitted => "Committed" | WRejected => "Rejected" | WReverting => "Reverting"
  | WReverted => "Reverted"
  end.

Section Recovery.
Context `{JsonNumber} `{!BrokerCodec}.

Definition parse_tx_state_event_payload (payload : string) : option (TxId * WireState) :=
  value ← payload_value_from_str payload;
  obj ← value_as_object value;
  (if Nat.eqb (length obj) 2 then Some tt else None);;
  tx_id ← (field ← members_get "tx_id" obj; value_as_str field);
  (if decide (tx_id = "") then None else Some tt);;
  state_str ← (field ← members_get "state" obj; value_as_str field);
  state ← proto_state_from_debug_name state_str;
  Some (tx_id, state).

Fixpoint tx_state_event_sequences (events : list StoredEvent) (out : gmap TxId (list WireState)) :
    option (gmap TxId (list WireState)) :=
  match events with
  | [] => Some out
  | event :: events =>
      if decide (ev_kind event = "tx.state") then
        '(tx_id, state) ← parse_tx_state_event_payload (ev_payload event);
        tx_state_event_sequences events (<[tx_id := default [] (out !! tx_id) ++ [state]]> out)
      else tx_state_event_sequences events out
  end.

(** The states of one transaction in the WAL: an entry of
    [wal_state_sequences]. *)
Definition wal_states (records : list WalRecord) (tx_id : TxId) : list WireState :=
  wr_state <$> chain records tx_id.

Definition validate_tx_state_events_against_wal (records : list WalRecord)
    (events : list StoredEvent) : bool :=
  match tx_state_event_sequences events ∅ with
  | None => false
  | Some event_states =>
      forallb (fun '(tx_id, ev_seq) =>
        let wal_seq := wal_states records tx_id in
        Nat.leb (length ev_seq) (length wal_seq) &&
        bool_decide (ev_seq = take (length ev_seq) wal_seq)) (map_to_list event_states)
  end.
End Recovery.

(** ** transaction/engine.rs *)

Inductive EngineError :=
  | ESafeMode | ENotFound | EInvalidTransition | EIdempotencyConflict | EBaseRevisionMoved
  | EOwnershipMismatch | EWatchdogAuthorityRequired
  | EProposeRejected (reason : string)
  | EStorage (e : DurabilityError).
#[export] Instance EngineError_eq_dec : EqDecision EngineError.
Proof. solve_decision. Defined.

Record ConfigProposeOutcome := mkProposeOutcome {
  po_tx_id : TxId;
  po_diff : string;
  po_test_plan : TestPlan;
  po_affected_resources : list string;
  po_base_revision : BaseRevision;
  po_state : WireState;
}.

Record TxSnapshot := mkSnapshot {
  sn_tx_id : TxId;
  sn_state : WireState;
  sn_agent_id : string;
  sn_manifest_digest : Digest;
  sn_base_revision : BaseRevision;
  sn_effect_set : list EffectClass;
  sn_diff : string;
  sn_affected_resources : list string;
}.
#[export] Instance TxSnapshot_eq_dec : EqDecision TxSnapshot.
Proof. solve_decision. Defined.

Record TransactionEngine := mkEngine {
  en_state_root : Path;
  en_wal : WalStore;
  en_events : EventLog;
  en_txs : gmap TxId TxSnapshot;
  en_idempotency : IdempotencyStore;
  en_next_seq : Z;
  en_safe_mode : bool;
}.

Definition set_wal (w : WalStore) (e : TransactionEngine) :=
  mkEngine (en_state_root e) w (en_events e) (en_txs e) (en_idempotency e) (en_next_seq e)
           (en_safe_mode e).
Definition set_events (l : EventLog) (e : TransactionEngine) :=
  mkEngine (en_state_root e) (en_wal e) l (en_txs e) (en_idempotency e) (en_next_seq e)
           (en_safe_mode e).
Definition set_txs (t : gmap TxId TxSnapshot) (e : TransactionEngine) :=
  mkEngine (en_state_root e) (en_wal e) (en_events e) t (en_idempotency e) (en_next_seq e)
           (en_safe_mode e).
Definition set_idempotency (i : IdempotencyStore) (e : TransactionEngine) :=
  mkEngine (en_state_root e) (en_wal e) (en_events e) (en_txs e) i (en_next_seq e)
           (en_safe_mode e).
Definition set_next_seq (n : Z) (e : TransactionEngine) :=
  mkEngine (en_state_root e) (en_wal e) (en_events e) (en_txs e) (en_idempotency e) n
           (en_safe_mode e).
Definition set_engine_safe_mode (b : bool) (e : TransactionEngine) :=
  mkEngine (en_state_root e) (en_wal e) (en_events e) (en_txs e) (en_idempotency e)
           (en_next_seq e) b.

Record EngineW := mkEngineW {
  ew_engine : TransactionEngine;
  ew_world : TxWorld;
}.

Definition on_disk {E A} : M TxWorld E A -> M EngineW E A :=
  zoom ew_world (fun w s => mkEngineW (ew_engine s) w).
Definition get_engine {E} : M EngineW E TransactionEngine := gets ew_engine.
Definition modify_engine {E} (f : TransactionEngine -> TransactionEngine) : M EngineW E unit :=
  modify (fun s => mkEngineW (f (ew_engine s)) (ew_world s)).

Inductive WalIdempotencyLookup :=
  | LkFound (r : IdempotencyRecord)
  | LkConflict
  | LkNotFound.

Definition snapshot_of (r : WalRecord) : TxSnapshot :=
  {| sn_tx_id := wr_tx_id r; sn_state := wr_state r; sn_agent_id := wr_agent_id r;
     sn_manifest_digest := wr_manifest_digest r; sn_base_revision := wr_base_revision r;
     sn_effect_set := wr_effect_set r; sn_diff := wr_diff r;
     sn_affected_resources := wr_affected_resources r |}.

Section Engine.
Context `{JsonNumber} `{!BrokerCodec} `{!IoEnv} `{!HostAdapter}.

Abbreviation Op := (M EngineW EngineError).

(** ** Opening *)

(** The last record of each transaction wins. *)
Definition latest_snapshots (records : list WalRecord) : gmap TxId TxSnapshot :=
  fold_left (fun m r => <[wr_tx_id r := snapshot_of r]> m) records ∅.

Definition open_owned (state_root : Path) : M TxWorld EngineError TransactionEngine :=
  mapping_err (fun _ => EStorage Io) (create_dir_all state_root);;
  wal ← mapping_err EStorage (wal_open (path_join state_root ["wal"]));
  recovery ← recover wal;
  events ← mapping_err (fun _ => ESafeMode) (events_open (path_join state_root ["events"]));
  integrity ← attempt (validate_integrity events);
  let safe_mode := re_safe_mode recovery || negb (is_ok integrity) in
  idempotency ← mapping_err EStorage (idem_open (path_join state_root ["idempotency"]));
  let idempotency := merge_from_wal (re_records recovery) idempotency in
  let safe_mode := safe_mode || negb (validate_wal_semantics (re_records recovery)) in
  safe_mode ← (if safe_mode : bool then mret true
               else
                 stored ← mapping_err (fun _ => ESafeMode) (read_all events);
                 mret (negb (validate_tx_state_events_against_wal (re_records recovery) stored)));
  mret {| en_state_root := state_root; en_wal := wal; en_events := events;
          en_txs := if safe_mode : bool then ∅ else latest_snapshots (re_records recovery);
          en_idempotency := idempotency;
          en_next_seq := if safe_mode : bool then 0 else max_seq (re_records recovery);
          en_safe_mode := safe_mode |}.

(** ** Helpers of the operations *)

Definition ensure_dm_allowed : Op unit :=
  e ← get_engine; throw_if (en_safe_mode e) ESafeMode.

Definition DQ : string := String (Ascii.ascii_of_nat 34) "".

(** The JSON text {"mode":"safe_mode","reason":"durable_divergence"} *)
Definition BROKER_MODE : list byte :=
  bytes_of_string ("{" +:+ DQ +:+ "mode" +:+ DQ +:+ ":" +:+ DQ +:+ "safe_mode" +:+ DQ +:+ "," +:+
                   DQ +:+ "reason" +:+ DQ +:+ ":" +:+ DQ +:+ "durable_divergence" +:+ DQ +:+ "}").

(** [enter_safe_mode]: the marker file is written for the operator; nothing
    reads it and its failure is ignored. *)
Definition enter_safe_mode : Op unit :=
  modify_engine (set_engine_safe_mode true);;
  e ← get_engine;
  _ ← attempt (on_disk (fs_write (path_join (en_state_root e) ["broker_mode.json"]) BROKER_MODE));
  mret tt.

Definition on_wal (f : WalStore -> M TxWorld DurabilityError WalStore) : Op unit :=
  e ← get_engine;
  wal ← mapping_err EStorage (on_disk (f (en_wal e)));
  modify_engine (set_wal wal).

Definition snapshot (tx_id : TxId) : Op (option TxSnapshot) :=
  e ← get_engine; mret (en_txs e !! tx_id).

Definition persist_transition (tx_id : TxId) (state : WireState)
    (idempotency_key idem_fingerprint : option string) (agent_id : string)
    (manifest_digest : Digest) (base_revision : BaseRevision)
    (effect_set : list EffectClass) (diff : string) (affected_resources : list string)
    (result_json : option string) : Op Z :=
  e ← get_engine;
  throw_if (en_safe_mode e) ESafeMode;;
  let seq := u64_saturating_add (en_next_seq e) 1 in
  modify_engine (set_next_seq seq);;
  let record :=
    {| wr_record_version := 1; wr_seq := seq; wr_tx_id := tx_id; wr_state := state;
       wr_idempotency_key := idempotency_key; wr_idem_fingerprint := idem_fingerprint;
       wr_agent_id := agent_id; wr_manifest_digest := manifest_digest;
       wr_base_revision := base_revision; wr_effect_set := effect_set; wr_diff := diff;
       wr_affected_resources := affected_resources; wr_approval_ref := None;
       wr_result_json := result_json |} in
  on_wal (fun wal => append_transition wal record);;
  modify_engine (fun e => set_txs (<[tx_id := snapshot_of record]> (en_txs e)) e);;
  mret seq.

Definition rollback_transition (tx_id : TxId) (seq : Z) : Op unit :=
  on_wal (fun wal => revert_last_transition wal seq);;
  modify_engine (fun e => set_txs (delete tx_id (en_txs e)) e);;
  modify_engine (set_next_seq (u64_saturating_sub seq 1));;
  enter_safe_mode.

(** The JSON text {"tx_id":"..","state":".."}, without escaping. *)
Definition state_payload (tx_id : TxId) (state : WireState) : string :=
  "{" +:+ DQ +:+ "tx_id" +:+ DQ +:+ ":" +:+ DQ +:+ tx_id +:+ DQ +:+ "," +:+
  DQ +:+ "state" +:+ DQ +:+ ":" +:+ DQ +:+ debug_name state +:+ DQ +:+ "}".

Definition append_state_event (tx_id : TxId) (state : WireState) : Op unit :=
  e ← get_engine;
  '(r, events) ← mapping_err (fun _ => ESafeMode) (on_disk (events_append (en_events e)
                   (mkEventRecord "tx.state" (state_payload tx_id state))));
  modify_engine (set_events events);;
  match r with
  | Ok _ => mret tt
  | Err _ => enter_safe_mode;; throw ESafeMode
  end.

Definition record_idempotency (record : IdempotencyRecord) : Op unit :=
  e ← get_engine;
  store ← mapping_err EStorage (on_disk (idem_insert (en_idempotency e) record));
  modify_engine (set_idempotency store).

(** [let _ = self.idempotency.remove(&key);] *)
Definition forget_idempotency (key : string) : Op unit :=
  e ← get_engine;
  r ← attempt (on_disk (idem_remove (en_idempotency e) key));
  match r with
  | Ok store => modify_engine (set_idempotency store)
  | Err _ => mret tt
  end.

(** The loop over [records.iter().rev()]. *)
Fixpoint lookup_records (key fingerprint op : string) (matching_states : list WireState)
    (reversed : list WalRecord) : WalIdempotencyLookup :=
  match reversed with
  | [] => LkNotFound
  | record :: reversed =>
      let continue := lookup_records key fingerprint op matching_states reversed in
      if negb (bool_decide (wr_state record ∈ matching_states)) then continue
      else match wr_idempotency_key record with
      | None => continue
      | Some idem =>
          if bool_decide (idem_key (wr_agent_id record) op idem <> key) then continue
          else if bool_decide (default "" (wr_idem_fingerprint record) <> fingerprint)
          then LkConflict
          else match wr_result_json record with
          | None => continue
          | Some result_json =>
              LkFound (mkIdem key (wr_tx_id record) fingerprint result_json)
          end
      end
  end.

Definition lookup_idempotency_from_wal (key fingerprint op : string)
    (matching_states : list WireState) : Op WalIdempotencyLookup :=
  e ← get_engine;
  loaded ← attempt (on_disk (load_records (en_wal e)));
  mret (match loaded with
        | Err _ => LkNotFound
        | Ok records => lookup_records key fingerprint op matching_states (rev records)
        end).

Definition ensure_owner (snap : TxSnapshot) (agent_id : string) (manifest_digest : Digest) :
    result EngineError unit :=
  fail_if (bool_decide (sn_agent_id snap <> agent_id) ||
           bool_decide (sn_manifest_digest snap <> manifest_digest)) EOwnershipMismatch.

(** The digest of the manifest; a malformed one becomes the zero digest.
    The text is quoted without escaping before it is parsed as JSON. *)
Definition zero_digest : Digest := from_sha256_bytes (repeat Byte.x00 32).
Definition parse_manifest_digest (manifest_digest : string) : Digest :=
  match payload_value_from_str (DQ +:+ manifest_digest +:+ DQ) with
  | Some (VString raw) =>
      match digest_deserialize raw with Ok d => d | Err _ => zero_digest end
  | _ => zero_digest
  end.

Definition replay_propose (entry : IdempotencyRecord) :
    result EngineError ConfigProposeOutcome :=
  result ← match propose_payload_from_str (id_result_json entry) with
           | Some (r, _) => Ok r
           | None => ok_or (propose_result_from_str (id_result_json entry))
                           EIdempotencyConflict
           end;
  Ok {| po_tx_id := pr_tx_id result; po_diff := pr_diff result;
        po_test_plan := pr_test_plan result;
        po_affected_resources := pr_affected_resources result;
        po_base_revision := pr_base_revision result; po_state := WProposed |}.

Definition replay_apply (entry : IdempotencyRecord) : result EngineError TxStepResult :=
  step ← ok_or (step_from_str (id_result_json entry)) EIdempotencyConflict;
  fail_if (bool_decide (sr_state step = WRejected)) EBaseRevisionMoved;;
  Ok step.

Definition propose_fingerprint (params : ConfigProposeParams) : string :=
  default "" (propose_params_to_string params).
Definition apply_fingerprint (params : TxApplyParams) : string :=
  default "" (apply_params_to_string params).

Definition result_json_for_refusal (params : TxApplyParams) : result EngineError string :=
  ok_or (step_to_string (mkStep (ap_tx_id params) WRejected)) ESafeMode.

Definition observe_base : Op BaseRevision :=
  on_disk (fun w => let b := current_base_revision (w_tick w) in
    (Ret b, mkWorld (w_fs w) (S (w_tick w)) (w_calls w ++ [CBaseRevision b]))).

Definition call_propose (changes : list ConfigFileChange) :
    Op (result string AdapterProposeOutcome) :=
  on_disk (fun w => let r := propose_config (w_tick w) changes in
    (Ret r, mkWorld (w_fs w) (S (w_tick w)) (w_calls w ++ [CPropose r]))).

Definition new_tx_id : Op TxId :=
  on_disk (fun w => (Ret (new_ulid (w_tick w)), mkWorld (w_fs w) (S (w_tick w)) (w_calls w))).

(** ** The operations *)

(** The binding of an earlier call with the same key, when there is one. *)
Definition check_binding {A} (key fingerprint : string)
    (replay : IdempotencyRecord -> result EngineError A) (fresh : Op A) : Op A :=
  e ← get_engine;
  match idem_get (en_idempotency e) key with
  | Some entry =>
      throw_if (bool_decide (id_fingerprint entry <> fingerprint)) EIdempotencyConflict;;
      of_result (replay entry)
  | None => fresh
  end.

Definition config_propose (agent_id manifest_digest : string) (params : ConfigProposeParams) :
    Op ConfigProposeOutcome :=
  ensure_dm_allowed;;
  let key := idem_key agent_id "config.propose" (cp_idempotency_key params) in
  let fingerprint := propose_fingerprint params in
  check_binding key fingerprint replay_propose (
    looked ← lookup_idempotency_from_wal key fingerprint "config.propose" [WProposed];
    match looked with
    | LkConflict => throw EIdempotencyConflict
    | LkFound entry =>
        outcome ← of_result (replay_propose entry);
        e ← get_engine;
        (if bool_decide (idem_get (en_idempotency e) key = None) then
           record_idempotency entry;;
           append_state_event (po_tx_id outcome) WProposed
         else mret tt);;
        mret outcome
    | LkNotFound =>
        let digest := parse_manifest_digest manifest_digest in
        base_revision ← observe_base;
        tx_id ← new_tx_id;
        proposed ← call_propose (cp_changes params);
        staged ← of_result (map_err EProposeRejected proposed);
        let wire_result :=
          mkProposeResult tx_id (ao_diff staged) (ao_test_plan staged)
                          (ao_affected_resources staged) base_revision in
        result_json ← of_result (ok_or (propose_payload_to_string wire_result
                                          (ao_candidate_closure staged)) ESafeMode);
        seq ← persist_transition tx_id WProposed (Some (cp_idempotency_key params))
                (Some fingerprint) agent_id digest base_revision [EffD] (ao_diff staged)
                (ao_affected_resources staged) (Some result_json);
        record_idempotency (mkIdem key tx_id fingerprint result_json);;
        announced ← attempt (append_state_event tx_id WProposed);
        match announced with
        | Err err =>
            rollback_transition tx_id seq;;
            forget_idempotency key;;
            throw err
        | Ok _ =>
            mret {| po_tx_id := tx_id; po_diff := ao_diff staged;
                    po_test_plan := ao_test_plan staged;
                    po_affected_resources := ao_affected_resources staged;
                    po_base_revision := base_revision; po_state := WProposed |}
        end
    end).

Definition transition (agent_id : string) (manifest_digest : Digest) (tx_id : TxId)
    (target : TransactionState) (idempotency_key idem_fingerprint : option string)
    (idem_store : option (string * string)) : Op TxStepResult :=
  snap ← snapshot tx_id;
  snap ← of_result (ok_or snap ENotFound);
  of_result (ensure_owner snap agent_id manifest_digest);;
  throw_if (negb (broker_may_enter (from_wire (sn_state snap)) target)) EInvalidTransition;;
  let wire_target := to_wire target in
  let result := mkStep tx_id wire_target in
  result_json ← of_result (ok_or (step_to_string result) ESafeMode);
  seq ← persist_transition tx_id wire_target idempotency_key idem_fingerprint
          (sn_agent_id snap) (sn_manifest_digest snap) (sn_base_revision snap)
          (sn_effect_set snap) (sn_diff snap) (sn_affected_resources snap)
          (Some result_json);
  match idem_store with
  | Some (key, fingerprint) =>
      recorded ← attempt (record_idempotency (mkIdem key tx_id fingerprint result_json));
      match recorded with
      | Err err => rollback_transition tx_id seq;; throw err
      | Ok _ => mret tt
      end
  | None => mret tt
  end;;
  announced ← attempt (append_state_event tx_id wire_target);
  match announced with
  | Err err =>
      rollback_transition tx_id seq;;
      match idem_store with
      | Some (key, _) => forget_idempotency key
      | None => mret tt
      end;;
      throw err
  | Ok _ => mret result
  end.

Definition tx_test (agent_id manifest_digest : string) (tx_id : TxId) : Op TxStepResult :=
  ensure_dm_allowed;;
  transition agent_id (parse_manifest_digest manifest_digest) tx_id TTesting None None None.

Definition refuse_moved_base_apply (snap : TxSnapshot) (key fingerprint : string)
    (params : TxApplyParams) (result_json : string) : Op TxStepResult :=
  let tx_id := ap_tx_id params in
  seq ← persist_transition tx_id WRejected (Some (ap_idempotency_key params))
          (Some fingerprint) (sn_agent_id snap) (sn_manifest_digest snap)
          (sn_base_revision snap) (sn_effect_set snap) (sn_diff snap)
          (sn_affected_resources snap) (Some result_json);
  announced ← attempt (append_state_event tx_id WRejected);
  match announced with
  | Err err =>
      on_wal (fun wal => revert_last_transition wal seq);;
      modify_engine (set_next_seq (u64_saturating_sub seq 1));;
      modify_engine (fun e => set_txs (<[tx_id :=
        {| sn_tx_id := tx_id; sn_state := sn_state snap; sn_agent_id := sn_agent_id snap;
           sn_manifest_digest := sn_manifest_digest snap;
           sn_base_revision := sn_base_revision snap;
           sn_effect_set := sn_effect_set snap; sn_diff := sn_diff snap;
           sn_affected_resources := sn_affected_resources snap |}]> (en_txs e)) e);;
      throw err
  | Ok _ =>
      record_idempotency (mkIdem key tx_id fingerprint result_json);;
      throw EBaseRevisionMoved
  end.

Definition tx_apply (agent_id manifest_digest : string) (params : TxApplyParams) :
    Op TxStepResult :=
  ensure_dm_allowed;;
  let digest := parse_manifest_digest manifest_digest in
  let key := idem_key agent_id "tx.apply" (ap_idempotency_key params) in
  let fingerprint := apply_fingerprint params in
  check_binding key fingerprint replay_apply (
    looked ← lookup_idempotency_from_wal key fingerprint "tx.apply" [WApplying; WRejected];
    match looked with
    | LkConflict => throw EIdempotencyConflict
    | LkFound entry =>
        e ← get_engine;
        (if bool_decide (idem_get (en_idempotency e) key = None)
         then record_idempotency entry else mret tt);;
        of_result (replay_apply entry)
    | LkNotFound =>
        snap ← snapshot (ap_tx_id params);
        snap ← of_result (ok_or snap ENotFound);
        of_result (ensure_owner snap agent_id digest);;
        current ← observe_base;
        if bool_decide (sn_base_revision snap <> current) then
          result_json ← of_result (result_json_for_refusal params);
          refuse_moved_base_apply snap key fingerprint params result_json
        else
          transition agent_id digest (ap_tx_id params) TApplying
            (Some (ap_idempotency_key params)) (Some fingerprint) (Some (key, fingerprint))
    end).

Definition advance_to_probation (agent_id manifest_digest : string) (tx_id : TxId) :
    Op TxStepResult :=
  ensure_dm_allowed;;
  let digest := parse_manifest_digest manifest_digest in
  snap ← snapshot tx_id;
  snap ← of_result (ok_or snap ENotFound);
  throw_if (bool_decide (sn_state snap = WProbation)) EWatchdogAuthorityRequired;;
  transition agent_id digest tx_id TProbation None None None.

Definition tx_status (tx_id : TxId) : Op TxStatusResult :=
  e ← get_engine;
  throw_if (en_safe_mode e) ESafeMode;;
  snap ← of_result (ok_or (en_txs e !! tx_id) ENotFound);
  mret (mkStatus (sn_tx_id snap) (sn_state snap) (sn_effect_set snap)
                 (Some (sn_base_revision snap))).

(** [events_replay]: the log, the events after the cursor, the next cursor *)
Definition events_replay (cursor : option string) : Op (string * list StoredEvent * string) :=
  e ← get_engine;
  throw_if (en_safe_mode e) ESafeMode;;
  let log_id := me_log_id (el_meta (en_events e)) in
  parsed ← match cursor with
           | Some raw =>
               if bool_decide (raw = "") then mret (after_seq log_id 0)
               else of_result (map_err (fun _ => ENotFound) (cursor_parse raw))
           | None => mret (after_seq log_id 0)
           end;
  events ← mapping_err (fun _ => ENotFound) (on_disk (replay (en_events e) parsed));
  mret (log_id, events, cursor_encode (latest_cursor (en_events e))).
End Engine.
