(* ===== verification/TxChain.v ===== *)
(** * Broker: the chains of a write-ahead log

    The records of one transaction, in order; what makes them lawful; and what
    one more record does to them. *)

From stdpp Require Import sorting.
From S2P Require Import Prelude RustStd Json TxTypes TxState TxStorage TxNames TxEngine.

(** The records are numbered 1, 2, 3, ... *)
Definition numbered (rs : list WalRecord) : Prop :=
  forall i r, rs !! i = Some r -> wr_seq r = Z.of_nat i + 1.

Lemma numbered_snoc rs r :
  numbered rs -> wr_seq r = Z.of_nat (length rs) + 1 -> numbered (rs ++ [r]).
Proof.
  intros Hn Hr i x Hx. apply lookup_app_Some in Hx as [Hx|[Hge Hx]]; [by apply Hn|].
  apply list_lookup_singleton_Some in Hx as [Hi <-]. rewrite Hr. lia.
Qed.

Lemma numbered_init rs r : numbered (rs ++ [r]) -> numbered rs.
Proof. intros Hn i x Hx. apply Hn. by apply lookup_app_l_Some. Qed.

Lemma sequential_from_spec k (seqs : list Z) :
  0 <= k -> k + Z.of_nat (length seqs) <= u64_max ->
  sequential_from k seqs = true <-> forall i s, seqs !! i = Some s -> s = k + Z.of_nat i + 1.
Proof.
  revert k. induction seqs as [|s seqs IH]; intros k Hk Hmax; cbn [sequential_from length] in *.
  { split; [by intros _ i s|done]. }
  rewrite andb_true_iff, Z.eqb_eq, IH by lia. unfold u64_saturating_add. rewrite Z.min_l by lia.
  split.
  - intros [-> Hs] [|i] x Hx; [injection Hx as <-; lia|]. apply Hs in Hx. lia.
  - intros Hs. split; [pose proof (Hs 0%nat s eq_refl); lia|].
    intros i x Hx. rewrite (Hs (S i) x) by done. lia.
Qed.

Lemma max_seq_numbered rs : numbered rs -> max_seq rs = Z.of_nat (length rs).
Proof.
  induction rs as [|r rs IH] using rev_ind; intros Hn; [done|].
  pose proof (Hn (length rs) r) as Hr. rewrite list_lookup_middle in Hr by done. specialize (Hr eq_refl).
  specialize (IH (numbered_init _ _ Hn)). unfold max_seq in *. rewrite fmap_app, fold_right_app. cbn.
  assert (Hgen : forall (l : list Z) a, 0 <= a -> fold_right Z.max a l = Z.max a (fold_right Z.max 0 l)).
  { intros l a Ha. induction l as [|x l IHl]; cbn; [lia|]. rewrite IHl. lia. }
  rewrite Hgen by lia. rewrite IH, length_app. cbn. lia.
Qed.

(** Recovery accepts exactly the numbered logs of its checkpoint. *)
Lemma consistent_numbered rs cp :
  Z.of_nat (length rs) <= u64_max ->
  records_consistent_with_checkpoint rs cp = true <-> numbered rs /\ cp = Z.of_nat (length rs).
Proof.
  intros Hmax. unfold records_consistent_with_checkpoint.
  rewrite andb_true_iff, Z.eqb_eq, sequential_from_spec by (rewrite ?length_fmap; lia).
  assert (Heq : (forall i s, (wr_seq <$> rs) !! i = Some s -> s = 0 + Z.of_nat i + 1) <-> numbered rs).
  { unfold numbered. split.
    - intros Hs i r Hr. rewrite (Hs i (wr_seq r)); [lia|]. by rewrite list_lookup_fmap, Hr.
    - intros Hn i s Hs. rewrite list_lookup_fmap in Hs.
      destruct (rs !! i) as [r|] eqn:Hr; [|done]. injection Hs as <-. rewrite (Hn _ _ Hr). lia. }
  rewrite Heq. split.
  - intros [Hc Hn]. split; [done|]. by rewrite <-Hc, max_seq_numbered.
  - intros [Hn ->]. split; [by apply max_seq_numbered|done].
Qed.

(** ** Chains *)

Lemma numbered_sorted rs : numbered rs -> StronglySorted (fun x y => wr_seq x < wr_seq y) rs.
Proof.
  induction rs as [|r rs IH] using rev_ind; intros Hn; [constructor|].
  apply StronglySorted_app_2; [|by apply IH, (numbered_init _ r)|by repeat constructor].
  intros x y Hx Hy. apply list_elem_of_singleton in Hy as ->.
  apply list_elem_of_lookup in Hx as [i Hi]. pose proof (lookup_lt_Some _ _ _ Hi).
  rewrite (Hn i x) by (by apply lookup_app_l_Some).
  rewrite (Hn (length rs) r) by (by apply list_lookup_middle). lia.
Qed.

Lemma StronglySorted_filter {A} (R : A -> A -> Prop) (P : A -> Prop) `{!forall x, Decision (P x)} l :
  StronglySorted R l -> StronglySorted R (filter P l).
Proof.
  induction 1 as [|x l _ IH Hx]; [constructor|]. rewrite filter_cons.
  case_decide; [|done]. constructor; [done|].
  rewrite Forall_forall in Hx |- *. intros y [_ Hy]%list_elem_of_filter. by apply Hx.
Qed.

(** In a numbered log the records of a transaction are in order already. *)
Lemma chain_filter rs t : numbered rs -> chain rs t = filter (fun r => wr_tx_id r = t) rs.
Proof.
  intros Hn. unfold chain. apply sort_by_key_unique; [done|].
  by apply StronglySorted_filter, numbered_sorted.
Qed.

Lemma chain_snoc rs r t :
  numbered (rs ++ [r]) ->
  chain (rs ++ [r]) t = if decide (wr_tx_id r = t) then chain rs t ++ [r] else chain rs t.
Proof.
  intros Hn. rewrite !chain_filter by (try done; by eapply numbered_init).
  rewrite filter_app, filter_cons, filter_nil. case_decide; [done|by rewrite app_nil_r].
Qed.

(** One record after another, within a transaction. *)
Definition lawful_step (prev next : WalRecord) : Prop :=
  same_transaction prev next = true /\
  broker_may_enter (from_wire (wr_state prev)) (from_wire (wr_state next)) = true.

Lemma last_default {A} (x : A) rest d : List.last (x :: rest) d = List.last rest x.
Proof. revert x. induction rest as [|y rest IH]; intros x; [done|]. cbn in *. by destruct rest. Qed.

Lemma windows_ok_snoc prev rest r :
  windows_ok prev (rest ++ [r]) = true <->
  windows_ok prev rest = true /\ lawful_step (List.last rest prev) r.
Proof.
  unfold lawful_step. revert prev. induction rest as [|x rest IH]; intros prev.
  - cbn. rewrite !andb_true_iff. tauto.
  - cbn [app windows_ok]. rewrite !andb_true_iff, IH.
    rewrite last_default. tauto.
Qed.

Lemma chain_ok_snoc c r :
  chain_ok (c ++ [r]) = true <->
  chain_ok c = true /\
  match last c with None => wr_state r = WProposed | Some prev => lawful_step prev r end.
Proof.
  destruct c as [|first rest].
  - cbn. rewrite andb_true_iff, bool_decide_eq_true. tauto.
  - cbn [app chain_ok]. rewrite !andb_true_iff, windows_ok_snoc.
    assert (Hl : last (first :: rest) = Some (List.last rest first)).
    { clear. revert first. induction rest as [|y rest IH]; intros first; [done|].
      change (last (first :: y :: rest)) with (last (y :: rest)). by rewrite IH, last_default. }
    rewrite Hl. tauto.
Qed.

(** A log whose semantics recovery accepts. *)
Definition lawful (rs : list WalRecord) : Prop := validate_wal_semantics rs = true.

Lemma lawful_spec rs :
  lawful rs <->
  Forall (fun r => wr_record_version r = SUPPORTED_RECORD_VERSION /\
                   is_watchdog_owned (wr_state r) = false) rs /\
  (forall t, chain_ok (chain rs t) = true).
Proof.
  unfold lawful, validate_wal_semantics. rewrite andb_true_iff, !forallb_forall, Forall_forall.
  setoid_rewrite andb_true_iff. setoid_rewrite Z.eqb_eq. setoid_rewrite negb_true_iff.
  split; intros [Hr Hc]; split.
  - intros r Hin. by apply Hr, list_elem_of_In.
  - intros t. destruct (chain rs t) as [|r c] eqn:Heq; [done|].
    assert (Hin : r ∈ filter (fun x => wr_tx_id x = t) rs).
    { rewrite <-(sort_by_key_perm wr_seq). change (r ∈ chain rs t). rewrite Heq. by left. }
    apply list_elem_of_filter in Hin as [<- Hin]. rewrite <-Heq. by apply Hc, list_elem_of_In.
  - intros r Hin. by apply Hr, list_elem_of_In.
  - intros r _. apply Hc.
Qed.

(** One more record keeps a log lawful exactly when it may follow the last
    record of its transaction. *)
Lemma lawful_snoc rs r :
  numbered (rs ++ [r]) ->
  lawful (rs ++ [r]) <->
  lawful rs /\ wr_record_version r = SUPPORTED_RECORD_VERSION /\
  is_watchdog_owned (wr_state r) = false /\
  match last (chain rs (wr_tx_id r)) with
  | None => wr_state r = WProposed
  | Some prev => lawful_step prev r
  end.
Proof.
  intros Hn. rewrite !lawful_spec, Forall_app, Forall_singleton.
  assert (Hc : (forall t, chain_ok (chain (rs ++ [r]) t) = true) <->
    (forall t, chain_ok (chain rs t) = true) /\
    match last (chain rs (wr_tx_id r)) with
    | None => wr_state r = WProposed
    | Some prev => lawful_step prev r
    end).
  { split.
    - intros Hall. split; [intros t|]; [specialize (Hall t)|specialize (Hall (wr_tx_id r))];
        rewrite chain_snoc in Hall by done; case_decide; try done; by apply chain_ok_snoc in Hall as [? ?].
    - intros [Hall Hlast] t. rewrite chain_snoc by done. case_decide as Ht; [|done].
      subst t. apply chain_ok_snoc. by split. }
  rewrite Hc. tauto.
Qed.

(** ** Snapshots *)

(** The last record of each transaction is its snapshot. *)
Lemma latest_snapshots_snoc `{JsonNumber} `{!BrokerCodec} rs r :
  latest_snapshots (rs ++ [r]) = <[wr_tx_id r := snapshot_of r]> (latest_snapshots rs).
Proof. unfold latest_snapshots. by rewrite fold_left_app. Qed.

Lemma latest_snapshots_last rs t :
  numbered rs -> latest_snapshots rs !! t = snapshot_of <$> last (chain rs t).
Proof.
  induction rs as [|r rs IH] using rev_ind; intros Hn; [done|].
  unfold latest_snapshots in *. rewrite fold_left_app. cbn [fold_left].
  rewrite chain_snoc by done. case_decide as Ht.
  - subst t. by rewrite lookup_insert_eq, last_snoc.
  - rewrite lookup_insert_ne by done. by apply IH, (numbered_init _ r).
Qed.
