(* ===== verification/TxEngineFacts.v ===== *)
(** * Broker: the engine and its log agree

    [agrees s rs]: outside safe mode, the write-ahead log on disk holds the
    records [rs], they are lawful, and the transactions in memory are what
    they say.  An operation that answers extends them by one lawful record. *)

From S2P Require Import Prelude RustStd Json TxTypes TxState TxStorage TxNames TxWalFacts.
From S2P Require Import TxEngine TxChain.

(** ** The engine's directories *)

Definition wal_root (e : TransactionEngine) : Path := path_join (en_state_root e) ["wal"].
Definition events_root (e : TransactionEngine) : Path := path_join (en_state_root e) ["events"].
Definition idem_root (e : TransactionEngine) : Path := path_join (en_state_root e) ["idempotency"].

Lemma sibling_dirs (root : Path) a b (p : Path) :
  a <> b -> path_join root [a] `prefix_of` p -> ~ path_join root [b] `prefix_of` p.
Proof.
  unfold path_join. intros Hab [k ->] [k' Hk]. rewrite <-!app_assoc in Hk.
  apply app_inv_head in Hk. by injection Hk.
Qed.

(** A path below [root], or one of its ancestors. *)
Definition on_branch (root p : Path) : Prop := root `prefix_of` p \/ p `prefix_of` root.

(** A file of a sibling directory is not on the branch. *)
Lemma off_branch (root : Path) a b l :
  a <> b -> ~ on_branch (path_join root [a]) (path_join (path_join root [b]) l).
Proof.
  intros Hab [Hp|Hp].
  - apply (sibling_dirs root a b _ Hab Hp). by exists l.
  - unfold path_join in Hp. rewrite <-app_assoc in Hp. apply prefix_app_inv in Hp.
    by apply prefix_cons_inv_1 in Hp.
Qed.

(** Only the part of the state beside the write-ahead log changed. *)
Record beside (s s' : EngineW) : Prop := {
  bs_root : en_state_root (ew_engine s') = en_state_root (ew_engine s);
  bs_wal : en_wal (ew_engine s') = en_wal (ew_engine s);
  bs_txs : en_txs (ew_engine s') = en_txs (ew_engine s);
  bs_seq : en_next_seq (ew_engine s') = en_next_seq (ew_engine s);
  bs_safe : en_safe_mode (ew_engine s') = en_safe_mode (ew_engine s);
  bs_events : el_root (en_events (ew_engine s')) = el_root (en_events (ew_engine s));
  bs_idem : is_root (en_idempotency (ew_engine s')) = is_root (en_idempotency (ew_engine s));
  bs_dirs : fs_dirs (w_fs (ew_world s')) = fs_dirs (w_fs (ew_world s));
  bs_files : forall p : Path, on_branch (wal_root (ew_engine s)) p ->
    fs_files (w_fs (ew_world s')) !! p = fs_files (w_fs (ew_world s)) !! p;
}.

#[export] Instance beside_refl : Reflexive beside.
Proof. by intros s. Qed.
#[export] Instance beside_trans : Transitive beside.
Proof.
  intros s1 s2 s3 H1 H2. destruct H1, H2. split; try congruence.
  intros p Hp. rewrite bs_files1; [by apply bs_files0|]. unfold wal_root. by rewrite bs_root0.
Qed.

Section Agrees.
Context `{JsonNumber} `{!BrokerCodec}.

Record agrees (s : EngineW) (rs : list WalRecord) : Prop := {
  ag_safe : en_safe_mode (ew_engine s) = false;
  ag_wal : en_wal (ew_engine s) = mkStore (wal_root (ew_engine s)) false (Z.of_nat (length rs));
  ag_events : el_root (en_events (ew_engine s)) = events_root (ew_engine s);
  ag_idem : is_root (en_idempotency (ew_engine s)) = idem_root (ew_engine s);
  ag_disk : wal_disk (wal_root (ew_engine s)) rs (Z.of_nat (length rs)) (w_fs (ew_world s));
  ag_numbered : numbered rs;
  ag_lawful : lawful rs;
  ag_txs : en_txs (ew_engine s) = latest_snapshots rs;
  ag_seq : en_next_seq (ew_engine s) = Z.of_nat (length rs);
  ag_ok : Forall wal_record_ok rs;
  ag_approval : Forall (fun r => wr_approval_ref r = None) rs;
}.

Lemma wal_disk_frame root rs cp fs fs' :
  wal_disk root rs cp fs -> fs_dirs fs' = fs_dirs fs ->
  (forall p, on_branch root p -> fs_files fs' !! p = fs_files fs !! p) ->
  wal_disk root rs cp fs'.
Proof.
  intros Hd Hdirs Hsame. split; rewrite ?Hdirs.
  - intros q Hq. destruct (dk_dirs _ _ _ _ Hd q Hq) as [Hi Hno]. rewrite Hdirs. split; [done|].
    rewrite Hsame; [done|].
    destruct (prefix_weak_total q root (records_dir root)) as [Hc|Hc];
      [done|by apply prefix_app_r|by right|by left].
  - apply (dk_nosub _ _ _ _ Hd).
  - intros i r Hr. rewrite Hsame by (left; apply prefix_root_record). by apply (dk_read _ _ _ _ Hd).
  - intros x. rewrite Hsame by (left; apply prefix_root_record). apply (dk_only _ _ _ _ Hd).
  - rewrite Hsame by (left; apply prefix_root_join). apply (dk_checkpoint _ _ _ _ Hd).
  - apply (dk_nodir _ _ _ _ Hd).
  - apply (dk_range _ _ _ _ Hd).
Qed.

Lemma agrees_beside s s' rs : agrees s rs -> beside s s' -> agrees s' rs.
Proof.
  intros [] []. split; rewrite ?bs_safe0, ?bs_wal0, ?bs_events0, ?bs_idem0, ?bs_txs0, ?bs_seq0;
    unfold wal_root, events_root, idem_root in *; rewrite ?bs_root0; try done.
  by eapply wal_disk_frame.
Qed.
End Agrees.

(** ** The monad of the engine *)

Section Blocks.
Context {E A : Type}.

Lemma wp_on_disk (m : M TxWorld E A) (Q : outcome E A -> EngineW -> Prop) s :
  wp (on_disk m) Q s <-> wp m (fun o w => Q o (mkEngineW (ew_engine s) w)) (ew_world s).
Proof. unfold on_disk. apply wp_zoom. Qed.
Lemma wp_get_engine (Q : outcome E TransactionEngine -> EngineW -> Prop) s :
  wp get_engine Q s <-> Q (Ret (ew_engine s)) s.
Proof. done. Qed.
Lemma wp_modify_engine f (Q : outcome E unit -> EngineW -> Prop) s :
  wp (modify_engine f) Q s <-> Q (Ret tt) (mkEngineW (f (ew_engine s)) (ew_world s)).
Proof. done. Qed.
End Blocks.
#[export] Hint Rewrite @wp_on_disk @wp_get_engine @wp_modify_engine : wp.

(** Files of one directory of the engine were written, and nothing else. *)
Definition wrote_in (d : Path) (fs fs' : FS) : Prop :=
  fs_dirs fs' = fs_dirs fs /\
  forall p, (forall l, p <> path_join d l) -> fs_files fs' !! p = fs_files fs !! p.

#[export] Instance wrote_in_refl d : Reflexive (wrote_in d).
Proof. by intros fs. Qed.
#[export] Instance wrote_in_trans d : Transitive (wrote_in d).
Proof. intros f1 f2 f3 [Hd H1] [Hd' H2]. split; [congruence|]. intros p Hp. by rewrite H2, H1. Qed.

Lemma wrote_in_put d l bs fs : wrote_in d fs (put_file (path_join d l) bs fs).
Proof. split; [done|]. intros p Hp. cbn. by rewrite lookup_insert_ne by (intros Heq; by apply (Hp l)). Qed.

Lemma wrote_in_rename d l l' fs fs' :
  rename_file (path_join d l) (path_join d l') fs = Some fs' -> wrote_in d fs fs'.
Proof.
  unfold rename_file. destruct (fs_files fs !! _) as [bs|]; cbn [mbind option_bind]; [|done].
  case_match; [|done]. intros [= <-]. split; [done|]. intros p Hp. cbn.
  rewrite lookup_insert_ne by (intros Heq; by apply (Hp l')).
  by rewrite lookup_delete_ne by (intros Heq; by apply (Hp l)).
Qed.

Lemma wrote_beside s e' w' d :
  d <> "wal" ->
  wrote_in (path_join (en_state_root (ew_engine s)) [d]) (w_fs (ew_world s)) (w_fs w') ->
  en_state_root e' = en_state_root (ew_engine s) -> en_wal e' = en_wal (ew_engine s) ->
  en_txs e' = en_txs (ew_engine s) -> en_next_seq e' = en_next_seq (ew_engine s) ->
  en_safe_mode e' = en_safe_mode (ew_engine s) ->
  el_root (en_events e') = el_root (en_events (ew_engine s)) ->
  is_root (en_idempotency e') = is_root (en_idempotency (ew_engine s)) ->
  beside s (mkEngineW e' w').
Proof.
  intros Hd [Hdirs Hf] ???????. split; try done. intros p Hp. apply Hf.
  intros l ->. revert Hp. by apply off_branch.
Qed.

(** ** The stores beside the log *)

Section Beside.
Context `{JsonNumber} `{!BrokerCodec} `{!IoEnv}.

Lemma wp_write_in d l bytes (Q : outcome DurabilityError unit -> TxWorld -> Prop) w :
  (forall o w', wrote_in d (w_fs w) (w_fs w') -> o <> Panic -> Q o w') ->
  wp (write_all_and_sync (path_join d l) bytes) Q w.
Proof.
  intros HQ. apply wp_write_all_and_sync.
  - intros w' Hw. apply HQ; [rewrite Hw; apply wrote_in_put|done].
  - intros e w' [Hw|[bs Hw]]; apply HQ; try done; rewrite Hw; [done|apply wrote_in_put].
Qed.

Lemma wp_rename_in d l l' (Q : outcome DurabilityError unit -> TxWorld -> Prop) w :
  (forall o w', wrote_in d (w_fs w) (w_fs w') -> o <> Panic -> Q o w') ->
  wp (atomic_rename (path_join d l) (path_join d l')) Q w.
Proof.
  intros HQ. apply wp_atomic_rename.
  - intros fs w' Hr Hw. apply HQ; [|done]. subst fs. by eapply wrote_in_rename.
  - intros e w' [Hw|Hr]; apply HQ; try done; [by rewrite Hw|]. by eapply wrote_in_rename.
Qed.

Lemma wp_idem_insert st rec (Q : outcome DurabilityError IdempotencyStore -> TxWorld -> Prop) w :
  (forall w', wrote_in (is_root st) (w_fs w) (w_fs w') ->
     Q (Ret (mkIdemStore (is_root st) (<[id_key rec := rec]> (is_entries st)))) w') ->
  (forall e w', wrote_in (is_root st) (w_fs w) (w_fs w') -> Q (Throw e) w') ->
  wp (idem_insert st rec) Q w.
Proof.
  intros HQ HT. unfold idem_insert. wp_simpl.
  destruct (idem_to_vec rec) as [bytes|]; cbn [ok_or]; [|by apply HT]. wp_simpl.
  apply wp_write_in. intros [[]|e|] w1 Hx1 Hp; [|by apply HT|done]. wp_simpl.
  apply wp_rename_in. intros [[]|e|] w2 Hx2 Hp2; [|apply HT; by etrans|done]. wp_simpl.
  apply HQ. by etrans.
Qed.

Lemma wp_persist_meta root meta (Q : outcome EventError unit -> TxWorld -> Prop) w :
  (forall o w', wrote_in root (w_fs w) (w_fs w') -> o <> Panic -> Q o w') ->
  wp (persist_meta root meta) Q w.
Proof.
  intros HQ. unfold persist_meta. wp_simpl.
  destruct (meta_to_vec meta) as [bytes|]; cbn [ok_or]; [|by apply HQ]. wp_simpl.
  apply wp_write_in. intros [[]|e|] w1 Hx1 Hp; [|by apply HQ|done]. wp_simpl.
  apply wp_rename_in. intros [[]|e|] w2 Hx2 Hp2; [..|done]; apply HQ; try done; by etrans.
Qed.

Lemma wp_events_write l stored (Q : outcome EventError unit -> TxWorld -> Prop) w :
  (forall o w', wrote_in (el_root l) (w_fs w) (w_fs w') -> o <> Panic -> Q o w') ->
  wp (events_write l stored) Q w.
Proof.
  intros HQ. unfold events_write, ev_io, open_append. wp_simpl.
  destruct (event_to_string stored) as [line|]; cbn [ok_or]; [|by apply HQ]. wp_simpl.
  apply wp_io_call; [|by apply HQ]. intros a fs1 Ha. case_match; [|done]. injection Ha as <- <-.
  wp_simpl. unfold events_path.
  assert (Hx1 : forall bs n cs, wrote_in (el_root l) (w_fs w)
            (w_fs (mkWorld (C := TxCall) (put_file (path_join (el_root l) ["log.jsonl"]) bs (w_fs w)) n cs)))
    by (intros; apply wrote_in_put).
  assert (Hx2 : forall b bs n cs, wrote_in (el_root l) (w_fs w) (w_fs (mkWorld (C := TxCall)
            (put_file (path_join (el_root l) ["log.jsonl"]) bs
              (put_file (path_join (el_root l) ["log.jsonl"]) b (w_fs w))) n cs))).
  { intros. etrans; [apply (Hx1 b n cs)|apply wrote_in_put]. }
  apply wp_write_all; [intros k|..]; wp_simpl; [apply HQ; [apply Hx2|done]|apply HQ; [apply Hx1|done]|].
  apply wp_sync_file. intros [[]|e|] w2 Hw2 Hp; [| |done]; wp_simpl.
  2: { apply HQ; [|done]. rewrite Hw2. apply Hx2. }
  apply wp_persist_meta. intros o w3 Hw3 Hp3. apply HQ; [|done]. etrans; [|exact Hw3].
  rewrite Hw2. apply Hx2.
Qed.

(** *** In the engine *)

Lemma wp_record_idempotency rec (Q : outcome EngineError unit -> EngineW -> Prop) s :
  is_root (en_idempotency (ew_engine s)) = idem_root (ew_engine s) ->
  (forall s', beside s s' -> is_entries (en_idempotency (ew_engine s')) =
       <[id_key rec := rec]> (is_entries (en_idempotency (ew_engine s))) ->
     en_events (ew_engine s') = en_events (ew_engine s) -> Q (Ret tt) s') ->
  (forall e s', beside s s' -> Q (Throw (EStorage e)) s') ->
  wp (record_idempotency rec) Q s.
Proof.
  intros Hroot HQ HT. unfold record_idempotency. wp_simpl. apply wp_idem_insert; rewrite Hroot.
  - intros w' Hw. wp_simpl. apply HQ; [|done|done].
    by apply (wrote_beside _ _ _ "idempotency").
  - intros e w' Hw. apply HT. by apply (wrote_beside _ _ _ "idempotency").
Qed.

(** [let _ = self.idempotency.remove(&key);] *)
Lemma wrote_in_delete d l fs : wrote_in d fs (mkFS (delete (path_join d l) (fs_files fs)) (fs_dirs fs)).
Proof. split; [done|]. intros p Hp. cbn. by rewrite lookup_delete_ne by (intros Heq; by apply (Hp l)). Qed.

Lemma wp_forget_idempotency key (Q : outcome EngineError unit -> EngineW -> Prop) s :
  is_root (en_idempotency (ew_engine s)) = idem_root (ew_engine s) ->
  (forall s', beside s s' -> Q (Ret tt) s') ->
  wp (forget_idempotency key) Q s.
Proof.
  intros Hroot HQ. unfold forget_idempotency, idem_remove, io_. wp_simpl. apply wp_path_exists.
  assert (Hb : forall f w', wrote_in (idem_root (ew_engine s)) (w_fs (ew_world s)) (w_fs w') ->
            beside s (mkEngineW (set_idempotency (mkIdemStore (is_root (en_idempotency (ew_engine s))) f)
                                   (ew_engine s)) w'))
    by (intros f w' Hw; by apply (wrote_beside _ _ _ "idempotency")).
  assert (Hb0 : forall w', w_fs w' = w_fs (ew_world s) -> beside s (mkEngineW (ew_engine s) w'))
    by (intros w' Hw; apply (wrote_beside _ _ _ "idempotency"); try done; by rewrite Hw).
  destruct (match io_fault _ with NoFault => _ | _ => _ end); wp_simpl.
  - apply wp_io_call; [intros a fs Hf|]; wp_simpl; [apply HQ, Hb|by apply HQ, Hb0].
    destruct (fs_files _ !! _); [|done]. injection Hf as _ <-. unfold idem_path. rewrite Hroot.
    apply wrote_in_delete.
  - by apply HQ, Hb.
Qed.

(** In safe mode, and otherwise only the part beside the log changed. *)
Definition reopened (b : bool) (s : EngineW) : EngineW :=
  mkEngineW (set_engine_safe_mode b (ew_engine s)) (ew_world s).
Definition shut (s s' : EngineW) : Prop :=
  en_safe_mode (ew_engine s') = true /\ beside s (reopened (en_safe_mode (ew_engine s)) s').

Lemma wp_engine_safe_mode (Q : outcome EngineError unit -> EngineW -> Prop) s :
  (forall s', shut s s' -> Q (Ret tt) s') -> wp enter_safe_mode Q s.
Proof.
  intros HQ. unfold enter_safe_mode, fs_write, open_truncate. wp_simpl.
  set (mode := path_join _ ["broker_mode.json"]).
  assert (Hshut : forall w', wrote_in mode (w_fs (ew_world s)) (w_fs w') ->
            shut s (mkEngineW (set_engine_safe_mode true (ew_engine s)) w')).
  { intros w' Hw. split; [done|]. by apply (wrote_beside _ _ _ "broker_mode.json"). }
  assert (Hput : forall bs fs, wrote_in mode fs (put_file mode bs fs)).
  { intros bs fs. pose proof (wrote_in_put mode [] bs fs) as Hx1. unfold path_join in Hx1.
    by rewrite app_nil_r in Hx1. }
  apply wp_io_call; [|by apply HQ, Hshut]. intros a fs Ha. case_match; [|done]. injection Ha as <- <-.
  apply wp_write_all; intros; wp_simpl; apply HQ, Hshut; cbn; repeat first [done|etrans; [|apply Hput]].
Qed.

Lemma wp_append_state_event t st (Q : outcome EngineError unit -> EngineW -> Prop) s :
  el_root (en_events (ew_engine s)) = events_root (ew_engine s) ->
  (forall s', beside s s' -> en_idempotency (ew_engine s') = en_idempotency (ew_engine s) ->
     Q (Ret tt) s') ->
  (forall s', shut s s' -> Q (Throw ESafeMode) s') ->
  wp (append_state_event t st) Q s.
Proof.
  intros Hroot HQ HT. unfold append_state_event, events_append. wp_simpl.
  apply wp_events_write. intros o w1 Hx1 Hp. rewrite Hroot in Hx1.
  set (e1 := set_events (bump_meta (en_events (ew_engine s))) (ew_engine s)).
  assert (Hb : beside s (mkEngineW e1 w1)) by (by apply (wrote_beside _ _ _ "events")).
  destruct o as [[]|e|]; [| |done]; wp_simpl.
  - by apply HQ.
  - apply wp_engine_safe_mode. intros s' [Hs Hb']. apply HT. split; [done|]. by etrans.
Qed.
End Beside.

(** ** One more record *)

Section Extend.
Context `{JsonNumber} `{!BrokerCodec} `{!BrokerCodecLaws} `{!IoEnv}.

(** The record [persist_transition] writes for a transaction that has one
    already: it carries over what the transaction was proposed with. *)
Definition next_record (n : nat) (snap : TxSnapshot) (tx : TxId) (st : WireState)
    (key fp res : option string) : WalRecord :=
  {| wr_record_version := 1; wr_seq := Z.of_nat n + 1; wr_tx_id := tx; wr_state := st;
     wr_idempotency_key := key; wr_idem_fingerprint := fp; wr_agent_id := sn_agent_id snap;
     wr_manifest_digest := sn_manifest_digest snap; wr_base_revision := sn_base_revision snap;
     wr_effect_set := sn_effect_set snap; wr_diff := sn_diff snap;
     wr_affected_resources := sn_affected_resources snap; wr_approval_ref := None;
     wr_result_json := res |}.

(** What is left when the append itself failed: the transactions are as they
    were, but a number was used up, and the disk is one of the torn ones. *)
Definition failed_append (s : EngineW) (rs : list WalRecord) (r : WalRecord) (s' : EngineW) : Prop :=
  en_txs (ew_engine s') = en_txs (ew_engine s) /\
  en_safe_mode (ew_engine s') = false /\
  en_next_seq (ew_engine s') = Z.of_nat (length rs) + 1 /\
  torn_append (wal_root (ew_engine s)) rs (Z.of_nat (length rs)) r (w_fs (ew_world s')).

(** The log on disk ends with [r], whatever the engine thinks of itself. *)
Record logged (s : EngineW) (rs : list WalRecord) (r : WalRecord) : Prop := {
  lg_wal : en_wal (ew_engine s) = mkStore (wal_root (ew_engine s)) false (Z.of_nat (length rs) + 1);
  lg_disk : wal_disk (wal_root (ew_engine s)) (rs ++ [r]) (Z.of_nat (length rs) + 1) (w_fs (ew_world s));
}.

Lemma wp_persist_transition rs r s (Q : outcome EngineError Z -> EngineW -> Prop) :
  agrees s rs -> wal_record_ok r -> Z.of_nat (length rs) + 1 <= u64_max ->
  wr_record_version r = 1 -> wr_approval_ref r = None -> wr_seq r = Z.of_nat (length rs) + 1 ->
  (forall s', en_events (ew_engine s') = en_events (ew_engine s) ->
     en_idempotency (ew_engine s') = en_idempotency (ew_engine s) ->
     en_state_root (ew_engine s') = en_state_root (ew_engine s) ->
     (lawful (rs ++ [r]) -> agrees s' (rs ++ [r])) ->
     en_txs (ew_engine s') = <[wr_tx_id r := snapshot_of r]> (en_txs (ew_engine s)) ->
     logged s' rs r -> en_safe_mode (ew_engine s') = false -> numbered (rs ++ [r]) ->
     Q (Ret (wr_seq r)) s') ->
  (forall e s', failed_append s rs r s' -> Q (Throw (EStorage e)) s') ->
  wp (persist_transition (wr_tx_id r) (wr_state r) (wr_idempotency_key r) (wr_idem_fingerprint r)
        (wr_agent_id r) (wr_manifest_digest r) (wr_base_revision r) (wr_effect_set r) (wr_diff r)
        (wr_affected_resources r) (wr_result_json r)) Q s.
Proof.
  intros Ha Hok Hmax Hv Hap Hseq HQ HT. unfold persist_transition, on_wal. wp_simpl.
  rewrite (ag_safe _ _ Ha). wp_simpl. rewrite (ag_seq _ _ Ha).
  replace (u64_saturating_add _ 1) with (wr_seq r)
    by (rewrite Hseq; unfold u64_saturating_add; lia).
  set (rec := {| wr_record_version := 1 |}).
  assert (rec = r) as -> by (unfold rec; destruct r; cbn in *; congruence).
  cbn [ew_engine ew_world en_wal set_next_seq].
  eapply wp_mono; [apply (wp_append_transition (wal_root (ew_engine s)) rs (Z.of_nat (length rs)));
    [apply (ag_disk _ _ Ha)|by rewrite (ag_wal _ _ Ha)|by rewrite (ag_wal _ _ Ha)|done|done]|].
  intros [st|e|] w' [Hout Hpost]; [| |done]; wp_simpl.
  - destruct Hpost as [-> Hdisk]. pose proof (numbered_snoc _ _ (ag_numbered _ _ Ha) Hseq) as Hn.
    rewrite Hseq in *. apply HQ; try done; [|apply (ag_safe _ _ Ha)].
    intros Hlaw. assert (Hlen : Z.of_nat (length (rs ++ [r])) = Z.of_nat (length rs) + 1)
      by (rewrite length_app; cbn; lia).
    destruct Ha. split; rewrite ?Hlen; try done; cbn [ew_engine en_txs set_txs set_wal set_next_seq].
    + by rewrite ag_txs0, latest_snapshots_snoc.
    + by apply Forall_app; split; [|constructor].
    + by apply Forall_app; split; [|constructor].
  - apply HT. split_and!; try done. apply (ag_safe _ _ Ha).
Qed.

(** The snapshot of a transaction is its last record. *)
Lemma agrees_snapshot s rs tx snap :
  agrees s rs -> en_txs (ew_engine s) !! tx = Some snap ->
  exists prev, last (chain rs tx) = Some prev /\ snap = snapshot_of prev /\
               wr_tx_id prev = tx /\ wal_record_ok prev /\ wr_approval_ref prev = None.
Proof.
  intros Ha Hs. rewrite (ag_txs _ _ Ha), latest_snapshots_last in Hs by apply Ha.
  destruct (last (chain rs tx)) as [prev|] eqn:Hl; [|done]. injection Hs as <-.
  exists prev. assert (Hin : prev ∈ filter (fun r => wr_tx_id r = tx) rs).
  { rewrite <-chain_filter by apply Ha. by eapply last_Some_elem_of. }
  apply list_elem_of_filter in Hin as [Ht Hin]. split_and!; try done.
  - pose proof (ag_ok _ _ Ha) as Hok. rewrite Forall_forall in Hok. by apply Hok.
  - pose proof (ag_approval _ _ Ha) as Hok. rewrite Forall_forall in Hok. by apply Hok.
Qed.

(** *** Rolling back *)

Lemma agrees_logged s rs r : agrees s (rs ++ [r]) -> logged s rs r.
Proof.
  intros Ha. assert (Hlen : Z.of_nat (length (rs ++ [r])) = Z.of_nat (length rs) + 1)
    by (rewrite length_app; cbn; lia).
  destruct Ha. rewrite Hlen in *. by split.
Qed.

Lemma logged_beside s s' rs r : logged s rs r -> beside s s' -> logged s' rs r.
Proof.
  intros [] []. split; unfold wal_root in *; rewrite ?bs_wal0, ?bs_root0; [done|].
  by eapply wal_disk_frame.
Qed.

Lemma logged_shut s s' rs r : logged s rs r -> shut s s' -> logged s' rs r.
Proof. intros Hl [_ Hb]. pose proof (logged_beside _ _ _ _ Hl Hb) as []. by split. Qed.

(** A disk from which a restart reads the old log, the new one, or neither. *)
Definition recoverable (root : Path) (rs : list WalRecord) (r : WalRecord) (fs : FS) : Prop :=
  residue root fs \/
  exists rs' cp, (rs' = rs \/ rs' = rs ++ [r]) /\ wal_disk root rs' cp fs.

Lemma torn_recoverable root rs cp r fs : torn_append root rs cp r fs -> recoverable root rs r fs.
Proof.
  intros [Hd|[Hd|[Hd|Hd]]]; [right|by left|right|right]; eexists _, _; (split; [|exact Hd]); tauto.
Qed.
Lemma taken_back_recoverable root rs cp r fs : taken_back root rs cp r fs -> recoverable root rs r fs.
Proof. intros (rs' & cp' & Hr & _ & Hd). right. by exists rs', cp'. Qed.
Lemma logged_recoverable s rs r : logged s rs r -> recoverable (wal_root (ew_engine s)) rs r (w_fs (ew_world s)).
Proof. intros []. right. eexists _, _. split; [by right|done]. Qed.

(** The files of the log, seen from two states. *)
Lemma recoverable_frame root rs r fs fs' :
  recoverable root rs r fs -> fs_dirs fs' = fs_dirs fs ->
  (forall p, on_branch root p -> fs_files fs' !! p = fs_files fs !! p) ->
  recoverable root rs r fs'.
Proof.
  intros [[Hdir (x & Hx & Hf)]|(rs' & cp & Hr & Hd)] Hdirs Hsame.
  - left. split.
    + intros q Hq. destruct (Hdir q Hq) as [Hin Hno]. rewrite Hdirs. split; [done|].
      rewrite Hsame; [done|].
      destruct (prefix_weak_total q root (records_dir root)) as [Hc|Hc];
        [done|by apply prefix_app_r|by right|by left].
    + exists x. split; [done|]. rewrite Hsame; [done|]. left. apply prefix_root_record.
  - right. exists rs', cp. split; [done|]. by eapply wal_disk_frame.
Qed.

Lemma wp_rollback rs r s tx (Q : outcome EngineError unit -> EngineW -> Prop) :
  logged s rs r ->
  (forall s', en_safe_mode (ew_engine s') = true ->
     en_txs (ew_engine s') = delete tx (en_txs (ew_engine s)) ->
     en_state_root (ew_engine s') = en_state_root (ew_engine s) ->
     is_root (en_idempotency (ew_engine s')) = is_root (en_idempotency (ew_engine s)) ->
     recoverable (wal_root (ew_engine s)) rs r (w_fs (ew_world s')) -> Q (Ret tt) s') ->
  (forall e s', en_safe_mode (ew_engine s') = en_safe_mode (ew_engine s) ->
     en_txs (ew_engine s') = en_txs (ew_engine s) ->
     recoverable (wal_root (ew_engine s)) rs r (w_fs (ew_world s')) -> Q (Throw (EStorage e)) s') ->
  wp (rollback_transition tx (Z.of_nat (length rs) + 1)) Q s.
Proof.
  intros [Hwal Hdisk] HQ HT. unfold rollback_transition, on_wal. wp_simpl.
  apply (wp_revert_last (wal_root (ew_engine s)) rs (Z.of_nat (length rs) + 1) r);
    [done|by rewrite Hwal|by rewrite Hwal|done|].
  intros o w' _ Ht Hs'. apply taken_back_recoverable in Ht.
  destruct o as [st|e|]; wp_simpl; [|by apply HT|done].
  apply wp_engine_safe_mode. intros s' [Hs Hb].
  apply HQ; [done|apply (bs_txs _ _ Hb)|apply (bs_root _ _ Hb)|apply (bs_idem _ _ Hb)|].
  eapply recoverable_frame; [exact Ht|apply (bs_dirs _ _ Hb)|apply (bs_files _ _ Hb)].
Qed.
End Extend.
