(* ===== verification/TxOpFacts.v ===== *)
(** * Broker: what the operations of the engine do

    Each operation, from a state that agrees with a log [rs]: either it
    refuses and nothing changed; or it answers, and the log has one more lawful
    record; or a call of the environment failed, and a restart finds the old
    log, the new one, or a log it refuses. *)

From S2P Require Import Prelude RustStd Json TxTypes TxState TxStorage TxNames TxWalFacts.
From S2P Require Import TxEngine TxChain TxEngineFacts.

Section Ops.
Context `{JsonNumber} `{!BrokerCodec} `{!BrokerCodecLaws} `{!IoEnv} `{!HostAdapter}.

(** ** The record that comes next *)

Lemma same_transaction_next n prev tx st key fp res :
  wr_approval_ref prev = None ->
  same_transaction prev (next_record n (snapshot_of prev) tx st key fp res) = true.
Proof. intros Hap. unfold same_transaction. cbn. by rewrite Hap, !bool_decide_eq_true_2. Qed.

Lemma next_record_ok s rs tx snap st key fp res :
  agrees s rs -> en_txs (ew_engine s) !! tx = Some snap -> Z.of_nat (length rs) + 1 <= u64_max ->
  wal_record_ok (next_record (length rs) snap tx st key fp res).
Proof.
  intros Ha Hs Hmax. destruct (agrees_snapshot _ _ _ _ Ha Hs) as (prev & _ & -> & _ & Hok & _).
  destruct Hok as (_ & _ & Hd1 & Hd2). unfold wal_record_ok, is_u32, is_u64, u32_max. cbn.
  split_and!; try done; lia.
Qed.

Lemma next_record_lawful s rs tx snap st key fp res :
  agrees s rs -> en_txs (ew_engine s) !! tx = Some snap ->
  numbered (rs ++ [next_record (length rs) snap tx st key fp res]) ->
  lawful (rs ++ [next_record (length rs) snap tx st key fp res]) <->
  broker_may_enter (from_wire (sn_state snap)) (from_wire st) = true.
Proof.
  intros Ha Hs Hn. destruct (agrees_snapshot _ _ _ _ Ha Hs) as (prev & Hl & -> & _ & _ & Hap).
  rewrite lawful_snoc by done. cbn [next_record wr_tx_id]. rewrite Hl. unfold lawful_step.
  rewrite same_transaction_next by done. cbn. split; [by intros (_ & _ & _ & _ & Hm)|].
  intros Hm. split_and!; [apply (ag_lawful _ _ Ha)|done| |done|done].
  apply broker_may_enter_owned in Hm as [_ Hw]. by rewrite to_from_wire in Hw.
Qed.

(** What is left when a call of the environment failed on the way: the other
    transactions are as they were, and the disk recovers. *)
Definition undone (s : EngineW) (rs : list WalRecord) (r : WalRecord) (s' : EngineW) : Prop :=
  (forall t, t <> wr_tx_id r -> en_txs (ew_engine s') !! t = en_txs (ew_engine s) !! t) /\
  recoverable (wal_root (ew_engine s)) rs r (w_fs (ew_world s')).

Lemma failed_append_undone s rs r s' : failed_append s rs r s' -> undone s rs r s'.
Proof.
  intros (Htx & _ & _ & Ht). split; [by intros t _; rewrite Htx|]. by eapply torn_recoverable.
Qed.

(** ** [transition] *)

(** Why a transition is refused, if it is. *)
Definition refusal (txs : gmap TxId TxSnapshot) (agent_id : string) (digest : Digest)
    (tx_id : TxId) (target : TransactionState) : option EngineError :=
  match txs !! tx_id with
  | None => Some ENotFound
  | Some snap =>
      if bool_decide (sn_agent_id snap = agent_id /\ sn_manifest_digest snap = digest) then
        if broker_may_enter (from_wire (sn_state snap)) target then None
        else Some EInvalidTransition
      else Some EOwnershipMismatch
  end.

Lemma ensure_owner_spec snap agent_id digest :
  ensure_owner snap agent_id digest =
  if bool_decide (sn_agent_id snap = agent_id /\ sn_manifest_digest snap = digest)
  then Ok tt else Err EOwnershipMismatch.
Proof.
  unfold ensure_owner, fail_if. repeat case_bool_decide; cbn; try done; tauto.
Qed.

Lemma wp_transition_refused s agent digest tx target key fp idem e
    (Q : outcome EngineError TxStepResult -> EngineW -> Prop) :
  refusal (en_txs (ew_engine s)) agent digest tx target = Some e -> Q (Throw e) s ->
  wp (transition agent digest tx target key fp idem) Q s.
Proof.
  intros Href HQ. unfold transition, snapshot, refusal in *. wp_simpl.
  destruct (en_txs (ew_engine s) !! tx) as [snap|]; cbn [ok_or]; [|injection Href as <-; by wp_simpl].
  wp_simpl. rewrite ensure_owner_spec. case_bool_decide; [|injection Href as <-; by wp_simpl].
  wp_simpl. destruct (broker_may_enter _ _); [done|]. injection Href as <-. by wp_simpl.
Qed.

(** The state events are written once the record is. *)
Definition step_of (tx : TxId) (target : TransactionState) : TxStepResult :=
  mkStep tx (to_wire target).

Definition step_record (n : nat) (snap : TxSnapshot) (tx : TxId) (target : TransactionState)
    (key fp : option string) (json : string) : WalRecord :=
  next_record n snap tx (to_wire target) key fp (Some json).

(** The binding a transition leaves: that of its key, if it has one. *)
Definition bind (idem : option (string * string)) (tx : TxId) (json : string)
    (m : gmap string IdempotencyRecord) : gmap string IdempotencyRecord :=
  match idem with Some (k, f) => <[k := mkIdem k tx f json]> m | None => m end.

(** Announcing a transition that is logged and bound. *)
Lemma undone_beside s rs r s1 s2 :
  undone s rs r s1 -> beside s1 s2 -> wal_root (ew_engine s1) = wal_root (ew_engine s) -> undone s rs r s2.
Proof.
  intros [Ht Hd] Hb Hroot. split; [intros t Hne; rewrite (bs_txs _ _ Hb); by apply Ht|].
  eapply recoverable_frame; [exact Hd|apply (bs_dirs _ _ Hb)|]. rewrite <-Hroot. apply (bs_files _ _ Hb).
Qed.

(** The transactions after a record was put in, and perhaps taken out again. *)
Lemma others_kept {A} (m m0 m1 : gmap TxId A) t x :
  m = <[t := x]> m0 -> m1 = delete t m \/ m1 = m -> forall u, u <> t -> m1 !! u = m0 !! u.
Proof. intros -> [->| ->] u Hu; by rewrite ?lookup_delete_ne, lookup_insert_ne. Qed.

Lemma wp_announce {A} rs r s (idem : option (string * string)) tx (st : WireState) (res : A)
    (Q : outcome EngineError A -> EngineW -> Prop) s0 :
  agrees s (rs ++ [r]) -> wr_tx_id r = tx -> wal_root (ew_engine s) = wal_root (ew_engine s0) ->
  en_txs (ew_engine s) = <[tx := snapshot_of r]> (en_txs (ew_engine s0)) ->
  (forall s', beside s s' -> en_idempotency (ew_engine s') = en_idempotency (ew_engine s) -> Q (Ret res) s') ->
  (forall e s', undone s0 rs r s' -> en_safe_mode (ew_engine s') = true -> Q (Throw e) s') ->
  wp (announced ← attempt (append_state_event tx st);
      match announced with
      | Err err =>
          rollback_transition tx (Z.of_nat (length rs) + 1);;
          match idem with
          | Some (key, _) => forget_idempotency key
          | None => mret tt
          end;;
          throw err
      | Ok _ => mret res
      end) Q s.
Proof.
  intros Ha <- Hroot Htxs HQ HT. pose proof (agrees_logged _ _ _ Ha) as Hl.
  wp_simpl. apply wp_append_state_event; [apply (ag_events _ _ Ha)| |].
  { intros s' Hb Hi. wp_simpl. by apply HQ. }
  intros s1 [Hsafe1 Hb1]. wp_simpl. pose proof (bs_txs _ _ Hb1) as Htx1. cbn in Htx1.
  assert (Hroot1 : wal_root (ew_engine s1) = wal_root (ew_engine s0))
    by (rewrite <-Hroot; unfold wal_root; f_equal; apply (bs_root _ _ Hb1)).
  apply (wp_rollback rs r); [by eapply logged_shut|..]; rewrite Hroot1.
  - intros s2 Hs2 Htx2 Hr2 Hi2 Hd2. wp_simpl.
    assert (Hu : undone s0 rs r s2).
    { split; [|done]. eapply others_kept; [exact Htxs|left]. by rewrite Htx2, Htx1. }
    destruct idem as [[key fp]|]; wp_simpl; [|by apply HT].
    apply wp_forget_idempotency.
    + rewrite Hi2. unfold idem_root. rewrite Hr2. rewrite (bs_idem _ _ Hb1 : is_root (en_idempotency (ew_engine s1)) = _).
      rewrite (ag_idem _ _ Ha). unfold idem_root. f_equal. symmetry. apply (bs_root _ _ Hb1).
    + intros s3 Hb3. wp_simpl. apply HT; [|by rewrite (bs_safe _ _ Hb3)].
      eapply undone_beside; [exact Hu|exact Hb3|]. unfold wal_root. rewrite Hr2. apply Hroot1.
  - intros e s2 Hs2 Htx2 Hd2. apply HT; [|by rewrite Hs2].
    split; [|done]. eapply others_kept; [exact Htxs|right]. by rewrite Htx2, Htx1.
Qed.

Lemma wp_transition rs s agent digest tx target key fp idem snap json
    (Q : outcome EngineError TxStepResult -> EngineW -> Prop) :
  agrees s rs -> Z.of_nat (length rs) + 1 <= u64_max ->
  en_txs (ew_engine s) !! tx = Some snap ->
  refusal (en_txs (ew_engine s)) agent digest tx target = None ->
  step_to_string (step_of tx target) = Some json ->
  (forall s', agrees s' (rs ++ [step_record (length rs) snap tx target key fp json]) ->
     is_entries (en_idempotency (ew_engine s')) =
       bind idem tx json (is_entries (en_idempotency (ew_engine s))) ->
     en_state_root (ew_engine s') = en_state_root (ew_engine s) -> Q (Ret (step_of tx target)) s') ->
  (forall e s', undone s rs (step_record (length rs) snap tx target key fp json) s' ->
     en_safe_mode (ew_engine s') = true \/ (exists d, e = EStorage d) -> Q (Throw e) s') ->
  wp (transition agent digest tx target key fp idem) Q s.
Proof.
  intros Ha Hmax Hsnap Href Hjson HQ HT. unfold refusal in Href. rewrite Hsnap in Href.
  case_bool_decide as Howner; [|done].
  destruct (broker_may_enter (from_wire (sn_state snap)) target) eqn:Hmay; [|done].
  unfold transition, snapshot. wp_simpl. rewrite Hsnap. cbn [ok_or]. wp_simpl.
  rewrite ensure_owner_spec, bool_decide_eq_true_2 by done. wp_simpl.
  rewrite Hmay. cbn [negb]. wp_simpl. fold (step_of tx target). rewrite Hjson. cbn [ok_or]. wp_simpl.
  set (r := step_record (length rs) snap tx target key fp json) in *.
  apply (wp_persist_transition rs r s _ Ha); [by eapply next_record_ok|done|done|done|done|..].
  2: { intros e s1 Hf. apply (HT (EStorage e) s1); [by apply failed_append_undone|right; by exists e]. }
  intros s1 Hev1 Hid1 Hroot1 Hag Htxs1 _ _ Hn. assert (Ha1 : agrees s1 (rs ++ [r])).
  { apply Hag. eapply next_record_lawful; [exact Ha|exact Hsnap|exact Hn|by rewrite from_to_wire]. }
  assert (Hwroot : wal_root (ew_engine s1) = wal_root (ew_engine s)) by (unfold wal_root; by rewrite Hroot1).
  assert (Hannounce : forall s2, beside s1 s2 ->
    is_entries (en_idempotency (ew_engine s2)) = bind idem tx json (is_entries (en_idempotency (ew_engine s))) ->
    wp (announced ← attempt (append_state_event tx (to_wire target));
        match announced with
        | Err err =>
            rollback_transition tx (wr_seq r);;
            match idem with Some (key, _) => forget_idempotency key | None => mret tt end;;
            throw err
        | Ok _ => mret (step_of tx target)
        end) Q s2).
  { intros s2 Hb2 Hent2. apply (wp_announce rs r _ idem tx _ _ _ s); [by eapply agrees_beside|done|..].
    - rewrite <-Hwroot. unfold wal_root. by rewrite (bs_root _ _ Hb2).
    - by rewrite (bs_txs _ _ Hb2).
    - intros s3 Hb3 Hi3. apply HQ; [by eapply agrees_beside; [|exact Hb3]; eapply agrees_beside| |].
      + by rewrite Hi3.
      + by rewrite (bs_root _ _ Hb3), (bs_root _ _ Hb2).
    - intros e s3 Hu Hs3. apply HT; [done|by left]. }
  wp_simpl. destruct idem as [[k f]|]; wp_simpl.
  2: { pose proof (Hannounce s1 (reflexivity _)) as Hx1. autorewrite with wp in Hx1. cbn beta iota in Hx1.
       apply Hx1. by rewrite Hid1. }
  apply wp_record_idempotency; [apply (ag_idem _ _ Ha1)|..].
  - intros s2 Hb2 Hent2 _. wp_simpl. pose proof (Hannounce s2 Hb2) as Hx1. autorewrite with wp in Hx1.
    cbn beta iota in Hx1. apply Hx1. by rewrite Hent2, Hid1.
  - intros e s2 Hb2. wp_simpl. change (wr_seq r) with (Z.of_nat (length rs) + 1).
    assert (Hwroot2 : wal_root (ew_engine s2) = wal_root (ew_engine s))
      by (rewrite <-Hwroot; unfold wal_root; by rewrite (bs_root _ _ Hb2)).
    apply (wp_rollback rs r); [eapply logged_beside; [by apply agrees_logged|done]|..]; rewrite Hwroot2.
    + intros s3 Hs3 Htx3 _ _ Hd3. wp_simpl. apply HT; [|by left]. split; [|done].
      eapply others_kept; [exact Htxs1|left]. by rewrite Htx3, (bs_txs _ _ Hb2).
    + intros e' s3 Hs3 Htx3 Hd3. apply HT; [|right; by eexists]. split; [|done].
      eapply others_kept; [exact Htxs1|right]. by rewrite Htx3, (bs_txs _ _ Hb2).
Qed.

(** ** The keys *)

(** A key that is bound: the answer of the first call, or a conflict. *)
Definition bound_answer {A} (fingerprint : string) (replay : IdempotencyRecord -> result EngineError A)
    (entry : IdempotencyRecord) : outcome EngineError A :=
  if decide (id_fingerprint entry = fingerprint)
  then match replay entry with Ok a => Ret a | Err e => Throw e end
  else Throw EIdempotencyConflict.

Lemma wp_check_bound {A} s key fp (replay : IdempotencyRecord -> result EngineError A) fresh entry
    (Q : outcome EngineError A -> EngineW -> Prop) :
  idem_get (en_idempotency (ew_engine s)) key = Some entry ->
  Q (bound_answer fp replay entry) s -> wp (check_binding key fp replay fresh) Q s.
Proof.
  intros Hb HQ. unfold check_binding, bound_answer in *. wp_simpl. rewrite Hb.
  case_decide as Hfp; wp_simpl.
  - rewrite bool_decide_eq_false_2 by tauto. wp_simpl. by destruct (replay entry).
  - by rewrite bool_decide_eq_true_2.
Qed.

Lemma wp_check_fresh {A} s key fp (replay : IdempotencyRecord -> result EngineError A) fresh
    (Q : outcome EngineError A -> EngineW -> Prop) :
  idem_get (en_idempotency (ew_engine s)) key = None -> wp fresh Q s ->
  wp (check_binding key fp replay fresh) Q s.
Proof. intros Hb HQ. unfold check_binding. wp_simpl. by rewrite Hb. Qed.

(** No record of the log carries the key. *)
Definition unlogged (key op : string) (states : list WireState) (rs : list WalRecord) : Prop :=
  Forall (fun r => wr_state r ∈ states ->
    forall k, wr_idempotency_key r = Some k -> idem_key (wr_agent_id r) op k <> key) rs.

Lemma lookup_unlogged key fp op states rs :
  unlogged key op states rs -> lookup_records key fp op states (rev rs) = LkNotFound.
Proof.
  intros Hu. unfold unlogged in Hu. rewrite <-(rev_involutive rs) in Hu.
  induction (rev rs) as [|r l IH]; [done|]. cbn [rev] in Hu. apply Forall_app in Hu as [Hu Hr].
  specialize (IH Hu). rewrite Forall_singleton in Hr. cbn [lookup_records].
  case_bool_decide as Hs; cbn [negb]; [|done].
  destruct (wr_idempotency_key r) as [k|] eqn:Hk; [|done].
  rewrite bool_decide_eq_true_2; [done|]. by apply Hr.
Qed.

Lemma wp_lookup_unlogged s rs key fp op states (Q : outcome EngineError WalIdempotencyLookup -> EngineW -> Prop) :
  agrees s rs -> unlogged key op states rs ->
  (forall s', beside s s' -> ew_engine s' = ew_engine s -> Q (Ret LkNotFound) s') ->
  wp (lookup_idempotency_from_wal key fp op states) Q s.
Proof.
  intros Ha Hu HQ. unfold lookup_idempotency_from_wal. wp_simpl.
  eapply wp_load_any; [apply (ag_disk _ _ Ha)|by rewrite (ag_wal _ _ Ha)|by rewrite (ag_wal _ _ Ha)|].
  assert (Hb : forall w', w_fs w' = w_fs (ew_world s) -> beside s (mkEngineW (ew_engine s) w')).
  { intros w' Hw. apply (wrote_beside _ _ _ "events"); try done. by rewrite Hw. }
  intros o w' Hw [->|[e ->]]; wp_simpl; [rewrite lookup_unlogged by done|]; by apply HQ; [apply Hb|].
Qed.

(** Asking the host. *)
Lemma beside_world s n (cs : list TxCall) : beside s (mkEngineW (ew_engine s) (mkWorld (w_fs (ew_world s)) n cs)).
Proof. by apply (wrote_beside _ _ _ "events"). Qed.

Lemma wp_observe_base s (Q : outcome EngineError BaseRevision -> EngineW -> Prop) :
  (forall s', beside s s' -> ew_engine s' = ew_engine s ->
     Q (Ret (current_base_revision (w_tick (ew_world s)))) s') ->
  wp observe_base Q s.
Proof. intros HQ. unfold observe_base. wp_simpl. unfold wp. by apply HQ; [apply beside_world|]. Qed.

(** ** [tx_apply] of a key that was never used *)

Lemma wp_ensure_dm s rs (Q : outcome EngineError unit -> EngineW -> Prop) :
  agrees s rs -> Q (Ret tt) s -> wp ensure_dm_allowed Q s.
Proof. intros Ha HQ. unfold ensure_dm_allowed. wp_simpl. by rewrite (ag_safe _ _ Ha). Qed.

(** The key of a call is neither bound nor in the log. *)
Definition new_key (s : EngineW) (rs : list WalRecord) (agent op key : string)
    (states : list WireState) : Prop :=
  idem_get (en_idempotency (ew_engine s)) (idem_key agent op key) = None /\
  unlogged (idem_key agent op key) op states rs.

Definition apply_key (agent : string) (params : TxApplyParams) : string :=
  idem_key agent "tx.apply" (ap_idempotency_key params).
Definition apply_states : list WireState := [WApplying; WRejected].

Definition applying_record (n : nat) (snap : TxSnapshot) (params : TxApplyParams) (json : string) :=
  step_record n snap (ap_tx_id params) TApplying (Some (ap_idempotency_key params))
    (Some (apply_fingerprint params)) json.

(** [tx_apply], past its guards, with the base where it was. *)
Lemma wp_apply_prelude rs s agent md params snap (Q : outcome EngineError TxStepResult -> EngineW -> Prop) :
  agrees s rs -> new_key s rs agent "tx.apply" (ap_idempotency_key params) apply_states ->
  en_txs (ew_engine s) !! ap_tx_id params = Some snap ->
  ensure_owner snap agent (parse_manifest_digest md) = Ok tt ->
  (forall s' n, beside s s' -> ew_engine s' = ew_engine s ->
     wp (if bool_decide (sn_base_revision snap <> current_base_revision n) then
           result_json ← of_result (result_json_for_refusal params);
           refuse_moved_base_apply snap (apply_key agent params) (apply_fingerprint params) params result_json
         else
           transition agent (parse_manifest_digest md) (ap_tx_id params) TApplying
             (Some (ap_idempotency_key params)) (Some (apply_fingerprint params))
             (Some (apply_key agent params, apply_fingerprint params))) Q s') ->
  wp (tx_apply agent md params) Q s.
Proof.
  intros Ha [Hkey Hlog] Hsnap Howner HQ. unfold tx_apply. rewrite wp_bind. eapply wp_ensure_dm; [exact Ha|].
  apply wp_check_fresh; [exact Hkey|]. rewrite wp_bind.
  eapply wp_lookup_unlogged; [exact Ha|exact Hlog|]. intros s1 Hb1 He1. cbn beta iota.
  unfold snapshot. rewrite wp_bind, wp_bind, wp_get_engine, wp_ret, He1, Hsnap. cbn [ok_or].
  rewrite wp_bind, wp_of_result, wp_bind, wp_of_result, Howner. rewrite wp_bind.
  apply wp_observe_base. intros s2 Hb2 He2. apply HQ; [by etrans|congruence].
Qed.

Lemma wp_tx_apply rs s agent md params snap json (Q : outcome EngineError TxStepResult -> EngineW -> Prop) :
  agrees s rs -> Z.of_nat (length rs) + 1 <= u64_max ->
  new_key s rs agent "tx.apply" (ap_idempotency_key params) apply_states ->
  en_txs (ew_engine s) !! ap_tx_id params = Some snap ->
  refusal (en_txs (ew_engine s)) agent (parse_manifest_digest md) (ap_tx_id params) TApplying = None ->
  (forall n, current_base_revision n = sn_base_revision snap) ->
  step_to_string (step_of (ap_tx_id params) TApplying) = Some json ->
  (forall s', agrees s' (rs ++ [applying_record (length rs) snap params json]) ->
     is_entries (en_idempotency (ew_engine s')) =
       <[apply_key agent params := mkIdem (apply_key agent params) (ap_tx_id params) (apply_fingerprint params) json]>
         (is_entries (en_idempotency (ew_engine s))) ->
     Q (Ret (step_of (ap_tx_id params) TApplying)) s') ->
  (forall e s', undone s rs (applying_record (length rs) snap params json) s' ->
     en_safe_mode (ew_engine s') = true \/ (exists d, e = EStorage d) -> Q (Throw e) s') ->
  wp (tx_apply agent md params) Q s.
Proof.
  intros Ha Hmax Hkey Hsnap Href Hbase Hjson HQ HT.
  assert (Howner : ensure_owner snap agent (parse_manifest_digest md) = Ok tt).
  { rewrite ensure_owner_spec. unfold refusal in Href. rewrite Hsnap in Href. by case_bool_decide. }
  eapply wp_apply_prelude; [exact Ha|exact Hkey|exact Hsnap|exact Howner|].
  intros s1 n Hb1 He1. rewrite Hbase, bool_decide_eq_false_2 by tauto.
  apply (wp_transition rs s1 _ _ _ _ _ _ _ snap json); rewrite ?He1; try done.
  - by eapply agrees_beside.
  - intros s2 Ha2 Hent2 _. apply HQ; [done|]. by rewrite Hent2.
  - intros e s2 [Hu1 Hu2] Hs2. apply HT; [|done]. rewrite He1 in *. by split.
Qed.

(** *** When the base moved *)

Definition rejecting_record (n : nat) (snap : TxSnapshot) (params : TxApplyParams) (json : string) :=
  next_record n snap (ap_tx_id params) WRejected (Some (ap_idempotency_key params))
    (Some (apply_fingerprint params)) (Some json).

(** The refusal is logged, whatever state the transaction is in; the log
    stays lawful only when the broker may reject from there. *)
Lemma wp_refuse_moved_base rs s agent params snap json (Q : outcome EngineError TxStepResult -> EngineW -> Prop) :
  agrees s rs -> Z.of_nat (length rs) + 1 <= u64_max ->
  en_txs (ew_engine s) !! ap_tx_id params = Some snap ->
  (forall s', wal_disk (wal_root (ew_engine s)) (rs ++ [rejecting_record (length rs) snap params json])
       (Z.of_nat (length rs) + 1) (w_fs (ew_world s')) ->
     numbered (rs ++ [rejecting_record (length rs) snap params json]) ->
     (lawful (rs ++ [rejecting_record (length rs) snap params json]) <->
      broker_may_enter (from_wire (sn_state snap)) TRejected = true) ->
     (lawful (rs ++ [rejecting_record (length rs) snap params json]) ->
      agrees s' (rs ++ [rejecting_record (length rs) snap params json])) ->
     Q (Throw EBaseRevisionMoved) s') ->
  (forall e s', e <> EBaseRevisionMoved -> Q (Throw e) s') ->
  wp (refuse_moved_base_apply snap (apply_key agent params) (apply_fingerprint params) params json) Q s.
Proof.
  intros Ha Hmax Hsnap HQ HT. unfold refuse_moved_base_apply. rewrite wp_bind.
  set (r := rejecting_record (length rs) snap params json) in *.
  apply (wp_persist_transition rs r s _ Ha); [by eapply next_record_ok|done|done|done|done|..].
  2: { intros e s1 _. by apply HT. }
  intros s1 Hev1 Hid1 Hroot1 Hag Htxs1 Hl1 _ Hn.
  assert (Hroots : el_root (en_events (ew_engine s1)) = events_root (ew_engine s1) /\
                   is_root (en_idempotency (ew_engine s1)) = idem_root (ew_engine s1)).
  { rewrite Hev1, Hid1. unfold events_root, idem_root. rewrite Hroot1.
    split; [apply (ag_events _ _ Ha)|apply (ag_idem _ _ Ha)]. }
  wp_simpl. apply wp_append_state_event; [apply Hroots|..].
  - intros s2 Hb2 Hi2. wp_simpl. assert (Hb12 : is_root (en_idempotency (ew_engine s2)) = idem_root (ew_engine s2)).
    { rewrite Hi2. unfold idem_root. rewrite (bs_root _ _ Hb2). apply Hroots. }
    apply wp_record_idempotency; [done| |intros e s3 _; by apply HT].
    intros s3 Hb3 _ _. wp_simpl. assert (Hb : beside s1 s3) by (by etrans).
    assert (Hwroot : wal_root (ew_engine s1) = wal_root (ew_engine s)) by (unfold wal_root; by rewrite Hroot1).
    apply HQ; [|done|by eapply (next_record_lawful s)|].
    + rewrite <-Hwroot. eapply wal_disk_frame; [apply (lg_disk _ _ _ Hl1)|apply (bs_dirs _ _ Hb)|].
      apply (bs_files _ _ Hb).
    + intros Hlaw. eapply agrees_beside; [by apply Hag|done].
  - intros s2 Hshut. unfold on_wal. wp_simpl.
    pose proof (logged_shut _ _ _ _ Hl1 Hshut) as [Hw2 Hd2].
    apply (wp_revert_last (wal_root (ew_engine s2)) rs (Z.of_nat (length rs) + 1) r);
      [done|by rewrite Hw2|by rewrite Hw2|done|].
    intros o w' _ _ Ho. by destruct o as [st|e|]; wp_simpl; [apply HT..|].
Qed.

(** ** [config_propose] of a key that was never used *)

Lemma parse_manifest_digest_length md : length (dg_bytes (parse_manifest_digest md)) = 32%nat.
Proof.
  unfold parse_manifest_digest. destruct (payload_value_from_str _) as [[]|]; try done.
  destruct (digest_deserialize _) eqn:Hd; [|done]. by apply digest_parsed_length in Hd as [? _].
Qed.

Definition propose_key (agent : string) (params : ConfigProposeParams) : string :=
  idem_key agent "config.propose" (cp_idempotency_key params).

(** The record a proposal is logged as. *)
Definition proposed_record (n : nat) (tx agent md : string) (params : ConfigProposeParams)
    (base : BaseRevision) (staged : AdapterProposeOutcome) (json : string) : WalRecord :=
  {| wr_record_version := 1; wr_seq := Z.of_nat n + 1; wr_tx_id := tx; wr_state := WProposed;
     wr_idempotency_key := Some (cp_idempotency_key params);
     wr_idem_fingerprint := Some (propose_fingerprint params); wr_agent_id := agent;
     wr_manifest_digest := parse_manifest_digest md; wr_base_revision := base;
     wr_effect_set := [EffD]; wr_diff := ao_diff staged;
     wr_affected_resources := ao_affected_resources staged; wr_approval_ref := None;
     wr_result_json := Some json |}.

Definition proposal (tx : TxId) (base : BaseRevision) (staged : AdapterProposeOutcome) : ConfigProposeResult :=
  mkProposeResult tx (ao_diff staged) (ao_test_plan staged) (ao_affected_resources staged) base.

Definition proposal_outcome (tx : TxId) (base : BaseRevision) (staged : AdapterProposeOutcome) :=
  {| po_tx_id := tx; po_diff := ao_diff staged; po_test_plan := ao_test_plan staged;
     po_affected_resources := ao_affected_resources staged; po_base_revision := base;
     po_state := WProposed |}.

Lemma proposed_record_lawful s rs tx agent md params base staged json :
  agrees s rs -> en_txs (ew_engine s) !! tx = None ->
  numbered (rs ++ [proposed_record (length rs) tx agent md params base staged json]) ->
  lawful (rs ++ [proposed_record (length rs) tx agent md params base staged json]).
Proof.
  intros Ha Hfresh Hn. apply lawful_snoc; [done|]. cbn [proposed_record wr_tx_id].
  rewrite (ag_txs _ _ Ha), latest_snapshots_last in Hfresh by apply Ha.
  destruct (last (chain rs tx)); [done|]. by split_and!; [apply (ag_lawful _ _ Ha)|..].
Qed.

(** From the record to the answer. *)
Lemma wp_propose_write rs s agent md params tx base staged json
    (Q : outcome EngineError ConfigProposeOutcome -> EngineW -> Prop) :
  agrees s rs -> Z.of_nat (length rs) + 1 <= u64_max -> en_txs (ew_engine s) !! tx = None ->
  length (dg_bytes (br_config_digest base)) = 32%nat ->
  (forall s', agrees s' (rs ++ [proposed_record (length rs) tx agent md params base staged json]) ->
     idem_get (en_idempotency (ew_engine s')) (propose_key agent params) =
       Some (mkIdem (propose_key agent params) tx (propose_fingerprint params) json) ->
     Q (Ret (proposal_outcome tx base staged)) s') ->
  (forall e s', undone s rs (proposed_record (length rs) tx agent md params base staged json) s' ->
     en_safe_mode (ew_engine s') = true \/ (exists d, e = EStorage d) -> Q (Throw e) s') ->
  wp (seq ← persist_transition tx WProposed (Some (cp_idempotency_key params))
            (Some (propose_fingerprint params)) agent (parse_manifest_digest md) base [EffD]
            (ao_diff staged) (ao_affected_resources staged) (Some json);
      record_idempotency (mkIdem (propose_key agent params) tx (propose_fingerprint params) json);;
      announced ← attempt (append_state_event tx WProposed);
      match announced with
      | Err err =>
          rollback_transition tx seq;;
          forget_idempotency (propose_key agent params);;
          throw err
      | Ok _ => mret (proposal_outcome tx base staged)
      end) Q s.
Proof.
  intros Ha Hmax Hfresh Hbase HQ HT. rewrite wp_bind.
  set (r := proposed_record (length rs) tx agent md params base staged json) in *.
  apply (wp_persist_transition rs r s _ Ha); [|done|done|done|done|..].
  { unfold wal_record_ok, is_u32, is_u64, u32_max. cbn. split_and!; try done; try lia.
    apply parse_manifest_digest_length. }
  2: { intros e s1 Hf. apply HT; [by apply failed_append_undone|right; by exists e]. }
  intros s1 Hev1 Hid1 Hroot1 Hag Htxs1 Hl1 _ Hn.
  assert (Ha1 : agrees s1 (rs ++ [r])) by (by apply Hag; eapply proposed_record_lawful).
  assert (Hwroot : wal_root (ew_engine s1) = wal_root (ew_engine s)) by (unfold wal_root; by rewrite Hroot1).
  rewrite wp_bind. apply wp_record_idempotency; [apply (ag_idem _ _ Ha1)|..].
  - intros s2 Hb2 Hent2 _. change (wr_seq r) with (Z.of_nat (length rs) + 1).
    apply (wp_announce rs r s2 (Some (propose_key agent params, "")) tx WProposed _ _ s);
      [by eapply agrees_beside|done|..].
    + rewrite <-Hwroot. unfold wal_root. by rewrite (bs_root _ _ Hb2).
    + by rewrite (bs_txs _ _ Hb2).
    + intros s3 Hb3 Hi3. apply HQ; [by eapply agrees_beside; [|exact Hb3]; eapply agrees_beside|].
      unfold idem_get. by rewrite Hi3, Hent2, lookup_insert_eq.
    + intros e s3 Hu Hs3. apply HT; [done|by left].
  - intros e s2 Hb2. apply HT; [|right; by exists e].
    pose proof (logged_beside _ _ _ _ Hl1 Hb2) as Hl2. split.
    + eapply others_kept; [exact Htxs1|right]. apply (bs_txs _ _ Hb2).
    + rewrite <-Hwroot. replace (wal_root (ew_engine s1)) with (wal_root (ew_engine s2))
        by (unfold wal_root; by rewrite (bs_root _ _ Hb2)). by apply logged_recoverable.
Qed.

Lemma wp_config_propose rs s agent md params
    (Q : outcome EngineError ConfigProposeOutcome -> EngineW -> Prop) :
  agrees s rs -> Z.of_nat (length rs) + 1 <= u64_max ->
  new_key s rs agent "config.propose" (cp_idempotency_key params) [WProposed] ->
  (forall n, en_txs (ew_engine s) !! new_ulid n = None) ->
  (forall n, length (dg_bytes (br_config_digest (current_base_revision n))) = 32%nat) ->
  (forall s' i j k staged json, propose_config k (cp_changes params) = Ok staged ->
     let tx := new_ulid j in let base := current_base_revision i in
     agrees s' (rs ++ [proposed_record (length rs) tx agent md params base staged json]) ->
     propose_payload_to_string (proposal tx base staged) (ao_candidate_closure staged) = Some json ->
     idem_get (en_idempotency (ew_engine s')) (propose_key agent params) =
       Some (mkIdem (propose_key agent params) tx (propose_fingerprint params) json) ->
     Q (Ret (proposal_outcome tx base staged)) s') ->
  (forall e s', agrees s' rs -> ew_engine s' = ew_engine s ->
     (exists k reason, e = EProposeRejected reason /\ propose_config k (cp_changes params) = Err reason) \/ e = ESafeMode ->
     Q (Throw e) s') ->
  (forall e s' r, wr_state r = WProposed -> undone s rs r s' ->
     en_safe_mode (ew_engine s') = true \/ (exists d, e = EStorage d) -> Q (Throw e) s') ->
  wp (config_propose agent md params) Q s.
Proof.
  intros Ha Hmax [Hkey Hlog] Hfresh Hbase HQ HR HT. unfold config_propose. rewrite wp_bind.
  eapply wp_ensure_dm; [exact Ha|]. apply wp_check_fresh; [exact Hkey|]. rewrite wp_bind.
  eapply wp_lookup_unlogged; [exact Ha|exact Hlog|]. intros s1 Hb1 He1. cbn beta iota zeta.
  rewrite wp_bind. apply wp_observe_base. intros s2 Hb2 He2. set (i := w_tick _).
  rewrite wp_bind. unfold new_tx_id at 1. rewrite wp_on_disk. unfold wp at 1. cbn [fst snd].
  rewrite wp_bind. unfold call_propose at 1. rewrite wp_on_disk. unfold wp at 1. cbn [fst snd ew_engine w_tick ew_world w_fs w_calls].
  set (s3 := mkEngineW _ _). assert (Hb3 : beside s s3).
  { etrans; [exact Hb1|]. etrans; [exact Hb2|apply beside_world]. }
  assert (He3 : ew_engine s3 = ew_engine s) by (by rewrite <-He1, <-He2).
  assert (Ha3 : agrees s3 rs) by (by eapply agrees_beside).
  set (j := w_tick (ew_world s2)). set (k := S j).
  rewrite wp_bind, wp_of_result. destruct (propose_config k (cp_changes params)) as [staged|reason] eqn:Hprop; cbn [map_err].
  2: { apply HR; [done|done|left]. by exists k, reason. }
  rewrite wp_bind, wp_of_result. fold (proposal (new_ulid j) (current_base_revision i) staged).
  destruct (propose_payload_to_string _ _) as [json|] eqn:Hjson; cbn [ok_or]; [|apply HR; auto].
  apply (wp_propose_write rs s3 agent md params (new_ulid j) (current_base_revision i) staged json);
    [done|done|by rewrite He3|done|..].
  - intros s4 Ha4 Hid4. by eapply HQ.
  - intros e s4 [Hu1 Hu2] Hs4. eapply HT; [|split|exact Hs4]; [|rewrite <-He3; exact Hu1|].
    + done.
    + rewrite He3 in Hu2. exact Hu2.
Qed.
End Ops.
