(* ===== verification/TxOpening.v ===== *)
(** * The broker: what an opening reads

    Opening makes directories and may write a fresh file of metadata; every
    other file is as it was.  [reading] says of a value that it was read from
    the files an opening found, while it ran. *)

From S2P Require Import Prelude RustStd Json TxTypes TxStorage TxEngine.

(** ** Files left alone *)

Record undisturbed (P : Path -> Prop) (w w' : TxWorld) : Prop := {
  ud_files p : ~ P p -> fs_files (w_fs w') !! p = fs_files (w_fs w) !! p;
  ud_dirs : fs_dirs (w_fs w) ⊆ fs_dirs (w_fs w');
  ud_tick : (w_tick w <= w_tick w')%nat;
}.

#[export] Instance undisturbed_refl P : Reflexive (undisturbed P).
Proof. by split. Qed.
#[export] Instance undisturbed_trans P : Transitive (undisturbed P).
Proof.
  intros w1 w2 w3 [Hf Hd Ht] [Hf' Hd' Ht']. split; [|set_solver|lia].
  intros p Hp. by rewrite Hf', Hf.
Qed.

Lemma undisturbed_mono (P Q : Path -> Prop) w w' :
  (forall p, P p -> Q p) -> undisturbed P w w' -> undisturbed Q w w'.
Proof. intros HPQ [Hf Hd Ht]. split; [|done|done]. intros p Hp. apply Hf. auto. Qed.

(** Whatever [m] answers, it wrote no file outside [P]. *)
Definition leaves_files {E A} (P : Path -> Prop) (m : M TxWorld E A) : Prop :=
  forall w, undisturbed P w (snd (m w)).

(** [a] was read by [m] while a computation ran from [w] to [w'], from the
    files that [w] had, those in [P] excepted. *)
Definition reading (P : Path -> Prop) (w w' : TxWorld) {E A} (m : M TxWorld E A) (a : A) : Prop :=
  exists w1 w2, m w1 = (Ret a, w2) /\ undisturbed P w w1 /\ undisturbed P w2 w'.

Lemma leaves_run {E A} P (m : M TxWorld E A) w o w' :
  leaves_files P m -> m w = (o, w') -> undisturbed P w w'.
Proof. intros Hm Hrun. specialize (Hm w). by rewrite Hrun in Hm. Qed.

Lemma bind_returns {S E A B} (m : M S E A) (f : A -> M S E B) s b s' :
  (m ≫= f) s = (Ret b, s') -> exists a s1, m s = (Ret a, s1) /\ f a s1 = (Ret b, s').
Proof.
  unfold mbind, M_bind. destruct (m s) as [[a|e|] s1]; [|done|done]. intros Hf. by exists a, s1.
Qed.

Lemma mapping_err_returns {S E F A} (g : E -> F) (m : M S E A) s a s' :
  mapping_err g m s = (Ret a, s') -> m s = (Ret a, s').
Proof. unfold mapping_err. destruct (m s) as [[x|e|] s1]; [|done|done]. by intros [= <- <-]. Qed.

Lemma attempt_returns {S E F A} (m : M S E A) s (r : result E A) s' :
  attempt (F:=F) m s = (Ret r, s') ->
  match r with Ok a => m s = (Ret a, s') | Err e => m s = (Throw e, s') end.
Proof.
  unfold attempt. destruct (m s) as [[x|e|] s1]; [| |done]; by intros [= <- <-].
Qed.

Lemma of_result_returns {S E A} (r : result E A) s a s' :
  (of_result r : M S E A) s = (Ret a, s') -> r = Ok a /\ s' = s.
Proof. destruct r; [|done]. by intros [= <- <-]. Qed.

Section Leaves.
Context `{!IoEnv} (P : Path -> Prop).
Context {E A B : Type}.

Abbreviation leaving := (leaves_files P).

Lemma leaves_ret (a : A) : leaving (mret a : M TxWorld E A).
Proof. by intros w. Qed.
Lemma leaves_throw_if b (e : E) : leaving (throw_if b e).
Proof. intros w. by destruct b. Qed.
Lemma leaves_of_result (r : result E A) : leaving (of_result r).
Proof. intros w. by destruct r. Qed.
Lemma leaves_files_bind (m : M TxWorld E A) (f : A -> M TxWorld E B) :
  leaving m -> (forall a, leaving (f a)) -> leaving (m ≫= f).
Proof.
  intros Hm Hf w. unfold mbind, M_bind. specialize (Hm w).
  destruct (m w) as [[a|e|] w1]; [|done|done]. etrans; [exact Hm|apply Hf].
Qed.
Lemma leaves_mapping_err {F} (g : E -> F) (m : M TxWorld E A) : leaving m -> leaving (mapping_err g m).
Proof. intros Hm w. unfold mapping_err. specialize (Hm w). by destruct (m w) as [[] ?]. Qed.
Lemma leaves_attempt {F} (m : M TxWorld E A) : leaving m -> leaving (attempt m : M TxWorld F _).
Proof. intros Hm w. unfold attempt. specialize (Hm w). by destruct (m w) as [[] ?]. Qed.

Lemma undisturbed_fs w fs :
  (forall p, ~ P p -> fs_files fs !! p = fs_files (w_fs w) !! p) ->
  fs_dirs (w_fs w) ⊆ fs_dirs fs -> undisturbed P w (w_set_fs fs w).
Proof. intros Hf Hd. split; [done|done|cbn; lia]. Qed.

Lemma leaves_io_call (f : FS -> option (A * FS)) :
  (forall fs a fs', f fs = Some (a, fs') ->
     (forall p, ~ P p -> fs_files fs' !! p = fs_files fs !! p) /\ fs_dirs fs ⊆ fs_dirs fs') ->
  leaving (io_call f).
Proof.
  intros Hf w. change (wp (io_call f) (fun _ => undisturbed P w) w). apply wp_io_call.
  - intros a fs Ha. apply Hf in Ha as [? ?]. by apply undisturbed_fs.
  - by apply undisturbed_fs.
Qed.

(** A call that only looks. *)
Lemma leaves_look (f : FS -> option (A * FS)) :
  (forall fs a fs', f fs = Some (a, fs') -> fs' = fs) -> leaving (io_call f).
Proof. intros Hf. apply leaves_io_call. by intros fs a fs' ->%Hf. Qed.

Lemma leaves_exists p : leaving (path_exists p : M TxWorld E bool).
Proof.
  intros w. change (wp (path_exists (E:=E) p) (fun _ => undisturbed P w) w).
  rewrite wp_path_exists. by apply undisturbed_fs.
Qed.
End Leaves.

Section Calls.
Context `{!IoEnv} (P : Path -> Prop).

Lemma leaves_read_text p : leaves_files P (fs_read_to_string p).
Proof.
  apply leaves_look. intros fs a fs'. destruct (fs_files fs !! p); [|done]. cbn.
  destruct (utf8_ok _); [|done]. by intros [= _ <-].
Qed.
Lemma leaves_read_dir p : leaves_files P (read_dir p).
Proof. apply leaves_look. intros fs a fs'. destruct (dir_exists fs p); [|done]. by intros [= _ <-]. Qed.
Lemma leaves_create_dir p : leaves_files P (create_dir_all p).
Proof.
  apply leaves_io_call. intros fs a fs'. case_bool_decide; [done|]. intros [= _ <-]. cbn.
  split; [done|set_solver].
Qed.
Lemma leaves_open_dir p : leaves_files P (open_dir p).
Proof. apply leaves_look. intros fs a fs'. destruct (dir_exists fs p); [|done]. by intros [= _ <-]. Qed.
Lemma leaves_open_existing p : leaves_files P (open_existing p).
Proof. apply leaves_look. intros fs a fs'. case_bool_decide; [|done]. by intros [= _ <-]. Qed.
Lemma leaves_sync_all p : leaves_files P (sync_all p).
Proof. apply leaves_look. by intros fs a fs' [= _ <-]. Qed.

Lemma put_elsewhere p bs fs : P p ->
  (forall q, ~ P q -> fs_files (put_file p bs fs) !! q = fs_files fs !! q) /\
  fs_dirs fs ⊆ fs_dirs (put_file p bs fs).
Proof.
  intros Hp. split; [|done]. intros q Hq. cbn. apply lookup_insert_ne. by intros ->.
Qed.

Lemma leaves_truncate p : P p -> leaves_files P (open_truncate p).
Proof.
  intros Hp. apply leaves_io_call. intros fs a fs'. destruct (can_create fs p); [|done].
  intros [= _ <-]. by apply put_elsewhere.
Qed.
Lemma leaves_write_all p bs : P p -> leaves_files P (write_all p bs).
Proof.
  intros Hp w. change (wp (write_all p bs) (fun _ => undisturbed P w) w).
  apply wp_write_all; [intros k|..]; apply undisturbed_fs; try done; by apply put_elsewhere.
Qed.
Lemma leaves_rename from to : P from -> P to -> leaves_files P (fs_rename from to).
Proof.
  intros Hf Ht. apply leaves_io_call. intros fs a fs'. unfold rename_file.
  destruct (fs_files fs !! from); [|done]. cbn. destruct (can_create fs to); [|done].
  intros [= _ <-]. cbn. split; [|done]. intros p Hp.
  rewrite lookup_insert_ne, lookup_delete_ne; [done|..]; by intros ->.
Qed.
Lemma leaves_mfor {E A B} (f : A -> M TxWorld E B) l :
  (forall a, leaves_files P (f a)) -> leaves_files P (mfor f l).
Proof.
  intros Hf. induction l as [|x l IH]; cbn [mfor]; [apply leaves_ret|].
  apply leaves_files_bind; [apply Hf|]. intros y. apply leaves_files_bind; [exact IH|]. intros ys. apply leaves_ret.
Qed.
End Calls.

Create HintDb leaves.
#[export] Hint Resolve leaves_ret leaves_throw_if leaves_of_result leaves_mapping_err leaves_attempt
  leaves_exists leaves_read_text leaves_read_dir leaves_create_dir leaves_open_dir
  leaves_open_existing leaves_sync_all leaves_truncate leaves_write_all leaves_rename
  leaves_mfor : leaves.

Ltac leaving :=
  repeat match goal with
    | |- leaves_files _ (_ ≫= _) => apply leaves_files_bind; [|intros ?]
    | |- leaves_files _ (if ?b then _ else _) => destruct b
    | |- leaves_files _ (match ?x with _ => _ end) => destruct x
    | |- leaves_files _ (mapping_err _ _) => apply leaves_mapping_err
    | |- leaves_files _ (attempt _) => apply leaves_attempt
    | |- leaves_files _ (mfor _ _) => apply leaves_mfor; intros ?
    | |- _ => solve [auto with leaves]
    end.

(** ** The pieces of an opening *)

(** The file of metadata of the event log, and its temporary file. *)
Definition event_meta (root : Path) (p : Path) : Prop :=
  let dir := path_join root ["events"] in p = meta_path dir \/ p = meta_temp dir.

Section Opening.
Context `{JsonNumber} `{!BrokerCodec} `{!IoEnv} (P : Path -> Prop).

Lemma leaves_uuid {E} : leaves_files P (fresh_uuid : M TxWorld E string).
Proof. intros w. split; [done|done|cbn; lia]. Qed.
Hint Resolve leaves_uuid : leaves.

Lemma leaves_wal_open root : leaves_files P (wal_open root).
Proof. unfold wal_open, io_. leaving. Qed.
Lemma leaves_load st : leaves_files P (load_records st).
Proof. unfold load_records, read_record, io_. leaving. Qed.
Lemma leaves_recover {E} st : leaves_files P (recover st : M TxWorld E _).
Proof.
  unfold recover, has_ambiguous_temp_files. destruct (ws_safe_mode st); [leaving|].
  apply leaves_files_bind; [leaving|]. intros temps. destruct temps; [leaving|].
  apply leaves_files_bind; [apply leaves_attempt, leaves_load|]. intros r. leaving.
Qed.
Lemma leaves_events_open root :
  P (meta_path root) -> P (meta_temp root) -> leaves_files P (events_open root).
Proof.
  intros Hm Ht.
  unfold events_open, persist_meta, write_all_and_sync, sync_file, atomic_rename, sync_parent,
    fs_write, ev_io, io_. leaving.
Qed.
Lemma leaves_read_all l : leaves_files P (read_all l).
Proof. unfold read_all, ev_io. leaving. Qed.
Lemma leaves_validate l : leaves_files P (validate_integrity l).
Proof. unfold validate_integrity. apply leaves_files_bind; [apply leaves_read_all|]. intros evs. leaving. Qed.
Lemma leaves_idem_open root : leaves_files P (idem_open root).
Proof. unfold idem_open, read_binding, io_. leaving. Qed.
End Opening.
#[export] Hint Resolve leaves_wal_open leaves_recover leaves_read_all leaves_validate
  leaves_idem_open : leaves.
