(* ===== verification/TxDemo.v ===== *)
(** * A concrete broker

    The parameters of the engine's model, instantiated: a codec that knows the
    documents of one transaction, a host whose base stays or moves, an
    environment whose calls succeed or fail once.  The engine's properties are
    applied to this run. *)

From S2P Require Import Prelude RustStd Json TxTypes TxState TxStorage TxNames TxWalFacts.
From S2P Require Import TxEngine TxChain TxEngineFacts TxOpFacts.

#[export] Existing Instance int_number.

(** ** The documents *)

Definition demo_md : string := "sha256:" +:+ String.concat "" (repeat "07" 32).
Definition demo_digest : Digest := from_sha256_bytes (repeat (byte_of 7) 32).
Definition demo_base : BaseRevision := mkBase None "git-1" (from_sha256_bytes (repeat (byte_of 1) 32)).
Definition demo_moved_base : BaseRevision := mkBase None "git-2" (from_sha256_bytes (repeat (byte_of 2) 32)).
Definition demo_staged : AdapterProposeOutcome :=
  mkOutcome "diff" (mkPlan "nix" ["eval"]) ["web"] None.
Definition demo_params : ConfigProposeParams := mkProposeParams "k1" [mkChange "a.nix" "{}"].
Definition demo_apply : TxApplyParams := mkApplyParams "tx-1" "k2".
Definition demo_result : ConfigProposeResult :=
  mkProposeResult "tx-1" "diff" (mkPlan "nix" ["eval"]) ["web"] demo_base.

Definition all_states : list WireState :=
  [WIdle; WProposed; WTesting; WApplying; WProbation; WProbationPassed;
   WCommitting; WCommitted; WRejected; WReverting; WReverted].

Definition SLASH : Ascii.ascii := Ascii.ascii_of_nat 47.
Definition demo_step_text (r : TxStepResult) : string :=
  debug_name (sr_state r) +:+ String SLASH (sr_tx_id r).
Definition demo_step_parse (text : string) : option TxStepResult :=
  '(name, tx) ← split_once SLASH text;
  st ← proto_state_from_debug_name name;
  Some (mkStep tx st).

Lemma demo_step_roundtrip r : demo_step_parse (demo_step_text r) = Some r.
Proof. by destruct r as [tx []]. Qed.

Definition demo_snapshot (st : WireState) : TxSnapshot :=
  {| sn_tx_id := "tx-1"; sn_state := st; sn_agent_id := "agent"; sn_manifest_digest := demo_digest;
     sn_base_revision := demo_base; sn_effect_set := [EffD]; sn_diff := "diff";
     sn_affected_resources := ["web"] |}.

(** The records the codec knows: the proposal, and every state under the
    numbers that follow, with and without the key of an application. *)
Definition demo_first : WalRecord :=
  {| wr_record_version := 1; wr_seq := 1; wr_tx_id := "tx-1"; wr_state := WProposed;
     wr_idempotency_key := Some "k1"; wr_idem_fingerprint := Some "p:k1"; wr_agent_id := "agent";
     wr_manifest_digest := demo_digest; wr_base_revision := demo_base; wr_effect_set := [EffD];
     wr_diff := "diff"; wr_affected_resources := ["web"]; wr_approval_ref := None;
     wr_result_json := Some "P" |}.
Definition demo_next (n : nat) (st : WireState) (key fp : option string) : WalRecord :=
  next_record n (demo_snapshot WProposed) "tx-1" st key fp (Some (demo_step_text (mkStep "tx-1" st))).
Definition demo_records : list WalRecord :=
  demo_first :: flat_map (fun n => flat_map (fun st =>
    [demo_next n st None None; demo_next n st (Some "k2") (Some "a:tx-1");
     demo_next n st (Some "k3") (Some "a:tx-1")])
    [WTesting; WApplying; WProbation; WRejected]) (seq 1 6).

Definition demo_bindings : list IdempotencyRecord :=
  [mkIdem "agent:config.propose:k1" "tx-1" "p:k1" "P";
   mkIdem "agent:tx.apply:k2" "tx-1" "a:tx-1" "Applying/tx-1";
   mkIdem "agent:tx.apply:k2" "tx-1" "a:tx-1" "Rejected/tx-1";
   mkIdem "agent:tx.apply:k3" "tx-1" "a:tx-1" "Rejected/tx-1"].

Definition demo_events : list StoredEvent :=
  flat_map (fun n => map (fun st => mkStored (Z.of_nat n) "tx.state" (state_payload "tx-1" st))
    [WProposed; WTesting; WApplying; WProbation; WRejected]) (seq 1 12).

Definition demo_payloads : list (string * Value) :=
  (DQ +:+ demo_md +:+ DQ, VString demo_md) ::
  map (fun st => (state_payload "tx-1" st,
    VObject [("tx_id", VString "tx-1"); ("state", VString (debug_name st))])) all_states.

Fixpoint assoc {A} (key : string) (l : list (string * A)) : option A :=
  match l with
  | [] => None
  | (k, v) :: l => if decide (k = key) then Some v else assoc key l
  end.

(** An entry of a table is written as one byte, from 32 on. *)
Definition table_write {A} `{EqDecision A} (table : list A) (x : A) : option (list byte) :=
  (fun i => [byte_of (32 + Z.of_nat i)]) <$> index_of x table.
Definition table_read {A} (table : list A) (bs : list byte) : option A :=
  match bs with [b] => table !! Z.to_nat (byte_val b - 32) | _ => None end.

Lemma table_roundtrip {A} `{EqDecision A} (table : list A) x bs :
  (length table <= 95)%nat -> table_write table x = Some bs ->
  utf8_ok bs = true /\ table_read table bs = Some x.
Proof.
  intros Hlen Hw. unfold table_write in Hw. apply fmap_Some in Hw as (i & Hi & ->).
  apply index_of_lookup in Hi. pose proof (lookup_lt_Some _ _ _ Hi).
  assert (Hv : byte_val (byte_of (32 + Z.of_nat i)) = 32 + Z.of_nat i)
    by (rewrite byte_val_of; apply Z.mod_small; lia).
  cbn [utf8_ok table_read]. rewrite Hv. split.
  - by replace (32 + Z.of_nat i <=? 127) with true by lia.
  - by replace (Z.to_nat (32 + Z.of_nat i - 32)) with i by lia.
Qed.

(** An entry is no line break. *)
Lemma table_line {A} `{EqDecision A} (table : list A) x bs :
  (length table <= 95)%nat -> table_write table x = Some bs ->
  exists b, bs = [b] /\ 32 <= byte_val b.
Proof.
  intros Hlen Hw. unfold table_write in Hw. apply fmap_Some in Hw as (i & Hi & ->).
  apply index_of_lookup in Hi. pose proof (lookup_lt_Some _ _ _ Hi).
  eexists. split; [done|]. rewrite byte_val_of, Z.mod_small; lia.
Qed.

#[export] Instance demo_broker_codec : BrokerCodec := {|
  wal_to_vec := table_write demo_records;
  wal_from_str := table_read demo_records;
  checkpoint_to_vec := table_write (Z.of_nat <$> seq 0 90);
  checkpoint_from_str := table_read (Z.of_nat <$> seq 0 90);
  idem_to_vec := table_write demo_bindings;
  idem_from_str := table_read demo_bindings;
  event_to_string := table_write demo_events;
  event_from_str := table_read demo_events;
  meta_to_vec m := table_write ((fun n => mkMeta "log-1" (Z.of_nat n)) <$> seq 0 90) m;
  meta_from_str := table_read ((fun n => mkMeta "log-1" (Z.of_nat n)) <$> seq 0 90);
  step_to_string r := Some (demo_step_text r);
  step_from_str := demo_step_parse;
  propose_payload_to_string _ _ := Some "P";
  propose_payload_from_str text := if decide (text = "P") then Some (demo_result, None) else None;
  propose_result_from_str _ := None;
  propose_params_to_string p := Some ("p:" +:+ cp_idempotency_key p);
  apply_params_to_string p := Some ("a:" +:+ ap_tx_id p);
  payload_value_from_str text := assoc text demo_payloads;
  cursor_to_string log_id seq := Some (log_id +:+ String SLASH (format_decimal seq));
  cursor_from_str text := '(log_id, n) ← split_once SLASH text; seq ← parse_u64 n; Some (log_id, seq);
  base64url_encode text := text;
  base64url_decode text := Some text;
  uuid_parse_ok text := bool_decide (text = "log-1");
  new_uuid _ := "log-1";
  new_ulid _ := "tx-1";
  default_hash key := Z.of_nat (String.length key);
|}.

#[export] Instance demo_broker_laws : BrokerCodecLaws.
Proof.
  split.
  - intros r bs _. apply table_roundtrip. vm_compute. lia.
  - intros n bs _. apply table_roundtrip. vm_compute. lia.
  - intros r text [= <-]. apply demo_step_roundtrip.
  - intros e line _ Hw. pose proof Hw as Hr. apply table_roundtrip in Hr as [Hu Hr]; [|vm_compute; lia].
    apply table_line in Hw as (b & -> & Hb); [|vm_compute; lia]. split_and!; try done.
    + intros Hin. apply list_elem_of_singleton in Hin. subst b. done.
    + intros [= ->]. done.
  - intros m bs _. apply table_roundtrip. vm_compute. lia.
Qed.

(** ** The host and the environment *)

Definition demo_host : HostAdapter :=
  {| current_base_revision := fun _ => demo_base; propose_config := fun _ _ => Ok demo_staged |}.
Definition demo_moved_host : HostAdapter :=
  {| current_base_revision := fun _ => demo_moved_base; propose_config := fun _ _ => Ok demo_staged |}.

(** One call fails: the one at tick [n]. *)
Definition fails_at (n : nat) : IoEnv :=
  {| io_fault := fun m => if Nat.eqb m n then FailBefore else NoFault |}.

(** ** The run *)

Definition outcome_ok {E A} (d : A) (o : outcome E A) : A := match o with Ret a => a | _ => d end.

Definition demo_root : Path := ["broker"].
Definition demo_empty_world : TxWorld := mkWorld (mkFS ∅ {[ [] ]}) 0 [].
Definition demo_idle_engine : TransactionEngine :=
  mkEngine demo_root (mkStore [] true 0) (mkEventLog [] (mkMeta "" 0)) ∅ (mkIdemStore [] ∅) 0 true.

(** Opening, on what disk there is. *)
Definition demo_open (env : IoEnv) (w : TxWorld) : EngineW :=
  match @open_owned int_number demo_broker_codec env demo_root w with
  | (Ret e, w') => mkEngineW e w'
  | (_, w') => mkEngineW demo_idle_engine w'
  end.

Definition demo_opened : EngineW := demo_open reliable_io demo_empty_world.
Definition demo_proposed : EngineW :=
  snd (@config_propose int_number demo_broker_codec reliable_io demo_host "agent" demo_md demo_params demo_opened).
Definition demo_tested : EngineW :=
  snd (@tx_test int_number demo_broker_codec reliable_io "agent" demo_md "tx-1" demo_proposed).
Definition demo_applied : EngineW :=
  snd (@tx_apply int_number demo_broker_codec reliable_io demo_host "agent" demo_md demo_apply demo_tested).
Definition demo_on_probation : EngineW :=
  snd (@advance_to_probation int_number demo_broker_codec reliable_io "agent" demo_md "tx-1" demo_applied).

Definition states_of (s : EngineW) : option WireState * bool * Z :=
  (sn_state <$> en_txs (ew_engine s) !! "tx-1", en_safe_mode (ew_engine s), en_next_seq (ew_engine s)).

Lemma demo_stages :
  map states_of [demo_opened; demo_proposed; demo_tested; demo_applied; demo_on_probation;
                 demo_open reliable_io (ew_world demo_on_probation)] =
  [(None, false, 0); (Some WProposed, false, 1); (Some WTesting, false, 2);
   (Some WApplying, false, 3); (Some WProbation, false, 4); (Some WProbation, false, 4)].
Proof. vm_compute. reflexivity. Qed.
