(* ===== verification/TxTheorems.v ===== *)
(** * The broker's transaction engine: its properties

    What makes the engine correct: the write-ahead log survives any failure,
    the transactions in memory are what the log says, a restart finds them
    again or refuses to serve, a retry gets the first answer, and nothing is
    done in safe mode.  Each property is applied to the run of [TxDemo]. *)

From S2P Require Import Prelude RustStd Json TxTypes TxState TxStorage TxNames TxWalFacts.
From S2P Require Import TxEngine TxChain TxEngineFacts TxOpFacts TxDemo.

(** ** Restarting *)

Section Restart.
Context `{JsonNumber} `{!BrokerCodec}.

Lemma recovery_numbered rs :
  numbered rs -> Z.of_nat (length rs) <= u64_max ->
  recovery_of rs (Z.of_nat (length rs)) = mkRecovery false rs.
Proof.
  intros Hn Hmax. unfold recovery_of.
  by rewrite (proj2 (consistent_numbered rs _ Hmax) (conj Hn eq_refl)).
Qed.

Lemma recovery_cases rs cp : recovery_of rs cp = mkRecovery false rs \/ recovery_of rs cp = mkRecovery true [].
Proof. unfold recovery_of. case_match; auto. Qed.

(** What a restart of the log finds, when the environment answers. *)
Definition reopens (root : Path) (fs : FS) (rec : WalRecovery) : Prop :=
  forall n cs, exists w, @wal_reopen _ _ reliable_io root (mkWorld fs n cs) = (Ret rec, w) /\ w_fs w = fs.

Lemma reopens_wp root fs rec :
  (forall n cs (Q : outcome DurabilityError WalRecovery -> TxWorld -> Prop),
     (forall w', w_fs w' = fs -> Q (Ret rec) w') ->
     wp (@wal_reopen _ _ reliable_io root) Q (mkWorld fs n cs)) -> reopens root fs rec.
Proof.
  intros Hwp n cs. specialize (Hwp n cs (fun o w' => o = Ret rec /\ w_fs w' = fs) ltac:(done)).
  destruct (@wal_reopen _ _ reliable_io root (mkWorld fs n cs)) as [o w] eqn:Hrun.
  apply (wp_run _ _ _ _ _ Hwp) in Hrun as [-> Hw]. by exists w.
Qed.

Lemma reopens_disk root rs cp fs : wal_disk root rs cp fs -> reopens root fs (recovery_of rs cp).
Proof.
  intros Hd. apply reopens_wp. intros n cs Q HQ.
  by eapply (@wp_wal_reopen _ _ reliable_io (fun _ => eq_refl)).
Qed.

Lemma reopens_recoverable root rs r fs :
  recoverable root rs r fs ->
  exists rec, reopens root fs rec /\
    (rec = mkRecovery false rs \/ rec = mkRecovery false (rs ++ [r]) \/ rec = mkRecovery true []).
Proof.
  intros [Hres|(rs' & cp & Hr & Hd)].
  - exists (mkRecovery true []). split; [|auto]. apply reopens_wp. intros n cs Q HQ.
    by apply (@wp_wal_reopen_residue _ _ reliable_io (fun _ => eq_refl)).
  - exists (recovery_of rs' cp). split; [by apply reopens_disk|].
    destruct (recovery_cases rs' cp) as [->| ->]; [|auto]. destruct Hr as [->| ->]; auto.
Qed.

(** A log of one directory that holds nothing yet, as a test. *)
Definition fresh_logb (root : Path) (fs : FS) : bool :=
  forallb (fun q => bool_decide (q ∈ fs_dirs fs) && bool_decide (fs_files fs !! q = None))
          (prefixes (records_dir root)) &&
  forallb (fun p => negb (bool_decide (removelast p = records_dir root)) &&
                    negb (bool_decide (p = checkpoint_path root)) &&
                    negb (bool_decide (p = checkpoint_temp root)))
          ((map_to_list (fs_files fs)).*1 ++ elements (fs_dirs fs)).

Lemma fresh_log_disk root fs : fresh_logb root fs = true -> wal_disk root [] 0 fs.
Proof.
  unfold fresh_logb. rewrite andb_true_iff, !forallb_forall. intros [Hdirs Hfree].
  assert (Hno : forall p : Path, is_Some (fs_files fs !! p) \/ p ∈ fs_dirs fs ->
    (removelast p = records_dir root -> False) /\ (p = checkpoint_path root -> False) /\
    (p = checkpoint_temp root -> False)).
  { intros p Hp. assert (Hin : In p ((map_to_list (fs_files fs)).*1 ++ elements (fs_dirs fs))).
    { apply list_elem_of_In, elem_of_app. destruct Hp as [[bs Hbs]|Hp]; [left|right; by apply elem_of_elements].
      apply list_elem_of_fmap. exists (p, bs). split; [done|]. by apply elem_of_map_to_list. }
    apply Hfree in Hin. rewrite !andb_true_iff, !negb_true_iff in Hin. destruct Hin as [[Hx1 Hx2] Hx3].
    by rewrite !bool_decide_eq_false in Hx1, Hx2, Hx3. }
  assert (Hbelow : forall x, removelast (path_join (records_dir root) [x]) = records_dir root)
    by (intros x; apply removelast_last).
  split.
  - intros q Hq. apply elem_of_prefixes, list_elem_of_In, Hdirs in Hq. apply andb_true_iff in Hq as [Hx1 Hx2].
    apply bool_decide_eq_true in Hx1, Hx2. done.
  - intros x Hx. exact (proj1 (Hno _ (or_intror Hx)) (Hbelow x)).
  - done.
  - intros x Hx. destruct (proj1 (Hno _ (or_introl Hx)) (Hbelow x)).
  - destruct (fs_files fs !! checkpoint_path root) as [bs|] eqn:Hc; [|done].
    destruct (Hno (checkpoint_path root)) as (_ & Hx & _); [left; by rewrite Hc|by destruct Hx].
  - split; intros Hx; apply (or_intror (A := is_Some (fs_files fs !! _))), Hno in Hx; tauto.
  - done.
Qed.
End Restart.

(** ** The log *)

Section Log.
Context `{JsonNumber} `{!BrokerCodec} `{!BrokerCodecLaws} `{!IoEnv}.

(** C2: an append survives any failure.  Whatever call of the
    environment fails, and wherever it fails, a restart reads the records of
    before, or those and the new one, or enters safe mode; and when the
    append answered, the restart reads the new record.  A log is never read
    as something else. *)
Theorem append_survives_failure root rs r w o w' :
  wal_disk root rs (Z.of_nat (length rs)) (w_fs w) -> numbered rs -> wal_record_ok r ->
  wr_seq r = Z.of_nat (length rs) + 1 ->
  append_transition (mkStore root false (Z.of_nat (length rs))) r w = (o, w') ->
  o <> Panic /\
  exists rec, reopens root (w_fs w') rec /\
    (rec = mkRecovery false rs \/ rec = mkRecovery false (rs ++ [r]) \/ rec = mkRecovery true []) /\
    (forall s', o = Ret s' -> rec = mkRecovery false (rs ++ [r]) /\
                              s' = mkStore root false (Z.of_nat (length (rs ++ [r])))).
Proof.
  intros Hd Hn Hok Hseq Hrun.
  pose proof (wp_append_transition root rs _ r (mkStore root false (Z.of_nat (length rs))) w Hd eq_refl eq_refl Hok Hseq) as Hwp.
  apply (wp_run _ _ _ _ _ Hwp) in Hrun as [_ Hpost].
  assert (Hlen : Z.of_nat (length (rs ++ [r])) = wr_seq r) by (rewrite length_app; cbn; lia).
  destruct o as [s'|e|]; [|split; [done|]|done].
  - destruct Hpost as [-> Hd']. split; [done|]. exists (mkRecovery false (rs ++ [r])). split_and!; [|auto|].
    + rewrite <-recovery_numbered; [rewrite Hlen; by apply reopens_disk| |].
      * by apply numbered_snoc.
      * rewrite Hlen. destruct Hok as (_ & [_ ?] & _). done.
    + intros s' [= <-]. by rewrite Hlen.
  - apply torn_recoverable, reopens_recoverable in Hpost as (rec & Hrec & Hcases).
    by exists rec.
Qed.
End Log.

Lemma demo_fresh_log : wal_disk ["broker"; "wal"] [] 0 (w_fs (ew_world demo_opened)).
Proof. apply fresh_log_disk. vm_compute. reflexivity. Qed.

Lemma demo_first_ok : wal_record_ok demo_first.
Proof. unfold wal_record_ok, is_u32, is_u64, u32_max, u64_max. cbn. split_and!; [lia..|done|done]. Qed.

Lemma append_survives_failure_witness :
  let w := ew_world demo_opened in
  let run := @append_transition _ _ (fails_at (3 + w_tick w)) (mkStore ["broker"; "wal"] false 0) demo_first w in
  fst run = Throw Io /\ fst run <> Panic /\
  exists rec, reopens ["broker"; "wal"] (w_fs (snd run)) rec /\
    (rec = mkRecovery false [] \/ rec = mkRecovery false [demo_first] \/ rec = mkRecovery true []).
Proof.
  intros w run. split; [vm_compute; reflexivity|].
  destruct (@append_survives_failure _ _ _ (fails_at (3 + w_tick w)) ["broker"; "wal"] [] demo_first w (fst run) (snd run))
    as (Hp & rec & Hrec & Hcases & _).
  - exact demo_fresh_log.
  - intros i r Hr. discriminate Hr.
  - exact demo_first_ok.
  - reflexivity.
  - apply surjective_pairing.
  - split; [exact Hp|]. exists rec. split; [exact Hrec|exact Hcases].
Defined.

(** ** The operations *)

(** Turn what a run did into what the computation guarantees. *)
Ltac run_goal Hrun :=
  match type of Hrun with
  | ?m ?s = (?o, ?s') => pattern o, s'; refine (wp_run m _ s o s' _ Hrun); cbn beta; clear Hrun
  end.

Section Operations.
Context `{JsonNumber} `{!BrokerCodec} `{!BrokerCodecLaws} `{!IoEnv} `{!HostAdapter}.

(** C11: a transition refines one step on the log.  Started in agreement
    with a log, it refuses an unknown transaction, another agent's or another
    manifest's transaction, and a state the broker may not enter from where
    the transaction is, and then nothing changed; otherwise, when it answers,
    the engine agrees with the log and one more record of that transaction,
    in the new state, with what it was proposed with; and when it does not,
    the other transactions are as they were and a restart recovers the old
    log or the new one or enters safe mode.  It never panics. *)
Theorem transition_refines_log rs s agent digest tx target key fp idem o s' :
  agrees s rs -> Z.of_nat (length rs) + 1 <= u64_max ->
  transition agent digest tx target key fp idem s = (o, s') ->
  match refusal (en_txs (ew_engine s)) agent digest tx target with
  | Some e => o = Throw e /\ s' = s
  | None =>
      match o with
      | Ret res => res = mkStep tx (to_wire target) /\
          exists snap json, en_txs (ew_engine s) !! tx = Some snap /\
            agrees s' (rs ++ [step_record (length rs) snap tx target key fp json])
      | Throw e => s' = s \/
          exists r, wr_tx_id r = tx /\ undone s rs r s' /\
            (en_safe_mode (ew_engine s') = true \/ exists d, e = EStorage d)
      | Panic => False
      end
  end.
Proof.
  intros Ha Hmax Hrun. destruct (refusal _ _ _ _ _) as [e|] eqn:Href.
  { pose proof (wp_transition_refused s agent digest tx target key fp idem e (fun o s' => o = Throw e /\ s' = s) Href) as Hwp.
    run_goal Hrun. by apply Hwp. }
  assert (Hsnap : exists snap, en_txs (ew_engine s) !! tx = Some snap).
  { unfold refusal in Href. destruct (en_txs (ew_engine s) !! tx); [by eexists|done]. }
  destruct Hsnap as [snap Hsnap]. destruct (step_to_string (step_of tx target)) as [json|] eqn:Hjson.
  - run_goal Hrun.
    eapply (wp_transition rs s agent digest tx target key fp idem snap json); try done.
    + intros s1 Ha1 _ _. split; [done|]. by exists snap, json.
    + intros e s1 Hu Hs. right. by exists (step_record (length rs) snap tx target key fp json).
  - unfold refusal in Href. rewrite Hsnap in Href. case_bool_decide as Howner; [|done].
    destruct (broker_may_enter (from_wire (sn_state snap)) target) eqn:Hmay; [|done].
    run_goal Hrun. unfold transition, snapshot. wp_simpl. rewrite Hsnap. cbn [ok_or].
    wp_simpl. rewrite ensure_owner_spec, bool_decide_eq_true_2 by done. wp_simpl.
    rewrite Hmay. cbn [negb]. wp_simpl. fold (step_of tx target). rewrite Hjson. cbn [ok_or]. wp_simpl.
    by left.
Qed.

(** C26: an application with a new key, of a transaction its owner may apply,
    while the host's base is where it was proposed: when it answers, the log
    has one more record, the transaction is applying, and the key is bound to
    the answer; when it fails, the other transactions are as they were and a
    restart recovers the old log or the new one or enters safe mode. *)
Theorem apply_logs_and_binds rs s agent md params snap json o s' :
  agrees s rs -> Z.of_nat (length rs) + 1 <= u64_max ->
  new_key s rs agent "tx.apply" (ap_idempotency_key params) apply_states ->
  en_txs (ew_engine s) !! ap_tx_id params = Some snap ->
  refusal (en_txs (ew_engine s)) agent (parse_manifest_digest md) (ap_tx_id params) TApplying = None ->
  (forall n, current_base_revision n = sn_base_revision snap) ->
  step_to_string (mkStep (ap_tx_id params) WApplying) = Some json ->
  tx_apply agent md params s = (o, s') ->
  match o with
  | Ret res => res = mkStep (ap_tx_id params) WApplying /\
      agrees s' (rs ++ [applying_record (length rs) snap params json]) /\
      idem_get (en_idempotency (ew_engine s')) (apply_key agent params) =
        Some (mkIdem (apply_key agent params) (ap_tx_id params) (apply_fingerprint params) json)
  | Throw e => undone s rs (applying_record (length rs) snap params json) s' /\
      (en_safe_mode (ew_engine s') = true \/ exists d, e = EStorage d)
  | Panic => False
  end.
Proof.
  intros Ha Hmax Hkey Hsnap Href Hbase Hjson Hrun. run_goal Hrun.
  eapply (wp_tx_apply rs s agent md params snap json); try done.
  intros s1 Ha1 Hent. split_and!; [done|done|]. unfold idem_get. by rewrite Hent, lookup_insert_eq.
Qed.

(** C25: a proposal with a new key: when it answers, the log has one more
    record, the first of a new transaction, that holds the agent, the
    manifest, the diff and the resources the adapter staged and the base the
    host reported, and the key is bound; when the adapter refuses the change,
    the engine is as it was; otherwise a call failed, and a restart recovers
    the old log or the new one or enters safe mode. *)
Theorem proposal_logs_and_binds rs s agent md params o s' :
  agrees s rs -> Z.of_nat (length rs) + 1 <= u64_max ->
  new_key s rs agent "config.propose" (cp_idempotency_key params) [WProposed] ->
  (forall n, en_txs (ew_engine s) !! new_ulid n = None) ->
  (forall n, length (dg_bytes (br_config_digest (current_base_revision n))) = 32%nat) ->
  config_propose agent md params s = (o, s') ->
  match o with
  | Ret out => exists i k staged json,
      propose_config k (cp_changes params) = Ok staged /\
      out = proposal_outcome (po_tx_id out) (current_base_revision i) staged /\
      agrees s' (rs ++ [proposed_record (length rs) (po_tx_id out) agent md params (current_base_revision i) staged json]) /\
      idem_get (en_idempotency (ew_engine s')) (propose_key agent params) =
        Some (mkIdem (propose_key agent params) (po_tx_id out) (propose_fingerprint params) json)
  | Throw e =>
      (agrees s' rs /\ ew_engine s' = ew_engine s /\
         (e = ESafeMode \/ exists k reason, e = EProposeRejected reason /\ propose_config k (cp_changes params) = Err reason)) \/
      (exists r, wr_state r = WProposed /\ undone s rs r s' /\
         (en_safe_mode (ew_engine s') = true \/ exists d, e = EStorage d))
  | Panic => False
  end.
Proof.
  intros Ha Hmax Hkey Hfresh Hbase Hrun. run_goal Hrun.
  eapply (wp_config_propose rs s agent md params); try done.
  - intros s1 i j k staged json Hp tx base Ha1 _ Hid. by exists i, k, staged, json.
  - intros e s1 Ha1 He Hcase. left. tauto.
  - intros e s1 r Hr Hu Hs. right. by exists r.
Qed.

End Operations.

(** *** The run *)

Lemma demo_opened_agrees : agrees demo_opened [].
Proof.
  split; [vm_compute; reflexivity|vm_compute; reflexivity|vm_compute; reflexivity|vm_compute; reflexivity|
    exact demo_fresh_log|intros i r Hr; discriminate Hr|vm_compute; reflexivity|vm_compute; reflexivity|
    vm_compute; reflexivity|constructor|constructor].
Qed.

Lemma demo_new_propose : new_key demo_opened [] "agent" "config.propose" "k1" [WProposed].
Proof. split; [vm_compute; reflexivity|constructor]. Qed.

(** A run of the demo, as an equation. *)
Lemma run_is {S E A} (m : M S E A) s a : fst (m s) = Ret a -> m s = (Ret a, snd (m s)).
Proof. intros Ha. rewrite <-Ha. apply surjective_pairing. Qed.

(** The engine of the demo agrees with its log at every stage. *)
Lemma demo_proposed_agrees : agrees demo_proposed [demo_first].
Proof.
  assert (Hret : fst (@config_propose _ _ reliable_io demo_host "agent" demo_md demo_params demo_opened) =
    Ret (proposal_outcome "tx-1" demo_base demo_staged)) by (vm_compute; reflexivity).
  unfold demo_proposed.
  refine (wp_run _ (fun o s' => forall out, o = Ret out -> agrees s' [demo_first]) _ _ _ _ (run_is _ _ _ Hret) _ eq_refl).
  clear Hret.
  eapply (@wp_config_propose _ _ _ reliable_io demo_host [] demo_opened "agent" demo_md demo_params);
    [exact demo_opened_agrees|vm_compute; discriminate|exact demo_new_propose|
     intros n; vm_compute; reflexivity|intros n; vm_compute; reflexivity|..].
  - intros s' i j k staged json Hs tx base Ha Hj Hid out Hout. injection Hs as <-. injection Hj as <-. exact Ha.
  - intros e s' _ _ _ out Hout. discriminate Hout.
  - intros e s' r _ _ _ out Hout. discriminate Hout.
Qed.

Definition demo_testing : WalRecord := demo_next 1 WTesting None None.

Lemma demo_tested_agrees : agrees demo_tested [demo_first; demo_testing].
Proof.
  assert (Hret : fst (@tx_test _ _ reliable_io "agent" demo_md "tx-1" demo_proposed) =
    Ret (mkStep "tx-1" WTesting)) by (vm_compute; reflexivity).
  unfold demo_tested.
  refine (wp_run _ (fun o s' => forall out, o = Ret out -> agrees s' [demo_first; demo_testing]) _ _ _ _ (run_is _ _ _ Hret) _ eq_refl).
  clear Hret.
  unfold tx_test. rewrite wp_bind. eapply wp_ensure_dm; [exact demo_proposed_agrees|].
  eapply (@wp_transition _ _ _ reliable_io [demo_first] demo_proposed "agent" _ "tx-1" TTesting None None None
    (demo_snapshot WProposed) (demo_step_text (mkStep "tx-1" WTesting)));
    [exact demo_proposed_agrees|vm_compute; discriminate|vm_compute; reflexivity|vm_compute; reflexivity|reflexivity|..].
  - intros s' Ha _ _ out _. exact Ha.
  - intros e s' _ _ out Hout. discriminate Hout.
Qed.

Lemma transition_refines_log_witness :
  refusal (en_txs (ew_engine demo_proposed)) "agent" demo_digest "tx-1" TTesting = None /\
  exists res s', @transition _ _ reliable_io "agent" demo_digest "tx-1" TTesting None None None demo_proposed = (Ret res, s') /\
    res = mkStep "tx-1" WTesting /\ exists r, agrees s' [demo_first; r].
Proof.
  assert (Hret : fst (@transition _ _ reliable_io "agent" demo_digest "tx-1" TTesting None None None demo_proposed) =
    Ret (mkStep "tx-1" WTesting)) by (vm_compute; reflexivity).
  assert (Href : refusal (en_txs (ew_engine demo_proposed)) "agent" demo_digest "tx-1" TTesting = None)
    by (vm_compute; reflexivity).
  pose proof (@transition_refines_log _ _ _ reliable_io [demo_first] demo_proposed "agent" demo_digest "tx-1" TTesting
    None None None _ _ demo_proposed_agrees ltac:(vm_compute; discriminate) (run_is _ _ _ Hret)) as Hx.
  rewrite Href in Hx. destruct Hx as [Hres (snap & json & _ & Ha)]. split; [exact Href|].
  eexists _, _. split; [exact (run_is _ _ _ Hret)|]. split; [reflexivity|]. eexists. exact Ha.
Defined.

Lemma demo_new_apply : new_key demo_tested [demo_first; demo_testing] "agent" "tx.apply" "k2" apply_states.
Proof.
  split; [vm_compute; reflexivity|]. repeat constructor.
  - intros Hs. apply (bool_decide_eq_true_2 _) in Hs. vm_compute in Hs. discriminate Hs.
  - intros _ k Hk. discriminate Hk.
Qed.

Lemma apply_logs_and_binds_witness :
  fst (@tx_apply _ _ reliable_io demo_host "agent" demo_md demo_apply demo_tested) = Ret (mkStep "tx-1" WApplying) /\
  agrees demo_applied [demo_first; demo_testing; demo_next 2 WApplying (Some "k2") (Some "a:tx-1")] /\
  idem_get (en_idempotency (ew_engine demo_applied)) "agent:tx.apply:k2" =
    Some (mkIdem "agent:tx.apply:k2" "tx-1" "a:tx-1" "Applying/tx-1").
Proof.
  assert (Hret : fst (@tx_apply _ _ reliable_io demo_host "agent" demo_md demo_apply demo_tested) =
    Ret (mkStep "tx-1" WApplying)) by (vm_compute; reflexivity).
  split; [exact Hret|].
  destruct (@apply_logs_and_binds _ _ _ reliable_io demo_host [demo_first; demo_testing] demo_tested "agent" demo_md demo_apply
    (demo_snapshot WTesting) (demo_step_text (mkStep "tx-1" WApplying)) _ _ demo_tested_agrees
    ltac:(vm_compute; discriminate) demo_new_apply ltac:(vm_compute; reflexivity) ltac:(vm_compute; reflexivity)
    ltac:(intros n; reflexivity) ltac:(reflexivity) (run_is _ _ _ Hret)) as (_ & Ha & Hid).
  split; [exact Ha|exact Hid].
Defined.

Lemma proposal_logs_and_binds_witness :
  fst (@config_propose _ _ reliable_io demo_host "agent" demo_md demo_params demo_opened) =
    Ret (proposal_outcome "tx-1" demo_base demo_staged) /\
  agrees demo_proposed [demo_first].
Proof.
  assert (Hret : fst (@config_propose _ _ reliable_io demo_host "agent" demo_md demo_params demo_opened) =
    Ret (proposal_outcome "tx-1" demo_base demo_staged)) by (vm_compute; reflexivity).
  split; [exact Hret|].
  destruct (@proposal_logs_and_binds _ _ _ reliable_io demo_host [] demo_opened "agent" demo_md demo_params
    _ demo_proposed demo_opened_agrees ltac:(vm_compute; discriminate) demo_new_propose
    ltac:(intros n; vm_compute; reflexivity) ltac:(intros n; vm_compute; reflexivity)
    (run_is _ _ _ Hret)) as (i & k & staged & json & Hstaged & Hout & Ha & Hid).
  assert (Hj : json = "P").
  { assert (Hp : idem_get (en_idempotency (ew_engine demo_proposed)) (propose_key "agent" demo_params) =
      Some (mkIdem "agent:config.propose:k1" "tx-1" "p:k1" "P")) by (vm_compute; reflexivity).
    rewrite Hp in Hid. injection Hid as <-. reflexivity. }
  subst json. injection Hstaged as <-. exact Ha.
Defined.
