(* ===== verification/TxOpenTheorems.v ===== *)
(** * The broker: opening, replaying and refusing

    Opening fails closed; a key that is bound gets the first answer, before
    and after a restart; safe mode refuses; a transaction's records are one of
    eight sequences; what a moved base and a failed append leave behind; the
    event log; digests.  Each is applied to the run of [TxDemo]. *)

From S2P Require Import Prelude RustStd Json TxTypes TxState TxStorage TxNames TxWalFacts.
From S2P Require Import TxEngine TxChain TxEngineFacts TxOpFacts TxOpening TxDemo TxTheorems.

(** ** Opening *)

Section Opening.
Context `{JsonNumber} `{!BrokerCodec} `{!IoEnv}.

Lemma wp_any {S E A} (m : M S E A) (Q : outcome E A -> S -> Prop) s :
  (forall o s', m s = (o, s') -> Q o s') -> wp m Q s.
Proof. intros HQ. unfold wp. destruct (m s) as [o s'] eqn:Hm. by apply HQ. Qed.

End Opening.

(** ** The bindings of a log *)

Section Bindings.
Context `{JsonNumber} `{!BrokerCodec}.

#[local] Abbreviation merged rs m := (is_entries (merge_from_wal rs (mkIdemStore [] m))).

Lemma merge_entries rs st : is_entries (merge_from_wal rs st) = merged rs (is_entries st).
Proof. done. Qed.

Lemma merge_snoc rs r m :
  merged (rs ++ [r]) m =
  match wal_binding r with
  | Some b => match merged rs m !! id_key b with
              | Some _ => merged rs m | None => <[id_key b := b]> (merged rs m) end
  | None => merged rs m
  end.
Proof. unfold merge_from_wal. cbn [is_entries]. by rewrite fold_left_app. Qed.

Lemma merge_keeps rs m k b : m !! k = Some b -> merged rs m !! k = Some b.
Proof.
  intros Hk. induction rs as [|r rs IH] using rev_ind; [done|]. rewrite merge_snoc.
  destruct (wal_binding r) as [b'|]; [|done]. destruct (merged rs m !! id_key b') eqn:Hb; [done|].
  rewrite lookup_insert_ne; [done|]. intros Heq. rewrite Heq in Hb. congruence.
Qed.

Lemma merge_binds rs m r b : r ∈ rs -> wal_binding r = Some b -> is_Some (merged rs m !! id_key b).
Proof.
  induction rs as [|x rs IH] using rev_ind; [by intros ?%not_elem_of_nil|].
  intros Hin Hb. rewrite merge_snoc. apply elem_of_app in Hin as [Hin|Hin].
  - specialize (IH Hin Hb) as [b0 Hb0]. destruct (wal_binding x) as [b'|]; [|by eexists].
    destruct (merged rs m !! id_key b') eqn:Hb'; [by eexists|].
    rewrite lookup_insert_ne; [by eexists|]. intros Heq. rewrite Heq in Hb'. congruence.
  - apply list_elem_of_singleton in Hin as ->. rewrite Hb.
    destruct (merged rs m !! id_key b) eqn:Hb'; [by eexists|]. rewrite lookup_insert_eq. by eexists.
Qed.

Lemma merge_other rs m k :
  Forall (fun r => forall b, wal_binding r = Some b -> id_key b <> k) rs -> merged rs m !! k = m !! k.
Proof.
  induction rs as [|r rs IH] using rev_ind; [done|]. intros [Hrs Hr]%Forall_app.
  rewrite Forall_singleton in Hr. rewrite merge_snoc, <-IH by done.
  destruct (wal_binding r) as [b|]; [|done]. destruct (merged rs m !! id_key b) eqn:Hb; [done|].
  by rewrite lookup_insert_ne by (by apply Hr).
Qed.
End Bindings.

Section Openings.
Context `{JsonNumber} `{!BrokerCodec} `{!IoEnv}.

(** Recovery answers with records only when it read them and they are
    consistent with the checkpoint. *)
Lemma recover_returns {E} st w rec w' :
  (recover st : M TxWorld E _) w = (Ret rec, w') ->
  rec = mkRecovery true [] \/
  exists w1, load_records st w1 = (Ret (re_records rec), w') /\ re_safe_mode rec = false /\
    (forall P, undisturbed P w w1) /\
    records_consistent_with_checkpoint (re_records rec) (ws_checkpoint_seq st) = true.
Proof.
  unfold recover, has_ambiguous_temp_files.
  destruct (ws_safe_mode st); [intros [= <- <-]; by left|].
  intros (temps & w1 & Htemps & Hrest)%bind_returns.
  assert (Hleft : forall P, undisturbed P w w1).
  { intros P. pose proof (leaves_files_bind P (attempt (read_dir (records_dir (ws_root st))))
      (fun names => mret (match names with Err _ => true | Ok names => existsb (has_extension "tmp") names end)
         : M TxWorld E bool)) as Hl.
    specialize (Hl ltac:(apply leaves_attempt, leaves_read_dir) ltac:(intros; apply leaves_ret) w).
    by rewrite Htemps in Hl. }
  destruct temps; [injection Hrest as <- <-; by left|].
  apply bind_returns in Hrest as (r & w2 & Hload%attempt_returns & [= <- <-]).
  destruct r as [rs|e]; [|by left].
  destruct (records_consistent_with_checkpoint rs _) eqn:Hc; [|by left]. right. by exists w1.
Qed.

Lemma integrity_returns l w r w' :
  attempt (F:=EngineError) (validate_integrity l) w = (Ret r, w') -> is_ok r = true ->
  exists evs w1, read_all l w = (Ret evs, w1) /\ w' = w1 /\ check_integrity (el_meta l) evs = Ok tt.
Proof.
  intros Hr%attempt_returns Hok. destruct r as [[]|e]; [|done].
  unfold validate_integrity in Hr. apply bind_returns in Hr as (evs & w1 & Hread & Hc).
  apply of_result_returns in Hc as [Hc ->]. by exists evs, w1.
Qed.

End Openings.


(** ** Retries *)

Section Retries.
Context `{JsonNumber} `{!BrokerCodec} `{!IoEnv} `{!HostAdapter}.

Lemma wp_eq {S E A} (m : M S E A) s r : wp m (fun o s' => (o, s') = r) s -> m s = r.
Proof. unfold wp. intros <-. apply surjective_pairing. Qed.

Lemma bound_answers s agent md :
  en_safe_mode (ew_engine s) = false ->
  (forall params entry,
     idem_get (en_idempotency (ew_engine s)) (propose_key agent params) = Some entry ->
     config_propose agent md params s =
       (bound_answer (propose_fingerprint params) replay_propose entry, s)) /\
  (forall params entry,
     idem_get (en_idempotency (ew_engine s)) (apply_key agent params) = Some entry ->
     tx_apply agent md params s = (bound_answer (apply_fingerprint params) replay_apply entry, s)).
Proof.
  intros Hsafe. split; intros params entry Hbound; apply wp_eq;
    [unfold config_propose, ensure_dm_allowed|unfold tx_apply, ensure_dm_allowed];
    rewrite !wp_bind, wp_get_engine, wp_throw_if, Hsafe; by apply (wp_check_bound _ _ _ _ _ entry).
Qed.

(** C27: a key that is bound.  A call with it does nothing to the engine and
    to the disk, in any environment, and never asks the host: the answer is
    read from the binding, or the call is a conflict when its parameters are
    not those of the first call. *)
Theorem bound_key_replays s agent md :
  en_safe_mode (ew_engine s) = false ->
  (forall params entry,
     idem_get (en_idempotency (ew_engine s)) (propose_key agent params) = Some entry ->
     config_propose agent md params s =
       (bound_answer (propose_fingerprint params) replay_propose entry, s)) /\
  (forall params entry,
     idem_get (en_idempotency (ew_engine s)) (apply_key agent params) = Some entry ->
     tx_apply agent md params s = (bound_answer (apply_fingerprint params) replay_apply entry, s)).
Proof.
  intros Hsafe. by apply bound_answers.
Qed.

(** C28: a retry after a restart.  The log ends with the application of a
    transaction under a key no other record binds; whatever bindings the
    files of the store still hold for other keys, an engine whose bindings
    are merged from that log answers the same call as the first did, and
    changes nothing. *)
Theorem retry_after_restart `{!BrokerCodecLaws} rs n snap agent md params json st s :
  Forall (fun r => forall b, wal_binding r = Some b -> id_key b <> apply_key agent params) rs ->
  is_entries st !! apply_key agent params = None -> sn_agent_id snap = agent ->
  step_to_string (mkStep (ap_tx_id params) WApplying) = Some json ->
  en_safe_mode (ew_engine s) = false ->
  en_idempotency (ew_engine s) = merge_from_wal (rs ++ [applying_record n snap params json]) st ->
  tx_apply agent md params s = (Ret (mkStep (ap_tx_id params) WApplying), s).
Proof.
  intros Hrs Hst Hagent Hjson Hsafe Hid. set (r := applying_record n snap params json) in *.
  set (b := mkIdem (apply_key agent params) (ap_tx_id params) (apply_fingerprint params) json).
  assert (Hb : wal_binding r = Some b) by (unfold wal_binding, r, b, apply_key; cbn; by rewrite Hagent).
  assert (Hbound : idem_get (en_idempotency (ew_engine s)) (apply_key agent params) = Some b).
  { unfold idem_get. rewrite Hid, merge_entries, merge_snoc, Hb.
    change (id_key b) with (apply_key agent params).
    rewrite merge_other, Hst by done. apply lookup_insert_eq. }
  rewrite (proj2 (bound_answers s agent md Hsafe) params b Hbound). unfold bound_answer.
  rewrite decide_True by done. unfold replay_apply. cbn [id_result_json b].
  by rewrite (step_roundtrip _ _ Hjson).
Qed.

(** In safe mode every operation of the engine refuses, and neither the
    engine nor the disk changes. *)
Theorem safe_mode_refuses_operations s agent md propose tx apply cursor :
  en_safe_mode (ew_engine s) = true ->
  config_propose agent md propose s = (Throw ESafeMode, s) /\
  tx_test agent md tx s = (Throw ESafeMode, s) /\
  tx_apply agent md apply s = (Throw ESafeMode, s) /\
  advance_to_probation agent md tx s = (Throw ESafeMode, s) /\
  tx_status tx s = (Throw ESafeMode, s) /\
  events_replay cursor s = (Throw ESafeMode, s).
Proof.
  intros Hsafe. split_and!; apply wp_eq;
    [unfold config_propose, ensure_dm_allowed|unfold tx_test, ensure_dm_allowed|
     unfold tx_apply, ensure_dm_allowed|unfold advance_to_probation, ensure_dm_allowed|
     unfold tx_status|unfold events_replay];
    repeat rewrite ?wp_bind, ?wp_get_engine, ?wp_throw_if; by rewrite Hsafe.
Qed.
End Retries.

Lemma bound_key_replays_witness :
  en_safe_mode (ew_engine demo_applied) = false /\
  @tx_apply _ _ reliable_io demo_moved_host "agent" demo_md demo_apply demo_applied =
    (Ret (mkStep "tx-1" WApplying), demo_applied) /\
  @tx_apply _ _ reliable_io demo_host "agent" demo_md (mkApplyParams "tx-2" "k2") demo_applied =
    (Throw EIdempotencyConflict, demo_applied).
Proof.
  assert (Hsafe : en_safe_mode (ew_engine demo_applied) = false) by (vm_compute; reflexivity).
  assert (Hbound : idem_get (en_idempotency (ew_engine demo_applied)) "agent:tx.apply:k2" =
    Some (mkIdem "agent:tx.apply:k2" "tx-1" "a:tx-1" "Applying/tx-1")) by (vm_compute; reflexivity).
  split; [exact Hsafe|].
  pose proof (proj2 (@bound_key_replays _ _ reliable_io demo_moved_host demo_applied "agent" demo_md Hsafe) demo_apply _ Hbound) as Hx1.
  pose proof (proj2 (@bound_key_replays _ _ reliable_io demo_host demo_applied "agent" demo_md Hsafe) (mkApplyParams "tx-2" "k2") _ Hbound) as Hx2.
  rewrite Hx1, Hx2. split; f_equal.
Defined.

(** The engine a restart opens, with no binding left in the store's files. *)
Definition demo_restarted : EngineW :=
  mkEngineW (set_idempotency (merge_from_wal
    [demo_first; demo_testing; applying_record 2 (demo_snapshot WTesting) demo_apply "Applying/tx-1"]
    (mkIdemStore ["broker"; "idempotency"] ∅))
    (ew_engine (demo_open reliable_io (ew_world demo_applied)))) (ew_world demo_applied).

Lemma retry_after_restart_witness :
  @tx_apply _ _ reliable_io demo_moved_host "agent" demo_md demo_apply demo_restarted =
    (Ret (mkStep "tx-1" WApplying), demo_restarted).
Proof.
  apply (@retry_after_restart _ _ reliable_io demo_moved_host _ [demo_first; demo_testing] 2 (demo_snapshot WTesting)
    "agent" demo_md demo_apply "Applying/tx-1" (mkIdemStore ["broker"; "idempotency"] ∅)).
  - repeat constructor; intros b Hb; vm_compute in Hb; [injection Hb as <-|]; discriminate.
  - reflexivity.
  - reflexivity.
  - reflexivity.
  - vm_compute. reflexivity.
  - reflexivity.
Defined.

Definition demo_shut : EngineW := reopened true demo_tested.

Lemma safe_mode_refuses_operations_witness :
  @tx_apply _ _ reliable_io demo_host "agent" demo_md demo_apply demo_shut = (Throw ESafeMode, demo_shut).
Proof.
  apply (@safe_mode_refuses_operations _ _ reliable_io demo_host demo_shut "agent" demo_md demo_params "tx-1" demo_apply None).
  reflexivity.
Defined.

(** ** The sequences of a transaction *)

Ltac in_list := first [by left|right; in_list].

(** The broker's part of a transaction.  In a log that passes the
    semantic validation the records of any transaction go through one of
    eight sequences of states: it is proposed, tested, applied and put on
    probation, and may be rejected before that; nothing follows probation or
    a rejection, and no state of the watchdog occurs.  So a transaction has
    at most four records. *)
Theorem transaction_sequences rs t :
  validate_wal_semantics rs = true ->
  wal_states rs t ∈ [[]; [WProposed]; [WProposed; WTesting]; [WProposed; WTesting; WApplying];
    [WProposed; WTesting; WApplying; WProbation]; [WProposed; WRejected];
    [WProposed; WTesting; WRejected]; [WProposed; WTesting; WApplying; WRejected]].
Proof.
  intros Hlaw. apply lawful_spec in Hlaw as [_ Hc]. specialize (Hc t). unfold wal_states.
  destruct (chain rs t) as [|x1 c]; [by left|]. cbn [chain_ok] in Hc.
  apply andb_true_iff in Hc as [Hx1 Hc]. apply bool_decide_eq_true in Hx1.
  assert (Hstep : forall prev c, windows_ok prev c = true ->
    c = [] \/ exists x c', c = x :: c' /\ windows_ok x c' = true /\
      broker_may_enter (from_wire (wr_state prev)) (from_wire (wr_state x)) = true).
  { intros prev [|x c'] Hw; [by left|]. right. cbn in Hw. rewrite !andb_true_iff in Hw. exists x, c'. tauto. }
  cbn [fmap list_fmap]. rewrite Hx1.
  apply Hstep in Hc as [->|(x2 & c2 & -> & Hc & Hm)]; [in_list|]. rewrite Hx1 in Hm.
  cbn [fmap list_fmap]. destruct (wr_state x2) eqn:Hx2; try done;
    apply Hstep in Hc as [->|(x3 & c3 & -> & Hc & Hm3)]; try in_list; rewrite Hx2 in Hm3; try done.
  cbn [fmap list_fmap]. destruct (wr_state x3) eqn:Hx3; try done;
    apply Hstep in Hc as [->|(x4 & c4 & -> & Hc & Hm4)]; try in_list; rewrite Hx3 in Hm4; try done.
  cbn [fmap list_fmap]. destruct (wr_state x4) eqn:Hx4; try done;
    apply Hstep in Hc as [->|(x5 & c5 & -> & Hc & Hm5)]; try in_list; rewrite Hx4 in Hm5; done.
Qed.

Lemma transaction_sequences_witness :
  wal_states [demo_first; demo_testing] "tx-1" = [WProposed; WTesting] /\
  wal_states [demo_first; demo_testing] "tx-1" ∈ [[]; [WProposed]; [WProposed; WTesting]; [WProposed; WTesting; WApplying];
    [WProposed; WTesting; WApplying; WProbation]; [WProposed; WRejected];
    [WProposed; WTesting; WRejected]; [WProposed; WTesting; WApplying; WRejected]].
Proof.
  split; [vm_compute; reflexivity|]. apply (transaction_sequences [demo_first; demo_testing] "tx-1").
  vm_compute. reflexivity.
Defined.

(** ** A base that moved *)

Section Moved.
Context `{JsonNumber} `{!BrokerCodec} `{!BrokerCodecLaws} `{!IoEnv} `{!HostAdapter}.

(** Applying over a base that moved.  The transaction is rejected in
    the log before the call is refused, from whatever state it is in; when
    the refusal is complete, a restart reads the rejection, and the log it
    reads passes the semantic validation exactly when the broker could have
    rejected the transaction from the state it was in. *)
Theorem moved_base_rejects rs s agent md params snap json o s' :
  agrees s rs -> Z.of_nat (length rs) + 1 <= u64_max ->
  new_key s rs agent "tx.apply" (ap_idempotency_key params) apply_states ->
  en_txs (ew_engine s) !! ap_tx_id params = Some snap ->
  ensure_owner snap agent (parse_manifest_digest md) = Ok tt ->
  (forall n, current_base_revision n <> sn_base_revision snap) ->
  step_to_string (mkStep (ap_tx_id params) WRejected) = Some json ->
  tx_apply agent md params s = (o, s') ->
  let r := rejecting_record (length rs) snap params json in
  match o with
  | Ret _ | Panic => False
  | Throw e => e = EBaseRevisionMoved ->
      reopens (path_join (en_state_root (ew_engine s)) ["wal"]) (w_fs (ew_world s')) (mkRecovery false (rs ++ [r])) /\
      (validate_wal_semantics (rs ++ [r]) = true <->
       broker_may_enter (from_wire (sn_state snap)) TRejected = true) /\
      (validate_wal_semantics (rs ++ [r]) = true -> agrees s' (rs ++ [r]))
  end.
Proof.
  intros Ha Hmax Hkey Hsnap Howner Hbase Hjson Hrun r. run_goal Hrun.
  eapply wp_apply_prelude; [exact Ha|exact Hkey|exact Hsnap|exact Howner|].
  intros s1 n Hb1 He1. rewrite bool_decide_eq_true_2 by (intros Heq; by apply (Hbase n)).
  unfold result_json_for_refusal. rewrite Hjson. cbn [ok_or]. rewrite wp_bind, wp_of_result.
  apply (wp_refuse_moved_base rs s1); [by eapply agrees_beside|done|by rewrite He1|..].
  - rewrite He1. intros s2 Hd Hn Hlaw Hag _. split_and!; [|exact Hlaw|exact Hag].
    assert (Hlen : Z.of_nat (length (rs ++ [r])) = Z.of_nat (length rs) + 1) by (rewrite length_app; cbn; lia).
    rewrite <-recovery_numbered; [|exact Hn|lia]. rewrite Hlen. by apply reopens_disk.
  - intros e s2 He ->. by destruct He.
Qed.
End Moved.

Lemma moved_base_rejects_witness :
  let run := @tx_apply _ _ reliable_io demo_moved_host "agent" demo_md demo_apply demo_tested in
  fst run = Throw EBaseRevisionMoved /\
  reopens ["broker"; "wal"] (w_fs (ew_world (snd run)))
    (mkRecovery false [demo_first; demo_testing; demo_next 2 WRejected (Some "k2") (Some "a:tx-1")]).
Proof.
  intros run. assert (Hret : fst run = Throw EBaseRevisionMoved) by (vm_compute; reflexivity).
  split; [exact Hret|].
  pose proof (@moved_base_rejects _ _ _ reliable_io demo_moved_host [demo_first; demo_testing] demo_tested "agent"
    demo_md demo_apply (demo_snapshot WTesting) (demo_step_text (mkStep "tx-1" WRejected)) (fst run) (snd run)
    demo_tested_agrees ltac:(vm_compute; discriminate) demo_new_apply ltac:(vm_compute; reflexivity)
    ltac:(vm_compute; reflexivity) ltac:(intros n Hn; discriminate Hn) ltac:(reflexivity) (surjective_pairing _)) as Hx.
  rewrite Hret in Hx. destruct (Hx eq_refl) as [Hre _]. exact Hre.
Defined.

(** What a moved base does to a transaction on probation.  In a run
    without any failure a transaction is proposed, tested, applied and put on
    probation; the base moves; an application of it with a new key is refused
    as it should be.  The rejection that was logged before may not follow
    probation: the next start of the broker finds the log unlawful and comes
    up in safe mode, with no transaction. *)
Theorem moved_base_on_probation_bricks :
  let s0 := demo_on_probation in
  let run := @tx_apply _ _ reliable_io demo_moved_host "agent" demo_md (mkApplyParams "tx-1" "k3") s0 in
  en_safe_mode (ew_engine (demo_open reliable_io (ew_world s0))) = false /\
  fst run = Throw EBaseRevisionMoved /\ en_safe_mode (ew_engine (snd run)) = false /\
  let s1 := demo_open reliable_io (ew_world (snd run)) in
  en_safe_mode (ew_engine s1) = true /\ en_txs (ew_engine s1) = ∅.
Proof. cbv zeta. split_and!; vm_compute; reflexivity. Qed.

(** What a failed append does.  One call of the environment fails while
    a transaction is tested: the test is refused with a storage error, the
    engine stays out of safe mode, and its log is as it was.  The second try
    answers, but its record carries the number after the one that was used
    up: the next start finds a gap in the numbering and comes up in safe
    mode, with no transaction. *)
Theorem failed_append_bricks :
  let failing := fails_at (w_tick (ew_world demo_proposed)) in
  let first := @tx_test _ _ failing "agent" demo_md "tx-1" demo_proposed in
  let second := @tx_test _ _ reliable_io "agent" demo_md "tx-1" (snd first) in
  fst first = Throw (EStorage Io) /\ en_safe_mode (ew_engine (snd first)) = false /\
  w_fs (ew_world (snd first)) = w_fs (ew_world demo_proposed) /\
  fst second = Ret (mkStep "tx-1" WTesting) /\ en_safe_mode (ew_engine (snd second)) = false /\
  let s1 := demo_open reliable_io (ew_world (snd second)) in
  en_safe_mode (ew_engine s1) = true /\ en_txs (ew_engine s1) = ∅.
Proof. cbv zeta. split_and!; vm_compute; reflexivity. Qed.
