(* ===== verification/TxEvents.v ===== *)
(** * Broker: the event log and the digests

    An append is read back after everything before it; a cursor divides the
    log; a digest has one text and a text one digest. *)

From S2P Require Import Prelude RustStd Json TxTypes TxState TxStorage TxNames TxWalFacts.
From S2P Require Import TxEngine TxChain TxEngineFacts TxOpFacts TxDemo TxTheorems TxOpenTheorems.

(** ** Lines *)

Lemma strip_cr_plain l : last l <> Some CARRIAGE_RETURN -> strip_cr l = l.
Proof. unfold strip_cr. destruct (last l) as [c|]; [|done]. case_decide; [by subst|done]. Qed.

Lemma lines_from_line acc line rest :
  NEWLINE ∉ line -> last (acc ++ line) <> Some CARRIAGE_RETURN ->
  lines_from acc (line ++ NEWLINE :: rest) = (acc ++ line) :: lines_from [] rest.
Proof.
  revert acc. induction line as [|c line IH]; intros acc Hno Hlast.
  - rewrite app_nil_r in *. cbn [app lines_from]. by rewrite decide_True, strip_cr_plain.
  - apply not_elem_of_cons in Hno as [Hc Hno]. cbn [app lines_from]. rewrite decide_False by done.
    rewrite (IH (acc ++ [c])); [by rewrite <-app_assoc|done|by rewrite <-app_assoc].
Qed.

(** A text that ends where a line does. *)
Definition complete (text : list byte) : Prop := text = [] \/ last text = Some NEWLINE.

Lemma lines_from_app acc text rest :
  last text = Some NEWLINE -> lines_from acc (text ++ rest) = lines_from acc text ++ lines_from [] rest.
Proof.
  revert acc. induction text as [|c text IH]; intros acc Hl; [done|]. cbn [app lines_from].
  assert (Htail : text = [] -> c = NEWLINE) by (intros ->; by injection Hl).
  assert (Hrest : text <> [] -> last text = Some NEWLINE) by (intros Hne; by destruct text).
  destruct (decide (text = [])) as [->|Hne].
  - rewrite (Htail eq_refl), !decide_True by done. done.
  - specialize (Hrest Hne). case_decide; by rewrite IH.
Qed.

Lemma lines_snoc text line :
  complete text -> NEWLINE ∉ line -> last line <> Some CARRIAGE_RETURN ->
  lines (text ++ line ++ [NEWLINE]) = lines text ++ [line].
Proof.
  intros Hc Hno Hcr. unfold lines. assert (Hline : lines_from [] (line ++ [NEWLINE]) = [line])
    by (by rewrite (lines_from_line [] line []) by done).
  destruct Hc as [->|Hc]; [done|]. by rewrite lines_from_app, Hline.
Qed.

Lemma parse_lines_snoc `{JsonNumber} `{!BrokerCodec} ls line evs ev :
  parse_lines ls = Ok evs -> line <> [] -> event_from_str line = Some ev ->
  parse_lines (ls ++ [line]) = Ok (evs ++ [ev]).
Proof.
  revert evs. induction ls as [|l ls IH]; intros evs Hp Hne Hev.
  - injection Hp as <-. cbn [app parse_lines]. destruct line; [done|]. rewrite Hev. reflexivity.
  - cbn [app parse_lines] in *. destruct l as [|c l]; [by apply IH|].
    destruct (event_from_str (c :: l)) as [e|]; [|done]. revert Hp. cbn [ok_or]. run_ok.
    destruct (parse_lines ls) as [es|] eqn:Hls; run_ok; [|done]. intros [= <-].
    rewrite (IH es eq_refl Hne Hev). reflexivity.
Qed.

(** Well-formed UTF-8, one after the other. *)
Lemma utf8_ok_app a b : utf8_ok a = true -> utf8_ok b = true -> utf8_ok (a ++ b) = true.
Proof.
  intros Ha Hb. remember (length a) as n eqn:Hn. revert a Hn Ha.
  induction (lt_wf n) as [n _ IH]. intros a -> Ha.
  destruct a as [|b0 a]; [done|]. cbn [app utf8_ok] in *.
  destruct (byte_val b0 <=? 127); [apply (IH (length a)); [cbn; lia|done|done]|].
  destruct a as [|b1 a]; [done|]. cbn [app].
  destruct (in_bytes 194 223 b0).
  { apply andb_true_iff in Ha as [Hc Ha]. rewrite Hc. apply (IH (length a)); [cbn; lia|done|done]. }
  destruct a as [|b2 a]; [done|]. cbn [app]. destruct (in_bytes 224 239 b0).
  { rewrite !andb_true_iff in *. destruct Ha as [[Hc1 Hc2] Ha]. split; [done|].
    apply (IH (length a)); [cbn; lia|done|done]. }
  destruct a as [|b3 a]; [done|]. cbn [app]. rewrite !andb_true_iff in *.
  destruct Ha as [[[[? ?] ?] ?] Ha]. split; [done|]. apply (IH (length a)); [cbn; lia|done|done].
Qed.

(** ** Appending *)

Section Appending.
Context `{JsonNumber} `{!BrokerCodec} `{!BrokerCodecLaws} `{!IoEnv}.

Lemma wp_persist_meta_ok root meta (Q : outcome EventError unit -> TxWorld -> Prop) w :
  is_u64 (me_next_seq meta) ->
  (forall bs w', meta_from_str bs = Some meta -> utf8_ok bs = true ->
     fs_files (w_fs w') = <[meta_path root := bs]> (delete (meta_temp root) (fs_files (w_fs w))) ->
     Q (Ret tt) w') ->
  (forall e w', Q (Throw e) w') -> wp (persist_meta root meta) Q w.
Proof.
  intros Hmax HQ HT. unfold persist_meta. wp_simpl.
  destruct (meta_to_vec meta) as [bs|] eqn:Hb; cbn [ok_or]; [|apply HT]. wp_simpl.
  apply meta_roundtrip in Hb as [Hu Hb]; [|done].
  apply wp_write_all_and_sync; [|intros e w1 _; apply HT]. intros w1 Hw1. wp_simpl.
  apply wp_atomic_rename; [|intros e w2 _; apply HT]. intros fs w2 Hr Hw2.
  rewrite Hw1 in Hr. apply rename_put in Hr as ->. by apply (HQ bs); [| |rewrite Hw2].
Qed.

Lemma events_paths root :
  events_path root <> meta_path root /\ events_path root <> meta_temp root.
Proof. unfold events_path, meta_path, meta_temp, path_join. by split; intros ?%app_inv_head. Qed.

Lemma wp_events_write_ok l stored text (Q : outcome EventError unit -> TxWorld -> Prop) w :
  default [] (fs_files (w_fs w) !! events_path (el_root l)) = text ->
  is_u64 (me_next_seq (el_meta (bump_meta l))) ->
  (forall line bs w', event_to_string stored = Some line ->
     fs_files (w_fs w') !! events_path (el_root l) = Some (text ++ line ++ [NEWLINE]) ->
     fs_files (w_fs w') !! meta_path (el_root l) = Some bs ->
     meta_from_str bs = Some (el_meta (bump_meta l)) -> Q (Ret tt) w') ->
  (forall e w', Q (Throw e) w') -> wp (events_write l stored) Q w.
Proof.
  intros Htext Hmax HQ HT. unfold events_write, ev_io, open_append. wp_simpl.
  destruct (event_to_string stored) as [line|] eqn:Hline; cbn [ok_or]; [|apply HT]. wp_simpl.
  apply wp_io_call; [|apply HT]. intros a fs1 Ha. case_match; [|done]. injection Ha as <- <-. wp_simpl.
  rewrite Htext. apply wp_write_all; [intros k; apply HT|apply HT|]. wp_simpl.
  apply wp_sync_file. intros [[]|e|] w2 Hw2 Hp; [|by apply HT|done]. wp_simpl.
  destruct (events_paths (el_root l)) as [Hne1 Hne2].
  apply wp_persist_meta_ok; [done| |apply HT]. intros bs w3 Hb Hu Hf. apply (HQ line bs); [done|..|done].
  - rewrite Hf, lookup_insert_ne by done. rewrite lookup_delete_ne by done. rewrite Hw2. cbn.
    by rewrite !lookup_insert_eq.
  - by rewrite Hf, lookup_insert_eq.
Qed.

(** Reading, when the environment answers. *)
Lemma reads_back l text evs fs n cs :
  fs_files fs !! events_path (el_root l) = Some text -> utf8_ok text = true ->
  parse_lines (lines text) = Ok evs ->
  exists w', @read_all _ _ reliable_io l (mkWorld fs n cs) = (Ret evs, w') /\ w_fs w' = fs.
Proof.
  intros Hf Hu Hp.
  assert (Hwp : wp (@read_all _ _ reliable_io l) (fun o w' => o = Ret evs /\ w_fs w' = fs) (mkWorld fs n cs)).
  { unfold read_all, ev_io. rewrite wp_bind, (@wp_calm_exists TxCall reliable_io (fun _ => eq_refl)). unfold fs_exists.
    cbn [w_fs]. rewrite Hf, (bool_decide_eq_true_2 (is_Some _)) by done. cbn [orb negb].
    rewrite wp_bind, wp_mapping_err. apply (@wp_calm_read TxCall reliable_io (fun _ => eq_refl) _ text); [done|done|].
    rewrite wp_of_result, Hp. done. }
  unfold wp in Hwp. destruct (@read_all _ _ reliable_io l (mkWorld fs n cs)) as [o w'].
  destruct Hwp as [Ho Hw]. cbn in Ho, Hw. subst. by exists w'.
Qed.

(** The events are numbered 1, 2, 3, ... *)
Definition events_numbered (evs : list StoredEvent) : Prop :=
  forall i e, evs !! i = Some e -> ev_seq e = Z.of_nat i + 1.

Lemma check_integrity_spec meta evs :
  Z.of_nat (length evs) < u64_max ->
  check_integrity meta evs = Ok tt <-> me_next_seq meta = Z.of_nat (length evs) + 1 /\ events_numbered evs.
Proof.
  intros Hmax. unfold check_integrity.
  assert (Hseq : sequential_from 0 (ev_seq <$> evs) = true <-> events_numbered evs).
  { rewrite sequential_from_spec by (rewrite ?length_fmap; lia). unfold events_numbered. split.
    - intros Hs i e He. rewrite (Hs i (ev_seq e)); [lia|]. by rewrite list_lookup_fmap, He.
    - intros Hs i x Hx. rewrite list_lookup_fmap in Hx. destruct (evs !! i) as [e|] eqn:He; [|done].
      injection Hx as <-. rewrite (Hs _ _ He). lia. }
  assert (Hnext : events_numbered evs ->
    match last evs with Some event => u64_saturating_add (ev_seq event) 1 | None => 1 end =
    Z.of_nat (length evs) + 1).
  { intros Hs. destruct (last evs) as [e|] eqn:He; [|by apply last_None in He as ->].
    rewrite last_lookup in He. rewrite (Hs _ _ He). apply lookup_lt_Some in He.
    unfold u64_saturating_add. lia. }
  destruct (sequential_from 0 (ev_seq <$> evs)) eqn:E.
  - assert (Hs : events_numbered evs) by (by apply Hseq). rewrite Hnext by done.
    destruct (_ =? _) eqn:En; cbn [negb fail_if]; run_ok; bool_to_prop; split; try done; [intros [? _]; lia].
  - split; [destruct (negb (_ =? _)); cbn [negb fail_if]; by run_ok|].
    intros [_ Hs]. apply Hseq in Hs. done.
Qed.

(** The event log appends exactly.  From a log whose text is complete
    lines and whose numbering is unbroken, an append that succeeds stored the
    next number; the text grew by one line; reading it gives the events of
    before and the new one; the numbering is unbroken with the metadata in
    memory, and that metadata is what a restart reads. *)
Theorem event_append_reads_back l record text evs stored l' w w' :
  default [] (fs_files (w_fs w) !! events_path (el_root l)) = text ->
  complete text -> utf8_ok text = true -> parse_lines (lines text) = Ok evs ->
  check_integrity (el_meta l) evs = Ok tt -> Z.of_nat (length evs) + 2 <= u64_max ->
  events_append l record w = (Ret (E := EventError) (Ok stored, l'), w') ->
  stored = mkStored (me_next_seq (el_meta l)) (er_kind record) (er_payload record) /\
  (forall n cs, exists w2, @read_all _ _ reliable_io l' (mkWorld (w_fs w') n cs) = (Ret (evs ++ [stored]), w2)) /\
  check_integrity (el_meta l') (evs ++ [stored]) = Ok tt /\
  (exists line, fs_files (w_fs w') !! events_path (el_root l) = Some (text ++ line ++ [NEWLINE])) /\
  (exists bs, fs_files (w_fs w') !! meta_path (el_root l) = Some bs /\ meta_from_str bs = Some (el_meta l')).
Proof.
  intros Htext Hc Hu Hp Hint Hmax Hrun.
  apply check_integrity_spec in Hint as [Hnext Hnum]; [|lia].
  assert (Hbump : me_next_seq (el_meta (bump_meta l)) = Z.of_nat (length evs) + 2)
    by (cbn; rewrite Hnext; unfold u64_saturating_add; lia).
  revert Hrun. unfold events_append. set (st := mkStored _ _ _). intros Hrun.
  pattern (Ret (E := EventError) (Ok (E := EventError) stored, l')), w' in Hrun.
  enough (Hwp : wp (E := EventError) (r ← attempt (events_write l st);
      mret (match r with Ok _ => Ok st | Err e => Err e end, bump_meta l))
    (fun o w' => o = Ret (Ok stored, l') -> stored = st /\ l' = bump_meta l /\ exists line bs,
       event_to_string st = Some line /\
       fs_files (w_fs w') !! events_path (el_root l) = Some (text ++ line ++ [NEWLINE]) /\
       fs_files (w_fs w') !! meta_path (el_root l) = Some bs /\ meta_from_str bs = Some (el_meta l')) w).
  { destruct (wp_run _ _ _ _ _ Hwp Hrun eq_refl) as (-> & -> & line & bs & Hline & Hf & Hm & Hbs).
    apply event_roundtrip in Hline as (Hlu & Hlr & Hne & Hnl & Hcr); [|cbn; unfold is_u64; rewrite Hnext; lia].
    split; [done|]. split; [|split; [|split; [by exists line|by exists bs]]].
    - intros n cs. edestruct (reads_back (bump_meta l) (text ++ line ++ [NEWLINE]) (evs ++ [st]) (w_fs w') n cs) as (w2 & Hr & _);
        [exact Hf| | |by exists w2].
      + apply utf8_ok_app; [done|]. by apply utf8_ok_app.
      + rewrite lines_snoc by done. by apply parse_lines_snoc.
    - apply check_integrity_spec; rewrite length_app; cbn [length]; [lia|]. rewrite Hbump. split; [lia|].
      intros i e He. apply lookup_app_Some in He as [He|[Hge He]]; [by apply Hnum|].
      apply list_lookup_singleton_Some in He as [Hi <-]. cbn. rewrite Hnext. lia. }
  rewrite wp_bind, wp_attempt. eapply (wp_events_write_ok l st text); [done|unfold is_u64; lia| |].
  - intros line bs w1 Hline Hf Hm Hbs [= <- <-]. split_and!; [done|done|]. by exists line, bs.
  - intros e w1. rewrite wp_ret. done.
Qed.
End Appending.

Lemma event_append_reads_back_witness :
  let l := en_events (ew_engine demo_opened) in
  let w := ew_world demo_opened in
  let record := mkEventRecord "tx.state" (state_payload "tx-1" WProposed) in
  let run := @events_append _ _ reliable_io l record w in
  exists stored l', fst run = Ret (Ok stored, l') /\ ev_seq stored = 1 /\
    forall n cs, exists w2, @read_all _ _ reliable_io l' (mkWorld (w_fs (snd run)) n cs) = (Ret [stored], w2).
Proof.
  intros l w record run.
  assert (Hret : fst run = Ret (Ok (mkStored 1 "tx.state" (state_payload "tx-1" WProposed)), bump_meta l))
    by (vm_compute; reflexivity).
  eexists _, _. split; [exact Hret|]. split; [reflexivity|].
  destruct (@event_append_reads_back _ _ _ reliable_io l record [] [] _ _ w (snd run)
    ltac:(vm_compute; reflexivity) ltac:(left; reflexivity) ltac:(reflexivity) ltac:(reflexivity)
    ltac:(vm_compute; reflexivity) ltac:(vm_compute; discriminate) (run_is _ _ _ Hret)) as (_ & Hread & _).
  exact Hread.
Defined.

(** ** Replaying *)

Section Replaying.
Context `{JsonNumber} `{!BrokerCodec} `{!IoEnv}.

Lemma filter_after evs k c :
  (forall i e, evs !! i = Some e -> ev_seq e = Z.of_nat (k + i) + 1) -> 0 <= c ->
  filter (fun e => c < ev_seq e) evs = drop (Z.to_nat c - k) evs.
Proof.
  revert k. induction evs as [|e evs IH]; intros k Hn Hc; [by rewrite drop_nil|].
  pose proof (Hn 0%nat e eq_refl) as He. rewrite filter_cons.
  assert (Hrec : filter (fun e => c < ev_seq e) evs = drop (Z.to_nat c - S k) evs).
  { apply IH; [|done]. intros i x Hx. rewrite (Hn (S i) x Hx). lia. }
  rewrite Hrec. case_decide as Hlt.
  - replace (Z.to_nat c - k)%nat with 0%nat by lia. by replace (Z.to_nat c - S k)%nat with 0%nat by lia.
  - replace (Z.to_nat c - k)%nat with (S (Z.to_nat c - S k)) by lia. done.
Qed.

(** A replay is the part of the log after the cursor.  In any
    environment, a replay that answers was asked with a cursor of this very
    log, and gives the events numbered after it; over a log whose numbering
    is unbroken, what it gives is the log without its first events, as many
    as the cursor says, so that replays from the cursors it hands out miss
    and repeat nothing. *)
Theorem replay_divides_log l c w out w' :
  0 <= cu_seq c -> replay l c w = (Ret out, w') ->
  cu_log_id c = me_log_id (el_meta l) /\
  exists evs w1, read_all l w = (Ret evs, w1) /\ out = filter (fun e => cu_seq c < ev_seq e) evs /\
    (Z.of_nat (length evs) < u64_max -> check_integrity (el_meta l) evs = Ok tt ->
       out = drop (Z.to_nat (cu_seq c)) evs /\ evs = take (Z.to_nat (cu_seq c)) evs ++ out /\
       filter (fun e => cu_seq (latest_cursor l) < ev_seq e) evs = []).
Proof.
  intros Hc Hrun.
  enough (Hwp : wp (replay l c) (fun o _ => match o with
    | Ret out => cu_log_id c = me_log_id (el_meta l) /\
        exists evs w1, read_all l w = (Ret evs, w1) /\ out = filter (fun e => cu_seq c < ev_seq e) evs
    | _ => True end) w).
  { apply (wp_run _ _ _ _ _ Hwp) in Hrun as (Hid & evs & w1 & Hread & ->). split; [done|].
    exists evs, w1. split_and!; [done|done|]. intros Hmax Hint.
    apply check_integrity_spec in Hint as [Hnext Hnum]; [|done].
    pose proof (filter_after evs 0 (cu_seq c) Hnum Hc) as Hx1. rewrite Nat.sub_0_r in Hx1. rewrite Hx1.
    split_and!; [done|by rewrite take_drop|].
    unfold latest_cursor. cbn [cu_seq]. rewrite Hnext.
    rewrite (filter_after evs 0) by (try done; unfold u64_saturating_sub; lia).
    apply drop_ge. unfold u64_saturating_sub. lia. }
  unfold replay. rewrite wp_bind, wp_of_result. destruct (validate_log_id _) as [[]|]; [|done].
  rewrite wp_bind, wp_throw_if. case_bool_decide as Hid; [done|].
  rewrite wp_bind. apply wp_any. intros [evs|e|] w1 Hr; [|done|done].
  rewrite wp_bind, wp_throw_if. destruct (_ && _)%bool; [done|]. rewrite wp_ret.
  split; [by destruct (decide (cu_log_id c = me_log_id (el_meta l)))|]. exists evs, w1. by split.
Qed.
End Replaying.

Lemma replay_divides_log_witness :
  let l := en_events (ew_engine demo_tested) in
  let run := @replay _ _ reliable_io l (mkCursor "log-1" 1) (ew_world demo_tested) in
  exists out, fst run = Ret out /\ ev_seq <$> out = [2] /\
    exists evs, out = filter (fun e => 1 < ev_seq e) evs.
Proof.
  intros l run.
  assert (Hret : fst run = Ret [mkStored 2 "tx.state" (state_payload "tx-1" WTesting)]) by (vm_compute; reflexivity).
  eexists. split; [exact Hret|]. split; [reflexivity|].
  destruct (@replay_divides_log _ _ reliable_io l (mkCursor "log-1" 1) (ew_world demo_tested) _ _
    ltac:(discriminate) (run_is _ _ _ Hret)) as (_ & evs & w1 & _ & Hout & _).
  exists evs. exact Hout.
Defined.

(** ** Digests *)

Lemma split_once_spec sep s a b : split_once sep s = Some (a, b) -> s = a +:+ String sep b.
Proof.
  revert a b. induction s as [|c s IH]; intros a b; [done|]. cbn [split_once]. case_decide as Hc.
  - intros [= <- <-]. by subst.
  - destruct (split_once sep s) as [[a' b']|] eqn:Hs; cbn [mbind option_bind]; [|done].
    intros [= <- <-]. by rewrite (IH a' b').
Qed.

Lemma hex_value_inv c v : hex_value c = Some v -> 0 <= v < 16 /\ hex_char v = c.
Proof.
  intros Hv. assert (Hall : forallb (fun n => match hex_value (Ascii.ascii_of_nat n) with
    | Some v => (0 <=? v) && (v <? 16) && bool_decide (hex_char v = Ascii.ascii_of_nat n)
    | None => true end) (seq 0 256) = true) by (vm_compute; reflexivity).
  rewrite forallb_forall in Hall. specialize (Hall (Ascii.nat_of_ascii c)).
  rewrite Ascii.ascii_nat_embedding, Hv in Hall.
  assert (Hin : In (Ascii.nat_of_ascii c) (seq 0 256)).
  { apply in_seq. split; [lia|]. apply Ascii.nat_ascii_bounded. }
  apply Hall in Hin. rewrite !andb_true_iff in Hin. destruct Hin as [[Hx1 Hx2] Hx3].
  apply bool_decide_eq_true in Hx3. bool_to_prop. split; [lia|done].
Qed.

Lemma parse_hex_text s bs : parse_hex_pairs s = Some bs -> s = String.concat "" (map byte_hex bs).
Proof.
  revert s. induction bs as [|b bs IH]; intros s Hs.
  - destruct s as [|h [|l s]]; [done|done|]. cbn in Hs. destruct (hex_value h), (hex_value l); cbn in Hs; try done.
    by destruct (parse_hex_pairs s).
  - destruct s as [|h [|l s]]; [done|done|]. cbn in Hs.
    destruct (hex_value h) as [vh|] eqn:Hh; [|done]. destruct (hex_value l) as [vl|] eqn:Hl; [|done].
    cbn in Hs. destruct (parse_hex_pairs s) as [bs'|] eqn:E; [|done]. injection Hs as <- <-.
    apply hex_value_inv in Hh as [Hvh <-], Hl as [Hvl <-]. rewrite (IH s E) at 1.
    assert (Hb : byte_val (byte_of (vh * 16 + vl)) = vh * 16 + vl) by (rewrite byte_val_of; apply Z.mod_small; lia).
    assert (Hc : String.concat "" (map byte_hex (byte_of (vh * 16 + vl) :: bs')) =
                 byte_hex (byte_of (vh * 16 + vl)) +:+ String.concat "" (map byte_hex bs')) by (by destruct bs').
    rewrite Hc. unfold byte_hex. rewrite Hb, Z.div_add_l, Z.div_small, Z.add_0_r by lia.
    rewrite Z.add_comm, Z.mod_add, Z.mod_small by lia. done.
Qed.

(** A digest has exactly one text.  A text is read as a digest exactly
    when it is the text that digest is written as: the tag, a colon, and its
    32 bytes in lowercase hexadecimal; so two texts never name one digest,
    and no text names two. *)
Theorem digest_text_exact raw d :
  digest_deserialize raw = Ok d <-> raw = digest_fmt d /\ length (dg_bytes d) = 32%nat.
Proof.
  split.
  - intros Hd. pose proof (digest_parsed_length _ _ Hd) as [Hlen _]. split; [|done].
    unfold digest_deserialize in Hd. destruct (split_once COLON raw) as [[a hex]|] eqn:Hs; [|done].
    apply split_once_spec in Hs as ->. cbn [ok_or] in Hd. revert Hd. run_ok.
    destruct (decide (a = "sha256")) as [->|Hne].
    2: { rewrite bool_decide_eq_true_2 by done. cbn [fail_if]. by run_ok. }
    rewrite bool_decide_neq_refl. cbn [fail_if]. run_ok.
    destruct (negb _); cbn [fail_if]; run_ok; [done|].
    destruct (parse_hex_pairs hex) as [bs|] eqn:Hp; cbn [ok_or]; run_ok; [|done]. intros [= <-].
    apply parse_hex_text in Hp as ->. done.
  - intros [-> Hlen]. destruct d as [[] bytes]. by apply digest_roundtrip_lemma.
Qed.
