(* ===== verification/Reading.v ===== *)
(** * Computations that only read

    A computation [reads] when files and calls are as before whatever comes
    of it; the two readers of the engine are made of such. *)

From S2P Require Import Prelude RustStd Json TxTypes TxStorage.

Section Readers.
Context {C : Type} `{!IoEnv}.

(** Files and calls stay, whatever comes of it. *)
Definition reads {E A} (m : M (World C) E A) : Prop :=
  forall w, wp m (fun _ w' => w_fs w' = w_fs w /\ w_calls w' = w_calls w) w.

Lemma reads_ret {E A} (a : A) : reads (E:=E) (mret a).
Proof. done. Qed.
Lemma reads_throw_if {E} c (e : E) : reads (throw_if c e).
Proof. intros w. wp_simpl. by destruct c. Qed.
Lemma reads_of_result {E A} (r : result E A) : reads (of_result r).
Proof. intros w. wp_simpl. by destruct r. Qed.
Lemma reads_bind {E A B} (m : M (World C) E A) (f : A -> M (World C) E B) :
  reads m -> (forall a, reads (f a)) -> reads (m ≫= f).
Proof.
  intros Hm Hf w. wp_simpl. eapply wp_mono; [apply Hm|]. intros [a|e|] w1 [H1 H2]; [|done|done].
  eapply wp_mono; [apply Hf|]. intros o w2 [H3 H4]. split; congruence.
Qed.
Lemma reads_mapping_err {E F A} (f : E -> F) (m : M (World C) E A) : reads m -> reads (mapping_err f m).
Proof. intros Hm w. wp_simpl. eapply wp_mono; [apply Hm|]. by intros [] w1 Hw. Qed.
Lemma reads_path_exists {E} p : reads (E:=E) (path_exists p).
Proof. intros w. by rewrite wp_path_exists. Qed.
Lemma reads_read_to_string p : reads (fs_read_to_string p).
Proof.
  intros w. unfold fs_read_to_string. apply wp_io_call; [|done]. intros bs fs Hr. cbn in Hr.
  destruct (fs_files (w_fs w) !! p) as [raw|]; cbn in Hr; [|done].
  destruct (utf8_ok raw); [|done]. by injection Hr as <- <-.
Qed.
End Readers.

(** Walk the structure of a computation that reads. *)
Ltac reads :=
  repeat first
    [ apply reads_ret | apply reads_throw_if | apply reads_of_result | apply reads_path_exists
    | apply reads_read_to_string | apply reads_mapping_err
    | apply reads_bind; [|intros ?]
    | match goal with |- reads (if ?c then _ else _) => destruct c end ].

Lemma reads_replay `{JsonNumber, !BrokerCodec, !IoEnv} l cursor : reads (replay l cursor).
Proof. unfold replay, read_all, ev_io. reads. Qed.
