(* ===== verification/Steps.v ===== *)
(** * Programs as sequences of atomic steps

    A request of the broker runs on a thread of its own.  It takes locks
    briefly, one after another, and other threads run in between.  [Prog]
    writes such a computation as the steps it takes: what it does next is a
    computation of [M] that nothing interrupts, and what follows depends on
    its outcome.

    [alone] is the run in which nobody interferes, and [implements] says that
    it is a given computation.  [trail] lists the states others can observe,
    and [quiet] says that there is nothing to see. *)

From S2P Require Import Prelude.

Inductive Prog (S E A : Type) : Type :=
  | PDone (o : outcome E A)
  | PStep {F B : Type} (m : M S F B) (k : outcome F B -> Prog S E A).
Arguments PDone {S E A} o.
Arguments PStep {S E A F B} m k.

Definition step {S E A} (m : M S E A) : Prog S E A := PStep m PDone.

#[export] Instance Prog_ret {S E} : MRet (Prog S E) := fun A a => PDone (Ret a).
#[export] Instance Prog_bind {S E} : MBind (Prog S E) := fun A B f =>
  fix go p :=
    match p with
    | PDone (Ret a) => f a
    | PDone (Throw e) => PDone (Throw e)
    | PDone Panic => PDone Panic
    | PStep m k => PStep m (fun o => go (k o))
    end.

Section Constructs.
Context {S E F A B : Type}.
Implicit Types (p : Prog S E A) (s : S).

Definition pthrow (e : E) : Prog S E A := PDone (Throw e).

(** [expr?] on a value of the thread's own *)
Definition presult (r : result E A) : Prog S E A :=
  match r with Ok a => PDone (Ret a) | Err e => PDone (Throw e) end.

Definition pthrow_if (cond : bool) (e : E) : Prog S E unit :=
  if cond then PDone (Throw e) else PDone (Ret tt).

(** Look at the [Result] of a call. *)
Fixpoint pattempt p : Prog S F (result E A) :=
  match p with
  | PDone (Ret a) => PDone (Ret (Ok a))
  | PDone (Throw e) => PDone (Ret (Err e))
  | PDone Panic => PDone Panic
  | PStep m k => PStep m (fun o => pattempt (k o))
  end.

(** ** Running alone, and what others see of it *)

Fixpoint alone p : M S E A := fun s =>
  match p with
  | PDone o => (o, s)
  | PStep m k => let '(o, s') := m s in alone (k o) s'
  end.

Fixpoint trail p s : list S :=
  match p with
  | PDone _ => []
  | PStep m k => let '(o, s') := m s in s' :: trail (k o) s'
  end.

Definition final p s : S := snd (alone p s).

(** Every step keeps what the relation [R] compares. *)
Fixpoint quiet (R : S -> S -> Prop) p : Prop :=
  match p with
  | PDone _ => True
  | PStep m k => (forall s, R s (snd (m s))) /\ forall o, quiet R (k o)
  end.
End Constructs.

Definition implements {S E A} (p : Prog S E A) (m : M S E A) : Prop := forall s, alone p s = m s.

Create HintDb steps.

(** The first computation of a chain, run. *)
Section Run.
Context {S E A B : Type}.

Lemma run_gets (f : S -> A) (g : A -> M S E B) s : (gets f ≫= g) s = g (f s) s.
Proof. done. Qed.

Lemma run_modify (f : S -> S) (g : unit -> M S E B) s : (modify f ≫= g) s = g tt (f s).
Proof. done. Qed.

Lemma run_throw_if_true (e : E) (g : unit -> M S E B) s :
  (throw_if true e ≫= g) s = (Throw e, s).
Proof. done. Qed.

Lemma run_throw_if_false (e : E) (g : unit -> M S E B) s : (throw_if false e ≫= g) s = g tt s.
Proof. done. Qed.
End Run.

Section Facts.
Context {S E : Type}.

Lemma alone_bind {A B} (p : Prog S E A) (f : A -> Prog S E B) s :
  alone (p ≫= f) s =
  match alone p s with
  | (Ret a, s') => alone (f a) s'
  | (Throw e, s') => (Throw e, s')
  | (Panic, s') => (Panic, s')
  end.
Proof.
  revert s. induction p as [[a|e|]|F C m k IH]; intros s; [done..|].
  cbn. destruct (m s) as [o s']. apply IH.
Qed.

Lemma trail_bind {A B} (p : Prog S E A) (f : A -> Prog S E B) s :
  trail (p ≫= f) s =
  trail p s ++ match alone p s with (Ret a, s') => trail (f a) s' | _ => [] end.
Proof.
  revert s. induction p as [[a|e|]|F C m k IH]; intros s; [done..|].
  cbn. destruct (m s) as [o s']. cbn. f_equal. apply IH.
Qed.

Lemma alone_attempt {F A} (p : Prog S E A) s : alone (pattempt (F:=F) p) s = attempt (alone p) s.
Proof.
  revert s. induction p as [[a|e|]|? C m k IH]; intros s; [done..|].
  cbn [pattempt alone]. unfold attempt in *. cbn [alone]. destruct (m s) as [o s']. apply IH.
Qed.

Lemma trail_attempt {F A} (p : Prog S E A) s : trail (pattempt (F:=F) p) s = trail p s.
Proof.
  revert s. induction p as [[a|e|]|? C m k IH]; intros s; [done..|].
  cbn [pattempt trail]. destruct (m s) as [o s']. by rewrite IH.
Qed.

Lemma alone_step {A} (m : M S E A) s : alone (step m) s = m s.
Proof. unfold step. cbn. by destruct (m s). Qed.

Lemma trail_step {A} (m : M S E A) s : trail (step m) s = [snd (m s)].
Proof. unfold step. cbn. by destruct (m s). Qed.

(** ** A program implements a computation piece by piece *)

Lemma implements_step {A} (m : M S E A) : implements (step m) m.
Proof. intros s. apply alone_step. Qed.

Lemma implements_ret {A} (a : A) : implements (S:=S) (E:=E) (mret a) (mret a).
Proof. done. Qed.

Lemma implements_throw {A} (e : E) : implements (S:=S) (A:=A) (pthrow e) (throw e).
Proof. done. Qed.

Lemma implements_result {A} (r : result E A) : implements (S:=S) (presult r) (of_result r).
Proof. by destruct r. Qed.

Lemma implements_throw_if cond (e : E) : implements (S:=S) (pthrow_if cond e) (throw_if cond e).
Proof. by destruct cond. Qed.

Lemma implements_attempt {F A} (p : Prog S E A) m :
  implements p m -> implements (pattempt (F:=F) p) (attempt m).
Proof. intros Hp s. rewrite alone_attempt. unfold attempt. by rewrite Hp. Qed.

Lemma implements_bind {A B} (p : Prog S E A) m (f : A -> Prog S E B) g :
  implements p m -> (forall a, implements (f a) (g a)) -> implements (p ≫= f) (m ≫= g).
Proof.
  intros Hp Hf s. rewrite alone_bind, Hp. unfold mbind, M_bind.
  destruct (m s) as [[a|e|] s']; [apply Hf|done|done].
Qed.

(** A run alone takes the states of its trail. *)
Lemma trail_last {A} (p : Prog S E A) s : last (s :: trail p s) = Some (final p s).
Proof.
  revert s. induction p as [o|F B m k IH]; intros s; [done|].
  unfold final. cbn [trail alone]. destruct (m s) as [o s']. apply (IH o s').
Qed.

Lemma final_step {A F B} (m : M S F B) (k : outcome F B -> Prog S E A) s :
  final (PStep m k) s = final (k (fst (m s))) (snd (m s)).
Proof. unfold final. cbn. by destruct (m s). Qed.

Lemma final_bind {A B} (p : Prog S E A) (f : A -> Prog S E B) s :
  final (p ≫= f) s =
  match fst (alone p s) with Ret a => final (f a) (final p s) | _ => final p s end.
Proof. unfold final. rewrite alone_bind. by destruct (alone p s) as [[a|e|] s']. Qed.

Lemma final_attempt {F A} (p : Prog S E A) s : final (pattempt (F:=F) p) s = final p s.
Proof. unfold final. rewrite alone_attempt. unfold attempt. by destruct (alone p s) as [[] ?]. Qed.

(** ** Programs that change nothing others look at *)

Section Quiet.
Context (R : S -> S -> Prop).

Lemma quiet_step {A} (m : M S E A) : (forall s, R s (snd (m s))) -> quiet R (step m).
Proof. by intros Hm. Qed.

Lemma quiet_bind {A B} (p : Prog S E A) (f : A -> Prog S E B) :
  quiet R p -> (forall a, quiet R (f a)) -> quiet R (p ≫= f).
Proof.
  intros Hp Hf. induction p as [[a|e|]|F C m k IH]; [by apply Hf|done|done|].
  destruct Hp as [Hm Hk]. split; [done|]. intros o. apply IH, Hk.
Qed.

Lemma quiet_result {A} (r : result E A) : quiet R (presult r).
Proof. by destruct r. Qed.

Lemma quiet_ret {A} (a : A) : quiet (E:=E) R (mret a).
Proof. done. Qed.
End Quiet.
End Facts.

#[export] Hint Resolve implements_step implements_ret implements_throw implements_result
  implements_throw_if implements_attempt quiet_ret quiet_result : steps.

(** Follow the structure of a program and of the computation it implements. *)
Ltac implement :=
  repeat first
    [ solve [eauto with steps]
    | apply implements_bind; [try solve [eauto with steps]|intros ?]
    | case_match ].

(** ** What others can observe on the way

    [obs] is what the other threads look at; a state is [bad] when nobody is
    told any more.  A program [stays] when the others see it as it was from
    the beginning to the end, and [settles] when they see it as it was at the
    beginning or as it is at the end, whichever step it is at - unless the
    run ends badly. *)
Section Settling.
Context {S T : Type} (obs : S -> T) (bad : S -> bool).

Definition sticky {E A} (p : Prog S E A) : Prop :=
  forall s, bad s = true -> bad (final p s) = true.

Definition stays {E A} (p : Prog S E A) : Prop :=
  forall s, bad (final p s) = false ->
  bad s = false /\ Forall (fun c => bad c = false /\ obs c = obs s) (trail p s).

Definition settles {E A} (p : Prog S E A) : Prop :=
  forall s, bad (final p s) = false ->
  bad s = false /\
  Forall (fun c => bad c = false /\ (obs c = obs s \/ obs c = obs (final p s))) (trail p s).

Lemma final_in_trail {E A} (p : Prog S E A) (P : S -> Prop) s :
  P s -> Forall P (trail p s) -> P (final p s).
Proof.
  intros Hs Ht. pose proof (trail_last p s) as Hl.
  apply last_Some_elem_of in Hl. apply (Forall_forall P (s :: trail p s)); [|done]. by constructor.
Qed.

Lemma stays_final {E A} (p : Prog S E A) s :
  stays p -> bad (final p s) = false -> obs (final p s) = obs s.
Proof.
  intros Hp Hb. destruct (Hp s Hb) as [Hs Ht].
  exact (proj2 (final_in_trail p (fun c => bad c = false /\ obs c = obs s) s (conj Hs eq_refl) Ht)).
Qed.

Lemma settles_sticky {E A} (p : Prog S E A) : settles p -> sticky p.
Proof.
  intros Hp s Hs. destruct (bad (final p s)) eqn:Hf; [done|].
  destruct (Hp s Hf) as [Hn _]. congruence.
Qed.

Lemma stays_settles {E A} (p : Prog S E A) : stays p -> settles p.
Proof.
  intros Hp s Hf. destruct (Hp s Hf) as [Hs Ht]. split; [done|].
  eapply Forall_impl; [exact Ht|]. naive_solver.
Qed.

Lemma stays_sticky {E A} (p : Prog S E A) : stays p -> sticky p.
Proof. intros Hp. by apply settles_sticky, stays_settles. Qed.

Lemma stays_done {E A} (o : outcome E A) : stays (PDone o).
Proof. intros s Hs. split; [done|constructor]. Qed.

Lemma sticky_step {E A} (m : M S E A) :
  (forall s, bad s = true -> bad (snd (m s)) = true) -> sticky (step m).
Proof. intros Hm s Hs. unfold final. rewrite alone_step. by apply Hm. Qed.

Lemma stays_step {E A} (m : M S E A) :
  (forall s, bad (snd (m s)) = false -> bad s = false /\ obs (snd (m s)) = obs s) ->
  stays (step m).
Proof.
  intros Hm s Hf. unfold final in Hf. rewrite alone_step in Hf. destruct (Hm s Hf) as [Hs Ho].
  split; [done|]. rewrite trail_step. by repeat constructor.
Qed.

Lemma settles_step {E A} (m : M S E A) :
  (forall s, bad (snd (m s)) = false -> bad s = false) -> settles (step m).
Proof.
  intros Hm s Hf. unfold final in *. rewrite alone_step in *. split; [by apply Hm|].
  rewrite trail_step. constructor; [auto|constructor].
Qed.

Lemma sticky_bind {E A B} (p : Prog S E A) (f : A -> Prog S E B) :
  sticky p -> (forall a, sticky (f a)) -> sticky (p ≫= f).
Proof.
  intros Hp Hf s Hs. rewrite final_bind. destruct (fst (alone p s)); [|auto..].
  apply Hf. auto.
Qed.

(** A continuation that begins in a bad state ends in one, so only the
    outcomes of a good run matter. *)
Lemma stays_bind_good {E A B} (p : Prog S E A) (f : A -> Prog S E B) :
  stays p -> (forall a, sticky (f a)) ->
  (forall s a, fst (alone p s) = Ret a -> bad (final p s) = false -> stays (f a)) ->
  stays (p ≫= f).
Proof.
  intros Hp Hsticky Hf s Hfin. rewrite final_bind in Hfin.
  rewrite trail_bind. destruct (alone p s) as [o s'] eqn:Ha. cbn [fst] in Hfin.
  assert (Hs' : final p s = s') by (unfold final; by rewrite Ha). rewrite Hs' in Hfin.
  assert (Hgood : bad s' = false).
  { destruct o as [a|e|]; [|done..]. destruct (bad s') eqn:Hb; [|done].
    apply (Hsticky a) in Hb. congruence. }
  rewrite <-Hs' in Hgood. destruct (Hp s Hgood) as [Hs Ht]. split; [done|].
  apply Forall_app. split; [done|]. destruct o as [a|e|]; [|constructor..].
  pose proof (Hf s a ltac:(by rewrite Ha) Hgood s' Hfin) as [_ Hfa].
  eapply Forall_impl; [exact Hfa|]. intros c [Hc ->]. split; [done|].
  rewrite <-Hs'. by apply stays_final.
Qed.

Lemma stays_bind {E A B} (p : Prog S E A) (f : A -> Prog S E B) :
  stays p -> (forall a, stays (f a)) -> stays (p ≫= f).
Proof. intros Hp Hf. apply stays_bind_good; [done| |done]. intros a. by apply stays_sticky. Qed.

Lemma stays_attempt {E F A} (p : Prog S E A) : stays p -> stays (pattempt (F:=F) p).
Proof. intros Hp s. rewrite final_attempt, trail_attempt. apply Hp. Qed.

Lemma settles_bind_l {E A B} (p : Prog S E A) (f : A -> Prog S E B) :
  stays p -> (forall a, settles (f a)) -> settles (p ≫= f).
Proof.
  intros Hp Hf s Hfin. rewrite final_bind in Hfin |- *.
  rewrite trail_bind. destruct (alone p s) as [o s'] eqn:Ha. cbn [fst] in *.
  assert (Hs' : final p s = s') by (unfold final; by rewrite Ha). rewrite Hs' in *.
  assert (Hgood : bad (final p s) = false).
  { rewrite Hs'. destruct o as [a|e|]; [|done..]. by destruct (Hf a s' Hfin). }
  destruct (Hp s Hgood) as [Hs Ht]. pose proof (stays_final p s Hp Hgood) as Hobs.
  rewrite Hs' in Hobs. split; [done|]. apply Forall_app. split.
  - eapply Forall_impl; [exact Ht|]. naive_solver.
  - destruct o as [a|e|]; [|constructor..]. destruct (Hf a s' Hfin) as [_ Hfa].
    by rewrite <-Hobs.
Qed.

Lemma settles_bind_r_good {E A B} (p : Prog S E A) (f : A -> Prog S E B) :
  settles p -> (forall a, sticky (f a)) ->
  (forall s a, fst (alone p s) = Ret a -> bad (final p s) = false -> stays (f a)) ->
  settles (p ≫= f).
Proof.
  intros Hp Hsticky Hf s Hfin. rewrite final_bind in Hfin |- *.
  rewrite trail_bind. destruct (alone p s) as [o s'] eqn:Ha. cbn [fst] in *.
  assert (Hs' : final p s = s') by (unfold final; by rewrite Ha). rewrite Hs' in *.
  assert (Hgood : bad s' = false).
  { destruct o as [a|e|]; [|done..]. destruct (bad s') eqn:Hb; [|done].
    apply (Hsticky a) in Hb. congruence. }
  destruct (Hp s ltac:(by rewrite Hs')) as [Hs Ht]. split; [done|].
  destruct o as [a|e|]; [|rewrite Hs' in Ht; rewrite app_nil_r; done..].
  assert (Hstay : stays (f a)) by (apply (Hf s a); [by rewrite Ha|by rewrite Hs']).
  rewrite (stays_final _ s' Hstay Hfin). apply Forall_app. split; [by rewrite Hs' in Ht|].
  destruct (Hstay s' Hfin) as [_ Hfa]. eapply Forall_impl; [exact Hfa|]. naive_solver.
Qed.

Lemma settles_bind_r {E A B} (p : Prog S E A) (f : A -> Prog S E B) :
  settles p -> (forall a, stays (f a)) -> settles (p ≫= f).
Proof.
  intros Hp Hf. apply settles_bind_r_good; [done| |done]. intros a. by apply stays_sticky.
Qed.
End Settling.
