(* ===== verification/EngineSteps.v ===== *)
(** * The engine's operations, lock by lock

    [transaction/engine.rs] again, with each use of an inner mutex ([wal],
    [txs], [next_seq], [safe_mode], the entries of the idempotency store, the
    metadata of the event log) as one step, and so each call on the host.
    What runs between two locks is the thread's own.

    The record of a transition is appended under the lock of the log; the
    files of the write-ahead log and of the idempotency store are touched
    under [dm_lock] only, so a step may hold all of their calls.  An event is
    appended under the lock of its metadata, which [replay] takes too.

    Alone, the steps of an operation are the operation of [TxEngine]. *)

From S2P Require Import Prelude RustStd Json TxTypes TxStorage TxEngine Steps.

Section EngineSteps.
Context `{JsonNumber} `{!BrokerCodec} `{!IoEnv} `{!HostAdapter}.

Abbreviation Op := (M EngineW EngineError).
Abbreviation Steps := (Prog EngineW EngineError).

(** ** The locks, one at a time *)

(** [*self.safe_mode.lock()] *)
Definition read_safe_mode : Op bool := e ← get_engine; mret (en_safe_mode e).

(** The block that counts [next_seq] up. *)
Definition take_seq : Op Z :=
  e ← get_engine;
  let seq := u64_saturating_add (en_next_seq e) 1 in
  modify_engine (set_next_seq seq);;
  mret seq.

(** [EventLog::append] under the lock of the metadata *)
Definition announce (tx_id : TxId) (state : WireState) : Op (result EventError StoredEvent) :=
  e ← get_engine;
  '(r, events) ← mapping_err (fun _ => ESafeMode) (on_disk (events_append (en_events e)
                   (mkEventRecord "tx.state" (state_payload tx_id state))));
  modify_engine (set_events events);;
  mret r.

Definition write_mode : Op unit :=
  e ← get_engine;
  _ ← attempt (on_disk (fs_write (path_join (en_state_root e) ["broker_mode.json"]) BROKER_MODE));
  mret tt.

Definition put_snapshot (tx_id : TxId) (snap : TxSnapshot) : Op unit :=
  modify_engine (fun e => set_txs (<[tx_id := snap]> (en_txs e)) e).

Definition get_binding (key : string) : Op (option IdempotencyRecord) :=
  e ← get_engine; mret (idem_get (en_idempotency e) key).

Definition log_id : Op string := e ← get_engine; mret (me_log_id (el_meta (en_events e))).

(** ** The helpers *)

Definition ensure_dm_allowed_steps : Steps unit :=
  safe ← step read_safe_mode;
  pthrow_if safe ESafeMode.

Definition enter_safe_mode_steps : Steps unit :=
  step (modify_engine (set_engine_safe_mode true));;
  step write_mode.

Definition persist_transition_steps (tx_id : TxId) (state : WireState)
    (idempotency_key idem_fingerprint : option string) (agent_id : string)
    (manifest_digest : Digest) (base_revision : BaseRevision)
    (effect_set : list EffectClass) (diff : string) (affected_resources : list string)
    (result_json : option string) : Steps Z :=
  safe ← step read_safe_mode;
  pthrow_if safe ESafeMode;;
  seq ← step take_seq;
  let record :=
    {| wr_record_version := 1; wr_seq := seq; wr_tx_id := tx_id; wr_state := state;
       wr_idempotency_key := idempotency_key; wr_idem_fingerprint := idem_fingerprint;
       wr_agent_id := agent_id; wr_manifest_digest := manifest_digest;
       wr_base_revision := base_revision; wr_effect_set := effect_set; wr_diff := diff;
       wr_affected_resources := affected_resources; wr_approval_ref := None;
       wr_result_json := result_json |} in
  step (on_wal (fun wal => append_transition wal record));;
  step (put_snapshot tx_id (snapshot_of record));;
  mret seq.

Definition rollback_transition_steps (tx_id : TxId) (seq : Z) : Steps unit :=
  step (on_wal (fun wal => revert_last_transition wal seq));;
  step (modify_engine (fun e => set_txs (delete tx_id (en_txs e)) e));;
  step (modify_engine (set_next_seq (u64_saturating_sub seq 1)));;
  enter_safe_mode_steps.

Definition append_state_event_steps (tx_id : TxId) (state : WireState) : Steps unit :=
  r ← step (announce tx_id state);
  match r with
  | Ok _ => mret tt
  | Err _ => enter_safe_mode_steps;; pthrow ESafeMode
  end.

Definition check_binding_steps {A} (key fingerprint : string)
    (replay : IdempotencyRecord -> result EngineError A) (fresh : Steps A) : Steps A :=
  found ← step (get_binding key);
  match found with
  | Some entry =>
      pthrow_if (bool_decide (id_fingerprint entry <> fingerprint)) EIdempotencyConflict;;
      presult (replay entry)
  | None => fresh
  end.

(** ** The operations *)

Definition config_propose_steps (agent_id manifest_digest : string)
    (params : ConfigProposeParams) : Steps ConfigProposeOutcome :=
  ensure_dm_allowed_steps;;
  let key := idem_key agent_id "config.propose" (cp_idempotency_key params) in
  let fingerprint := propose_fingerprint params in
  check_binding_steps key fingerprint replay_propose (
    looked ← step (lookup_idempotency_from_wal key fingerprint "config.propose" [WProposed]);
    match looked with
    | LkConflict => pthrow EIdempotencyConflict
    | LkFound entry =>
        outcome ← presult (replay_propose entry);
        bound ← step (get_binding key);
        (if bool_decide (bound = None) then
           step (record_idempotency entry);;
           append_state_event_steps (po_tx_id outcome) WProposed
         else mret tt);;
        mret outcome
    | LkNotFound =>
        let digest := parse_manifest_digest manifest_digest in
        base_revision ← step observe_base;
        tx_id ← step new_tx_id;
        proposed ← step (call_propose (cp_changes params));
        staged ← presult (map_err EProposeRejected proposed);
        let wire_result :=
          mkProposeResult tx_id (ao_diff staged) (ao_test_plan staged)
                          (ao_affected_resources staged) base_revision in
        result_json ← presult (ok_or (propose_payload_to_string wire_result
                                        (ao_candidate_closure staged)) ESafeMode);
        seq ← persist_transition_steps tx_id WProposed (Some (cp_idempotency_key params))
                (Some fingerprint) agent_id digest base_revision [EffD] (ao_diff staged)
                (ao_affected_resources staged) (Some result_json);
        step (record_idempotency (mkIdem key tx_id fingerprint result_json));;
        announced ← pattempt (append_state_event_steps tx_id WProposed);
        match announced with
        | Err err =>
            rollback_transition_steps tx_id seq;;
            step (forget_idempotency key);;
            pthrow err
        | Ok _ =>
            mret {| po_tx_id := tx_id; po_diff := ao_diff staged;
                    po_test_plan := ao_test_plan staged;
                    po_affected_resources := ao_affected_resources staged;
                    po_base_revision := base_revision; po_state := WProposed |}
        end
    end).

Definition transition_steps (agent_id : string) (manifest_digest : Digest) (tx_id : TxId)
    (target : TransactionState) (idempotency_key idem_fingerprint : option string)
    (idem_store : option (string * string)) : Steps TxStepResult :=
  snap ← step (snapshot tx_id);
  snap ← presult (ok_or snap ENotFound);
  presult (ensure_owner snap agent_id manifest_digest);;
  pthrow_if (negb (broker_may_enter (from_wire (sn_state snap)) target)) EInvalidTransition;;
  let wire_target := to_wire target in
  let result := mkStep tx_id wire_target in
  result_json ← presult (ok_or (step_to_string result) ESafeMode);
  seq ← persist_transition_steps tx_id wire_target idempotency_key idem_fingerprint
          (sn_agent_id snap) (sn_manifest_digest snap) (sn_base_revision snap)
          (sn_effect_set snap) (sn_diff snap) (sn_affected_resources snap)
          (Some result_json);
  match idem_store with
  | Some (key, fingerprint) =>
      recorded ← pattempt (step (record_idempotency (mkIdem key tx_id fingerprint result_json)));
      match recorded with
      | Err err => rollback_transition_steps tx_id seq;; pthrow err
      | Ok _ => mret tt
      end
  | None => mret tt
  end;;
  announced ← pattempt (append_state_event_steps tx_id wire_target);
  match announced with
  | Err err =>
      rollback_transition_steps tx_id seq;;
      match idem_store with
      | Some (key, _) => step (forget_idempotency key)
      | None => mret tt
      end;;
      pthrow err
  | Ok _ => mret result
  end.

Definition tx_test_steps (agent_id manifest_digest : string) (tx_id : TxId) :
    Steps TxStepResult :=
  ensure_dm_allowed_steps;;
  transition_steps agent_id (parse_manifest_digest manifest_digest) tx_id TTesting None None None.

Definition refuse_moved_base_apply_steps (snap : TxSnapshot) (key fingerprint : string)
    (params : TxApplyParams) (result_json : string) : Steps TxStepResult :=
  let tx_id := ap_tx_id params in
  seq ← persist_transition_steps tx_id WRejected (Some (ap_idempotency_key params))
          (Some fingerprint) (sn_agent_id snap) (sn_manifest_digest snap)
          (sn_base_revision snap) (sn_effect_set snap) (sn_diff snap)
          (sn_affected_resources snap) (Some result_json);
  announced ← pattempt (append_state_event_steps tx_id WRejected);
  match announced with
  | Err err =>
      step (on_wal (fun wal => revert_last_transition wal seq));;
      step (modify_engine (set_next_seq (u64_saturating_sub seq 1)));;
      step (put_snapshot tx_id
        {| sn_tx_id := tx_id; sn_state := sn_state snap; sn_agent_id := sn_agent_id snap;
           sn_manifest_digest := sn_manifest_digest snap;
           sn_base_revision := sn_base_revision snap;
           sn_effect_set := sn_effect_set snap; sn_diff := sn_diff snap;
           sn_affected_resources := sn_affected_resources snap |});;
      pthrow err
  | Ok _ =>
      step (record_idempotency (mkIdem key tx_id fingerprint result_json));;
      pthrow EBaseRevisionMoved
  end.

Definition tx_apply_steps (agent_id manifest_digest : string) (params : TxApplyParams) :
    Steps TxStepResult :=
  ensure_dm_allowed_steps;;
  let digest := parse_manifest_digest manifest_digest in
  let key := idem_key agent_id "tx.apply" (ap_idempotency_key params) in
  let fingerprint := apply_fingerprint params in
  check_binding_steps key fingerprint replay_apply (
    looked ← step (lookup_idempotency_from_wal key fingerprint "tx.apply"
                     [WApplying; WRejected]);
    match looked with
    | LkConflict => pthrow EIdempotencyConflict
    | LkFound entry =>
        bound ← step (get_binding key);
        (if bool_decide (bound = None)
         then step (record_idempotency entry) else mret tt);;
        presult (replay_apply entry)
    | LkNotFound =>
        snap ← step (snapshot (ap_tx_id params));
        snap ← presult (ok_or snap ENotFound);
        presult (ensure_owner snap agent_id digest);;
        current ← step observe_base;
        if bool_decide (sn_base_revision snap <> current) then
          result_json ← presult (result_json_for_refusal params);
          refuse_moved_base_apply_steps snap key fingerprint params result_json
        else
          transition_steps agent_id digest (ap_tx_id params) TApplying
            (Some (ap_idempotency_key params)) (Some fingerprint) (Some (key, fingerprint))
    end).

Definition advance_to_probation_steps (agent_id manifest_digest : string) (tx_id : TxId) :
    Steps TxStepResult :=
  ensure_dm_allowed_steps;;
  let digest := parse_manifest_digest manifest_digest in
  snap ← step (snapshot tx_id);
  snap ← presult (ok_or snap ENotFound);
  pthrow_if (bool_decide (sn_state snap = WProbation)) EWatchdogAuthorityRequired;;
  transition_steps agent_id digest tx_id TProbation None None None.

(** [tx_status] and [events_replay] do not take [dm_lock]. *)
Definition tx_status_steps (tx_id : TxId) : Steps TxStatusResult :=
  safe ← step read_safe_mode;
  pthrow_if safe ESafeMode;;
  snap ← step (snapshot tx_id);
  snap ← presult (ok_or snap ENotFound);
  mret (mkStatus (sn_tx_id snap) (sn_state snap) (sn_effect_set snap)
                 (Some (sn_base_revision snap))).

(** [EventLog::replay] and [EventLog::latest_cursor], each under the lock of
    the metadata *)
Definition replay_from (cursor : EventCursor) : Op (list StoredEvent) :=
  e ← get_engine;
  mapping_err (fun _ => ENotFound) (on_disk (replay (en_events e) cursor)).
Definition read_latest_cursor : Op EventCursor :=
  e ← get_engine; mret (latest_cursor (en_events e)).

Definition events_replay_steps (cursor : option string) :
    Steps (string * list StoredEvent * string) :=
  safe ← step read_safe_mode;
  pthrow_if safe ESafeMode;;
  let from_start := id ← step log_id; mret (after_seq id 0) in
  parsed ← match cursor with
           | Some raw =>
               if bool_decide (raw = "") then from_start
               else presult (map_err (fun _ => ENotFound) (cursor_parse raw))
           | None => from_start
           end;
  events ← step (replay_from parsed);
  next ← step read_latest_cursor;
  id ← step log_id;
  mret (id, events, cursor_encode next).

(** ** Alone, the steps are the operation *)


Lemma read_safe_mode_run s : read_safe_mode s = (Ret (en_safe_mode (ew_engine s)), s).
Proof. done. Qed.

Lemma take_seq_run s :
  let seq := u64_saturating_add (en_next_seq (ew_engine s)) 1 in
  take_seq s = (Ret seq, mkEngineW (set_next_seq seq (ew_engine s)) (ew_world s)).
Proof. done. Qed.

Lemma run_modify_engine {A} f (g : unit -> Op A) s :
  (modify_engine f ≫= g) s = g tt (mkEngineW (f (ew_engine s)) (ew_world s)).
Proof. done. Qed.

Lemma implements_ensure : implements ensure_dm_allowed_steps ensure_dm_allowed.
Proof.
  intros s. unfold ensure_dm_allowed_steps. rewrite alone_bind, alone_step.
  rewrite read_safe_mode_run. apply implements_throw_if.
Qed.

Lemma implements_enter_safe_mode : implements enter_safe_mode_steps enter_safe_mode.
Proof.
  unfold enter_safe_mode_steps, enter_safe_mode. apply implements_bind; [apply implements_step|].
  intros []. apply implements_step.
Qed.

Hint Resolve implements_ensure implements_enter_safe_mode : steps.

Lemma implements_persist tx_id state key fp agent md base eff diff res json :
  implements (persist_transition_steps tx_id state key fp agent md base eff diff res json)
             (persist_transition tx_id state key fp agent md base eff diff res json).
Proof.
  intros s. unfold persist_transition_steps, persist_transition, put_snapshot.
  rewrite alone_bind, alone_step, read_safe_mode_run. unfold get_engine. rewrite run_gets.
  destruct (en_safe_mode (ew_engine s)); [by rewrite run_throw_if_true|].
  rewrite run_throw_if_false, alone_bind. cbn [pthrow_if alone]. cbn zeta.
  rewrite alone_bind, alone_step, take_seq_run, run_modify_engine.
  apply implements_bind; [apply implements_step|intros _]. implement.
Qed.

Lemma implements_rollback tx_id seq :
  implements (rollback_transition_steps tx_id seq) (rollback_transition tx_id seq).
Proof.
  unfold rollback_transition_steps, rollback_transition.
  implement.
Qed.

Lemma implements_append_event tx_id state :
  implements (append_state_event_steps tx_id state) (append_state_event tx_id state).
Proof.
  intros s. unfold append_state_event_steps, append_state_event, announce, get_engine.
  rewrite alone_bind, alone_step, !run_gets. unfold mbind, M_bind.
  destruct (mapping_err _ _ s) as [[[r events]|e|] s1]; [|done|done].
  destruct r as [ev|e]; [done|].
  apply implements_bind; [apply implements_enter_safe_mode|intros _; apply implements_throw].
Qed.

Lemma implements_check_binding {A} key fp (replay : IdempotencyRecord -> result EngineError A) p m :
  implements p m -> implements (check_binding_steps key fp replay p) (check_binding key fp replay m).
Proof.
  intros Hp s. unfold check_binding_steps, check_binding, get_binding, get_engine.
  rewrite alone_bind, alone_step, !run_gets. cbn [mret M_ret].
  destruct (is_entries (en_idempotency (ew_engine s)) !! key) as [entry|] eqn:Hb;
    unfold idem_get; rewrite Hb; [|apply Hp].
  apply implements_bind; [apply implements_throw_if|intros ?; apply implements_result].
Qed.

Lemma implements_get_binding {A} key (f : option IdempotencyRecord -> Steps A) g :
  (forall e, implements (f (idem_get (en_idempotency e) key)) (g e)) ->
  implements (b ← step (get_binding key); f b) (e ← get_engine; g e).
Proof.
  intros Hf s. rewrite alone_bind, alone_step. apply Hf.
Qed.

Hint Resolve implements_persist implements_rollback
  implements_append_event : steps.

Lemma implements_propose agent md params :
  implements (config_propose_steps agent md params) (config_propose agent md params).
Proof.
  unfold config_propose_steps, config_propose. apply implements_bind; [eauto with steps|intros _].
  cbn zeta. apply implements_check_binding. apply implements_bind; [eauto with steps|].
  intros [entry| |]; [|eauto with steps|implement].
  apply implements_bind; [eauto with steps|]. intros outcome.
  apply (implements_get_binding _
    (fun b => (if bool_decide (b = None) then _ else _) ;; _)). intros e. implement.
Qed.

Lemma implements_transition agent md tx_id target key fp store :
  implements (transition_steps agent md tx_id target key fp store)
             (transition agent md tx_id target key fp store).
Proof. unfold transition_steps, transition. cbn zeta. implement. Qed.
Hint Resolve implements_transition : steps.

Lemma implements_test agent md tx_id :
  implements (tx_test_steps agent md tx_id) (tx_test agent md tx_id).
Proof. unfold tx_test_steps, tx_test. implement. Qed.

Lemma implements_refuse snap key fp params json :
  implements (refuse_moved_base_apply_steps snap key fp params json)
             (refuse_moved_base_apply snap key fp params json).
Proof. unfold refuse_moved_base_apply_steps, refuse_moved_base_apply. cbn zeta. implement. Qed.
Hint Resolve implements_refuse : steps.

Lemma implements_apply agent md params :
  implements (tx_apply_steps agent md params) (tx_apply agent md params).
Proof.
  unfold tx_apply_steps, tx_apply. apply implements_bind; [eauto with steps|intros _].
  cbn zeta. apply implements_check_binding. apply implements_bind; [eauto with steps|].
  intros [entry| |]; [|eauto with steps|implement].
  apply (implements_get_binding _
    (fun b => (if bool_decide (b = None) then _ else _) ;; _)). intros e. implement.
Qed.

Lemma implements_advance agent md tx_id :
  implements (advance_to_probation_steps agent md tx_id) (advance_to_probation agent md tx_id).
Proof. unfold advance_to_probation_steps, advance_to_probation. cbn zeta. implement. Qed.

(** The readers' parts, by the engine they look at. *)
Lemma alone_checked {A} (p : Steps A) (m : Op A) s :
  alone p s = m s ->
  alone (safe ← step read_safe_mode; pthrow_if safe ESafeMode;; p) s =
  (throw_if (en_safe_mode (ew_engine s)) ESafeMode;; m) s.
Proof.
  intros Hp. rewrite alone_bind, alone_step, read_safe_mode_run, alone_bind.
  by destruct (en_safe_mode (ew_engine s)).
Qed.

Lemma implements_status tx_id : implements (tx_status_steps tx_id) (tx_status tx_id).
Proof.
  intros s. unfold tx_status_steps, tx_status, get_engine. rewrite run_gets.
  apply alone_checked. rewrite alone_bind, alone_step.
  unfold snapshot, get_engine. rewrite run_gets. cbn [mret M_ret].
  apply implements_bind; [apply implements_result|done].
Qed.

(** Reading the log does not change the engine. *)
Lemma replay_from_run cursor s :
  replay_from cursor s =
  (mapping_err (fun _ => ENotFound) (on_disk (replay (en_events (ew_engine s)) cursor))) s.
Proof. done. Qed.

Lemma on_disk_engine {E A} (m : M TxWorld E A) s : ew_engine (snd (on_disk m s)) = ew_engine s.
Proof. unfold on_disk, zoom. by destruct (m (ew_world s)). Qed.

Lemma replay_from_engine cursor s : ew_engine (snd (replay_from cursor s)) = ew_engine s.
Proof.
  rewrite replay_from_run. etrans; [|apply (on_disk_engine (replay (en_events (ew_engine s)) cursor))].
  unfold mapping_err. by destruct (on_disk _ s) as [[] ?].
Qed.

Lemma implements_replay_tail parsed s :
  alone (events ← step (replay_from parsed); next ← step read_latest_cursor;
         id ← step log_id; mret (id, events, cursor_encode next)) s =
  (events ← mapping_err (fun _ => ENotFound)
              (on_disk (replay (en_events (ew_engine s)) parsed));
   mret (me_log_id (el_meta (en_events (ew_engine s))), events,
         cursor_encode (latest_cursor (en_events (ew_engine s))))) s.
Proof.
  rewrite alone_bind, alone_step. pose proof (replay_from_engine parsed s) as He.
  rewrite replay_from_run in He |- *. unfold mbind, M_bind.
  destruct (mapping_err _ _ s) as [[events|e|] s1]; [|done|done]. cbn in He.
  by rewrite <-He.
Qed.

Lemma implements_events_replay cursor :
  implements (events_replay_steps cursor) (events_replay cursor).
Proof.
  intros s. unfold events_replay_steps, events_replay, get_engine. rewrite run_gets.
  apply alone_checked. cbn zeta. rewrite alone_bind.
  assert (Hfrom : alone (id ← step log_id; mret (after_seq id 0)) s =
    (Ret (after_seq (me_log_id (el_meta (en_events (ew_engine s)))) 0), s)) by done.
  destruct cursor as [raw|]; [|rewrite Hfrom; apply implements_replay_tail].
  case_bool_decide; [rewrite Hfrom; apply implements_replay_tail|].
  destruct (cursor_parse raw) as [c|e]; [apply implements_replay_tail|done].
Qed.
End EngineSteps.

#[export] Hint Resolve implements_propose implements_test implements_apply implements_advance
  implements_status implements_events_replay : steps.
