(* ===== verification/Concurrent.v ===== *)
(** * Concurrent requests

    [transaction/engine.rs] under the threads of [server.rs]: each request
    runs on a thread of its own, all of them on one engine and one file
    system.  An operation that writes waits for [dm_lock], holds it until it
    returns, and takes the steps of [EngineSteps] in between; [tx_status] and
    [events_replay] take their steps without it, so they run in between the
    steps of a writer.

    A thread has the answers of its environment to itself: its calls are
    counted from a number of its own ([lo_tick]), so what the clock, the host
    and the disk answer one thread is independent of the others.  What the
    threads share is the engine and the files. *)

From S2P Require Import Prelude RustStd Json TxTypes TxStorage TxEngine Steps EngineSteps.

Inductive EngineRequest :=
  | RqPropose (agent_id manifest_digest : string) (params : ConfigProposeParams)
  | RqTest (agent_id manifest_digest : string) (tx_id : TxId)
  | RqApply (agent_id manifest_digest : string) (params : TxApplyParams)
  | RqProbation (agent_id manifest_digest : string) (tx_id : TxId)
  | RqStatus (tx_id : TxId)
  | RqReplay (cursor : option string).

Inductive Reply :=
  | RpProposed (outcome : ConfigProposeOutcome)
  | RpStep (result : TxStepResult)
  | RpStatus (status : TxStatusResult)
  | RpEvents (log_id : string) (events : list StoredEvent) (cursor : string).

(** The operations that begin with [self.dm_lock.lock()]. *)
Definition takes_lock (r : EngineRequest) : bool :=
  match r with
  | RqPropose _ _ _ | RqTest _ _ _ | RqApply _ _ _ | RqProbation _ _ _ => true
  | RqStatus _ | RqReplay _ => false
  end.

(** What the threads share. *)
Record Shared := mkShared {
  sh_engine : TransactionEngine;
  sh_fs : FS;
}.

(** What a thread has to itself: its place in the environment's answers, and
    the calls it made on the host. *)
Record Local := mkLocal {
  lo_tick : nat;
  lo_calls : list TxCall;
}.

(** A request, and where its thread is when it asks. *)
Record Caller := mkCaller {
  ca_request : EngineRequest;
  ca_local : Local;
}.

Definition view (sh : Shared) (lo : Local) : EngineW :=
  mkEngineW (sh_engine sh) (mkWorld (sh_fs sh) (lo_tick lo) (lo_calls lo)).
Definition shared_of (s : EngineW) : Shared := mkShared (ew_engine s) (w_fs (ew_world s)).
Definition local_of (s : EngineW) : Local := mkLocal (w_tick (ew_world s)) (w_calls (ew_world s)).

Lemma view_of s : view (shared_of s) (local_of s) = s.
Proof. by destruct s as [? []]. Qed.
Lemma shared_of_view sh lo : shared_of (view sh lo) = sh.
Proof. by destruct sh. Qed.
Lemma local_of_view sh lo : local_of (view sh lo) = lo.
Proof. by destruct lo. Qed.

Abbreviation Answer := (outcome EngineError Reply).

(** [since] is how many writers had returned when the thread began. *)
Inductive Stage :=
  | Waiting
  | Running (since : nat) (p : Prog EngineW EngineError Reply) (lo : Local)
  | Returned (since : nat) (o : Answer) (lo : Local).

Record Thread := mkThread {
  th_caller : Caller;
  th_stage : Stage;
}.

(** [pl_holder] is the thread in [dm_lock]; [pl_order] records the writers
    that have returned, the first one first. *)
Record Pool := mkPool {
  pl_shared : Shared;
  pl_holder : option nat;
  pl_order : list nat;
  pl_threads : list Thread;
}.

Section Concurrent.
Context `{JsonNumber} `{!BrokerCodec} `{!IoEnv} `{!HostAdapter}.

Abbreviation Op := (M EngineW EngineError).
Abbreviation Steps := (Prog EngineW EngineError).

Definition engine_request_steps (r : EngineRequest) : Steps Reply :=
  match r with
  | RqPropose agent md params => o ← config_propose_steps agent md params; mret (RpProposed o)
  | RqTest agent md tx_id => o ← tx_test_steps agent md tx_id; mret (RpStep o)
  | RqApply agent md params => o ← tx_apply_steps agent md params; mret (RpStep o)
  | RqProbation agent md tx_id => o ← advance_to_probation_steps agent md tx_id; mret (RpStep o)
  | RqStatus tx_id => o ← tx_status_steps tx_id; mret (RpStatus o)
  | RqReplay cursor =>
      '(log_id, events, next) ← events_replay_steps cursor; mret (RpEvents log_id events next)
  end.

(** The same request on an engine of one's own. *)
Definition engine_request (r : EngineRequest) : Op Reply :=
  match r with
  | RqPropose agent md params => o ← config_propose agent md params; mret (RpProposed o)
  | RqTest agent md tx_id => o ← tx_test agent md tx_id; mret (RpStep o)
  | RqApply agent md params => o ← tx_apply agent md params; mret (RpStep o)
  | RqProbation agent md tx_id => o ← advance_to_probation agent md tx_id; mret (RpStep o)
  | RqStatus tx_id => o ← tx_status tx_id; mret (RpStatus o)
  | RqReplay cursor =>
      '(log_id, events, next) ← events_replay cursor; mret (RpEvents log_id events next)
  end.

Lemma implements_engine_request r : implements (engine_request_steps r) (engine_request r).
Proof. destruct r; cbn [engine_request_steps engine_request]; implement. Qed.

(** ** One whole operation after another *)

Definition serve (c : Caller) (sh : Shared) : Answer * Shared :=
  let '(o, s) := engine_request (ca_request c) (view sh (ca_local c)) in (o, shared_of s).

Definition after (cs : list Caller) (sh : Shared) : Shared :=
  fold_left (fun sh c => snd (serve c sh)) cs sh.

(** ** The threads *)

(** What thread [i] does next, if it can.  A writer begins when [dm_lock] is
    free; the guard is dropped when the operation returns. *)
Definition pool_step (i : nat) (pl : Pool) : option Pool :=
  th ← pl_threads pl !! i;
  let c := th_caller th in
  let writes := takes_lock (ca_request c) in
  let since := length (pl_order pl) in
  let set stage := <[i := mkThread c stage]> (pl_threads pl) in
  match th_stage th with
  | Waiting =>
      let begun := set (Running since (engine_request_steps (ca_request c)) (ca_local c)) in
      if writes then
        match pl_holder pl with
        | Some _ => None
        | None => Some (mkPool (pl_shared pl) (Some i) (pl_order pl) begun)
        end
      else Some (mkPool (pl_shared pl) (pl_holder pl) (pl_order pl) begun)
  | Running since (PStep m k) lo =>
      let '(o, s) := m (view (pl_shared pl) lo) in
      Some (mkPool (shared_of s) (pl_holder pl) (pl_order pl)
                   (set (Running since (k o) (local_of s))))
  | Running since (PDone o) lo =>
      Some (if writes
            then mkPool (pl_shared pl) None (pl_order pl ++ [i]) (set (Returned since o lo))
            else mkPool (pl_shared pl) (pl_holder pl) (pl_order pl) (set (Returned since o lo)))
  | Returned _ _ _ => None
  end.

(** A schedule names the thread of each turn; a thread that cannot run
    passes. *)
Definition turn (pl : Pool) (i : nat) : Pool := default pl (pool_step i pl).
Definition pool_run (schedule : list nat) (pl : Pool) : Pool := fold_left turn schedule pl.

Definition pool_start (sh : Shared) (cs : list Caller) : Pool :=
  mkPool sh None [] ((fun c => mkThread c Waiting) <$> cs).

Definition callers (pl : Pool) : list Caller := th_caller <$> pl_threads pl.

(** The callers with these numbers, in this order. *)
Definition callers_at (cs : list Caller) (ids : list nat) : list Caller :=
  omap (fun i => cs !! i) ids.

Definition returned (th : Thread) : bool :=
  match th_stage th with Returned _ _ _ => true | _ => false end.

Definition answer_of (th : Thread) : option Answer :=
  match th_stage th with Returned _ o _ => Some o | _ => None end.

Definition all_returned (pl : Pool) : bool := forallb returned (pl_threads pl).

(** One turn in which a thread does something. *)
Definition pool_next (pl' pl : Pool) : Prop := exists i, pool_step i pl = Some pl'.
End Concurrent.
