(* ===== verification/ConcurrentFacts.v ===== *)
(** * What the steps of the engine show to others

    A step [keeps] the engine's table of transactions and its mode, or it is
    one of the few that change them.  From that: every operation that writes
    [settles] - the table others see is the one before it or the one after
    it - unless it ends in safe mode, and the readers change nothing. *)

From S2P Require Import Prelude RustStd Json TxTypes TxStorage TxEngine Reading Steps EngineSteps Concurrent.

Definition txs_of (s : EngineW) : gmap TxId TxSnapshot := en_txs (ew_engine s).
Definition safe_of (s : EngineW) : bool := en_safe_mode (ew_engine s).

(** ** Steps that keep the table and the mode *)

Definition keeps {E A} (m : M EngineW E A) : Prop :=
  forall s, txs_of (snd (m s)) = txs_of s /\ safe_of (snd (m s)) = safe_of s.

Section Keeps.
Context {E F A B : Type}.

Lemma keeps_ret (a : A) : keeps (E:=E) (mret a).
Proof. done. Qed.
Lemma keeps_get : keeps (E:=E) get_engine.
Proof. done. Qed.
Lemma keeps_of_result (r : result E A) : keeps (of_result r).
Proof. by destruct r. Qed.
Lemma keeps_throw_if b (e : E) : keeps (throw_if b e).
Proof. by destruct b. Qed.
Lemma keeps_on_disk (m : M TxWorld E A) : keeps (on_disk m).
Proof. intros s. unfold txs_of, safe_of. by rewrite on_disk_engine. Qed.

Lemma keeps_modify f :
  (forall e, en_txs (f e) = en_txs e /\ en_safe_mode (f e) = en_safe_mode e) ->
  keeps (E:=E) (modify_engine f).
Proof. intros Hf s. apply Hf. Qed.

Lemma keeps_bind (m : M EngineW E A) (f : A -> M EngineW E B) :
  keeps m -> (forall a, keeps (f a)) -> keeps (m ≫= f).
Proof.
  intros Hm Hf s. specialize (Hm s). unfold mbind, M_bind.
  destruct (m s) as [[a|e|] s']; [|done..]. cbn in Hm. destruct (Hf a s') as [Ht Hs].
  destruct Hm as [<- <-]. by split.
Qed.

Lemma keeps_attempt (m : M EngineW E A) : keeps m -> keeps (attempt (F:=F) m).
Proof. intros Hm s. specialize (Hm s). unfold attempt. by destruct (m s) as [[] ?]. Qed.

Lemma keeps_mapping_err (f : E -> F) (m : M EngineW E A) : keeps m -> keeps (mapping_err f m).
Proof. intros Hm s. specialize (Hm s). unfold mapping_err. by destruct (m s) as [[] ?]. Qed.
End Keeps.

#[export] Hint Resolve keeps_ret keeps_get keeps_of_result keeps_throw_if keeps_on_disk
  keeps_attempt keeps_mapping_err : steps.

Ltac keeping :=
  repeat first
    [ solve [eauto with steps]
    | apply keeps_bind; [try solve [eauto with steps]|intros ?]
    | apply keeps_modify; done
    | apply keeps_attempt | apply keeps_mapping_err
    | case_match ].

Section Facts.
Context `{JsonNumber} `{!BrokerCodec} `{!IoEnv} `{!HostAdapter}.

Abbreviation Op := (M EngineW EngineError).
Abbreviation Steps := (Prog EngineW EngineError).
Abbreviation settling := (settles txs_of safe_of).
Abbreviation staying := (stays txs_of safe_of).

Lemma keeps_read_safe_mode : keeps read_safe_mode. Proof. done. Qed.
Lemma keeps_take_seq : keeps take_seq. Proof. done. Qed.
Lemma keeps_on_wal f : keeps (on_wal f). Proof. unfold on_wal. keeping. Qed.
Lemma keeps_announce tx_id state : keeps (announce tx_id state).
Proof. unfold announce. keeping. Qed.
Lemma keeps_write_mode : keeps write_mode. Proof. unfold write_mode. keeping. Qed.
Lemma keeps_get_binding key : keeps (get_binding key). Proof. done. Qed.
Lemma keeps_snapshot tx_id : keeps (snapshot tx_id). Proof. done. Qed.
Lemma keeps_record b : keeps (record_idempotency b). Proof. unfold record_idempotency. keeping. Qed.
Lemma keeps_forget key : keeps (forget_idempotency key). Proof. unfold forget_idempotency. keeping. Qed.
Lemma keeps_lookup key fp op states : keeps (lookup_idempotency_from_wal key fp op states).
Proof. unfold lookup_idempotency_from_wal. keeping. Qed.
Lemma keeps_observe : keeps observe_base. Proof. unfold observe_base. keeping. Qed.
Lemma keeps_new_tx_id : keeps new_tx_id. Proof. unfold new_tx_id. keeping. Qed.
Lemma keeps_call_propose changes : keeps (call_propose changes).
Proof. unfold call_propose. keeping. Qed.
Lemma keeps_set_next_seq n : keeps (E:=EngineError) (modify_engine (set_next_seq n)).
Proof. done. Qed.

Lemma staying_keeps {A} (m : Op A) : keeps m -> staying (step m).
Proof. intros Hm. apply stays_step. intros s Hs. destruct (Hm s) as [Ht Hb]. by rewrite <-Hb. Qed.

Lemma sticky_keeps {A} (m : Op A) : keeps m -> sticky safe_of (step m).
Proof. intros Hm. apply sticky_step. intros s Hs. destruct (Hm s) as [_ Hb]. by rewrite Hb. Qed.

Hint Resolve keeps_read_safe_mode keeps_take_seq keeps_on_wal keeps_announce keeps_write_mode
  keeps_get_binding keeps_snapshot keeps_record keeps_forget keeps_lookup keeps_observe
  keeps_new_tx_id keeps_call_propose keeps_set_next_seq staying_keeps sticky_keeps : steps.

Lemma staying_ret {A} (a : A) : staying (mret (M:=Prog EngineW EngineError) a).
Proof. apply stays_done. Qed.
Lemma staying_throw {A} e : staying (pthrow (A:=A) (E:=EngineError) e).
Proof. apply stays_done. Qed.
Lemma staying_result {A} (r : result EngineError A) : staying (presult r).
Proof. destruct r; apply stays_done. Qed.
Lemma staying_throw_if b (e : EngineError) : staying (pthrow_if b e).
Proof. destruct b; apply stays_done. Qed.
Hint Resolve staying_ret staying_throw staying_result staying_throw_if stays_attempt : steps.

(** Follow the structure of a program that shows nothing. *)
Ltac staying :=
  repeat first
    [ solve [eauto with steps]
    | apply stays_attempt
    | apply stays_bind; [try solve [eauto with steps]|intros ?]
    | case_match ].

(** ** Entering safe mode, and what comes with it *)

Lemma enter_safe_mode_bad s : safe_of (final enter_safe_mode_steps s) = true.
Proof.
  unfold final. rewrite implements_enter_safe_mode. unfold enter_safe_mode.
  rewrite run_modify_engine.
  exact (proj2 (keeps_write_mode _)).
Qed.

Lemma final_modify {A} f (g : unit -> Steps A) s :
  final (step (modify_engine f) ≫= g) s = final (g tt) (mkEngineW (f (ew_engine s)) (ew_world s)).
Proof. done. Qed.

(** What ends in safe mode is nobody's concern. *)
Lemma staying_doomed {A} (p : Steps A) : (forall s, safe_of (final p s) = true) -> staying p.
Proof. intros Hp s Hs. by rewrite Hp in Hs. Qed.

Lemma staying_enter_safe_mode : staying enter_safe_mode_steps.
Proof. apply staying_doomed, enter_safe_mode_bad. Qed.
Hint Resolve staying_enter_safe_mode : steps.

(** An announcement that fails ends in safe mode. *)
Lemma staying_append_event tx_id state : staying (append_state_event_steps tx_id state).
Proof. unfold append_state_event_steps. staying. Qed.
Hint Resolve staying_append_event : steps.

Lemma append_event_failed tx_id state s e :
  fst (alone (append_state_event_steps tx_id state) s) = Throw e ->
  safe_of (final (append_state_event_steps tx_id state) s) = true.
Proof.
  unfold final, append_state_event_steps. rewrite alone_bind.
  destruct (alone (step (announce _ _)) s) as [[[ev|err]|e'|] s'] eqn:Ha; [done| |..|done].
  - rewrite alone_bind. intros _. pose proof (enter_safe_mode_bad s') as Hb. unfold final in Hb.
    by destruct (alone enter_safe_mode_steps s') as [[[]|?|] s2].
  - intros _. rewrite alone_step in Ha. exfalso. unfold announce, get_engine in Ha.
    rewrite run_gets in Ha. unfold mbind, M_bind, mapping_err, on_disk, zoom in Ha.
    destruct (events_append _ _ _) as [[[r l]|e2|] w] eqn:Hev; [done| |done].
    unfold events_append, attempt in Hev. cbn in Hev. unfold mbind, M_bind in Hev.
    by destruct (events_write _ _ _) as [[]].
Qed.

(** Undoing a transition removes its entry, and then always enters safe
    mode; when the log cannot be undone it removes nothing. *)
Lemma staying_rollback tx_id seq : staying (rollback_transition_steps tx_id seq).
Proof.
  unfold rollback_transition_steps. apply stays_bind; [eauto with steps|]. intros _.
  apply staying_doomed. intros s. rewrite !final_modify. apply enter_safe_mode_bad.
Qed.
Hint Resolve staying_rollback : steps.

Lemma staying_check_binding {A} key fp (replay : IdempotencyRecord -> result EngineError A) p :
  settling p -> settling (check_binding_steps key fp replay p).
Proof.
  intros Hp. unfold check_binding_steps. apply settles_bind_l; [eauto with steps|].
  intros [entry|]; [|done]. apply stays_settles. staying.
Qed.

Lemma staying_ensure : staying ensure_dm_allowed_steps.
Proof. unfold ensure_dm_allowed_steps. staying. Qed.
Hint Resolve staying_ensure : steps.

(** ** The operations that write *)

(** Follow a program up to what changes the table. *)
Ltac settling :=
  repeat first
    [ solve [eauto with steps]
    | apply settles_bind_l; [solve [staying]|intros ?]
    | case_match; try solve [apply stays_settles; staying] ].

(** The entry is put in by the last step. *)
Lemma settling_persist tx_id state key fp agent md base eff diff res json :
  settling (persist_transition_steps tx_id state key fp agent md base eff diff res json).
Proof.
  unfold persist_transition_steps. repeat (apply settles_bind_l; [solve [staying]|intros ?]; cbn zeta).
  apply settles_bind_r; [|intros _; staying].
  apply settles_step. by intros s.
Qed.

Lemma settling_transition agent md tx_id target key fp store :
  settling (transition_steps agent md tx_id target key fp store).
Proof.
  unfold transition_steps. cbn zeta. repeat (apply settles_bind_l; [solve [staying]|intros ?]).
  apply settles_bind_r; [apply settling_persist|]. intros seq. staying.
Qed.

Lemma settling_refuse snap key fp params json :
  settling (refuse_moved_base_apply_steps snap key fp params json).
Proof.
  unfold refuse_moved_base_apply_steps. cbn zeta.
  apply settles_bind_r; [apply settling_persist|]. intros seq.
  apply stays_bind_good; [staying| |].
  - intros [[]|err]; [apply (stays_sticky txs_of); staying|].
    apply sticky_bind; [eauto with steps|intros _]. apply sticky_bind; [eauto with steps|intros _].
    apply sticky_bind; [by apply sticky_step|intros _; by intros s].
  - intros s [[]|err] Ha Hb; [staying|]. exfalso.
    rewrite final_attempt in Hb. rewrite alone_attempt in Ha. unfold attempt in Ha.
    destruct (alone _ s) as [[|e|] s'] eqn:Hrun; [done| |done].
    by rewrite (append_event_failed _ _ s e) in Hb by (by rewrite Hrun).
Qed.
Hint Resolve settling_transition settling_refuse : steps.

Lemma settling_propose agent md params : settling (config_propose_steps agent md params).
Proof.
  unfold config_propose_steps. cbn zeta. apply settles_bind_l; [eauto with steps|intros _].
  apply staying_check_binding. apply settles_bind_l; [eauto with steps|].
  intros [entry| |]; [apply stays_settles; staying..|].
  repeat (apply settles_bind_l; [solve [staying]|intros ?]; cbn zeta).
  apply settles_bind_r; [apply settling_persist|]. intros seq. staying.
Qed.

Lemma settling_apply agent md params : settling (tx_apply_steps agent md params).
Proof.
  unfold tx_apply_steps. cbn zeta. apply settles_bind_l; [eauto with steps|intros _].
  apply staying_check_binding. apply settles_bind_l; [eauto with steps|].
  intros [entry| |]; [apply stays_settles; staying..|]. settling.
Qed.

Lemma settling_test agent md tx_id : settling (tx_test_steps agent md tx_id).
Proof. unfold tx_test_steps. settling. Qed.

Lemma settling_probation agent md tx_id : settling (advance_to_probation_steps agent md tx_id).
Proof. unfold advance_to_probation_steps. cbn zeta. settling. Qed.

(** ** The readers change nothing of what is shared *)

Definition shared_same (s s' : EngineW) : Prop := shared_of s' = shared_of s.

Lemma quiet_throw_if b (e : EngineError) : quiet shared_same (pthrow_if b e).
Proof. by destruct b. Qed.

Ltac quieting :=
  repeat first
    [ solve [eauto with steps] | apply quiet_throw_if | by apply quiet_step
    | apply quiet_bind; [|intros ?] | case_match ].

Lemma quiet_status tx_id : quiet shared_same (tx_status_steps tx_id).
Proof. unfold tx_status_steps. quieting. Qed.

Lemma quiet_replay_from cursor : quiet shared_same (step (replay_from cursor)).
Proof.
  apply quiet_step. intros s. unfold shared_same, shared_of. rewrite replay_from_engine. f_equal.
  rewrite replay_from_run. pose proof (reads_replay (en_events (ew_engine s)) cursor (ew_world s)) as Hr.
  unfold wp in Hr. unfold mapping_err, on_disk, zoom.
  destruct (replay _ _ _) as [o w]. destruct Hr as [Hfs _]. by destruct o.
Qed.
Hint Resolve quiet_replay_from : steps.

Lemma quiet_events_replay cursor : quiet shared_same (events_replay_steps cursor).
Proof. unfold events_replay_steps. cbn zeta. quieting. Qed.

Lemma settling_engine_request r : takes_lock r = true -> settling (engine_request_steps r).
Proof.
  destruct r; intros [=]; cbn [engine_request_steps]; (apply settles_bind_r; [|intros ?; staying]);
    [apply settling_propose|apply settling_test|apply settling_apply|apply settling_probation].
Qed.

Lemma quiet_engine_request r : takes_lock r = false -> quiet shared_same (engine_request_steps r).
Proof.
  destruct r; intros [=]; cbn [engine_request_steps]; apply quiet_bind.
  - apply quiet_status.
  - done.
  - apply quiet_events_replay.
  - by intros [[] ?].
Qed.
End Facts.
