(* ===== verification/ConcurrentTheorems.v ===== *)
(** * Concurrent requests: the theorems

    Whatever the schedule, the writers are serialised in the order in which
    they return, with the answers they have one after another; what [tx_status]
    reports is an engine between two of them, unless the run ends in safe
    mode; and every request is answered. *)

From S2P Require Import Prelude RustStd Json TxTypes TxStorage TxEngine Steps EngineSteps.
From S2P Require Import Concurrent ConcurrentFacts.

Section Serial.
Context `{JsonNumber} `{!BrokerCodec} `{!IoEnv} `{!HostAdapter}.

(** ** The invariant of every schedule *)

Section Invariant.
Context (sh0 : Shared) (cs : list Caller).

(** The engine and the files after the first operations of this order. *)
Definition upto (ids : list nat) : Shared := after (callers_at cs ids) sh0.
Definition in_safe_mode (sh : Shared) : bool := en_safe_mode (sh_engine sh).

(** The writers that have returned, and the one in [dm_lock]. *)
Definition committed (pl : Pool) : list nat := pl_order pl ++ option_list (pl_holder pl).

(** From the states on the way others see the table of [from] or of [to]. *)
Definition sees (from to : Shared) (way : list EngineW) : Prop :=
  in_safe_mode to = true \/
  in_safe_mode from = false /\
  Forall (fun s => safe_of s = false /\
    (txs_of s = en_txs (sh_engine from) \/ txs_of s = en_txs (sh_engine to))) way.

Definition holder_ok (pl : Pool) : Prop :=
  match pl_holder pl with
  | None => pl_shared pl = upto (pl_order pl)
  | Some i => exists c since p lo,
      pl_threads pl !! i = Some (mkThread c (Running since p lo)) /\
      takes_lock (ca_request c) = true /\
      let s := view (pl_shared pl) lo in
      alone p s = engine_request (ca_request c) (view (upto (pl_order pl)) (ca_local c)) /\
      sees (upto (pl_order pl)) (shared_of (final p s)) (s :: trail p s)
  end.

(** A reader's answer is the one at some moment since it began. *)
Definition answered (pl : Pool) (c : Caller) (since : nat) (o : Answer) : Prop :=
  in_safe_mode (upto (committed pl)) = true \/
  exists k, (since <= k <= length (committed pl))%nat /\
            o = fst (serve c (upto (take k (committed pl)))).

Definition status_answer (safe : bool) (snap : option TxSnapshot) : Answer :=
  if safe then Throw ESafeMode else
  match snap with
  | None => Throw ENotFound
  | Some snap => Ret (RpStatus (mkStatus (sn_tx_id snap) (sn_state snap) (sn_effect_set snap)
                                         (Some (sn_base_revision snap))))
  end.

(** [tx_status] after it has read the mode *)
Definition status_rest (tx_id : TxId) : Prog EngineW EngineError Reply :=
  status ← (snap ← step (snapshot tx_id);
            snap ← presult (ok_or snap ENotFound);
            mret (mkStatus (sn_tx_id snap) (sn_state snap) (sn_effect_set snap)
                           (Some (sn_base_revision snap))));
  mret (RpStatus status).

Definition status_ok (pl : Pool) (c : Caller) (since : nat)
    (p : Prog EngineW EngineError Reply) : Prop :=
  forall tx_id, ca_request c = RqStatus tx_id ->
  p = engine_request_steps (RqStatus tx_id) \/ p = status_rest tx_id \/
  exists o, p = PDone o /\ answered pl c since o.

Definition thread_ok (pl : Pool) (j : nat) (th : Thread) : Prop :=
  let c := th_caller th in
  let writes := takes_lock (ca_request c) in
  match th_stage th with
  | Waiting => j ∉ committed pl
  | Running since p _ =>
      (since <= length (pl_order pl))%nat /\
      if writes then pl_holder pl = Some j
      else quiet shared_same p /\ status_ok pl c since p
  | Returned since o _ =>
      if writes
      then exists k, pl_order pl !! k = Some j /\ o = fst (serve c (upto (take k (pl_order pl))))
      else forall tx_id, ca_request c = RqStatus tx_id -> answered pl c since o
  end.

Record coherent (pl : Pool) : Prop := {
  co_callers : callers pl = cs;
  co_nodup : NoDup (committed pl);
  co_writers : forall i, i ∈ committed pl ->
    exists c, cs !! i = Some c /\ takes_lock (ca_request c) = true;
  co_holder : holder_ok pl;
  co_threads : forall j th, pl_threads pl !! j = Some th -> thread_ok pl j th;
}.

(** ** What a turn of one thread leaves of the others *)

(** The pool went on: more writers, and no way back from safe mode. *)
Record goes_on (i : nat) (pl pl' : Pool) : Prop := {
  go_committed : exists more, committed pl' = committed pl ++ more /\ forall j, j ∈ more -> j = i;
  go_order : exists more, pl_order pl' = pl_order pl ++ more;
  go_holder : forall j, j <> i -> pl_holder pl = Some j -> pl_holder pl' = Some j;
  go_safe : in_safe_mode (upto (committed pl)) = true -> in_safe_mode (upto (committed pl')) = true;
}.

Lemma answered_on i pl pl' c since o :
  goes_on i pl pl' -> answered pl c since o -> answered pl' c since o.
Proof.
  intros [[more [Hc _]] _ _ Hsafe] [Hbad|(k & [Hlo Hhi] & ->)]; [left; auto|right].
  exists k. rewrite Hc, length_app. split; [lia|]. by rewrite take_app_le.
Qed.

Lemma thread_ok_on i pl pl' j th :
  goes_on i pl pl' -> j <> i -> thread_ok pl j th -> thread_ok pl' j th.
Proof.
  intros Hon Hj. pose proof Hon as [[more [Hc Hmore]] [after Ho] Hh _].
  unfold thread_ok. destruct (th_stage th) as [|since p lo|since o lo].
  - rewrite Hc. intros Hn Hin. apply elem_of_app in Hin as [Hin|Hin]; [done|]. by apply Hmore in Hin.
  - intros [Hs Hp]. split; [rewrite Ho, length_app; lia|].
    destruct (takes_lock _); [by apply Hh|]. destruct Hp as [Hq Hst]. split; [done|].
    intros tx Htx. destruct (Hst tx Htx) as [?|[?|(o & ? & Hans)]]; [by left|by right; left|].
    right; right. exists o. split; [done|]. by eapply answered_on.
  - destruct (takes_lock _).
    + intros (k & Hk & ->). exists k. rewrite Ho. split; [by apply lookup_app_l_Some|].
      rewrite take_app_le; [done|]. apply lookup_lt_Some in Hk. lia.
    + intros Hans tx Htx. eapply answered_on; [done|]. by eapply Hans.
Qed.

Lemma threads_on i pl pl' th' :
  (forall j th, pl_threads pl !! j = Some th -> thread_ok pl j th) ->
  goes_on i pl pl' -> pl_threads pl' = <[i := th']> (pl_threads pl) ->
  thread_ok pl' i th' ->
  forall j th, pl_threads pl' !! j = Some th -> thread_ok pl' j th.
Proof.
  intros Hall Hon Ht Hi j th Hj. rewrite Ht in Hj. apply list_lookup_insert_Some in Hj.
  destruct Hj as [(-> & -> & _)|[Hne Hj]]; [done|]. eapply thread_ok_on; eauto.
Qed.

Lemma goes_on_same i pl pl' :
  pl_order pl' = pl_order pl -> pl_holder pl' = pl_holder pl -> goes_on i pl pl'.
Proof.
  intros Ho Hh. unfold committed. split; unfold committed; rewrite ?Ho, ?Hh; [| |done..].
  - exists []. rewrite app_nil_r. split; [done|]. intros j Hj. by apply not_elem_of_nil in Hj.
  - exists []. by rewrite app_nil_r.
Qed.

Lemma callers_insert (ths : list Thread) i c st st' :
  ths !! i = Some (mkThread c st) -> th_caller <$> <[i := mkThread c st']> ths = th_caller <$> ths.
Proof.
  intros Hi. rewrite list_fmap_insert. cbn. apply list_insert_id. by rewrite list_lookup_fmap, Hi.
Qed.

(** ** One operation alone, and in its place *)

Lemma serve_steps c sh :
  serve c sh =
  (fst (alone (engine_request_steps (ca_request c)) (view sh (ca_local c))),
   shared_of (final (engine_request_steps (ca_request c)) (view sh (ca_local c)))).
Proof.
  unfold serve, final. rewrite implements_engine_request. by destruct (engine_request _ _).
Qed.

Lemma upto_snoc ids i c : cs !! i = Some c -> upto (ids ++ [i]) = snd (serve c (upto ids)).
Proof.
  intros Hi. unfold upto, after, callers_at. rewrite omap_app. cbn. rewrite Hi.
  by rewrite fold_left_app.
Qed.

Lemma serve_status c tx_id sh :
  ca_request c = RqStatus tx_id ->
  fst (serve c sh) = status_answer (in_safe_mode sh) (en_txs (sh_engine sh) !! tx_id).
Proof.
  intros Hc. unfold serve, in_safe_mode. rewrite Hc. cbn [engine_request]. unfold tx_status, get_engine.
  unfold mbind, M_bind. cbn [gets view ew_engine]. unfold throw_if.
  destruct (en_safe_mode (sh_engine sh)); [done|].
  by destruct (en_txs (sh_engine sh) !! tx_id).
Qed.

Lemma caller_at pl i c st : coherent pl -> pl_threads pl !! i = Some (mkThread c st) -> cs !! i = Some c.
Proof.
  intros Hco Hi. rewrite <-(co_callers pl Hco). unfold callers. by rewrite list_lookup_fmap, Hi.
Qed.

(** What the running writer ends in is what comes next in the order. *)
Lemma holder_final pl i c since p lo :
  coherent pl -> pl_holder pl = Some i ->
  pl_threads pl !! i = Some (mkThread c (Running since p lo)) ->
  alone p (view (pl_shared pl) lo) = engine_request (ca_request c) (view (upto (pl_order pl)) (ca_local c)) ->
  shared_of (final p (view (pl_shared pl) lo)) = upto (committed pl).
Proof.
  intros Hco Hh Hi Hrun. unfold committed. rewrite Hh. change (option_list (Some i)) with [i].
  rewrite (upto_snoc _ _ c) by (by eapply caller_at). rewrite serve_steps. unfold final.
  by rewrite Hrun, implements_engine_request.
Qed.

(** What can be seen now: the table of a moment between the last writer that
    has returned and the one that is at it. *)
Lemma seen_now pl :
  coherent pl -> in_safe_mode (upto (committed pl)) = false ->
  in_safe_mode (pl_shared pl) = false /\
  exists k, (length (pl_order pl) <= k <= length (committed pl))%nat /\
    in_safe_mode (upto (take k (committed pl))) = false /\
    en_txs (sh_engine (pl_shared pl)) = en_txs (sh_engine (upto (take k (committed pl)))).
Proof.
  intros Hco Hgood. pose proof (co_holder pl Hco) as Hh. unfold holder_ok in Hh.
  destruct (pl_holder pl) as [i|] eqn:Hi.
  - destruct Hh as (c & since & p & lo & Hth & _ & Hrun & Hsees).
    rewrite (holder_final pl i c since p lo Hco Hi Hth Hrun) in Hsees.
    assert (Hlen : length (committed pl) = S (length (pl_order pl))).
    { unfold committed. rewrite Hi, length_app. cbn. lia. }
    assert (Hbefore : take (length (pl_order pl)) (committed pl) = pl_order pl)
      by (unfold committed; apply take_app_length).
    destruct Hsees as [?|[Hfrom Hway]]; [congruence|].
    apply Forall_cons in Hway as [[Hnow Htxs] _]. split; [exact Hnow|].
    destruct Htxs as [Htxs|Htxs].
    + exists (length (pl_order pl)). rewrite Hbefore. split_and!; [lia|lia|done|exact Htxs].
    + exists (length (committed pl)). rewrite firstn_all.
      split_and!; [lia|lia|done|exact Htxs].
  - assert (Hc : committed pl = pl_order pl) by (unfold committed; rewrite Hi; apply app_nil_r).
    rewrite Hc, Hh in *. split; [done|]. exists (length (pl_order pl)). rewrite firstn_all.
    split_and!; done || lia.
Qed.

Lemma answered_now pl c since tx_id :
  coherent pl -> (since <= length (pl_order pl))%nat -> ca_request c = RqStatus tx_id ->
  answered pl c since (status_answer false (en_txs (sh_engine (pl_shared pl)) !! tx_id)).
Proof.
  intros Hco Hsince Hc. unfold answered.
  destruct (in_safe_mode (upto (committed pl))) eqn:Hgood; [by left|right].
  destruct (seen_now pl Hco Hgood) as (_ & k & Hk & Hsafe & Htxs).
  exists k. split; [lia|]. by rewrite (serve_status _ _ _ Hc), Hsafe, Htxs.
Qed.

(** ** The turns *)

(** A turn that is none of the holder's. *)
Lemma holder_ok_frame pl pl' i th th' :
  holder_ok pl -> pl_threads pl !! i = Some th ->
  (takes_lock (ca_request (th_caller th)) = false \/ th_stage th = Waiting) ->
  pl_shared pl' = pl_shared pl -> pl_order pl' = pl_order pl -> pl_holder pl' = pl_holder pl ->
  pl_threads pl' = <[i := th']> (pl_threads pl) -> holder_ok pl'.
Proof.
  intros Hok Hi Hother Hs Ho Hh Ht. unfold holder_ok in *. rewrite Hs, Ho, Hh, Ht.
  destruct (pl_holder pl) as [h|]; [|done].
  destruct Hok as (c & since & p & lo & Hth & Hw & Hrest). exists c, since, p, lo.
  split; [|done]. rewrite list_lookup_insert_ne; [done|]. intros ->.
  rewrite Hi in Hth. injection Hth as ->. cbn in Hother. destruct Hother; congruence.
Qed.

Lemma coherent_reader pl pl' i c st st' :
  coherent pl -> pl_threads pl !! i = Some (mkThread c st) ->
  (takes_lock (ca_request c) = false) ->
  pl_shared pl' = pl_shared pl -> pl_order pl' = pl_order pl -> pl_holder pl' = pl_holder pl ->
  pl_threads pl' = <[i := mkThread c st']> (pl_threads pl) ->
  thread_ok pl' i (mkThread c st') -> coherent pl'.
Proof.
  intros Hco Hi Hr Hs Ho Hh Ht Hth.
  assert (Hc : committed pl' = committed pl) by (unfold committed; by rewrite Ho, Hh).
  split; rewrite ?Hc.
  - unfold callers. rewrite Ht, (callers_insert _ _ _ st) by done. apply co_callers, Hco.
  - apply co_nodup, Hco.
  - apply co_writers, Hco.
  - eapply holder_ok_frame; try done; [apply co_holder, Hco|by left].
  - eapply (threads_on i pl pl'); [apply co_threads, Hco|by apply goes_on_same|done|done].
Qed.

(** The two steps of [tx_status], and what each finds. *)
Definition stepped (p : Prog EngineW EngineError Reply) (s : EngineW) :
    option (Prog EngineW EngineError Reply * EngineW) :=
  match p with
  | PDone _ => None
  | PStep m k => let '(o, s') := m s in Some (k o, s')
  end.

Lemma status_first tx_id s :
  stepped (engine_request_steps (RqStatus tx_id)) s =
  Some (if safe_of s then PDone (Throw ESafeMode) else status_rest tx_id, s).
Proof.
  cbn. rewrite read_safe_mode_run. fold (safe_of s). by destruct (safe_of s).
Qed.

Lemma status_second tx_id s :
  stepped (status_rest tx_id) s = Some (PDone (status_answer false (txs_of s !! tx_id)), s).
Proof.
  cbn. change (snapshot tx_id s) with (Ret (E:=EngineError) (txs_of s !! tx_id), s).
  by destruct (txs_of s !! tx_id).
Qed.

Lemma status_moves pl c since p p' lo s' :
  coherent pl -> (since <= length (pl_order pl))%nat -> status_ok pl c since p ->
  stepped p (view (pl_shared pl) lo) = Some (p', s') -> status_ok pl c since p'.
Proof.
  intros Hco Hsince Hok Hstep tx_id Hc. destruct (Hok tx_id Hc) as [->|[->|(o & -> & _)]].
  - rewrite status_first in Hstep. injection Hstep as <- _. unfold safe_of. cbn [view ew_engine].
    destruct (en_safe_mode (sh_engine (pl_shared pl))) eqn:Hsafe; [|by right; left].
    right; right. eexists. split; [done|]. left.
    destruct (in_safe_mode (upto (committed pl))) eqn:Hgood; [done|].
    destruct (seen_now pl Hco Hgood) as [Hnow _]. unfold in_safe_mode in Hnow. congruence.
  - rewrite status_second in Hstep. injection Hstep as <- _. right; right. eexists.
    split; [done|]. by apply answered_now.
  - done.
Qed.

Lemma quiet_moves p s p' s' :
  quiet shared_same p -> stepped p s = Some (p', s') ->
  shared_of s' = shared_of s /\ quiet shared_same p'.
Proof.
  destruct p as [o|F B m k]; [done|]. intros [Hm Hk] Hstep. specialize (Hm s). cbn in Hstep.
  destruct (m s) as [o s1]. injection Hstep as <- <-. auto.
Qed.

Lemma writer_moves p s p' s' :
  stepped p s = Some (p', s') ->
  alone p s = alone p' s' /\ final p s = final p' s' /\ trail p s = s' :: trail p' s'.
Proof.
  destruct p as [o|F B m k]; [done|]. intros Hstep. cbn in Hstep. unfold final. cbn.
  destruct (m s) as [o s1]. by injection Hstep as <- <-.
Qed.

Lemma coherent_reader_step pl i c since p lo p' s' :
  coherent pl -> pl_threads pl !! i = Some (mkThread c (Running since p lo)) ->
  takes_lock (ca_request c) = false -> stepped p (view (pl_shared pl) lo) = Some (p', s') ->
  coherent (mkPool (shared_of s') (pl_holder pl) (pl_order pl)
              (<[i := mkThread c (Running since p' (local_of s'))]> (pl_threads pl))).
Proof.
  intros Hco Hi Hr Hstep. pose proof (co_threads pl Hco i _ Hi) as Hok. unfold thread_ok in Hok.
  cbn in Hok. rewrite Hr in Hok. destruct Hok as (Hsince & Hq & Hst).
  destruct (quiet_moves _ _ _ _ Hq Hstep) as [Hsh Hq']. rewrite shared_of_view in Hsh.
  eapply (coherent_reader pl _ i c); try done. unfold thread_ok. cbn. rewrite Hr.
  split_and!; [done|done|]. intros tx_id Htx.
  pose proof (status_moves pl c since p p' lo s' Hco Hsince Hst Hstep tx_id Htx) as Hmv.
  destruct Hmv as [?|[?|(o & Ho & Hans)]]; [by left|by right; left|]. right; right.
  exists o. split; [done|]. exact Hans.
Qed.

Lemma coherent_writer_step pl i c since p lo p' s' :
  coherent pl -> pl_threads pl !! i = Some (mkThread c (Running since p lo)) ->
  takes_lock (ca_request c) = true -> stepped p (view (pl_shared pl) lo) = Some (p', s') ->
  coherent (mkPool (shared_of s') (pl_holder pl) (pl_order pl)
              (<[i := mkThread c (Running since p' (local_of s'))]> (pl_threads pl))).
Proof.
  intros Hco Hi Hw Hstep. set (pl' := mkPool _ _ _ _).
  pose proof (co_threads pl Hco i _ Hi) as Hok. unfold thread_ok in Hok.
  cbn in Hok. rewrite Hw in Hok. destruct Hok as (Hsince & Hh).
  pose proof (co_holder pl Hco) as Hhold. unfold holder_ok in Hhold. rewrite Hh in Hhold.
  destruct Hhold as (c1 & since1 & p1 & lo1 & Hth & _ & Hrun & Hsees).
  rewrite Hi in Hth. injection Hth as <- <- <- <-.
  destruct (writer_moves _ _ _ _ Hstep) as (Halone & Hfin & Htrail).
  assert (Hon : goes_on i pl pl') by by apply goes_on_same.
  split.
  - unfold callers. cbn. rewrite (callers_insert _ _ _ (Running since p lo)) by done.
    apply co_callers, Hco.
  - apply (co_nodup pl Hco).
  - apply (co_writers pl Hco).
  - unfold holder_ok. cbn. rewrite Hh. exists c, since, p', (local_of s').
    rewrite view_of. split_and!.
    + apply list_lookup_insert_eq. by eapply lookup_lt_Some.
    + done.
    + by rewrite <-Halone.
    + rewrite <-Hfin. destruct Hsees as [?|[Hf Hway]]; [by left|right]. split; [done|].
      rewrite Htrail in Hway. by apply Forall_cons in Hway as [_ Hway].
  - eapply (threads_on i pl pl'); [apply co_threads, Hco|done|done|]. unfold thread_ok. cbn.
    by rewrite Hw.
Qed.

(** A writer takes [dm_lock]. *)
Lemma coherent_writer_begins pl i c :
  coherent pl -> pl_threads pl !! i = Some (mkThread c Waiting) ->
  takes_lock (ca_request c) = true -> pl_holder pl = None ->
  coherent (mkPool (pl_shared pl) (Some i) (pl_order pl)
              (<[i := mkThread c (Running (length (pl_order pl)) (engine_request_steps (ca_request c))
                                          (ca_local c))]> (pl_threads pl))).
Proof.
  intros Hco Hi Hw Hh. set (pl' := mkPool _ _ _ _).
  assert (Hc : committed pl = pl_order pl) by (unfold committed; rewrite Hh; apply app_nil_r).
  assert (Hc' : committed pl' = pl_order pl ++ [i]) by done.
  pose proof (caller_at pl i c _ Hco Hi) as Hcs.
  pose proof (co_holder pl Hco) as Hhold. unfold holder_ok in Hhold. rewrite Hh in Hhold.
  pose proof (co_threads pl Hco i _ Hi) as Hok. unfold thread_ok in Hok. cbn in Hok.
  set (s := view (upto (pl_order pl)) (ca_local c)).
  assert (Hnext : upto (committed pl') = shared_of (final (engine_request_steps (ca_request c)) s)).
  { rewrite Hc', (upto_snoc _ _ c Hcs). by rewrite serve_steps. }
  pose proof (settling_engine_request (ca_request c) Hw) as Hsettle.
  assert (Hon : goes_on i pl pl').
  { split.
    - exists [i]. rewrite Hc, Hc'. split; [done|]. intros j Hj. by apply list_elem_of_singleton in Hj.
    - exists []. by rewrite app_nil_r.
    - congruence.
    - rewrite Hc, Hnext. intros Hbad. apply (settles_sticky txs_of safe_of _ Hsettle s). exact Hbad. }
  split.
  - unfold callers. cbn. rewrite (callers_insert _ _ _ Waiting) by done. apply co_callers, Hco.
  - rewrite Hc'. apply NoDup_app. split_and!.
    + rewrite <-Hc. apply co_nodup, Hco.
    + intros j Hj Hin. apply list_elem_of_singleton in Hin as ->. by rewrite Hc in Hok.
    + apply NoDup_singleton.
  - rewrite Hc'. intros j Hj. apply elem_of_app in Hj as [Hj|Hj].
    + apply (co_writers pl Hco). by rewrite Hc.
    + apply list_elem_of_singleton in Hj as ->. eauto.
  - unfold holder_ok. cbn. eexists _, _, _, _. rewrite Hhold. split_and!.
    + apply list_lookup_insert_eq. by eapply lookup_lt_Some.
    + done.
    + apply implements_engine_request.
    + unfold sees. fold s. destruct (safe_of (final (engine_request_steps (ca_request c)) s)) eqn:Hbad.
      { by left. }
      right. destruct (Hsettle s Hbad) as [Hgood Hway]. split; [done|]. constructor; [|done].
      split; [done|by left].
  - eapply (threads_on i pl pl'); [apply co_threads, Hco|done|done|]. unfold thread_ok. cbn.
    by rewrite Hw.
Qed.

(** A writer returns and drops its guard. *)
Lemma coherent_writer_returns pl i c since o lo :
  coherent pl -> pl_threads pl !! i = Some (mkThread c (Running since (PDone o) lo)) ->
  takes_lock (ca_request c) = true ->
  coherent (mkPool (pl_shared pl) None (pl_order pl ++ [i])
              (<[i := mkThread c (Returned since o lo)]> (pl_threads pl))).
Proof.
  intros Hco Hi Hw. set (pl' := mkPool _ _ _ _).
  pose proof (co_threads pl Hco i _ Hi) as Hok. unfold thread_ok in Hok.
  cbn in Hok. rewrite Hw in Hok. destruct Hok as (Hsince & Hh).
  pose proof (caller_at pl i c _ Hco Hi) as Hcs.
  pose proof (co_holder pl Hco) as Hhold. unfold holder_ok in Hhold. rewrite Hh in Hhold.
  destruct Hhold as (c1 & since1 & p1 & lo1 & Hth & _ & Hrun & _).
  rewrite Hi in Hth. injection Hth as <- <- <- <-.
  assert (Hc : committed pl = pl_order pl ++ [i]) by (unfold committed; by rewrite Hh).
  assert (Hc' : committed pl' = pl_order pl ++ [i]) by apply app_nil_r.
  assert (Hserve : serve c (upto (pl_order pl)) = (o, pl_shared pl)).
  { unfold serve. rewrite <-Hrun. cbn. by rewrite shared_of_view. }
  split.
  - unfold callers. cbn. rewrite (callers_insert _ _ _ (Running since (PDone o) lo)) by done.
    apply co_callers, Hco.
  - rewrite Hc', <-Hc. apply co_nodup, Hco.
  - rewrite Hc', <-Hc. apply co_writers, Hco.
  - change (pl_shared pl = upto (pl_order pl ++ [i])).
    by rewrite (upto_snoc _ _ c Hcs), Hserve.
  - eapply (threads_on i pl pl'); [apply co_threads, Hco| |done|].
    + split.
      * exists []. rewrite Hc, Hc', app_nil_r. split; [done|].
        intros j Hj. by apply not_elem_of_nil in Hj.
      * by exists [i].
      * congruence.
      * by rewrite Hc, Hc'.
    + unfold thread_ok. cbn. rewrite Hw. exists (length (pl_order pl)).
      rewrite take_app_length, Hserve. split; [|done]. by apply list_lookup_middle.
Qed.

Lemma pool_stepped i pl c since p lo :
  pl_threads pl !! i = Some (mkThread c (Running since p lo)) ->
  pool_step i pl =
  match stepped p (view (pl_shared pl) lo), p with
  | Some (p', s'), _ =>
      Some (mkPool (shared_of s') (pl_holder pl) (pl_order pl)
              (<[i := mkThread c (Running since p' (local_of s'))]> (pl_threads pl)))
  | None, PDone o =>
      Some (if takes_lock (ca_request c)
            then mkPool (pl_shared pl) None (pl_order pl ++ [i])
                        (<[i := mkThread c (Returned since o lo)]> (pl_threads pl))
            else mkPool (pl_shared pl) (pl_holder pl) (pl_order pl)
                        (<[i := mkThread c (Returned since o lo)]> (pl_threads pl)))
  | None, PStep _ _ => None
  end.
Proof.
  intros Hi. unfold pool_step. rewrite Hi. cbn. destruct p as [o|F B m k]; [done|]. cbn.
  by destruct (m (view (pl_shared pl) lo)).
Qed.

Lemma coherent_reader_begins pl i c :
  coherent pl -> pl_threads pl !! i = Some (mkThread c Waiting) ->
  takes_lock (ca_request c) = false ->
  coherent (mkPool (pl_shared pl) (pl_holder pl) (pl_order pl)
              (<[i := mkThread c (Running (length (pl_order pl)) (engine_request_steps (ca_request c))
                                          (ca_local c))]> (pl_threads pl))).
Proof.
  intros Hco Hi Hr. eapply (coherent_reader pl _ i c); try done. unfold thread_ok. cbn. rewrite Hr.
  split_and!; [done|by apply quiet_engine_request|]. intros tx_id Hc. left. by rewrite Hc.
Qed.

Lemma coherent_reader_returns pl i c since o lo :
  coherent pl -> pl_threads pl !! i = Some (mkThread c (Running since (PDone o) lo)) ->
  takes_lock (ca_request c) = false ->
  coherent (mkPool (pl_shared pl) (pl_holder pl) (pl_order pl)
              (<[i := mkThread c (Returned since o lo)]> (pl_threads pl))).
Proof.
  intros Hco Hi Hr. pose proof (co_threads pl Hco i _ Hi) as Hok. unfold thread_ok in Hok.
  cbn in Hok. rewrite Hr in Hok. destruct Hok as (_ & _ & Hst).
  eapply (coherent_reader pl _ i c); try done. unfold thread_ok. cbn. rewrite Hr.
  intros tx_id Hc. destruct (Hst tx_id Hc) as [Hp|[Hp|(o' & [= <-] & Hans)]]; [..|exact Hans].
  - by cbn in Hp.
  - by cbn in Hp.
Qed.

Lemma coherent_turn pl i : coherent pl -> coherent (turn pl i).
Proof.
  intros Hco. unfold turn. destruct (pl_threads pl !! i) as [[c st]|] eqn:Hi.
  2: { unfold pool_step. by rewrite Hi. }
  destruct (takes_lock (ca_request c)) eqn:Hw; destruct st as [|since p lo|since o lo];
    try (unfold pool_step; rewrite Hi; cbn; by rewrite ?Hw).
  - unfold pool_step. rewrite Hi. cbn. rewrite Hw.
    destruct (pl_holder pl) as [h|] eqn:Hh; [done|]. by apply coherent_writer_begins.
  - rewrite (pool_stepped i pl c since p lo Hi), Hw.
    destruct (stepped p _) as [[p' s']|] eqn:Hst; [by eapply coherent_writer_step|].
    destruct p; [by eapply coherent_writer_returns|done].
  - unfold pool_step. rewrite Hi. cbn. rewrite Hw. by apply coherent_reader_begins.
  - rewrite (pool_stepped i pl c since p lo Hi), Hw.
    destruct (stepped p _) as [[p' s']|] eqn:Hst; [by eapply coherent_reader_step|].
    destruct p; [by eapply coherent_reader_returns|done].
Qed.

Lemma coherent_start : coherent (pool_start sh0 cs).
Proof.
  split.
  - unfold callers, pool_start. cbn. rewrite <-list_fmap_compose. apply list_fmap_id.
  - apply NoDup_nil_2.
  - intros i Hi. by apply not_elem_of_nil in Hi.
  - done.
  - intros j th Hj. cbn in Hj. rewrite list_lookup_fmap in Hj.
    apply fmap_Some in Hj as (c & _ & ->). unfold thread_ok. cbn. apply not_elem_of_nil.
Qed.

Lemma coherent_run schedule : coherent (pool_run schedule (pool_start sh0 cs)).
Proof. apply (fold_left_inv turn coherent coherent_turn), coherent_start. Qed.

Lemma holder_not_returned pl : coherent pl -> all_returned pl = true -> pl_holder pl = None.
Proof.
  intros Hco Hall. destruct (pl_holder pl) as [i|] eqn:Hh; [|done]. exfalso.
  pose proof (co_holder pl Hco) as Hok. unfold holder_ok in Hok. rewrite Hh in Hok.
  destruct Hok as (c & since & p & lo & Hi & _). unfold all_returned in Hall.
  rewrite forallb_forall in Hall. apply list_elem_of_lookup_2, list_elem_of_In in Hi.
  by specialize (Hall _ Hi).
Qed.
End Invariant.

(** ** Every request comes to an end *)

(** What is left after a step. *)
Definition continues (q p : Prog EngineW EngineError Reply) : Prop :=
  match p with
  | PDone _ => False
  | PStep m k => exists o, q = k o
  end.

Lemma continues_acc p : Acc continues p.
Proof.
  induction p as [o|F B m k IH]; constructor; intros q Hq; [done|].
  destruct Hq as [o ->]. apply IH.
Qed.

(** What a turn does to its thread. *)
Definition th_next (th' th : Thread) : Prop :=
  th_caller th' = th_caller th /\
  match th_stage th, th_stage th' with
  | Waiting, Running _ _ _ => True
  | Running since p _, Running since' q _ => continues q p
  | Running _ _ _, Returned _ _ _ => True
  | _, _ => False
  end.

Lemma th_returned_acc c since o lo : Acc th_next (mkThread c (Returned since o lo)).
Proof. constructor. by intros [c' []] [_ Hth]. Qed.

Lemma th_running_acc c since p lo : Acc th_next (mkThread c (Running since p lo)).
Proof.
  revert c since lo. induction (continues_acc p) as [p _ IH]. intros c since lo. constructor.
  intros [c' [|since' q lo'|since' o lo']] [_ Hth]; cbn in Hth; [done|by apply IH|].
  apply th_returned_acc.
Qed.

Lemma th_acc th : Acc th_next th.
Proof.
  destruct th as [c [|since p lo|since o lo]]; [|apply th_running_acc|apply th_returned_acc].
  constructor. intros [c' [|since p lo|since o lo]] [_ Hth]; [done|apply th_running_acc|done].
Qed.
End Serial.

(** One element of a list goes down. *)
Definition list_next {A} (R : A -> A -> Prop) (l' l : list A) : Prop :=
  exists i x x', l !! i = Some x /\ R x' x /\ l' = <[i := x']> l.

Lemma list_next_acc {A} (R : A -> A -> Prop) (l : list A) :
  (forall x, Acc R x) -> Acc (list_next R) l.
Proof.
  intros HR. induction l as [|x l IH].
  - constructor. by intros l' (i & ? & ? & ? & _).
  - revert l IH. induction (HR x) as [x _ IHx]. intros l Hl. induction Hl as [l Hl IHl].
    constructor. intros l' (i & y & y' & Hi & Hy & ->). destruct i as [|i].
    + injection Hi as ->. apply IHx; [done|]. by constructor.
    + apply IHl. by exists i, y, y'.
Qed.

Section Theorems.
Context `{JsonNumber} `{!BrokerCodec} `{!IoEnv} `{!HostAdapter}.

Lemma pool_step_threads i pl pl' :
  pool_step i pl = Some pl' ->
  exists th th', pl_threads pl !! i = Some th /\ th_next th' th /\
                 pl_threads pl' = <[i := th']> (pl_threads pl).
Proof.
  intros Hi. unfold pool_step in Hi. destruct (pl_threads pl !! i) as [[c st]|] eqn:Hth; [|done].
  cbn in Hi. destruct st as [|since p lo|since o lo]; [| |done].
  - eexists _, _. split; [done|].
    assert (Hn : th_next (mkThread c (Running (length (pl_order pl))
      (engine_request_steps (ca_request c)) (ca_local c))) (mkThread c Waiting)) by done.
    split; [exact Hn|]. destruct (takes_lock _); [destruct (pl_holder pl); [done|]|];
      by injection Hi as <-.
  - destruct p as [o|F B m k].
    + exists (mkThread c (Running since (PDone o) lo)), (mkThread c (Returned since o lo)).
      split; [done|]. split; [done|]. injection Hi as <-. by destruct (takes_lock _).
    + destruct (m _) as [o s']. injection Hi as <-.
      eexists _, (mkThread c (Running since (k o) (local_of s'))).
      split; [done|]. split; [|done]. split; [done|]. by exists o.
Qed.

Lemma pool_next_threads pl' pl :
  pool_next pl' pl -> list_next th_next (pl_threads pl') (pl_threads pl).
Proof.
  intros [i Hi]. destruct (pool_step_threads i pl pl' Hi) as (th & th' & Hth & Hn & Ht).
  by exists i, th, th'.
Qed.

Lemma pool_acc pl : Acc pool_next pl.
Proof.
  pose proof (list_next_acc th_next (pl_threads pl) th_acc) as Hacc.
  remember (pl_threads pl) as ths eqn:Heq. revert pl Heq.
  induction Hacc as [ths _ IH]. intros pl ->. constructor. intros pl' Hpl'.
  eapply IH; [|done]. by apply pool_next_threads.
Qed.

(** Someone can run: the thread in [dm_lock], when another waits for it. *)
Lemma pool_moves sh cs pl :
  coherent sh cs pl -> all_returned pl = true \/ exists i pl', pool_step i pl = Some pl'.
Proof.
  intros Hco. destruct (all_returned pl) eqn:Hall; [by left|right]. unfold all_returned in Hall.
  assert (Hex : exists i c st, pl_threads pl !! i = Some (mkThread c st) /\
                               returned (mkThread c st) = false).
  { apply not_true_iff_false in Hall. rewrite forallb_forall in Hall.
    destruct (decide (Exists (fun th => returned th = false) (pl_threads pl))) as [Hyes|Hno].
    - apply Exists_exists in Hyes as ([c st] & Hin & Hr).
      apply list_elem_of_lookup_1 in Hin as [i Hi]. eauto.
    - exfalso. apply Hall. intros th Hin. apply list_elem_of_In in Hin.
      apply not_Exists_Forall in Hno; [|intros ?; apply _]. rewrite Forall_forall in Hno.
      specialize (Hno th Hin). cbn in Hno. by apply not_false_iff_true in Hno. }
  assert (Hrun : forall i c since p lo,
    pl_threads pl !! i = Some (mkThread c (Running since p lo)) ->
    exists i pl', pool_step i pl = Some pl').
  { intros i c since p lo Hi. exists i. rewrite (pool_stepped i pl c since p lo Hi).
    destruct p as [o|F B m k]; cbn; [eauto|]. destruct (m _). eauto. }
  destruct Hex as (i & c & st & Hi & Hr). destruct st as [|since p lo|since o lo]; [|eauto|done].
  destruct (takes_lock (ca_request c)) eqn:Hw.
  - destruct (pl_holder pl) as [h|] eqn:Hh.
    + pose proof (co_holder _ _ pl Hco) as Hok. unfold holder_ok in Hok. rewrite Hh in Hok.
      destruct Hok as (c' & since & p & lo & Hth & _). eauto.
    + exists i. unfold pool_step. rewrite Hi. cbn. rewrite Hw, Hh. eauto.
  - exists i. unfold pool_step. rewrite Hi. cbn. rewrite Hw. eauto.
Qed.

Lemma pool_completes sh cs pl :
  coherent sh cs pl -> exists more, all_returned (pool_run more pl) = true.
Proof.
  intros Hco. induction (pool_acc pl) as [pl _ IH].
  destruct (pool_moves sh cs pl Hco) as [Hall|(i & pl' & Hi)]; [by exists []|].
  assert (Hturn : turn pl i = pl') by (unfold turn; by rewrite Hi).
  destruct (IH pl') as [more Hmore]; [by exists i|rewrite <-Hturn; by apply coherent_turn|].
  exists (i :: more). cbn. by rewrite Hturn.
Qed.

(** The steps of a request, taken without interruption, are the
    operation as a whole, for every request, state and outcome. *)
Theorem steps_alone_are_the_operation r s : alone (engine_request_steps r) s = engine_request r s.
Proof. apply implements_engine_request. Qed.

(** C4: whatever the schedule, the writers are serialised.  When no operation
    is in [dm_lock], the engine and the files are those of running the writers
    that have returned as whole operations, one after another, in the order in
    which they returned, and each was answered what it is answered there; the
    readers in between left no trace. *)
Theorem requests_are_serialised sh cs schedule :
  let pl := pool_run schedule (pool_start sh cs) in
  let order := pl_order pl in
  NoDup order /\
  (forall i, i ∈ order -> exists c, cs !! i = Some c /\ takes_lock (ca_request c) = true) /\
  (pl_holder pl = None -> pl_shared pl = after (callers_at cs order) sh) /\
  (forall j c since o lo, pl_threads pl !! j = Some (mkThread c (Returned since o lo)) ->
     takes_lock (ca_request c) = true ->
     exists k, order !! k = Some j /\ o = fst (serve c (after (callers_at cs (take k order)) sh))).
Proof.
  cbn zeta. set (pl := pool_run _ _). pose proof (coherent_run sh cs schedule) as Hco. fold pl in Hco.
  assert (Hsub : forall i, i ∈ pl_order pl -> i ∈ committed pl).
  { intros i Hi. unfold committed. apply elem_of_app. by left. }
  split_and!.
  - pose proof (co_nodup _ _ pl Hco) as Hnd. by apply NoDup_app in Hnd as [? _].
  - intros i Hi. apply (co_writers _ _ pl Hco). by apply Hsub.
  - intros Hh. pose proof (co_holder _ _ pl Hco) as Hok. unfold holder_ok in Hok.
    by rewrite Hh in Hok.
  - intros j c since o lo Hj Hw. pose proof (co_threads _ _ pl Hco j _ Hj) as Hok.
    unfold thread_ok in Hok. cbn in Hok. by rewrite Hw in Hok.
Qed.

(** C14: [tx_status] takes no lock against the writers, and yet, when all is
    done and the broker is not in safe mode, every status that was answered is
    the one of the engine between two whole operations, not older than what
    had returned when it was asked. *)
Theorem status_reads_are_serial sh cs schedule j c since o lo tx_id :
  let pl := pool_run schedule (pool_start sh cs) in
  all_returned pl = true ->
  en_safe_mode (sh_engine (pl_shared pl)) = false ->
  pl_threads pl !! j = Some (mkThread c (Returned since o lo)) ->
  ca_request c = RqStatus tx_id ->
  exists k, (since <= k <= length (pl_order pl))%nat /\
            o = fst (serve c (after (callers_at cs (take k (pl_order pl))) sh)).
Proof.
  cbn zeta. set (pl := pool_run _ _). intros Hall Hsafe Hj Hc.
  pose proof (coherent_run sh cs schedule) as Hco. fold pl in Hco.
  pose proof (holder_not_returned _ _ pl Hco Hall) as Hh.
  pose proof (co_threads _ _ pl Hco j _ Hj) as Hok. unfold thread_ok in Hok. cbn in Hok.
  rewrite Hc in Hok. specialize (Hok tx_id eq_refl).
  pose proof (co_holder _ _ pl Hco) as Hsh. unfold holder_ok in Hsh. rewrite Hh in Hsh.
  unfold answered, committed in Hok. rewrite Hh in Hok. change (option_list None) with (@nil nat) in Hok.
  rewrite app_nil_r in Hok. unfold in_safe_mode in Hok. rewrite <-Hsh in Hok.
  destruct Hok as [?|Hok]; [congruence|exact Hok].
Qed.

(** No schedule runs forever, none is stuck before every request is
    answered - whoever waits for [dm_lock], another thread can run - and from
    wherever it is it can be brought to the end. *)
Theorem every_request_is_answered sh cs schedule :
  let pl := pool_run schedule (pool_start sh cs) in
  Acc pool_next pl /\
  (all_returned pl = true \/ exists i pl', pool_step i pl = Some pl') /\
  exists more, all_returned (pool_run (schedule ++ more) (pool_start sh cs)) = true.
Proof.
  cbn zeta. pose proof (coherent_run sh cs schedule) as Hco. split_and!.
  - apply pool_acc.
  - by eapply pool_moves.
  - destruct (pool_completes sh cs _ Hco) as [more Hmore]. exists more.
    unfold pool_run in *. by rewrite fold_left_app.
Qed.
End Theorems.
