(* ===== verification/ConcurrentDemo.v ===== *)
(** * Concurrent requests: a run, and two races

    The broker of [TxDemo] under a few threads.  A schedule in which a status
    is asked in the middle of a proposal; the same with a proposal that is
    undone; and a replay of the events that is overtaken by an append. *)

From S2P Require Import Prelude RustStd Json TxTypes TxStorage TxEngine TxDemo Steps EngineSteps.
From S2P Require Import Concurrent ConcurrentFacts ConcurrentTheorems.

Definition demo_shared : Shared := shared_of demo_opened.

(** Each thread asks the environment under numbers of its own. *)
Definition demo_proposer : Caller := mkCaller (RqPropose "agent" demo_md demo_params) (mkLocal 100 []).
Definition demo_tester : Caller := mkCaller (RqTest "agent" demo_md "tx-1") (mkLocal 200 []).
Definition demo_asker : Caller := mkCaller (RqStatus "tx-1") (mkLocal 0 []).
Definition demo_follower (cursor : option string) (tick : nat) : Caller :=
  mkCaller (RqReplay cursor) (mkLocal tick []).

(** The call at number [n] fails. *)
Definition demo_pool (n : nat) (cs : list Caller) (schedule : list nat) : Pool :=
  @pool_run int_number demo_broker_codec (fails_at n) demo_host schedule (pool_start demo_shared cs).

Definition answers (pl : Pool) : list (option Answer) := answer_of <$> pl_threads pl.

(** A status between the steps of a proposal, and a test that has to wait. *)
Definition demo_callers : list Caller := [demo_proposer; demo_asker; demo_tester].
Definition demo_schedule : list nat :=
  (repeat 0 11 ++ repeat 2 3 ++ repeat 1 4 ++ repeat 0 3 ++ repeat 2 20)%nat.
Definition demo_status (st : WireState) : TxStatusResult :=
  mkStatus "tx-1" st [EffD] (Some demo_base).

Lemma requests_are_serialised_witness :
  let pl := demo_pool 1000 demo_callers demo_schedule in
  pl_order pl = [0; 2]%nat /\
  pl_shared pl = @after int_number demo_broker_codec (fails_at 1000) demo_host
                        (callers_at demo_callers [0; 2]%nat) demo_shared.
Proof.
  assert (Horder : pl_order (demo_pool 1000 demo_callers demo_schedule) = [0; 2]%nat)
    by (vm_compute; reflexivity).
  assert (Hser : pl_holder (demo_pool 1000 demo_callers demo_schedule) = None ->
    pl_shared (demo_pool 1000 demo_callers demo_schedule) =
    @after int_number demo_broker_codec (fails_at 1000) demo_host
      (callers_at demo_callers (pl_order (demo_pool 1000 demo_callers demo_schedule))) demo_shared).
  { exact (proj1 (proj2 (proj2 (@requests_are_serialised int_number demo_broker_codec
             (fails_at 1000) demo_host demo_shared demo_callers demo_schedule)))). }
  rewrite Horder in Hser. split; [exact Horder|]. apply Hser. vm_compute. reflexivity.
Defined.

Lemma status_reads_are_serial_witness :
  let pl := demo_pool 1000 demo_callers demo_schedule in
  answers pl !! 1%nat = Some (Some (Ret (RpStatus (demo_status WProposed)))) /\
  exists k, (0 <= k <= 2)%nat /\
    Ret (RpStatus (demo_status WProposed)) =
    fst (@serve int_number demo_broker_codec (fails_at 1000) demo_host demo_asker
           (@after int_number demo_broker_codec (fails_at 1000) demo_host
              (callers_at demo_callers (take k [0; 2]%nat)) demo_shared)).
Proof.
  cbn zeta. split; [vm_compute; reflexivity|].
  exact (@status_reads_are_serial int_number demo_broker_codec (fails_at 1000) demo_host
           demo_shared demo_callers demo_schedule 1%nat demo_asker 0%nat
           (Ret (RpStatus (demo_status WProposed))) _ "tx-1"
           ltac:(vm_compute; reflexivity) ltac:(vm_compute; reflexivity)
           ltac:(vm_compute; reflexivity) eq_refl).
Defined.

(** ** A status of what never came about

    The event of the proposal cannot be written, so the proposal is undone.
    Asked after its entry was inserted and before it was removed, [tx_status]
    answers that the transaction is proposed; the transaction is then gone
    from the table and from the log, the proposal is refused, and there is no
    moment between whole operations at which the answer is right. *)
Lemma status_reports_what_is_undone :
  let pl := demo_pool 125 [demo_proposer; demo_asker]
              (repeat 0 11 ++ repeat 1 4 ++ repeat 0 11)%nat in
  answers pl = [Some (Throw ESafeMode); Some (Ret (RpStatus (demo_status WProposed)))] /\
  en_txs (sh_engine (pl_shared pl)) !! "tx-1" = None /\
  fs_files (sh_fs (pl_shared pl)) !! record_path ["broker"; "wal"] 1 = None /\
  fst (@serve int_number demo_broker_codec (fails_at 125) demo_host demo_asker demo_shared) =
    Throw ENotFound /\
  fst (@serve int_number demo_broker_codec (fails_at 125) demo_host demo_asker (pl_shared pl)) =
    Throw ESafeMode.
Proof. vm_compute. auto 10. Qed.

(** ** An event that nobody is told of

    [events_replay] reads the log under one lock and the cursor to go on from
    under the next.  A proposal in between appends the event 1: the answer
    holds no event and the cursor 1, and whoever goes on from there is never
    told of it, although a replay from the start returns it. *)
Lemma replay_skips_an_event :
  let event := mkStored 1 "tx.state" (state_payload "tx-1" WProposed) in
  let pl := demo_pool 1000
              [demo_proposer; demo_follower None 0; demo_follower (Some "log-1/1") 50;
               demo_follower None 70]
              (repeat 1 4 ++ repeat 0 14 ++ repeat 1 3 ++ repeat 2 6 ++ repeat 3 7)%nat in
  tail (answers pl) =
  [Some (Ret (RpEvents "log-1" [] "log-1/1"));
   Some (Ret (RpEvents "log-1" [] "log-1/1"));
   Some (Ret (RpEvents "log-1" [event] "log-1/1"))].
Proof. vm_compute. reflexivity. Qed.
