(* ===== verification/Wire.v ===== *)
(** * The broker's wire vocabulary

    [proto/src/wire.rs], [proto/src/lib.rs] and
    [proto/src/dto/system_info.rs]: versions, identifiers, operations,
    requests, responses and the safety values of a host.  Reading a request
    from a JSON value is the derived code of [serde], the interface
    [WireSerde]; what its attributes promise is [WireSerdeLaws]. *)

From S2P Require Import Prelude RustStd Json TxTypes.

(** ** proto/src/lib.rs *)

Definition PROTOCOL_VERSION_V1 : Z := 1.
Definition PROTOCOL_VERSION_V2 : Z := 2.
Definition SUPPORTED_PROTOCOL_VERSIONS : list Z := [PROTOCOL_VERSION_V1; PROTOCOL_VERSION_V2].

(** ** Identifiers *)

Definition MAX_REQUEST_ID_BYTES : nat := 64.
Definition MAX_IDEMPOTENCY_KEY_BYTES : nat := 128.
Definition TX_ID_BYTES : nat := 26.

(** [u8::is_ascii_graphic] *)
Definition is_ascii_graphic (c : Ascii.ascii) : bool :=
  let v := Z.of_nat (Ascii.nat_of_ascii c) in (33 <=? v) && (v <=? 126).

Definition all_chars (f : Ascii.ascii -> bool) (s : string) : bool :=
  forallb f (String.list_ascii_of_string s).

Definition request_id_new (raw : string) : result string string :=
  fail_if (bool_decide (raw = "")) "request id is empty";;
  fail_if (Nat.ltb MAX_REQUEST_ID_BYTES (String.length raw)) "request id too long";;
  fail_if (negb (all_chars is_ascii_graphic raw)) "request id contains non-graphic ASCII";;
  Ok raw.

Definition idempotency_key_new (raw : string) : result string string :=
  fail_if (bool_decide (raw = "")) "idempotency key is empty";;
  fail_if (Nat.ltb MAX_IDEMPOTENCY_KEY_BYTES (String.length raw)) "idempotency key too long";;
  fail_if (negb (all_chars is_ascii_graphic raw)) "idempotency key contains non-graphic ASCII";;
  Ok raw.

Definition CROCKFORD : string := "0123456789ABCDEFGHJKMNPQRSTVWXYZ".

Definition str_contains (s : string) (c : Ascii.ascii) : bool :=
  bool_decide (c ∈ String.list_ascii_of_string s).

Definition transaction_id_new (raw : string) : result string TxId :=
  fail_if (negb (Nat.eqb (String.length raw) TX_ID_BYTES)) "tx_id must be 26 bytes";;
  fail_if (negb (all_chars (str_contains CROCKFORD) raw)) "tx_id must be Crockford base32";;
  Ok raw.

(** ** Operations *)

Inductive OpName :=
  | OpSystemInfo | OpConfigPropose | OpTxTest | OpTxApply | OpTxRollback | OpTxStatus
  | OpEventsReplay.
#[export] Instance OpName_eq_dec : EqDecision OpName.
Proof. solve_decision. Defined.

Definition op_as_str (op : OpName) : string :=
  match op with
  | OpSystemInfo => "system.info"
  | OpConfigPropose => "config.propose"
  | OpTxTest => "tx.test"
  | OpTxApply => "tx.apply"
  | OpTxRollback => "tx.rollback"
  | OpTxStatus => "tx.status"
  | OpEventsReplay => "events.replay"
  end.

Definition allowed_in_v1 (op : OpName) : bool :=
  match op with OpSystemInfo => true | _ => false end.

Definition allowed_in_v2 (op : OpName) : bool :=
  match op with
  | OpSystemInfo | OpConfigPropose | OpTxTest | OpTxApply | OpTxRollback | OpTxStatus
  | OpEventsReplay => true
  end.

(** Parameters of the operations; those of [config.propose] and [tx.apply]
    are [ConfigProposeParams] and [TxApplyParams] of [TxTypes]. *)
Inductive SystemInfoParams := mkSystemInfoParams.
Record TxTestParams := mkTestParams { tp_tx_id : TxId }.
Record TxRollbackParams := mkRollbackParams {
  rp_tx_id : TxId;
  rp_idempotency_key : string;
}.
Record TxStatusParams := mkStatusParams { sp_tx_id : TxId }.
Record EventsReplayParams := mkReplayParams { ep_cursor : option string }.

Record StoredEventWire := mkStoredWire {
  sw_seq : Z;
  sw_kind : string;
  sw_payload : string;
}.

Record EventsReplayResult := mkReplayResult {
  rr_log_id : string;
  rr_events : list StoredEventWire;
  rr_cursor : string;
}.

(** ** proto/src/dto/system_info.rs *)

Inductive HostSafety := HsNone | HsSnapshotReboot | HsSnapshotLive | HsGeneration.
Inductive ServiceStateSafety := SsNone | SsDesiredState.
Inductive DataSafety := DsNone | DsDedicatedSnapshot.
Inductive ExternalEffectsSafety := EsNone.
Inductive RecoveryRequires := RrNone | RrRemoteReboot | RrOobConsole.

Record SafetyVector := mkSafety {
  sv_root_config : HostSafety;
  sv_packages : HostSafety;
  sv_bootloader : HostSafety;
  sv_kernel : HostSafety;
  sv_service_state : ServiceStateSafety;
  sv_plugin_data : DataSafety;
  sv_desktop_data : DataSafety;
  sv_home_data : DataSafety;
  sv_external_effects : ExternalEffectsSafety;
  sv_recovery_requires : RecoveryRequires;
}.

Inductive SafetySource := UnresolvedAdapterSource | AdapterProbe.

Record HostInfo := mkHostInfo {
  hi_hostname : string;
  hi_os_id : string;
  hi_os_version_id : string;
  hi_kernel_release : string;
  hi_architecture : string;
}.

Record AdapterInfo := mkAdapterInfo {
  ai_kind : string;
  ai_resolved : bool;
  ai_available_at_gate : Z;
  ai_generations : option Z;
  ai_snapshots : option Z;
}.

Record LandlockInfo := mkLandlock {
  ll_supported : bool;
  ll_abi_version : option Z;
}.

Record SystemInfo := mkSystemInfo {
  si_host : HostInfo;
  si_adapter : AdapterInfo;
  si_safety : SafetyVector;
  si_safety_source : SafetySource;
  si_landlock : LandlockInfo;
}.

(** ** Requests *)

Record Auth := mkAuth { au_token : string }.

Section Request.
Context `{JsonNumber}.

Record Request := mkRequest {
  rq_v : Z;
  rq_id : string;
  rq_op : OpName;
  rq_op_version : Z;
  rq_auth : Auth;
  rq_params : Value;
}.

Definition default_op_version : Z := 1.

Definition protocol_supported (r : Request) : bool :=
  bool_decide (rq_v r ∈ SUPPORTED_PROTOCOL_VERSIONS).

Definition operation_allowed (r : Request) : bool :=
  if rq_v r =? PROTOCOL_VERSION_V1 then allowed_in_v1 (rq_op r)
  else if rq_v r =? PROTOCOL_VERSION_V2 then allowed_in_v2 (rq_op r)
  else false.

Definition version_supported (r : Request) : bool := protocol_supported r.
End Request.

(** ** Responses *)

Inductive ErrorCode :=
  | InvalidRequest | Unauthenticated | Denied | QuotaExhausted | ApprovalRequired
  | UnsupportedOperation | Internal.
#[export] Instance ErrorCode_eq_dec : EqDecision ErrorCode.
Proof. solve_decision. Defined.

(** [{:?}] of an [ErrorCode] *)
Definition error_code_debug (c : ErrorCode) : string :=
  match c with
  | InvalidRequest => "InvalidRequest"
  | Unauthenticated => "Unauthenticated"
  | Denied => "Denied"
  | QuotaExhausted => "QuotaExhausted"
  | ApprovalRequired => "ApprovalRequired"
  | UnsupportedOperation => "UnsupportedOperation"
  | Internal => "Internal"
  end.

Inductive DecisionStage :=
  | ForbiddenClass | SafetyMinimum | OperationPolicyStage | ClassCeiling | Quota.
#[export] Instance DecisionStage_eq_dec : EqDecision DecisionStage.
Proof. solve_decision. Defined.

Definition ordinal (s : DecisionStage) : Z :=
  match s with
  | ForbiddenClass => 1
  | SafetyMinimum => 2
  | OperationPolicyStage => 3
  | ClassCeiling => 4
  | Quota => 5
  end.

Record ResponseError := mkResponseError {
  re_code : ErrorCode;
  re_stage : option DecisionStage;
}.

Definition response_error_new (code : ErrorCode) : ResponseError :=
  {| re_code := code; re_stage := None |}.
Definition at_stage (code : ErrorCode) (stage : DecisionStage) : ResponseError :=
  {| re_code := code; re_stage := Some stage |}.

Record CallBinding := mkBinding {
  cb_agent_id : string;
  cb_manifest_digest : Digest;
  cb_effect_set : list EffectClass;
  cb_operation_digest : Digest;
}.

Inductive OperationResult :=
  | RSystemInfo (r : SystemInfo)
  | RConfigPropose (r : ConfigProposeResult)
  | RTxTest (r : TxStepResult)
  | RTxApply (r : TxStepResult)
  | RTxRollback (r : TxStepResult)
  | RTxStatus (r : TxStatusResult)
  | REventsReplay (r : EventsReplayResult).

Record Response := mkResponse {
  rs_v : Z;
  rs_id : option string;
  rs_result : option OperationResult;
  rs_binding : option CallBinding;
  rs_error : option ResponseError;
}.

Definition response_ok (id : string) (protocol : Z) (r : OperationResult) (b : CallBinding) :
    Response :=
  {| rs_v := protocol; rs_id := Some id; rs_result := Some r; rs_binding := Some b;
     rs_error := None |}.

Definition response_failed (id : option string) (protocol : Z) (e : ResponseError) : Response :=
  {| rs_v := protocol; rs_id := id; rs_result := None; rs_binding := None;
     rs_error := Some e |}.

Definition is_success (r : Response) : bool :=
  match rs_result r with Some _ => true | None => false end.

(** ** What the derived readers and writers promise *)

Class WireSerde `{JsonNumber} := {
  request_from_value : Value -> option Request;
  system_info_params : Value -> option SystemInfoParams;
  config_propose_params : Value -> option ConfigProposeParams;
  tx_test_params : Value -> option TxTestParams;
  tx_apply_params : Value -> option TxApplyParams;
  tx_rollback_params : Value -> option TxRollbackParams;
  tx_status_params : Value -> option TxStatusParams;
  events_replay_params : Value -> option EventsReplayParams;
  system_info_params_to_value : SystemInfoParams -> option Value;
  config_propose_params_to_value : ConfigProposeParams -> option Value;
  tx_test_params_to_value : TxTestParams -> option Value;
  tx_apply_params_to_value : TxApplyParams -> option Value;
  tx_rollback_params_to_value : TxRollbackParams -> option Value;
  tx_status_params_to_value : TxStatusParams -> option Value;
  events_replay_params_to_value : EventsReplayParams -> option Value;
}.
