(* ===== verification/Jcs.v ===== *)
(** * Canonical JSON and the digests over it

    [broker/src/jcs.rs] (RFC 8785), [broker/src/digest.rs] and
    [proto/src/strict.rs].  A Rust string is its UTF-8 bytes, so writing it
    character by character is writing it byte by byte: every character with a
    form of its own is ASCII.  The tokens of a document and the digits of a
    double come from [serde_json] and the formatter of the standard library,
    the interfaces [JsonNumberFrom], [JsonFloat] and [JsonDocument]. *)

From S2P Require Import Prelude RustStd Json TxTypes.

(** [Value::from] of an integer, and what it promises. *)
Class JsonNumberFrom `{JsonNumber} := {
  from_u64 : Z -> Number;
  from_i64 : Z -> Number;
}.

Class JsonNumberFromLaws `{JsonNumberFrom} : Prop := {
  as_u64_from z : is_u64 z -> as_u64 (from_u64 z) = Some z;
  as_i64_from z : - 2 ^ 63 <= z < 2 ^ 63 -> as_i64 (from_i64 z) = Some z;
  as_u64_from_negative z : z < 0 -> as_u64 (from_i64 z) = None;
  from_as_u64 n z : as_u64 n = Some z -> n = from_u64 z;
  from_as_i64 n z : as_i64 n = Some z -> n = from_i64 z;
}.

(** [f64]: the tests the code makes on one and [format!("{:e}")] of its
    magnitude. *)
Class JsonFloat `{JsonNumber} := {
  f64 : Type;
  as_f64 : Number -> option f64;
  f64_is_finite : f64 -> bool;
  f64_is_zero : f64 -> bool;
  f64_is_negative : f64 -> bool;
  format_lower_exp : f64 -> string;
}.

(** ** proto/src/strict.rs *)

Definition MAX_INTEROPERABLE_INT : Z := 9007199254740991.

(** What [serde_json]'s reader shows a visitor, and when it does. *)
Inductive Doc :=
  | DUnit
  | DBool (b : bool)
  | DI64 (z : Z)
  | DU64 (z : Z)
  | DF64
  | DStr (s : string)
  | DSeq (items : list Doc)
  | DMap (members : list (string * Doc)).

(** The document of a text, [None] when it is malformed or followed by more. *)
Class JsonDocument := {
  json_document : list byte -> option Doc;
}.

(** [String]'s order: that of its bytes. *)
Fixpoint string_ltb (a b : string) : bool :=
  match a, b with
  | _, EmptyString => false
  | EmptyString, String _ _ => true
  | String c a, String d b =>
      let x := Z.of_nat (Ascii.nat_of_ascii c) in let y := Z.of_nat (Ascii.nat_of_ascii d) in
      (x <? y) || ((x =? y) && string_ltb a b)
  end.

Section Strict.
Context `{JsonNumberFrom}.

(** [serde_json::Map::insert], a map ordered by key: the members after it,
    and whether the key was there. *)
Fixpoint map_insert (key : string) (v : Value) (ms : list (string * Value)) :
    bool * list (string * Value) :=
  match ms with
  | [] => (false, [(key, v)])
  | (k, w) :: ms' =>
      if decide (k = key) then (true, (key, v) :: ms')
      else if string_ltb key k then (false, (key, v) :: ms)
      else let '(old, out) := map_insert key v ms' in (old, (k, w) :: out)
  end.

(** The loop of [visit_map] over members already visited. *)
Fixpoint insert_all (ms : list (string * Value)) (out : list (string * Value)) :
    result string (list (string * Value)) :=
  match ms with
  | [] => Ok out
  | (key, v) :: ms =>
      let '(old, out) := map_insert key v out in
      if old : bool then Err "duplicate object key" else insert_all ms out
  end.

(** All of a list, or its first error. *)
Fixpoint collect {E A} (l : list (result E A)) : result E (list A) :=
  match l with
  | [] => Ok []
  | r :: l => a ← r; out ← collect l; Ok (a :: out)
  end.

Definition with_key (m : string * result string Value) : result string (string * Value) :=
  v ← m.2; Ok (m.1, v).

(** [StrictVisitor] *)
Fixpoint strict_value (d : Doc) : result string Value :=
  match d with
  | DUnit => Ok VNull
  | DBool b => Ok (VBool b)
  | DI64 z =>
      if MAX_INTEROPERABLE_INT <? Z.abs z
      then Err "integer outside the interoperable range (2^53-1)" else Ok (VNumber (from_i64 z))
  | DU64 z =>
      if MAX_INTEROPERABLE_INT <? z
      then Err "integer outside the interoperable range (2^53-1)" else Ok (VNumber (from_u64 z))
  | DF64 => Err "fractional or exponent number form is not interoperable"
  | DStr s => Ok (VString s)
  | DSeq items => vs ← collect (map strict_value items); Ok (VArray vs)
  | DMap members =>
      ms ← collect (map (fun m => with_key (m.1, strict_value m.2)) members);
      out ← insert_all ms [];
      Ok (VObject out)
  end.

Definition strict_parse `{JsonDocument} (bytes : list byte) : result string Value :=
  d ← ok_or (json_document bytes) "malformed";
  strict_value d.
End Strict.

(** ** broker/src/jcs.rs *)

Inductive JcsError := NonInteroperableNumber | Format.

(** [char::encode_utf16] of each character of a UTF-8 text. *)
Definition cont_bits (b : byte) : Z := Z.land (byte_val b) 63.

Fixpoint utf8_chars (bs : list byte) : list Z :=
  match bs with
  | [] => []
  | b0 :: rest =>
      if byte_val b0 <=? 127 then byte_val b0 :: utf8_chars rest else
      match rest with
      | [] => []
      | b1 :: rest1 =>
          if byte_val b0 <=? 223
          then (Z.land (byte_val b0) 31 * 64 + cont_bits b1) :: utf8_chars rest1 else
          match rest1 with
          | [] => []
          | b2 :: rest2 =>
              if byte_val b0 <=? 239
              then (Z.land (byte_val b0) 15 * 4096 + cont_bits b1 * 64 + cont_bits b2)
                   :: utf8_chars rest2 else
              match rest2 with
              | [] => []
              | b3 :: rest3 =>
                  (Z.land (byte_val b0) 7 * 262144 + cont_bits b1 * 4096 + cont_bits b2 * 64 +
                   cont_bits b3) :: utf8_chars rest3
              end
          end
      end
  end.

Definition encode_utf16 (c : Z) : list Z :=
  if c <? 65536 then [c] else [55296 + (c - 65536) / 1024; 56320 + (c - 65536) mod 1024].

Definition utf16_units (s : string) : list Z :=
  concat (map encode_utf16 (utf8_chars (bytes_of_string s))).

(** [Iterator::cmp] *)
Fixpoint list_cmp (a b : list Z) : comparison :=
  match a, b with
  | [], [] => Eq
  | [], _ => Lt
  | _, [] => Gt
  | x :: a, y :: b => match Z.compare x y with Eq => list_cmp a b | c => c end
  end.

Definition utf16_cmp (a b : string) : comparison := list_cmp (utf16_units a) (utf16_units b).

(** [sort_by], stable, on the keys *)
Fixpoint insert_key (x : string) (l : list string) : list string :=
  match l with
  | [] => [x]
  | y :: l' => match utf16_cmp x y with Gt => y :: insert_key x l' | _ => x :: l end
  end.

Fixpoint sort_keys (l : list string) : list string :=
  match l with
  | [] => []
  | x :: l => insert_key x (sort_keys l)
  end.

Definition chr (n : nat) : string := String (Ascii.ascii_of_nat n) "".
Definition QUOTE : string := chr 34.
Definition BACKSLASH : string := chr 92.

Definition write_char (c : Ascii.ascii) : string :=
  match Ascii.nat_of_ascii c with
  | 34%nat => BACKSLASH +:+ QUOTE
  | 92%nat => BACKSLASH +:+ BACKSLASH
  | 8%nat => BACKSLASH +:+ "b"
  | 9%nat => BACKSLASH +:+ "t"
  | 10%nat => BACKSLASH +:+ "n"
  | 12%nat => BACKSLASH +:+ "f"
  | 13%nat => BACKSLASH +:+ "r"
  | n =>
      if Nat.ltb n 32 then BACKSLASH +:+ "u" +:+ hex_digits 4 (Z.of_nat n) ""
      else String c ""
  end.

Definition write_string (s : string) : string :=
  QUOTE +:+ String.concat "" (map write_char (String.list_ascii_of_string s)) +:+ QUOTE.

(** ** Doubles, as ECMAScript writes them *)

Definition is_ascii_digit (c : Ascii.ascii) : bool :=
  let v := Z.of_nat (Ascii.nat_of_ascii c) in (48 <=? v) && (v <=? 57).

Definition only_digits (s : string) : string :=
  String.string_of_list_ascii (filter is_ascii_digit (String.list_ascii_of_string s)).

(** [trim_end_matches('0')] *)
Fixpoint trim_end_zeros (s : string) : string :=
  match s with
  | EmptyString => EmptyString
  | String c s =>
      match trim_end_zeros s with
      | EmptyString => if Nat.eqb (Ascii.nat_of_ascii c) 48 then EmptyString else String c ""
      | t => String c t
      end
  end.

(** [str::parse::<i32>] *)
Definition parse_i32 (s : string) : option Z :=
  let in_range z := if (- 2 ^ 31 <=? z) && (z <? 2 ^ 31) then Some z else None in
  match s with
  | String c rest =>
      if Nat.eqb (Ascii.nat_of_ascii c) 45 then
        match rest with
        | EmptyString => None
        | _ => z ← parse_digits rest 0; in_range (- z)
        end
      else z ← parse_u64 s; in_range z
  | EmptyString => None
  end.

Fixpoint zeros (n : nat) : string :=
  match n with O => "" | S n => String (Ascii.ascii_of_nat 48) (zeros n) end.

Definition i32_checked (z : Z) : option Z :=
  if (- 2 ^ 31 <=? z) && (z <? 2 ^ 31) then Some z else None.

(** The layout of [digits], the value being 0.digits times ten to the [n]. *)
Definition layout (digits : string) (k n : Z) : option string :=
  if (k <=? n) && (n <=? 21) then Some (digits +:+ zeros (Z.to_nat (n - k)))
  else if (0 <? n) && (n <=? 21) then
    let split := Z.to_nat n in
    Some (String.substring 0 split digits +:+ "." +:+
          String.substring split (String.length digits - split) digits)
  else if (-6 <? n) && (n <=? 0) then Some ("0." +:+ zeros (Z.to_nat (- n)) +:+ digits)
  else
    match digits with
    | EmptyString => None
    | String first rest =>
        e ← i32_checked (n - 1);
        Some (String first "" +:+ (if decide (rest = "") then "" else "." +:+ rest) +:+ "e" +:+
              (if 0 <=? e then "+" else "-") +:+ format_decimal (Z.abs e))
    end.

Section Jcs.
Context `{JsonFloat}.

Definition ecma_number_to_string (value : f64) : option string :=
  if negb (f64_is_finite value) then None
  else if f64_is_zero value then Some "0"
  else
    '(mantissa, exponent) ← split_once (Ascii.ascii_of_nat 101) (format_lower_exp value);
    exponent ← parse_i32 exponent;
    let trimmed := trim_end_zeros (only_digits mantissa) in
    let digits := if decide (trimmed = "") then "0" else trimmed in
    k ← i32_checked (Z.of_nat (String.length digits));
    n ← i32_checked (exponent + 1);
    out ← layout digits k n;
    Some ((if f64_is_negative value then "-" else "") +:+ out).

Definition format_i64 (z : Z) : string :=
  if z <? 0 then "-" +:+ format_decimal (- z) else format_decimal z.

Definition number_to_string (n : Number) : result JcsError string :=
  match as_u64 n with
  | Some u =>
      if MAX_INTEROPERABLE_INT <? u then Err NonInteroperableNumber else Ok (format_decimal u)
  | None =>
      match as_i64 n with
      | Some i =>
          if MAX_INTEROPERABLE_INT <? Z.abs i then Err NonInteroperableNumber
          else Ok (format_i64 i)
      | None =>
          f ← ok_or (as_f64 n) NonInteroperableNumber;
          ok_or (ecma_number_to_string f) NonInteroperableNumber
      end
  end.

(** The items between commas. *)
Fixpoint with_commas (items : list string) : string :=
  match items with
  | [] => ""
  | [x] => x
  | x :: items => x +:+ "," +:+ with_commas items
  end.

Fixpoint lookup_member {A} (key : string) (ms : list (string * A)) : option A :=
  match ms with
  | [] => None
  | (k, a) :: ms => if decide (k = key) then Some a else lookup_member key ms
  end.

(** One member; a key that is not in the map leaves its name alone. *)
Definition write_member (written : list (string * result JcsError string)) (key : string) :
    result JcsError string :=
  let name := write_string key +:+ ":" in
  match lookup_member key written with
  | None => Ok name
  | Some w => text ← w; Ok (name +:+ text)
  end.

Fixpoint write_value (v : Value) : result JcsError string :=
  match v with
  | VNull => Ok "null"
  | VBool true => Ok "true"
  | VBool false => Ok "false"
  | VNumber n => number_to_string n
  | VString s => Ok (write_string s)
  | VArray items =>
      texts ← collect (map write_value items);
      Ok ("[" +:+ with_commas texts +:+ "]")
  | VObject ms =>
      let written := map (fun m => (m.1, write_value m.2)) ms in
      texts ← collect (map (write_member written) (sort_keys (map fst ms)));
      Ok ("{" +:+ with_commas texts +:+ "}")
  end.

Definition canonicalize (v : Value) : result JcsError (list byte) :=
  out ← write_value v; Ok (bytes_of_string out).
End Jcs.

(** ** broker/src/digest.rs *)

(** The [sha2] crate. *)
Class Sha256Hash := { sha256 : list byte -> list byte }.

Definition OPERATION_DOMAIN_V1 : list byte :=
  bytes_of_string ("agentbed.operation.v1" +:+ chr 0).
Definition OPERATION_DOMAIN_V2 : list byte :=
  bytes_of_string ("agentbed.operation.v2" +:+ chr 0).
Definition MANIFEST_DOMAIN : list byte := bytes_of_string ("agentbed.manifest.v1" +:+ chr 0).

Definition operation_domain (protocol_version : Z) : result string (list byte) :=
  if protocol_version =? 1 then Ok OPERATION_DOMAIN_V1
  else if protocol_version =? 2 then Ok OPERATION_DOMAIN_V2
  else Err "unsupported protocol version for digest".

Record OperationDigest := mkOperationDigest {
  od_canonical_bytes : list byte;
  od_digest : Digest;
}.

Section Digests.
Context `{JsonNumberFrom, !JsonFloat, !Sha256Hash}.

(** The map [json!] builds, in the order of its keys. *)
Definition canonical_input (operation : string) (operation_version : Z) (arguments : Value) :
    Value :=
  VObject [("arguments", arguments); ("operation", VString operation);
           ("operation_version", VNumber (from_u64 operation_version))].

Definition operation_digest_of (protocol_version : Z) (operation : string)
    (operation_version : Z) (arguments : Value) : result JcsError OperationDigest :=
  domain ← map_err (fun _ => Format) (operation_domain protocol_version);
  canonical_bytes ← canonicalize (canonical_input operation operation_version arguments);
  Ok {| od_canonical_bytes := canonical_bytes;
        od_digest := from_sha256_bytes (sha256 (domain ++ canonical_bytes)) |}.

Definition manifest_digest (manifest : Value) : result JcsError Digest :=
  canonical ← canonicalize manifest;
  Ok (from_sha256_bytes (sha256 (MANIFEST_DOMAIN ++ canonical))).
End Digests.
