(* ===== verification/JcsFacts.v ===== *)
(** * Facts about canonical JSON: its texts are uniquely readable

    Strings as lists of characters, what each kind of value starts with, and
    that a canonical text followed by a delimiter has one reading. *)

From stdpp Require Import sorting.
From S2P Require Import Prelude RustStd Json TxTypes TxNames Jcs.

(** ** Strings *)

Abbreviation chars := String.list_ascii_of_string.

Lemma append_cons c (x y : string) : String c x +:+ y = String c (x +:+ y).
Proof. reflexivity. Qed.

Lemma append_assoc (x y z : string) : (x +:+ y) +:+ z = x +:+ (y +:+ z).
Proof. induction x as [|c x IH]; [done|]. by rewrite !append_cons, IH. Qed.

Lemma chars_append x y : chars (x +:+ y) = chars x ++ chars y.
Proof. induction x as [|c x IH]; [done|]. rewrite append_cons. cbn. by rewrite IH. Qed.

Lemma chars_inj x y : chars x = chars y -> x = y.
Proof.
  intros Hx. rewrite <-(String.string_of_list_ascii_of_string x), Hx.
  apply String.string_of_list_ascii_of_string.
Qed.

Lemma append_inj_l x y z : x +:+ y = x +:+ z -> y = z.
Proof. induction x as [|c x IH]; [done|]. rewrite !append_cons. intros [= Hx]. auto. Qed.

Lemma append_inj_r x y z : x +:+ z = y +:+ z -> x = y.
Proof.
  intros Hx. apply chars_inj. apply (f_equal chars) in Hx.
  rewrite !chars_append in Hx. by apply app_inv_tail in Hx.
Qed.

Lemma concat_chars l : chars (String.concat "" l) = concat (map chars l).
Proof.
  induction l as [|x [|y l] IH]; [done|cbn; by rewrite app_nil_r|].
  change (String.concat "" (x :: y :: l)) with (x +:+ ("" +:+ String.concat "" (y :: l))).
  rewrite !chars_append, IH. reflexivity.
Qed.

Lemma concat_cons x l : String.concat "" (x :: l) = x +:+ String.concat "" l.
Proof. apply chars_inj. by rewrite chars_append, !concat_chars. Qed.

(** Two texts of characters in [P] before something that is not. *)
Definition heads_out (P : Ascii.ascii -> bool) (r : string) : Prop :=
  match r with "" => True | String c _ => P c = false end.

Lemma span_unique P a b r t :
  forallb P (chars a) = true -> forallb P (chars b) = true ->
  heads_out P r -> heads_out P t -> a +:+ r = b +:+ t -> a = b /\ r = t.
Proof.
  revert b. induction a as [|c a IH]; intros [|d b] Ha Hb Hr Ht Heq;
    rewrite ?append_cons in Heq; cbn [chars forallb] in *.
  - done.
  - change ("" +:+ r) with r in Heq. subst r. cbn in Hr. by rewrite Hr in Hb.
  - change ("" +:+ t) with t in Heq. subst t. cbn in Ht. by rewrite Ht in Ha.
  - injection Heq as <- Heq. apply andb_true_iff in Ha as [? ?], Hb as [? ?].
    destruct (IH b) as [<- <-]; auto.
Qed.

(** ** The order of strings *)

Lemma string_ltb_irrefl a : string_ltb a a = false.
Proof. induction a as [|c a IH]; [done|]. cbn. by rewrite Z.ltb_irrefl, Z.eqb_refl, IH. Qed.

Lemma string_ltb_trans a b c : string_ltb a b = true -> string_ltb b c = true -> string_ltb a c = true.
Proof.
  revert b c. induction a as [|x a IH]; intros [|y b] [|z c]; try done. cbn.
  rewrite !orb_true_iff, !andb_true_iff, !Z.ltb_lt, !Z.eqb_eq.
  intros [Hxy|[Hxy Hab]] [Hyz|[Hyz Hbc]]; [left; lia|left; lia|left; lia|].
  right. split; [lia|eauto].
Qed.

Lemma string_ltb_total a b : a <> b -> string_ltb a b = false -> string_ltb b a = true.
Proof.
  revert b. induction a as [|x a IH]; intros [|y b]; try done. cbn.
  rewrite orb_false_iff, andb_false_iff, orb_true_iff, andb_true_iff, !Z.ltb_lt, !Z.ltb_ge, !Z.eqb_eq, Z.eqb_neq.
  intros Hne [Hle [Hx|Hab]]; [left; lia|].
  destruct (decide (Ascii.nat_of_ascii x = Ascii.nat_of_ascii y)) as [Hxy|Hxy]; [|left; lia].
  assert (Heq : x = y) by (rewrite <-(Ascii.ascii_nat_embedding x), Hxy; apply Ascii.ascii_nat_embedding).
  right. split; [lia|]. apply IH; [congruence|done].
Qed.

Definition key_lt {A} (m m' : string * A) : Prop := string_ltb m.1 m'.1 = true.

#[export] Instance key_lt_trans {A} : Transitive (@key_lt A).
Proof. intros m1 m2 m3. apply string_ltb_trans. Qed.

(** Members in the order of a map. *)
Abbreviation map_ordered := (StronglySorted key_lt).

Lemma map_ordered_NoDup {A} (ms : list (string * A)) : map_ordered ms -> NoDup (map fst ms).
Proof.
  induction 1 as [|m ms Hs IH Hall]; cbn; constructor; [|done].
  intros (m' & Hm' & Hin)%list_elem_of_In%in_map_iff.
  rewrite Forall_forall in Hall. specialize (Hall m'). unfold key_lt in Hall.
  rewrite Hm', string_ltb_irrefl in Hall. discriminate Hall. by apply list_elem_of_In.
Qed.

Lemma map_ordered_unique {A} (ms ms' : list (string * A)) :
  map_ordered ms -> map_ordered ms' -> ms ≡ₚ ms' -> ms = ms'.
Proof.
  intros Hs Hs'. apply (StronglySorted_unique_strong key_lt); [|done|done].
  intros m1 m2 _ _ H1 H2. pose proof (string_ltb_trans _ _ _ H1 H2) as Hr.
  by rewrite string_ltb_irrefl in Hr.
Qed.

Lemma NoDup_fst_unique {A} (ms : list (string * A)) k a b :
  NoDup (map fst ms) -> (k, a) ∈ ms -> (k, b) ∈ ms -> a = b.
Proof.
  induction ms as [|[k' c] ms IH]; cbn; [by intros _ ?%not_elem_of_nil|].
  rewrite NoDup_cons, !elem_of_cons. intros [Hni Hnd] [[= -> ->]|Ha] [[= ->]|Hb]; try done.
  - destruct Hni. apply list_elem_of_In, in_map_iff. exists (k', b). split; [done|by apply list_elem_of_In].
  - subst. destruct Hni. apply list_elem_of_In, in_map_iff. exists (k', a). split; [done|by apply list_elem_of_In].
  - by apply IH.
Qed.

(** ** Characters and strings *)

(** Reads back what [write_char] wrote. *)
Definition hex_digit_value (c : Ascii.ascii) : nat := Z.to_nat (default 0 (hex_value c)).

Definition read_char (s : string) : option (Ascii.ascii * string) :=
  match s with
  | String c rest =>
      match Ascii.nat_of_ascii c with
      | 34%nat => None
      | 92%nat =>
          match rest with
          | String e rest =>
              match Ascii.nat_of_ascii e with
              | 98%nat => Some (Ascii.ascii_of_nat 8, rest)
              | 116%nat => Some (Ascii.ascii_of_nat 9, rest)
              | 110%nat => Some (Ascii.ascii_of_nat 10, rest)
              | 102%nat => Some (Ascii.ascii_of_nat 12, rest)
              | 114%nat => Some (Ascii.ascii_of_nat 13, rest)
              | 117%nat =>
                  match rest with
                  | String _ (String _ (String h (String l rest))) =>
                      Some (Ascii.ascii_of_nat (16 * hex_digit_value h + hex_digit_value l), rest)
                  | _ => None
                  end
              | _ => Some (e, rest)
              end
          | EmptyString => None
          end
      | _ => Some (c, rest)
      end
  | EmptyString => None
  end.

Lemma read_write_char c r : read_char (write_char c +:+ r) = Some (c, r).
Proof. destruct c as [[] [] [] [] [] [] [] []]; vm_compute; reflexivity. Qed.

Definition write_body (s : string) : string := String.concat "" (map write_char (chars s)).

Lemma write_body_unique s t r u :
  write_body s +:+ (QUOTE +:+ r) = write_body t +:+ (QUOTE +:+ u) -> s = t /\ r = u.
Proof.
  assert (Hq : forall c x y, write_char c +:+ x <> QUOTE +:+ y).
  { intros c x y Heq. pose proof (read_write_char c x) as Hr. by rewrite Heq in Hr. }
  revert t. induction s as [|c s IH]; intros [|d t]; unfold write_body; cbn [chars map];
    rewrite ?concat_cons, ?append_assoc; intros Heq.
  - by do 2 apply append_inj_l in Heq.
  - symmetry in Heq. by apply Hq in Heq.
  - by apply Hq in Heq.
  - pose proof (read_write_char c (write_body s +:+ (QUOTE +:+ r))) as H1.
    fold (write_body s) in Heq. fold (write_body t) in Heq. rewrite Heq, read_write_char in H1.
    injection H1 as <- H1. by apply eq_sym, IH in H1 as [<- <-].
Qed.

Lemma write_string_unique s t r u :
  write_string s +:+ r = write_string t +:+ u -> s = t /\ r = u.
Proof.
  unfold write_string. rewrite !append_assoc. intros Heq%append_inj_l.
  by apply write_body_unique in Heq.
Qed.

(** ** Numbers *)

Definition number_char (c : Ascii.ascii) : bool :=
  is_ascii_digit c || Nat.eqb (Ascii.nat_of_ascii c) 45.

Lemma digit_char_digit d : 0 <= d < 10 -> is_ascii_digit (digit_char d) = true.
Proof.
  intros Hd. assert (Hcases : In d (map Z.of_nat (seq 0 10))).
  { apply in_map_iff. exists (Z.to_nat d). split; [lia|]. apply in_seq. lia. }
  cbn in Hcases. repeat (destruct Hcases as [<-|Hcases]; [done|]). done.
Qed.

Lemma decimal_digits_chars fuel n acc :
  0 <= n -> forallb number_char (chars acc) = true ->
  forallb number_char (chars (decimal_digits fuel n acc)) = true.
Proof.
  revert n acc. induction fuel as [|fuel IH]; intros n acc Hn Hacc; [done|]. cbn.
  assert (Hd : forallb number_char (chars (String (digit_char (n mod 10)) acc)) = true).
  { cbn. unfold number_char at 1. rewrite digit_char_digit by (apply Z.mod_pos_bound; lia). done. }
  destruct (_ <? _); [done|]. apply IH; [apply Z.div_pos; lia|done].
Qed.

Lemma format_i64_chars z : forallb number_char (chars (format_i64 z)) = true.
Proof.
  unfold format_i64. destruct (z <? 0) eqn:Hz; bool_to_prop.
  - rewrite chars_append, forallb_app. apply andb_true_iff. split; [done|].
    by apply decimal_digits_chars; [lia|].
  - by apply decimal_digits_chars.
Qed.

Lemma decimal_not_minus n r : 0 <= n -> format_decimal n <> "-" +:+ r.
Proof.
  intros Hn Heq. assert (Hd : forallb is_ascii_digit (chars (format_decimal n)) = true).
  { unfold format_decimal. clear Heq. generalize 40%nat as fuel.
    assert (Hacc : forallb is_ascii_digit (chars "") = true) by done.
    revert Hacc. generalize "" as acc. intros acc Hacc fuel. revert n acc Hn Hacc.
    induction fuel as [|fuel IH]; intros n acc Hn Hacc; [done|]. cbn.
    assert (forallb is_ascii_digit (chars (String (digit_char (n mod 10)) acc)) = true).
    { cbn. by rewrite digit_char_digit by (apply Z.mod_pos_bound; lia). }
    destruct (_ <? _); [done|]. apply IH; [apply Z.div_pos; lia|done]. }
  by rewrite Heq in Hd.
Qed.

Lemma format_i64_inj z t :
  Z.abs z <= MAX_INTEROPERABLE_INT -> Z.abs t <= MAX_INTEROPERABLE_INT ->
  format_i64 z = format_i64 t -> z = t.
Proof.
  unfold MAX_INTEROPERABLE_INT. intros Hz Ht.
  assert (Hinj : forall a b, is_u64 a -> is_u64 b -> format_decimal a = format_decimal b -> a = b).
  { intros a b Ha Hb Heq. apply (f_equal parse_u64) in Heq.
    rewrite !parse_format in Heq by done. by injection Heq. }
  unfold format_i64. destruct (z <? 0) eqn:Ez, (t <? 0) eqn:Et; bool_to_prop; intros Heq.
  - apply append_inj_l, Hinj in Heq; unfold is_u64, u64_max; lia.
  - symmetry in Heq. by apply decimal_not_minus in Heq; [|lia].
  - by apply decimal_not_minus in Heq; [|lia].
  - apply Hinj in Heq; unfold is_u64, u64_max; lia.
Qed.

(** ** Values *)

Section ValueInd.
Context `{JsonNumber} (P : Value -> Prop).
Hypothesis (Hnull : P VNull) (Hbool : forall b, P (VBool b)) (Hnum : forall n, P (VNumber n))
  (Hstr : forall s, P (VString s)) (Harr : forall items, Forall P items -> P (VArray items))
  (Hobj : forall ms, Forall (fun m => P m.2) ms -> P (VObject ms)).

Fixpoint Value_rec' (v : Value) : P v :=
  match v with
  | VNull => Hnull
  | VBool b => Hbool b
  | VNumber n => Hnum n
  | VString s => Hstr s
  | VArray items =>
      Harr items ((fix go l : Forall P l :=
        match l with
        | [] => @List.Forall_nil _ _
        | x :: l => @List.Forall_cons _ _ x l (Value_rec' x) (go l)
        end) items)
  | VObject ms =>
      Hobj ms ((fix go l : Forall (fun m : string * Value => P m.2) l :=
        match l with
        | [] => @List.Forall_nil _ _
        | m :: l => @List.Forall_cons _ (fun m => P m.2) m l (Value_rec' m.2) (go l)
        end) ms)
  end.
End ValueInd.

Section Values.
Context `{JsonNumberLaws, !JsonNumberFrom, !JsonNumberFromLaws, !JsonFloat}.

Definition int_of (n : Number) : option Z :=
  match as_u64 n with Some u => Some u | None => as_i64 n end.

(** A value a strict document has: integers that survive a double, members
    in the order of a map. *)
Inductive interoperable : Value -> Prop :=
  | io_null : interoperable VNull
  | io_bool b : interoperable (VBool b)
  | io_number n z :
      int_of n = Some z -> Z.abs z <= MAX_INTEROPERABLE_INT -> interoperable (VNumber n)
  | io_string s : interoperable (VString s)
  | io_array items : Forall interoperable items -> interoperable (VArray items)
  | io_object ms :
      map_ordered ms -> Forall (fun m => interoperable m.2) ms -> interoperable (VObject ms).

Lemma int_of_inj n t z : int_of n = Some z -> int_of t = Some z -> n = t.
Proof.
  unfold int_of.
  destruct (as_u64 n) eqn:En, (as_u64 t) eqn:Et; intros Hn1 Hn2; simplify_eq.
  - apply from_as_u64 in En, Et. congruence.
  - destruct (as_u64_range _ _ En). rewrite (as_i64_u64 t z) in Et by done. done.
  - destruct (as_u64_range _ _ Et). rewrite (as_i64_u64 n z) in En by done. done.
  - apply from_as_i64 in Hn1, Hn2. congruence.
Qed.

Lemma number_text n z :
  int_of n = Some z -> Z.abs z <= MAX_INTEROPERABLE_INT ->
  number_to_string n = Ok (format_i64 z).
Proof.
  unfold int_of, number_to_string. destruct (as_u64 n) as [u|] eqn:En.
  - intros [= ->] Hz. destruct (as_u64_range _ _ En).
    destruct (_ <? z) eqn:E; bool_to_prop; [lia|]. unfold format_i64.
    by replace (z <? 0) with false by (symmetry; apply Z.ltb_ge; lia).
  - intros -> Hz. by destruct (_ <? Z.abs z) eqn:E; bool_to_prop; [lia|].
Qed.

(** What a text starts with tells the kind of value it is. *)
Definition tag (v : Value) : nat :=
  match v with
  | VNull => 0 | VBool true => 1 | VBool false => 2 | VNumber _ => 3 | VString _ => 4
  | VArray _ => 5 | VObject _ => 6
  end%nat.

Definition tag_of_char (c : Ascii.ascii) : nat :=
  (if number_char c then 3
   else match Ascii.nat_of_ascii c with
        | 110 => 0 | 116 => 1 | 102 => 2 | 34 => 4 | 91 => 5 | 123 => 6 | _ => 7
        end)%nat.

Definition starts_with_tag (v : Value) (s : string) : Prop :=
  exists c rest, s = String c rest /\ tag_of_char c = tag v.

Lemma format_i64_head z : exists c rest, format_i64 z = String c rest /\ number_char c = true.
Proof.
  pose proof (format_i64_chars z) as Hc. destruct (format_i64 z) as [|c rest] eqn:E.
  - exfalso. unfold format_i64 in E. destruct (z <? 0) eqn:Ez; [done|]; bool_to_prop.
    by apply format_nonempty in E.
  - exists c, rest. cbn in Hc. apply andb_true_iff in Hc as [? _]. done.
Qed.

Lemma collect_Ok {E A} (l : list (result E A)) out :
  collect l = Ok out <-> Forall2 (fun r a => r = Ok a) l out.
Proof.
  revert out. induction l as [|r l IH]; intros out; cbn.
  - split; [intros [= <-]; constructor|]. by inversion 1.
  - split.
    + intros Hc. inv_ok. constructor; [done|by apply IH].
    + inversion 1 as [|? a ? out' -> Hl]; subst. run_ok. apply IH in Hl as ->. by run_ok.
Qed.

Lemma write_value_tag v s : interoperable v -> write_value v = Ok s -> starts_with_tag v s.
Proof.
  intros Hi Hw. destruct Hi as [|[]|n z Hn Hz|t|items _|ms _ _]; cbn in Hw.
  - injection Hw as <-. by eexists _, _.
  - injection Hw as <-. by eexists _, _.
  - injection Hw as <-. by eexists _, _.
  - rewrite (number_text _ _ Hn Hz) in Hw. injection Hw as <-.
    destruct (format_i64_head z) as (c & rest & -> & Hc). exists c, rest. split; [done|].
    unfold tag_of_char. by rewrite Hc.
  - injection Hw as <-. by eexists _, _.
  - inv_ok. by eexists _, _.
  - inv_ok. by eexists _, _.
Qed.

(** ** Unique reading *)

(** What follows a value: nothing, a comma or a closing bracket. *)
Definition delimiter (c : Ascii.ascii) : bool :=
  match Ascii.nat_of_ascii c with 44%nat | 93%nat | 125%nat => true | _ => false end.
Definition delimited (r : string) : Prop :=
  match r with "" => True | String c _ => delimiter c = true end.

(** [W a s] says [s] writes [a]; [a] can be read back from [s]. *)
Definition readable {A} (W : A -> string -> Prop) (a : A) : Prop :=
  forall a' s s' r r', W a s -> W a' s' -> delimited r -> delimited r' ->
  s +:+ r = s' +:+ r' -> a = a' /\ r = r'.

Definition never_closes {A} (W : A -> string -> Prop) : Prop :=
  forall a s, W a s -> exists c rest, s = String c rest /\ delimiter c = false.

(** What follows the first item of a list closed by [close]. *)
Definition after_item (close : Ascii.ascii) (texts : list string) (r : string) : string :=
  match texts with
  | [] => String close r
  | _ => "," +:+ (with_commas texts +:+ String close r)
  end.

Lemma with_commas_cons close x texts r :
  with_commas (x :: texts) +:+ String close r = x +:+ after_item close texts r.
Proof. destruct texts; [done|]. cbn [with_commas after_item]. by rewrite !append_assoc. Qed.

Lemma items_readable {A} (W : A -> string -> Prop) close l l' texts texts' r r' :
  never_closes W -> delimiter close = true -> close <> Ascii.ascii_of_nat 44 ->
  Forall (readable W) l -> Forall2 W l texts -> Forall2 W l' texts' ->
  with_commas texts +:+ String close r = with_commas texts' +:+ String close r' ->
  l = l' /\ r = r'.
Proof.
  intros Hnc Hd Hcomma Hall Hl. revert l' texts'.
  assert (Hclash : forall a s t u, W a s -> String close u = s +:+ t -> False).
  { intros a s t u Ha Heq. destruct (Hnc _ _ Ha) as (c & rest & -> & Hc).
    rewrite append_cons in Heq. injection Heq as <- _. congruence. }
  induction Hl as [|a s l texts Ha Hl IH]; intros l' texts' Hl' Heq;
    destruct Hl' as [|a' s' l' texts' Ha' Hl'].
  - by injection Heq.
  - rewrite with_commas_cons in Heq. by destruct (Hclash _ _ _ _ Ha' Heq).
  - rewrite with_commas_cons in Heq. by destruct (Hclash _ _ _ _ Ha (eq_sym Heq)).
  - rewrite !with_commas_cons in Heq. apply Forall_cons in Hall as [Hr Hall].
    assert (Hdel : forall texts r, delimited (after_item close texts r)) by (by intros [|??] ?).
    destruct (Hr a' s s' _ _ Ha Ha' (Hdel _ _) (Hdel _ _) Heq) as [<- Hafter].
    destruct Hl as [|b t l texts Hb Hl], Hl' as [|b' t' l' texts' Hb' Hl'].
    + by injection Hafter as <-.
    + cbn in Hafter. by injection Hafter.
    + cbn in Hafter. by injection Hafter.
    + apply append_inj_l in Hafter.
      destruct (IH Hall (b' :: l') (t' :: texts')) as [[= <- <-] <-]; [by constructor|done|done].
Qed.

Definition written (v : Value) (s : string) : Prop := interoperable v /\ write_value v = Ok s.
Definition member_written (m : string * Value) (s : string) : Prop :=
  exists t, written m.2 t /\ s = write_string m.1 +:+ ":" +:+ t.

Lemma written_never_closes : never_closes written.
Proof.
  intros v s [Hi Hw]. destruct (write_value_tag _ _ Hi Hw) as (c & rest & -> & Ht).
  exists c, rest. split; [done|].
  destruct (delimiter c) eqn:E; [|done]. exfalso. revert E Ht. clear.
  destruct c as [[] [] [] [] [] [] [] []]; cbn; try done; by destruct v as [|[]| | | |].
Qed.

Lemma member_never_closes : never_closes member_written.
Proof. intros m s (t & _ & ->). by eexists _, _. Qed.

Lemma member_readable m : readable written m.2 -> readable member_written m.
Proof.
  destruct m as [k v]. intros Hv [k' v'] s s' r r' (t & Ht & ->) (t' & Ht' & ->) Hr Hr'.
  cbn [fst snd] in *. rewrite !append_assoc. intros [<- Heq]%write_string_unique.
  apply append_inj_l in Heq. by destruct (Hv v' t t' r r') as [<- <-].
Qed.

(** ** Objects: the members, sorted by their UTF-16 units *)

Lemma insert_key_perm x l : insert_key x l ≡ₚ x :: l.
Proof.
  induction l as [|y l IH]; [done|]. cbn. destruct (utf16_cmp x y); [done|done|].
  rewrite IH. constructor.
Qed.

Lemma sort_keys_perm l : sort_keys l ≡ₚ l.
Proof. induction l as [|x l IH]; [done|]. cbn. by rewrite insert_key_perm, IH. Qed.

Definition pick (ms : list (string * Value)) (key : string) : string * Value :=
  (key, default VNull (lookup_member key ms)).

Lemma lookup_member_in {A} k (a : A) ms :
  NoDup (map fst ms) -> (k, a) ∈ ms -> lookup_member k ms = Some a.
Proof.
  induction ms as [|[k' b] ms IH]; [by intros _ ?%not_elem_of_nil|].
  cbn [map fst lookup_member]. rewrite NoDup_cons, elem_of_cons. intros [Hni Hnd] Hin.
  case_decide as Hk.
  - subst k'. destruct Hin as [[= ->]|Hin]; [done|]. destruct Hni.
    apply list_elem_of_In, in_map_iff. exists (k, a). split; [done|by apply list_elem_of_In].
  - destruct Hin as [[= -> ->]|Hin]; [done|auto].
Qed.

Lemma pick_all ms : NoDup (map fst ms) -> map (pick ms) (map fst ms) = ms.
Proof.
  intros Hnd. rewrite map_map. etrans; [apply map_ext_in|apply map_id]. intros [k v] Hin.
  unfold pick. cbn. rewrite (lookup_member_in k v ms); [done|done|by apply list_elem_of_In].
Qed.

Definition sorted_members (ms : list (string * Value)) : list (string * Value) :=
  map (pick ms) (sort_keys (map fst ms)).

Lemma sorted_members_perm ms : NoDup (map fst ms) -> sorted_members ms ≡ₚ ms.
Proof.
  intros Hnd. unfold sorted_members. rewrite sort_keys_perm. by rewrite pick_all.
Qed.

Lemma lookup_member_map {A B} (f : A -> B) k ms :
  lookup_member k (map (fun m => (m.1, f m.2)) ms) = f <$> lookup_member k ms.
Proof. induction ms as [|[k' a] ms IH]; [done|]. cbn. by case_decide. Qed.

Lemma member_texts ms texts :
  map_ordered ms -> Forall (fun m => interoperable m.2) ms ->
  collect (map (write_member (map (fun m => (m.1, write_value m.2)) ms)) (sort_keys (map fst ms))) = Ok texts ->
  Forall2 member_written (sorted_members ms) texts.
Proof.
  intros Hs Hi Hc%collect_Ok. unfold sorted_members.
  assert (Hkeys : Forall (fun k => exists v, (k, v) ∈ ms) (sort_keys (map fst ms))).
  { rewrite sort_keys_perm. apply Forall_forall. intros k ([k' v] & <- & Hin)%list_elem_of_In%in_map_iff.
    exists v. by apply list_elem_of_In. }
  revert texts Hc. induction Hkeys as [|k keys (v & Hin) Hkeys IH]; intros texts Hc; cbn [map] in *.
  - inversion Hc. constructor.
  - inversion Hc as [|? text ? texts' Hw Hc']; subst. constructor; [|by apply IH].
    unfold write_member in Hw. rewrite lookup_member_map in Hw.
    pose proof (lookup_member_in k v ms (map_ordered_NoDup _ Hs) Hin) as Hl. rewrite Hl in Hw.
    cbn in Hw. inv_ok. unfold pick. rewrite Hl. eexists. cbn [fst snd default].
    split; [|by rewrite append_assoc]. split; [|done].
    rewrite Forall_forall in Hi. by apply (Hi (k, v)).
Qed.

Lemma sorted_members_inj ms ms' :
  map_ordered ms -> map_ordered ms' -> sorted_members ms = sorted_members ms' -> ms = ms'.
Proof.
  intros Hs Hs' Heq. apply map_ordered_unique; [done|done|].
  rewrite <-(sorted_members_perm ms), <-(sorted_members_perm ms') by (by apply map_ordered_NoDup).
  by rewrite Heq.
Qed.

Lemma same_tag v v' s s' r r' :
  interoperable v -> write_value v = Ok s -> interoperable v' -> write_value v' = Ok s' ->
  s +:+ r = s' +:+ r' -> tag v' = tag v.
Proof.
  intros Hi Hw Hi' Hw' Heq.
  destruct (write_value_tag _ _ Hi Hw) as (c & rest & -> & Ht).
  destruct (write_value_tag _ _ Hi' Hw') as (c' & rest' & -> & Ht').
  rewrite !append_cons in Heq. injection Heq as <- _. congruence.
Qed.

Lemma delimited_number r : delimited r -> heads_out number_char r.
Proof. destruct r as [|c r]; [done|]. cbn. by destruct c as [[] [] [] [] [] [] [] []]. Qed.

Lemma number_readable n : readable written (VNumber n).
Proof.
  intros v' s s' r r' [Hi Hw] [Hi' Hw'] Hr Hr' Heq.
  pose proof (same_tag _ _ _ _ _ _ Hi Hw Hi' Hw' Heq) as Htag.
  destruct v' as [|[]|n'| | |]; try discriminate Htag.
  inversion Hi as [| |? z Hn Hz| | |]; subst. inversion Hi' as [| |? z' Hn' Hz'| | |]; subst.
  cbn in Hw, Hw'. rewrite (number_text _ _ Hn Hz) in Hw. rewrite (number_text _ _ Hn' Hz') in Hw'.
  injection Hw as <-. injection Hw' as <-.
  apply (span_unique number_char) in Heq as [Heq <-];
    auto using format_i64_chars, delimited_number.
  apply format_i64_inj in Heq as <-; [|done|done]. by rewrite (int_of_inj n n' z).
Qed.

Lemma array_readable items : Forall (readable written) items -> readable written (VArray items).
Proof.
  intros IH v' s s' r r' [Hi Hw] [Hi' Hw'] Hr Hr' Heq.
  pose proof (same_tag _ _ _ _ _ _ Hi Hw Hi' Hw' Heq) as Htag.
  destruct v' as [|[]| | |items'|]; try discriminate Htag.
  inversion Hi as [| | | |? Hitems|]; subst. inversion Hi' as [| | | |? Hitems'|]; subst.
  cbn in Hw, Hw'. inv_ok.
  assert (Hall : forall l texts, Forall interoperable l -> collect (map write_value l) = Ok texts ->
                 Forall2 written l texts).
  { intros l texts Hl Hc%collect_Ok. revert texts Hc.
    induction Hl as [|v l Hv Hl IHl]; intros texts Hc; inversion Hc; subst; constructor; [done|].
    by apply IHl. }
  rewrite !append_assoc in Heq. apply append_inj_l in Heq.
  assert (Hsame : items = items' /\ r = r').
  { eapply (items_readable written (Ascii.ascii_of_nat 93)); [..|exact Heq];
      eauto using written_never_closes; done. }
  by destruct Hsame as [<- <-].
Qed.

Lemma object_readable ms :
  Forall (fun m => readable written m.2) ms -> readable written (VObject ms).
Proof.
  intros IH v' s s' r r' [Hi Hw] [Hi' Hw'] Hr Hr' Heq.
  pose proof (same_tag _ _ _ _ _ _ Hi Hw Hi' Hw' Heq) as Htag.
  destruct v' as [|[]| | | |ms']; try discriminate Htag.
  inversion Hi as [| | | | |? Hs Hms]; subst. inversion Hi' as [| | | | |? Hs' Hms']; subst.
  cbn in Hw, Hw'. inv_ok.
  rewrite !append_assoc in Heq. apply append_inj_l in Heq.
  assert (Hreadable : Forall (readable member_written) (sorted_members ms)).
  { rewrite sorted_members_perm by (by apply map_ordered_NoDup).
    eapply Forall_impl; [exact IH|]. intros m. apply member_readable. }
  assert (Hsame : sorted_members ms = sorted_members ms' /\ r = r').
  { eapply (items_readable member_written (Ascii.ascii_of_nat 125)); [..|exact Heq];
      eauto using member_texts, member_never_closes; done. }
  destruct Hsame as [Hsame <-]. by rewrite (sorted_members_inj ms ms').
Qed.

(** A canonical text has one value. *)
Lemma value_readable v : readable written v.
Proof.
  induction v as [|b|n|str|items IH|ms IH] using Value_rec';
    [| |exact (number_readable n)| |by apply array_readable|by apply object_readable];
    intros v' s s' r r' [Hi Hw] [Hi' Hw'] Hr Hr' Heq;
    pose proof (same_tag _ _ _ _ _ _ Hi Hw Hi' Hw' Heq) as Htag.
  - destruct v' as [|[]| | | |]; try discriminate Htag. injection Hw as <-. injection Hw' as <-.
    by apply append_inj_l in Heq.
  - destruct v' as [|b'| | | |]; try (by destruct b). assert (b = b') as <- by (by destruct b, b').
    rewrite Hw in Hw'. injection Hw' as <-. by apply append_inj_l in Heq.
  - destruct v' as [|[]| |str'| |]; try discriminate Htag. injection Hw as <-. injection Hw' as <-.
    by apply write_string_unique in Heq as [<- <-].
Qed.

Lemma bytes_of_string_inj a b : bytes_of_string a = bytes_of_string b -> a = b.
Proof.
  unfold bytes_of_string. intros Heq. apply chars_inj. revert Heq.
  generalize (chars a), (chars b). clear. intros l. induction l as [|c l IH]; intros [|d t]; try done.
  cbn. intros [= Hb Heq]. f_equal; [|auto]. apply (f_equal byte_val) in Hb.
  rewrite !byte_val_of in Hb.
  pose proof (Ascii.nat_ascii_bounded c). pose proof (Ascii.nat_ascii_bounded d).
  rewrite !Z.mod_small in Hb by lia. apply Nat2Z.inj in Hb.
  rewrite <-(Ascii.ascii_nat_embedding c), Hb. apply Ascii.ascii_nat_embedding.
Qed.

(** Interoperable values have a canonical text, and only one value has it. *)
Lemma write_value_total v : interoperable v -> exists s, write_value v = Ok s.
Proof.
  induction v as [|[]|n|str|items IH|ms IH] using Value_rec'; intros Hi; try by eexists.
  - inversion Hi; subst. eexists. by eapply number_text.
  - inversion Hi as [| | | |? Hitems|]; subst. cbn.
    assert (exists texts, collect (map write_value items) = Ok texts) as [texts ->]; [|by eexists].
    clear Hi. induction IH as [|v items Hv _ IHl]; [by exists []|].
    apply Forall_cons in Hitems as [Hvi Hitems]. destruct (Hv Hvi) as [t Ht], (IHl Hitems) as [ts Hts].
    exists (t :: ts). cbn. by rewrite Ht, Hts.
  - inversion Hi as [| | | | |? Hs Hms]; subst. cbn.
    assert (Hall : forall keys, exists texts,
      collect (map (write_member (map (fun m => (m.1, write_value m.2)) ms)) keys) = Ok texts).
    { intros keys. induction keys as [|k keys [ts Hts]]; [by exists []|]. cbn [map collect].
      rewrite Hts. unfold write_member. rewrite lookup_member_map.
      destruct (lookup_member k ms) as [v|] eqn:E; cbn; [|by eexists].
      assert (Hin : exists m, m ∈ ms /\ m.2 = v).
      { clear -E. induction ms as [|[k' b] ms IH]; [done|]. cbn in E. case_decide.
        - simplify_eq. exists (k, v). split; [apply list_elem_of_here|done].
        - destruct (IH E) as (m & ? & ?). exists m. split; [by apply list_elem_of_further|done]. }
      destruct Hin as (m & Hin & <-). rewrite Forall_forall in IH, Hms.
      destruct (IH m Hin (Hms m Hin)) as [t ->]. by eexists. }
    destruct (Hall (sort_keys (map fst ms))) as [texts ->]. by eexists.
Qed.
End Values.
