(* ===== verification/JcsTheorems.v ===== *)
(** * Strict reading and canonical bytes: what a digest binds

    The strict reader accepts exactly the documents with one reading, two of
    them have the same canonical bytes exactly when they differ at most in the
    order of members, and an operation digest binds the protocol version, the
    operation, its version and its arguments. *)

From stdpp Require Import sorting.
From S2P Require Import Prelude RustStd Json TxTypes Jcs JcsFacts.

Section DocInd.
Context (P : Doc -> Prop).
Hypothesis (Hunit : P DUnit) (Hbool : forall b, P (DBool b)) (Hi : forall z, P (DI64 z))
  (Hu : forall z, P (DU64 z)) (Hf : P DF64) (Hs : forall s, P (DStr s))
  (Hseq : forall items, Forall P items -> P (DSeq items))
  (Hmap : forall ms, Forall (fun m => P m.2) ms -> P (DMap ms)).

Fixpoint Doc_rec' (d : Doc) : P d :=
  match d with
  | DUnit => Hunit
  | DBool b => Hbool b
  | DI64 z => Hi z
  | DU64 z => Hu z
  | DF64 => Hf
  | DStr s => Hs s
  | DSeq items =>
      Hseq items ((fix go l : Forall P l :=
        match l with
        | [] => @List.Forall_nil _ _
        | x :: l => @List.Forall_cons _ _ x l (Doc_rec' x) (go l)
        end) items)
  | DMap ms =>
      Hmap ms ((fix go l : Forall (fun m : string * Doc => P m.2) l :=
        match l with
        | [] => @List.Forall_nil _ _
        | m :: l => @List.Forall_cons _ (fun m => P m.2) m l (Doc_rec' m.2) (go l)
        end) ms)
  end.
End DocInd.

(** The integers of a document as [serde_json] shows them: a negative one as
    an [i64], any other as a [u64]. *)
Inductive doc_typed : Doc -> Prop :=
  | dt_unit : doc_typed DUnit
  | dt_bool b : doc_typed (DBool b)
  | dt_i64 z : - 2 ^ 63 <= z < 0 -> doc_typed (DI64 z)
  | dt_u64 z : is_u64 z -> doc_typed (DU64 z)
  | dt_f64 : doc_typed DF64
  | dt_str s : doc_typed (DStr s)
  | dt_seq items : Forall doc_typed items -> doc_typed (DSeq items)
  | dt_map ms : Forall (fun m => doc_typed m.2) ms -> doc_typed (DMap ms).

(** Documents that differ at most in the order of members. *)
Inductive doc_eq : Doc -> Doc -> Prop :=
  | de_unit : doc_eq DUnit DUnit
  | de_bool b : doc_eq (DBool b) (DBool b)
  | de_i64 z : doc_eq (DI64 z) (DI64 z)
  | de_u64 z : doc_eq (DU64 z) (DU64 z)
  | de_str s : doc_eq (DStr s) (DStr s)
  | de_seq items items' : Forall2 doc_eq items items' -> doc_eq (DSeq items) (DSeq items')
  | de_map ms ms1 ms' :
      ms ≡ₚ ms1 -> Forall2 (fun m m' => m.1 = m'.1 /\ doc_eq m.2 m'.2) ms1 ms' ->
      doc_eq (DMap ms) (DMap ms').

Section Strict.
Context `{JsonNumberLaws, !JsonNumberFrom, !JsonNumberFromLaws}.

(** What a document with one reading says. *)
Inductive denotes : Doc -> Value -> Prop :=
  | dn_unit : denotes DUnit VNull
  | dn_bool b : denotes (DBool b) (VBool b)
  | dn_i64 z : Z.abs z <= MAX_INTEROPERABLE_INT -> denotes (DI64 z) (VNumber (from_i64 z))
  | dn_u64 z : z <= MAX_INTEROPERABLE_INT -> denotes (DU64 z) (VNumber (from_u64 z))
  | dn_str s : denotes (DStr s) (VString s)
  | dn_seq items vs : Forall2 denotes items vs -> denotes (DSeq items) (VArray vs)
  | dn_map ms ws out :
      Forall2 (fun m w => m.1 = w.1 /\ denotes m.2 w.2) ms ws -> NoDup (map fst ms) ->
      out ≡ₚ ws -> map_ordered out -> denotes (DMap ms) (VObject out).

Lemma map_insert_new k v ms :
  map_ordered ms -> (k ∉ map fst ms) ->
  exists out, map_insert k v ms = (false, out) /\ out ≡ₚ (k, v) :: ms /\ map_ordered out.
Proof.
  induction 1 as [|[k' w] ms Hs IH Hall]; cbn [map fst map_insert]; intros Hni.
  - eexists. split; [done|]. split; [done|]. by repeat constructor.
  - apply not_elem_of_cons in Hni as [Hne Hni]. case_decide as Hk; [by destruct Hne|].
    destruct (string_ltb k k') eqn:E.
    + eexists. split; [done|]. split; [done|]. constructor; [by constructor|].
      constructor; [done|]. eapply Forall_impl; [exact Hall|]. intros m Hm.
      by eapply string_ltb_trans.
    + destruct (IH Hni) as (out & -> & Hp & Ho). eexists. split; [done|]. split.
      * rewrite Hp. constructor.
      * constructor; [done|]. rewrite Hp. constructor; [|done].
        by apply string_ltb_total.
Qed.

Lemma map_insert_old k v ms :
  map_ordered ms -> k ∈ map fst ms -> (map_insert k v ms).1 = true.
Proof.
  induction 1 as [|[k' w] ms Hs IH Hall]; cbn [map fst map_insert]; [by intros ?%not_elem_of_nil|].
  intros [->|Hin]%elem_of_cons; [by rewrite decide_True|].
  case_decide as Hk; [done|]. destruct (string_ltb k k') eqn:E.
  - exfalso. apply list_elem_of_In, in_map_iff in Hin as (m & <- & Hin%list_elem_of_In).
    rewrite Forall_forall in Hall. pose proof (Hall m Hin) as Hlt. cbn in Hlt.
    pose proof (string_ltb_trans _ _ _ E Hlt) as Hx. by rewrite string_ltb_irrefl in Hx.
  - specialize (IH Hin). by destruct (map_insert k v ms).
Qed.

Lemma insert_all_exact ms out res :
  map_ordered out ->
  insert_all ms out = Ok res <-> NoDup (map fst (ms ++ out)) /\ res ≡ₚ ms ++ out /\ map_ordered res.
Proof.
  revert out. induction ms as [|[k v] ms IH]; intros out Ho; cbn [insert_all app map fst].
  - split.
    + intros [= <-]. eauto using map_ordered_NoDup.
    + intros (_ & Hp & Hr). by rewrite (map_ordered_unique res out).
  - destruct (decide (k ∈ map fst out)) as [Hin|Hni].
    + pose proof (map_insert_old k v out Ho Hin). destruct (map_insert k v out) as [old out']. cbn in *.
      subst old. split; [done|]. intros ([Hn _]%NoDup_cons & _). destruct Hn.
      rewrite map_app. by apply elem_of_app; right.
    + destruct (map_insert_new k v out Ho Hni) as (out' & -> & Hp & Ho'). rewrite (IH _ Ho').
      assert (Hpp : ms ++ out' ≡ₚ (k, v) :: ms ++ out).
      { rewrite Hp. symmetry. apply Permutation_middle. }
      assert (Hkeys : map fst (ms ++ out') ≡ₚ k :: map fst (ms ++ out)) by (by rewrite Hpp).
      rewrite Hkeys, Hpp. done.
Qed.

Lemma collect_members members ms :
  collect (map (fun m => with_key (m.1, strict_value m.2)) members) = Ok ms <->
  Forall2 (fun m w => m.1 = w.1 /\ strict_value m.2 = Ok w.2) members ms.
Proof.
  rewrite collect_Ok. revert ms. induction members as [|m members IH]; intros ms; cbn [map].
  - split; inversion 1; constructor.
  - split; inversion 1 as [|? w ? ms' Hw Hms]; subst; constructor; try (by apply IH).
    + unfold with_key in Hw. cbn in Hw. inv_ok. cbn in *. by split.
    + destruct Hw as [Hk Hw]. unfold with_key. cbn. rewrite Hw. run_ok. by destruct w; cbn in *; subst.
Qed.

Lemma Forall2_keys {A B} (R : A -> B -> Prop) (ms : list (string * A)) (ws : list (string * B)) :
  Forall2 (fun m w => m.1 = w.1 /\ R m.2 w.2) ms ws -> map fst ms = map fst ws.
Proof. induction 1 as [|m w ms ws [Hk _] _ IH]; [done|]. cbn. by rewrite Hk, IH. Qed.

Lemma Forall2_iff_in {A B} (P : A -> Prop) (R S : A -> B -> Prop) l k :
  Forall P l -> (forall a b, P a -> R a b <-> S a b) -> Forall2 R l k <-> Forall2 S l k.
Proof.
  intros Hl Hrs. revert k. induction Hl as [|a l Ha Hl IH]; intros k.
  - split; inversion 1; constructor.
  - split; inversion 1; subst; constructor; try (by apply Hrs); by apply IH.
Qed.

Lemma strict_value_denotes d v : strict_value d = Ok v <-> denotes d v.
Proof.
  revert v. induction d as [|b|z|z| |s|items IH|ms IH] using Doc_rec'; intros v; cbn [strict_value].
  - split; [intros [= <-]; constructor|by inversion 1].
  - split; [intros [= <-]; constructor|by inversion 1].
  - destruct (_ <? _) eqn:E; bool_to_prop; split; try done; [inversion 1; subst; lia| |].
    + intros [= <-]. by constructor.
    + by inversion 1.
  - destruct (_ <? _) eqn:E; bool_to_prop; split; try done; [inversion 1; subst; lia| |].
    + intros [= <-]. by constructor.
    + by inversion 1.
  - split; [done|inversion 1].
  - split; [intros [= <-]; constructor|by inversion 1].
  - assert (Hc : forall vs, collect (map strict_value items) = Ok vs <-> Forall2 denotes items vs).
    { intros vs. rewrite collect_Ok.
      rewrite <-(Forall2_iff_in _ _ _ _ _ IH (fun d v Hd => Hd v)).
      rewrite Forall2_fmap_l. done. }
    split.
    + intros Hs. inv_ok. constructor. by apply Hc.
    + inversion 1 as [| | | | |? vs Hvs|]; subst. apply Hc in Hvs as ->. by run_ok.
  - assert (Hc : forall ws, collect (map (fun m => with_key (m.1, strict_value m.2)) ms) = Ok ws <->
              Forall2 (fun m w => m.1 = w.1 /\ denotes m.2 w.2) ms ws).
    { intros ws. rewrite collect_members. apply (Forall2_iff_in _ _ _ _ _ IH).
      intros m w Hm. by rewrite Hm. }
    assert (Hn : map_ordered (@nil (string * Value))) by constructor.
    split.
    + intros Hs. inv_ok.
      match goal with Hx : collect _ = Ok _ |- _ => apply Hc in Hx as Hws end.
      match goal with Hx : insert_all _ _ = Ok _ |- _ =>
        apply (insert_all_exact _ _ _ Hn) in Hx as (Hnd & Hp & Ho) end. rewrite app_nil_r in *.
      econstructor; [exact Hws| |exact Hp|exact Ho]. by rewrite (Forall2_keys _ _ _ Hws).
    + inversion 1 as [| | | | | |? ws out Hws Hnd Hp Ho]; subst.
      apply Hc in Hws as Hc'. rewrite Hc'. run_ok.
      assert (insert_all ws [] = Ok out) as ->; [|by run_ok].
      apply insert_all_exact; [done|]. rewrite app_nil_r, <-(Forall2_keys _ _ _ Hws). done.
Qed.

Lemma denotes_interoperable d v : doc_typed d -> denotes d v -> interoperable v.
Proof.
  intros Hd. revert v.
  induction d as [|b|z|z| |s|items IH|ms IH] using Doc_rec'; intros v Hv;
    inversion Hv as [|? |? Hz|? Hz|?|? vs Hvs|? ws out Hws Hnd Hp Ho]; subst;
    inversion Hd as [| |? Ht|? Ht| | |? Ht|? Ht]; subst; try constructor; auto.
  - econstructor; [|exact Hz]. unfold int_of.
    rewrite as_u64_from_negative by lia. apply as_i64_from. lia.
  - econstructor; [|rewrite Z.abs_eq; [exact Hz|apply Ht]]. unfold int_of. by rewrite as_u64_from.
  - rename Hvs into Hvs'. clear Hv Hd. induction Hvs'; [constructor|].
    apply Forall_cons in IH as [IHx IH], Ht as [Htx Ht]. constructor; auto.
  - rewrite Hp. clear Hv Hd Hnd Hp. induction Hws as [|m w ms ws [_ Hw] Hws IHw]; [constructor|].
    apply Forall_cons in IH as [IHx IH], Ht as [Htx Ht]. constructor; auto.
Qed.

Lemma denotes_same d d' v :
  doc_typed d -> doc_typed d' -> denotes d v -> denotes d' v -> doc_eq d d'.
Proof.
  intros Hd. revert d' v.
  induction d as [|b|z|z| |s|items IH|ms IH] using Doc_rec'; intros d' v Hd' Hv Hv';
    inversion Hv as [|? |? Hz|? Hz|?|? vs Hvs|? ws out Hws Hnd Hp Ho]; subst;
    inversion Hv' as [| |z' Hz' Heq|z' Hz' Heq| |items' ? Hvs'|ms' ws' ? Hws' Hnd' Hp' Ho'];
    subst; try constructor.
  - match goal with Hn : from_i64 _ = from_i64 _ |- _ => rename Hn into Heq end.
    apply (f_equal as_i64) in Heq. inversion Hd; inversion Hd'; subst.
    rewrite !as_i64_from in Heq by lia. injection Heq as ->. constructor.
  - match goal with Hn : from_u64 _ = from_i64 _ |- _ => rename Hn into Heq end.
    apply (f_equal as_u64) in Heq. inversion Hd; inversion Hd'; subst.
    rewrite as_u64_from, as_u64_from_negative in Heq by (done || lia). done.
  - match goal with Hn : from_i64 _ = from_u64 _ |- _ => rename Hn into Heq end.
    apply (f_equal as_u64) in Heq. inversion Hd; inversion Hd'; subst.
    rewrite as_u64_from, as_u64_from_negative in Heq by (done || lia). done.
  - match goal with Hn : from_u64 _ = from_u64 _ |- _ => rename Hn into Heq end.
    apply (f_equal as_u64) in Heq. inversion Hd; inversion Hd'; subst.
    rewrite !as_u64_from in Heq by done. injection Heq as ->. constructor.
  - inversion Hd as [| | | | | |? Ht|]; inversion Hd' as [| | | | | |? Ht'|]; subst.
    clear Hv Hv' Hd Hd'. revert items' Ht' Hvs'.
    induction Hvs as [|d v items vs Hdv Hvs IHv]; intros items' Ht' Hvs'; inversion Hvs'; subst;
      [constructor|].
    apply Forall_cons in IH as [IHx IH], Ht as [Htx Ht], Ht' as [Htx' Ht'].
    constructor; eauto.
  - inversion Hd as [| | | | | | |? Ht]; inversion Hd' as [| | | | | | |? Ht']; subst.
    (* line the members up with the value's, then compare them one by one *)
    assert (Hww : ws ≡ₚ ws') by (by rewrite <-Hp, Hp').
    apply Forall2_flip in Hws. destruct (Permutation_Forall2 Hww Hws) as (ms1 & Hms1 & Hws1).
    apply (de_map ms ms1 ms' Hms1). rewrite Hms1 in IH, Ht.
    clear - IH Ht Ht' Hws1 Hws'. revert ms' Ht' Hws'.
    induction Hws1 as [|w m ws' ms1 [Hk Hw] Hws1 IHw]; intros ms' Ht' Hws'; inversion Hws' as [|m' ? ms'' ? [Hk' Hw']]; subst;
      [constructor|].
    apply Forall_cons in IH as [IHx IH], Ht as [Htx Ht], Ht' as [Htx' Ht'].
    constructor; [|by apply IHw]. split; [congruence|eauto].
Qed.

Lemma denotes_doc_eq d d' v v' : doc_eq d d' -> denotes d v -> denotes d' v' -> v = v'.
Proof.
  revert d' v v'.
  induction d as [|b|z|z| |s|items IH|ms IH] using Doc_rec'; intros d' v v' He Hv Hv';
    inversion He as [| | | | |? items' Hit|? ms1 ms' Hms1 Hms]; subst;
    inversion Hv as [|? |? Hz|? Hz|?|? vs Hvs|? ws out Hws Hnd Hp Ho]; subst;
    inversion Hv' as [| |z' Hz' Heq|z' Hz' Heq| |? vs' Hvs'|? ws' out' Hws' Hnd' Hp' Ho'];
    subst; try done.
  - f_equal. clear He Hv Hv'. revert vs vs' Hvs Hvs'.
    induction Hit as [|d d' items items' Hd Hit IHi]; intros vs vs' Hvs Hvs';
      inversion Hvs; inversion Hvs'; subst; [done|].
    apply Forall_cons in IH as [IHx IH]. f_equal; eauto.
  - f_equal. destruct (Permutation_Forall2 Hms1 Hws) as (ws1 & Hws1 & Hf).
    assert (ws1 = ws') as ->.
    { rewrite Hms1 in IH. clear - IH Hms Hf Hws'. revert ws1 ws' Hf Hws'.
      induction Hms as [|m m' ms1 ms' [Hk Hm] Hms IHm]; intros ws1 ws' Hf Hws';
        inversion Hf as [|? w ? ? [Hk1 Hw1]]; inversion Hws' as [|? w' ? ? [Hk2 Hw2]]; subst; [done|].
      apply Forall_cons in IH as [IHx IH]. f_equal; [|by apply IHm].
      destruct w, w'; cbn in *. f_equal; [congruence|eauto]. }
    apply map_ordered_unique; [done|done|]. by rewrite Hp, Hp', Hws1.
Qed.

Context `{!JsonFloat}.

(** C30: the strict reader accepts exactly the documents that say one thing.
    No fraction or exponent, every integer within 2^53 - 1, no key twice at
    any depth; what it returns is that document, its members in the order of
    a map, and every such value has canonical bytes. *)
Theorem strict_reader_exact d v :
  (strict_value d = Ok v <-> denotes d v) /\
  (doc_typed d -> denotes d v -> interoperable v /\ exists bytes, canonicalize v = Ok bytes).
Proof.
  split; [apply strict_value_denotes|]. intros Ht Hv.
  pose proof (denotes_interoperable d v Ht Hv) as Hi. split; [done|].
  destruct (write_value_total v Hi) as [s Hs]. unfold canonicalize. rewrite Hs. by eexists.
Qed.

Lemma canonicalize_inj v v' bytes :
  interoperable v -> interoperable v' -> canonicalize v = Ok bytes -> canonicalize v' = Ok bytes ->
  v = v'.
Proof.
  unfold canonicalize. intros Hi Hi' Hc Hc'.
  destruct (write_value v) as [s|] eqn:Hs; [|done].
  destruct (write_value v') as [s'|] eqn:Hs'; [|done]. cbn in Hc, Hc'.
  injection Hc as <-. injection Hc' as ->%bytes_of_string_inj.
  by destruct (value_readable v v' s s "" "") as [-> _].
Qed.

(** C8: canonical bytes identify a document.  Of two documents the strict
    reader accepts, the canonical bytes are the same exactly when the
    documents are the same up to the order of members. *)
Theorem canonical_bytes_identify d d' v v' :
  doc_typed d -> doc_typed d' -> strict_value d = Ok v -> strict_value d' = Ok v' ->
  canonicalize v = canonicalize v' <-> doc_eq d d'.
Proof.
  intros Ht Ht' Hv%strict_value_denotes Hv'%strict_value_denotes. split.
  - destruct (strict_reader_exact d v) as [_ Hex]. destruct (Hex Ht Hv) as [Hi [bytes Hb]].
    rewrite Hb. intros Hb'. symmetry in Hb'.
    apply (denotes_same d d' v); [done|done|done|].
    rewrite (canonicalize_inj v v' bytes); eauto using denotes_interoperable.
  - intros He. by rewrite (denotes_doc_eq d d' v v').
Qed.

(** ** Operation digests *)

Context `{!Sha256Hash}.

(** The bytes that are hashed. *)
Definition operation_preimage (protocol : Z) (operation : string) (version : Z)
    (arguments : Value) : result string (list byte) :=
  domain ← operation_domain protocol;
  canonical ← map_err (fun _ => "canonical") (canonicalize (canonical_input operation version arguments));
  Ok (domain ++ canonical).

Lemma operation_digest_preimage protocol op version args d :
  operation_digest_of protocol op version args = Ok d ->
  exists a, operation_preimage protocol op version args = Ok a /\
            od_digest d = from_sha256_bytes (sha256 a).
Proof.
  unfold operation_digest_of, operation_preimage.
  generalize (canonicalize (canonical_input op version args)) as r. intros r.
  destruct (operation_domain protocol), r; cbn; try done. intros [= <-]. by eexists.
Qed.

(** The domain of a protocol version, before the canonical bytes. *)
Definition domain_of (protocol : Z) (dom : list byte) : Prop :=
  protocol = 1 /\ dom = OPERATION_DOMAIN_V1 \/ protocol = 2 /\ dom = OPERATION_DOMAIN_V2.

Lemma operation_preimage_parts protocol op version args a :
  operation_preimage protocol op version args = Ok a ->
  exists dom c, domain_of protocol dom /\ a = dom ++ c /\
                canonicalize (canonical_input op version args) = Ok c.
Proof.
  unfold operation_preimage, operation_domain, domain_of.
  generalize (canonicalize (canonical_input op version args)) as r. intros r.
  destruct (protocol =? 1) eqn:E1; [|destruct (protocol =? 2) eqn:E2]; bool_to_prop;
    destruct r; cbn [map_err]; run_ok; try done; intros [= <-]; eauto 10.
Qed.

Lemma canonical_input_interoperable op version args :
  is_u32 version -> interoperable args -> interoperable (canonical_input op version args).
Proof.
  unfold is_u32, u32_max. intros Hv Ha. constructor.
  - repeat constructor.
  - repeat constructor; [done|]. cbn. apply (io_number _ version).
    + unfold int_of. rewrite as_u64_from; [done|]. unfold is_u64, u64_max. lia.
    + unfold MAX_INTEROPERABLE_INT. lia.
Qed.

(** C16: a digest binds the operation.  When the hash keeps the two hashed
    texts apart, equal operation digests mean the same protocol version,
    operation, operation version and arguments; and no text hashed for an
    operation is one hashed for a manifest. *)
Theorem digest_binds_operation p p' op op' ver ver' args args' d d' a a' :
  is_u32 ver -> is_u32 ver' -> interoperable args -> interoperable args' ->
  operation_digest_of p op ver args = Ok d -> operation_digest_of p' op' ver' args' = Ok d' ->
  operation_preimage p op ver args = Ok a -> operation_preimage p' op' ver' args' = Ok a' ->
  (sha256 a = sha256 a' -> a = a') ->
  od_digest d = od_digest d' ->
  (p = p' /\ op = op' /\ ver = ver' /\ args = args') /\
  forall m bytes, canonicalize m = Ok bytes -> MANIFEST_DOMAIN ++ bytes <> a.
Proof.
  intros Hver Hver' Hi Hi' Hd Hd' Ha Ha' Hcol Heq.
  destruct (operation_digest_preimage _ _ _ _ _ Hd) as (b & Hb & Hdb).
  destruct (operation_digest_preimage _ _ _ _ _ Hd') as (b' & Hb' & Hdb').
  rewrite Ha in Hb. rewrite Ha' in Hb'. injection Hb as <-. injection Hb' as <-.
  rewrite Hdb, Hdb' in Heq. injection Heq as Heq. apply Hcol in Heq as <-. clear Hd Hd' Hdb Hdb' Hcol.
  destruct (operation_preimage_parts _ _ _ _ _ Ha) as (dom & c & Hdom & -> & Hc).
  destruct (operation_preimage_parts _ _ _ _ _ Ha') as (dom' & c' & Hdom' & Heq & Hc').
  apply app_inj_1 in Heq as [-> <-]; [|by destruct Hdom as [[_ ->]|[_ ->]], Hdom' as [[_ ->]|[_ ->]]].
  split.
  - assert (Hci : canonical_input op ver args = canonical_input op' ver' args')
      by eauto using canonicalize_inj, canonical_input_interoperable.
    injection Hci as -> -> Hn.
    apply (f_equal as_u64) in Hn.
    rewrite !as_u64_from in Hn by (unfold is_u32, is_u64, u32_max, u64_max in *; lia).
    injection Hn as ->. split_and!; [|done|done|done].
    by destruct Hdom as [[-> ->]|[-> ->]], Hdom' as [[-> Hx]|[-> Hx]].
  - intros m bytes _ Heq. apply (f_equal (fun l => l !! 9%nat)) in Heq.
    by destruct Hdom as [[_ ->]|[_ ->]].
Qed.
End Strict.

(** ** Concrete instances *)

Definition int_number_from : @JsonNumberFrom int_number :=
  {| from_u64 := fun z : @Number int_number => z; from_i64 := fun z : @Number int_number => z |}.

Lemma int_number_from_laws : @JsonNumberFromLaws int_number int_number_from.
Proof.
  split; cbn; intros *; rewrite ?in_range_Some; unfold is_u64, u64_max.
  - lia.
  - lia.
  - intros Hz. unfold in_range. destruct (_ && _) eqn:E; [|done]. bool_to_prop. lia.
  - by intros [-> _].
  - by intros [-> _].
Qed.

(** Without doubles: [as_f64] is asked only of what is not an integer. *)
Definition no_floats : @JsonFloat int_number :=
  {| f64 := unit; as_f64 := fun _ => None; f64_is_finite := fun _ => false;
     f64_is_zero := fun _ => false; f64_is_negative := fun _ => false;
     format_lower_exp := fun _ => "" |}.

Definition plain_hash : Sha256Hash := {| sha256 := fun bytes => bytes |}.

Definition demo_doc : Doc :=
  DMap [("b", DSeq [DU64 3; DI64 (-7); DStr "a/b"]); ("a", DMap [("y", DUnit); ("x", DBool true)])].
Definition demo_doc_reordered : Doc :=
  DMap [("a", DMap [("x", DBool true); ("y", DUnit)]); ("b", DSeq [DU64 3; DI64 (-7); DStr "a/b"])].
Definition demo_value : @Value int_number :=
  @VObject int_number
    [("a", @VObject int_number [("x", @VBool int_number true); ("y", @VNull int_number)]);
     ("b", @VArray int_number [@VNumber int_number 3; @VNumber int_number (-7); @VString int_number "a/b"])].

Lemma demo_doc_typed : doc_typed demo_doc.
Proof. repeat constructor; try lia; vm_compute; discriminate. Qed.
Lemma demo_doc_reordered_typed : doc_typed demo_doc_reordered.
Proof. repeat constructor; try lia; vm_compute; discriminate. Qed.

Lemma demo_doc_read : @strict_value int_number int_number_from demo_doc = Ok demo_value.
Proof. reflexivity. Qed.
Lemma demo_doc_reordered_read :
  @strict_value int_number int_number_from demo_doc_reordered = Ok demo_value.
Proof. reflexivity. Qed.

Lemma strict_reader_exact_witness :
  @interoperable int_number demo_value /\
  exists bytes, @canonicalize int_number no_floats demo_value = Ok bytes.
Proof.
  apply (@strict_reader_exact int_number int_number_laws int_number_from int_number_from_laws
           no_floats demo_doc demo_value).
  - exact demo_doc_typed.
  - apply (@strict_value_denotes int_number int_number_from). exact demo_doc_read.
Defined.

Lemma canonical_bytes_identify_witness : doc_eq demo_doc demo_doc_reordered.
Proof.
  apply (@canonical_bytes_identify int_number int_number_laws int_number_from int_number_from_laws
           no_floats demo_doc demo_doc_reordered demo_value demo_value).
  - exact demo_doc_typed.
  - exact demo_doc_reordered_typed.
  - exact demo_doc_read.
  - exact demo_doc_reordered_read.
  - reflexivity.
Defined.

Definition demo_digest : OperationDigest :=
  {| od_canonical_bytes :=
       bytes_of_string ("{" +:+ QUOTE +:+ "arguments" +:+ QUOTE +:+ ":{}," +:+
         QUOTE +:+ "operation" +:+ QUOTE +:+ ":" +:+ QUOTE +:+ "system.info" +:+ QUOTE +:+ "," +:+
         QUOTE +:+ "operation_version" +:+ QUOTE +:+ ":1}");
     od_digest := from_sha256_bytes (OPERATION_DOMAIN_V2 ++
       bytes_of_string ("{" +:+ QUOTE +:+ "arguments" +:+ QUOTE +:+ ":{}," +:+
         QUOTE +:+ "operation" +:+ QUOTE +:+ ":" +:+ QUOTE +:+ "system.info" +:+ QUOTE +:+ "," +:+
         QUOTE +:+ "operation_version" +:+ QUOTE +:+ ":1}")) |}.

(** The same operation twice: the canonical bytes the documentation shows. *)
Lemma digest_binds_operation_witness :
  (2 = 2 /\ "system.info" = "system.info" /\ 1 = 1 /\
   @VObject int_number [] = @VObject int_number []) /\
  forall m bytes, @canonicalize int_number no_floats m = Ok bytes ->
    MANIFEST_DOMAIN ++ bytes <> dg_bytes (od_digest demo_digest).
Proof.
  refine (@digest_binds_operation int_number int_number_laws int_number_from int_number_from_laws
           no_floats plain_hash 2 2 "system.info" "system.info" 1 1 (VObject []) (VObject [])
           demo_digest demo_digest (dg_bytes (od_digest demo_digest))
           (dg_bytes (od_digest demo_digest)) _ _ _ _ _ _ _ _ _ _).
  - unfold is_u32, u32_max. lia.
  - unfold is_u32, u32_max. lia.
  - repeat constructor.
  - repeat constructor.
  - vm_compute. reflexivity.
  - vm_compute. reflexivity.
  - vm_compute. reflexivity.
  - vm_compute. reflexivity.
  - intros _. reflexivity.
  - reflexivity.
Defined.
