(* ===== verification/Policy.v ===== *)
(** * The policy ladder and what it judges by

    [broker/src/safety.rs], [broker/src/manifest.rs], [broker/src/policy.rs]
    and [schemas/src/lib.rs]: the safety minimums, the manifest and its
    semantic checks, and the five stages a call goes through.  YAML parsing,
    JSON Schema validation and the derived reader of the capabilities are the
    interface [ManifestCodec]. *)

From S2P Require Import Prelude RustStd Json TxTypes Wire Jcs.

(** ** safety.rs *)

Inductive Resource :=
  | RootConfig | Packages | Bootloader | Kernel | ServiceState | PluginData | DesktopData
  | HomeData | ExternalEffects.
#[export] Instance Resource_eq_dec : EqDecision Resource.
Proof. solve_decision. Defined.

Definition host_rank (value : HostSafety) : Z :=
  match value with HsNone => 0 | HsSnapshotReboot => 1 | HsSnapshotLive => 2 | HsGeneration => 3 end.
Definition service_rank (value : ServiceStateSafety) : Z :=
  match value with SsNone => 0 | SsDesiredState => 1 end.
Definition data_rank (value : DataSafety) : Z :=
  match value with DsNone => 0 | DsDedicatedSnapshot => 1 end.

Record MinSafety := mkMinSafety {
  ms_root_config : option HostSafety;
  ms_packages : option HostSafety;
  ms_bootloader : option HostSafety;
  ms_kernel : option HostSafety;
  ms_service_state : option ServiceStateSafety;
  ms_plugin_data : option DataSafety;
  ms_desktop_data : option DataSafety;
  ms_home_data : option DataSafety;
}.

(** [Option::map_or(0, rank)] *)
Definition minimum_rank {A} (rank : A -> Z) (minimum : option A) : Z :=
  match minimum with Some m => rank m | None => 0 end.

Definition host_meets (actual : HostSafety) (minimum : option HostSafety) : bool :=
  let actual := host_rank actual in
  (0 <? actual) && (minimum_rank host_rank minimum <=? actual).

Definition data_meets (actual : DataSafety) (minimum : option DataSafety) : bool :=
  let actual := data_rank actual in
  (0 <? actual) && (minimum_rank data_rank minimum <=? actual).

Definition meets_minimum (resource : Resource) (host : SafetyVector) (min : MinSafety) : bool :=
  match resource with
  | RootConfig => host_meets (sv_root_config host) (ms_root_config min)
  | Packages => host_meets (sv_packages host) (ms_packages min)
  | Bootloader => host_meets (sv_bootloader host) (ms_bootloader min)
  | Kernel => host_meets (sv_kernel host) (ms_kernel min)
  | ServiceState =>
      let actual := service_rank (sv_service_state host) in
      (0 <? actual) && (minimum_rank service_rank (ms_service_state min) <=? actual)
  | PluginData => data_meets (sv_plugin_data host) (ms_plugin_data min)
  | DesktopData => data_meets (sv_desktop_data host) (ms_desktop_data min)
  | HomeData => data_meets (sv_home_data host) (ms_home_data min)
  | ExternalEffects => false
  end.

(** ** policy.rs: what is judged *)

Inductive PolicyKind := PkDeny | PkRequiresApproval | PkPreAuthorized.
#[export] Instance PolicyKind_eq_dec : EqDecision PolicyKind.
Proof. solve_decision. Defined.

Inductive OutOfBounds := ObRequiresApproval | ObDeny.
(** [#[default]] *)
Definition out_of_bounds_default : OutOfBounds := ObRequiresApproval.

Record CallDescriptor := mkCall {
  cd_op : string;
  cd_effect_set : list EffectClass;
  cd_footprint : list (Resource * EffectClass);
  cd_globally_forbidden : bool;
  cd_within_bounds : option bool;
}.

Definition read_only (op : string) : CallDescriptor :=
  {| cd_op := op; cd_effect_set := [EffR]; cd_footprint := []; cd_globally_forbidden := false;
     cd_within_bounds := None |}.

Definition rank (class : EffectClass) : Z :=
  match class with EffR => 0 | EffD => 1 | EffM => 2 | EffE => 3 | EffF => 255 end.

(** [Iterator::max_by_key]: the last of the greatest. *)
Fixpoint max_by_key {A} (key : A -> Z) (l : list A) : option A :=
  match l with
  | [] => None
  | x :: l =>
      match max_by_key key l with
      | None => Some x
      | Some y => if key x <=? key y then Some y else Some x
      end
  end.

Definition highest_class (c : CallDescriptor) : option EffectClass :=
  max_by_key rank (filter (fun e => e <> EffF) (cd_effect_set c)).

Definition contains_forbidden (c : CallDescriptor) : bool :=
  cd_globally_forbidden c || bool_decide (EffF ∈ cd_effect_set c).

(** Stage 5: admits one call against a limit, counting it. *)
Class CallAdmission (S E : Type) := try_admit : option Z -> M S E bool.

Inductive Decision :=
  | Allow
  | Refuse (code : ErrorCode) (stage : DecisionStage) (reason : string).
#[export] Instance Decision_eq_dec : EqDecision Decision.
Proof. solve_decision. Defined.

Definition is_allowed (d : Decision) : bool := match d with Allow => true | _ => false end.
Definition decision_stage (d : Decision) : option DecisionStage :=
  match d with Allow => None | Refuse _ stage _ => Some stage end.

Section Manifest.
Context `{JsonNumber}.

Record OperationPolicy := mkPolicy {
  op_policy : PolicyKind;
  op_bounds : option Value;
  op_out_of_bounds : option OutOfBounds;
}.

Definition is_pre_authorized (p : OperationPolicy) : bool :=
  bool_decide (op_policy p = PkPreAuthorized).
Definition has_bounds (p : OperationPolicy) : bool :=
  match op_bounds p with Some _ => true | None => false end.
Definition out_of_bounds (p : OperationPolicy) : OutOfBounds :=
  default out_of_bounds_default (op_out_of_bounds p).

(** ** manifest.rs *)

Record Quotas := mkQuotas {
  qt_tx_per_day : option Z;
  qt_calls_per_day : option Z;
}.

Record Risk := mkRisk {
  rk_max_unapproved_class : option EffectClass;
  rk_min_safety : MinSafety;
}.

Record Capabilities := mkCapabilities {
  ca_operations : gmap string OperationPolicy;
  ca_quotas : Quotas;
  ca_risk : Risk;
}.

Record AgentManifest := mkManifest {
  mf_name : string;
  mf_digest : Digest;
  mf_capabilities : Capabilities;
}.

Definition operation_policy (m : AgentManifest) (op : string) : option OperationPolicy :=
  ca_operations (mf_capabilities m) !! op.
Definition max_unapproved_class (m : AgentManifest) : option EffectClass :=
  rk_max_unapproved_class (ca_risk (mf_capabilities m)).
Definition min_safety (m : AgentManifest) : MinSafety := rk_min_safety (ca_risk (mf_capabilities m)).
Definition calls_per_day (m : AgentManifest) : option Z :=
  qt_calls_per_day (ca_quotas (mf_capabilities m)).

Definition no_minimums : MinSafety := mkMinSafety None None None None None None None None.
Definition default_capabilities : Capabilities :=
  mkCapabilities ∅ (mkQuotas None None) (mkRisk None no_minimums).

Inductive ManifestError :=
  | UnsafeReference
  | Unreadable (e : string)
  | InvalidManifest (e : string)
  | SemanticallyRefused (reason : string).

(** [schemas/src/lib.rs] *)
Inductive SchemaKind :=
  | SkAgentManifest | SkSkillManifest | SkPluginManifest | SkDesktopManifest | SkApproval
  | SkLedgerRecord | SkSafetyVector | SkSystemInfoRequest | SkSystemInfoResponse
  | SkConfigProposeRequest | SkConfigProposeResponse | SkTxTestRequest | SkTxApplyRequest
  | SkTxRollbackRequest | SkTxStatusRequest | SkTxStepResponse | SkTxStatusResponse
  | SkEventsReplayRequest | SkEventsReplayResponse.
#[export] Instance SchemaKind_eq_dec : EqDecision SchemaKind.
Proof. solve_decision. Defined.

Definition manifest_kind (v : Value) : result string SchemaKind :=
  match (kind ← value_get "kind" v; value_as_str kind) with
  | Some kind =>
      if decide (kind = "agent") then Ok SkAgentManifest
      else if decide (kind = "skill") then Ok SkSkillManifest
      else if decide (kind = "plugin") then Ok SkPluginManifest
      else if decide (kind = "desktop") then Ok SkDesktopManifest
      else Err ("unknown manifest kind: " +:+ kind)
  | None => Err "manifest has no kind"
  end.

Class ManifestCodec := {
  yaml_to_json : list byte -> result string Value;
  validate : SchemaKind -> Value -> bool;
  capabilities_from_value : Value -> option Capabilities;
}.

Definition semantic_checks (c : Capabilities) : result ManifestError unit :=
  fail_if (existsb (fun p => is_pre_authorized p && negb (has_bounds p))
                   (map snd (map_to_list (ca_operations c))))
    (SemanticallyRefused "pre_authorized operation without bounds");;
  fail_if (bool_decide (rk_max_unapproved_class (ca_risk c) = Some EffF))
    (SemanticallyRefused "max_unapproved_class may never be F").

Context `{!JsonFloat, !Sha256Hash, !ManifestCodec, !IoEnv} {C : Type}.

(** What [load_agent_manifest] does with the text of the file. *)
Definition manifest_of_text (raw : list byte) : result ManifestError AgentManifest :=
  value ← map_err InvalidManifest (yaml_to_json raw);
  kind ← map_err InvalidManifest (manifest_kind value);
  fail_if (bool_decide (kind <> SkAgentManifest)) (SemanticallyRefused "not an agent manifest");;
  fail_if (negb (validate kind value)) (InvalidManifest "schema");;
  name ← ok_or (n ← value_get "name" value; value_as_str n)
               (SemanticallyRefused "manifest has no name");
  capabilities ← match value_get "capabilities" value with
                 | Some c => ok_or (capabilities_from_value c) (InvalidManifest "capabilities")
                 | None => Ok default_capabilities
                 end;
  semantic_checks capabilities;;
  digest ← map_err (fun _ => InvalidManifest "manifest does not canonicalize")
             (manifest_digest value);
  Ok (mkManifest name digest capabilities).

Definition load_agent_manifest (path : Path) : M (World C) ManifestError AgentManifest :=
  raw ← mapping_err (fun _ => Unreadable "cannot read manifest") (fs_read_to_string path);
  of_result (manifest_of_text raw).

Record ManifestStore := mkManifestStore { mst_dir : Path }.

Definition SLASH : Ascii.ascii := Ascii.ascii_of_nat 47.
Definition BACKSLASH_CHAR : Ascii.ascii := Ascii.ascii_of_nat 92.

(** [str::contains("..")] *)
Fixpoint contains_dots (s : string) : bool :=
  match s with
  | String c ((String d _) as rest) =>
      (bool_decide (c = DOT) && bool_decide (d = DOT)) || contains_dots rest
  | _ => false
  end.

Definition unsafe_reference (manifest_ref : string) : bool :=
  bool_decide (manifest_ref = "") || str_contains manifest_ref SLASH ||
  str_contains manifest_ref BACKSLASH_CHAR || contains_dots manifest_ref.

(** [ManifestStore::load] *)
Definition manifest_load (store : ManifestStore) (manifest_ref : string) :
    M (World C) ManifestError AgentManifest :=
  throw_if (unsafe_reference manifest_ref) UnsafeReference;;
  load_agent_manifest (path_join (mst_dir store) [manifest_ref]).
End Manifest.

(** ** policy.rs: the ladder *)

Section Ladder.
Context `{JsonNumber} {S E : Type} `{CallAdmission S E}.

Fixpoint failing_safety (footprint : list (Resource * EffectClass)) (min : MinSafety)
    (host : SafetyVector) : option string :=
  match footprint with
  | [] => None
  | (resource, class) :: footprint =>
      match class with
      | EffD | EffM =>
          if negb (meets_minimum resource host min) then Some "resource_below_safety_minimum"
          else failing_safety footprint min host
      | _ => failing_safety footprint min host
      end
  end.

Definition stage_three (policy : OperationPolicy) (call : CallDescriptor) : result Decision unit :=
  match op_policy policy with
  | PkDeny => Err (Refuse Denied OperationPolicyStage "operation_denied_by_manifest")
  | PkRequiresApproval =>
      Err (Refuse ApprovalRequired OperationPolicyStage "operation_requires_approval")
  | PkPreAuthorized =>
      match cd_within_bounds call with
      | Some true => Ok tt
      | Some false | None =>
          match out_of_bounds policy with
          | ObRequiresApproval =>
              Err (Refuse ApprovalRequired OperationPolicyStage
                     "arguments_outside_pre_authorized_bounds")
          | ObDeny =>
              Err (Refuse Denied OperationPolicyStage "arguments_outside_pre_authorized_bounds")
          end
      end
  end.

Definition stage_four (call : CallDescriptor) (manifest : AgentManifest) : result Decision unit :=
  match highest_class call with
  | None => Err (Refuse Denied ClassCeiling "effect_set_not_computable")
  | Some highest =>
      let ceiling := default EffR (max_unapproved_class manifest) in
      if rank highest <=? rank ceiling then Ok tt
      else Err (Refuse ApprovalRequired ClassCeiling "class_above_unapproved_ceiling")
  end.

Definition stage_five (manifest : AgentManifest) : M S E Decision :=
  admitted ← try_admit (calls_per_day manifest);
  mret (if admitted : bool then Allow else Refuse QuotaExhausted Quota "call_quota_exhausted").

Definition evaluate (call : CallDescriptor) (manifest : AgentManifest) (host : SafetyVector) :
    M S E Decision :=
  if contains_forbidden call then mret (Refuse Denied ForbiddenClass "forbidden_class")
  else match failing_safety (cd_footprint call) (min_safety manifest) host with
  | Some reason => mret (Refuse Denied SafetyMinimum reason)
  | None =>
      let provisional :=
        match operation_policy manifest (cd_op call) with
        | Some policy => stage_three policy call
        | None => stage_four call manifest
        end in
      match provisional with
      | Err decision => mret decision
      | Ok _ => stage_five manifest
      end
  end.
End Ladder.
