(* ===== verification/Quota.v ===== *)
(** * Identities and budgets

    [broker/src/quota.rs] and [broker/src/identity.rs]: the ledger that
    admits calls, and the store that turns a token into an agent.  The clock
    is an argument; the [serde] reader of the token file is the interface
    [TokenCodec]. *)

From S2P Require Import Prelude RustStd Json TxTypes Jcs.

(** ** quota.rs *)

Definition SECONDS_PER_DAY : Z := 86400.

Record Window := mkWindow {
  wi_day : Z;
  wi_used : Z;
}.

(** The map behind its mutex, and whether a panic has poisoned that. *)
Record QuotaLedger := mkLedger {
  ql_windows : gmap string Window;
  ql_poisoned : bool;
}.

Definition ledger_default : QuotaLedger := mkLedger ∅ false.

Definition current_day (now : SystemTime) : Z :=
  match SystemTime_duration_since now UNIX_EPOCH with
  | Some elapsed => Duration_as_secs elapsed / SECONDS_PER_DAY
  | None => 0
  end.

(** [QuotaLedger::try_admit], under the lock. *)
Definition quota_try_admit (now : SystemTime) (agent_id : string) (limit : option Z)
    (l : QuotaLedger) : bool * QuotaLedger :=
  let today := current_day now in
  if ql_poisoned l then (false, l)
  else
    let window := default (mkWindow today 0) (ql_windows l !! agent_id) in
    let window := if wi_day window <? today then mkWindow today 0 else window in
    let put w := mkLedger (<[agent_id := w]> (ql_windows l)) false in
    match limit with
    | Some limit =>
        if limit <=? wi_used window then (false, put window)
        else (true, put (mkWindow (wi_day window) (u64_saturating_add (wi_used window) 1)))
    | None => (true, put (mkWindow (wi_day window) (u64_saturating_add (wi_used window) 1)))
    end.

Definition admitted_today (now : SystemTime) (agent_id : string) (l : QuotaLedger) : Z :=
  if ql_poisoned l then u64_max
  else match ql_windows l !! agent_id with
       | Some window => if current_day now <=? wi_day window then wi_used window else 0
       | None => 0
       end.

(** ** identity.rs *)

Definition MIN_TOKEN_CHARS : nat := 26.

Record AgentContext := mkAgent {
  ag_agent_id : string;
  ag_manifest_ref : string;
}.

Inductive AuthError := UnknownToken | Revoked | Expired.

Record Enrollment := mkEnrollment {
  en_agent : string;
  en_manifest : string;
  en_token : string;
  en_revoked : bool;
  en_expires_at_unix : option Z;
}.

Record TokenEntry := mkTokenEntry {
  te_agent_id : string;
  te_manifest_ref : string;
  te_token_sha256 : string;
  te_revoked : bool;
  te_expires_at_unix : option Z;
}.

#[export] Instance byte_countable : Countable byte.
Proof. refine (inj_countable byte_val (fun z => Some (byte_of z)) _). intros b. by rewrite byte_of_val. Defined.

(** A map keyed by hash. *)
Record TokenStore := mkTokenStore { by_hash : gmap (list byte) TokenEntry }.

Class TokenCodec := { token_file_from_str : string -> option (list TokenEntry) }.

(** [u8::from_str_radix(pair, 16)] of two bytes of text: an optional plus
    sign before hexadecimal digits of either case. *)
Definition radix16_digit (c : Ascii.ascii) : option Z :=
  let v := Z.of_nat (Ascii.nat_of_ascii c) in
  if (48 <=? v) && (v <=? 57) then Some (v - 48)
  else if (97 <=? v) && (v <=? 102) then Some (v - 87)
  else if (65 <=? v) && (v <=? 70) then Some (v - 55)
  else None.

Definition u8_from_pair (h l : Ascii.ascii) : option byte :=
  if decide (h = PLUS) then v ← radix16_digit l; Some (byte_of v)
  else vh ← radix16_digit h; vl ← radix16_digit l; Some (byte_of (vh * 16 + vl)).

(** The loop over the slots; a pair cut out of a wider character is not a
    number either way. *)
Fixpoint decode_pairs (s : string) : option (list byte) :=
  match s with
  | EmptyString => Some []
  | String h (String l s) => b ← u8_from_pair h l; bs ← decode_pairs s; Some (b :: bs)
  | _ => None
  end.

Definition decode_hex32 (raw : string) : option (list byte) :=
  if negb (Nat.eqb (String.length raw) 64) then None else decode_pairs raw.

Definition hex (bytes : list byte) : string := String.concat "" (map byte_hex bytes).

(** [str::chars().count()]: the bytes that start a character. *)
Definition char_count (s : string) : nat :=
  length (filter (fun b => is_cont b = false) (bytes_of_string s)).

Section Identity.
Context `{!Sha256Hash}.

Definition token_hash (token : string) : list byte := sha256 (bytes_of_string token).

(** The loop of [from_json]. *)
Fixpoint insert_entries (entries : list TokenEntry) (m : gmap (list byte) TokenEntry) :
    result string (gmap (list byte) TokenEntry) :=
  match entries with
  | [] => Ok m
  | entry :: entries =>
      hash ← ok_or (decode_hex32 (te_token_sha256 entry))
                   ("token hash for " +:+ te_agent_id entry +:+ " is not 32 hex bytes");
      fail_if (bool_decide (is_Some (m !! hash))) "two entries share a token hash";;
      insert_entries entries (<[hash := entry]> m)
  end.

Definition from_json `{TokenCodec} (raw : string) : result string TokenStore :=
  parsed ← ok_or (token_file_from_str raw) "malformed token store";
  m ← insert_entries parsed ∅;
  Ok (mkTokenStore m).

Definition entry_of (e : Enrollment) : TokenEntry :=
  mkTokenEntry (en_agent e) (en_manifest e) (hex (token_hash (en_token e))) (en_revoked e)
               (en_expires_at_unix e).

(** The loop of [from_enrollments]. *)
Fixpoint enroll_all (entries : list Enrollment) (m : gmap (list byte) TokenEntry) :
    result string (gmap (list byte) TokenEntry) :=
  match entries with
  | [] => Ok m
  | e :: entries =>
      fail_if (Nat.ltb (char_count (en_token e)) MIN_TOKEN_CHARS)
              ("token for " +:+ en_agent e +:+ " is shorter than 26 characters");;
      enroll_all entries (<[token_hash (en_token e) := entry_of e]> m)
  end.

Definition from_enrollments (entries : list Enrollment) : result string TokenStore :=
  m ← enroll_all entries ∅; Ok (mkTokenStore m).

Definition from_pairs (entries : list (string * string * string)) : result string TokenStore :=
  from_enrollments (map (fun '(agent_id, manifest_ref, token) =>
    mkEnrollment agent_id manifest_ref token false None) entries).

Definition now_unix (now : SystemTime) : Z :=
  match SystemTime_duration_since now UNIX_EPOCH with
  | Some d => Duration_as_secs d
  | None => u64_max
  end.

Definition resolve (now : SystemTime) (store : TokenStore) (presented : string) :
    result AuthError AgentContext :=
  fail_if (Nat.ltb (char_count presented) MIN_TOKEN_CHARS) UnknownToken;;
  entry ← ok_or (by_hash store !! token_hash presented) UnknownToken;
  fail_if (te_revoked entry) Revoked;;
  match te_expires_at_unix entry with
  | Some expiry => fail_if (expiry <=? now_unix now) Expired
  | None => Ok tt
  end;;
  Ok (mkAgent (te_agent_id entry) (te_manifest_ref entry)).

Definition store_len (store : TokenStore) : nat := size (by_hash store).
End Identity.
