(* ===== verification/QuotaTheorems.v ===== *)
(** * Budgets and identities: the theorems

    Over any sequence of calls, with any clock, the ledger admits exactly the
    calls within the budget of their window; a token resolves exactly to the
    agent it was last enrolled for, and hashes in a token file read as the
    hash they show. *)

From S2P Require Import Prelude RustStd Json TxTypes TxNames TxState Jcs Quota.

(** ** The ledger over a sequence of calls *)

Record Attempt := mkAttempt {
  at_now : SystemTime;
  at_agent : string;
  at_limit : option Z;
}.

(** What became of an attempt: the day of the window that counted it. *)
Record Answered := mkAnswered {
  an_attempt : Attempt;
  an_day : Z;
  an_admitted : bool;
}.

Definition answer (l : QuotaLedger) (a : Attempt) : Answered * QuotaLedger :=
  let '(admitted, l') := quota_try_admit (at_now a) (at_agent a) (at_limit a) l in
  (mkAnswered a (wi_day (default (mkWindow 0 0) (ql_windows l' !! at_agent a))) admitted, l').

Fixpoint quota_run (l : QuotaLedger) (attempts : list Attempt) : list Answered * QuotaLedger :=
  match attempts with
  | [] => ([], l)
  | a :: attempts =>
      let '(r, l) := answer l a in
      let '(rs, l) := quota_run l attempts in
      (r :: rs, l)
  end.

Definition of_agent (agent : string) (rs : list Answered) : list Answered :=
  filter (fun r => at_agent (an_attempt r) = agent) rs.

(** The latest day any of these calls was made on, [today] at least. *)
Definition latest_day (today : Z) (rs : list Answered) : Z :=
  fold_right Z.max today (map (fun r => current_day (at_now (an_attempt r))) rs).

(** The admissions already counted for an agent in the window of a day. *)
Definition admitted_in (agent : string) (day : Z) (rs : list Answered) : Z :=
  Z.of_nat (length (filter (fun r => an_admitted r = true /\ an_day r = day) (of_agent agent rs))).

Lemma filter_none {A} (P : A -> Prop) `{!forall x, Decision (P x)} l :
  Forall (fun x => ~ P x) l -> filter P l = [].
Proof. induction 1; [done|]. by rewrite filter_cons, decide_False. Qed.

Lemma latest_day_snoc today rs r :
  latest_day today (rs ++ [r]) = latest_day (Z.max today (current_day (at_now (an_attempt r)))) rs.
Proof.
  unfold latest_day. rewrite map_app, fold_right_app. cbn. f_equal. lia.
Qed.

Lemma latest_day_max d e rs : latest_day (Z.max d e) rs = Z.max d (latest_day e rs).
Proof. unfold latest_day. induction rs as [|r rs IH]; cbn; [done|]. rewrite IH. lia. Qed.

Lemma of_agent_snoc agent rs r :
  of_agent agent (rs ++ [r]) =
  of_agent agent rs ++ (if decide (at_agent (an_attempt r) = agent) then [r] else []).
Proof. unfold of_agent. by rewrite filter_app, filter_cons, filter_nil. Qed.

Lemma admitted_in_snoc agent day rs r :
  admitted_in agent day (rs ++ [r]) =
  admitted_in agent day rs +
  (if decide (at_agent (an_attempt r) = agent /\ an_admitted r = true /\ an_day r = day)
   then 1 else 0).
Proof.
  unfold admitted_in. rewrite of_agent_snoc, filter_app, length_app, Nat2Z.inj_add. f_equal.
  destruct (decide (at_agent _ = agent)) as [Ha|Ha].
  - rewrite filter_cons, filter_nil.
    destruct (decide (an_admitted r = true /\ an_day r = day)), (decide (_ /\ _ /\ _)); tauto || done.
  - rewrite filter_nil. destruct (decide (_ /\ _ /\ _)); [tauto|done].
Qed.

(** What the ledger holds of one agent after some answers. *)
Definition account (agent : string) (w : option Window) (rs : list Answered) : Prop :=
  match w with
  | None => of_agent agent rs = []
  | Some w =>
      (forall today, latest_day today (of_agent agent rs) = Z.max today (wi_day w)) /\
      Forall (fun r => an_day r <= wi_day w) (of_agent agent rs) /\
      wi_used w = Z.min (admitted_in agent (wi_day w) rs) u64_max
  end.

Definition accounts (l : QuotaLedger) (rs : list Answered) : Prop :=
  ql_poisoned l = false /\ forall agent, account agent (ql_windows l !! agent) rs.

(** The window a call is counted in, after it was rolled over. *)
Definition rolled (today : Z) (w : option Window) : Window :=
  let w := default (mkWindow today 0) w in if wi_day w <? today then mkWindow today 0 else w.

Lemma rolled_account agent today w rs :
  account agent w rs ->
  wi_day (rolled today w) = latest_day today (of_agent agent rs) /\
  Forall (fun r => an_day r <= wi_day (rolled today w)) (of_agent agent rs) /\
  wi_used (rolled today w) = Z.min (admitted_in agent (wi_day (rolled today w)) rs) u64_max.
Proof.
  unfold rolled, account. destruct w as [w|]; cbn [from_option id]; cbv zeta.
  - intros (Hd & Hall & Hu). destruct (wi_day w <? today) eqn:E; bool_to_prop; cbn.
    + rewrite Hd. split_and!; [lia| |].
      * eapply Forall_impl; [exact Hall|]. intros r Hr. cbn in *. lia.
      * unfold admitted_in. rewrite filter_none; [done|].
        eapply Forall_impl; [exact Hall|]. intros r Hr [_ Hday]. cbn in *. lia.
    + rewrite Hd. split_and!; [lia|done|done].
  - intros Hn. rewrite Z.ltb_irrefl. cbn. unfold admitted_in. rewrite Hn. by split_and!.
Qed.

(** One call: the account of its agent moves on, it is admitted exactly
    within the budget. *)
Lemma answer_exact l rs a :
  accounts l rs ->
  (forall L, at_limit a = Some L -> is_u64 L) ->
  let '(r, l') := answer l a in
  accounts l' (rs ++ [r]) /\ an_attempt r = a /\
  an_day r = latest_day (current_day (at_now a)) (of_agent (at_agent a) rs) /\
  (an_admitted r = true <->
   forall L, at_limit a = Some L -> admitted_in (at_agent a) (an_day r) rs < L).
Proof.
  intros [Hp Hacc] HL. unfold answer, quota_try_admit. rewrite Hp.
  set (today := current_day (at_now a)).
  destruct (rolled_account _ today _ rs (Hacc (at_agent a))) as (Hd & Hall & Hu).
  fold (rolled today (ql_windows l !! at_agent a)). set (w := rolled today _) in *.
  set (admitted := match at_limit a with Some L => negb (L <=? wi_used w) | None => true end).
  set (w' := if admitted then mkWindow (wi_day w) (u64_saturating_add (wi_used w) 1) else w).
  assert (Heq : match at_limit a with
    | Some limit =>
        if limit <=? wi_used w
        then (false, mkLedger (<[at_agent a := w]> (ql_windows l)) false)
        else (true, mkLedger (<[at_agent a := mkWindow (wi_day w) (u64_saturating_add (wi_used w) 1)]>
                                (ql_windows l)) false)
    | None => (true, mkLedger (<[at_agent a := mkWindow (wi_day w) (u64_saturating_add (wi_used w) 1)]>
                                (ql_windows l)) false)
    end = (admitted, mkLedger (<[at_agent a := w']> (ql_windows l)) false)).
  { unfold w', admitted. destruct (at_limit a) as [L|]; [|done]. by destruct (L <=? _). }
  rewrite Heq. cbn [ql_windows]. rewrite lookup_insert_eq. cbn [from_option id an_day an_admitted an_attempt].
  assert (Hday : wi_day w' = wi_day w) by (unfold w'; by destruct admitted).
  split_and!; [split; [done|]|done|by rewrite Hday|].
  - intros agent. cbn [ql_windows]. destruct (decide (agent = at_agent a)) as [->|Hne].
    + rewrite lookup_insert_eq. cbn [account]. rewrite Hday, of_agent_snoc, admitted_in_snoc.
      cbn [an_attempt an_admitted an_day]. rewrite decide_True by done. split_and!.
      * intros t. rewrite latest_day_snoc, latest_day_max. cbn [an_attempt]. fold today.
        by rewrite <-Hd.
      * apply Forall_app. split; [done|]. repeat constructor. cbn. lia.
      * clear -Hu. unfold w', u64_saturating_add. destruct admitted; cbn; case_decide; try (exfalso; tauto); rewrite ?Hu; destruct_and?; unfold u64_max in *; try lia.
    + rewrite lookup_insert_ne by done. specialize (Hacc agent). unfold account in *.
      rewrite of_agent_snoc. cbn [an_attempt]. rewrite decide_False by done. rewrite app_nil_r.
      destruct (ql_windows l !! agent) as [v|]; [|done]. destruct Hacc as (H1 & H2 & H3).
      split_and!; [done|done|]. rewrite admitted_in_snoc, decide_False by (cbn; intros [Hx _]; by destruct Hne).
      by rewrite Z.add_0_r.
  - rewrite Hday. unfold admitted. destruct (at_limit a) as [L|]; [|by split].
    specialize (HL L eq_refl). unfold is_u64 in HL. rewrite Hu. split.
    + intros Hn ? [= <-]. bool_to_prop. lia.
    + intros Hn. specialize (Hn L eq_refl). apply negb_true_iff, Z.leb_gt. lia.
Qed.

Definition limits_ok (attempts : list Attempt) : Prop :=
  Forall (fun a => forall L, at_limit a = Some L -> is_u64 L) attempts.

(** The decision on one call, after the answers [pre]. *)
Definition decided (pre : list Answered) (r : Answered) : Prop :=
  let a := an_attempt r in
  an_day r = latest_day (current_day (at_now a)) (of_agent (at_agent a) pre) /\
  (an_admitted r = true <->
   forall L, at_limit a = Some L -> admitted_in (at_agent a) (an_day r) pre < L).

Lemma quota_run_decided attempts l rs :
  accounts l rs -> limits_ok attempts ->
  map an_attempt (quota_run l attempts).1 = attempts /\
  forall pre r post, (quota_run l attempts).1 = pre ++ r :: post -> decided (rs ++ pre) r.
Proof.
  revert l rs. induction attempts as [|a attempts IH]; intros l rs Hacc Hok; cbn [quota_run].
  - split; [done|]. intros pre r post Hn. by destruct pre.
  - apply Forall_cons in Hok as [Ha Hok]. pose proof (answer_exact l rs a Hacc Ha) as Hx.
    destruct (answer l a) as [r l']. destruct Hx as (Hacc' & Hr & Hd & Hadm).
    destruct (IH l' (rs ++ [r]) Hacc' Hok) as [Hmap Hdec].
    destruct (quota_run l' attempts) as [rs' l'']. cbn [fst map] in *. split; [by rewrite Hr, Hmap|].
    intros pre r' post Heq. destruct pre as [|r0 pre]; cbn in Heq; injection Heq as <- Heq.
    + rewrite app_nil_r. unfold decided. by rewrite Hr.
    + replace (rs ++ r :: pre) with ((rs ++ [r]) ++ pre) by (by rewrite <-app_assoc).
      by apply (Hdec pre r' post).
Qed.

Lemma ledger_default_accounts : accounts ledger_default [].
Proof. split; [done|]. intros agent. cbn. by rewrite lookup_empty. Qed.

(** C21: the ledger decides each call exactly.  Whatever the clock does, a
    call is counted in the window of the latest day its agent has called on,
    so a clock that steps back opens no new window; and it is admitted
    exactly when that window has admitted fewer calls than the limit it came
    with. *)
Theorem quota_admits_exactly attempts :
  limits_ok attempts ->
  let answers := (quota_run ledger_default attempts).1 in
  map an_attempt answers = attempts /\
  forall pre r post, answers = pre ++ r :: post -> decided pre r.
Proof. intros Hok. exact (quota_run_decided attempts ledger_default [] ledger_default_accounts Hok). Qed.

(** A budget is never exceeded.  If an agent's calls all come with a
    limit of at most [L], no window of the ledger ever admits more than [L] of
    them, whatever the other agents do and whatever the clock shows.  The day
    is the ledger's, not the clock's: when the clock goes back, calls are
    counted in the window of the latest day, so the calls made while the clock
    shows one day can come to more than [L]. *)
Theorem quota_never_exceeded attempts agent L day :
  limits_ok attempts -> 0 <= L ->
  (forall a, a ∈ attempts -> at_agent a = agent -> exists l, at_limit a = Some l /\ l <= L) ->
  admitted_in agent day (quota_run ledger_default attempts).1 <= L.
Proof.
  intros Hok HL Hlim.
  destruct (quota_run_decided attempts ledger_default [] ledger_default_accounts Hok) as [Hmap Hdec].
  revert Hmap Hdec. generalize (quota_run ledger_default attempts).1 as rs. intros rs Hmap Hdec.
  assert (Hin : forall r, r ∈ rs -> an_attempt r ∈ attempts).
  { intros r Hr. rewrite <-Hmap. by apply list_elem_of_fmap_2. }
  assert (Hpre : forall pre post, rs = pre ++ post -> admitted_in agent day pre <= L).
  { intros pre. induction pre as [|r pre IH] using rev_ind; intros post Heq; [done|].
    rewrite <-app_assoc in Heq. rewrite admitted_in_snoc. specialize (IH _ Heq).
    case_decide as Hc; [|lia]. destruct Hc as (Ha & Hadm & Hday).
    destruct (Hdec pre r post Heq) as [_ [Hwithin _]]. specialize (Hwithin Hadm).
    destruct (Hlim (an_attempt r)) as (l & Hl & Hle); [|done|].
    - apply Hin. rewrite Heq. apply elem_of_app. right. apply list_elem_of_here.
    - specialize (Hwithin l Hl). rewrite Ha, Hday in Hwithin. cbn in Hwithin. lia. }
  apply (Hpre rs []). by rewrite app_nil_r.
Qed.

(** A day's calls of two agents, a clock that steps back, and the next day. *)
Definition demo_attempts : list Attempt :=
  let day d := d * 86400 * NSEC in
  [mkAttempt (day 20000) "a" (Some 2); mkAttempt (day 20000 + 5) "b" None;
   mkAttempt (day 20000 + 7) "a" (Some 2); mkAttempt (day 19999) "a" (Some 2);
   mkAttempt (day 20001) "a" (Some 2)].

Lemma demo_limits_ok : limits_ok demo_attempts.
Proof.
  unfold limits_ok, demo_attempts. apply Forall_forall. intros a Ha L Hl.
  rewrite !elem_of_cons in Ha.
  destruct Ha as [->|[->|[->|[->|[->|Ha]]]]]; try (by apply not_elem_of_nil in Ha);
    cbn in Hl; try discriminate Hl; injection Hl as <-; unfold is_u64, u64_max; lia.
Qed.

Lemma quota_admits_exactly_witness :
  map an_admitted (quota_run ledger_default demo_attempts).1 = [true; true; true; false; true] /\
  map an_attempt (quota_run ledger_default demo_attempts).1 = demo_attempts /\
  forall pre r post,
    (quota_run ledger_default demo_attempts).1 = pre ++ r :: post -> decided pre r.
Proof.
  split; [vm_compute; reflexivity|]. exact (quota_admits_exactly demo_attempts demo_limits_ok).
Defined.

Lemma quota_never_exceeded_witness :
  admitted_in "a" 20000 (quota_run ledger_default demo_attempts).1 <= 2.
Proof.
  refine (quota_never_exceeded demo_attempts "a" 2 20000 demo_limits_ok _ _).
  - lia.
  - intros a Ha Hagent. unfold demo_attempts in Ha. rewrite !elem_of_cons in Ha.
    destruct Ha as [->|[->|[->|[->|[->|Ha]]]]]; cbn in *; try discriminate Hagent;
      [exists 2|exists 2|exists 2|exists 2|]; try (split; [reflexivity|lia]).
    by apply not_elem_of_nil in Ha.
Defined.

(** ** Identities *)

Section Identity.
Context `{!Sha256Hash}.

Lemma enroll_all_tokens es m m' :
  enroll_all es m = Ok m' -> Forall (fun e => (MIN_TOKEN_CHARS <= char_count (en_token e))%nat) es.
Proof.
  revert m. induction es as [|e es IH]; intros m Hm; [constructor|]. cbn in Hm. inv_ok.
  constructor; [|by eapply IH]. by apply Nat.ltb_ge.
Qed.

(** The last enrollment of a hash. *)
Fixpoint last_enrolled (hash : list byte) (es : list Enrollment) : option Enrollment :=
  match es with
  | [] => None
  | e :: es =>
      match last_enrolled hash es with
      | Some e' => Some e'
      | None => if decide (token_hash (en_token e) = hash) then Some e else None
      end
  end.

Lemma enroll_all_lookup es m m' hash :
  enroll_all es m = Ok m' ->
  m' !! hash = match last_enrolled hash es with Some e => Some (entry_of e) | None => m !! hash end.
Proof.
  revert m. induction es as [|e es IH]; intros m Hm; cbn in Hm; inv_ok; [done|].
  cbn [last_enrolled]. rewrite (IH _ Hm). destruct (last_enrolled hash es); [done|].
  case_decide as Hh; [by rewrite Hh, lookup_insert_eq|by rewrite lookup_insert_ne].
Qed.

Lemma last_enrolled_Some hash es e :
  last_enrolled hash es = Some e <->
  exists pre post, es = pre ++ e :: post /\ token_hash (en_token e) = hash /\
    Forall (fun e' => token_hash (en_token e') <> hash) post.
Proof.
  assert (Hnone : forall es, last_enrolled hash es = None <->
                    Forall (fun e' => token_hash (en_token e') <> hash) es).
  { intros l. induction l as [|x l IH]; cbn; [by split|]. rewrite Forall_cons, <-IH.
    destruct (last_enrolled hash l); [naive_solver|]. case_decide; naive_solver. }
  induction es as [|x es IH]; cbn.
  - split; [done|]. intros ([|??] & ? & Hn & _); discriminate Hn.
  - split.
    + destruct (last_enrolled hash es) as [e'|] eqn:El.
      * intros [= ->]. destruct (proj1 IH eq_refl) as (pre & post & -> & Hh & Hp).
        by exists (x :: pre), post.
      * case_decide; intros [= ->]. exists [], es. split_and!; [done|done|by apply Hnone].
    + intros (pre & post & Heq & Hh & Hp). destruct pre as [|y pre]; cbn in Heq; injection Heq as -> ->.
      * apply Hnone in Hp as ->. by rewrite decide_True.
      * by rewrite (proj2 IH) by (by exists pre, post).
Qed.

(** C29: a token resolves to the agent it was last enrolled for, and to no
    other.  When the hash keeps the presented token apart from the enrolled
    ones, a store built from enrollments answers exactly the agent and the
    manifest of the last enrollment of that token, unless that enrollment is
    revoked or its expiry has come. *)
Theorem identity_resolves_exactly es store now presented ctx :
  from_enrollments es = Ok store ->
  (forall e, e ∈ es -> token_hash (en_token e) = token_hash presented -> en_token e = presented) ->
  resolve now store presented = Ok ctx <->
  exists pre e post,
    es = pre ++ e :: post /\ en_token e = presented /\
    Forall (fun e' => en_token e' <> presented) post /\
    en_revoked e = false /\ (forall x, en_expires_at_unix e = Some x -> now_unix now < x) /\
    ctx = mkAgent (en_agent e) (en_manifest e).
Proof.
  unfold from_enrollments. intros Hes Hcol. inv_ok.
  match goal with Hx : enroll_all es ∅ = Ok ?m |- _ => rename Hx into Hm; set (store := m) in * end.
  pose proof (enroll_all_tokens _ _ _ Hm) as Hlen. rewrite Forall_forall in Hlen.
  pose proof (enroll_all_lookup _ _ _ (token_hash presented) Hm) as Hl.
  rewrite lookup_empty in Hl. unfold resolve. cbn [by_hash]. rewrite Hl.
  assert (Hin : forall pre e post, es = pre ++ e :: post -> e ∈ es)
    by (intros ??? ->; set_solver).
  split.
  - intros Hr. inv_ok. destruct (last_enrolled _ es) as [e|] eqn:El; [|done].
    match goal with Hx : Some _ = Some _ |- _ => injection Hx as <- end.
    apply last_enrolled_Some in El as (pre & post & Heq & Hh & Hp).
    exists pre, e, post. split_and!; [done|by eauto| |done| |done].
    + eapply Forall_impl; [exact Hp|]. intros e' Hne Heq'. apply Hne. by rewrite Heq'.
    + intros x Hx. match goal with Hx : match te_expires_at_unix _ with _ => _ end = _ |- _ =>
        rename Hx into Hexp end. cbn in Hexp. rewrite Hx in Hexp. inv_ok. by apply Z.leb_gt.
  - intros (pre & e & post & Heq & Ht & Hp & Hrev & Hexp & ->).
    assert (last_enrolled (token_hash presented) es = Some e) as ->.
    { apply last_enrolled_Some. exists pre, post. split_and!; [done|by rewrite Ht|].
      apply Forall_forall. intros e' He' Hh. rewrite Forall_forall in Hp.
      apply (Hp e' He'), Hcol; [|done]. rewrite Heq. set_solver. }
    assert ((char_count presented <? MIN_TOKEN_CHARS)%nat = false) as ->.
    { apply Nat.ltb_ge. rewrite <-Ht. eapply Hlen, Hin, Heq. }
    cbn [fail_if ok_or]. run_ok. cbn. rewrite Hrev. cbn [fail_if]. run_ok.
    destruct (en_expires_at_unix e) as [x|]; [|done].
    specialize (Hexp x eq_refl). by rewrite (proj2 (Z.leb_gt _ _) Hexp).
Qed.

(** ** The token file *)

Lemma u8_from_hex_chars b :
  u8_from_pair (hex_char (byte_val b / 16)) (hex_char (byte_val b mod 16)) = Some b.
Proof. destruct b; vm_compute; reflexivity. Qed.

Lemma decode_hex_pairs bytes : decode_pairs (hex bytes) = Some bytes.
Proof.
  induction bytes as [|b bytes IH]; [done|].
  assert (Hc : hex (b :: bytes) = byte_hex b +:+ hex bytes) by (unfold hex; cbn; by destruct bytes).
  rewrite Hc. change (byte_hex b +:+ ?s) with
    (String (hex_char (byte_val b / 16)) (String (hex_char (byte_val b mod 16)) s)).
  cbn [decode_pairs]. rewrite u8_from_hex_chars, IH. done.
Qed.

Lemma decode_hex32_hex bytes : length bytes = 32%nat -> decode_hex32 (hex bytes) = Some bytes.
Proof.
  intros Hl. unfold decode_hex32. unfold hex at 1. rewrite length_hex_bytes, Hl.
  apply decode_hex_pairs.
Qed.

Definition hashes (es : list Enrollment) : list (list byte) :=
  map (fun e => token_hash (en_token e)) es.

Lemma insert_entries_either (Hsha : forall x, length (sha256 x) = 32%nat) es m out :
  enroll_all es m = Ok out ->
  (NoDup (hashes es) /\ Forall (fun h => m !! h = None) (hashes es) /\
   insert_entries (map entry_of es) m = Ok out) \/
  (~ (NoDup (hashes es) /\ Forall (fun h => m !! h = None) (hashes es)) /\
   insert_entries (map entry_of es) m = Err "two entries share a token hash").
Proof.
  revert m. induction es as [|e es IH]; intros m Hm; cbn [enroll_all map insert_entries hashes] in *.
  - left. injection Hm as ->. by repeat split; constructor.
  - inv_ok. cbn [entry_of te_token_sha256].
    rewrite (decode_hex32_hex (token_hash (en_token e))) by apply Hsha. cbn [ok_or]. run_ok.
    fold (hashes es). rewrite NoDup_cons, Forall_cons.
    destruct (m !! token_hash (en_token e)) eqn:Em.
    { right. split; [by intros (_ & ? & _)|]. by rewrite bool_decide_true by eauto. }
    rewrite bool_decide_false by (by intros [? ?]). cbn [fail_if]. run_ok.
    assert (Hfresh : Forall (fun h => <[token_hash (en_token e) := entry_of e]> m !! h = None) (hashes es) <->
              (token_hash (en_token e) ∉ hashes es) /\ Forall (fun h => m !! h = None) (hashes es)).
    { rewrite !Forall_forall. split.
      - intros Hf. split.
        + intros Hin. specialize (Hf _ Hin). by rewrite lookup_insert_eq in Hf.
        + intros h Hin. specialize (Hf h Hin). apply lookup_insert_None in Hf as [? _]. done.
      - intros [Hni Hf] h Hin. apply lookup_insert_None. split; [auto|]. by intros <-. }
    destruct (IH _ Hm) as [(Hnd & Hf & ->)|[Hdup ->]].
    + left. apply Hfresh in Hf as [? ?]. by split_and!.
    + right. split; [|done]. intros [[Hni Hnd] [_ Hf]]. apply Hdup. split; [done|]. by apply Hfresh.
Qed.

(** A token file gives back the store it lists.  A file with the entries
    of some enrollments reads as the store built from them, when no two have
    the same hash; when two do, the file is refused, while building the store
    in memory keeps the last. *)
Theorem token_file_round_trip `{!TokenCodec} es store raw :
  (forall x, length (sha256 x) = 32%nat) ->
  from_enrollments es = Ok store ->
  token_file_from_str raw = Some (map entry_of es) ->
  from_json raw =
    if decide (NoDup (hashes es)) then Ok store
    else Err "two entries share a token hash".
Proof.
  intros Hsha Hes Hraw. unfold from_json. rewrite Hraw. cbn [ok_or]. run_ok.
  unfold from_enrollments in Hes. inv_ok.
  match goal with Hx : enroll_all es ∅ = Ok ?m |- _ => rename Hx into Hm; rename m into out end.
  destruct (insert_entries_either Hsha es ∅ out Hm) as [(Hnd & _ & ->)|[Hdup ->]].
  - by rewrite decide_True by done.
  - rewrite decide_False; [done|]. intros Hnd. apply Hdup. split; [done|].
    apply Forall_forall. intros h _. apply lookup_empty.
Qed.
End Identity.

(** Enough of a hash for short tokens: their bytes, filled up to 32. *)
Definition padded_hash : Sha256Hash := {| sha256 := fun bytes => take 32 (bytes ++ repeat Byte.x00 32) |}.

Lemma padded_hash_length x : length (@sha256 padded_hash x) = 32%nat.
Proof.
  change (length (take 32 (x ++ repeat Byte.x00 32)) = 32%nat).
  rewrite length_take, length_app, repeat_length. lia.
Qed.

Definition TOKEN_A : string := "aaaaaaaaaaaaaaaaaaaaaaaaaaaaaa".
Definition TOKEN_B : string := "bbbbbbbbbbbbbbbbbbbbbbbbbbbbbb".

Definition demo_enrollments : list Enrollment :=
  [mkEnrollment "agent-a" "a.yaml" TOKEN_A false None;
   mkEnrollment "agent-b" "b.yaml" TOKEN_B false (Some 2000);
   mkEnrollment "agent-c" "c.yaml" TOKEN_A false None].

Definition demo_tokens : TokenStore :=
  match @from_enrollments padded_hash demo_enrollments with Ok s => s | Err _ => mkTokenStore ∅ end.

Lemma demo_tokens_built : @from_enrollments padded_hash demo_enrollments = Ok demo_tokens.
Proof. reflexivity. Qed.

(** The token enrolled twice resolves to the agent that came last; the other
    one expires with its second. *)
Lemma identity_resolves_exactly_witness :
  @resolve padded_hash 0 demo_tokens TOKEN_A = Ok (mkAgent "agent-c" "c.yaml") /\
  @resolve padded_hash (2000 * NSEC) demo_tokens TOKEN_B = Err Expired.
Proof.
  split; [|vm_compute; reflexivity].
  apply (@identity_resolves_exactly padded_hash demo_enrollments demo_tokens 0 TOKEN_A
           (mkAgent "agent-c" "c.yaml")).
  - exact demo_tokens_built.
  - intros e He Hh. unfold demo_enrollments in He. rewrite !elem_of_cons in He.
    destruct He as [->|[->|[->|He]]]; [reflexivity|vm_compute in Hh; discriminate Hh|reflexivity|].
    by apply not_elem_of_nil in He.
  - exists (take 2 demo_enrollments), (mkEnrollment "agent-c" "c.yaml" TOKEN_A false None), [].
    split_and!; try reflexivity; [constructor|]. intros x Hx. discriminate Hx.
Defined.

(** A file that lists the two entries of one token. *)
Definition demo_token_codec : TokenCodec :=
  {| token_file_from_str := fun _ => Some (map (@entry_of padded_hash) demo_enrollments) |}.

Lemma token_file_round_trip_witness :
  @from_json demo_token_codec "{}" =
    if decide (NoDup (@hashes padded_hash demo_enrollments)) then Ok demo_tokens
    else Err "two entries share a token hash".
Proof.
  apply (@token_file_round_trip padded_hash demo_token_codec demo_enrollments demo_tokens "{}").
  - exact padded_hash_length.
  - exact demo_tokens_built.
  - reflexivity.
Defined.

(** A sign passes for a digit: such a text is not 32 bytes in hexadecimal. *)
Lemma decode_hex32_takes_signs :
  decode_hex32 (String.concat "" (repeat "+f" 32)) = Some (repeat (byte_of 15) 32).
Proof. vm_compute. reflexivity. Qed.
