(* ===== verification/PolicyTheorems.v ===== *)
(** * The policy ladder: the theorems

    What each stage requires is stated apart from the code; the ladder allows
    a call exactly when every stage is satisfied, names the first that is not,
    and touches the budget only after the first four. *)

From S2P Require Import Prelude RustStd Json TxTypes Wire Jcs Policy.

(** ** What the stages require *)

(** How well a resource is covered, and what a manifest asks of it, on the
    scale of that resource; what is not mentioned is asked for nothing. *)
Definition coverage (resource : Resource) (host : SafetyVector) : Z :=
  match resource with
  | RootConfig => host_rank (sv_root_config host)
  | Packages => host_rank (sv_packages host)
  | Bootloader => host_rank (sv_bootloader host)
  | Kernel => host_rank (sv_kernel host)
  | ServiceState => service_rank (sv_service_state host)
  | PluginData => data_rank (sv_plugin_data host)
  | DesktopData => data_rank (sv_desktop_data host)
  | HomeData => data_rank (sv_home_data host)
  | ExternalEffects => 0
  end.

Definition asked (resource : Resource) (min : MinSafety) : Z :=
  match resource with
  | RootConfig => minimum_rank host_rank (ms_root_config min)
  | Packages => minimum_rank host_rank (ms_packages min)
  | Bootloader => minimum_rank host_rank (ms_bootloader min)
  | Kernel => minimum_rank host_rank (ms_kernel min)
  | ServiceState => minimum_rank service_rank (ms_service_state min)
  | PluginData => minimum_rank data_rank (ms_plugin_data min)
  | DesktopData => minimum_rank data_rank (ms_desktop_data min)
  | HomeData => minimum_rank data_rank (ms_home_data min)
  | ExternalEffects => 0
  end.

Definition covered (resource : Resource) (host : SafetyVector) (min : MinSafety) : Prop :=
  0 < coverage resource host /\ asked resource min <= coverage resource host.

Section Stages.
Context `{JsonNumber}.

Definition stage_passes (call : CallDescriptor) (m : AgentManifest) (host : SafetyVector)
    (stage : DecisionStage) : Prop :=
  match stage with
  | ForbiddenClass => cd_globally_forbidden call = false /\ (EffF ∉ cd_effect_set call)
  | SafetyMinimum =>
      forall resource class, (resource, class) ∈ cd_footprint call ->
      class = EffD \/ class = EffM -> covered resource host (min_safety m)
  | OperationPolicyStage =>
      forall p, operation_policy m (cd_op call) = Some p ->
      op_policy p = PkPreAuthorized /\ cd_within_bounds call = Some true
  | ClassCeiling =>
      operation_policy m (cd_op call) = None ->
      (exists c, c ∈ cd_effect_set call /\ c <> EffF) /\
      forall c, c ∈ cd_effect_set call -> c <> EffF ->
      rank c <= rank (default EffR (max_unapproved_class m))
  | Quota => True
  end.

(** The stages before one pass, and it does not. *)
Definition stopped_at (call : CallDescriptor) (m : AgentManifest) (host : SafetyVector)
    (stage : DecisionStage) : Prop :=
  (forall s, ordinal s < ordinal stage -> stage_passes call m host s) /\
  ~ stage_passes call m host stage.

Lemma meets_minimum_covered resource host min :
  meets_minimum resource host min = true <-> covered resource host min.
Proof.
  unfold meets_minimum, covered, host_meets, data_meets.
  destruct resource; cbn [coverage asked]; rewrite ?andb_true_iff, ?Z.ltb_lt, ?Z.leb_le;
    [done..|split; [done|lia]].
Qed.

Lemma failing_safety_None footprint min host :
  failing_safety footprint min host = None <->
  (forall resource class, (resource, class) ∈ footprint -> class = EffD \/ class = EffM ->
   covered resource host min).
Proof.
  induction footprint as [|[resource class] footprint IH]; cbn [failing_safety].
  - split; [intros _ ??; by intros ?%not_elem_of_nil|done].
  - assert (Hskip : class <> EffD -> class <> EffM ->
      (forall r c, (r, c) ∈ (resource, class) :: footprint -> c = EffD \/ c = EffM -> covered r host min) <->
      (forall r c, (r, c) ∈ footprint -> c = EffD \/ c = EffM -> covered r host min)).
    { intros Hd Hm. setoid_rewrite elem_of_cons. naive_solver. }
    assert (Hcheck : class = EffD \/ class = EffM ->
      (if negb (meets_minimum resource host min) then Some "resource_below_safety_minimum"
       else failing_safety footprint min host) = None <->
      (forall r c, (r, c) ∈ (resource, class) :: footprint -> c = EffD \/ c = EffM -> covered r host min)).
    { intros Hc. setoid_rewrite elem_of_cons.
      destruct (meets_minimum resource host min) eqn:E; cbn [negb].
      - apply meets_minimum_covered in E. rewrite IH. naive_solver.
      - split; [done|]. intros Hall. specialize (Hall resource class (or_introl eq_refl) Hc).
        apply meets_minimum_covered in Hall. congruence. }
    destruct class; first [by apply Hcheck; auto|by rewrite Hskip].
Qed.

Lemma failing_safety_Some footprint min host reason :
  failing_safety footprint min host = Some reason -> reason = "resource_below_safety_minimum".
Proof.
  induction footprint as [|[resource class] footprint IH]; cbn; [done|].
  destruct class; try done; by destruct (negb _); [intros [= <-]|].
Qed.

Lemma max_by_key_Some {A} (key : A -> Z) l x :
  max_by_key key l = Some x -> x ∈ l /\ forall y, y ∈ l -> key y <= key x.
Proof.
  revert x. induction l as [|a l IH]; intros x; [done|]. cbn [max_by_key].
  destruct (max_by_key key l) as [b|] eqn:E.
  - destruct (IH b eq_refl) as [Hb Hall]. destruct (key a <=? key b) eqn:Ek; bool_to_prop; intros [= <-].
    + split; [by apply list_elem_of_further|]. intros y [->|Hy]%elem_of_cons; [lia|auto].
    + split; [apply list_elem_of_here|]. intros y [->|Hy]%elem_of_cons; [lia|]. specialize (Hall y Hy). lia.
  - intros [= <-]. destruct l as [|c l].
    + split; [apply list_elem_of_here|]. intros y [->|Hy]%elem_of_cons; [lia|by apply not_elem_of_nil in Hy].
    + cbn [max_by_key] in E. by destruct (max_by_key key l); [destruct (_ <=? _)|].
Qed.

Lemma max_by_key_None {A} (key : A -> Z) l : max_by_key key l = None -> l = [].
Proof.
  destruct l as [|a l]; [done|]. cbn. by destruct (max_by_key key l); [destruct (_ <=? _)|].
Qed.

Lemma stage_four_passes call m :
  stage_four call m = Ok tt <->
  (exists c, c ∈ cd_effect_set call /\ c <> EffF) /\
  forall c, c ∈ cd_effect_set call -> c <> EffF ->
  rank c <= rank (default EffR (max_unapproved_class m)).
Proof.
  unfold stage_four, highest_class.
  destruct (max_by_key rank _) as [x|] eqn:E.
  - apply max_by_key_Some in E as [Hx Hall]. rewrite list_elem_of_filter in Hx.
    destruct (_ <=? _) eqn:Er; bool_to_prop.
    + split; [|done]. intros _. split; [exists x; tauto|]. intros c Hc Hf.
      etrans; [|exact Er]. apply Hall. by rewrite list_elem_of_filter.
    + split; [done|]. intros [_ Hle]. specialize (Hle x (proj2 Hx) (proj1 Hx)). lia.
  - apply max_by_key_None in E. split; [done|]. intros [(c & Hc & Hf) _].
    assert (Hin : c ∈ filter (fun e => e <> EffF) (cd_effect_set call)) by (by rewrite list_elem_of_filter).
    rewrite E in Hin. by apply not_elem_of_nil in Hin.
Qed.

Lemma stage_three_passes p call :
  stage_three p call = Ok tt <-> op_policy p = PkPreAuthorized /\ cd_within_bounds call = Some true.
Proof.
  unfold stage_three. destruct (op_policy p); [naive_solver..|].
  destruct (cd_within_bounds call) as [[]|]; [done|..]; destruct (out_of_bounds p); naive_solver.
Qed.

Lemma stage_three_stage p call d :
  stage_three p call = Err d -> exists code reason, d = Refuse code OperationPolicyStage reason.
Proof.
  unfold stage_three. destruct (op_policy p); [intros [= <-]; eauto..|].
  destruct (cd_within_bounds call) as [[]|]; [done|..]; destruct (out_of_bounds p);
    intros [= <-]; eauto.
Qed.

Lemma stage_four_stage call m d :
  stage_four call m = Err d -> exists code reason, d = Refuse code ClassCeiling reason.
Proof.
  unfold stage_four. destruct (highest_class call); [destruct (_ <=? _); [done|]|];
    intros [= <-]; eauto.
Qed.

Lemma contains_forbidden_false call :
  contains_forbidden call = false <-> cd_globally_forbidden call = false /\ (EffF ∉ cd_effect_set call).
Proof. unfold contains_forbidden. by rewrite orb_false_iff, bool_decide_eq_false. Qed.

(** ** The ladder *)

Section Ladder.
Context {S E : Type} `{!CallAdmission S E}.

Definition passes_first_four (call : CallDescriptor) (m : AgentManifest) (host : SafetyVector) :=
  forall s, ordinal s < 5 -> stage_passes call m host s.

Lemma passes_all_four call m host :
  passes_first_four call m host <->
  stage_passes call m host ForbiddenClass /\ stage_passes call m host SafetyMinimum /\
  stage_passes call m host OperationPolicyStage /\ stage_passes call m host ClassCeiling.
Proof.
  split.
  - intros Hp. split_and!; apply Hp; cbn; lia.
  - intros (H1 & H2 & H3 & H4) []; cbn [ordinal]; try done; lia.
Qed.

(** Either all four stages pass and the budget is asked, or the first that
    does not is named. *)
Lemma evaluate_cases call m host :
  (passes_first_four call m host /\ evaluate (S:=S) (E:=E) call m host = stage_five m) \/
  exists code stage reason,
    stage <> Quota /\ stopped_at call m host stage /\
    evaluate (S:=S) (E:=E) call m host = mret (Refuse code stage reason).
Proof.
  rewrite passes_all_four. unfold evaluate.
  destruct (contains_forbidden call) eqn:Ef.
  { right. exists Denied, ForbiddenClass, "forbidden_class". split_and!; [done| |done]. split.
    - intros s Hs. destruct s; cbn in Hs; lia.
    - intros Hp%contains_forbidden_false. congruence. }
  apply contains_forbidden_false in Ef.
  destruct (failing_safety _ _ _) as [reason|] eqn:Es.
  { right. exists Denied, SafetyMinimum, reason. split_and!; [done| |done]. split.
    - intros s Hs. destruct s; cbn in Hs; try lia. exact Ef.
    - intros Hp. apply (proj2 (failing_safety_None _ _ _)) in Hp. congruence. }
  pose proof (proj1 (failing_safety_None _ _ _) Es) as Hsafe. cbn [stage_passes].
  destruct (operation_policy m (cd_op call)) as [p|] eqn:Ep.
  - destruct (stage_three p call) as [[]|d] eqn:E3.
    + left. apply stage_three_passes in E3. split; [|done].
      split; [exact Ef|]. split; [exact Hsafe|]. by split; [intros ? [= <-]|].
    + right. destruct (stage_three_stage _ _ _ E3) as (code & reason & ->).
      exists code, OperationPolicyStage, reason. split_and!; [done| |done]. split.
      * intros s Hs. destruct s; cbn in Hs; try lia; [exact Ef|exact Hsafe].
      * intros Hp. specialize (Hp p Ep). apply stage_three_passes in Hp. congruence.
  - destruct (stage_four call m) as [[]|d] eqn:E4.
    + left. apply stage_four_passes in E4. split; [|done].
      split; [exact Ef|]. split; [exact Hsafe|]. by split.
    + right. destruct (stage_four_stage _ _ _ E4) as (code & reason & ->).
      exists code, ClassCeiling, reason. split_and!; [done| |done]. split.
      * intros s Hs. destruct s; cbn in Hs; try lia; [exact Ef|exact Hsafe|].
        intros p Hp. cbn in Hp. congruence.
      * intros Hp. specialize (Hp Ep). apply stage_four_passes in Hp. congruence.
Qed.

(** C7: the ladder decides exactly as its stages say.  A call is allowed
    exactly when it is not forbidden, everything it changes is covered, its
    operation's policy pre-authorizes these arguments or, without a policy,
    its highest class is within the ceiling, and the budget admits it.  A
    refusal names the first stage that does not pass; before the budget's
    stage nothing has been counted. *)
Theorem ladder_exact call m host s d s' :
  evaluate (S:=S) (E:=E) call m host s = (Ret d, s') ->
  match decision_stage d with
  | None =>
      passes_first_four call m host /\ try_admit (calls_per_day m) s = (Ret true, s')
  | Some Quota =>
      passes_first_four call m host /\ try_admit (calls_per_day m) s = (Ret false, s')
  | Some stage => stopped_at call m host stage /\ s' = s
  end.
Proof.
  destruct (evaluate_cases call m host) as [[Hp ->]|(code & stage & reason & Hq & Hstop & ->)].
  - unfold stage_five, mbind, M_bind. destruct (try_admit _ s) as [[[]|?|] s1] eqn:Ha;
      cbn; intros [= <- <-]; by cbn.
  - cbn. intros [= <- <-]. by destruct stage.
Qed.

(** The same, read the other way: when all four pass, the budget's answer is
    the decision. *)
Lemma evaluate_allows call m host s s' :
  passes_first_four call m host -> try_admit (calls_per_day m) s = (Ret true, s') ->
  evaluate (S:=S) (E:=E) call m host s = (Ret Allow, s').
Proof.
  intros Hp Ha. destruct (evaluate_cases call m host) as [[_ ->]|(? & stage & ? & Hq & [_ Hn] & _)].
  - unfold stage_five, mbind, M_bind. by rewrite Ha.
  - destruct Hn. apply Hp. destruct stage; cbn; try done; lia.
Qed.

(** A host that covers every resource at least as well. *)
Definition covers_more (host host' : SafetyVector) : Prop :=
  forall resource, coverage resource host <= coverage resource host'.

Definition asks_less (min min' : MinSafety) : Prop :=
  forall resource, asked resource min' <= asked resource min.

(** Better coverage never turns an allowed call into a refused one, and
    the class ceiling has no say where the manifest has a policy for the
    operation: with everything else the same, raising or lowering it changes
    nothing. *)
Theorem ladder_monotone call m m' host host' s s' :
  evaluate (S:=S) (E:=E) call m host s = (Ret Allow, s') ->
  covers_more host host' -> asks_less (min_safety m) (min_safety m') ->
  operation_policy m' (cd_op call) = operation_policy m (cd_op call) ->
  calls_per_day m' = calls_per_day m ->
  operation_policy m (cd_op call) <> None \/ max_unapproved_class m' = max_unapproved_class m ->
  evaluate (S:=S) (E:=E) call m' host' s = (Ret Allow, s').
Proof.
  intros Hev Hcov Hask Hpol Hday Hceil. apply ladder_exact in Hev as [Hp Hadm]. cbn in Hadm.
  apply evaluate_allows; [|by rewrite Hday].
  apply passes_all_four in Hp as (H1 & H2 & H3 & H4). apply passes_all_four.
  split_and!; [exact H1| | |]; cbn [stage_passes] in *.
  - intros resource class Hin Hc. destruct (H2 resource class Hin Hc) as [Hpos Hle].
    specialize (Hcov resource). specialize (Hask resource). split; lia.
  - intros p Hp. rewrite Hpol in Hp. by apply H3.
  - intros Hn. rewrite Hpol in Hn. destruct Hceil as [Hx| ->]; [done|auto].
Qed.
End Ladder.
End Stages.

(** ** Manifests *)

Section Load.
Context `{JsonNumber, !JsonFloat, !Sha256Hash, !ManifestCodec, !IoEnv} {C : Type}.

Lemma semantic_checks_Ok c :
  semantic_checks c = Ok tt <->
  (forall op p, ca_operations c !! op = Some p -> op_policy p = PkPreAuthorized -> op_bounds p <> None) /\
  rk_max_unapproved_class (ca_risk c) <> Some EffF.
Proof.
  unfold semantic_checks.
  destruct (existsb _ _) eqn:Ex; cbn [fail_if]; run_ok.
  - split; [done|]. intros [Hb _]. apply existsb_exists in Ex as (p & Hin & Hp).
    apply in_map_iff in Hin as ([op p'] & Heq & Hin). cbn in Heq. subst p'.
    apply list_elem_of_In, elem_of_map_to_list in Hin. bool_to_prop.
    match goal with Hx : is_pre_authorized p = true |- _ => apply bool_decide_eq_true in Hx as Hk end.
    specialize (Hb op p Hin Hk). unfold has_bounds in *. by destruct (op_bounds p).
  - rewrite <-not_true_iff_false, existsb_exists in Ex.
    destruct (bool_decide _) eqn:Eb; bool_to_prop; cbn [fail_if]; split; try done.
    + by intros [_ ?].
    + intros _. split; [|done]. intros op p Hop Hk Hb. apply Ex. exists p. split.
      * apply in_map_iff. exists (op, p). split; [done|].
        by apply list_elem_of_In, elem_of_map_to_list.
      * unfold is_pre_authorized, has_bounds. rewrite Hb. by rewrite bool_decide_true.
Qed.

(** What a loaded manifest is.  It comes from a file directly in the
    manifest directory, whatever the reference in the token store says; it is
    an agent's, and its digest is that of the whole document; every
    pre-authorization in it has bounds and its ceiling is not F.  Loading it
    changes no file. *)
Theorem loaded_manifest_sound store manifest_ref (w w' : World C) m :
  manifest_load store manifest_ref w = (Ret m, w') ->
  w_fs w' = w_fs w /\
  manifest_ref <> "" /\ str_contains manifest_ref SLASH = false /\
  contains_dots manifest_ref = false /\
  (exists raw v,
     fs_files (w_fs w) !! path_join (mst_dir store) [manifest_ref] = Some raw /\
     yaml_to_json raw = Ok v /\ value_get "kind" v = Some (VString "agent") /\
     manifest_digest v = Ok (mf_digest m)) /\
  (forall op p, operation_policy m op = Some p -> op_policy p = PkPreAuthorized -> op_bounds p <> None) /\
  max_unapproved_class m <> Some EffF.
Proof.
  assert (Hwp : wp (manifest_load (C:=C) store manifest_ref)
    (fun o w' => forall m, o = Ret m ->
      w_fs w' = w_fs w /\ unsafe_reference manifest_ref = false /\
      exists raw, fs_files (w_fs w) !! path_join (mst_dir store) [manifest_ref] = Some raw /\
                  manifest_of_text raw = Ok m) w).
  { unfold manifest_load. wp_simpl. destruct (unsafe_reference manifest_ref); [done|].
    unfold load_agent_manifest. wp_simpl. apply wp_io_call; [|done]. intros bs fs Hr. cbn in Hr.
    destruct (fs_files (w_fs w) !! _) as [raw|] eqn:Ef; cbn in Hr; [|done].
    destruct (utf8_ok raw); [|done]. injection Hr as <- <-. wp_simpl.
    destruct (manifest_of_text raw) as [m'|] eqn:Em; [|done]. intros m'' [= <-].
    split_and!; [done|done|]. by exists raw. }
  intros Hrun. pose proof (wp_run _ _ _ _ _ Hwp Hrun) as Hpost. cbn in Hpost.
  destruct (Hpost m eq_refl) as (Hfs & Hsafe & raw & Hraw & Htext).
  unfold unsafe_reference in Hsafe. bool_to_prop. unfold manifest_of_text in Htext.
  destruct (yaml_to_json raw) as [v|] eqn:Ev; cbn [map_err] in Htext; [|done]. rewrite bind_Ok in Htext.
  destruct (manifest_kind v) as [kind|] eqn:Ek; cbn [map_err] in Htext; [|done]. rewrite bind_Ok in Htext.
  inv_ok.
  match goal with Hx : bool_decide (kind <> _) = false |- _ => apply bool_decide_eq_false, dec_stable in Hx; subst kind end.
  match goal with Hx : semantic_checks _ = Ok _ |- _ => apply semantic_checks_Ok in Hx as [Hb Hc] end.
  split_and!; try done. exists raw, v. split_and!; try done.
  unfold manifest_kind in Ek. destruct (value_get "kind" v) as [k|]; cbn in Ek; [|done].
  destruct k; cbn in Ek; try done. case_decide as Hs; [by subst|]. repeat (case_decide; [done|]). done.
Qed.
End Load.

(** ** Concrete manifests, hosts and budgets *)

(** A budget that counts the calls it admits. *)
Definition counted : CallAdmission Z string := fun limit n =>
  match limit with
  | Some L => if L <=? n then (Ret false, n) else (Ret true, n + 1)
  | None => (Ret true, n + 1)
  end.

Definition generous_host : SafetyVector :=
  mkSafety HsGeneration HsGeneration HsNone HsNone SsDesiredState DsDedicatedSnapshot
    DsDedicatedSnapshot DsDedicatedSnapshot EsNone RrRemoteReboot.
Definition bare_host : SafetyVector :=
  mkSafety HsNone HsNone HsNone HsNone SsNone DsNone DsNone DsNone EsNone RrOobConsole.

Definition manifest_with (ops : gmap string (@OperationPolicy int_number))
    (ceiling : option EffectClass) (limit : option Z) : @AgentManifest int_number :=
  mkManifest "fixture" (from_sha256_bytes (repeat Byte.x00 32))
    (mkCapabilities ops (mkQuotas None limit) (mkRisk ceiling no_minimums)).

Definition change_root (op : string) : CallDescriptor :=
  {| cd_op := op; cd_effect_set := [EffR; EffD]; cd_footprint := [(RootConfig, EffD)];
     cd_globally_forbidden := false; cd_within_bounds := None |}.

(** The first call within the budget is allowed, the second is not. *)
Lemma ladder_exact_witness :
  let m := manifest_with ∅ (Some EffD) (Some 1) in
  (passes_first_four (change_root "tx.test") m generous_host /\
   @try_admit Z string counted (calls_per_day m) 0 = (Ret true, 1)) /\
  (passes_first_four (change_root "tx.test") m generous_host /\
   @try_admit Z string counted (calls_per_day m) 1 = (Ret false, 1)).
Proof.
  split.
  - apply (@ladder_exact int_number Z string counted (change_root "tx.test")
             (manifest_with ∅ (Some EffD) (Some 1)) generous_host 0 Allow 1).
    reflexivity.
  - apply (@ladder_exact int_number Z string counted (change_root "tx.test")
             (manifest_with ∅ (Some EffD) (Some 1)) generous_host 1
             (Refuse QuotaExhausted Quota "call_quota_exhausted") 1).
    reflexivity.
Defined.

Lemma ladder_monotone_witness :
  @evaluate int_number Z string counted (change_root "tx.test")
    (manifest_with ∅ (Some EffD) (Some 1)) generous_host 0 = (Ret Allow, 1).
Proof.
  refine (@ladder_monotone int_number Z string counted (change_root "tx.test")
            (manifest_with ∅ (Some EffD) (Some 1)) (manifest_with ∅ (Some EffD) (Some 1))
            {| sv_root_config := HsSnapshotReboot; sv_packages := HsNone; sv_bootloader := HsNone;
               sv_kernel := HsNone; sv_service_state := SsNone; sv_plugin_data := DsNone;
               sv_desktop_data := DsNone; sv_home_data := DsNone; sv_external_effects := EsNone;
               sv_recovery_requires := RrNone |} generous_host 0 1 _ _ _ _ _ _).
  - reflexivity.
  - intros []; cbn; lia.
  - intros []; cbn; lia.
  - reflexivity.
  - reflexivity.
  - right. reflexivity.
Defined.

(** The ladder looks at the footprint, not at the effect set, for what has to
    be covered: a change whose footprint is not declared passes on a host
    that covers nothing. *)
Lemma undeclared_footprint_allowed :
  @evaluate int_number Z string counted
    {| cd_op := "tx.test"; cd_effect_set := [EffD]; cd_footprint := [];
       cd_globally_forbidden := false; cd_within_bounds := None |}
    (manifest_with ∅ (Some EffD) None) bare_host 0 = (Ret Allow, 1).
Proof. reflexivity. Qed.

(** An effect set that could not be computed is refused by the fourth stage
    only: a pre-authorization skips it. *)
Lemma empty_effect_set_allowed :
  @evaluate int_number Z string counted
    {| cd_op := "tx.test"; cd_effect_set := []; cd_footprint := [];
       cd_globally_forbidden := false; cd_within_bounds := Some true |}
    (manifest_with {["tx.test" := mkPolicy PkPreAuthorized (Some VNull) None]} None None)
    bare_host 0 = (Ret Allow, 1).
Proof. reflexivity. Qed.

(** A manifest file of one word. *)
Definition demo_manifest_value : @Value int_number :=
  VObject [("kind", VString "agent"); ("name", VString "fixture")].
Definition demo_manifest_codec : @ManifestCodec int_number :=
  {| yaml_to_json := fun _ => Ok demo_manifest_value; validate := fun _ _ => true;
     capabilities_from_value := fun _ => None |}.
Definition demo_no_floats : @JsonFloat int_number :=
  {| f64 := unit; as_f64 := fun _ => None; f64_is_finite := fun _ => false;
     f64_is_zero := fun _ => false; f64_is_negative := fun _ => false;
     format_lower_exp := fun _ => "" |}.
Definition demo_hash : Sha256Hash := {| sha256 := fun bytes => bytes |}.

Definition demo_manifest_world : World unit :=
  mkWorld (mkFS {[ ["etc"; "a.yaml"] := bytes_of_string "kind: agent" ]} {[ ["etc"] ]}) 0 [].

Definition demo_loaded_manifest : @AgentManifest int_number :=
  mkManifest "fixture"
    (from_sha256_bytes (MANIFEST_DOMAIN ++
       bytes_of_string ("{" +:+ QUOTE +:+ "kind" +:+ QUOTE +:+ ":" +:+ QUOTE +:+ "agent" +:+ QUOTE +:+ "," +:+
                        QUOTE +:+ "name" +:+ QUOTE +:+ ":" +:+ QUOTE +:+ "fixture" +:+ QUOTE +:+ "}")))
    default_capabilities.

Lemma demo_manifest_loads :
  @manifest_load int_number demo_no_floats demo_hash demo_manifest_codec reliable_io unit
    (mkManifestStore ["etc"]) "a.yaml" demo_manifest_world =
  (Ret demo_loaded_manifest, w_set_fs (w_fs demo_manifest_world) demo_manifest_world).
Proof. reflexivity. Qed.

Lemma loaded_manifest_sound_witness : max_unapproved_class demo_loaded_manifest <> Some EffF.
Proof.
  apply (@loaded_manifest_sound int_number demo_no_floats demo_hash demo_manifest_codec reliable_io
           unit (mkManifestStore ["etc"]) "a.yaml" demo_manifest_world _ _ demo_manifest_loads).
Defined.
