(* ===== verification/Dispatch.v ===== *)
(** * Request dispatch: parse, authenticate, authorize, execute

    [broker/src/dispatch.rs], [broker/src/tools/], [broker/src/observability.rs]
    and the report of [broker/src/host.rs] and [adapter.rs].  The dispatcher's
    tables are arguments; its state is the engine with its world, the budgets
    and what was observed.  Locks make every step on the engine and on the
    budgets one step; what a frame does is the sequence of its steps. *)

From S2P Require Import Prelude RustStd Json TxTypes TxStorage TxEngine Wire Jcs Policy Quota.

(** ** tools/ *)

Definition OP_SYSTEM_INFO : string := "system.info".
Definition OP_CONFIG_PROPOSE : string := "config.propose".
Definition OP_TX_TEST : string := "tx.test".
Definition OP_TX_APPLY : string := "tx.apply".
Definition OP_TX_ROLLBACK : string := "tx.rollback".
Definition OP_TX_STATUS : string := "tx.status".
Definition OP_EVENTS_REPLAY : string := "events.replay".

(** Every tool is at version 1 of its own contract. *)
Definition VERSION : Z := 1.

Definition describe_change (op : string) : CallDescriptor :=
  {| cd_op := op; cd_effect_set := [EffD]; cd_footprint := [(RootConfig, EffD)];
     cd_globally_forbidden := false; cd_within_bounds := None |}.

Definition system_info_call : CallDescriptor := read_only OP_SYSTEM_INFO.
Definition config_propose_call : CallDescriptor := describe_change OP_CONFIG_PROPOSE.
Definition tx_test_call : CallDescriptor := describe_change OP_TX_TEST.
Definition tx_apply_call : CallDescriptor := describe_change OP_TX_APPLY.
Definition tx_rollback_call : CallDescriptor := describe_change OP_TX_ROLLBACK.
Definition tx_status_call : CallDescriptor := read_only OP_TX_STATUS.
Definition events_replay_call : CallDescriptor :=
  {| cd_op := OP_EVENTS_REPLAY; cd_effect_set := [EffR]; cd_footprint := [];
     cd_globally_forbidden := false; cd_within_bounds := None |}.

(** ** observability.rs *)

Record PeerCredentials := mkPeer {
  pc_uid : Z;
  pc_gid : Z;
  pc_pid : Z;
}.

Record CallObservation := mkObservation {
  ob_request_id : option string;
  ob_agent_id : option string;
  ob_peer : PeerCredentials;
  ob_op : option string;
  ob_effect_set : list EffectClass;
  ob_manifest_digest : option Digest;
  ob_operation_digest : option Digest;
  ob_allowed : bool;
  ob_stage : option DecisionStage;
  ob_error : option ErrorCode;
  ob_reason : string;
}.

Definition rejected (peer : PeerCredentials) (error : ErrorCode) (reason : string) :
    CallObservation :=
  {| ob_request_id := None; ob_agent_id := None; ob_peer := peer; ob_op := None;
     ob_effect_set := []; ob_manifest_digest := None; ob_operation_digest := None;
     ob_allowed := false; ob_stage := None; ob_error := Some error; ob_reason := reason |}.

(** ** The state *)

Record Dispatcher := mkDispatcher {
  dp_tokens : TokenStore;
  dp_manifests : ManifestStore;
}.

Record BrokerW := mkBroker {
  bk_engine : EngineW;
  bk_quotas : QuotaLedger;
  bk_observations : list CallObservation;
}.

(** A handler answers; it has no error of its own. *)
Inductive Never : Type := .

Definition set_observations (obs : list CallObservation) (s : BrokerW) : BrokerW :=
  mkBroker (bk_engine s) (bk_quotas s) obs.
Definition set_quotas (q : QuotaLedger) (s : BrokerW) : BrokerW :=
  mkBroker (bk_engine s) q (bk_observations s).
Definition set_engine (e : EngineW) (s : BrokerW) : BrokerW :=
  mkBroker e (bk_quotas s) (bk_observations s).

Abbreviation Handler := (M BrokerW Never).

Definition with_engine {E A} : M EngineW E A -> M BrokerW E A := zoom bk_engine set_engine.
Definition with_world {E A} (m : M TxWorld E A) : M BrokerW E A := with_engine (on_disk m).

(** [observer.record]: the observations, oldest first. *)
Definition record (obs : CallObservation) : Handler unit :=
  modify (fun s => set_observations (bk_observations s ++ [obs]) s).

(** The clock and the host, when they are asked. *)
Class Clock := { clock : nat -> SystemTime }.
Class HostReport := {
  hr_host_info : nat -> HostInfo;
  hr_info : nat -> AdapterInfo;
  hr_safety_vector : nat -> SafetyVector;
  hr_safety_source : nat -> SafetySource;
  hr_landlock_abi_version : nat -> option Z;
}.

Definition ask {A} (f : nat -> A) : Handler A :=
  with_world (fun w => (Ret (f (w_tick w)), mkWorld (w_fs w) (S (w_tick w)) (w_calls w))).

(** [host.rs]: [landlock_info] *)
Definition landlock_info (version : option Z) : LandlockInfo :=
  match version with
  | Some version => if 0 <? version then mkLandlock true (Some version) else mkLandlock false None
  | None => mkLandlock false None
  end.

Section Dispatch.
Context `{JsonNumberFrom, !JsonFloat, !JsonDocument, !Sha256Hash, !WireSerde, !ManifestCodec,
          !BrokerCodec, !IoEnv, !HostAdapter, !HostReport, !Clock}.

(** The budget of one agent, for the duration of a call. *)
Definition agent_admission (agent_id : string) : CallAdmission BrokerW Never := fun limit =>
  now ← ask clock;
  quotas ← gets bk_quotas;
  let '(admitted, quotas) := quota_try_admit now agent_id limit quotas in
  modify (set_quotas quotas);;
  mret admitted.

Definition decide_call (agent : AgentContext) (call : CallDescriptor) (m : AgentManifest) :
    Handler Decision :=
  host ← ask hr_safety_vector;
  @evaluate _ _ _ (agent_admission (ag_agent_id agent)) call m host.

(** [tools::system_info::execute] *)
Definition system_info_execute : Handler SystemInfo :=
  host ← ask hr_host_info;
  adapter ← ask hr_info;
  safety ← ask hr_safety_vector;
  source ← ask hr_safety_source;
  landlock ← ask hr_landlock_abi_version;
  mret (mkSystemInfo host adapter safety source (landlock_info landlock)).

(** [parse]: [None] when the frame is no request, recorded. *)
Definition parse (body : list byte) (peer : PeerCredentials) : Handler (option Request) :=
  match strict_parse body with
  | Err _ => record (rejected peer InvalidRequest "malformed_json");; mret None
  | Ok value =>
      match request_from_value value with
      | None => record (rejected peer InvalidRequest "envelope_rejected");; mret None
      | Some request =>
          if negb (version_supported request)
          then record (rejected peer InvalidRequest "unsupported_protocol_version");; mret None
          else mret (Some request)
      end
  end.

(** One operation's parameters: its readers and its schema. *)
Record Projection (P : Type) := mkProjection {
  pj_project : Value -> option P;
  pj_to_value : P -> option Value;
  pj_schema : SchemaKind;
}.
Arguments pj_project {P} _ _.
Arguments pj_to_value {P} _ _.
Arguments pj_schema {P} _.

Definition project_and_digest_with {P} (protocol : Z) (operation : string) (version : Z)
    (schema : SchemaKind) (to_value : P -> option Value) (projected : option P) :
    result (ResponseError * string) Digest :=
  typed ← ok_or projected (response_error_new InvalidRequest, "params_rejected");
  value ← ok_or (to_value typed) (response_error_new Internal, "params_not_serializable");
  fail_if (negb (validate schema value))
          (response_error_new InvalidRequest, "params_failed_schema");;
  canonical ← map_err (fun _ => (response_error_new Internal, "operation_not_canonicalizable"))
                (operation_digest_of protocol operation version value);
  Ok (od_digest canonical).

(** [refuse]: before or instead of the ladder. *)
Definition refuse (request : Request) (agent : AgentContext) (peer : PeerCredentials)
    (error : ResponseError) (reason : string) (operation_digest : option Digest)
    (call : CallDescriptor) : Handler Response :=
  record {| ob_request_id := Some (rq_id request); ob_agent_id := Some (ag_agent_id agent);
            ob_peer := peer; ob_op := Some (cd_op call); ob_effect_set := cd_effect_set call;
            ob_manifest_digest := None; ob_operation_digest := operation_digest;
            ob_allowed := false; ob_stage := re_stage error; ob_error := Some (re_code error);
            ob_reason := reason |};;
  mret (response_failed (Some (rq_id request)) (rq_v request) error).

(** The observation of a call the ladder has judged. *)
Definition judged (request : Request) (agent : AgentContext) (peer : PeerCredentials)
    (call : CallDescriptor) (m : AgentManifest) (operation_digest : Digest) (allowed : bool)
    (stage : option DecisionStage) (error : option ErrorCode) (reason : string) :
    CallObservation :=
  {| ob_request_id := Some (rq_id request); ob_agent_id := Some (ag_agent_id agent);
     ob_peer := peer; ob_op := Some (cd_op call); ob_effect_set := cd_effect_set call;
     ob_manifest_digest := Some (mf_digest m); ob_operation_digest := Some operation_digest;
     ob_allowed := allowed; ob_stage := stage; ob_error := error; ob_reason := reason |}.

Definition refused_by_ladder (request : Request) (agent : AgentContext) (peer : PeerCredentials)
    (call : CallDescriptor) (m : AgentManifest) (operation_digest : Digest) (code : ErrorCode)
    (stage : DecisionStage) (reason : string) : Handler Response :=
  record (judged request agent peer call m operation_digest false (Some stage) (Some code) reason);;
  mret (response_failed (Some (rq_id request)) (rq_v request) (at_stage code stage)).

Definition binding_of (agent : AgentContext) (call : CallDescriptor) (m : AgentManifest)
    (operation_digest : Digest) : CallBinding :=
  mkBinding (ag_agent_id agent) (mf_digest m) (cd_effect_set call) operation_digest.

Definition authorized (request : Request) (agent : AgentContext) (peer : PeerCredentials)
    (call : CallDescriptor) (m : AgentManifest) (operation_digest : Digest)
    (r : OperationResult) : Handler Response :=
  record (judged request agent peer call m operation_digest true None None "authorized");;
  mret (response_ok (rq_id request) (rq_v request) r (binding_of agent call m operation_digest)).

Definition engine_failure_of (err : EngineError) : ErrorCode * DecisionStage * string :=
  match err with
  | ENotFound | EBaseRevisionMoved | EIdempotencyConflict | EOwnershipMismatch
  | EProposeRejected _ => (Denied, OperationPolicyStage, "transaction_refused")
  | ESafeMode | EInvalidTransition | EWatchdogAuthorityRequired =>
      (Denied, ForbiddenClass, "transaction_refused")
  | EStorage _ => (Internal, ForbiddenClass, "storage_failure")
  end.

Definition engine_failure (request : Request) (agent : AgentContext) (peer : PeerCredentials)
    (call : CallDescriptor) (m : AgentManifest) (operation_digest : Digest)
    (err : EngineError) : Handler Response :=
  let '(code, stage, reason) := engine_failure_of err in
  record (judged request agent peer call m operation_digest false (Some stage) (Some code) reason);;
  let error := if bool_decide (code = Internal) then response_error_new code
               else at_stage code stage in
  mret (response_failed (Some (rq_id request)) (rq_v request) error).

(** What the handlers do up to the decision: project, digest, load the
    manifest, walk the ladder; then [allowed]. *)
Definition judge {P} (d : Dispatcher) (request : Request) (agent : AgentContext)
    (peer : PeerCredentials) (call : CallDescriptor) (op_version : Z) (pj : Projection P)
    (allowed : AgentManifest -> Digest -> Handler Response) : Handler Response :=
  match project_and_digest_with (rq_v request) (cd_op call) op_version (pj_schema pj)
          (pj_to_value pj) (pj_project pj (rq_params request)) with
  | Err (error, reason) => refuse request agent peer error reason None call
  | Ok operation_digest =>
      loaded ← attempt (with_world (manifest_load (dp_manifests d) (ag_manifest_ref agent)));
      match loaded with
      | Err _ =>
          refuse request agent peer (response_error_new Denied) "manifest_unavailable"
                 (Some operation_digest) call
      | Ok m =>
          decision ← decide_call agent call m;
          match decision with
          | Refuse code stage reason =>
              refused_by_ladder request agent peer call m operation_digest code stage reason
          | Allow => allowed m operation_digest
          end
      end
  end.

Definition execute_v2 {P} (d : Dispatcher) (request : Request) (agent : AgentContext)
    (peer : PeerCredentials) (call : CallDescriptor) (pj : Projection P)
    (execute : Digest -> P -> M EngineW EngineError OperationResult) : Handler Response :=
  match pj_project pj (rq_params request) with
  | None => refuse request agent peer (response_error_new InvalidRequest) "params_rejected" None call
  | Some typed =>
      judge d request agent peer call (rq_op_version request) pj (fun m operation_digest =>
        executed ← attempt (with_engine (execute (mf_digest m) typed));
        match executed with
        | Ok r => authorized request agent peer call m operation_digest r
        | Err err => engine_failure request agent peer call m operation_digest err
        end)
  end.

(** A contract whose execution is not there yet. *)
Definition contract_only {P} (d : Dispatcher) (request : Request) (agent : AgentContext)
    (peer : PeerCredentials) (call : CallDescriptor) (pj : Projection P) : Handler Response :=
  judge d request agent peer call (rq_op_version request) pj (fun m operation_digest =>
    record (judged request agent peer call m operation_digest false None (Some Internal)
              "execution_not_implemented_at_l00");;
    mret (response_failed (Some (rq_id request)) (rq_v request) (response_error_new Internal))).

Definition system_info (d : Dispatcher) (request : Request) (agent : AgentContext)
    (peer : PeerCredentials) : Handler Response :=
  judge d request agent peer system_info_call VERSION
    (mkProjection _ system_info_params system_info_params_to_value SkSystemInfoRequest)
    (fun m operation_digest =>
      info ← system_info_execute;
      authorized request agent peer system_info_call m operation_digest (RSystemInfo info)).

(** The engine's part of the operations that have one. *)
Definition propose_step (agent : AgentContext) (digest : Digest) (params : ConfigProposeParams) :
    M EngineW EngineError OperationResult :=
  outcome ← TxEngine.config_propose (ag_agent_id agent) (digest_fmt digest) params;
  mret (RConfigPropose (mkProposeResult (po_tx_id outcome) (po_diff outcome) (po_test_plan outcome)
                          (po_affected_resources outcome) (po_base_revision outcome))).

Definition test_step (agent : AgentContext) (digest : Digest) (params : TxTestParams) :
    M EngineW EngineError OperationResult :=
  step ← TxEngine.tx_test (ag_agent_id agent) (digest_fmt digest) (tp_tx_id params);
  mret (RTxTest step).

Definition apply_step (agent : AgentContext) (digest : Digest) (params : TxApplyParams) :
    M EngineW EngineError OperationResult :=
  step ← TxEngine.tx_apply (ag_agent_id agent) (digest_fmt digest) params;
  mret (RTxApply step).

Definition status_step (digest : Digest) (params : TxStatusParams) :
    M EngineW EngineError OperationResult :=
  status ← TxEngine.tx_status (sp_tx_id params);
  mret (RTxStatus status).

Definition wire_event (e : StoredEvent) : StoredEventWire :=
  mkStoredWire (ev_seq e) (ev_kind e) (ev_payload e).

Definition replay_step (digest : Digest) (params : EventsReplayParams) :
    M EngineW EngineError OperationResult :=
  replayed ← TxEngine.events_replay (ep_cursor params);
  let '(log_id, events, cursor) := replayed in
  mret (REventsReplay (mkReplayResult log_id (map wire_event events) cursor)).

Definition unsupported_operation_version (request : Request) (agent : AgentContext)
    (peer : PeerCredentials) (op : string) : Handler Response :=
  record {| ob_request_id := Some (rq_id request); ob_agent_id := Some (ag_agent_id agent);
            ob_peer := peer; ob_op := Some op; ob_effect_set := []; ob_manifest_digest := None;
            ob_operation_digest := None; ob_allowed := false; ob_stage := None;
            ob_error := Some UnsupportedOperation; ob_reason := "unsupported_operation_version" |};;
  mret (response_failed (Some (rq_id request)) (rq_v request)
          (response_error_new UnsupportedOperation)).

(** The arm of one operation. *)
Definition run_operation (d : Dispatcher) (request : Request) (agent : AgentContext)
    (peer : PeerCredentials) : Handler Response :=
  match rq_op request with
  | OpSystemInfo => system_info d request agent peer
  | OpConfigPropose =>
      execute_v2 d request agent peer config_propose_call
        (mkProjection _ config_propose_params config_propose_params_to_value SkConfigProposeRequest)
        (propose_step agent)
  | OpTxTest =>
      execute_v2 d request agent peer tx_test_call
        (mkProjection _ tx_test_params tx_test_params_to_value SkTxTestRequest) (test_step agent)
  | OpTxApply =>
      execute_v2 d request agent peer tx_apply_call
        (mkProjection _ tx_apply_params tx_apply_params_to_value SkTxApplyRequest)
        (apply_step agent)
  | OpTxRollback =>
      contract_only d request agent peer tx_rollback_call
        (mkProjection _ tx_rollback_params tx_rollback_params_to_value SkTxRollbackRequest)
  | OpTxStatus =>
      execute_v2 d request agent peer tx_status_call
        (mkProjection _ tx_status_params tx_status_params_to_value SkTxStatusRequest) status_step
  | OpEventsReplay =>
      execute_v2 d request agent peer events_replay_call
        (mkProjection _ events_replay_params events_replay_params_to_value SkEventsReplayRequest)
        replay_step
  end.

(** A request that parsed: is it legal, whose is it, which version. *)
Definition handle_request (d : Dispatcher) (request : Request) (peer : PeerCredentials) :
    Handler Response :=
  if negb (operation_allowed request) then
    record (rejected peer InvalidRequest "operation_not_allowed_for_protocol_version");;
    mret (response_failed (Some (rq_id request)) (rq_v request) (response_error_new InvalidRequest))
  else
    now ← ask clock;
    match resolve now (dp_tokens d) (au_token (rq_auth request)) with
    | Err _ =>
        record {| ob_request_id := Some (rq_id request); ob_agent_id := None; ob_peer := peer;
                  ob_op := Some (op_as_str (rq_op request)); ob_effect_set := [];
                  ob_manifest_digest := None; ob_operation_digest := None; ob_allowed := false;
                  ob_stage := None; ob_error := Some Unauthenticated;
                  ob_reason := "token_not_resolved" |};;
        mret (response_failed (Some (rq_id request)) (rq_v request)
                (response_error_new Unauthenticated))
    | Ok agent =>
        if negb (rq_op_version request =? VERSION)
        then unsupported_operation_version request agent peer (op_as_str (rq_op request))
        else run_operation d request agent peer
    end.

Definition handle_frame (d : Dispatcher) (body : list byte) (peer : PeerCredentials) :
    Handler Response :=
  parsed ← parse body peer;
  match parsed with
  | None => mret (response_failed None PROTOCOL_VERSION_V1 (response_error_new InvalidRequest))
  | Some request => handle_request d request peer
  end.
End Dispatch.
