(* ===== verification/DispatchFacts.v ===== *)
(** * Facts about the dispatcher

    Computations that never panic ([calm]), steps of a handler that answer
    and observe nothing ([quiet]), handlers that answer once ([answers]). *)

From S2P Require Import Prelude RustStd Json TxTypes TxStorage TxEngine Wire Jcs Policy Quota.
From S2P Require Import PolicyTheorems Dispatch.

(** ** Computations that never panic *)

Definition calm {S E A} (m : M S E A) : Prop := forall s, fst (m s) <> Panic.

Create HintDb calm.

Section Calm.
Context {S E F A B : Type}.

Lemma calm_ret (a : A) : calm (S:=S) (E:=E) (mret a).
Proof. done. Qed.
Lemma calm_throw (e : E) : calm (S:=S) (A:=A) (throw e).
Proof. done. Qed.
Lemma calm_gets (f : S -> A) : calm (E:=E) (gets f).
Proof. done. Qed.
Lemma calm_modify (f : S -> S) : calm (E:=E) (modify f).
Proof. done. Qed.
Lemma calm_of_result (r : result E A) : calm (S:=S) (of_result r).
Proof. by intros s; destruct r. Qed.
Lemma calm_throw_if c (e : E) : calm (S:=S) (throw_if c e).
Proof. by intros s; destruct c. Qed.
Lemma calm_bind (m : M S E A) (f : A -> M S E B) : calm m -> (forall a, calm (f a)) -> calm (m ≫= f).
Proof.
  intros Hm Hf s. unfold mbind, M_bind. specialize (Hm s).
  destruct (m s) as [[a|e|] s']; [apply Hf|done|done].
Qed.
Lemma calm_attempt (m : M S E A) : calm m -> calm (attempt (F:=F) m).
Proof. intros Hm s. unfold attempt. specialize (Hm s). by destruct (m s) as [[] ?]. Qed.
Lemma calm_mapping_err (f : E -> F) (m : M S E A) : calm m -> calm (mapping_err f m).
Proof. intros Hm s. unfold mapping_err. specialize (Hm s). by destruct (m s) as [[] ?]. Qed.
Lemma calm_zoom {T} (get : S -> T) put (m : M T E A) : calm m -> calm (zoom get put m).
Proof. intros Hm s. unfold zoom. specialize (Hm (get s)). by destruct (m (get s)). Qed.
End Calm.

Lemma calm_mfor {S E A B} (f : A -> M S E B) l : (forall a, calm (f a)) -> calm (mfor f l).
Proof.
  intros Hf. induction l as [|a l IH]; [apply calm_ret|]. cbn [mfor].
  apply calm_bind; [apply Hf|]. intros b. apply calm_bind; [done|]. intros bs. apply calm_ret.
Qed.

Lemma calm_io_call {C A} `{!IoEnv} (f : FS -> option (A * FS)) : calm (io_call (C:=C) f).
Proof. intros w. unfold io_call. destruct (io_fault _); [|done|done]. by destruct (f _) as [[]|]. Qed.
Lemma calm_write_all {C} `{!IoEnv} p bs : calm (write_all (C:=C) p bs).
Proof. intros w. unfold write_all. by destruct (io_fault _). Qed.
Lemma calm_path_exists {C E} `{!IoEnv} p : calm (path_exists (C:=C) (E:=E) p).
Proof. intros w. unfold path_exists. by destruct (io_fault _). Qed.

#[export] Hint Resolve calm_ret calm_throw calm_gets calm_modify calm_of_result calm_throw_if
  calm_bind calm_attempt calm_mapping_err calm_zoom calm_mfor calm_io_call calm_write_all
  calm_path_exists : calm.

(** Walk the structure of a computation. *)
Ltac calm :=
  repeat first
    [ progress intros
    | solve [auto with calm nocore]
    | apply calm_bind | apply calm_attempt | apply calm_mapping_err | apply calm_zoom
    | apply calm_mfor
    | match goal with
      | |- calm (match ?x with _ => _ end) => destruct x
      | |- calm (let '(_, _) := ?x in _) => destruct x
      end ].

Section EngineCalm.
Context `{JsonNumber, !BrokerCodec, !IoEnv, !HostAdapter}.

Lemma calm_append_transition s r : calm (append_transition s r).
Proof.
  unfold append_transition, write_checkpoint, write_all_and_sync, atomic_rename, sync_parent, sync_file,
    io_, fs_write, fs_rename, open_truncate, open_existing, sync_all, open_dir. calm.
Qed.

Lemma calm_revert s n : calm (revert_last_transition s n).
Proof.
  unfold revert_last_transition, write_checkpoint, write_all_and_sync, atomic_rename, sync_parent,
    sync_file, io_, fs_write, fs_rename, open_truncate, open_existing, sync_all, open_dir, remove_file. calm.
Qed.

Lemma calm_idem_insert s r : calm (idem_insert s r).
Proof.
  unfold idem_insert, write_all_and_sync, atomic_rename, sync_parent, sync_file, io_, fs_write,
    fs_rename, open_truncate, open_existing, sync_all, open_dir. calm.
Qed.

Lemma calm_idem_remove s k : calm (idem_remove s k).
Proof. unfold idem_remove, io_, remove_file. calm. Qed.

Lemma calm_events_append l r : calm (events_append l r).
Proof.
  unfold events_append, events_write, persist_meta, ev_io, write_all_and_sync, atomic_rename,
    sync_parent, sync_file, io_, fs_write, fs_rename, open_truncate, open_existing, open_append,
    sync_all, open_dir. calm.
Qed.

Lemma calm_load_records s : calm (load_records s).
Proof. unfold load_records, read_record, io_, read_dir, fs_read_to_string. calm. Qed.

Lemma calm_replay l c : calm (replay l c).
Proof. unfold replay, read_all, ev_io, fs_read_to_string. calm. Qed.

Hint Resolve calm_append_transition calm_revert calm_idem_insert calm_idem_remove
  calm_events_append calm_load_records calm_replay : calm.

Lemma calm_persist tx st k fp ag md base eff diff res json :
  calm (persist_transition tx st k fp ag md base eff diff res json).
Proof. unfold persist_transition, on_wal, get_engine, modify_engine, on_disk. calm. Qed.

Lemma calm_engine_safe_mode : calm enter_safe_mode.
Proof.
  unfold enter_safe_mode, get_engine, modify_engine, on_disk, fs_write, open_truncate. calm.
Qed.
Hint Resolve calm_persist calm_engine_safe_mode : calm.

Lemma calm_rollback tx n : calm (rollback_transition tx n).
Proof. unfold rollback_transition, on_wal, get_engine, modify_engine, on_disk. calm. Qed.

Lemma calm_announce tx st : calm (append_state_event tx st).
Proof. unfold append_state_event, get_engine, modify_engine, on_disk. calm. Qed.

Lemma calm_record_idempotency r : calm (record_idempotency r).
Proof. unfold record_idempotency, get_engine, modify_engine, on_disk. calm. Qed.

Lemma calm_forget k : calm (forget_idempotency k).
Proof. unfold forget_idempotency, get_engine, modify_engine, on_disk. calm. Qed.

Lemma calm_lookup k fp op sts : calm (lookup_idempotency_from_wal k fp op sts).
Proof. unfold lookup_idempotency_from_wal, get_engine, on_disk. calm. Qed.

Lemma calm_observe : calm observe_base.
Proof. unfold observe_base, on_disk. apply calm_zoom. done. Qed.
Lemma calm_call_propose changes : calm (call_propose changes).
Proof. unfold call_propose, on_disk. apply calm_zoom. done. Qed.
Lemma calm_new_tx_id : calm new_tx_id.
Proof. unfold new_tx_id, on_disk. apply calm_zoom. done. Qed.
Lemma calm_snapshot tx : calm (snapshot tx).
Proof. unfold snapshot, get_engine. calm. Qed.
Lemma calm_ensure_dm : calm ensure_dm_allowed.
Proof. unfold ensure_dm_allowed, get_engine. calm. Qed.
Hint Resolve calm_rollback calm_announce calm_record_idempotency calm_forget calm_lookup
  calm_observe calm_call_propose calm_new_tx_id calm_snapshot calm_ensure_dm : calm.

Lemma calm_transition ag md tx t k fp idem : calm (transition ag md tx t k fp idem).
Proof. unfold transition. calm. Qed.
Hint Resolve calm_transition : calm.

Lemma calm_config_propose ag md p : calm (TxEngine.config_propose ag md p).
Proof. unfold TxEngine.config_propose, check_binding, get_engine. calm. Qed.
Lemma calm_tx_test ag md tx : calm (TxEngine.tx_test ag md tx).
Proof. unfold TxEngine.tx_test. calm. Qed.
Lemma calm_tx_apply ag md p : calm (TxEngine.tx_apply ag md p).
Proof.
  unfold TxEngine.tx_apply, check_binding, get_engine, refuse_moved_base_apply, on_wal,
    modify_engine, on_disk, get_engine. calm.
Qed.
Lemma calm_tx_status tx : calm (TxEngine.tx_status tx).
Proof. unfold TxEngine.tx_status, get_engine. calm. Qed.
Lemma calm_events_replay c : calm (TxEngine.events_replay c).
Proof. unfold TxEngine.events_replay, get_engine, on_disk. calm. Qed.
End EngineCalm.

#[export] Hint Resolve calm_config_propose calm_tx_test calm_tx_apply calm_tx_status
  calm_events_replay : calm.

(** ** What a handler leaves alone *)

(** The engine, the files and the calls on the host adapter. *)
Definition same_engine (s s' : BrokerW) : Prop :=
  ew_engine (bk_engine s') = ew_engine (bk_engine s) /\
  w_fs (ew_world (bk_engine s')) = w_fs (ew_world (bk_engine s)) /\
  w_calls (ew_world (bk_engine s')) = w_calls (ew_world (bk_engine s)).

#[export] Instance same_engine_preorder : PreOrder same_engine.
Proof.
  split; [by intros s|]. intros s1 s2 s3 (H1 & H2 & H3) (H4 & H5 & H6).
  repeat split; congruence.
Qed.

Definition ticked (s : BrokerW) : BrokerW :=
  let w := ew_world (bk_engine s) in
  set_engine (mkEngineW (ew_engine (bk_engine s)) (mkWorld (w_fs w) (S (w_tick w)) (w_calls w))) s.

Lemma same_engine_ticked s : same_engine s (ticked s).
Proof. done. Qed.

Section Handlers.
Context `{JsonNumberFrom, !JsonFloat, !JsonDocument, !Sha256Hash, !WireSerde, !ManifestCodec,
          !BrokerCodec, !IoEnv, !HostAdapter, !HostReport, !Clock}.

Implicit Types (s : BrokerW) (request : Request) (agent : AgentContext) (m : AgentManifest).

Lemma wp_ask {A} (f : nat -> A) (Q : outcome Never A -> BrokerW -> Prop) s :
  wp (ask f) Q s <-> Q (Ret (f (w_tick (ew_world (bk_engine s))))) (ticked s).
Proof. done. Qed.

Lemma wp_record obs (Q : outcome Never unit -> BrokerW -> Prop) s :
  wp (record obs) Q s <-> Q (Ret tt) (set_observations (bk_observations s ++ [obs]) s).
Proof. done. Qed.

(** Loading a manifest reads, whatever comes of it. *)
Lemma manifest_load_reads (store : ManifestStore) ref (w : TxWorld) :
  w_fs (snd (manifest_load store ref w)) = w_fs w /\
  w_calls (snd (manifest_load store ref w)) = w_calls w /\
  fst (manifest_load store ref w) <> Panic.
Proof.
  change (wp (manifest_load (C:=TxCall) store ref)
    (fun o w' => w_fs w' = w_fs w /\ w_calls w' = w_calls w /\ o <> Panic) w).
  unfold manifest_load. wp_simpl. destruct (unsafe_reference ref); [done|].
  unfold load_agent_manifest. wp_simpl. apply wp_io_call; [|done]. intros bs fs Hr. cbn in Hr.
  destruct (fs_files (w_fs w) !! _) as [raw|]; cbn in Hr; [|done].
  destruct (utf8_ok raw); [|done]. injection Hr as <- <-. wp_simpl.
  by destruct (manifest_of_text raw).
Qed.

Lemma wp_load store ref (Q : outcome Never (result ManifestError AgentManifest) -> BrokerW -> Prop) s :
  (forall r s1, same_engine s s1 -> bk_quotas s1 = bk_quotas s ->
    bk_observations s1 = bk_observations s ->
    (forall m, r = Ok m -> exists w', manifest_load store ref (ew_world (bk_engine s)) = (Ret m, w')) ->
    Q (Ret r) s1) ->
  wp (attempt (with_world (manifest_load store ref))) Q s.
Proof.
  intros HQ. rewrite wp_attempt. unfold with_world, with_engine, on_disk. rewrite !wp_zoom.
  unfold wp. destruct (manifest_load_reads store ref (ew_world (bk_engine s))) as (Hfs & Hcalls & Hp).
  destruct (manifest_load store ref (ew_world (bk_engine s))) as [o w'] eqn:Hl. cbn in *.
  destruct o as [m|e|]; [| |done]; apply HQ; try done.
  - intros m' [= <-]. by exists w'.
Qed.

(** What the ladder's answer says. *)
Definition decision_facts (agent_id : string) (call : CallDescriptor) (m : AgentManifest)
    (s : BrokerW) (d : Decision) (s1 : BrokerW) : Prop :=
  match decision_stage d with
  | None =>
      (exists n, passes_first_four call m (hr_safety_vector n)) /\
      exists now, quota_try_admit now agent_id (calls_per_day m) (bk_quotas s) = (true, bk_quotas s1)
  | Some Quota => True
  | Some _ => bk_quotas s1 = bk_quotas s
  end.

Lemma wp_decide agent call m (Q : outcome Never Decision -> BrokerW -> Prop) s :
  (forall d s1, same_engine s s1 -> bk_observations s1 = bk_observations s ->
    decision_facts (ag_agent_id agent) call m s d s1 -> Q (Ret d) s1) ->
  wp (decide_call agent call m) Q s.
Proof.
  intros HQ. unfold decide_call. rewrite wp_bind, wp_ask.
  set (n := w_tick (ew_world (bk_engine s))).
  set (adm := agent_admission (ag_agent_id agent)).
  destruct (@evaluate_cases _ BrokerW Never adm call m (hr_safety_vector n))
    as [[Hp ->]|(code & stage & reason & Hq & Hstop & ->)].
  - unfold stage_five. rewrite wp_bind. unfold try_admit, adm, agent_admission.
    rewrite wp_bind, wp_ask, wp_bind, wp_gets.
    destruct (quota_try_admit _ _ _ _) as [admitted q] eqn:Hadm.
    rewrite wp_bind, wp_modify, wp_ret, wp_ret. apply HQ; [done|done|].
    destruct admitted; cbn; [|done]. split; [by exists n|]. by eexists.
  - rewrite wp_ret. apply HQ; [done|done|]. unfold decision_facts. cbn. by destruct stage.
Qed.

(** ** Refusals *)

(** A refusal: one answer, one observation that agrees with it, and nothing
    else but, at the budget's stage, a window that may have rolled over. *)
Definition refused_post (id : option string) (v : Z) (s : BrokerW) (o : outcome Never Response)
    (s' : BrokerW) : Prop :=
  exists e obs,
    o = Ret (response_failed id v e) /\ bk_observations s' = bk_observations s ++ [obs] /\
    ob_allowed obs = false /\ ob_error obs = Some (re_code e) /\ same_engine s s' /\
    (re_stage e <> Some Quota -> bk_quotas s' = bk_quotas s).

Lemma refused_post_record id v e obs s s1 :
  same_engine s s1 -> bk_observations s1 = bk_observations s ->
  (re_stage e <> Some Quota -> bk_quotas s1 = bk_quotas s) ->
  ob_allowed obs = false -> ob_error obs = Some (re_code e) ->
  wp (record obs;; mret (response_failed id v e)) (refused_post id v s) s1.
Proof.
  intros Hs Ho Hq Ha He. rewrite wp_bind, wp_record, wp_ret. exists e, obs.
  split_and!; try done. cbn. by rewrite Ho.
Qed.

Lemma refused_post_from id v s s1 o s' :
  same_engine s s1 -> bk_observations s1 = bk_observations s -> bk_quotas s1 = bk_quotas s ->
  refused_post id v s1 o s' -> refused_post id v s o s'.
Proof.
  intros Hs Ho Hq (e & obs & -> & Hobs & Ha & He & Hs' & Hq'). exists e, obs.
  split_and!; try done; [by rewrite Hobs, Ho|by etrans|]. intros Hn. by rewrite Hq', Hq.
Qed.

(** ** The common part of the handlers *)

Definition loaded_from (d : Dispatcher) (agent : AgentContext) (s : BrokerW) (m : AgentManifest) : Prop :=
  exists w w', w_fs w = w_fs (ew_world (bk_engine s)) /\
               manifest_load (C:=TxCall) (dp_manifests d) (ag_manifest_ref agent) w = (Ret m, w').

Lemma wp_judge {P} d request agent peer call version (pj : Projection P) allowed
    (Q : outcome Never Response -> BrokerW -> Prop) s :
  (forall o s', refused_post (Some (rq_id request)) (rq_v request) s o s' -> Q o s') ->
  (forall m digest n now s1,
    project_and_digest_with (rq_v request) (cd_op call) version (pj_schema _ pj) (pj_to_value _ pj)
      (pj_project _ pj (rq_params request)) = Ok digest ->
    loaded_from d agent s m -> passes_first_four call m (hr_safety_vector n) ->
    quota_try_admit now (ag_agent_id agent) (calls_per_day m) (bk_quotas s) = (true, bk_quotas s1) ->
    same_engine s s1 -> bk_observations s1 = bk_observations s ->
    wp (allowed m digest) Q s1) ->
  wp (judge d request agent peer call version pj allowed) Q s.
Proof.
  intros Href Hallow. unfold judge.
  destruct (project_and_digest_with _ _ _ _ _ _) as [digest|[error reason]] eqn:Hd; cycle 1.
  { eapply wp_mono; [|exact Href]. by apply refused_post_record. }
  rewrite wp_bind. apply wp_load. intros [m|e] s1 Hs1 Hq1 Ho1 Hm; cycle 1.
  { eapply wp_mono; [|exact Href]. by apply refused_post_record. }
  rewrite wp_bind. apply wp_decide. intros dec s2 Hs2 Ho2 Hf.
  assert (Hs : same_engine s s2) by (by etrans).
  destruct dec as [|code stage reason].
  - destruct Hf as [[n Hp] [now Hadm]]. rewrite Hq1 in Hadm.
    apply (Hallow m digest n now s2); [done| |done|done|done|by rewrite Ho2].
    destruct (Hm m eq_refl) as [w' Hw]. by exists (ew_world (bk_engine s)), w'.
  - eapply wp_mono; [|exact Href]. apply refused_post_record; try done; [by rewrite Ho2|].
    intros Hn. unfold decision_facts in Hf. cbn in Hf, Hn. rewrite <-Hq1. destruct stage; done.
Qed.
End Handlers.
