(* ===== verification/DispatchDemo.v ===== *)
(** * A concrete dispatcher

    The parameters of the request path, instantiated on top of [TxDemo]: a
    reader of requests, one agent with its token and its manifest, a host with
    generations, and frames to send. *)

From S2P Require Import Prelude RustStd Json JcsTheorems QuotaTheorems PolicyTheorems.
From S2P Require Import TxTypes TxStorage TxEngine TxDemo Wire Jcs Policy Quota Dispatch.

(** ** The readers and writers *)

Definition request_fields : list string := ["v"; "id"; "op"; "op_version"; "auth"; "params"].

(** A request's members, read one by one; nothing else may be there. *)
Definition all_ops : list OpName :=
  [OpSystemInfo; OpConfigPropose; OpTxTest; OpTxApply; OpTxRollback; OpTxStatus; OpEventsReplay].

Definition op_named (name : string) : option OpName :=
  head (filter (fun op => op_as_str op = name) all_ops).

Definition demo_request_from_value (v : @Value int_number) : option (@Request int_number) :=
  ms ← value_as_object v;
  _ ← guard (forallb (fun m => bool_decide (m.1 ∈ request_fields)) ms = true);
  version ← (n ← value_get "v" v; value_as_u64 n);
  id ← (i ← value_get "id" v; value_as_str i);
  _ ← guard (is_ok (request_id_new id) = true);
  op ← (o ← value_get "op" v; name ← value_as_str o; op_named name);
  token ← (a ← value_get "auth" v; t ← value_get "token" a; value_as_str t);
  params ← value_get "params" v;
  Some (mkRequest version id op
    (default default_op_version (n ← value_get "op_version" v; value_as_u64 n))
    (mkAuth token) params).

Definition string_member (key : string) (v : @Value int_number) : option string :=
  m ← value_get key v; value_as_str m.

#[export] Instance demo_wire : @WireSerde int_number := {|
  request_from_value := demo_request_from_value;
  system_info_params v := match value_as_object v with Some [] => Some mkSystemInfoParams | _ => None end;
  config_propose_params v :=
    key ← string_member "idempotency_key" v; Some (mkProposeParams key (cp_changes demo_params));
  tx_test_params v := mkTestParams <$> string_member "tx_id" v;
  tx_apply_params v :=
    tx ← string_member "tx_id" v; key ← string_member "idempotency_key" v; Some (mkApplyParams tx key);
  tx_rollback_params v :=
    tx ← string_member "tx_id" v; key ← string_member "idempotency_key" v; Some (mkRollbackParams tx key);
  tx_status_params v := mkStatusParams <$> string_member "tx_id" v;
  events_replay_params v := Some (mkReplayParams (string_member "cursor" v));
  system_info_params_to_value _ := Some (VObject []);
  config_propose_params_to_value p := Some (VObject [("idempotency_key", VString (cp_idempotency_key p))]);
  tx_test_params_to_value p := Some (VObject [("tx_id", VString (tp_tx_id p))]);
  tx_apply_params_to_value p :=
    Some (VObject [("idempotency_key", VString (ap_idempotency_key p)); ("tx_id", VString (ap_tx_id p))]);
  tx_rollback_params_to_value p :=
    Some (VObject [("idempotency_key", VString (rp_idempotency_key p)); ("tx_id", VString (rp_tx_id p))]);
  tx_status_params_to_value p := Some (VObject [("tx_id", VString (sp_tx_id p))]);
  events_replay_params_to_value p :=
    Some (VObject (match ep_cursor p with Some c => [("cursor", VString c)] | None => [] end));
|}.

(** ** The agent *)

(** 32 bytes of anything; a manifest's are [demo_digest]. *)
Definition demo_sha256 : Sha256Hash :=
  {| sha256 := fun bytes =>
       if decide (take (length MANIFEST_DOMAIN) bytes = MANIFEST_DOMAIN) then repeat (byte_of 7) 32
       else take 32 (bytes ++ repeat Byte.x00 32) |}.

Definition demo_agent_tokens : TokenStore :=
  match @from_pairs demo_sha256 [("agent", "agent.yaml", TOKEN_A)] with
  | Ok s => s
  | Err _ => mkTokenStore ∅
  end.

(** The manifest's file says only its kind and name; its capabilities are
    three calls a day, and changes below the class ceiling. *)
Definition demo_capabilities : @Capabilities int_number :=
  mkCapabilities ∅ (mkQuotas None (Some 3)) (mkRisk (Some EffD) no_minimums).
Definition demo_manifests : @ManifestCodec int_number :=
  {| yaml_to_json := fun _ =>
       Ok (VObject [("kind", VString "agent"); ("name", VString "fixture"); ("capabilities", VNull)]);
     validate := fun _ _ => true;
     capabilities_from_value := fun _ => Some demo_capabilities |}.

Definition demo_dispatcher : Dispatcher :=
  {| dp_tokens := demo_agent_tokens; dp_manifests := mkManifestStore ["etc"] |}.

Definition demo_clock : Clock := {| clock := fun _ => 1000 * NSEC |}.
Definition demo_report (safety : SafetyVector) : HostReport :=
  {| hr_host_info := fun _ => mkHostInfo "host" "nixos" "25.05" "6.6" "x86_64";
     hr_info := fun _ => mkAdapterInfo "nix" true 1 (Some 3) None;
     hr_safety_vector := fun _ => safety;
     hr_safety_source := fun _ => AdapterProbe;
     hr_landlock_abi_version := fun _ => Some 4 |}.

(** ** The frames *)

Definition frame_doc (id op token : string) (params : list (string * Doc)) : Doc :=
  DMap [("v", DU64 2); ("id", DStr id); ("op", DStr op); ("auth", DMap [("token", DStr token)]);
        ("params", DMap params)].

Definition demo_docs : list Doc :=
  [frame_doc "r0" "config.propose" TOKEN_A [("idempotency_key", DStr "k1")];
   frame_doc "r1" "tx.test" TOKEN_A [("tx_id", DStr "tx-1")];
   frame_doc "r2" "tx.status" TOKEN_A [("tx_id", DStr "tx-1")];
   frame_doc "r3" "tx.test" TOKEN_B [("tx_id", DStr "tx-1")];
   frame_doc "r4" "system.info" TOKEN_A []].

(** A frame is the number of its document. *)
Definition demo_document : JsonDocument :=
  {| json_document := fun body =>
       match body with [b] => demo_docs !! Z.to_nat (byte_val b) | _ => None end |}.
Definition frame (n : Z) : list byte := [byte_of n].

Definition demo_peer : PeerCredentials := mkPeer 1000 100 42.

Definition demo_broker : BrokerW :=
  mkBroker (demo_open reliable_io
              (mkWorld (mkFS {[ ["etc"; "agent.yaml"] := bytes_of_string "kind: agent" ]}
                             {[ []; ["etc"] ]}) 0 []))
           ledger_default [].

Definition handle (safety : SafetyVector) (body : list byte) : Handler Response :=
  @handle_frame int_number int_number_from no_floats demo_document demo_sha256 demo_wire
    demo_manifests demo_broker_codec reliable_io demo_host (demo_report safety) demo_clock
    demo_dispatcher body demo_peer.

Definition handle_all (safety : SafetyVector) (bodies : list (list byte)) : Handler (list Response) :=
  mfor (handle safety) bodies.

Definition answer_of (r : Response) : option ErrorCode * option DecisionStage :=
  (re_code <$> rs_error r, rs_error r ≫= re_stage).

(** Propose, test, ask about it; then someone else, and then nothing: the
    status was the third and last call of the day. *)
Lemma demo_answers :
  match handle_all generous_host (map frame [0; 1; 2; 3; 4; 9]) demo_broker with
  | (Ret rs, s) =>
      (map answer_of rs, states_of (bk_engine s), map ob_reason (bk_observations s))
  | _ => ([], (None, true, 0), [])
  end =
  ([(None, None); (None, None); (None, None); (Some Unauthenticated, None);
    (Some QuotaExhausted, Some Quota); (Some InvalidRequest, None)],
   (Some WTesting, false, 2),
   ["authorized"; "authorized"; "authorized"; "token_not_resolved"; "call_quota_exhausted";
    "malformed_json"]).
Proof. vm_compute. reflexivity. Qed.
