(* ===== verification/DispatchTheorems.v ===== *)
(** * The request path: the theorems

    One answer and one observation for every frame; the engine reached only by
    an authorized call, and what it answers; a manifest's policies; and what
    the credential is used for. *)

From S2P Require Import Prelude RustStd Json TxTypes TxState TxStorage TxEngine Wire Jcs Policy Quota.
From S2P Require Import PolicyTheorems Dispatch DispatchFacts TxDemo QuotaTheorems JcsTheorems DispatchDemo.

Section Requests.
Context `{JsonNumberFrom, !JsonFloat, !JsonDocument, !Sha256Hash, !WireSerde, !ManifestCodec,
          !BrokerCodec, !IoEnv, !HostAdapter, !HostReport, !Clock}.

(** ** What an operation is *)

Definition call_of (op : OpName) : CallDescriptor :=
  match op with
  | OpSystemInfo => system_info_call
  | OpConfigPropose => config_propose_call
  | OpTxTest => tx_test_call
  | OpTxApply => tx_apply_call
  | OpTxRollback => tx_rollback_call
  | OpTxStatus => tx_status_call
  | OpEventsReplay => events_replay_call
  end.

Lemma call_of_named op : cd_op (call_of op) = op_as_str op.
Proof. by destruct op. Qed.

(** The digest of a request: of its parameters as they were projected. *)
Definition request_digest (request : Request) : result (ResponseError * string) Digest :=
  let digest {P} (schema : SchemaKind) (to_value : P -> option Value) (project : Value -> option P) :=
    project_and_digest_with (rq_v request) (op_as_str (rq_op request)) VERSION schema to_value
      (project (rq_params request)) in
  match rq_op request with
  | OpSystemInfo => digest SkSystemInfoRequest system_info_params_to_value system_info_params
  | OpConfigPropose =>
      digest SkConfigProposeRequest config_propose_params_to_value config_propose_params
  | OpTxTest => digest SkTxTestRequest tx_test_params_to_value tx_test_params
  | OpTxApply => digest SkTxApplyRequest tx_apply_params_to_value tx_apply_params
  | OpTxRollback => digest SkTxRollbackRequest tx_rollback_params_to_value tx_rollback_params
  | OpTxStatus => digest SkTxStatusRequest tx_status_params_to_value tx_status_params
  | OpEventsReplay =>
      digest SkEventsReplayRequest events_replay_params_to_value events_replay_params
  end.

(** What the engine is asked to do, for the operations it executes. *)
Definition engine_step (request : Request) (agent : AgentContext) (digest : Digest) :
    option (M EngineW EngineError OperationResult) :=
  match rq_op request with
  | OpSystemInfo | OpTxRollback => None
  | OpConfigPropose => propose_step agent digest <$> config_propose_params (rq_params request)
  | OpTxTest => test_step agent digest <$> tx_test_params (rq_params request)
  | OpTxApply => apply_step agent digest <$> tx_apply_params (rq_params request)
  | OpTxStatus => status_step digest <$> tx_status_params (rq_params request)
  | OpEventsReplay => replay_step digest <$> events_replay_params (rq_params request)
  end.

Lemma engine_step_calm request agent digest step :
  engine_step request agent digest = Some step -> calm step.
Proof.
  unfold engine_step. destruct (rq_op request); try done;
    match goal with |- context [_ <$> ?o] => destruct o end; try done; intros [= <-].
  - unfold propose_step. calm.
  - unfold test_step. calm.
  - unfold apply_step. calm.
  - unfold status_step. calm.
  - unfold replay_step. calm.
Qed.

Definition response_for (request : Request) (agent : AgentContext) (m : AgentManifest)
    (digest : Digest) (r : result EngineError OperationResult) : Response :=
  match r with
  | Ok r => response_ok (rq_id request) (rq_v request) r
              (binding_of agent (call_of (rq_op request)) m digest)
  | Err e =>
      let '(code, stage, _) := engine_failure_of e in
      response_failed (Some (rq_id request)) (rq_v request)
        (if bool_decide (code = Internal) then response_error_new code else at_stage code stage)
  end.

(** ** An authorized call *)

(** Everything that holds of a request when it is let through, [s1] being the
    state with the call counted. *)
Record authorized_call (d : Dispatcher) (s : BrokerW) (request : Request) (agent : AgentContext)
    (m : AgentManifest) (digest : Digest) (s1 : BrokerW) : Prop := {
  ac_legal : operation_allowed request = true;
  ac_version : rq_op_version request = VERSION;
  ac_agent : exists now, resolve now (dp_tokens d) (au_token (rq_auth request)) = Ok agent;
  ac_digest : request_digest request = Ok digest;
  ac_manifest : loaded_from d agent s m;
  ac_stages : exists n, passes_first_four (call_of (rq_op request)) m (hr_safety_vector n);
  ac_budget : exists now,
    quota_try_admit now (ag_agent_id agent) (calls_per_day m) (bk_quotas s) = (true, bk_quotas s1);
  ac_engine : same_engine s s1;
  ac_observations : bk_observations s1 = bk_observations s;
}.

(** The one observation of a call that was let through. *)
Definition observed (request : Request) (agent : AgentContext) (m : AgentManifest) (digest : Digest)
    (resp : Response) (s s' : BrokerW) : Prop :=
  exists obs, bk_observations s' = bk_observations s ++ [obs] /\
    ob_agent_id obs = Some (ag_agent_id agent) /\ ob_manifest_digest obs = Some (mf_digest m) /\
    ob_operation_digest obs = Some digest /\ ob_allowed obs = is_success resp /\
    ob_error obs = re_code <$> rs_error resp.

(** What was done with it. *)
Definition executed (s s1 : BrokerW) (request : Request) (agent : AgentContext) (m : AgentManifest)
    (digest : Digest) (resp : Response) (s' : BrokerW) : Prop :=
  observed request agent m digest resp s s' /\ bk_quotas s' = bk_quotas s1 /\
  match rq_op request with
  | OpSystemInfo =>
      same_engine s s' /\ exists info, resp = response_for request agent m digest (Ok (RSystemInfo info))
  | OpTxRollback =>
      same_engine s s' /\
      resp = response_failed (Some (rq_id request)) (rq_v request) (response_error_new Internal)
  | _ =>
      exists step r, engine_step request agent (mf_digest m) = Some step /\
        attempt (F:=Never) step (bk_engine s1) = (Ret r, bk_engine s') /\
        resp = response_for request agent m digest r
  end.

Definition request_post (d : Dispatcher) (request : Request) (s : BrokerW)
    (o : outcome Never Response) (s' : BrokerW) : Prop :=
  refused_post (Some (rq_id request)) (rq_v request) s o s' \/
  exists agent m digest s1 resp,
    authorized_call d s request agent m digest s1 /\ o = Ret resp /\
    executed s s1 request agent m digest resp s'.

Lemma attempt_calm {S E F A} (m : M S E A) s :
  calm m -> exists r s', attempt (F:=F) m s = (Ret r, s').
Proof. intros Hm. unfold attempt. specialize (Hm s). destruct (m s) as [[] ?]; by eauto. Qed.

(** The engine's answer, observed and answered. *)
Lemma wp_execute request agent peer m digest step (s s1 : BrokerW)
    (Q : outcome Never Response -> BrokerW -> Prop) :
  calm step -> bk_observations s1 = bk_observations s ->
  (forall r resp s', attempt (F:=Never) step (bk_engine s1) = (Ret r, bk_engine s') ->
    resp = response_for request agent m digest r -> bk_quotas s' = bk_quotas s1 ->
    observed request agent m digest resp s s' -> Q (Ret resp) s') ->
  wp (ran ← attempt (with_engine step);
      match ran with
      | Ok r => authorized request agent peer (call_of (rq_op request)) m digest r
      | Err err => engine_failure request agent peer (call_of (rq_op request)) m digest err
      end) Q s1.
Proof.
  intros Hcalm Ho HQ. rewrite wp_bind, wp_attempt. unfold with_engine. rewrite wp_zoom. unfold wp at 1.
  destruct (attempt_calm (F:=Never) step (bk_engine s1) Hcalm) as (r & e & Hr).
  assert (Hr' := Hr). unfold attempt in Hr'.
  destruct (step (bk_engine s1)) as [[a|err|] e']; cbn; [| |done]; injection Hr' as <- <-.
  - unfold authorized. rewrite wp_bind, wp_record, wp_ret. eapply HQ; [exact Hr|done|done|].
    eexists. split; [cbn; by rewrite Ho|]. by split_and!.
  - unfold engine_failure. destruct (engine_failure_of err) as [[code stage] reason] eqn:Ef.
    rewrite wp_bind, wp_record, wp_ret.
    eapply HQ; [exact Hr|cbn; by rewrite Ef|done|].
    eexists. split; [cbn; by rewrite Ho|]. split_and!; try done. cbn. by case_bool_decide.
Qed.

Lemma wp_execute_v2 {P} d request agent peer (pj : Projection P) execute s :
  (exists now, resolve now (dp_tokens d) (au_token (rq_auth request)) = Ok agent) ->
  operation_allowed request = true -> rq_op_version request = VERSION ->
  request_digest request =
    project_and_digest_with (rq_v request) (cd_op (call_of (rq_op request))) VERSION
      (pj_schema _ pj) (pj_to_value _ pj) (pj_project _ pj (rq_params request)) ->
  (forall digest, engine_step request agent digest =
                  execute digest <$> pj_project _ pj (rq_params request)) ->
  (rq_op request <> OpSystemInfo /\ rq_op request <> OpTxRollback) ->
  wp (execute_v2 d request agent peer (call_of (rq_op request)) pj execute)
     (request_post d request s) s.
Proof.
  intros Hag Hlegal Hver Hdig Hstep Hop. unfold execute_v2.
  destruct (pj_project _ pj (rq_params request)) as [typed|] eqn:Hproj; cycle 1.
  { eapply wp_mono; [by apply refused_post_record|]. intros o s' Hx. by left. }
  rewrite Hver. apply wp_judge; [by left|]. intros m digest n now s1 Hd Hm Hp Hadm Hs1 Ho1.
  assert (Hcalm : calm (execute (mf_digest m) typed)).
  { apply (engine_step_calm request agent (mf_digest m)). rewrite Hstep. reflexivity. }
  apply (wp_execute _ _ _ _ _ _ s); [done|done|]. intros r resp s' Hr Hresp Hq Hobs. right.
  exists agent, m, digest, s1, resp. split; [|split; [done|]].
  - constructor; try done; [|by exists n|by exists now]. rewrite Hdig. rewrite Hproj in Hd. exact Hd.
  - split; [done|]. split; [done|]. assert (Heng : exists step r, engine_step request agent (mf_digest m) = Some step /\
      attempt (F:=Never) step (bk_engine s1) = (Ret r, bk_engine s') /\
      resp = response_for request agent m digest r).
    { exists (execute (mf_digest m) typed), r. by rewrite Hstep. }
    destruct Hop as [Hn1 Hn2]. by destruct (rq_op request).
Qed.

Lemma wp_run_operation d request agent peer s :
  (exists now, resolve now (dp_tokens d) (au_token (rq_auth request)) = Ok agent) ->
  operation_allowed request = true -> rq_op_version request = VERSION ->
  wp (run_operation d request agent peer) (request_post d request s) s.
Proof.
  intros Hag Hlegal Hver. unfold run_operation.
  assert (Hc := call_of_named (rq_op request)).
  destruct (rq_op request) eqn:Hop;
    try (match goal with |- wp (execute_v2 _ _ _ _ ?c _ _) _ _ =>
           replace c with (call_of (rq_op request)) by (by rewrite Hop) end;
         apply wp_execute_v2; try done;
         [unfold request_digest; by rewrite Hop
         |intros digest; unfold engine_step; by rewrite Hop
         |by rewrite Hop]).
  - unfold system_info. apply wp_judge; [by left|]. intros m digest n now s1 Hd Hm Hp Hadm Hs1 Ho1.
    rewrite wp_bind. unfold system_info_execute.
    rewrite !wp_bind, wp_ask, wp_bind, wp_ask, wp_bind, wp_ask, wp_bind, wp_ask, wp_bind, wp_ask, wp_ret.
    unfold authorized. rewrite wp_bind, wp_record, wp_ret. right.
    eexists agent, m, digest, s1, _. split; [|split; [done|]].
    + constructor; try done; [unfold request_digest; by rewrite Hop|rewrite Hop; by exists n|by exists now].
    + split; [|split; [done|]].
      * eexists. split; [cbn; by rewrite Ho1|]. by split_and!.
      * rewrite Hop. split; [done|]. eexists. unfold response_for. by rewrite Hop.
  - unfold contract_only. rewrite Hver. apply wp_judge; [by left|].
    intros m digest n now s1 Hd Hm Hp Hadm Hs1 Ho1.
    rewrite wp_bind, wp_record, wp_ret. right. eexists agent, m, digest, s1, _. split; [|split; [done|]].
    + constructor; try done; [unfold request_digest; by rewrite Hop|rewrite Hop; by exists n|by exists now].
    + split; [|split; [done|]].
      * eexists. split; [cbn; by rewrite Ho1|]. by split_and!.
      * by rewrite Hop.
Qed.

Lemma wp_dispatch_request d request peer s :
  wp (handle_request d request peer) (request_post d request s) s.
Proof.
  unfold handle_request. destruct (operation_allowed request) eqn:Hlegal; cbn [negb]; cycle 1.
  { eapply wp_mono; [by apply refused_post_record|]. intros o s' Hx. by left. }
  rewrite wp_bind, wp_ask. destruct (resolve _ _ _) as [agent|e] eqn:Hr; cycle 1.
  { eapply wp_mono; [by apply (refused_post_record _ _ _ _ s)|]. intros o s' Hx. by left. }
  destruct (rq_op_version request =? VERSION) eqn:Hv; cbn [negb]; bool_to_prop; cycle 1.
  { eapply wp_mono; [by apply (refused_post_record _ _ _ _ s)|]. intros o s' Hx. by left. }
  eapply wp_mono; [apply wp_run_operation; [by eexists|done|done]|].
  intros o s' [Hx|(ag & m & digest & s1 & resp & Hac & -> & Hex)].
  - left. by apply (refused_post_from _ _ s (ticked s)).
  - right. exists ag, m, digest, s1, resp. split; [|split; [done|]].
    + destruct Hac. constructor; done.
    + destruct Hex as (Hobs & Hq & Hex). split; [|split; [done|]]; [exact Hobs|].
      by destruct (rq_op request).
Qed.

(** The request a frame carries, when it carries one. *)
Definition parsed_request (body : list byte) : option Request :=
  match strict_parse body with
  | Ok value =>
      match request_from_value value with
      | Some request => if version_supported request then Some request else None
      | None => None
      end
  | Err _ => None
  end.

Definition frame_post (d : Dispatcher) (body : list byte) (s : BrokerW)
    (o : outcome Never Response) (s' : BrokerW) : Prop :=
  match parsed_request body with
  | Some request => request_post d request s o s'
  | None => refused_post None PROTOCOL_VERSION_V1 s o s'
  end.

Lemma wp_handle_frame d body peer s : wp (handle_frame d body peer) (frame_post d body s) s.
Proof.
  unfold handle_frame, parse, frame_post, parsed_request. rewrite wp_bind.
  assert (Hno : forall reason, wp (record (rejected peer InvalidRequest reason);; mret (M:=Handler) (None (A:=Request)))
    (fun o s' => match o with
     | Ret a => wp (match a with
         | Some request => handle_request d request peer
         | None => mret (response_failed None PROTOCOL_VERSION_V1 (response_error_new InvalidRequest))
         end) (refused_post None PROTOCOL_VERSION_V1 s) s'
     | Throw e => refused_post None PROTOCOL_VERSION_V1 s (Throw e) s'
     | Panic => refused_post None PROTOCOL_VERSION_V1 s Panic s'
     end) s).
  { intros reason. rewrite wp_bind, wp_record, wp_ret, wp_ret.
    exists (response_error_new InvalidRequest), (rejected peer InvalidRequest reason). by split_and!. }
  destruct (strict_parse body) as [value|]; [|apply Hno].
  destruct (request_from_value value) as [request|]; [|apply Hno].
  destruct (version_supported request); cbn [negb]; [|apply Hno].
  rewrite wp_ret. apply wp_dispatch_request.
Qed.

Lemma frame_runs d body peer s :
  exists o s', handle_frame d body peer s = (o, s') /\ frame_post d body s o s'.
Proof.
  pose proof (wp_handle_frame d body peer s) as Hwp. unfold wp in Hwp.
  destruct (handle_frame d body peer s) as [o s']. by exists o, s'.
Qed.

Lemma response_for_shape request agent m digest r :
  let resp := response_for request agent m digest r in
  rs_v resp = rq_v request /\ rs_id resp = Some (rq_id request) /\
  (is_success resp = true <-> rs_error resp = None) /\
  (is_Some (rs_binding resp) <-> is_success resp = true).
Proof.
  unfold response_for. destruct r as [r|e]; cbn.
  - by split_and!.
  - destruct (engine_failure_of e) as [[code stage] reason]. cbn. split_and!; try done.
Qed.

Lemma executed_shape s s1 request agent m digest resp s' :
  executed s s1 request agent m digest resp s' ->
  rs_v resp = rq_v request /\ rs_id resp = Some (rq_id request) /\
  (is_success resp = true <-> rs_error resp = None) /\
  (is_Some (rs_binding resp) <-> is_success resp = true).
Proof.
  intros (_ & _ & Hex).
  destruct (rq_op request);
    first [destruct Hex as (? & ? & _ & _ & ->); apply response_for_shape
          |destruct Hex as [_ [info ->]]; apply response_for_shape
          |destruct Hex as [_ ->]; cbn; split_and!; try done; try (by intros [])].
Qed.

Lemma handle_frame_answers d body peer s :
  exists resp obs s',
    handle_frame d body peer s = (Ret resp, s') /\
    bk_observations s' = bk_observations s ++ [obs] /\
    ob_allowed obs = is_success resp /\ ob_error obs = re_code <$> rs_error resp /\
    (is_success resp = true <-> rs_error resp = None) /\
    (is_Some (rs_binding resp) <-> is_success resp = true) /\
    rs_id resp = rq_id <$> parsed_request body /\
    rs_v resp = from_option rq_v PROTOCOL_VERSION_V1 (parsed_request body).
Proof.
  destruct (frame_runs d body peer s) as (o & s' & Hrun & Hpost).
  assert (Href : forall id v, refused_post id v s o s' -> exists e obs,
    handle_frame d body peer s = (Ret (response_failed id v e), s') /\
    bk_observations s' = bk_observations s ++ [obs] /\ ob_allowed obs = false /\
    ob_error obs = Some (re_code e)).
  { intros id v (e & obs & -> & Ho & Ha & He & _). by exists e, obs. }
  unfold frame_post in Hpost. destruct (parsed_request body) as [request|].
  - destruct Hpost as [Hr|(agent & m & digest & s1 & resp & Hac & -> & Hex)].
    + apply Href in Hr as (e & obs & Hr & Ho & Ha & He). eexists _, obs, s'.
      split_and!; try done. split; intros Hx; [by destruct Hx|done].
    + pose proof (executed_shape _ _ _ _ _ _ _ _ Hex) as (Hv & Hid & Hse & Hb).
      destruct Hex as ((obs & Ho & _ & _ & _ & Ha & He) & _). exists resp, obs, s'. by split_and!.
  - apply Href in Hpost as (e & obs & Hr & Ho & Ha & He). eexists _, obs, s'.
    split_and!; try done. split; intros Hx; [by destruct Hx|done].
Qed.

(** C9: every frame is answered, once.  Whatever bytes a peer sends, the
    dispatcher returns one response and adds one observation; the two agree
    on whether the call was allowed and on the error; the response holds a
    result with its binding, or an error, and never both; and it carries the
    request's identifier and protocol version, or neither when the frame was
    no request. *)
Theorem one_answer_per_frame d body peer s :
  exists resp obs s',
    handle_frame d body peer s = (Ret resp, s') /\
    bk_observations s' = bk_observations s ++ [obs] /\
    ob_allowed obs = is_success resp /\ ob_error obs = re_code <$> rs_error resp /\
    (is_success resp = true <-> rs_error resp = None) /\
    (is_Some (rs_binding resp) <-> is_success resp = true) /\
    rs_id resp = rq_id <$> parsed_request body /\
    rs_v resp = from_option rq_v PROTOCOL_VERSION_V1 (parsed_request body).
Proof. apply handle_frame_answers. Qed.

(** C3: the engine is reached by an authorized call only.  A frame either
    leaves the engine, the files and the host adapter untouched and is
    refused -- with the budgets untouched too, unless it was the budget that
    refused -- or it carries a request that its protocol version allows, whose
    token resolves, whose parameters have the digest that is bound, whose
    agent's manifest loads, which the first four stages let through and which
    the budget counted; and then the answer is what the engine makes of those
    parameters, under that agent and that manifest's digest. *)
Theorem engine_reached_only_when_authorized d body peer s o s' :
  handle_frame d body peer s = (o, s') ->
  (exists id v, refused_post id v s o s') \/
  (exists request agent m digest s1 resp,
     parsed_request body = Some request /\ authorized_call d s request agent m digest s1 /\
     o = Ret resp /\ executed s s1 request agent m digest resp s').
Proof.
  intros Hrun. destruct (frame_runs d body peer s) as (o' & s'' & Hrun' & Hpost).
  rewrite Hrun in Hrun'. injection Hrun' as <- <-.
  unfold frame_post in Hpost. destruct (parsed_request body) as [request|].
  - destruct Hpost as [Hr|(agent & m & digest & s1 & resp & Hac & -> & Hex)].
    + left. by eexists _, _.
    + right. by exists request, agent, m, digest, s1, resp.
  - left. by eexists _, _.
Qed.

(** No tool compares its arguments with bounds. *)
Lemma call_of_unbounded op : cd_within_bounds (call_of op) = None.
Proof. by destruct op. Qed.

(** Only the class ceiling lets a call through.  A call that succeeds is
    one whose operation the agent's manifest does not name -- a policy for it,
    pre-authorized ones included, refuses -- whose highest effect class is
    within the manifest's ceiling, and whose footprint meets every minimum
    the manifest sets. *)
Theorem success_is_under_the_ceiling d body peer s resp s' :
  handle_frame d body peer s = (Ret resp, s') -> is_success resp = true ->
  exists request agent m,
    parsed_request body = Some request /\
    (exists now, resolve now (dp_tokens d) (au_token (rq_auth request)) = Ok agent) /\
    loaded_from d agent s m /\
    operation_policy m (op_as_str (rq_op request)) = None /\
    (forall class, class ∈ cd_effect_set (call_of (rq_op request)) ->
     rank class <= rank (default EffR (max_unapproved_class m))) /\
    exists n, forall resource class, (resource, class) ∈ cd_footprint (call_of (rq_op request)) ->
      class = EffD -> covered resource (hr_safety_vector n) (min_safety m).
Proof.
  intros Hrun Hs. destruct (frame_runs d body peer s) as (o' & s'' & Hrun' & Hpost).
  rewrite Hrun in Hrun'. injection Hrun' as <- <-.
  assert (Href : forall id v, refused_post id v s (Ret resp) s' -> False).
  { intros id v (e & obs & [= ->] & _). done. }
  unfold frame_post in Hpost. destruct (parsed_request body) as [request|]; [|by apply Href in Hpost].
  destruct Hpost as [Hr|(agent & m & digest & s1 & resp' & Hac & [= <-] & Hex)]; [by apply Href in Hr|].
  destruct Hac. destruct ac_stages0 as (n & Hstages).
  apply passes_all_four in Hstages as ([_ Hforb] & Hsafe & Hpol & Hceil).
  assert (Hnone : operation_policy m (op_as_str (rq_op request)) = None).
  { rewrite <-call_of_named. destruct (operation_policy m _) as [p|] eqn:Hp; [|done].
    destruct (Hpol p Hp) as [_ Hb]. by rewrite call_of_unbounded in Hb. }
  exists request, agent, m. split_and!; try done.
  - intros class Hc. apply Hceil; [by rewrite call_of_named|done|]. by intros ->.
  - exists n. intros resource class Hin ->. apply (Hsafe _ _ Hin). by left.
Qed.

(** The credential of a request. *)
Definition with_token (token : string) (request : Request) : Request :=
  mkRequest (rq_v request) (rq_id request) (rq_op request) (rq_op_version request) (mkAuth token)
            (rq_params request).

Definition owner (now : SystemTime) (store : TokenStore) (token : string) : option AgentContext :=
  match resolve now store token with Ok agent => Some agent | Err _ => None end.

Lemma run_operation_token d t1 t2 request agent peer :
  run_operation d (with_token t1 request) agent peer = run_operation d (with_token t2 request) agent peer.
Proof. destruct request as [v id op opv auth params]. by destruct op. Qed.

(** A credential says who is calling, and nothing more.  Two requests
    that differ in the token only, and whose tokens belong to the same agent
    or to nobody, are handled alike: the same answer, observation and state.
    So an unknown token, a revoked one and an expired one look the same. *)
Theorem credential_only_identifies d request t1 t2 peer s :
  (forall now, owner now (dp_tokens d) t1 = owner now (dp_tokens d) t2) ->
  handle_request d (with_token t1 request) peer s = handle_request d (with_token t2 request) peer s.
Proof.
  intros Howner. unfold handle_request.
  change (operation_allowed (with_token ?t request)) with (operation_allowed request).
  destruct (operation_allowed request); cbn [negb]; [|done].
  unfold mbind, M_bind. destruct (ask clock s) as [[now|e|] s1]; [|done|done].
  specialize (Howner now). unfold owner in Howner. cbn [rq_auth with_token au_token].
  change (rq_op_version (with_token ?t request)) with (rq_op_version request).
  destruct (resolve now (dp_tokens d) t1) as [a1|e1], (resolve now (dp_tokens d) t2) as [a2|e2];
    try done.
  injection Howner as <-. destruct (negb _); [done|]. by rewrite (run_operation_token d t1 t2).
Qed.
End Requests.

(** ** Concrete requests *)

Lemma demo_proposes :
  exists resp s', handle generous_host (frame 0) demo_broker = (Ret resp, s') /\
    is_success resp = true /\ states_of (bk_engine s') = (Some WProposed, false, 1).
Proof.
  assert (Hrun : match handle generous_host (frame 0) demo_broker with
    | (Ret resp, s') => is_success resp = true /\ states_of (bk_engine s') = (Some WProposed, false, 1)
    | _ => False
    end) by (vm_compute; by split).
  destruct (handle generous_host (frame 0) demo_broker) as [[resp|[]|] s']; [|done].
  by exists resp, s'.
Qed.

(** The proposal reached the engine, so it was authorized. *)
Lemma engine_reached_only_when_authorized_witness :
  exists request agent m digest s1 resp s',
    @authorized_call int_number int_number_from no_floats demo_sha256 demo_wire demo_manifests
      reliable_io (demo_report generous_host) demo_dispatcher demo_broker request agent m digest s1 /\
    @executed int_number demo_wire demo_broker_codec reliable_io demo_host
      demo_broker s1 request agent m digest resp s' /\
    states_of (bk_engine s') = (Some WProposed, false, 1).
Proof.
  destruct demo_proposes as (resp & s' & Hrun & Hok & Hst).
  destruct (@engine_reached_only_when_authorized int_number int_number_from no_floats demo_document
              demo_sha256 demo_wire demo_manifests demo_broker_codec reliable_io demo_host
              (demo_report generous_host) demo_clock demo_dispatcher (frame 0) demo_peer demo_broker
              (Ret resp) s' Hrun) as [(id & v & Hr)|(request & agent & m & digest & s1 & resp' & Hx)].
  - destruct Hr as (e & obs & Heq & _). injection Heq as ->. discriminate Hok.
  - destruct Hx as (_ & Hac & _ & Hex). exists request, agent, m, digest, s1, resp', s'.
    split; [exact Hac|split; [exact Hex|exact Hst]].
Defined.

Lemma success_is_under_the_ceiling_witness :
  exists request agent m,
    @loaded_from int_number no_floats demo_sha256 demo_manifests reliable_io demo_dispatcher agent
      demo_broker m /\
    operation_policy m (op_as_str (rq_op request)) = None /\
    forall class, class ∈ cd_effect_set (call_of (rq_op request)) ->
      rank class <= rank (default EffR (max_unapproved_class m)).
Proof.
  destruct demo_proposes as (resp & s' & Hrun & Hok & _).
  destruct (@success_is_under_the_ceiling int_number int_number_from no_floats demo_document
              demo_sha256 demo_wire demo_manifests demo_broker_codec reliable_io demo_host
              (demo_report generous_host) demo_clock demo_dispatcher (frame 0) demo_peer demo_broker
              resp s' Hrun Hok) as (request & agent & m & _ & _ & Hm & Hnone & Hceil & _).
  exists request, agent, m. split; [exact Hm|split; [exact Hnone|exact Hceil]].
Defined.

Definition demo_request : @Request int_number :=
  mkRequest 2 "r0" OpTxStatus 1 (mkAuth "") (VObject [("tx_id", VString "tx-1")]).

(** Two tokens that nobody has. *)
Lemma credential_only_identifies_witness :
  @handle_request int_number int_number_from no_floats demo_sha256 demo_wire demo_manifests
    demo_broker_codec reliable_io demo_host (demo_report bare_host) demo_clock demo_dispatcher
    (with_token "short" demo_request) demo_peer demo_broker =
  @handle_request int_number int_number_from no_floats demo_sha256 demo_wire demo_manifests
    demo_broker_codec reliable_io demo_host (demo_report bare_host) demo_clock demo_dispatcher
    (with_token TOKEN_B demo_request) demo_peer demo_broker.
Proof.
  apply (@credential_only_identifies int_number int_number_from no_floats demo_sha256 demo_wire
           demo_manifests demo_broker_codec reliable_io demo_host (demo_report bare_host) demo_clock
           demo_dispatcher demo_request "short" TOKEN_B demo_peer demo_broker).
  intros now. reflexivity.
Defined.
