(* ===== verification/StepsCalm.v ===== *)
(** * No step panics

    Whatever the states in between, the steps of an engine's request end in
    an error or in the reply of that request: the lock guards of the engine
    are never poisoned, and a thread that waits is answered. *)

From S2P Require Import Prelude RustStd Json TxTypes TxStorage TxEngine Steps EngineSteps.
From S2P Require Import Concurrent DispatchFacts.

(** Every end a program can come to, with others in between. *)
Fixpoint leaves {S E A} (Q : outcome E A -> Prop) (p : Prog S E A) : Prop :=
  match p with
  | PDone o => Q o
  | PStep m k => forall s, leaves Q (k (fst (m s)))
  end.

Definition calm_steps {S E A} (p : Prog S E A) : Prop := leaves (fun o => o <> Panic) p.

Section Leaves.
Context {S E : Type}.

Lemma leaves_bind {A B} (P : outcome E A -> Prop) (Q : outcome E B -> Prop) (p : Prog S E A)
    (f : A -> Prog S E B) :
  leaves P p ->
  (forall o, P o -> match o with
    | Ret a => leaves Q (f a) | Throw e => Q (Throw e) | Panic => Q Panic end) ->
  leaves Q (p ≫= f).
Proof.
  intros Hp Hf. induction p as [o|F C m k IH]; cbn.
  - specialize (Hf o Hp). by destruct o.
  - intros s. apply IH, Hp.
Qed.

Lemma calm_steps_step {A} (m : M S E A) : calm m -> calm_steps (step m).
Proof. intros Hm s. apply Hm. Qed.

Lemma calm_steps_bind {A B} (p : Prog S E A) (f : A -> Prog S E B) :
  calm_steps p -> (forall a, calm_steps (f a)) -> calm_steps (p ≫= f).
Proof. intros Hp Hf. eapply leaves_bind; [exact Hp|]. intros [a|e|] Ho; [apply Hf|done|done]. Qed.

Lemma calm_steps_attempt {F A} (p : Prog S E A) : calm_steps p -> calm_steps (pattempt (F:=F) p).
Proof.
  unfold calm_steps. induction p as [[a|e|]|G C m k IH]; cbn; auto.
Qed.

Lemma calm_steps_result {A} (r : result E A) : calm_steps (S:=S) (presult r).
Proof. by destruct r. Qed.
Lemma calm_steps_throw_if b (e : E) : calm_steps (S:=S) (pthrow_if b e).
Proof. by destruct b. Qed.
End Leaves.

Section EngineCalm.
Context `{JsonNumber} `{!BrokerCodec} `{!IoEnv} `{!HostAdapter}.

Hint Resolve calm_append_transition calm_revert calm_events_append calm_replay : calm.

Lemma calm_on_append r : calm (on_wal (fun wal => append_transition wal r)).
Proof. unfold on_wal, get_engine, modify_engine, on_disk. calm. Qed.
Lemma calm_on_revert n : calm (on_wal (fun wal => revert_last_transition wal n)).
Proof. unfold on_wal, get_engine, modify_engine, on_disk. calm. Qed.
Lemma calm_announce_step tx st : calm (announce tx st).
Proof. unfold announce, get_engine, modify_engine, on_disk. calm. Qed.
Lemma calm_write_mode : calm write_mode.
Proof. unfold write_mode, get_engine, on_disk, fs_write, open_truncate. calm. Qed.
Lemma calm_replay_from c : calm (replay_from c).
Proof. unfold replay_from, get_engine, on_disk. calm. Qed.
Lemma calm_modify_engine f : calm (E:=EngineError) (modify_engine f).
Proof. done. Qed.

Hint Resolve calm_on_append calm_on_revert calm_announce_step calm_write_mode calm_replay_from
  calm_modify_engine calm_record_idempotency calm_forget calm_lookup calm_observe
  calm_call_propose calm_new_tx_id calm_snapshot : calm.
Hint Resolve calm_steps_result calm_steps_throw_if : calm.

Ltac calming :=
  repeat first
    [ progress intros
    | solve [auto with calm nocore]
    | by apply calm_steps_step
    | apply calm_steps_step; solve [auto with calm nocore]
    | apply calm_steps_attempt
    | apply calm_steps_bind
    | match goal with
      | |- calm_steps (match ?x with _ => _ end) => destruct x
      | |- calm_steps (if ?x then _ else _) => destruct x
      end
    | done ].

Lemma calm_steps_persist tx st k fp ag md base eff diff res json :
  calm_steps (persist_transition_steps tx st k fp ag md base eff diff res json).
Proof. unfold persist_transition_steps. calming. Qed.
Lemma calm_steps_safe : calm_steps enter_safe_mode_steps.
Proof. unfold enter_safe_mode_steps. calming. Qed.
Hint Resolve calm_steps_persist calm_steps_safe : calm.
Lemma calm_steps_rollback tx n : calm_steps (rollback_transition_steps tx n).
Proof. unfold rollback_transition_steps. calming. Qed.
Lemma calm_steps_append tx st : calm_steps (append_state_event_steps tx st).
Proof. unfold append_state_event_steps. calming. Qed.
Lemma calm_steps_ensure : calm_steps ensure_dm_allowed_steps.
Proof. unfold ensure_dm_allowed_steps. calming. Qed.
Hint Resolve calm_steps_rollback calm_steps_append calm_steps_ensure : calm.
Lemma calm_steps_transition ag md tx t k fp idem :
  calm_steps (transition_steps ag md tx t k fp idem).
Proof. unfold transition_steps. calming. Qed.
Lemma calm_steps_refuse snap key fp params json :
  calm_steps (refuse_moved_base_apply_steps snap key fp params json).
Proof. unfold refuse_moved_base_apply_steps. calming. Qed.
Hint Resolve calm_steps_transition calm_steps_refuse : calm.
Lemma calm_steps_propose ag md p : calm_steps (config_propose_steps ag md p).
Proof. unfold config_propose_steps, check_binding_steps. calming. Qed.
Lemma calm_steps_test ag md tx : calm_steps (tx_test_steps ag md tx).
Proof. unfold tx_test_steps. calming. Qed.
Lemma calm_steps_apply ag md p : calm_steps (tx_apply_steps ag md p).
Proof. unfold tx_apply_steps, check_binding_steps. calming. Qed.
Lemma calm_steps_probation ag md tx : calm_steps (advance_to_probation_steps ag md tx).
Proof. unfold advance_to_probation_steps. calming. Qed.
Lemma calm_steps_status tx : calm_steps (tx_status_steps tx).
Proof. unfold tx_status_steps. calming. Qed.
Lemma calm_steps_replay c : calm_steps (events_replay_steps c).
Proof. unfold events_replay_steps. calming. Qed.

(** ** A request is answered in its own terms *)

Definition replies (r : EngineRequest) (o : Answer) : Prop :=
  match o with
  | Throw _ => True
  | Panic => False
  | Ret reply =>
      match r, reply with
      | RqPropose _ _ _, RpProposed _ | RqTest _ _ _, RpStep _ | RqApply _ _ _, RpStep _
      | RqProbation _ _ _, RpStep _ | RqStatus _, RpStatus _ | RqReplay _, RpEvents _ _ _ => True
      | _, _ => False
      end
  end.

Lemma steps_reply_of {A} r (p : Prog EngineW EngineError A) (f : A -> Reply) :
  calm_steps p -> (forall a, replies r (Ret (f a))) -> leaves (replies r) (a ← p; mret (f a)).
Proof.
  intros Hp Hf. eapply leaves_bind; [exact Hp|]. intros [a|e|] Ho; [apply Hf|done|by destruct Ho].
Qed.

Lemma steps_reply r : leaves (replies r) (engine_request_steps r).
Proof.
  destruct r; unfold engine_request_steps.
  - apply steps_reply_of; [apply calm_steps_propose|done].
  - apply steps_reply_of; [apply calm_steps_test|done].
  - apply steps_reply_of; [apply calm_steps_apply|done].
  - apply steps_reply_of; [apply calm_steps_probation|done].
  - apply steps_reply_of; [apply calm_steps_status|done].
  - eapply leaves_bind; [apply calm_steps_replay|].
    intros [[[log_id events] next]|e|] Ho; [done|done|by destruct Ho].
Qed.

Definition replying (th : Thread) : Prop :=
  let r := ca_request (th_caller th) in
  match th_stage th with
  | Waiting => True
  | Running _ p _ => leaves (replies r) p
  | Returned _ o _ => replies r o
  end.

Lemma pool_step_replying i pl pl' :
  pool_step i pl = Some pl' -> Forall replying (pl_threads pl) -> Forall replying (pl_threads pl').
Proof.
  intros Hi Hall. unfold pool_step in Hi.
  destruct (pl_threads pl !! i) as [[c st]|] eqn:Hth; [|done]. cbn in Hi.
  pose proof (Forall_lookup_1 _ _ _ _ Hall Hth) as Hone. unfold replying in Hone. cbn in Hone.
  assert (Hput : forall st', replying (mkThread c st') ->
    Forall replying (<[i := mkThread c st']> (pl_threads pl))) by (intros; by apply Forall_insert).
  destruct st as [|since p lo|since o lo]; [| |done].
  - assert (Hbegin : forall since, replying (mkThread c
      (Running since (engine_request_steps (ca_request c)) (ca_local c)))) by (intros; apply steps_reply).
    destruct (takes_lock _); [destruct (pl_holder pl); [done|]|]; injection Hi as <-; by apply Hput.
  - destruct p as [o|F B m k].
    + injection Hi as <-. destruct (takes_lock _); by apply Hput.
    + destruct (m _) as [o s'] eqn:Hm. injection Hi as <-. apply Hput. unfold replying. cbn.
      specialize (Hone (view (pl_shared pl) lo)). by rewrite Hm in Hone.
Qed.
End EngineCalm.
