(* ===== verification/Frames.v ===== *)
(** * Concurrent frames

    [server.rs] gives each connection a thread, and [dispatch.rs] is called by
    all of them: on one engine, one ledger, one observer.  A frame is a
    program of its own: what it does by itself, step by step (a reading of the
    clock or of the host, the manifest's file, the ladder with the ledger
    under its lock, a record of the observer), and at most one call of the
    engine, which runs as a thread of [Concurrent] among those of the other
    frames while this one waits for its answer. *)

From S2P Require Import Prelude RustStd Json TxTypes TxStorage TxEngine Steps EngineSteps.
From S2P Require Import Concurrent Wire Jcs Policy Quota Dispatch DispatchTheorems.

(** ** Frames as programs *)

Inductive Frame : Type :=
  | FReply (response : Response)
  | FAct {A} (m : M BrokerW Never A) (k : A -> Frame)
  | FCall (c : EngineRequest) (k : Answer -> Frame)
  | FPanic.

Section Frames.
Context `{JsonNumberFrom, !JsonFloat, !JsonDocument, !Sha256Hash, !WireSerde, !ManifestCodec,
          !BrokerCodec, !IoEnv, !HostAdapter, !HostReport, !Clock}.

(** A handler's last step: one record and the response. *)
Definition finish (m : Handler Response) : Frame := FAct m FReply.

(** [judge] of [Dispatch], step by step. *)
Definition judge_frame {P} (d : Dispatcher) (request : Request) (agent : AgentContext)
    (peer : PeerCredentials) (call : CallDescriptor) (op_version : Z) (pj : Projection P)
    (allowed : AgentManifest -> Digest -> Frame) : Frame :=
  match project_and_digest_with (rq_v request) (cd_op call) op_version (pj_schema _ pj)
          (pj_to_value _ pj) (pj_project _ pj (rq_params request)) with
  | Err (error, reason) => finish (refuse request agent peer error reason None call)
  | Ok operation_digest =>
      FAct (attempt (with_world (manifest_load (dp_manifests d) (ag_manifest_ref agent)))) (fun loaded =>
      match loaded with
      | Err _ =>
          finish (refuse request agent peer (response_error_new Denied) "manifest_unavailable"
                    (Some operation_digest) call)
      | Ok m =>
          FAct (ask hr_safety_vector) (fun host =>
          FAct (@evaluate _ _ _ (agent_admission (ag_agent_id agent)) call m host) (fun decision =>
          match decision with
          | Refuse code stage reason =>
              finish (refused_by_ladder request agent peer call m operation_digest code stage reason)
          | Allow => allowed m operation_digest
          end))
      end)
  end.

(** The engine's reply to an operation, as the result of the call. *)
Definition reply_result (op : OpName) (reply : Reply) : option OperationResult :=
  match op, reply with
  | OpConfigPropose, RpProposed o =>
      Some (RConfigPropose (mkProposeResult (po_tx_id o) (po_diff o) (po_test_plan o)
                              (po_affected_resources o) (po_base_revision o)))
  | OpTxTest, RpStep step => Some (RTxTest step)
  | OpTxApply, RpStep step => Some (RTxApply step)
  | OpTxStatus, RpStatus status => Some (RTxStatus status)
  | OpEventsReplay, RpEvents log_id events cursor =>
      Some (REventsReplay (mkReplayResult log_id (map wire_event events) cursor))
  | _, _ => None
  end.

(** What the handler does with the engine's answer. *)
Definition after_call (request : Request) (agent : AgentContext) (peer : PeerCredentials)
    (call : CallDescriptor) (m : AgentManifest) (operation_digest : Digest) (o : Answer) : Frame :=
  match o with
  | Ret reply =>
      match reply_result (rq_op request) reply with
      | Some r => finish (authorized request agent peer call m operation_digest r)
      | None => FPanic
      end
  | Throw err => finish (engine_failure request agent peer call m operation_digest err)
  | Panic => FPanic
  end.

Definition execute_frame {P} (d : Dispatcher) (request : Request) (agent : AgentContext)
    (peer : PeerCredentials) (call : CallDescriptor) (pj : Projection P)
    (asked : Digest -> P -> EngineRequest) : Frame :=
  match pj_project _ pj (rq_params request) with
  | None =>
      finish (refuse request agent peer (response_error_new InvalidRequest) "params_rejected" None call)
  | Some typed =>
      judge_frame d request agent peer call (rq_op_version request) pj (fun m operation_digest =>
        FCall (asked (mf_digest m) typed) (after_call request agent peer call m operation_digest))
  end.

Definition contract_only_frame {P} (d : Dispatcher) (request : Request) (agent : AgentContext)
    (peer : PeerCredentials) (call : CallDescriptor) (pj : Projection P) : Frame :=
  judge_frame d request agent peer call (rq_op_version request) pj (fun m operation_digest =>
    finish (
      record (judged request agent peer call m operation_digest false None (Some Internal)
                "execution_not_implemented_at_l00");;
      mret (response_failed (Some (rq_id request)) (rq_v request) (response_error_new Internal)))).

Definition system_info_frame (d : Dispatcher) (request : Request) (agent : AgentContext)
    (peer : PeerCredentials) : Frame :=
  judge_frame d request agent peer system_info_call VERSION
    (mkProjection _ system_info_params system_info_params_to_value SkSystemInfoRequest)
    (fun m operation_digest =>
      FAct system_info_execute (fun info =>
      finish (authorized request agent peer system_info_call m operation_digest (RSystemInfo info)))).

Definition run_operation_frame (d : Dispatcher) (request : Request) (agent : AgentContext)
    (peer : PeerCredentials) : Frame :=
  match rq_op request with
  | OpSystemInfo => system_info_frame d request agent peer
  | OpConfigPropose =>
      execute_frame d request agent peer config_propose_call
        (mkProjection _ config_propose_params config_propose_params_to_value SkConfigProposeRequest)
        (fun digest params => RqPropose (ag_agent_id agent) (digest_fmt digest) params)
  | OpTxTest =>
      execute_frame d request agent peer tx_test_call
        (mkProjection _ tx_test_params tx_test_params_to_value SkTxTestRequest)
        (fun digest params => RqTest (ag_agent_id agent) (digest_fmt digest) (tp_tx_id params))
  | OpTxApply =>
      execute_frame d request agent peer tx_apply_call
        (mkProjection _ tx_apply_params tx_apply_params_to_value SkTxApplyRequest)
        (fun digest params => RqApply (ag_agent_id agent) (digest_fmt digest) params)
  | OpTxRollback =>
      contract_only_frame d request agent peer tx_rollback_call
        (mkProjection _ tx_rollback_params tx_rollback_params_to_value SkTxRollbackRequest)
  | OpTxStatus =>
      execute_frame d request agent peer tx_status_call
        (mkProjection _ tx_status_params tx_status_params_to_value SkTxStatusRequest)
        (fun _ params => RqStatus (sp_tx_id params))
  | OpEventsReplay =>
      execute_frame d request agent peer events_replay_call
        (mkProjection _ events_replay_params events_replay_params_to_value SkEventsReplayRequest)
        (fun _ params => RqReplay (ep_cursor params))
  end.

Definition request_frame (d : Dispatcher) (request : Request) (peer : PeerCredentials) : Frame :=
  if negb (operation_allowed request) then
    finish (
      record (rejected peer InvalidRequest "operation_not_allowed_for_protocol_version");;
      mret (response_failed (Some (rq_id request)) (rq_v request) (response_error_new InvalidRequest)))
  else
    FAct (ask clock) (fun now =>
    match resolve now (dp_tokens d) (au_token (rq_auth request)) with
    | Err _ =>
        finish (
          record {| ob_request_id := Some (rq_id request); ob_agent_id := None; ob_peer := peer;
                    ob_op := Some (op_as_str (rq_op request)); ob_effect_set := [];
                    ob_manifest_digest := None; ob_operation_digest := None; ob_allowed := false;
                    ob_stage := None; ob_error := Some Unauthenticated;
                    ob_reason := "token_not_resolved" |};;
          mret (response_failed (Some (rq_id request)) (rq_v request)
                  (response_error_new Unauthenticated)))
    | Ok agent =>
        if negb (rq_op_version request =? VERSION)
        then finish (unsupported_operation_version request agent peer (op_as_str (rq_op request)))
        else run_operation_frame d request agent peer
    end).

(** The whole frame, from its bytes. *)
Definition frame_program (d : Dispatcher) (body : list byte) (peer : PeerCredentials) : Frame :=
  FAct (parse body peer) (fun parsed =>
  match parsed with
  | None => FReply (response_failed None PROTOCOL_VERSION_V1 (response_error_new InvalidRequest))
  | Some request => request_frame d request peer
  end).

(** ** A frame without the others *)

Fixpoint frame_alone (p : Frame) : Handler Response := fun s =>
  match p with
  | FReply response => (Ret response, s)
  | FAct m k =>
      match m s with
      | (Ret a, s') => frame_alone (k a) s'
      | (Throw e, s') => match e with end
      | (Panic, s') => (Panic, s')
      end
  | FCall c k =>
      let '(o, e) := engine_request c (bk_engine s) in
      frame_alone (k o) (set_engine e s)
  | FPanic => (Panic, s)
  end.

(** ** Many of them *)

(** [FCalling j k]: the frame waits for the engine's thread [j]. *)
Inductive FrameStage :=
  | FRunning (p : Frame) (lo : Local)
  | FCalling (j : nat) (k : Answer -> Frame)
  | FAnswered (response : Response)
  | FPanicked.

(** [fp_callers] says of each thread of the engine which frame it is for. *)
Record FramePool := mkFramePool {
  fp_pool : Pool;
  fp_quotas : QuotaLedger;
  fp_observations : list CallObservation;
  fp_callers : list nat;
  fp_frames : list FrameStage;
}.

Definition broker_view (fp : FramePool) (lo : Local) : BrokerW :=
  mkBroker (view (pl_shared (fp_pool fp)) lo) (fp_quotas fp) (fp_observations fp).

Definition set_shared (sh : Shared) (pl : Pool) : Pool :=
  mkPool sh (pl_holder pl) (pl_order pl) (pl_threads pl).
Definition set_frames (frames : list FrameStage) (fp : FramePool) : FramePool :=
  mkFramePool (fp_pool fp) (fp_quotas fp) (fp_observations fp) (fp_callers fp) frames.

(** A call arrives at the engine. *)
Definition arrive (c : Caller) (pl : Pool) : Pool :=
  mkPool (pl_shared pl) (pl_holder pl) (pl_order pl) (pl_threads pl ++ [mkThread c Waiting]).

(** What frame [i] does next, if it can. *)
Definition frame_step (i : nat) (fp : FramePool) : option FramePool :=
  st ← fp_frames fp !! i;
  let set st := <[i := st]> (fp_frames fp) in
  match st with
  | FRunning (FReply response) _ => Some (set_frames (set (FAnswered response)) fp)
  | FRunning (FAct m k) lo =>
      let '(o, s) := m (broker_view fp lo) in
      let lo := local_of (bk_engine s) in
      Some (mkFramePool (set_shared (shared_of (bk_engine s)) (fp_pool fp)) (bk_quotas s)
              (bk_observations s) (fp_callers fp)
              (set (match o with
                    | Ret a => FRunning (k a) lo
                    | Throw e => match e with end
                    | Panic => FPanicked
                    end)))
  | FRunning (FCall c k) lo =>
      Some (mkFramePool (arrive (mkCaller c lo) (fp_pool fp)) (fp_quotas fp) (fp_observations fp)
              (fp_callers fp ++ [i]) (set (FCalling (length (pl_threads (fp_pool fp))) k)))
  | FRunning FPanic _ => Some (set_frames (set FPanicked) fp)
  | FCalling j k =>
      th ← pl_threads (fp_pool fp) !! j;
      match th_stage th with
      | Returned _ o lo => Some (set_frames (set (FRunning (k o) lo)) fp)
      | _ => None
      end
  | FAnswered _ | FPanicked => None
  end.

(** A thread of the engine takes a turn. *)
Definition call_step (j : nat) (fp : FramePool) : option FramePool :=
  pl ← pool_step j (fp_pool fp);
  Some (mkFramePool pl (fp_quotas fp) (fp_observations fp) (fp_callers fp) (fp_frames fp)).

Inductive Turn := TFrame (i : nat) | TCall (j : nat).

Definition turn_step (t : Turn) (fp : FramePool) : option FramePool :=
  match t with TFrame i => frame_step i fp | TCall j => call_step j fp end.

Definition frame_turn (fp : FramePool) (t : Turn) : FramePool := default fp (turn_step t fp).
Definition frames_run (turns : list Turn) (fp : FramePool) : FramePool :=
  fold_left frame_turn turns fp.

(** Frames that arrived: their bytes, their peers and their places in the
    environment's answers. *)
Record Arrival := mkArrival {
  ar_body : list byte;
  ar_peer : PeerCredentials;
  ar_tick : nat;
}.

Definition frames_start (d : Dispatcher) (sh : Shared) (quotas : QuotaLedger)
    (arrivals : list Arrival) : FramePool :=
  mkFramePool (pool_start sh []) quotas [] []
    ((fun a => FRunning (frame_program d (ar_body a) (ar_peer a)) (mkLocal (ar_tick a) [])) <$> arrivals).

Definition frame_ended (st : FrameStage) : bool :=
  match st with FAnswered _ | FPanicked => true | _ => false end.
Definition all_ended (fp : FramePool) : bool := forallb frame_ended (fp_frames fp).
End Frames.
