(* ===== verification/FramesFacts.v ===== *)
(** * Frames as programs: the facts

    A frame alone is [handle_frame].  Whatever happens around it, what it does
    by itself leaves the engine and the files as they are; it calls the engine
    at most once, for a request that was cleared; and then it answers what
    the engine answered. *)

From S2P Require Import Prelude RustStd Json TxTypes TxStorage TxEngine Steps EngineSteps.
From S2P Require Import Concurrent Wire Jcs Policy PolicyTheorems Quota Dispatch DispatchFacts.
From S2P Require Import DispatchTheorems StepsCalm Frames.

Lemma bind_ext {S E A B} (m : M S E A) (f g : A -> M S E B) s :
  (forall a s', f a s' = g a s') -> (m ≫= f) s = (m ≫= g) s.
Proof. intros Hfg. unfold mbind, M_bind. destruct (m s) as [[a|e|] s']; [apply Hfg|done|done]. Qed.

Section Alone.
Context `{JsonNumberFrom, !JsonFloat, !JsonDocument, !Sha256Hash, !WireSerde, !ManifestCodec,
          !BrokerCodec, !IoEnv, !HostAdapter, !HostReport, !Clock}.

Lemma alone_act {A} (m : Handler A) k s :
  frame_alone (FAct m k) s = (a ← m; frame_alone (k a)) s.
Proof. cbn [frame_alone]. unfold mbind, M_bind. by destruct (m s) as [[a|[]|] s']. Qed.

Lemma alone_finish m s : frame_alone (finish m) s = m s.
Proof. unfold finish. cbn [frame_alone]. by destruct (m s) as [[a|[]|] s']. Qed.

Lemma alone_judge {P} d request agent peer call v (pj : Projection P) allowed allowed' s :
  (forall m digest s, frame_alone (allowed m digest) s = allowed' m digest s) ->
  frame_alone (judge_frame d request agent peer call v pj allowed) s =
  judge d request agent peer call v pj allowed' s.
Proof.
  intros Hallowed. unfold judge_frame, judge.
  destruct (project_and_digest_with _ _ _ _ _ _) as [digest|[error reason]]; [|apply alone_finish].
  rewrite alone_act. apply bind_ext. intros [m|e] s1; [|apply alone_finish].
  unfold decide_call. cbn [frame_alone]. unfold mbind at 1 2, M_bind at 1 2.
  destruct (ask hr_safety_vector s1) as [[host|[]|] s2]; [|done].
  destruct (evaluate _ _ _ s2) as [[[|code stage reason]|[]|] s3]; [apply Hallowed|apply alone_finish|done].
Qed.

Lemma alone_execute {P} d request agent peer call (pj : Projection P) asked execute s :
  (forall digest typed e,
    match execute digest typed e with
    | (Ret r, e') => exists reply, engine_request (asked digest typed) e = (Ret reply, e') /\
                                   reply_result (rq_op request) reply = Some r
    | (Throw err, e') => engine_request (asked digest typed) e = (Throw err, e')
    | (Panic, e') => engine_request (asked digest typed) e = (Panic, e')
    end) ->
  frame_alone (execute_frame d request agent peer call pj asked) s =
  execute_v2 d request agent peer call pj execute s.
Proof.
  intros Hex. unfold execute_frame, execute_v2.
  destruct (pj_project _ pj (rq_params request)) as [typed|]; [|apply alone_finish].
  apply alone_judge. intros m digest s1. cbn [frame_alone].
  unfold mbind, M_bind, attempt, with_engine, zoom.
  specialize (Hex (mf_digest m) typed (bk_engine s1)).
  destruct (execute (mf_digest m) typed (bk_engine s1)) as [[r|err|] e'].
  - destruct Hex as (reply & -> & Hr). cbn [after_call]. rewrite Hr. apply alone_finish.
  - rewrite Hex. apply alone_finish.
  - by rewrite Hex.
Qed.

Lemma alone_run_operation d request agent peer s :
  frame_alone (run_operation_frame d request agent peer) s = run_operation d request agent peer s.
Proof.
  unfold run_operation_frame, run_operation. destruct (rq_op request) eqn:Hop.
  - apply alone_judge. intros m digest s1. rewrite alone_act. apply bind_ext. intros info s2.
    apply alone_finish.
  - apply alone_execute. intros digest typed e. rewrite Hop. cbn [engine_request].
    unfold propose_step, mbind, M_bind. destruct (TxEngine.config_propose _ _ _ e) as [[o|err|] e']; [|done..].
    by eexists.
  - apply alone_execute. intros digest typed e. rewrite Hop. cbn [engine_request].
    unfold test_step, mbind, M_bind. destruct (TxEngine.tx_test _ _ _ e) as [[o|err|] e']; [|done..].
    by eexists.
  - apply alone_execute. intros digest typed e. rewrite Hop. cbn [engine_request].
    unfold apply_step, mbind, M_bind. destruct (TxEngine.tx_apply _ _ _ e) as [[o|err|] e']; [|done..].
    by eexists.
  - apply alone_judge. intros m digest s1. apply alone_finish.
  - apply alone_execute. intros digest typed e. rewrite Hop. cbn [engine_request].
    unfold status_step, mbind, M_bind. destruct (TxEngine.tx_status _ e) as [[o|err|] e']; [|done..].
    by eexists.
  - apply alone_execute. intros digest typed e. rewrite Hop. cbn [engine_request].
    unfold replay_step, mbind, M_bind.
    destruct (TxEngine.events_replay _ e) as [[[[id evs] cur]|err|] e']; [|done..].
    by eexists.
Qed.

Lemma alone_frame d body peer s :
  frame_alone (frame_program d body peer) s = handle_frame d body peer s.
Proof.
  unfold frame_program, handle_frame. rewrite alone_act. apply bind_ext. intros [request|] s1; [|done].
  unfold request_frame, handle_request. destruct (negb (operation_allowed request)); [apply alone_finish|].
  rewrite alone_act. apply bind_ext. intros now s2.
  destruct (resolve _ _ _) as [agent|]; [|apply alone_finish].
  destruct (negb _); [apply alone_finish|]. apply alone_run_operation.
Qed.
End Alone.

(** ** What a frame's program does *)

(** Nothing of what the engine's threads share. *)
Definition keeps_shared {A} (m : M BrokerW Never A) : Prop :=
  forall s, shared_of (bk_engine (snd (m s))) = shared_of (bk_engine s).

(** From here on the frame only answers, and this. *)
Fixpoint tells (p : Frame) (response : Response) : Prop :=
  match p with
  | FReply r => r = response
  | FAct m k => keeps_shared m /\ calm m /\ forall s a s', m s = (Ret a, s') -> tells (k a) response
  | FCall _ _ | FPanic => False
  end.

(** The engine's answer as the handlers take it. *)
Definition answer_result (op : OpName) (o : Answer) : option (result EngineError OperationResult) :=
  match o with
  | Ret reply => Ok <$> reply_result op reply
  | Throw err => Some (Err err)
  | Panic => None
  end.

Section Programs.
Context `{JsonNumberFrom, !JsonFloat, !JsonDocument, !Sha256Hash, !WireSerde, !ManifestCodec,
          !BrokerCodec, !IoEnv, !HostAdapter, !HostReport, !Clock}.

(** What the engine is asked for a request. *)
Definition engine_call (request : Request) (agent : AgentContext) (digest : Digest) :
    option EngineRequest :=
  let id := ag_agent_id agent in
  match rq_op request with
  | OpSystemInfo | OpTxRollback => None
  | OpConfigPropose => RqPropose id (digest_fmt digest) <$> config_propose_params (rq_params request)
  | OpTxTest => (fun p => RqTest id (digest_fmt digest) (tp_tx_id p)) <$> tx_test_params (rq_params request)
  | OpTxApply => RqApply id (digest_fmt digest) <$> tx_apply_params (rq_params request)
  | OpTxStatus => (fun p => RqStatus (sp_tx_id p)) <$> tx_status_params (rq_params request)
  | OpEventsReplay => (fun p => RqReplay (ep_cursor p)) <$> events_replay_params (rq_params request)
  end.

(** The reply to what a request asks is one its handler takes. *)
Lemma reply_fits request agent digest c o :
  engine_call request agent digest = Some c -> replies c o ->
  exists r, answer_result (rq_op request) o = Some r.
Proof.
  unfold engine_call, answer_result. destruct o as [reply|err|]; [|by eexists|done].
  destruct (rq_op request); try done;
    match goal with |- context [_ <$> ?p] => destruct p end; try done;
    intros [= <-]; destruct reply; try done; by eexists.
Qed.

Section Seen.
(** The states the frame's own steps find: the shared part and the ledger;
    and what its steps make of the ledger. *)
Context (seen : Shared -> QuotaLedger -> Prop) (charged : QuotaLedger -> QuotaLedger -> Prop).
Context (d : Dispatcher).

(** Everything that holds of a call of the engine.  The manifest was read at a
    moment of the run, and a step of the frame took the ledger from one state
    to the next by counting this call. *)
Record cleared (body : list byte) (request : Request) (agent : AgentContext) (m : AgentManifest)
    (digest : Digest) (c : EngineRequest) : Prop := {
  cl_parsed : parsed_request body = Some request;
  cl_legal : operation_allowed request = true;
  cl_version : rq_op_version request = VERSION;
  cl_agent : exists now, resolve now (dp_tokens d) (au_token (rq_auth request)) = Ok agent;
  cl_digest : request_digest request = Ok digest;
  cl_manifest : exists sh quotas w w', seen sh quotas /\ w_fs w = sh_fs sh /\
    manifest_load (C:=TxCall) (dp_manifests d) (ag_manifest_ref agent) w = (Ret m, w');
  cl_stages : exists n, passes_first_four (call_of (rq_op request)) m (hr_safety_vector n);
  cl_budget : exists quotas quotas' now, charged quotas quotas' /\
    quota_try_admit now (ag_agent_id agent) (calls_per_day m) quotas = (true, quotas');
  cl_call : engine_call request agent (mf_digest m) = Some c;
}.

(** A program that has been told the engine's answer. *)
Definition told (p : Frame) (request : Request) (agent : AgentContext) (m : AgentManifest)
    (digest : Digest) (o : Answer) : Prop :=
  match answer_result (rq_op request) o with
  | Some r => tells p (response_for request agent m digest r)
  | None => p = FPanic
  end.

(** Up to its call, if it makes one. *)
Fixpoint lawful (body : list byte) (p : Frame) : Prop :=
  match p with
  | FReply _ => True
  | FPanic => False
  | FAct m k =>
      keeps_shared m /\ calm m /\
      forall s a s', seen (shared_of (bk_engine s)) (bk_quotas s) ->
                     charged (bk_quotas s) (bk_quotas s') -> m s = (Ret a, s') -> lawful body (k a)
  | FCall c k =>
      exists request agent m digest, cleared body request agent m digest c /\
        forall o, told (k o) request agent m digest o
  end.

(** ** The steps of a frame leave the engine alone *)

Lemma keeps_shared_same {A} (m : Handler A) :
  (forall s, wp m (fun _ s' => same_engine s s') s) -> keeps_shared m.
Proof.
  intros Hm s. destruct (Hm s) as (He & Hfs & _). unfold shared_of. by rewrite He, Hfs.
Qed.

Lemma keeps_record_reply obs (response : Response) :
  keeps_shared (record obs;; mret (M:=Handler) response).
Proof. by intros s. Qed.

Lemma keeps_ask {A} (f : nat -> A) : keeps_shared (ask f).
Proof. by intros s. Qed.

Lemma keeps_evaluate agent call m host :
  keeps_shared (@evaluate _ _ _ (agent_admission (ag_agent_id agent)) call m host).
Proof.
  apply keeps_shared_same. intros s.
  destruct (@evaluate_cases _ BrokerW Never (agent_admission (ag_agent_id agent)) call m host)
    as [[Hp ->]|(code & stage & reason & Hq & Hstop & ->)]; [|done].
  unfold stage_five, try_admit, agent_admission.
  rewrite wp_bind, wp_bind, wp_ask, wp_bind, wp_gets.
  destruct (quota_try_admit _ _ _ _) as [admitted q]. by rewrite wp_bind, wp_modify, !wp_ret.
Qed.

Lemma keeps_load store ref : keeps_shared (attempt (F:=Never) (with_world (manifest_load store ref))).
Proof. apply keeps_shared_same. intros s. apply wp_load. by intros r s1 Hs. Qed.

Lemma keeps_parse body peer : keeps_shared (parse body peer).
Proof.
  intros s. unfold parse. destruct (strict_parse body) as [value|]; [|done].
  destruct (request_from_value value) as [request|]; [|done].
  by destruct (negb (version_supported request)).
Qed.

Lemma keeps_system_info : keeps_shared system_info_execute.
Proof. by intros s. Qed.

Lemma keeps_refuse request agent peer error reason digest call :
  keeps_shared (refuse request agent peer error reason digest call).
Proof. by intros s. Qed.

Lemma keeps_ladder request agent peer call m digest code stage reason :
  keeps_shared (refused_by_ladder request agent peer call m digest code stage reason).
Proof. by intros s. Qed.

Lemma keeps_authorized request agent peer call m digest r :
  keeps_shared (authorized request agent peer call m digest r).
Proof. by intros s. Qed.

Lemma keeps_unsupported request agent peer op :
  keeps_shared (unsupported_operation_version request agent peer op).
Proof. by intros s. Qed.

Lemma lawful_finish body m : keeps_shared m -> calm m -> lawful body (finish m).
Proof. by intros Hm Hc. Qed.

(** None of them panics. *)
Lemma calm_ask {A} (f : nat -> A) : calm (ask f).
Proof. done. Qed.
Lemma calm_record_reply obs (response : Response) : calm (record obs;; mret (M:=Handler) response).
Proof. done. Qed.
Lemma calm_refuse request agent peer error reason digest call :
  calm (refuse request agent peer error reason digest call).
Proof. done. Qed.
Lemma calm_authorized request agent peer call m digest r :
  calm (authorized request agent peer call m digest r).
Proof. done. Qed.
Lemma calm_failure request agent peer call m digest err :
  calm (engine_failure request agent peer call m digest err).
Proof. intros s. unfold engine_failure. by destruct (engine_failure_of err) as [[code stage] reason]. Qed.
Lemma calm_evaluate agent call m host :
  calm (@evaluate _ _ _ (agent_admission (ag_agent_id agent)) call m host).
Proof.
  intros s. destruct (@evaluate_cases _ BrokerW Never (agent_admission (ag_agent_id agent)) call m host)
    as [[Hp ->]|(code & stage & reason & Hq & Hstop & ->)]; [|done].
  unfold stage_five, try_admit, agent_admission, mbind, M_bind. cbn.
  by destruct (quota_try_admit _ _ _ _) as [[] q].
Qed.
Lemma calm_load store ref : calm (attempt (F:=Never) (with_world (manifest_load store ref))).
Proof.
  intros s. assert (Hwp : wp (attempt (F:=Never) (with_world (manifest_load store ref)))
    (fun o _ => o <> Panic) s) by (by apply wp_load). exact Hwp.
Qed.
Lemma calm_parse body peer : calm (parse body peer).
Proof.
  intros s. unfold parse. destruct (strict_parse body) as [value|]; [|done].
  destruct (request_from_value value) as [request|]; [|done].
  by destruct (negb (version_supported request)).
Qed.

(** ** Up to the call *)

(** What the ladder says of a call it allows. *)
Lemma evaluate_clears agent call m host s s' :
  @evaluate _ _ _ (agent_admission (ag_agent_id agent)) call m host s = (Ret Allow, s') ->
  passes_first_four call m host /\
  exists now,
    quota_try_admit now (ag_agent_id agent) (calls_per_day m) (bk_quotas s) = (true, bk_quotas s').
Proof.
  destruct (@evaluate_cases _ BrokerW Never (agent_admission (ag_agent_id agent)) call m host)
    as [[Hp ->]|(code & stage & reason & Hq & Hstop & ->)]; [|done].
  unfold stage_five, try_admit, agent_admission, mbind, M_bind. cbn.
  destruct (quota_try_admit _ _ _ _) as [admitted q] eqn:Hadm. cbn.
  destruct admitted; [|done]. intros [= <-]. split; [exact Hp|]. by exists (clock (w_tick (ew_world (bk_engine s)))).
Qed.

Lemma lawful_judge {P} body request agent peer call v (pj : Projection P) allowed :
  (forall m digest sh quotas w w' host quotas2 quotas2' now,
    project_and_digest_with (rq_v request) (cd_op call) v (pj_schema _ pj) (pj_to_value _ pj)
      (pj_project _ pj (rq_params request)) = Ok digest ->
    seen sh quotas -> w_fs w = sh_fs sh ->
    manifest_load (C:=TxCall) (dp_manifests d) (ag_manifest_ref agent) w = (Ret m, w') ->
    (exists n, host = hr_safety_vector n) -> passes_first_four call m host ->
    charged quotas2 quotas2' ->
    quota_try_admit now (ag_agent_id agent) (calls_per_day m) quotas2 = (true, quotas2') ->
    lawful body (allowed m digest)) ->
  lawful body (judge_frame d request agent peer call v pj allowed).
Proof.
  intros Hallowed. unfold judge_frame.
  destruct (project_and_digest_with _ _ _ _ _ _) as [digest|[error reason]];
    [|by apply lawful_finish; [apply keeps_refuse|]].
  split; [apply keeps_load|]. split; [apply calm_load|]. intros s loaded s1 Hseen _ Hload.
  destruct loaded as [m|e]; [|by apply lawful_finish; [apply keeps_refuse|]].
  assert (Hm : exists w', manifest_load (C:=TxCall) (dp_manifests d) (ag_manifest_ref agent)
                            (ew_world (bk_engine s)) = (Ret m, w')).
  { unfold attempt, with_world, with_engine, on_disk, zoom in Hload.
    destruct (manifest_load _ _ (ew_world (bk_engine s))) as [[m'|e|] w']; cbn in Hload; simplify_eq.
    by exists w'. }
  destruct Hm as [w' Hm].
  split; [apply keeps_ask|]. split; [apply calm_ask|]. intros s2 host s3 _ _ Hask.
  split; [apply keeps_evaluate|]. split; [apply calm_evaluate|]. intros s4 decision s5 _ Hcharged Hdec.
  destruct decision as [|code stage reason]; [|by apply lawful_finish; [apply keeps_ladder|]].
  apply evaluate_clears in Hdec as (Hp & now & Hadm).
  apply (Hallowed m digest (shared_of (bk_engine s)) (bk_quotas s) (ew_world (bk_engine s)) w' host
           (bk_quotas s4) (bk_quotas s5) now); try done.
  injection Hask as <- _. by eexists.
Qed.

(** After the call *)
Lemma told_after_call request agent peer m digest o :
  told (after_call request agent peer (call_of (rq_op request)) m digest o) request agent m digest o.
Proof.
  unfold told, answer_result, after_call. destruct o as [reply|err|]; [|split; [|split]|done].
  - destruct (reply_result (rq_op request) reply) as [r|]; [|done]. split; [apply keeps_authorized|]. split; [apply calm_authorized|].
    intros s a s' Hrun. by injection Hrun as <- _.
  - intros s. unfold engine_failure. by destruct (engine_failure_of err) as [[code stage] reason].
  - apply calm_failure.
  - intros s a s' Hrun. unfold engine_failure in Hrun. unfold response_for.
    destruct (engine_failure_of err) as [[code stage] reason]. by injection Hrun as <- _.
Qed.

Lemma lawful_execute {P} body request agent peer (pj : Projection P) asked :
  parsed_request body = Some request -> operation_allowed request = true ->
  rq_op_version request = VERSION ->
  (exists now, resolve now (dp_tokens d) (au_token (rq_auth request)) = Ok agent) ->
  request_digest request =
    project_and_digest_with (rq_v request) (op_as_str (rq_op request)) VERSION (pj_schema _ pj)
      (pj_to_value _ pj) (pj_project _ pj (rq_params request)) ->
  (forall digest, engine_call request agent digest = asked digest <$> pj_project _ pj (rq_params request)) ->
  lawful body (execute_frame d request agent peer (call_of (rq_op request)) pj asked).
Proof.
  intros Hparsed Hlegal Hversion Hagent Hdigest Hcall. unfold execute_frame.
  destruct (pj_project _ pj (rq_params request)) as [typed|] eqn:Hproj;
    [|by apply lawful_finish; [apply keeps_refuse|]].
  apply lawful_judge. intros m digest sh quotas w w' host quotas2 quotas2' now Hd Hseen Hfs Hload
    [n ->] Hp Hcharged Hadm.
  exists request, agent, m, digest. split; [|intros o; apply told_after_call].
  split; try done.
  - by rewrite Hdigest, <-Hd, Hproj, Hversion, call_of_named.
  - by exists sh, quotas, w, w'.
  - by exists n.
  - by exists quotas2, quotas2', now.
Qed.

Lemma lawful_run_operation body request agent peer :
  parsed_request body = Some request -> operation_allowed request = true ->
  rq_op_version request = VERSION ->
  (exists now, resolve now (dp_tokens d) (au_token (rq_auth request)) = Ok agent) ->
  lawful body (run_operation_frame d request agent peer).
Proof.
  intros Hparsed Hlegal Hversion Hagent. unfold run_operation_frame.
  assert (Hex : forall P (pj : Projection P) asked,
    request_digest request =
      project_and_digest_with (rq_v request) (op_as_str (rq_op request)) VERSION (pj_schema _ pj)
        (pj_to_value _ pj) (pj_project _ pj (rq_params request)) ->
    (forall digest, engine_call request agent digest = asked digest <$> pj_project _ pj (rq_params request)) ->
    lawful body (execute_frame d request agent peer (call_of (rq_op request)) pj asked)).
  { intros. by apply lawful_execute. }
  destruct (rq_op request) eqn:Hop; cbn [call_of] in Hex;
    try (apply Hex; unfold request_digest, engine_call; rewrite Hop; done).
  - apply lawful_judge. intros. split; [apply keeps_system_info|]. split; [done|]. intros.
    by apply lawful_finish; [apply keeps_authorized|].
  - apply lawful_judge. intros. by apply lawful_finish; [apply keeps_record_reply|].
Qed.

Lemma lawful_frame body peer : lawful body (frame_program d body peer).
Proof.
  split; [apply keeps_parse|]. split; [apply calm_parse|]. intros s parsed s1 _ _ Hrun.
  destruct parsed as [request|]; [|done].
  assert (Hparsed : parsed_request body = Some request).
  { unfold parse, record, mbind, M_bind, modify in Hrun. unfold parsed_request.
    destruct (strict_parse body) as [value|]; [|done].
    destruct (request_from_value value) as [r|]; [|done].
    destruct (version_supported r); cbn in Hrun; [|done]. by injection Hrun as <- _. }
  unfold request_frame. destruct (operation_allowed request) eqn:Hlegal; cbn [negb];
    [|by apply lawful_finish; [apply keeps_record_reply|]].
  split; [apply keeps_ask|]. split; [apply calm_ask|]. intros s2 now s3 _ _ Hask.
  destruct (resolve now _ _) as [agent|e] eqn:Hagent; [|by apply lawful_finish; [apply keeps_record_reply|]].
  destruct (rq_op_version request =? VERSION) eqn:Hv; cbn [negb];
    [|by apply lawful_finish; [apply keeps_unsupported|]].
  apply lawful_run_operation; [done|done|by apply Z.eqb_eq|by exists now].
Qed.
End Seen.
End Programs.
