(* ===== verification/FramesTheorems.v ===== *)
(** * Concurrent frames: the theorems

    Any number of frames at once: each reaches the engine at most once and
    only for a call that was cleared, the writers are serialised, and an agent
    is told what its own call was answered. *)

From S2P Require Import Prelude RustStd Json TxTypes TxStorage TxEngine Steps EngineSteps.
From S2P Require Import Concurrent ConcurrentFacts ConcurrentTheorems Wire Jcs Policy Quota Dispatch.
From S2P Require Import DispatchFacts DispatchTheorems StepsCalm Frames FramesFacts.

Lemma elem_of_taken {A} (x : A) k l : x ∈ take k l -> x ∈ l.
Proof. intros Hx. apply elem_of_take in Hx as (n & Hn & _). by eapply list_elem_of_lookup_2. Qed.

(** ** Calls that arrive *)

Section Arrive.
Context `{JsonNumber} `{!BrokerCodec} `{!IoEnv} `{!HostAdapter}.

Lemma callers_at_more cs c ids :
  (forall i, i ∈ ids -> is_Some (cs !! i)) -> callers_at (cs ++ [c]) ids = callers_at cs ids.
Proof.
  intros Hin. induction ids as [|i ids IH]; [done|]. unfold callers_at in *. cbn.
  rewrite lookup_app_l by (apply lookup_lt_is_Some, Hin; left).
  rewrite IH; [done|]. intros j Hj. apply Hin. by right.
Qed.

(** One more thread that has not begun changes nothing for the others. *)
Lemma coherent_arrive sh0 cs c pl :
  coherent sh0 cs pl -> coherent sh0 (cs ++ [c]) (arrive c pl).
Proof.
  intros Hco.
  assert (Hvalid : forall i, i ∈ committed pl -> is_Some (cs !! i)).
  { intros i Hi. destruct (co_writers _ _ pl Hco i Hi) as (c' & Hc & _). by exists c'. }
  assert (Hupto : forall ids, (forall i, i ∈ ids -> i ∈ committed pl) ->
    upto sh0 (cs ++ [c]) ids = upto sh0 cs ids).
  { intros ids Hids. unfold upto. rewrite callers_at_more; [done|]. auto. }
  assert (Htake : forall k, upto sh0 (cs ++ [c]) (take k (committed pl)) = upto sh0 cs (take k (committed pl))).
  { intros k. apply Hupto. intros i Hi. by eapply elem_of_taken. }
  assert (Hall : upto sh0 (cs ++ [c]) (committed pl) = upto sh0 cs (committed pl)) by by apply Hupto.
  assert (Horder : upto sh0 (cs ++ [c]) (pl_order pl) = upto sh0 cs (pl_order pl)).
  { apply Hupto. intros i Hi. unfold committed. apply elem_of_app. by left. }
  assert (Hans : forall c1 since o, answered sh0 cs pl c1 since o -> answered sh0 (cs ++ [c]) (arrive c pl) c1 since o).
  { intros c1 since o Ha. unfold answered in *. change (committed (arrive c pl)) with (committed pl).
    rewrite Hall. destruct Ha as [?|(k & Hk & ->)]; [by left|right]. exists k. by rewrite Htake. }
  split.
  - unfold callers, arrive. cbn. rewrite fmap_app. cbn. by rewrite <-(co_callers _ _ pl Hco).
  - apply (co_nodup _ _ pl Hco).
  - intros i Hi. destruct (co_writers _ _ pl Hco i Hi) as (c' & Hc & Hw). exists c'.
    split; [by apply lookup_app_l_Some|done].
  - pose proof (co_holder _ _ pl Hco) as Hh. unfold holder_ok in *. cbn [arrive pl_holder pl_shared pl_order].
    rewrite Horder. destruct (pl_holder pl) as [i|]; [|done].
    destruct Hh as (c' & since & p & lo & Hi & Hrest). exists c', since, p, lo.
    split; [by apply lookup_app_l_Some|done].
  - intros j th Hj. cbn [arrive pl_threads] in Hj. apply lookup_app_Some in Hj as [Hj|[Hlen Hj]].
    + pose proof (co_threads _ _ pl Hco j th Hj) as Hok. unfold thread_ok in *.
      destruct (th_stage th) as [|since p lo|since o lo]; [done| |].
      * destruct Hok as [Hs Hp]. split; [done|]. destruct (takes_lock _); [done|].
        destruct Hp as [Hq Hst]. split; [done|]. intros tx Htx.
        destruct (Hst tx Htx) as [?|[?|(o & Ho & Ha)]]; [by left|by right; left|].
        right; right. exists o. auto.
      * destruct (takes_lock _).
        -- destruct Hok as (k & Hk & ->). exists k. split; [done|]. cbn [arrive pl_order].
           rewrite Hupto; [done|]. intros i Hi. unfold committed. apply elem_of_app. left.
           by eapply elem_of_taken.
        -- intros tx Htx. apply Hans, (Hok tx Htx).
    + destruct (j - length (pl_threads pl))%nat as [|n] eqn:Hn; [|done]. injection Hj as <-.
      unfold thread_ok. cbn. intros Hin. apply Hvalid, lookup_lt_is_Some in Hin.
      rewrite <-(co_callers _ _ pl Hco) in Hin. unfold callers in Hin. rewrite length_fmap in Hin. lia.
Qed.
End Arrive.

Section Frames.
Context `{JsonNumberFrom, !JsonFloat, !JsonDocument, !Sha256Hash, !WireSerde, !ManifestCodec,
          !BrokerCodec, !IoEnv, !HostAdapter, !HostReport, !Clock}.

(** ** The invariant of every run *)

Section Invariant.
Context (d : Dispatcher) (sh0 : Shared) (quotas0 : QuotaLedger) (arrivals : list Arrival).
(** The shared part and the ledger at the moments of the run, and what the
    turns of each frame make of the ledger. *)
Context (seen : Shared -> QuotaLedger -> Prop).
Context (charged : nat -> QuotaLedger -> QuotaLedger -> Prop).

Abbreviation cleared i := (cleared seen (charged i) d).
Abbreviation lawful i := (lawful seen (charged i) d).

(** A frame that made no call yet. *)
Definition uncalled (i : nat) (body : list byte) (st : FrameStage) : Prop :=
  match st with
  | FRunning p _ => lawful i body p
  | FAnswered _ => True
  | FCalling _ _ | FPanicked => False
  end.

(** A frame that called the engine, by the stage of the thread that runs for it. *)
Definition called (j : nat) (th : Stage) (request : Wire.Request) (agent : AgentContext)
    (m : AgentManifest) (digest : Digest) (st : FrameStage) : Prop :=
  match st with
  | FRunning p _ => exists since o lo r, th = Returned since o lo /\
      answer_result (rq_op request) o = Some r /\ tells p (response_for request agent m digest r)
  | FCalling j' k => j' = j /\ forall o, told (k o) request agent m digest o
  | FAnswered response => exists since o lo r, th = Returned since o lo /\
      answer_result (rq_op request) o = Some r /\ response = response_for request agent m digest r
  | FPanicked => False
  end.

Record frames_ok (fp : FramePool) : Prop := {
  fo_pool : coherent sh0 (callers (fp_pool fp)) (fp_pool fp);
  fo_length : length (fp_callers fp) = length (pl_threads (fp_pool fp));
  fo_nodup : NoDup (fp_callers fp);
  fo_replying : Forall replying (pl_threads (fp_pool fp));
  fo_uncalled : forall i st, fp_frames fp !! i = Some st -> i ∉ fp_callers fp ->
    exists a, arrivals !! i = Some a /\ uncalled i (ar_body a) st;
  fo_called : forall j i, fp_callers fp !! j = Some i ->
    exists a th st request agent m digest,
      arrivals !! i = Some a /\ pl_threads (fp_pool fp) !! j = Some th /\
      fp_frames fp !! i = Some st /\
      cleared i (ar_body a) request agent m digest (ca_request (th_caller th)) /\
      called j (th_stage th) request agent m digest st;
}.

Lemma frames_ok_start : frames_ok (frames_start d sh0 quotas0 arrivals).
Proof.
  split.
  - apply coherent_start.
  - done.
  - apply NoDup_nil_2.
  - constructor.
  - intros i st Hi _. cbn in Hi. rewrite list_lookup_fmap in Hi.
    apply fmap_Some in Hi as (a & Ha & ->). exists a. split; [done|]. apply lawful_frame.
  - intros j i Hj. cbn in Hj. by rewrite lookup_nil in Hj.
Qed.

(** A turn of one frame that calls nobody. *)
Lemma frames_ok_frame fp fp' i st st' :
  frames_ok fp -> fp_frames fp !! i = Some st ->
  fp_pool fp' = fp_pool fp -> fp_callers fp' = fp_callers fp ->
  fp_frames fp' = <[i := st']> (fp_frames fp) ->
  (forall a, i ∉ fp_callers fp -> uncalled i (ar_body a) st -> uncalled i (ar_body a) st') ->
  (forall j th request agent m digest body, pl_threads (fp_pool fp) !! j = Some th ->
     cleared i body request agent m digest (ca_request (th_caller th)) ->
     called j (th_stage th) request agent m digest st -> called j (th_stage th) request agent m digest st') ->
  frames_ok fp'.
Proof.
  intros Hok Hi Hp Hc Hf Hun Hca. split; rewrite ?Hp, ?Hc.
  - apply (fo_pool fp Hok).
  - apply (fo_length fp Hok).
  - apply (fo_nodup fp Hok).
  - apply (fo_replying fp Hok).
  - intros i' st1 Hi' Hn. rewrite Hf in Hi'. apply list_lookup_insert_Some in Hi' as [(-> & -> & _)|[_ Hi']].
    + destruct (fo_uncalled fp Hok i' st Hi Hn) as (a & Ha & Hu). exists a. auto.
    + by apply (fo_uncalled fp Hok).
  - intros j i' Hj. destruct (fo_called fp Hok j i' Hj) as (a & th & st1 & rq & ag & m & dg & Ha & Hth & Hst & Hcl & Hcal).
    destruct (decide (i' = i)) as [->|Hne].
    + rewrite Hi in Hst. injection Hst as <-. exists a, th, st', rq, ag, m, dg. rewrite Hf.
      split_and!; [done|done|apply list_lookup_insert_eq; by eapply lookup_lt_Some|done|by eapply Hca].
    + exists a, th, st1, rq, ag, m, dg. rewrite Hf, list_lookup_insert_ne by done. by split_and!.
Qed.

(** A frame calls the engine. *)
Lemma frames_ok_call fp i c k lo :
  frames_ok fp -> fp_frames fp !! i = Some (FRunning (FCall c k) lo) ->
  frames_ok (mkFramePool (arrive (mkCaller c lo) (fp_pool fp)) (fp_quotas fp) (fp_observations fp)
               (fp_callers fp ++ [i])
               (<[i := FCalling (length (pl_threads (fp_pool fp))) k]> (fp_frames fp))).
Proof.
  intros Hok Hi. set (n := length (pl_threads (fp_pool fp))).
  assert (Hnew : i ∉ fp_callers fp).
  { intros Hin. apply list_elem_of_lookup_1 in Hin as [j Hj].
    destruct (fo_called fp Hok j i Hj) as (a & th & st & rq & ag & m & dg & _ & _ & Hst & _ & Hcal).
    rewrite Hi in Hst. injection Hst as <-. by destruct Hcal as (since & o & lo' & r & _ & _ & Htold). }
  destruct (fo_uncalled fp Hok i _ Hi Hnew) as (a & Ha & rq & ag & m & dg & Hcl & Htold).
  split; cbn [fp_pool fp_callers fp_frames].
  - unfold callers, arrive. cbn [pl_threads]. rewrite fmap_app. cbn [fmap list_fmap th_caller].
    apply coherent_arrive, (fo_pool fp Hok).
  - unfold arrive. cbn [pl_threads]. by rewrite !length_app, (fo_length fp Hok).
  - apply NoDup_app. split_and!; [apply (fo_nodup fp Hok)| |apply NoDup_singleton].
    intros x Hx Hin. apply list_elem_of_singleton in Hin as ->. done.
  - unfold arrive. cbn. apply Forall_app. split; [apply (fo_replying fp Hok)|by repeat constructor].
  - intros i' st1 Hi' Hn. apply not_elem_of_app in Hn as [Hn Hne].
    rewrite list_lookup_insert_ne in Hi' by (intros ->; apply Hne, list_elem_of_singleton; done).
    by apply (fo_uncalled fp Hok).
  - intros j i' Hj. apply lookup_app_Some in Hj as [Hj|[Hlen Hj]].
    + destruct (fo_called fp Hok j i' Hj) as (a' & th & st1 & rq' & ag' & m' & dg' & Ha' & Hth & Hst & Hcl' & Hcal).
      exists a', th, st1, rq', ag', m', dg'. split_and!; [done| | |done|done].
      * by apply lookup_app_l_Some.
      * rewrite list_lookup_insert_ne; [done|]. intros <-. by apply list_elem_of_lookup_2, Hnew in Hj.
    + destruct (j - length (fp_callers fp))%nat as [|q] eqn:Hq; [|done]. injection Hj as <-.
      assert (Hjn : j = n) by (unfold n; rewrite <-(fo_length fp Hok); lia). subst j.
      exists a, (mkThread (mkCaller c lo) Waiting), (FCalling n k), rq, ag, m, dg. split_and!; try done.
      * unfold arrive. cbn. by apply list_lookup_middle.
      * apply list_lookup_insert_eq. by eapply lookup_lt_Some.
Qed.

(** A thread of the engine takes a turn. *)
Lemma frames_ok_turn_of_call fp j fp' :
  frames_ok fp -> call_step j fp = Some fp' -> frames_ok fp'.
Proof.
  intros Hok Hstep. unfold call_step in Hstep.
  destruct (pool_step j (fp_pool fp)) as [pl'|] eqn:Hpl; [|done]. injection Hstep as <-.
  destruct (pool_step_threads j _ _ Hpl) as (th & th' & Hth & [Hc Hn] & Ht).
  assert (Hcallers : callers pl' = callers (fp_pool fp)).
  { unfold callers. rewrite Ht, list_fmap_insert. apply list_insert_id.
    by rewrite list_lookup_fmap, Hth, Hc. }
  split; cbn [fp_pool fp_callers fp_frames].
  - rewrite Hcallers. pose proof (coherent_turn sh0 _ _ j (fo_pool fp Hok)) as Hco.
    unfold turn in Hco. by rewrite Hpl in Hco.
  - rewrite Ht, length_insert. apply (fo_length fp Hok).
  - apply (fo_nodup fp Hok).
  - eapply pool_step_replying; [done|apply (fo_replying fp Hok)].
  - apply (fo_uncalled fp Hok).
  - intros j' i Hj. destruct (fo_called fp Hok j' i Hj) as (a & th1 & st & rq & ag & m & dg & Ha & Hth1 & Hst & Hcl & Hcal).
    destruct (decide (j' = j)) as [->|Hne].
    + rewrite Hth in Hth1. injection Hth1 as <-. exists a, th', st, rq, ag, m, dg.
      rewrite Ht, Hc. split_and!; [done|apply list_lookup_insert_eq; by eapply lookup_lt_Some|done|done|].
      assert (Hno : forall since o lo, th_stage th <> Returned since o lo).
      { intros since o lo Hr. by rewrite Hr in Hn. }
      destruct st as [p lo|j1 k|response|]; cbn in Hcal |- *; [|done| |done].
      * destruct Hcal as (since & o & lo' & r & Hr & _). by apply Hno in Hr.
      * destruct Hcal as (since & o & lo' & r & Hr & _). by apply Hno in Hr.
    + exists a, th1, st, rq, ag, m, dg. rewrite Ht, list_lookup_insert_ne by done. by split_and!.
Qed.

Lemma set_shared_same pl : set_shared (pl_shared pl) pl = pl.
Proof. by destruct pl. Qed.

Lemma keeps_shared_step {A} (m : M BrokerW Never A) fp lo o s :
  keeps_shared m -> m (broker_view fp lo) = (o, s) ->
  set_shared (shared_of (bk_engine s)) (fp_pool fp) = fp_pool fp.
Proof.
  intros Hk Hrun. specialize (Hk (broker_view fp lo)). rewrite Hrun in Hk. cbn in Hk.
  rewrite Hk, shared_of_view. apply set_shared_same.
Qed.

(** A step of a frame's own keeps what the engine's threads share, and does
    not panic; and no frame panics by itself. *)
Lemma running_fine fp i p lo :
  frames_ok fp -> fp_frames fp !! i = Some (FRunning p lo) ->
  (exists body, lawful i body p) \/ exists response, tells p response.
Proof.
  intros Hok Hi. destruct (decide (i ∈ fp_callers fp)) as [Hin|Hin].
  - right. apply list_elem_of_lookup_1 in Hin as [j Hj].
    destruct (fo_called fp Hok j i Hj) as (a & th & st & rq & ag & m' & dg & _ & _ & Hst & _ & Hcal).
    rewrite Hi in Hst. injection Hst as <-. destruct Hcal as (since & o & lo' & r & _ & _ & Htold).
    by eexists.
  - left. destruct (fo_uncalled fp Hok i _ Hi Hin) as (a & _ & Hun). by exists (ar_body a).
Qed.

Lemma running_act fp i A (m : M BrokerW Never A) k lo :
  frames_ok fp -> fp_frames fp !! i = Some (FRunning (FAct m k) lo) -> keeps_shared m /\ calm m.
Proof.
  intros Hok Hi. destruct (running_fine fp i _ lo Hok Hi) as [[body Hp]|[response Hp]];
    by destruct Hp as (Hkeep & Hcalm & _).
Qed.

Lemma frames_ok_turn_of_frame fp i fp' :
  frames_ok fp -> seen (pl_shared (fp_pool fp)) (fp_quotas fp) ->
  (frame_step i fp = Some fp' -> charged i (fp_quotas fp) (fp_quotas fp')) ->
  frame_step i fp = Some fp' -> frames_ok fp'.
Proof.
  intros Hok Hseen Hcharged Hstep. specialize (Hcharged Hstep). unfold frame_step in Hstep.
  destruct (fp_frames fp !! i) as [[p lo|j k|response|]|] eqn:Hi; cbn in Hstep; try done.
  - destruct p as [response|A m k|c k|].
    + injection Hstep as <-. eapply (frames_ok_frame fp _ i); [done..|].
      intros j th rq ag m dg _ _ _ (since & o & lo' & r & Hth & Hr & Htold).
      exists since, o, lo', r. by rewrite <-Htold.
    + destruct (m (broker_view fp lo)) as [o s] eqn:Hrun. injection Hstep as <-.
      destruct (running_act fp i A m k lo Hok Hi) as [Hkeep Hcalm].
      specialize (Hcalm (broker_view fp lo)). rewrite Hrun in Hcalm. destruct o as [x|[]|]; [|done].
      pose proof (keeps_shared_step m fp lo _ s Hkeep Hrun) as Hpool.
      eapply (frames_ok_frame fp _ i); [done|done|exact Hpool|done|done| |].
      * intros a _ (_ & _ & Hun). apply (Hun (broker_view fp lo) x s); [|exact Hcharged|done].
        unfold broker_view. cbn. by rewrite shared_of_view.
      * intros j th rq ag m' dg _ _ _ (since & o' & lo' & r & Hth & Hr & (_ & _ & Htold)).
        exists since, o', lo', r. split_and!; [done|done|]. by eapply Htold.
    + injection Hstep as <-. by apply (frames_ok_call fp i c k lo).
    + by destruct (running_fine fp i _ lo Hok Hi) as [[body Hp]|[response Hp]].
  - destruct (pl_threads (fp_pool fp) !! j) as [[c st]|] eqn:Hj; [|done]. cbn in Hstep.
    destruct st as [|since p lo|since o lo]; try done. injection Hstep as <-.
    pose proof (Forall_lookup_1 _ _ _ _ (fo_replying fp Hok) Hj) as Hreply.
    assert (Hfits : forall body rq ag m dg, cleared i body rq ag m dg (ca_request c) ->
      exists r, answer_result (rq_op rq) o = Some r).
    { intros body rq ag m dg Hcl. eapply reply_fits; [apply (cl_call _ _ _ _ _ _ _ _ _ Hcl)|exact Hreply]. }
    eapply (frames_ok_frame fp _ i); [done..|].
    intros j' th rq ag m dg body Hth Hcl [-> Htold]. rewrite Hj in Hth. injection Hth as <-.
    destruct (Hfits body rq ag m dg Hcl) as [r Hr]. exists since, o, lo, r.
    specialize (Htold o). unfold told in Htold. by rewrite Hr in Htold.
Qed.

Lemma frames_ok_turn fp t :
  frames_ok fp -> seen (pl_shared (fp_pool fp)) (fp_quotas fp) ->
  (forall i, t = TFrame i -> charged i (fp_quotas fp) (fp_quotas (frame_turn fp t))) ->
  frames_ok (frame_turn fp t).
Proof.
  intros Hok Hseen Hcharged. unfold frame_turn in *.
  destruct (turn_step t fp) as [fp'|] eqn:Ht; [|done].
  destruct t as [i|j]; cbn in Ht; [|by eapply frames_ok_turn_of_call].
  eapply frames_ok_turn_of_frame; [done|done|intros _; by apply Hcharged|exact Ht].
Qed.
End Invariant.

(** The shared part and the ledger at some moment of a run. *)
Definition moment (turns : list Turn) (start : FramePool) (sh : Shared) (quotas : QuotaLedger) : Prop :=
  exists before rest, turns = before ++ rest /\
    pl_shared (fp_pool (frames_run before start)) = sh /\ fp_quotas (frames_run before start) = quotas.

(** A turn of frame [i] in a run took the ledger from [quotas] to [quotas']. *)
Definition charge (turns : list Turn) (start : FramePool) (i : nat) (quotas quotas' : QuotaLedger) : Prop :=
  exists before rest, turns = before ++ TFrame i :: rest /\
    fp_quotas (frames_run before start) = quotas /\
    fp_quotas (frames_run (before ++ [TFrame i]) start) = quotas'.

Lemma frames_run_snoc before t start :
  frames_run (before ++ [t]) start = frame_turn (frames_run before start) t.
Proof. unfold frames_run. by rewrite fold_left_app. Qed.

Lemma frames_ok_run d sh quotas arrivals turns :
  let start := frames_start d sh quotas arrivals in
  frames_ok d sh arrivals (moment turns start) (charge turns start) (frames_run turns start).
Proof.
  intros start. enough (Hpre : forall before rest, turns = before ++ rest ->
    frames_ok d sh arrivals (moment turns start) (charge turns start) (frames_run before start)).
  { apply (Hpre turns []). by rewrite app_nil_r. }
  intros before. induction before as [|t before IH] using rev_ind; intros rest Heq.
  - apply frames_ok_start.
  - rewrite <-app_assoc in Heq. rewrite frames_run_snoc.
    apply frames_ok_turn; [by eapply IH|by exists before, ([t] ++ rest)|].
    intros i ->. rewrite <-frames_run_snoc. by exists before, rest.
Qed.

(** ** Every frame comes to an end *)

(** A frame's stage, with the thread it waits for. *)
Definition waits (fp : FramePool) (st : FrameStage) : FrameStage * option Thread :=
  (st, match st with FCalling j _ => pl_threads (fp_pool fp) !! j | _ => None end).

Definition leads (q p : Frame) : Prop :=
  match p with FAct m k => exists a, q = k a | _ => False end.

(** What a turn does to a frame, or to the thread it waits for. *)
Definition fr_next (y' y : FrameStage * option Thread) : Prop :=
  match y.1, y'.1 with
  | FRunning p _, FRunning q _ => leads q p
  | FRunning (FCall c k) _, FCalling _ k' => k' = k
  | FRunning _ _, FAnswered _ | FRunning _ _, FPanicked => True
  | FCalling _ k, FCalling _ k' =>
      k' = k /\ exists th th', y.2 = Some th /\ y'.2 = Some th' /\ th_next th' th
  | FCalling _ k, FRunning q _ => exists o, q = k o
  | _, _ => False
  end.

Lemma fr_ended_acc st o : frame_ended st = true -> Acc fr_next (st, o).
Proof. intros Hst. constructor. intros [st' o'] Hn. by destruct st. Qed.

Lemma fr_calling_acc j k o :
  (forall a lo o, Acc fr_next (FRunning (k a) lo, o)) -> Acc fr_next (FCalling j k, o).
Proof.
  intros Hk. destruct o as [th|].
  - revert j. induction (th_acc th) as [th _ IH]. intros j. constructor.
    intros [[p lo|j' k'|r|] o'] Hn; cbn in Hn; [|..|done|done].
    + destruct Hn as [a ->]. apply Hk.
    + destruct Hn as (-> & th1 & th' & [= <-] & -> & Hth). by apply IH.
  - constructor. intros [[p lo|j' k'|r|] o'] Hn; cbn in Hn; [|..|done|done].
    + destruct Hn as [a ->]. apply Hk.
    + by destruct Hn as (_ & th1 & th' & ? & _).
Qed.

(** How a running frame goes on. *)
Lemma fr_running_next p lo o y :
  fr_next y (FRunning p lo, o) ->
  (exists q lo' o', y = (FRunning q lo', o') /\ leads q p) \/
  (exists c k j o', p = FCall c k /\ y = (FCalling j k, o')) \/ frame_ended y.1 = true.
Proof.
  destruct y as [[q lo'|j k|r|] o']; unfold fr_next; cbn [fst snd]; intros Hn; [left|right; left|auto..].
  - exists q, lo', o'. split; [done|]. by destruct p.
  - destruct p as [r|A m k1|c k1|]; try done. subst k. by exists c, k1, j, o'.
Qed.

Lemma fr_running_acc p lo o : Acc fr_next (FRunning p lo, o).
Proof.
  revert lo o. induction p as [r|A m k IH|c k IH|]; intros lo o; constructor;
    intros y [(q & lo' & o' & -> & Hq)|[(c' & k' & j & o' & Hp & ->)|Hend]]%fr_running_next;
    try discriminate Hp; try (destruct y; by apply fr_ended_acc); try contradiction Hq.
  - destruct Hq as [a ->]. apply IH.
  - injection Hp as <- <-. by apply fr_calling_acc.
Qed.

Lemma fr_acc y : Acc fr_next y.
Proof.
  destruct y as [[p lo|j k|r|] o]; [apply fr_running_acc| |by apply fr_ended_acc..].
  apply fr_calling_acc. intros. apply fr_running_acc.
Qed.

Definition turn_next (fp' fp : FramePool) : Prop := exists t, turn_step t fp = Some fp'.

Section Ends.
Context (d : Dispatcher) (sh0 : Shared) (arrivals : list Arrival).
Context (seen : Shared -> QuotaLedger -> Prop).
Context (charged : nat -> QuotaLedger -> QuotaLedger -> Prop).

(** The thread a frame waits for is its own. *)
Lemma calling_own fp i j k :
  frames_ok d sh0 arrivals seen charged fp -> fp_frames fp !! i = Some (FCalling j k) ->
  fp_callers fp !! j = Some i /\ (j < length (pl_threads (fp_pool fp)))%nat.
Proof.
  intros Hok Hi. destruct (decide (i ∈ fp_callers fp)) as [Hin|Hin].
  - apply list_elem_of_lookup_1 in Hin as [j' Hj].
    destruct (fo_called _ _ _ _ _ fp Hok j' i Hj) as (a & th & st & rq & ag & m & dg & _ & Hth & Hst & _ & Hcal).
    rewrite Hi in Hst. injection Hst as <-. destruct Hcal as [-> _]. split; [done|].
    by eapply lookup_lt_Some.
  - by destruct (fo_uncalled _ _ _ _ _ fp Hok i _ Hi Hin) as (a & _ & Hun).
Qed.

Lemma turn_next_frames fp fp' :
  frames_ok d sh0 arrivals seen charged fp -> turn_next fp' fp ->
  list_next fr_next (waits fp' <$> fp_frames fp') (waits fp <$> fp_frames fp).
Proof.
  intros Hok [t Ht].
  assert (Hframe : forall i st st', fp_frames fp !! i = Some st ->
    fp_frames fp' = <[i := st']> (fp_frames fp) ->
    (forall j, (j < length (pl_threads (fp_pool fp)))%nat ->
       pl_threads (fp_pool fp') !! j = pl_threads (fp_pool fp) !! j) ->
    fr_next (waits fp' st') (waits fp st) ->
    list_next fr_next (waits fp' <$> fp_frames fp') (waits fp <$> fp_frames fp)).
  { intros i st st' Hi Hf Hth Hn. exists i, (waits fp st), (waits fp' st').
    split; [by rewrite list_lookup_fmap, Hi|]. split; [done|].
    rewrite Hf, list_fmap_insert. f_equal. apply list_fmap_ext. intros i' st1 Hi'.
    unfold waits. f_equal. destruct st1 as [|j k| |]; try done. apply Hth. by eapply calling_own. }
  destruct t as [i|j]; cbn in Ht.
  - unfold frame_step in Ht. destruct (fp_frames fp !! i) as [st|] eqn:Hi; [|done]. cbn in Ht.
    destruct st as [p lo|j k|r|]; try done.
    + destruct p as [r|A m k|c k|].
      * injection Ht as <-. by eapply (Hframe i).
      * destruct (m _) as [o s]. injection Ht as <-. eapply (Hframe i); [done..|].
        destruct o as [a|[]|]; [by exists a|done].
      * injection Ht as <-. eapply (Hframe i); [done|done| |done]. intros j Hj. cbn.
        by apply lookup_app_l.
      * injection Ht as <-. by eapply (Hframe i).
    + destruct (pl_threads (fp_pool fp) !! j) as [th|] eqn:Hj; [|done]. cbn in Ht.
      destruct (th_stage th) as [|since p lo|since o lo]; try done. injection Ht as <-.
      eapply (Hframe i); [done..|]. by exists o.
  - unfold call_step in Ht. destruct (pool_step j (fp_pool fp)) as [pl'|] eqn:Hpl; [|done].
    injection Ht as <-. destruct (pool_step_threads j _ _ Hpl) as (th & th' & Hth & Hn & Hths).
    assert (Hj : is_Some (fp_callers fp !! j)).
    { apply lookup_lt_is_Some. rewrite (fo_length _ _ _ _ _ fp Hok). by eapply lookup_lt_Some. }
    destruct Hj as [i Hj].
    destruct (fo_called _ _ _ _ _ fp Hok j i Hj) as (a & th1 & st & rq & ag & m & dg & _ & Hth1 & Hst & _ & Hcal).
    rewrite Hth in Hth1. injection Hth1 as <-.
    assert (Hno : forall since o lo, th_stage th <> Returned since o lo).
    { intros since o lo Hr. destruct Hn as [_ Hn]. by rewrite Hr in Hn. }
    destruct st as [p lo|j1 k|response|]; cbn in Hcal; [| | |done].
    { destruct Hcal as (since & o & lo' & r & Hr & _). by apply Hno in Hr. }
    2: { destruct Hcal as (since & o & lo' & r & Hr & _). by apply Hno in Hr. }
    destruct Hcal as [-> _]. set (fp' := mkFramePool _ _ _ _ _).
    exists i, (waits fp (FCalling j k)), (waits fp' (FCalling j k)).
    split; [by rewrite list_lookup_fmap, Hst|]. split.
    + cbn. split; [done|]. exists th, th'. rewrite Hths. split_and!; [done| |done].
      apply list_lookup_insert_eq. by eapply lookup_lt_Some.
    + change (fp_frames fp') with (fp_frames fp). apply list_eq. intros i'. destruct (decide (i' = i)) as [->|Hne].
      * rewrite list_lookup_insert_eq by (rewrite length_fmap; by eapply lookup_lt_Some).
        by rewrite list_lookup_fmap, Hst.
      * rewrite list_lookup_insert_ne by done. rewrite !list_lookup_fmap.
        destruct (fp_frames fp !! i') as [st1|] eqn:Hi'; [|done]. cbn. f_equal. unfold waits.
        f_equal. destruct st1 as [|j1 k1| |]; try done. cbn. rewrite Hths.
        apply list_lookup_insert_ne. intros <-.
        destruct (calling_own fp i' j k1 Hok Hi') as [Hown _]. congruence.
Qed.

Lemma turns_move fp :
  frames_ok d sh0 arrivals seen charged fp -> all_ended fp = true \/ exists t fp', turn_step t fp = Some fp'.
Proof.
  intros Hok. destruct (all_ended fp) eqn:Hall; [by left|right]. unfold all_ended in Hall.
  apply not_true_iff_false in Hall. rewrite forallb_forall in Hall.
  destruct (decide (Exists (fun st => frame_ended st = false) (fp_frames fp))) as [Hyes|Hno].
  2: { exfalso. apply Hall. intros st Hin. apply list_elem_of_In in Hin.
       apply not_Exists_Forall in Hno; [|intros ?; apply _]. rewrite Forall_forall in Hno.
       specialize (Hno st Hin). cbn in Hno. by apply not_false_iff_true in Hno. }
  apply Exists_exists in Hyes as (st & Hin & Hst). apply list_elem_of_lookup_1 in Hin as [i Hi].
  destruct st as [p lo|j k|r|]; [| |done|done].
  - exists (TFrame i). cbn. unfold frame_step. rewrite Hi. cbn.
    destruct p as [r|A m k|c k|]; [by eexists| |by eexists..]. destruct (m _). by eexists.
  - destruct (calling_own fp i j k Hok Hi) as [_ Hlen]. apply lookup_lt_is_Some in Hlen as [th Hj].
    destruct (th_stage th) as [|since p lo|since o lo] eqn:Hth.
    3: { exists (TFrame i). cbn. unfold frame_step. rewrite Hi. cbn. rewrite Hj. cbn. rewrite Hth.
         by eexists. }
    all: destruct (pool_moves _ _ _ (fo_pool _ _ _ _ _ fp Hok)) as [Hret|(i' & pl' & Hpl)];
      [exfalso; unfold all_returned in Hret; rewrite forallb_forall in Hret;
       apply list_elem_of_lookup_2, list_elem_of_In, Hret in Hj; unfold returned in Hj;
       by rewrite Hth in Hj
      |exists (TCall i'); cbn; unfold call_step; rewrite Hpl; by eexists].
Qed.
End Ends.

(** The invariant without the history. *)
Abbreviation fine d sh arrivals := (frames_ok d sh arrivals (fun _ _ => True) (fun _ _ _ => True)).

Lemma fine_next d sh arrivals fp t fp' :
  fine d sh arrivals fp -> turn_step t fp = Some fp' -> fine d sh arrivals fp'.
Proof.
  intros Hok Ht. pose proof (frames_ok_turn d sh arrivals (fun _ _ => True) (fun _ _ _ => True) fp t Hok I (fun _ _ => I)) as Hn.
  unfold frame_turn in Hn. by rewrite Ht in Hn.
Qed.

Lemma fine_run d sh arrivals turns fp :
  fine d sh arrivals fp -> fine d sh arrivals (frames_run turns fp).
Proof. apply (fold_left_inv frame_turn). intros fp1 t Hok. by apply frames_ok_turn. Qed.

Lemma fine_start d sh quotas arrivals : fine d sh arrivals (frames_start d sh quotas arrivals).
Proof. apply frames_ok_start. Qed.

Lemma ended_answered d sh arrivals fp i st :
  fine d sh arrivals fp -> all_ended fp = true -> fp_frames fp !! i = Some st ->
  exists response, st = FAnswered response.
Proof.
  intros Hok Hall Hi. unfold all_ended in Hall. rewrite forallb_forall in Hall.
  assert (Hend : frame_ended st = true) by (by eapply Hall, list_elem_of_In, list_elem_of_lookup_2).
  destruct st as [p lo|j k|response|]; [done|done|by exists response|exfalso].
  destruct (decide (i ∈ fp_callers fp)) as [Hin|Hin].
  - apply list_elem_of_lookup_1 in Hin as [j Hj].
    destruct (fo_called _ _ _ _ _ fp Hok j i Hj) as (a & th & st & rq & ag & m & dg & _ & _ & Hst & _ & Hcal).
    rewrite Hi in Hst. by injection Hst as <-.
  - by destruct (fo_uncalled _ _ _ _ _ fp Hok i _ Hi Hin) as (a & _ & Hun).
Qed.

(** Induction along the turns of a run. *)
Lemma turns_ind d sh arrivals (P : FramePool -> Prop) :
  (forall fp, fine d sh arrivals fp -> (forall fp', turn_next fp' fp -> P fp') -> P fp) ->
  forall fp, fine d sh arrivals fp -> P fp.
Proof.
  intros Hstep fp. remember (waits fp <$> fp_frames fp) as ys eqn:Hys. revert fp Hys.
  induction (list_next_acc fr_next ys fr_acc) as [ys _ IH]. intros fp -> Hok.
  apply Hstep; [done|]. intros fp' Hn. eapply IH; [by eapply turn_next_frames|done|].
  destruct Hn as [t Ht]. by eapply fine_next.
Qed.

Lemma frames_complete d sh arrivals fp :
  fine d sh arrivals fp -> exists more, all_ended (frames_run more fp) = true.
Proof.
  revert fp. apply (turns_ind d sh arrivals (fun fp => exists more, all_ended (frames_run more fp) = true)).
  intros fp Hok IH.
  destruct (turns_move _ _ _ _ _ fp Hok) as [Hall|(t & fp' & Ht)]; [by exists []|].
  destruct (IH fp') as [more Hmore]; [by exists t|]. exists (t :: more). cbn.
  unfold frame_turn. by rewrite Ht.
Qed.

Lemma no_endless_run d sh arrivals fp :
  fine d sh arrivals fp ->
  forall run : nat -> FramePool, run 0%nat = fp -> ~ forall n, turn_next (run (S n)) (run n).
Proof.
  revert fp. apply (turns_ind d sh arrivals (fun fp => forall run : nat -> FramePool,
    run 0%nat = fp -> ~ forall n, turn_next (run (S n)) (run n))). intros fp Hok IH run <- Hrun.
  exact (IH (run 1%nat) (Hrun 0%nat) (fun n => run (S n)) eq_refl (fun n => Hrun (S n))).
Qed.

(** C18: a frame that no other frame interferes with is [handle_frame]: the
    same response, engine, files, budgets and observations, in every state. *)
Theorem frame_alone_is_handle_frame d body peer s :
  frame_alone (frame_program d body peer) s = handle_frame d body peer s.
Proof. apply alone_frame. Qed.

(** C6: whatever frames arrive and however their steps and the steps of the
    engine's operations interleave: no frame calls the engine twice; every
    call is of a frame whose bytes are a legal request of a resolved token,
    with a manifest that was read in this run and a ladder that allowed it, and
    a turn of that frame took the ledger from one state to the next by counting
    the call; it asks for what that request says; a frame
    that called answers what its own call was answered; and when no operation
    is in [dm_lock], the engine and the files are those of the called writers
    run as whole operations one after another. *)
Theorem frames_call_cleared_and_in_order d sh quotas arrivals turns :
  let start := frames_start d sh quotas arrivals in
  let fp := frames_run turns start in
  let pl := fp_pool fp in
  NoDup (fp_callers fp) /\ length (fp_callers fp) = length (pl_threads pl) /\
  (forall j i, fp_callers fp !! j = Some i ->
     exists a th request agent m digest,
       arrivals !! i = Some a /\ pl_threads pl !! j = Some th /\
       cleared (moment turns start) (charge turns start i) d (ar_body a) request agent m digest (ca_request (th_caller th)) /\
       forall response, fp_frames fp !! i = Some (FAnswered response) ->
         exists since o lo r, th_stage th = Returned since o lo /\
           answer_result (rq_op request) o = Some r /\
           response = response_for request agent m digest r) /\
  (forall j c since o lo, pl_threads pl !! j = Some (mkThread c (Returned since o lo)) ->
     takes_lock (ca_request c) = true ->
     exists k, pl_order pl !! k = Some j /\
       o = fst (serve c (after (callers_at (callers pl) (take k (pl_order pl))) sh))) /\
  (pl_holder pl = None -> pl_shared pl = after (callers_at (callers pl) (pl_order pl)) sh).
Proof.
  cbn zeta. pose proof (frames_ok_run d sh quotas arrivals turns) as Hok. cbn zeta in Hok.
  set (fp := frames_run turns _) in *. pose proof (fo_pool _ _ _ _ _ fp Hok) as Hco. split_and!.
  - apply (fo_nodup _ _ _ _ _ fp Hok).
  - apply (fo_length _ _ _ _ _ fp Hok).
  - intros j i Hj. destruct (fo_called _ _ _ _ _ fp Hok j i Hj)
      as (a & th & st & rq & ag & m & dg & Ha & Hth & Hst & Hcl & Hcal).
    exists a, th, rq, ag, m, dg. split_and!; [done..|]. intros response Hr.
    rewrite Hr in Hst. by injection Hst as <-.
  - intros j c since o lo Hj Hw. pose proof (co_threads _ _ _ Hco j _ Hj) as Hth.
    unfold thread_ok in Hth. cbn in Hth. by rewrite Hw in Hth.
  - intros Hh. pose proof (co_holder _ _ _ Hco) as Hsh. unfold holder_ok in Hsh. by rewrite Hh in Hsh.
Qed.

(** C15: no run of turns goes on forever; none is stuck before every frame is
    answered; and from every moment of every run there is a way to where each
    frame has its response.  No lock is waited for forever, and no panic leaves
    a frame without an answer. *)
Theorem every_frame_is_answered d sh quotas arrivals turns :
  let start := frames_start d sh quotas arrivals in
  let fp := frames_run turns start in
  let all_answered fp := forall i st, fp_frames fp !! i = Some st ->
                           exists response, st = FAnswered response in
  (all_answered fp \/ exists t fp', turn_step t fp = Some fp') /\
  (exists more, all_answered (frames_run (turns ++ more) start)) /\
  ~ exists run : nat -> FramePool, run 0%nat = start /\ forall n, turn_next (run (S n)) (run n).
Proof.
  cbn zeta. pose proof (fine_start d sh quotas arrivals) as Hok.
  pose proof (fine_run d sh arrivals turns _ Hok) as Hrun. split_and!.
  - destruct (turns_move _ _ _ _ _ _ Hrun) as [Hall|Hmove]; [left|by right].
    intros i st Hi. by eapply ended_answered.
  - destruct (frames_complete d sh arrivals _ Hrun) as [more Hmore]. exists more.
    unfold frames_run in *. rewrite fold_left_app. intros i st Hi.
    eapply ended_answered; [|exact Hmore|exact Hi].
    exact (fine_run d sh arrivals more _ Hrun).
  - intros (run & Hstart & Hn). exact (no_endless_run d sh arrivals _ Hok run Hstart Hn).
Qed.
End Frames.
