(* ===== verification/FramesDemo.v ===== *)
(** * Concurrent frames: a run

    The dispatcher of [DispatchDemo] with four frames at once, each taking its
    turn in a round: a proposal, a status and a test of its transaction, and a
    call with a token of nobody's. *)

From S2P Require Import Prelude RustStd Json JcsTheorems TxTypes TxStorage TxEngine TxDemo.
From S2P Require Import Concurrent Wire Jcs Policy PolicyTheorems Quota Dispatch DispatchDemo Frames.
From S2P Require Import FramesFacts FramesTheorems.

Definition demo_arrivals : list Arrival :=
  [mkArrival (frame 0) demo_peer 0; mkArrival (frame 2) demo_peer 1000;
   mkArrival (frame 1) demo_peer 2000; mkArrival (frame 3) demo_peer 3000].

Definition demo_frames_start : FramePool :=
  @frames_start int_number int_number_from no_floats demo_document demo_sha256 demo_wire
    demo_manifests reliable_io (demo_report generous_host) demo_clock demo_dispatcher
    (shared_of (bk_engine demo_broker)) ledger_default demo_arrivals.

Definition demo_frames_run (turns : list Turn) : FramePool :=
  @frames_run int_number demo_broker_codec reliable_io demo_host turns demo_frames_start.

Definition demo_round : list Turn :=
  [TFrame 0; TFrame 1; TFrame 2; TFrame 3; TCall 0; TCall 1; TCall 2].

Definition frame_answers (fp : FramePool) : list (option (option ErrorCode * option DecisionStage)) :=
  (fun st => match st with FAnswered r => Some (DispatchDemo.answer_of r) | _ => None end) <$> fp_frames fp.

(** In step with each other, the status and the test are asked while the
    proposal is at it: the transaction is there for the one that had to wait
    and not yet for the one that had not, and nobody is charged for the frame
    without a token. *)
Lemma demo_frames_interleaved :
  let fp := demo_frames_run (concat (repeat demo_round 40)) in
  (frame_answers fp, pl_order (fp_pool fp), fp_callers fp,
   sn_state <$> en_txs (sh_engine (pl_shared (fp_pool fp))) !! "tx-1",
   (fun w => wi_used w) <$> ql_windows (fp_quotas fp) !! "agent") =
  ([Some (None, None); Some (Some Denied, Some OperationPolicyStage); Some (None, None);
    Some (Some Unauthenticated, None)], [0; 2]%nat, [0; 1; 2]%nat, Some WTesting, Some 3).
Proof. vm_compute. reflexivity. Qed.

(** The proposal of that run was cleared, and was told what its own call was
    answered; the engine is the one of the proposal and then the test. *)
Lemma frames_call_cleared_and_in_order_witness :
  let turns := concat (repeat demo_round 40) in
  let fp := demo_frames_run turns in
  (exists th request agent m digest,
     pl_threads (fp_pool fp) !! 0%nat = Some th /\
     @cleared int_number int_number_from no_floats demo_document demo_sha256 demo_wire
       demo_manifests reliable_io (demo_report generous_host)
       (@moment int_number demo_broker_codec reliable_io demo_host turns demo_frames_start)
       (@charge int_number demo_broker_codec reliable_io demo_host turns demo_frames_start 0)
       demo_dispatcher (frame 0) request agent m digest (ca_request (th_caller th))) /\
  pl_shared (fp_pool fp) =
    @after int_number demo_broker_codec reliable_io demo_host
      (callers_at (callers (fp_pool fp)) [0; 2]%nat) (shared_of (bk_engine demo_broker)).
Proof.
  cbn zeta.
  pose proof (@frames_call_cleared_and_in_order int_number int_number_from no_floats demo_document
    demo_sha256 demo_wire demo_manifests demo_broker_codec reliable_io demo_host
    (demo_report generous_host) demo_clock demo_dispatcher (shared_of (bk_engine demo_broker))
    ledger_default demo_arrivals (concat (repeat demo_round 40))) as (_ & _ & Hcalls & _ & Hser).
  split.
  - destruct (Hcalls 0%nat 0%nat) as (a & th & request & agent & m & digest & Ha & Hth & Hcl & _);
      [vm_compute; reflexivity|].
    exists th, request, agent, m, digest. injection Ha as <-. split; [exact Hth|exact Hcl].
  - assert (Horder : pl_order (fp_pool (demo_frames_run (concat (repeat demo_round 40)))) = [0; 2]%nat)
      by (vm_compute; reflexivity).
    rewrite <-Horder. apply Hser. vm_compute. reflexivity.
Defined.
