(* ===== verification/Frame.v ===== *)
(** * Length-prefixed frames over a stream

    [proto/src/frame.rs].  A reader is what its calls to [read] will give, one
    event at a time: bytes to take from, an interruption, an error; after the
    last one it is at its end.  A writer is what was written, and how much of
    each coming call goes through before it fails. *)

From S2P Require Import Prelude RustStd.

Definition MAX_FRAME_BYTES : Z := 64 * 1024.
Definition LENGTH_PREFIX_BYTES : nat := 4.

(** [std::io::Error]: its kind is all that is looked at. *)
Inductive IoErrorKind := Interrupted | OtherKind.

Inductive FrameError :=
  | Eof
  | Truncated (expected received : nat)
  | Oversize (declared limit : Z)
  | ZeroLength
  | FrameIo.
#[export] Instance FrameError_eq_dec : EqDecision FrameError.
Proof. solve_decision. Defined.

Definition stream_position_lost (e : FrameError) : bool :=
  match e with
  | Oversize _ _ | Truncated _ _ | FrameIo => true
  | ZeroLength => false
  | Eof => true
  end.

(** ** Readers *)

Inductive ReadEvent :=
  | RData (bytes : list byte)
  | RFault (kind : IoErrorKind).

Definition Reader := list ReadEvent.

(** [Read::read] into a buffer of [n] bytes: no more than what is there. *)
Definition stream_read (n : nat) (s : Reader) : result IoErrorKind (list byte) * Reader :=
  match s with
  | [] => (Ok [], [])
  | RFault kind :: s => (Err kind, s)
  | RData bytes :: s =>
      if Nat.leb (length bytes) n then (Ok bytes, s)
      else (Ok (take n bytes), RData (drop n bytes) :: s)
  end.

(** The loop of [read_full]: what fills the buffer, or an error; [None] when
    the fuel ends first. *)
Fixpoint read_full (fuel n : nat) (s : Reader) : option (result FrameError (list byte) * Reader) :=
  if Nat.eqb n 0 then Some (Ok [], s) else
  match fuel with
  | O => None
  | S fuel =>
      match stream_read n s with
      | (Ok [], s) => Some (Ok [], s)
      | (Ok bytes, s) =>
          '(r, s) ← read_full fuel (n - length bytes) s;
          Some (rest ← r; Ok (bytes ++ rest), s)
      | (Err Interrupted, s) => read_full fuel n s
      | (Err OtherKind, s) => Some (Err FrameIo, s)
      end
  end.

(** Every turn uses up an event, or bytes of one that is left. *)
Definition stream_size (s : Reader) : nat :=
  sum_list_with (fun e => match e with RData bytes => S (length bytes) | RFault _ => 1%nat end) s.

Definition reading (n : nat) (s : Reader) : result FrameError (list byte) * Reader :=
  default (Err FrameIo, s) (read_full (S (stream_size s)) n s).

(** [read_frame]: what it returns, and the bytes it reserves for a body. *)
Definition read_frame (limit : Z) (s : Reader) : result FrameError (list byte) * Reader :=
  match reading LENGTH_PREFIX_BYTES s with
  | (Err e, s) => (Err e, s)
  | (Ok prefix, s) =>
      if Nat.eqb (length prefix) 0 then (Err Eof, s)
      else if Nat.ltb (length prefix) LENGTH_PREFIX_BYTES
      then (Err (Truncated LENGTH_PREFIX_BYTES (length prefix)), s)
      else
        let declared := be_value prefix in
        if declared =? 0 then (Err ZeroLength, s)
        else if limit <? declared then (Err (Oversize declared limit), s)
        else
          let expected := Z.to_nat declared in
          match reading expected s with
          | (Err e, s) => (Err e, s)
          | (Ok body, s) =>
              if Nat.ltb (length body) expected then (Err (Truncated expected (length body)), s)
              else (Ok body, s)
          end
  end.

(** ** Writers *)

Record Writer := mkWriter {
  wt_written : list byte;
  wt_faults : list (option nat);
}.

(** [Write::write_all]; the next call fails after a prefix, or goes through. *)
Definition stream_write_all (bytes : list byte) (w : Writer) : result FrameError unit * Writer :=
  match wt_faults w with
  | Some k :: faults => (Err FrameIo, mkWriter (wt_written w ++ take k bytes) faults)
  | None :: faults => (Ok tt, mkWriter (wt_written w ++ bytes) faults)
  | [] => (Ok tt, mkWriter (wt_written w ++ bytes) [])
  end.

(** Flushing a socket does nothing. *)
Definition write_frame (limit : Z) (body : list byte) (w : Writer) : result FrameError unit * Writer :=
  if bool_decide (body = []) then (Err ZeroLength, w) else
  let n := Z.of_nat (length body) in
  if u32_max <? n then (Err (Oversize u32_max limit), w)
  else if limit <? n then (Err (Oversize n limit), w)
  else match stream_write_all (be_bytes 4 n) w with
       | (Err e, w) => (Err e, w)
       | (Ok _, w) => stream_write_all body w
       end.
