(* ===== verification/FrameTheorems.v ===== *)
(** * Frames: the theorems

    What a reader gives does not depend on how its bytes come in: [contents]
    are its bytes up to its end or its first fault, and [frame_of] cuts a
    frame off them. *)

From S2P Require Import Prelude RustStd Frame.

(** ** The contents of a reader *)

(** The bytes, and whether a fault ends them. *)
Fixpoint contents (s : Reader) : list byte * bool :=
  match s with
  | [] => ([], false)
  | RData [] :: _ => ([], false)
  | RData bytes :: s => let '(c, f) := contents s in (bytes ++ c, f)
  | RFault Interrupted :: s => contents s
  | RFault OtherKind :: _ => ([], true)
  end.

Lemma contents_data bytes s :
  bytes <> [] -> contents (RData bytes :: s) = (bytes ++ fst (contents s), snd (contents s)).
Proof. destruct bytes as [|b bytes]; [done|]. intros _. cbn. by destruct (contents s). Qed.

(** What [n] bytes' worth of reading gives. *)
Definition read_of (n : nat) (c : list byte * bool) : result FrameError (list byte) :=
  if Nat.leb n (length (fst c)) then Ok (take n (fst c))
  else if snd c then Err FrameIo else Ok (fst c).

Definition drop_of (n : nat) (c : list byte * bool) : list byte * bool := (drop n (fst c), snd c).

(** [s'] is what is left of [s] once [n] of its bytes, if it has as many,
    are read. *)
Definition left_over (n : nat) (s s' : Reader) : Prop :=
  ((n <= length (fst (contents s)))%nat -> contents s' = drop_of n (contents s)) /\
  (stream_size s' + Nat.min n (length (fst (contents s))) <= stream_size s)%nat.

Lemma read_of_app n bytes c f :
  (length bytes <= n)%nat ->
  read_of n (bytes ++ c, f) = (rest ← read_of (n - length bytes) (c, f); Ok (bytes ++ rest)).
Proof.
  intros Hl. unfold read_of. cbn [fst snd]. rewrite length_app.
  destruct (Nat.leb n _) eqn:E1, (Nat.leb (n - length bytes) _) eqn:E2;
    rewrite ?Nat.leb_le, ?Nat.leb_gt in *; try lia; run_ok.
  - by rewrite take_app, (take_ge bytes) by lia.
  - by destruct f.
Qed.

Lemma stream_size_data bytes s : stream_size (RData bytes :: s) = (S (length bytes) + stream_size s)%nat.
Proof. done. Qed.
Lemma stream_size_fault kind s : stream_size (RFault kind :: s) = S (stream_size s).
Proof. done. Qed.

Lemma read_full_exact fuel n s :
  (stream_size s < fuel)%nat ->
  exists s', read_full fuel n s = Some (read_of n (contents s), s') /\ left_over n s s'.
Proof.
  revert n s. induction fuel as [|fuel IH]; intros n s Hf; [lia|].
  cbn [read_full]. destruct (Nat.eqb_spec n 0) as [->|Hn].
  { exists s. split; [done|]. unfold left_over, drop_of. cbn [Nat.min]. split; [|lia].
    intros _. rewrite drop_0. by destruct (contents s). }
  destruct s as [|[bytes|kind] s].
  - exists []. cbn. split; [|split; [cbn; intros; exfalso; lia|cbn; lia]].
    unfold read_of. cbn. by destruct n.
  - cbn [stream_read]. destruct bytes as [|b bytes].
    { rewrite (proj2 (Nat.leb_le _ _)) by (cbn; lia). exists s. split.
      - unfold read_of. cbn. by destruct n.
      - unfold left_over; rewrite stream_size_data. cbn. split; [intros; exfalso; lia|lia]. }
    set (bs := b :: bytes) in *. assert (Hbs : bs <> []) by done.
    unfold left_over, drop_of. rewrite (contents_data bs s Hbs).
    rewrite stream_size_data in *.
    cbn [fst snd]. destruct (Nat.leb (length bs) n) eqn:E; rewrite ?Nat.leb_le, ?Nat.leb_gt in E.
    + cbn [fst snd]. destruct (IH (n - length bs)%nat s ltac:(lia)) as (s' & Hr & Hl1 & Hl2).
      exists s'. rewrite Hr. split.
      * rewrite read_of_app by lia. by destruct (contents s).
      * rewrite length_app. split; [|lia]. intros Hle. rewrite Hl1 by lia. unfold drop_of.
        by rewrite drop_app, (drop_ge bs) by lia.
    + assert (Htk : take n bs = b :: take (n - 1) bytes) by (destruct n; [done|cbn; by rewrite Nat.sub_0_r]).
      exists (RData (drop n bs) :: s). rewrite Htk.
      assert (Hzero : (n - length (b :: take (n - 1) bytes))%nat = 0%nat).
      { rewrite <-Htk, length_take. lia. }
      rewrite Hzero. replace (read_full fuel 0 (RData (drop n bs) :: s)) with
        (Some (Ok (E:=FrameError) (@nil byte), RData (drop n bs) :: s)) by (by destruct fuel).
      split.
      * assert (Hof : read_of n (bs ++ (contents s).1, (contents s).2) = Ok (take n bs)).
        { unfold read_of. cbn [fst snd]. rewrite length_app, (proj2 (Nat.leb_le _ _)) by lia.
          by rewrite take_app_le by lia. }
        rewrite Hof, Htk. cbn. by rewrite app_nil_r.
      * assert (Hdr : drop n bs <> []) by (intros Hd; apply (f_equal length) in Hd; rewrite length_drop in Hd; cbn in *; lia).
        rewrite (contents_data _ s Hdr). rewrite length_app. split.
        -- intros _. cbn [fst snd]. by rewrite drop_app_le by lia.
        -- rewrite stream_size_data, length_drop. lia.
  - rewrite stream_size_fault in Hf. unfold left_over. rewrite stream_size_fault.
    destruct kind; cbn [stream_read contents].
    + destruct (IH n s) as (s' & Hr & Hl1 & Hl2); [lia|]. exists s'. split; [done|]. split; [done|lia].
    + exists s. split.
      * unfold read_of. cbn. by destruct n.
      * cbn. split; [intros; exfalso; lia|lia].
Qed.

Lemma reading_exact n s : exists s', reading n s = (read_of n (contents s), s') /\ left_over n s s'.
Proof.
  unfold reading. destruct (read_full_exact (S (stream_size s)) n s) as (s' & -> & Hl); [lia|].
  by exists s'.
Qed.

(** ** Cutting a frame off the bytes *)

Definition frame_of (limit : Z) (c : list byte * bool) : result FrameError (list byte) :=
  let bytes := fst c in
  let declared := be_value (take 4 bytes) in
  let body := drop 4 bytes in
  if Nat.ltb (length bytes) 4 then
    if snd c then Err FrameIo
    else if Nat.eqb (length bytes) 0 then Err Eof else Err (Truncated 4 (length bytes))
  else if declared =? 0 then Err ZeroLength
  else if limit <? declared then Err (Oversize declared limit)
  else if Nat.ltb (length body) (Z.to_nat declared) then
    if snd c then Err FrameIo else Err (Truncated (Z.to_nat declared) (length body))
  else Ok (take (Z.to_nat declared) body).

(** The bytes of a frame, and those after it. *)
Definition frame_length (r : result FrameError (list byte)) : nat :=
  match r with Ok body => 4 + length body | Err _ => 4 end.

Definition position_known (r : result FrameError (list byte)) : bool :=
  match r with Ok _ => true | Err e => negb (stream_position_lost e) end.

Lemma frame_of_length limit c :
  position_known (frame_of limit c) = true ->
  (frame_length (frame_of limit c) <= length (fst c))%nat.
Proof.
  unfold frame_of. destruct (Nat.ltb_spec (length c.1) 4); [by case_match_all|].
  case_match; [by cbn; lia|]. case_match; [done|].
  destruct (Nat.ltb_spec (length (drop 4 c.1)) (Z.to_nat (be_value (take 4 c.1)))); [by case_match|].
  intros _. cbn [frame_length]. rewrite length_take. rewrite length_drop in *. lia.
Qed.

Lemma read_frame_spec limit s :
  exists s', read_frame limit s = (frame_of limit (contents s), s') /\
    (position_known (frame_of limit (contents s)) = true ->
     contents s' = drop_of (frame_length (frame_of limit (contents s))) (contents s) /\
     (stream_size s' < stream_size s)%nat) /\
    match frame_of limit (contents s) with
    | Ok body => 0 < Z.of_nat (length body) <= limit
    | Err _ => True
    end.
Proof.
  unfold read_frame, LENGTH_PREFIX_BYTES. destruct (reading_exact 4 s) as (s1 & -> & Hl1 & Hz1).
  unfold frame_of, read_of. destruct (contents s) as [bytes f]. cbn [fst snd] in *.
  destruct (Nat.leb_spec 4 (length bytes)) as [H4|H4]; cycle 1.
  { rewrite (proj2 (Nat.ltb_lt _ _)) by lia. destruct f; [by exists s1|].
    destruct (Nat.eqb_spec (length bytes) 0); [by exists s1|].
    rewrite (proj2 (Nat.ltb_lt _ _)) by lia. by exists s1. }
  specialize (Hl1 H4). rewrite length_take, Nat.min_l by lia. cbn [Nat.eqb].
  change (Nat.ltb 4 4) with false. cbn match.
  rewrite (proj2 (Nat.ltb_ge (length bytes) 4)) by lia.
  set (declared := be_value (take 4 bytes)).
  destruct (declared =? 0) eqn:E0; bool_to_prop.
  { exists s1. split; [done|]. split; [|done]. intros _. split; [done|lia]. }
  destruct (limit <? declared) eqn:El; bool_to_prop; [by exists s1|].
  destruct (reading_exact (Z.to_nat declared) s1) as (s2 & -> & Hl2 & Hz2).
  unfold read_of. rewrite Hl1 in *. unfold drop_of in *. cbn [fst snd] in *.
  destruct (Nat.leb_spec (Z.to_nat declared) (length (drop 4 bytes))) as [Hb|Hb]; cycle 1.
  { rewrite (proj2 (Nat.ltb_lt _ _) Hb). destruct f; [by exists s2|].
    rewrite (proj2 (Nat.ltb_lt _ _) Hb). by exists s2. }
  rewrite (proj2 (Nat.ltb_ge _ (Z.to_nat declared))) by (rewrite length_take; lia).
  rewrite (proj2 (Nat.ltb_ge (length (drop 4 bytes)) _)) by lia.
  assert (0 <= declared) by apply be_value_range.
  exists s2. split; [done|]. cbn [frame_length position_known].
  rewrite length_take, (Nat.min_l _ _ Hb). split; [|lia].
  intros _. split; [|lia]. rewrite (Hl2 Hb), drop_drop. by f_equal; f_equal; lia.
Qed.

(** Reading frames ignores how the bytes arrive.  However a stream is cut
    into pieces and interrupted, [read_frame] returns what its bytes say --
    the frame at their head, or the one error that fits: a clean end, a
    truncation, a length above the limit, an empty body, a fault -- and when
    the position is known it has consumed that frame and not a byte more.  A
    body it returns is neither empty nor longer than the limit; and it always
    returns, having used up part of the stream. *)
Theorem read_frame_exact limit s :
  exists s', read_frame limit s = (frame_of limit (contents s), s') /\
    (position_known (frame_of limit (contents s)) = true ->
     contents s' = drop_of (frame_length (frame_of limit (contents s))) (contents s) /\
     (stream_size s' < stream_size s)%nat) /\
    match frame_of limit (contents s) with
    | Ok body => 0 < Z.of_nat (length body) <= limit
    | Err _ => True
    end.
Proof. apply read_frame_spec. Qed.

(** ** Writing *)

Definition framed (body : list byte) : list byte := be_bytes 4 (Z.of_nat (length body)) ++ body.

Lemma frame_of_framed limit body rest f :
  0 < Z.of_nat (length body) <= u32_max ->
  frame_of limit (framed body ++ rest, f) =
    if limit <? Z.of_nat (length body) then Err (Oversize (Z.of_nat (length body)) limit) else Ok body.
Proof.
  intros Hlen. unfold frame_of, framed. cbn [fst snd]. rewrite <-app_assoc.
  assert (H4 : length (be_bytes 4 (Z.of_nat (length body))) = 4%nat) by apply length_be_bytes.
  rewrite (proj2 (Nat.ltb_ge _ _)) by (rewrite length_app; lia).
  rewrite take_app_length', drop_app_length' by done.
  rewrite be_value_bytes by (unfold u32_max in *; lia).
  rewrite (proj2 (Z.eqb_neq _ _)) by lia. destruct (limit <? _); [done|].
  rewrite Nat2Z.id. rewrite (proj2 (Nat.ltb_ge _ _)) by (rewrite length_app; lia).
  by rewrite take_app_length.
Qed.

(** The writer refuses what the reader would refuse.  For a body of less
    than 2^32 bytes on a working stream, [write_frame] either puts exactly
    one frame on the stream, which reads back as the body whatever follows
    it, or it writes nothing and returns the error a reader of that frame
    would have returned. *)
Theorem write_frame_mirrors_read_frame limit body w rest f :
  Z.of_nat (length body) <= u32_max -> wt_faults w = [] ->
  let '(r, w') := write_frame limit body w in
  frame_of limit (framed body ++ rest, f) = (_ ← r; Ok body) /\
  wt_written w' = wt_written w ++ (if is_ok r then framed body else []).
Proof.
  intros Hlen Hw. unfold write_frame. case_bool_decide as Hb.
  { subst body. cbn. rewrite app_nil_r. split; [|done].
    unfold frame_of. change (framed []) with [byte_of 0; byte_of 0; byte_of 0; byte_of 0].
    done. }
  assert (0 < Z.of_nat (length body)) by (destruct body; cbn; [done|lia]).
  rewrite (proj2 (Z.ltb_ge _ _) Hlen). rewrite frame_of_framed by lia.
  destruct (limit <? Z.of_nat (length body)); [by rewrite app_nil_r|].
  unfold stream_write_all. rewrite Hw. cbn. split; [done|]. by rewrite <-app_assoc.
Qed.

(** Frames one after the other. *)
Fixpoint read_frames (n : nat) (limit : Z) (s : Reader) : list (result FrameError (list byte)) :=
  match n with
  | O => []
  | S n => let '(r, s) := read_frame limit s in r :: read_frames n limit s
  end.

Fixpoint write_frames (limit : Z) (bodies : list (list byte)) (w : Writer) : result FrameError unit * Writer :=
  match bodies with
  | [] => (Ok tt, w)
  | body :: bodies =>
      match write_frame limit body w with
      | (Ok _, w) => write_frames limit bodies w
      | (Err e, w) => (Err e, w)
      end
  end.

Lemma write_frames_written limit bodies w w' :
  wt_faults w = [] -> write_frames limit bodies w = (Ok tt, w') ->
  wt_written w' = wt_written w ++ concat (map framed bodies) /\
  Forall (fun body => 0 < Z.of_nat (length body) <= u32_max /\ Z.of_nat (length body) <= limit) bodies.
Proof.
  revert w. induction bodies as [|body bodies IH]; intros w Hw; cbn [write_frames].
  { intros [= <-]. cbn. by rewrite app_nil_r. }
  unfold write_frame. case_bool_decide as Hb; [done|].
  destruct (u32_max <? _) eqn:Eu; [done|]. destruct (limit <? _) eqn:El; [done|]. bool_to_prop.
  unfold stream_write_all. rewrite Hw. cbn [wt_faults wt_written]. intros Hrun.
  apply IH in Hrun as [-> Hf]; [|done]. cbn [wt_written map concat]. split.
  - unfold framed. by rewrite <-!app_assoc.
  - constructor; [|done]. assert (0 < Z.of_nat (length body)) by (destruct body; cbn; [done|lia]). lia.
Qed.

(** What is written is read back.  A sequence of bodies written one after
    the other on a working stream reads back, from any stream that delivers
    those bytes in whatever pieces, as those bodies and then a clean end. *)
Theorem frames_round_trip limit bodies w s :
  write_frames limit bodies (mkWriter [] []) = (Ok tt, w) -> contents s = (wt_written w, false) ->
  read_frames (S (length bodies)) limit s = map Ok bodies ++ [Err Eof].
Proof.
  intros Hw Hs. apply write_frames_written in Hw as [Hw Hf]; [|done]. cbn [wt_written app] in Hw.
  rewrite Hw in Hs. clear w Hw. revert s Hs.
  induction Hf as [|body bodies [Hb Hl] _ IH]; intros s Hs; cbn [map concat app length] in *.
  - cbn [read_frames]. destruct (read_frame_spec limit s) as (s' & -> & _). by rewrite Hs.
  - remember (S (length bodies)) as n eqn:Hn. cbn [read_frames].
    destruct (read_frame_spec limit s) as (s' & -> & Hk & _). rewrite Hs in *.
    rewrite frame_of_framed in * by lia. rewrite (proj2 (Z.ltb_ge _ _)) in * by lia.
    f_equal. apply IH. destruct (Hk eq_refl) as [-> _]. unfold drop_of. cbn [fst snd frame_length].
    f_equal. rewrite drop_app_ge by (unfold framed; rewrite length_app, length_be_bytes; lia).
    unfold framed. rewrite length_app, length_be_bytes, Nat.sub_diag. apply drop_0.
Qed.

(** ** A concrete stream *)

(** Two frames in five pieces, one read interrupted. *)
Definition demo_bodies : list (list byte) := [bytes_of_string "{}"; bytes_of_string "[1]"].
Definition demo_pieces : Reader :=
  [RData [byte_of 0; byte_of 0]; RFault Interrupted; RData [byte_of 0];
   RData (byte_of 2 :: bytes_of_string "{}" ++ [byte_of 0]); RData [byte_of 0; byte_of 0];
   RData (byte_of 3 :: bytes_of_string "[1]")].

Lemma frames_round_trip_witness :
  read_frames 3 MAX_FRAME_BYTES demo_pieces = [Ok (bytes_of_string "{}"); Ok (bytes_of_string "[1]"); Err Eof].
Proof.
  apply (frames_round_trip MAX_FRAME_BYTES demo_bodies
           (snd (write_frames MAX_FRAME_BYTES demo_bodies (mkWriter [] []))) demo_pieces).
  - vm_compute. reflexivity.
  - vm_compute. reflexivity.
Defined.

Lemma write_frame_mirrors_read_frame_witness :
  frame_of 1 (framed (bytes_of_string "{}"), true) = Err (Oversize 2 1) /\
  wt_written (snd (write_frame 1 (bytes_of_string "{}") (mkWriter [] []))) = [].
Proof.
  apply (write_frame_mirrors_read_frame 1 (bytes_of_string "{}") (mkWriter [] []) [] true).
  - vm_compute. discriminate.
  - reflexivity.
Defined.
