(* ===== verification/Serve.v ===== *)
(** * The connection loop

    [broker/src/server.rs] and [broker/src/config.rs]: who may connect, the
    frames of one connection, and the accept loop with its threads.  A
    connection is its reader, its writer and the broker it talks to; the
    credentials and the process's uid come from the kernel. *)

From S2P Require Import Prelude RustStd Json TxTypes TxStorage TxEngine Wire Jcs Policy Quota.
From S2P Require Import Dispatch Frame.

(** ** config.rs *)

Record BrokerConfig := mkConfig {
  bc_socket_path : Path;
  bc_token_store_path : option Path;
  bc_manifest_dir : option Path;
  bc_state_dir : option Path;
  bc_allowed_peer_uids : list Z;
  bc_max_connections : Z;
  bc_max_requests_per_connection : Z;
  bc_read_timeout : Duration;
  bc_write_timeout : Duration;
}.

Definition config_default : BrokerConfig :=
  {| bc_socket_path := ["run"; "agentbed"; "broker.sock"]; bc_token_store_path := None;
     bc_manifest_dir := None; bc_state_dir := None; bc_allowed_peer_uids := [];
     bc_max_connections := 32; bc_max_requests_per_connection := 1024;
     bc_read_timeout := Duration_from_secs 15; bc_write_timeout := Duration_from_secs 15 |}.

(** ** server.rs *)

Definition peer_uid_allowed (own : Z) (peer : PeerCredentials) (config : BrokerConfig) : bool :=
  if bool_decide (bc_allowed_peer_uids config = []) then pc_uid peer =? own
  else bool_decide (pc_uid peer ∈ bc_allowed_peer_uids config).

Record Connection := mkConnection {
  cn_reader : Reader;
  cn_writer : Writer;
  cn_broker : BrokerW;
}.

Definition set_cn_reader (r : Reader) (c : Connection) : Connection :=
  mkConnection r (cn_writer c) (cn_broker c).
Definition set_cn_writer (w : Writer) (c : Connection) : Connection :=
  mkConnection (cn_reader c) w (cn_broker c).
Definition set_cn_broker (b : BrokerW) (c : Connection) : Connection :=
  mkConnection (cn_reader c) (cn_writer c) b.

Abbreviation Conn := (M Connection Never).

Definition on_broker {A} : Handler A -> Conn A := zoom cn_broker set_cn_broker.

(** [serde_json::to_vec] of a response *)
Class ResponseSerde := { response_to_vec : Response -> option (list byte) }.

Definition next_frame : Conn (result FrameError (list byte)) := fun c =>
  let '(r, s) := read_frame MAX_FRAME_BYTES (cn_reader c) in (Ret r, set_cn_reader s c).

Section Serve.
Context `{JsonNumberFrom, !JsonFloat, !JsonDocument, !Sha256Hash, !WireSerde, !ManifestCodec,
          !BrokerCodec, !IoEnv, !HostAdapter, !HostReport, !Clock, !ResponseSerde}.

(** [write_response]: did it go out? *)
Definition write_response (response : Response) : Conn bool := fun c =>
  match response_to_vec response with
  | None => (Ret false, c)
  | Some body =>
      let '(r, w) := write_frame MAX_FRAME_BYTES body (cn_writer c) in
      (Ret (is_ok r), set_cn_writer w c)
  end.

Definition invalid_frame : Response :=
  response_failed None PROTOCOL_VERSION_V1 (response_error_new InvalidRequest).

(** The loop: [true] when it has returned, [false] when the fuel ended first. *)
Fixpoint serve_loop (fuel : nat) (config : BrokerConfig) (d : Dispatcher) (peer : PeerCredentials)
    (served : Z) : Conn bool :=
  if bc_max_requests_per_connection config <=? served then mret true else
  match fuel with
  | O => mret false
  | S fuel =>
      frame ← next_frame;
      match frame with
      | Ok body =>
          let served := Z.min (served + 1) u32_max in
          response ← on_broker (handle_frame d body peer);
          written ← write_response response;
          if negb written then mret true else serve_loop fuel config d peer served
      | Err ZeroLength =>
          on_broker (record (rejected peer InvalidRequest "zero_length_frame"));;
          written ← write_response invalid_frame;
          if negb written then mret true else serve_loop fuel config d peer served
      | Err (Oversize _ _) =>
          on_broker (record (rejected peer InvalidRequest "oversize_frame"));;
          _ ← write_response invalid_frame;
          mret true
      | Err (Truncated _ _) => mret true
      | Err Eof | Err FrameIo => mret true
      end
  end.

(** [serve_connection]; the kernel may not tell who the peer is. *)
Definition serve_connection (own : Z) (peer : option PeerCredentials) (config : BrokerConfig)
    (d : Dispatcher) : Conn bool :=
  match peer with
  | None => mret true
  | Some peer =>
      if negb (peer_uid_allowed own peer config)
      then on_broker (record (rejected peer Unauthenticated "peer_uid_denied"));; mret true
      else reader ← gets cn_reader;
           serve_loop (S (stream_size reader)) config d peer 0
  end.
End Serve.

(** ** The accept loop

    One thread accepts; one thread a connection, which ends by lowering the
    count.  A step is one atomic operation of one thread. *)

Inductive AcceptAt :=
  | AtTop
  | Accepted
  | Admitting
  | Spawning.

Record ServerState := mkServer {
  sv_live : Z;
  sv_serving : nat;
  sv_leaving : nat;
  sv_accept : AcceptAt;
  sv_shutdown : bool;
  sv_stopped : bool;
}.

Definition server_start : ServerState := mkServer 0 0 0 AtTop false false.

(** [usize] arithmetic of the counter. *)
Definition usize_wrap (z : Z) : Z := z mod 2 ^ 64.

Inductive server_step (config : BrokerConfig) : ServerState -> ServerState -> Prop :=
  | step_accept live serving leaving :
      server_step config (mkServer live serving leaving AtTop false false)
                         (mkServer live serving leaving Accepted false false)
  | step_accept_late live serving leaving shutdown :
      server_step config (mkServer live serving leaving Accepted shutdown false)
        (mkServer live serving leaving
           (if bc_max_connections config <=? live then AtTop else Admitting) shutdown false)
  | step_count live serving leaving shutdown :
      server_step config (mkServer live serving leaving Admitting shutdown false)
                         (mkServer (usize_wrap (live + 1)) serving leaving Spawning shutdown false)
  | step_spawned live serving leaving shutdown :
      server_step config (mkServer live serving leaving Spawning shutdown false)
                         (mkServer live (S serving) leaving AtTop shutdown false)
  | step_not_spawned live serving leaving shutdown :
      server_step config (mkServer live serving leaving Spawning shutdown false)
                         (mkServer (usize_wrap (live - 1)) serving leaving AtTop shutdown false)
  | step_served live serving leaving accept shutdown stopped :
      server_step config (mkServer live (S serving) leaving accept shutdown stopped)
                         (mkServer live serving (S leaving) accept shutdown stopped)
  | step_left live serving leaving accept shutdown stopped :
      server_step config (mkServer live serving (S leaving) accept shutdown stopped)
                         (mkServer (usize_wrap (live - 1)) serving leaving accept shutdown stopped)
  | step_shutdown live serving leaving accept stopped :
      server_step config (mkServer live serving leaving accept false stopped)
                         (mkServer live serving leaving accept true stopped)
  | step_stop live serving leaving :
      server_step config (mkServer live serving leaving AtTop true false)
                         (mkServer live serving leaving AtTop true true).
