(* ===== verification/ServeTheorems.v ===== *)
(** * The connection loop: the theorems

    What a connection does is what its bytes say, frame by frame; it always
    ends; and the accept loop keeps its count. *)

From S2P Require Import Prelude RustStd Json TxTypes TxStorage TxEngine Wire Jcs Policy Quota.
From S2P Require Import TxDemo QuotaTheorems PolicyTheorems JcsTheorems DispatchDemo.
From S2P Require Import Dispatch DispatchFacts DispatchTheorems Frame FrameTheorems Serve.

Section Serve.
Context `{JsonNumberFrom, !JsonFloat, !JsonDocument, !Sha256Hash, !WireSerde, !ManifestCodec,
          !BrokerCodec, !IoEnv, !HostAdapter, !HostReport, !Clock, !ResponseSerde}.

(** ** What the bytes of a connection ask for *)

(** The frames at the head of some bytes, up to the first after which the
    position is lost. *)
Fixpoint frames_in (fuel : nat) (c : list byte * bool) : list (result FrameError (list byte)) :=
  match fuel with
  | O => []
  | S fuel =>
      let r := frame_of MAX_FRAME_BYTES c in
      r :: (if position_known r then frames_in fuel (drop_of (frame_length r) c) else [])
  end.

(** One response, sent. *)
Definition send (response : Response) (w : Writer) : bool * Writer :=
  match response_to_vec response with
  | None => (false, w)
  | Some body => let '(r, w) := write_frame MAX_FRAME_BYTES body w in (is_ok r, w)
  end.

(** The frames served, one after the other: each is one step on the broker
    and one response, until there are too many, one does not go out, or the
    position is lost. *)
Fixpoint serve_frames (config : BrokerConfig) (d : Dispatcher) (peer : PeerCredentials)
    (frames : list (result FrameError (list byte))) (served : Z) (b : BrokerW) (w : Writer) :
    BrokerW * Writer :=
  match frames with
  | [] => (b, w)
  | frame :: frames =>
      if bc_max_requests_per_connection config <=? served then (b, w) else
      match frame with
      | Ok body =>
          match handle_frame d body peer b with
          | (Ret response, b) =>
              let '(sent, w) := send response w in
              if sent then serve_frames config d peer frames (Z.min (served + 1) u32_max) b w else (b, w)
          | (_, b) => (b, w)
          end
      | Err ZeroLength =>
          let b := set_observations (bk_observations b ++
                     [rejected peer InvalidRequest "zero_length_frame"]) b in
          let '(sent, w) := send invalid_frame w in
          if sent then serve_frames config d peer frames served b w else (b, w)
      | Err (Oversize _ _) =>
          (set_observations (bk_observations b ++ [rejected peer InvalidRequest "oversize_frame"]) b,
           snd (send invalid_frame w))
      | Err _ => (b, w)
      end
  end.

Lemma write_response_send response c :
  write_response response c =
    (Ret (fst (send response (cn_writer c))), set_cn_writer (snd (send response (cn_writer c))) c).
Proof.
  unfold write_response, send. destruct (response_to_vec response) as [body|]; [|by destruct c].
  by destruct (write_frame MAX_FRAME_BYTES body (cn_writer c)).
Qed.

Lemma serve_loop_frames config d peer fuel served s w b :
  (stream_size s < fuel)%nat ->
  exists s', serve_loop fuel config d peer served (mkConnection s w b) =
    (Ret true, let '(b', w') := serve_frames config d peer (frames_in fuel (contents s)) served b w in
               mkConnection s' w' b').
Proof.
  revert served s w b. induction fuel as [|fuel IH]; intros served s w b Hf; [lia|].
  cbn [serve_loop frames_in serve_frames]. destruct (_ <=? served); [by exists s|].
  unfold mbind, M_bind, next_frame at 1. cbn [cn_reader].
  destruct (read_frame_spec MAX_FRAME_BYTES s) as (s' & -> & Hk & _).
  unfold set_cn_reader at 1. cbn [cn_writer cn_broker].
  destruct (frame_of MAX_FRAME_BYTES (contents s)) as [body|[| | | |]] eqn:Hfr;
    try (by exists s').
  - destruct (Hk eq_refl) as [Hc Hsz].
    unfold on_broker, zoom. cbn [cn_broker].
    destruct (handle_frame_answers d body peer b) as (resp & obs & b' & -> & _).
    unfold set_cn_broker. cbn [cn_reader cn_writer]. rewrite write_response_send. cbn [cn_writer].
    destruct (send resp w) as [sent w']. cbn [fst snd]. destruct sent; cbn [negb]; [|by exists s'].
    unfold set_cn_writer. cbn [cn_reader cn_broker position_known]. rewrite <-Hc. apply IH. lia.
  - unfold on_broker, zoom. cbn [cn_broker]. unfold record, modify. cbn beta iota.
    unfold set_cn_broker. cbn [cn_reader cn_writer]. rewrite write_response_send. cbn [cn_writer].
    destruct (send invalid_frame w) as [sent w']. by exists s'.
  - destruct (Hk eq_refl) as [Hc Hsz]. unfold on_broker, zoom. cbn [cn_broker].
    unfold record, modify. cbn beta iota.
    unfold set_cn_broker. cbn [cn_reader cn_writer]. rewrite write_response_send. cbn [cn_writer].
    destruct (send invalid_frame w) as [sent w']. cbn [fst snd]. destruct sent; cbn [negb]; [|by exists s'].
    unfold set_cn_writer. cbn [cn_reader cn_broker position_known]. rewrite <-Hc. apply IH. lia.
Qed.

(** Enough fuel is enough. *)
Lemma frames_in_fuel fuel c :
  (length (fst c) < fuel)%nat -> frames_in fuel c = frames_in (S (length (fst c))) c.
Proof.
  revert c. induction fuel as [fuel IH] using lt_wf_ind. intros c Hf.
  destruct fuel as [|fuel]; [lia|]. cbn [frames_in]. f_equal.
  destruct (position_known _) eqn:Hk; [|done].
  pose proof (frame_of_length _ _ Hk) as Hl.
  set (n := frame_length (frame_of MAX_FRAME_BYTES c)) in *.
  assert (Hn : (4 <= n)%nat) by (unfold n, frame_length; case_match; lia).
  assert (Hd : (length (fst (drop_of n c)) + n = length (fst c))%nat).
  { unfold drop_of. cbn [fst]. rewrite length_drop. lia. }
  destruct (Nat.eq_dec fuel (length (fst c))) as [->|]; [done|].
  rewrite (IH fuel) by lia. symmetry. apply IH; lia.
Qed.

Definition frames_of_stream (s : Reader) : list (result FrameError (list byte)) :=
  frames_in (S (length (fst (contents s)))) (contents s).

Lemma contents_size s : (length (fst (contents s)) <= stream_size s)%nat.
Proof.
  induction s as [|[bytes|[]] s IH]; [done| |rewrite stream_size_fault; cbn [contents]; lia|cbn; lia].
  destruct bytes as [|b bytes]; [cbn; lia|].
  rewrite contents_data by done. cbn [fst]. rewrite length_app, stream_size_data. lia.
Qed.

Lemma connection_spec own peer config d s w b :
  exists s', serve_connection own peer config d (mkConnection s w b) =
    (Ret true,
     match peer with
     | None => mkConnection s w b
     | Some peer =>
         if peer_uid_allowed own peer config then
           let '(b', w') := serve_frames config d peer (frames_of_stream s) 0 b w in
           mkConnection s' w' b'
         else mkConnection s w (set_observations (bk_observations b ++
                [rejected peer Unauthenticated "peer_uid_denied"]) b)
     end).
Proof.
  unfold serve_connection. destruct peer as [peer|]; [|by exists s].
  destruct (peer_uid_allowed own peer config); cbn [negb]; [|by exists s].
  unfold mbind, M_bind, gets. cbn [cn_reader].
  destruct (serve_loop_frames config d peer (S (stream_size s)) 0 s w b) as [s' Hs']; [lia|].
  exists s'. rewrite Hs'. unfold frames_of_stream. rewrite (frames_in_fuel (S (stream_size s))); [done|].
  pose proof (contents_size s). lia.
Qed.

(** C13: a connection does what its bytes say.  [serve_connection] always
    returns.  A peer whose uid is not allowed is observed and nothing is read
    from it; for one that is allowed the broker and the peer see exactly what
    serving the frames of the stream's bytes gives, in their order, whatever
    pieces the bytes came in and wherever reading was interrupted. *)
Theorem connection_serves_its_frames own peer config d s w b :
  exists s', serve_connection own peer config d (mkConnection s w b) =
    (Ret true,
     match peer with
     | None => mkConnection s w b
     | Some peer =>
         if peer_uid_allowed own peer config then
           let '(b', w') := serve_frames config d peer (frames_of_stream s) 0 b w in
           mkConnection s' w' b'
         else mkConnection s w (set_observations (bk_observations b ++
                [rejected peer Unauthenticated "peer_uid_denied"]) b)
     end).
Proof. apply connection_spec. Qed.

(** ** One observation, one answer *)

Definition bodiless (frame : result FrameError (list byte)) : bool :=
  match frame with Ok _ => false | Err _ => true end.

Definition agrees (answer : CallObservation * Response) : Prop :=
  ob_error (fst answer) = re_code <$> rs_error (snd answer) /\
  ob_allowed (fst answer) = is_success (snd answer).

(** What goes out of a response. *)
Definition on_the_wire (response : Response) : list byte :=
  match response_to_vec response with Some body => framed body | None => [] end.

Lemma send_working response w :
  wt_faults w = [] ->
  send response w = (false, w) \/
  send response w = (true, mkWriter (wt_written w ++ on_the_wire response) []).
Proof.
  intros Hw. unfold send, on_the_wire. destruct (response_to_vec response) as [body|]; [|by left].
  unfold write_frame. case_bool_decide; [by left|]. destruct (u32_max <? _); [by left|].
  destruct (MAX_FRAME_BYTES <? _); [by left|]. right. unfold stream_write_all. rewrite Hw. cbn. by rewrite <-app_assoc.
Qed.

(** The answers so far: every observation has one, and all but the last one
    went out. *)
Definition answered (b : BrokerW) (w : Writer) (answers : list (CallObservation * Response))
    (b' : BrokerW) (w' : Writer) : Prop :=
  bk_observations b' = bk_observations b ++ map fst answers /\ Forall agrees answers /\
  exists sent rest, map snd answers = sent ++ rest /\ (length rest <= 1)%nat /\
    wt_written w' = wt_written w ++ concat (map on_the_wire sent).

Lemma answered_one b obs response w :
  agrees (obs, response) -> wt_faults w = [] ->
  answered b w [(obs, response)] (set_observations (bk_observations b ++ [obs]) b) (snd (send response w)).
Proof.
  intros Ha Hw. split; [done|]. split; [by constructor|].
  destruct (send_working response w Hw) as [->| ->]; cbn [snd].
  - exists [], [response]. split_and!; [done|done|]. cbn. by rewrite app_nil_r.
  - exists [response], []. split_and!; [done|cbn; lia|]. cbn. by rewrite app_nil_r.
Qed.

Lemma answered_cons b b1 b' obs response w answers w' :
  bk_observations b1 = bk_observations b ++ [obs] -> agrees (obs, response) ->
  answered b1 (mkWriter (wt_written w ++ on_the_wire response) []) answers b' w' ->
  answered b w ((obs, response) :: answers) b' w'.
Proof.
  intros Hb Ha (Ho & Hf & sent & rest & Hs & Hr & Hw). split; [|split; [by constructor|]].
  - rewrite Ho, Hb. by rewrite <-app_assoc.
  - exists (response :: sent), rest. cbn [map fst snd app concat]. rewrite Hs. split_and!; [done..|].
    rewrite Hw. cbn [wt_written]. by rewrite <-app_assoc.
Qed.

Lemma answered_nil b w : answered b w [] b w.
Proof. split; [by rewrite app_nil_r|]. split; [done|]. exists [], []. split_and!; [done|cbn; lia|]. cbn. by rewrite app_nil_r. Qed.

Lemma serve_frames_answered config d peer frames served b w :
  is_u32 (bc_max_requests_per_connection config) -> 0 <= served -> wt_faults w = [] ->
  exists answers,
    let '(b', w') := serve_frames config d peer frames served b w in
    answered b w answers b' w' /\
    (length answers <= Z.to_nat (bc_max_requests_per_connection config - served) +
                       length (filter (fun f => bodiless f = true) frames))%nat.
Proof.
  intros Hmax. revert served b w. induction frames as [|frame frames IH]; intros served b w Hs Hw.
  { exists []. cbn. split; [apply answered_nil|lia]. }
  cbn [serve_frames]. destruct (_ <=? served) eqn:Em; bool_to_prop.
  { exists []. split; [apply answered_nil|cbn; lia]. }
  rewrite filter_cons. destruct frame as [body|e]; cbn [bodiless].
  - rewrite decide_False by done.
    destruct (handle_frame_answers d body peer b) as (resp & obs & b1 & -> & Ho & Hal & He & _).
    assert (Ha : agrees (obs, resp)) by done.
    pose proof (answered_one b obs resp w Ha Hw) as Hone.
    destruct (send_working resp w Hw) as [Hsend|Hsend]; rewrite Hsend in *; cbn [snd] in *.
    + exists [(obs, resp)]. split; [|cbn; lia]. destruct Hone as (_ & Hf & Hx).
      split; [by rewrite Ho|by split].
    + destruct (IH (Z.min (served + 1) u32_max) b1 (mkWriter (wt_written w ++ on_the_wire resp) []))
        as [answers Hans]; [unfold u32_max; lia|done|].
      exists ((obs, resp) :: answers).
      destruct (serve_frames config d peer frames _ b1 _) as [b' w'].
      destruct Hans as [Hans Hlen]. split; [by eapply answered_cons|].
      unfold is_u32 in Hmax. cbn [length]. lia.
  - rewrite decide_True by done. cbn [length].
    assert (Hrej : forall reason, agrees (rejected peer InvalidRequest reason, invalid_frame)) by done.
    destruct e.
    1,2,5: exists []; split; [apply answered_nil|cbn; lia].
    + exists [(rejected peer InvalidRequest "oversize_frame", invalid_frame)].
      split; [apply answered_one; [apply Hrej|exact Hw]|cbn; lia].
    + pose proof (answered_one b _ _ w (Hrej "zero_length_frame") Hw) as Hone.
      destruct (send_working invalid_frame w Hw) as [Hsend|Hsend]; rewrite Hsend in *; cbn [snd] in *.
      * eexists [(_, _)]. split; [exact Hone|cbn; lia].
      * destruct (IH served (set_observations (bk_observations b ++
          [rejected peer InvalidRequest "zero_length_frame"]) b)
          (mkWriter (wt_written w ++ on_the_wire invalid_frame) []) Hs eq_refl) as [answers Hans].
        eexists ((rejected peer InvalidRequest "zero_length_frame", invalid_frame) :: answers).
        destruct (serve_frames config d peer frames served _ _) as [b' w'].
        destruct Hans as [Hans Hlen]. split; [|cbn; lia].
        eapply answered_cons; [|apply Hrej|exact Hans]. reflexivity.
Qed.

(** On a connection there is an answer for every observation, in order.
    On a working stream what the peer reads is the frames of the answers to
    what was observed, in the order it was observed -- at most the last one
    missing, when it could not be sent -- and every answer carries the error
    that was observed.  Frames with a body are answered no more often than
    the configured number of requests; frames without one do not count. *)
Theorem connection_answers_in_order own peer config d s w b o c' :
  is_u32 (bc_max_requests_per_connection config) -> wt_faults w = [] ->
  peer_uid_allowed own peer config = true ->
  serve_connection own (Some peer) config d (mkConnection s w b) = (o, c') ->
  exists answers,
    answered b w answers (cn_broker c') (cn_writer c') /\
    (length answers <= Z.to_nat (bc_max_requests_per_connection config) +
                       length (filter (fun f => bodiless f = true) (frames_of_stream s)))%nat.
Proof.
  intros Hmax Hw Hal Hrun. destruct (connection_spec own (Some peer) config d s w b) as [s' Hs'].
  rewrite Hs', Hal in Hrun.
  destruct (serve_frames_answered config d peer (frames_of_stream s) 0 b w Hmax) as [answers Hans];
    [lia|done|].
  exists answers. destruct (serve_frames config d peer (frames_of_stream s) 0 b w) as [b' w'].
  injection Hrun as _ <-. destruct Hans as [Hans Hlen]. rewrite Z.sub_0_r in Hlen. by split.
Qed.
End Serve.

(** ** The accept loop *)

Section Accept.
Context (config : BrokerConfig).

(** The connections that are counted: those being served, those about to
    lower the count, and the one about to be served. *)
Definition counted_connections (s : ServerState) : Z :=
  Z.of_nat (sv_serving s) + Z.of_nat (sv_leaving s) +
  match sv_accept s with Spawning => 1 | _ => 0 end.

Definition server_ok (s : ServerState) : Prop :=
  sv_live s = counted_connections s /\ sv_live s <= bc_max_connections config /\
  (sv_accept s = Admitting -> sv_live s < bc_max_connections config).

Lemma server_step_ok s s' :
  bc_max_connections config < 2 ^ 64 -> server_ok s -> server_step config s s' -> server_ok s'.
Proof.
  intros Hmax (Hl & Hm & Ha) Hstep. unfold server_ok, counted_connections in *.
  destruct Hstep; cbn in *; unfold usize_wrap; try specialize (Ha eq_refl); try destruct accept;
    try destruct (Z.leb_spec (bc_max_connections config) live);
    rewrite ?Z.mod_small by lia; cbn; split_and!; try lia; try done; intros Hadm;
    first [discriminate Hadm | specialize (Ha Hadm); lia].
Qed.

Lemma reachable_ok s :
  0 <= bc_max_connections config < 2 ^ 64 -> rtc (server_step config) server_start s -> server_ok s.
Proof.
  intros Hmax Hr. assert (Hs : server_ok server_start) by (split_and!; try done; cbn; lia).
  induction Hr as [|s1 s2 s3 H12 _ IH]; [done|]. apply IH. eapply server_step_ok; [lia|done|done].
Qed.

(** C40: the accept loop never serves more connections than configured.
    Whatever the interleaving of the accepting thread with the threads of the
    connections, the counter is the number of connections that are counted --
    so it neither wraps below zero nor drifts -- and that number never
    exceeds the maximum. *)
Theorem connections_bounded s :
  0 <= bc_max_connections config < 2 ^ 64 -> rtc (server_step config) server_start s ->
  sv_live s = counted_connections s /\ 0 <= sv_live s <= bc_max_connections config /\
  Z.of_nat (sv_serving s) <= bc_max_connections config.
Proof.
  intros Hmax Hr. destruct (reachable_ok s Hmax Hr) as (Hl & Hm & _).
  unfold counted_connections in *. destruct (sv_accept s); lia.
Qed.

(** Every connection can finish. *)
Lemma drained live serving leaving shutdown :
  live = Z.of_nat serving + Z.of_nat leaving -> live < 2 ^ 64 ->
  rtc (server_step config) (mkServer live serving leaving AtTop shutdown false)
                           (mkServer 0 0 0 AtTop shutdown false).
Proof.
  revert live leaving. induction serving as [|serving IH]; intros live leaving Hl Hm.
  - revert live Hl Hm. induction leaving as [|leaving IHl]; intros live Hl Hm.
    { subst live. done. }
    eapply rtc_l; [apply step_left|]. unfold usize_wrap. rewrite Z.mod_small by lia. apply IHl; lia.
  - eapply rtc_l; [apply step_served|]. apply IH; lia.
Qed.

(** No slot is lost.  From every reachable state of a running server the
    connections that are counted can finish, after which the count is zero:
    so, when any connection is allowed at all and no shutdown was asked for,
    the next peer is let in. *)
Theorem slots_come_back s :
  0 < bc_max_connections config < 2 ^ 64 -> rtc (server_step config) server_start s ->
  sv_stopped s = false -> sv_shutdown s = false ->
  rtc (server_step config) s (mkServer 0 0 0 AtTop false false) /\
  rtc (server_step config) s (mkServer 0 0 0 Admitting false false).
Proof.
  intros Hmax Hr Hst Hsh. destruct (reachable_ok s ltac:(lia) Hr) as (Hl & Hm & Ha).
  destruct s as [live serving leaving accept shutdown stopped]. cbn in *. subst shutdown stopped.
  unfold counted_connections in Hl. cbn in Hl.
  assert (Htop : rtc (server_step config) (mkServer live serving leaving accept false false)
                                          (mkServer 0 0 0 AtTop false false)).
  { destruct accept; rewrite ?Z.add_0_r in Hl.
    - apply drained; lia.
    - eapply rtc_l; [apply step_accept_late|]. destruct (Z.leb_spec (bc_max_connections config) live).
      + apply drained; lia.
      + eapply rtc_l; [apply step_count|]. eapply rtc_l; [apply step_spawned|].
        unfold usize_wrap. rewrite Z.mod_small by lia. apply drained; lia.
    - specialize (Ha eq_refl). eapply rtc_l; [apply step_count|]. eapply rtc_l; [apply step_spawned|].
      unfold usize_wrap. rewrite Z.mod_small by lia. apply drained; lia.
    - eapply rtc_l; [apply step_spawned|]. apply drained; lia. }
  split; [done|]. etrans; [exact Htop|]. eapply rtc_l; [apply step_accept|].
  eapply rtc_l; [apply step_accept_late|]. rewrite (proj2 (Z.leb_gt _ _)) by lia. done.
Qed.
End Accept.

(** ** A concrete connection *)

(** A response is written as its error, or as nothing but its success. *)
Definition demo_response_serde : ResponseSerde :=
  {| response_to_vec := fun r =>
       Some (match rs_error r with
             | None => bytes_of_string "ok"
             | Some e => bytes_of_string
                 (match re_code e with
                  | InvalidRequest => "invalid_request" | Unauthenticated => "unauthenticated"
                  | QuotaExhausted => "quota_exhausted" | _ => "error"
                  end)
             end) |}.

Definition demo_config : BrokerConfig :=
  {| bc_socket_path := ["run"; "broker.sock"]; bc_token_store_path := None; bc_manifest_dir := None;
     bc_state_dir := None; bc_allowed_peer_uids := [1000]; bc_max_connections := 1;
     bc_max_requests_per_connection := 2; bc_read_timeout := NSEC; bc_write_timeout := NSEC |}.

(** A proposal in two pieces, an empty frame, a test, and a request too many. *)
Definition demo_stream : Reader :=
  [RData (take 3 (framed (frame 0))); RFault Interrupted; RData (drop 3 (framed (frame 0)));
   RData (framed [] ++ framed (frame 1)); RData (framed (frame 2))].

Definition demo_serve : Conn bool :=
  @serve_connection int_number int_number_from no_floats demo_document demo_sha256 demo_wire
    demo_manifests demo_broker_codec reliable_io demo_host (demo_report generous_host) demo_clock
    demo_response_serde 0 (Some demo_peer) demo_config demo_dispatcher.

Definition demo_connection : Connection := mkConnection demo_stream (mkWriter [] []) demo_broker.

Lemma demo_served :
  (wt_written (cn_writer (snd (demo_serve demo_connection))),
   map ob_reason (bk_observations (cn_broker (snd (demo_serve demo_connection))))) =
  (framed (bytes_of_string "ok") ++ framed (bytes_of_string "invalid_request") ++
   framed (bytes_of_string "ok"),
   ["authorized"; "zero_length_frame"; "authorized"]).
Proof. vm_compute. reflexivity. Qed.

Lemma connection_answers_in_order_witness :
  exists answers,
    @answered demo_response_serde demo_broker (mkWriter [] []) answers
      (cn_broker (snd (demo_serve demo_connection))) (cn_writer (snd (demo_serve demo_connection))) /\
    (length answers <= 2 + 2)%nat.
Proof.
  apply (@connection_answers_in_order int_number int_number_from no_floats demo_document demo_sha256
           demo_wire demo_manifests demo_broker_codec reliable_io demo_host (demo_report generous_host)
           demo_clock demo_response_serde 0 demo_peer demo_config demo_dispatcher demo_stream
           (mkWriter [] []) demo_broker (fst (demo_serve demo_connection))
           (snd (demo_serve demo_connection))).
  - split; vm_compute; discriminate.
  - reflexivity.
  - reflexivity.
  - apply surjective_pairing.
Defined.

(** The one slot taken. *)
Lemma demo_reachable : rtc (server_step demo_config) server_start (mkServer 1 1 0 AtTop false false).
Proof.
  eapply rtc_l; [apply step_accept|]. eapply rtc_l; [apply step_accept_late|].
  eapply rtc_l; [apply step_count|]. eapply rtc_l; [apply step_spawned|]. done.
Qed.

Lemma connections_bounded_witness :
  let s := mkServer 1 1 0 AtTop false false in
  rtc (server_step demo_config) server_start s /\
  sv_live s = counted_connections s /\ 0 <= sv_live s <= bc_max_connections demo_config.
Proof.
  split; [exact demo_reachable|].
  destruct (connections_bounded demo_config (mkServer 1 1 0 AtTop false false)) as (Hl & Hm & _).
  - split; vm_compute; congruence.
  - exact demo_reachable.
  - split; [exact Hl|exact Hm].
Defined.

Lemma slots_come_back_witness :
  rtc (server_step demo_config) (mkServer 1 1 0 AtTop false false) (mkServer 0 0 0 Admitting false false).
Proof.
  apply (slots_come_back demo_config (mkServer 1 1 0 AtTop false false)).
  - split; vm_compute; reflexivity.
  - exact demo_reachable.
  - reflexivity.
  - reflexivity.
Defined.
