(* ===== verification/RustText.v ===== *)
(** * Texts and path components, as Rust's standard library has them

    A text is a [string] of bytes, or the list of the scalar values of its
    characters where the source walks a [Vec<char>]. *)

From S2P Require Import Prelude RustStd TxTypes Jcs.

Definition chars := list Z.

Definition chars_of (s : string) : chars := utf8_chars (bytes_of_string s).

Definition ch (c : Ascii.ascii) : Z := Z.of_nat (Ascii.nat_of_ascii c).

Definition C_NEWLINE : Z := 10.
Definition C_SPACE : Z := 32.
Definition C_DQUOTE : Z := 34.
Definition C_HASH : Z := 35.
Definition C_DOLLAR : Z := 36.
Definition C_QUOTE : Z := 39.
Definition C_LPAREN : Z := 40.
Definition C_STAR : Z := 42.
Definition C_COMMA : Z := 44.
Definition C_DOT : Z := 46.
Definition C_SLASH : Z := 47.
Definition C_EQUALS : Z := 61.
Definition C_BACKSLASH : Z := 92.
Definition C_LBRACE : Z := 123.

(** [char::is_whitespace] *)
Definition is_whitespace (c : Z) : bool :=
  ((9 <=? c) && (c <=? 13)) || (c =? 32) || (c =? 133) || (c =? 160) || (c =? 5760) ||
  ((8192 <=? c) && (c <=? 8202)) || (c =? 8232) || (c =? 8233) || (c =? 8239) || (c =? 8287) ||
  (c =? 12288).

(** [char::to_ascii_lowercase] *)
Definition to_ascii_lowercase (c : Z) : Z := if (65 <=? c) && (c <=? 90) then c + 32 else c.

(** [str::contains] *)
Fixpoint starts_with (needle hay : chars) : bool :=
  match needle, hay with
  | [], _ => true
  | n :: needle, h :: hay => (n =? h) && starts_with needle hay
  | _, [] => false
  end.

Fixpoint contains (needle : chars) (hay : chars) : bool :=
  starts_with needle hay || match hay with [] => false | _ :: hay => contains needle hay end.

Definition has (hay : chars) (needle : string) : bool := contains (chars_of needle) hay.

(** ** [str::trim] *)

(** The encodings of the white space characters. *)
Definition blanks : list (list Z) :=
  [[9]; [10]; [11]; [12]; [13]; [32]; [194; 133]; [194; 160]; [225; 154; 128];
   [226; 128; 128]; [226; 128; 129]; [226; 128; 130]; [226; 128; 131]; [226; 128; 132];
   [226; 128; 133]; [226; 128; 134]; [226; 128; 135]; [226; 128; 136]; [226; 128; 137];
   [226; 128; 138]; [226; 128; 168]; [226; 128; 169]; [226; 128; 175]; [226; 129; 159];
   [227; 128; 128]].

Fixpoint strip_prefix (p : list Z) (bs : list byte) : option (list byte) :=
  match p, bs with
  | [], _ => Some bs
  | z :: p, b :: bs => if byte_val b =? z then strip_prefix p bs else None
  | _ :: _, [] => None
  end.

Fixpoint strip_one (ps : list (list Z)) (bs : list byte) : option (list byte) :=
  match ps with
  | [] => None
  | p :: ps => match strip_prefix p bs with Some bs => Some bs | None => strip_one ps bs end
  end.

Fixpoint trim_start (ps : list (list Z)) (fuel : nat) (bs : list byte) : list byte :=
  match fuel, strip_one ps bs with
  | S fuel, Some bs => trim_start ps fuel bs
  | _, _ => bs
  end.

Definition trim (s : string) : string :=
  let bs := bytes_of_string s in
  let bs := trim_start blanks (length bs) bs in
  string_of_bytes (rev (trim_start (map (@rev Z) blanks) (length bs) (rev bs))).

(** [str::parse::<u32>().ok()] *)
Definition parse_u32 (s : string) : option Z :=
  n ← parse_u64 s; if n <=? u32_max then Some n else None.

(** ** Prefixes and separators *)
Fixpoint strip_prefix_string (p s : string) : option string :=
  match p, s with
  | EmptyString, _ => Some s
  | String c p, String d s => if decide (c = d) then strip_prefix_string p s else None
  | String _ _, EmptyString => None
  end.

Fixpoint trim_start_matches (fuel : nat) (p s : string) : string :=
  match fuel, strip_prefix_string p s with
  | S fuel, Some s => trim_start_matches fuel p s
  | _, _ => s
  end.

(** [str::starts_with] *)
Definition str_starts_with (s p : string) : bool := bool_decide (is_Some (strip_prefix_string p s)).

(** [str::split_once] of a text: at the first place the separator occurs. *)
Fixpoint split_once_str (sep s : string) : option (string * string) :=
  match strip_prefix_string sep s with
  | Some rest => Some ("", rest)
  | None =>
      match s with
      | EmptyString => None
      | String c s => '(a, b) ← split_once_str sep s; Some (String c a, b)
      end
  end.

(** [str::lines]: cut at line feeds; a carriage return before one, and the
    empty piece after the last, are dropped. *)
Definition LF : Ascii.ascii := Ascii.ascii_of_nat 10.
Definition CR : Ascii.ascii := Ascii.ascii_of_nat 13.

Fixpoint strip_cr (s : string) : string :=
  match s with
  | EmptyString => EmptyString
  | String c EmptyString => if decide (c = CR) then EmptyString else String c EmptyString
  | String c s => String c (strip_cr s)
  end.

Fixpoint split_lines (s : string) : string * list string :=
  match s with
  | EmptyString => ("", [])
  | String c s =>
      let '(first, rest) := split_lines s in
      if decide (c = LF) then ("", first :: rest) else (String c first, rest)
  end.

(** The last piece has no line feed after it: it is kept as it is, when there
    is anything of it. *)
Fixpoint finish_lines (first : string) (rest : list string) : list string :=
  match rest with
  | [] => if decide (first = "") then [] else [first]
  | next :: rest => strip_cr first :: finish_lines next rest
  end.

Definition lines (s : string) : list string :=
  let '(first, rest) := split_lines s in finish_lines first rest.

(** [str::split_whitespace]: the pieces between white space characters. *)
Definition emit (piece : list byte) : list string :=
  match piece with [] => [] | _ => [string_of_bytes piece] end.

Fixpoint split_blanks (fuel : nat) (piece bs : list byte) : list string :=
  match fuel with
  | O => []
  | S fuel =>
      match strip_one blanks bs with
      | Some bs => emit piece ++ split_blanks fuel [] bs
      | None =>
          match bs with
          | [] => emit piece
          | b :: bs => split_blanks fuel (piece ++ [b]) bs
          end
      end
  end.

Definition split_whitespace (s : string) : list string :=
  let bs := bytes_of_string s in split_blanks (S (length bs)) [] bs.

(** ** [Path::components] and [PathBuf] *)

Inductive Component := RootDir | CurDir | ParentDir | Normal (name : string).
#[export] Instance Component_eq_dec : EqDecision Component.
Proof. solve_decision. Defined.

Definition component_of (name : string) : option Component :=
  if decide (name = "") then None
  else if decide (name = ".") then None
  else if decide (name = "..") then Some ParentDir
  else Some (Normal name).

Fixpoint split_slash (s : string) : string * list string :=
  match s with
  | EmptyString => ("", [])
  | String c s =>
      let '(first, rest) := split_slash s in
      if decide (ch c = C_SLASH) then ("", first :: rest) else (String c first, rest)
  end.

(** A leading dot of a relative path is a component of its own. *)
Definition components (path : string) : list Component :=
  let '(first, rest) := split_slash path in
  match first, rest with
  | "", _ :: _ => RootDir :: omap component_of rest
  | ".", _ => CurDir :: omap component_of rest
  | _, _ => omap component_of (first :: rest)
  end.

(** A [PathBuf] that grows by pushing names: rooted or not. *)
Record PathBuf := mkPathBuf { pb_rooted : bool; pb_names : list string }.

Definition pathbuf_pop (p : PathBuf) : PathBuf := mkPathBuf (pb_rooted p) (removelast (pb_names p)).

Definition pathbuf_push (p : PathBuf) (c : Component) : PathBuf :=
  match c with
  | RootDir => mkPathBuf true []
  | Normal name => mkPathBuf (pb_rooted p) (pb_names p ++ [name])
  | ParentDir => pathbuf_pop p
  | CurDir => p
  end.

Definition pathbuf_text (p : PathBuf) : string :=
  (if pb_rooted p then "/" else "") +:+ String.concat "/" (pb_names p).

(** [Path::join] of a text with a relative one. *)
Definition ends_with_slash (s : string) : bool :=
  match last (String.list_ascii_of_string s) with Some c => ch c =? C_SLASH | None => false end.

Definition join_text (a b : string) : string :=
  if decide (a = "") then b
  else if ends_with_slash a then a +:+ b else a +:+ "/" +:+ b.
