(* ===== verification/NixScan.v ===== *)
(** * The scanner of protected resources

    [adapters/nix/src/protected.rs].  A text is the list of its characters,
    their scalar values: the loops of the source walk a [Vec<char>], and here
    they walk what is left of it.  [str::to_lowercase] needs the Unicode
    tables and is the interface [UnicodeCase]; [char::to_ascii_lowercase] is
    written out. *)

From S2P Require Import Prelude RustStd TxTypes Jcs RustText.

Class UnicodeCase := { to_lowercase : string -> string }.

(** On ASCII text lowercasing is that of its characters. *)
Class UnicodeCaseLaws `{UnicodeCase} : Prop := {
  to_lowercase_ascii s :
    forallb (fun b => byte_val b <=? 127) (bytes_of_string s) = true ->
    chars_of (to_lowercase s) = map to_ascii_lowercase (chars_of s);
}.

Inductive ProtectedRejectReason :=
  | Watchdog | BrokerWal | RollbackPath | OobStore | SelfProtection | RejectKernel
  | RejectBootloader | Firewall | StorageLayout | ConflictingChange | DynamicExpression.
#[export] Instance ProtectedRejectReason_eq_dec : EqDecision ProtectedRejectReason.
Proof. solve_decision. Defined.

(** ** Comments *)

(** To the end of the line, which stays. *)
Fixpoint skip_line (l : chars) : chars :=
  match l with
  | [] => []
  | c :: l' => if c =? C_NEWLINE then l else skip_line l'
  end.

(** To behind the next pair of these two characters; when there is none, to
    behind the end. *)
Fixpoint skip_to_pair (a b : Z) (l : chars) : chars :=
  match l with
  | c :: ((d :: rest) as l') => if (c =? a) && (d =? b) then rest else skip_to_pair a b l'
  | _ => []
  end.

Definition next_is (c : Z) (l : chars) : bool := match l with d :: _ => c =? d | [] => false end.

Fixpoint strip_comments (fuel : nat) (l : chars) : chars :=
  match fuel, l with
  | S fuel, c :: rest =>
      if c =? C_HASH then strip_comments fuel (skip_line l)
      else if (c =? C_SLASH) && next_is C_STAR rest
      then strip_comments fuel (skip_to_pair C_STAR C_SLASH (tl rest))
      else c :: strip_comments fuel rest
  | _, _ => []
  end.

Definition strip_nix_comments (content : chars) : chars :=
  strip_comments (length content) content.

(** ** Strings *)

Fixpoint skip_string (l : chars) : chars :=
  match l with
  | [] => []
  | c :: l' =>
      if c =? C_BACKSLASH then match l' with [] => [] | _ :: l'' => skip_string l'' end
      else if c =? C_DQUOTE then l' else skip_string l'
  end.

Fixpoint remove_strings (fuel : nat) (l : chars) : chars :=
  match fuel, l with
  | S fuel, c :: rest =>
      if c =? C_DQUOTE then C_SPACE :: remove_strings fuel (skip_string rest)
      else if (c =? C_QUOTE) && next_is C_QUOTE rest
      then C_SPACE :: remove_strings fuel (skip_to_pair C_QUOTE C_QUOTE (tl rest))
      else c :: remove_strings fuel rest
  | _, _ => []
  end.

Definition remove_string_literal_values (content : chars) : chars :=
  remove_strings (length content) content.

(** ** Quoted attributes *)

Fixpoint skip_blanks (l : chars) : chars :=
  match l with
  | c :: l' => if is_whitespace c then skip_blanks l' else l
  | [] => []
  end.

(** [before] is what comes before the character, the nearest first. *)
Definition is_attrpath_quote_start (before : chars) (c : Z) : bool :=
  (c =? C_DQUOTE) &&
  match skip_blanks before with
  | [] => true
  | prev :: _ => bool_decide (prev ∈ [C_LBRACE; C_DOT; C_COMMA; C_LPAREN])
  end.

(** [append_quoted_ident], from behind the quote: what is appended and how
    many characters it goes over. *)
Fixpoint quoted_ident (l : chars) : chars * nat :=
  match l with
  | [] => ([], 0%nat)
  | c :: l' =>
      if c =? C_DQUOTE then ([], 1%nat)
      else if c =? C_BACKSLASH then
        match l' with
        | d :: l'' =>
            let '(out, n) := quoted_ident l'' in (to_ascii_lowercase d :: out, S (S n))
        | [] => let '(out, n) := quoted_ident l' in (to_ascii_lowercase c :: out, S n)
        end
      else let '(out, n) := quoted_ident l' in (to_ascii_lowercase c :: out, S n)
  end.

Fixpoint canonicalize_quotes (fuel : nat) (before l : chars) : chars :=
  match fuel, l with
  | S fuel, c :: rest =>
      if is_attrpath_quote_start before c then
        let '(out, n) := quoted_ident rest in
        out ++ canonicalize_quotes fuel (rev (c :: take n rest) ++ before) (drop n rest)
      else if (c =? C_DOT) && next_is C_DQUOTE rest then
        let '(out, n) := quoted_ident (tl rest) in
        C_DOT :: out ++
          canonicalize_quotes fuel (rev (c :: take (S n) rest) ++ before) (drop (S n) rest)
      else to_ascii_lowercase c :: canonicalize_quotes fuel (c :: before) rest
  | _, _ => []
  end.

Definition canonicalize_quoted_attributes (content : chars) : chars :=
  canonicalize_quotes (length content) [] content.

Definition normalize_nix_content (content : chars) : chars :=
  let without_comments := strip_nix_comments content in
  if has without_comments "${" then chars_of "${"
  else
    let with_attrs := canonicalize_quoted_attributes without_comments in
    let without_string_values := remove_string_literal_values with_attrs in
    filter (fun c => is_whitespace c = false) without_string_values.

(** ** What a text selects *)

Definition content_selects_broker_state (t : chars) : bool :=
  has t "/var/lib/agentbed/broker/state" || has t "agentbed/broker/state".

Definition content_selects_watchdog (t : chars) : bool :=
  has t "agentbed-watchdogd" || has t "watchdogd.package" || has t "watchdogd.enable" ||
  has t "services.agentbed-watchdogd" || has t "systemd.services.agentbed-watchdogd".

Definition content_selects_kernel (t : chars) : bool :=
  has t "boot.kernelpackages" || (has t "kernelpackages" && (has t "boot={" || has t "boot=")).

Definition content_selects_bootloader (t : chars) : bool :=
  has t "boot.loader" || has t "systemd-boot" || (has t "boot={" && has t "loader") ||
  (has t "boot=" && has t "loader=").

Definition content_selects_firewall (t : chars) : bool :=
  has t "networking.firewall" || (has t "networking={" && has t "firewall").

Definition content_selects_storage_layout (t : chars) : bool :=
  has t "filesystems." || has t "filesystems=" || has t "filesystems={".

(** ** Paths *)

Definition normalize_path (path : string) : string :=
  pathbuf_text (fold_left pathbuf_push (components path) (mkPathBuf false [])).

(** ** The scan *)

Section Scan.
Context `{UnicodeCase}.

Definition check_one (change : ConfigFileChange) (normalized : string) :
    result ProtectedRejectReason unit :=
  let lower := chars_of (to_lowercase normalized) in
  fail_if (has lower "watchdogd" || has lower "agentbed-watchdogd" ||
           has lower "/var/lib/agentbed/watchdog") Watchdog;;
  fail_if (has lower "/var/lib/agentbed/broker/state" || has lower "/var/lib/agentbed/wal/")
          BrokerWal;;
  fail_if (has lower "/var/lib/agentbed/rollback/") RollbackPath;;
  fail_if (has lower "/var/lib/agentbed/oob/") OobStore;;
  fail_if (has lower "/etc/nixos/agentbed/") SelfProtection;;
  let semantic := normalize_nix_content (chars_of (ch_content change)) in
  fail_if (has semantic "${") DynamicExpression;;
  fail_if (content_selects_broker_state semantic) BrokerWal;;
  fail_if (content_selects_watchdog semantic) Watchdog;;
  fail_if (content_selects_kernel semantic) RejectKernel;;
  fail_if (content_selects_bootloader semantic) RejectBootloader;;
  fail_if (content_selects_firewall semantic) Firewall;;
  fail_if (content_selects_storage_layout semantic) StorageLayout.

Fixpoint check_from (changes : list ConfigFileChange) (seen : gmap string string) :
    result ProtectedRejectReason unit :=
  match changes with
  | [] => Ok tt
  | change :: changes =>
      let normalized := normalize_path (ch_path change) in
      match seen !! normalized with
      | Some existing =>
          if bool_decide (existing <> ch_content change) then Err ConflictingChange
          else check_from changes seen
      | None =>
          check_one change normalized;;
          check_from changes (<[normalized := ch_content change]> seen)
      end
  end.

Definition check_protected_changes (changes : list ConfigFileChange) :
    result ProtectedRejectReason unit := check_from changes ∅.
End Scan.
