(* ===== verification/NixScanTheorems.v ===== *)
(** * The scanner of protected resources: the theorems

    What a set of changes has to look like to pass, what comments are worth,
    and a text the scanner does not see through. *)

From S2P Require Import Prelude RustStd TxTypes Jcs RustText NixScan.

(** ** Searching *)

Lemma starts_with_prefix needle hay : starts_with needle hay = true <-> needle `prefix_of` hay.
Proof.
  revert hay. induction needle as [|n needle IH]; intros hay; cbn [starts_with].
  { split; [intros _; by exists hay|done]. }
  destruct hay as [|h hay].
  { split; [done|]. intros [k Hk]. done. }
  rewrite andb_true_iff, Z.eqb_eq, IH. split.
  - intros [-> Hp]. by apply prefix_cons.
  - intros Hp. split; [by eapply prefix_cons_inv_1|by eapply prefix_cons_inv_2].
Qed.

Lemma contains_spec needle hay :
  contains needle hay = true <-> exists before after, hay = before ++ needle ++ after.
Proof.
  induction hay as [|h hay IH]; cbn [contains].
  - rewrite orb_false_r, starts_with_prefix. split.
    + intros [k Hk]. exists [], k. done.
    + intros (before & after & Hk). destruct before; [|done]. by exists after.
  - rewrite orb_true_iff, starts_with_prefix, IH. split.
    + intros [[k ->]|(before & after & ->)]; [by exists [], k|by exists (h :: before), after].
    + intros ([|b before] & after & Heq).
      * left. by exists after.
      * right. injection Heq as _ ->. by exists before, after.
Qed.

(** What contains more contains less. *)
Lemma contains_within needle bigger hay :
  contains needle bigger = true -> contains bigger hay = true -> contains needle hay = true.
Proof.
  rewrite !contains_spec. intros (a & b & ->) (c & d & ->). exists (c ++ a), (b ++ d).
  by rewrite <-!app_assoc.
Qed.

Lemma has_within small big hay :
  contains (chars_of small) (chars_of big) = true -> has hay big = true -> has hay small = true.
Proof. intros Hc Hh. by eapply contains_within. Qed.

(** ** Enough fuel *)

Lemma skip_line_length l : (length (skip_line l) <= length l)%nat.
Proof. induction l as [|c l IH]; [done|]. cbn. destruct (_ =? _); cbn; lia. Qed.

Lemma skip_to_pair_length a b l : (length (skip_to_pair a b l) <= length l)%nat.
Proof.
  induction l as [|c l IH]; [done|]. destruct l as [|d l]; [cbn; lia|].
  change (skip_to_pair a b (c :: d :: l)) with
    (if (c =? a) && (d =? b) then l else skip_to_pair a b (d :: l)).
  destruct (_ && _); cbn [length] in *; lia.
Qed.

Lemma strip_comments_fuel fuel l :
  (length l <= fuel)%nat -> strip_comments fuel l = strip_nix_comments l.
Proof.
  revert l. induction fuel as [fuel IH] using lt_wf_ind. intros l Hl. unfold strip_nix_comments.
  destruct fuel as [|fuel], l as [|c rest]; try done; cbn [length] in *; [lia|].
  assert (Hall : forall k, (length k <= length rest)%nat ->
    strip_comments fuel k = strip_comments (length rest) k).
  { intros k Hk. rewrite (IH fuel) by lia. destruct (Nat.eq_dec fuel (length rest)) as [->|].
    - symmetry. apply IH; lia.
    - symmetry. apply IH; lia. }
  cbn [strip_comments]. destruct (c =? C_HASH) eqn:Eh.
  { apply Hall. cbn [skip_line]. bool_to_prop. subst c.
    change (C_HASH =? C_NEWLINE) with false. apply skip_line_length. }
  destruct (_ && _); [apply Hall|f_equal; by apply Hall].
  etrans; [apply skip_to_pair_length|]. destruct rest; cbn; lia.
Qed.

Lemma strip_cons c rest :
  strip_nix_comments (c :: rest) =
    if c =? C_HASH then strip_nix_comments (skip_line rest)
    else if (c =? C_SLASH) && next_is C_STAR rest
    then strip_nix_comments (skip_to_pair C_STAR C_SLASH (tl rest))
    else c :: strip_nix_comments rest.
Proof.
  unfold strip_nix_comments at 1. cbn [length strip_comments].
  destruct (c =? C_HASH) eqn:Eh.
  { cbn [skip_line]. bool_to_prop. subst c. cbn. apply strip_comments_fuel, skip_line_length. }
  destruct (_ && _); [|f_equal; by apply strip_comments_fuel].
  apply strip_comments_fuel. etrans; [apply skip_to_pair_length|]. destruct rest; cbn; lia.
Qed.

(** ** Comments *)

Definition opens_comment (a l : chars) : Prop := last a = Some C_SLASH /\ head l = Some C_STAR.

(** Text before which no comment has begun. *)
Definition plain (a : chars) : Prop := (C_HASH ∉ a) /\ has a "/*" = false.

Lemma plain_cons c a :
  plain (c :: a) -> c <> C_HASH /\ (c = C_SLASH -> head a <> Some C_STAR) /\ plain a.
Proof.
  unfold plain. rewrite not_elem_of_cons. intros [[Hc Ha] Hh]. split; [done|].
  unfold has in *. cbn [contains] in Hh. apply orb_false_iff in Hh as [Hs Hh]. split; [|done].
  intros -> Hd. destruct a as [|d a]; [done|]. injection Hd as ->. discriminate Hs.
Qed.

Lemma strip_plain a l :
  plain a -> ~ opens_comment a l -> strip_nix_comments (a ++ l) = a ++ strip_nix_comments l.
Proof.
  unfold opens_comment. induction a as [|c a IH]; intros Hp Ho; [done|].
  apply plain_cons in Hp as (Hc & Hs & Hp). cbn [app]. rewrite strip_cons.
  destruct (Z.eqb_spec c C_HASH); [done|].
  assert (Hn : (c =? C_SLASH) && next_is C_STAR (a ++ l) = false).
  { destruct (Z.eqb_spec c C_SLASH) as [->|]; [|done]. cbn [andb].
    destruct (next_is C_STAR (a ++ l)) eqn:E; [|done]. exfalso. destruct a as [|d a].
    - apply Ho. split; [done|]. destruct l as [|x l]; [done|]. apply Z.eqb_eq in E. by subst x.
    - apply (Hs eq_refl). apply Z.eqb_eq in E. by subst d. }
  rewrite Hn, IH; [done|done|]. intros [Hl Hh]. apply Ho. split; [|done].
  destruct a as [|d a]; [done|]. by rewrite last_cons_cons.
Qed.

Lemma skip_comment body b :
  has body "*/" = false -> skip_to_pair C_STAR C_SLASH (body ++ C_STAR :: C_SLASH :: b) = b.
Proof.
  induction body as [|c body IH]; intros Hb; [done|].
  unfold has in *. cbn [contains] in Hb. apply orb_false_iff in Hb as [Hs Hb]. specialize (IH Hb).
  cbn [app]. destruct (body ++ C_STAR :: C_SLASH :: b) as [|d l] eqn:E; [by destruct body|].
  change (skip_to_pair C_STAR C_SLASH (c :: d :: l)) with
    (if (c =? C_STAR) && (d =? C_SLASH) then l else skip_to_pair C_STAR C_SLASH (d :: l)).
  destruct ((c =? C_STAR) && (d =? C_SLASH)) eqn:Ecd; [|done]. exfalso.
  apply andb_true_iff in Ecd as [->%Z.eqb_eq ->%Z.eqb_eq]. destruct body as [|d' body]; cbn in E; [discriminate E|].
  injection E as -> _. discriminate Hs.
Qed.

Definition block_comment (body : chars) : chars := C_SLASH :: C_STAR :: body ++ [C_STAR; C_SLASH].

Lemma strip_block_comment a body b :
  plain a -> has body "*/" = false -> ~ opens_comment a b ->
  strip_nix_comments (a ++ block_comment body ++ b) = strip_nix_comments (a ++ b).
Proof.
  intros Ha Hb Ho. rewrite (strip_plain a b) by done. rewrite strip_plain; [|done|by intros [_ [=]]].
  f_equal. unfold block_comment. cbn [app]. rewrite strip_cons. cbn [tl next_is].
  change (C_SLASH =? C_HASH) with false. change ((C_SLASH =? C_SLASH) && (C_STAR =? C_STAR)) with true.
  cbn match. rewrite <-app_assoc. cbn [app]. by rewrite skip_comment.
Qed.

Section Verdicts.
Context `{!UnicodeCase}.

(** A block comment does not hide what it is put into.  Taking a block
    comment out of a text, where no other comment has begun before it,
    does not change the verdict on the change, whatever else the text holds:
    [boot./* x */loader] is judged as [boot.loader]. *)
Theorem comments_do_not_hide path text text' a body b :
  plain a -> has body "*/" = false -> ~ opens_comment a b ->
  chars_of text = a ++ block_comment body ++ b -> chars_of text' = a ++ b ->
  check_protected_changes [mkChange path text] = check_protected_changes [mkChange path text'].
Proof.
  intros Ha Hb Ho Ht Ht'. unfold check_protected_changes, check_from. cbn [ch_path ch_content].
  rewrite lookup_empty. f_equal. unfold check_one. cbn [ch_content].
  assert (Hn : normalize_nix_content (chars_of text) = normalize_nix_content (chars_of text')).
  { unfold normalize_nix_content. by rewrite Ht, Ht', strip_block_comment. }
  by rewrite Hn.
Qed.

(** ** What passes *)

(** Fragments that no path may contain. *)
Definition protected_paths : list string :=
  ["watchdogd"; "/var/lib/agentbed/watchdog"; "/var/lib/agentbed/broker/state"; "/var/lib/agentbed/wal/";
   "/var/lib/agentbed/rollback/"; "/var/lib/agentbed/oob/"; "/etc/nixos/agentbed/"].

(** Fragments that no text may contain together. *)
Definition protected_texts : list (list string) :=
  [["${"]; ["agentbed/broker/state"]; ["agentbed-watchdogd"]; ["watchdogd.package"]; ["watchdogd.enable"];
   ["boot.kernelpackages"]; ["kernelpackages"; "boot="]; ["boot.loader"]; ["systemd-boot"];
   ["boot={"; "loader"]; ["boot="; "loader="]; ["networking.firewall"]; ["networking={"; "firewall"];
   ["filesystems."]; ["filesystems="]].

Definition clean (change : ConfigFileChange) : Prop :=
  Forall (fun f => has (chars_of (to_lowercase (normalize_path (ch_path change)))) f = false)
         protected_paths /\
  Forall (fun fs => forallb (has (normalize_nix_content (chars_of (ch_content change)))) fs = false)
         protected_texts.

Lemma has_false_within small big hay :
  contains (chars_of small) (chars_of big) = true -> has hay small = false -> has hay big = false.
Proof.
  intros Hc Hs. destruct (has hay big) eqn:E; [|done]. by rewrite (has_within small big) in Hs.
Qed.

(** The fragments of the source that contain another one. *)
Lemma has_redundant t :
  (has t "boot={" = true -> has t "boot=" = true) /\
  (has t "filesystems={" = true -> has t "filesystems=" = true) /\
  (has t "/var/lib/agentbed/broker/state" = true -> has t "agentbed/broker/state" = true) /\
  (has t "services.agentbed-watchdogd" = true -> has t "agentbed-watchdogd" = true) /\
  (has t "systemd.services.agentbed-watchdogd" = true -> has t "agentbed-watchdogd" = true) /\
  (has t "agentbed-watchdogd" = true -> has t "watchdogd" = true).
Proof. split_and!; apply has_within; vm_compute; reflexivity. Qed.

#[local] Opaque has.

Lemma not_without (a b : bool) : (b = true -> a = true) -> a = false -> b = false.
Proof. destruct a, b; naive_solver. Qed.

Lemma check_one_clean change :
  check_one change (normalize_path (ch_path change)) = Ok tt <-> clean change.
Proof.
  unfold check_one, clean. set (lower := chars_of (to_lowercase _)).
  set (t := normalize_nix_content _). unfold protected_paths, protected_texts, content_selects_broker_state,
    content_selects_watchdog, content_selects_kernel, content_selects_bootloader,
    content_selects_firewall, content_selects_storage_layout.
  destruct (has_redundant t) as (F1 & F2 & F3 & F4 & F5 & _).
  destruct (has_redundant lower) as (_ & _ & _ & _ & _ & F6).
  rewrite !Forall_cons, !Forall_nil. cbn [forallb]. clearbody lower t. rewrite !andb_true_r. split.
  - intros Hr. inv_ok.
    repeat match goal with Hx : _ || _ = false |- _ => apply orb_false_iff in Hx as [? ?] end.
    split_and!; try assumption; try exact I. apply andb_false_iff.
    match goal with Hx : has t "kernelpackages" && _ = false |- _ =>
      apply andb_false_iff in Hx as [?|[_ ?]%orb_false_iff] end; by auto.
  - intros ((P1 & P2 & P3 & P4 & P5 & P6 & P7 & _) & T0 & T1 & T2 & T3 & T4 & T5 & T6 & T7 & T8 & T9 &
            T10 & T11 & T12 & T13 & T14 & _).
    rewrite P1, (not_without _ _ F6 P1), P2, P3, P4, P5, P6, P7. cbn [orb fail_if]. run_ok.
    rewrite T0, T1, (not_without _ _ F3 T1). cbn [orb fail_if]. run_ok.
    rewrite T2, T3, T4, (not_without _ _ F4 T2), (not_without _ _ F5 T2). cbn [orb fail_if]. run_ok.
    assert (has t "kernelpackages" && (has t "boot={" || has t "boot=") = false) as ->.
    { destruct (has t "kernelpackages"); [|done]. cbn in T6 |- *. by rewrite T6, (not_without _ _ F1 T6). }
    rewrite T5, T7, T8, T9, T10, T11, T12, T13, T14, (not_without _ _ F2 T14).
    done.
Qed.

#[local] Transparent has.

(** Changes to one path agree. *)
Definition consistent (changes : list ConfigFileChange) : Prop :=
  forall c c', c ∈ changes -> c' ∈ changes -> normalize_path (ch_path c) = normalize_path (ch_path c') ->
  ch_content c = ch_content c'.

Lemma check_from_exact changes seen :
  (forall c p text, seen !! p = Some text -> normalize_path (ch_path c) = p -> ch_content c = text -> clean c) ->
  check_from changes seen = Ok tt <->
  Forall clean changes /\ consistent changes /\
  (forall c text, c ∈ changes -> seen !! normalize_path (ch_path c) = Some text -> ch_content c = text).
Proof.
  revert seen. induction changes as [|c changes IH]; intros seen Hseen; cbn [check_from].
  { split; [|done]. intros _. split; [done|]. split; [by intros c c' Hc%not_elem_of_nil|].
    by intros c text Hc%not_elem_of_nil. }
  destruct (seen !! normalize_path (ch_path c)) as [existing|] eqn:Ec.
  - case_bool_decide as Hne.
    { split; [done|]. intros (_ & _ & Hs). exfalso. apply Hne. symmetry. apply Hs; [left|done]. }
    assert (Heq : existing = ch_content c) by (apply dec_stable; auto).
    rewrite (IH seen Hseen), Forall_cons. split.
    + intros (Hf & Hcons & Hs). split_and!; [by eapply Hseen|done| |].
      * intros c1 c2 [->|H1]%elem_of_cons [->|H2]%elem_of_cons Hn; [done| | |by apply Hcons].
        -- rewrite <-Heq. symmetry. apply Hs; [done|by rewrite <-Hn].
        -- rewrite <-Heq. apply Hs; [done|by rewrite Hn].
      * intros c1 text [->|H1]%elem_of_cons Hl; [rewrite Ec in Hl; congruence|by apply Hs].
    + intros ([_ Hf] & Hcons & Hs). split_and!; [done| |].
      * intros c1 c2 H1 H2. apply Hcons; by right.
      * intros c1 text H1. apply Hs; by right.
  - rewrite result_bind_Ok, Forall_cons. split.
    + intros ([] & Hone & Hrest). apply check_one_clean in Hone.
      apply IH in Hrest as (Hf & Hcons & Hs); cycle 1.
      { intros c1 p text [[<- <-]|[_ Hl]]%lookup_insert_Some Hn Ht; [|by eapply Hseen].
        unfold clean in *. by rewrite Hn, Ht. }
      assert (Hc : forall c1, c1 ∈ changes -> normalize_path (ch_path c1) = normalize_path (ch_path c) ->
                   ch_content c1 = ch_content c).
      { intros c1 H1 Hn. apply Hs; [done|]. by rewrite Hn, lookup_insert_eq. }
      split_and!; [done|done| |].
      * intros c1 c2 [->|H1]%elem_of_cons [->|H2]%elem_of_cons Hn; [done| | |by apply Hcons].
        -- symmetry. by apply Hc.
        -- by apply Hc.
      * intros c1 text [->|H1]%elem_of_cons Hl; [by rewrite Ec in Hl|]. apply Hs; [done|].
        rewrite lookup_insert_ne; [done|]. intros Hn. by rewrite <-Hn, Ec in Hl.
    + intros ([Hone Hf] & Hcons & Hs). exists tt. split; [by apply check_one_clean|]. apply IH.
      { intros c1 p text [[<- <-]|[_ Hl]]%lookup_insert_Some Hn Ht; [|by eapply Hseen].
        unfold clean in *. by rewrite Hn, Ht. }
      split_and!; [done| |].
      * intros c1 c2 H1 H2. apply Hcons; by right.
      * intros c1 text H1 [[Hn <-]|[_ Hl]]%lookup_insert_Some; [|apply Hs; [by right|done]].
        apply Hcons; [by right|by left|done].
Qed.

(** C23: exactly the changes pass that no pattern fits.  A set of changes is
    accepted if and only if no normalized path contains a protected fragment,
    no normalized text contains all the fragments of a protected selection,
    and changes whose paths normalize to the same one have the same text --
    in whatever order they come and however often they are repeated. *)
Theorem scan_exact changes :
  check_protected_changes changes = Ok tt <-> Forall clean changes /\ consistent changes.
Proof.
  unfold check_protected_changes. rewrite check_from_exact.
  - split; [by intros (? & ? & _)|]. intros [? ?]. split_and!; [done|done|].
    intros c text _ Hl. by rewrite lookup_empty in Hl.
  - intros c p text Hl. by rewrite lookup_empty in Hl.
Qed.

(** ** What the scanner does not see *)

Lemma skip_line_all l : (C_NEWLINE ∉ l) -> skip_line l = [].
Proof.
  induction l as [|c l IH]; [done|]. rewrite not_elem_of_cons. intros [Hc Hl]. cbn [skip_line].
  destruct (Z.eqb_spec c C_NEWLINE); [by subst|by apply IH].
Qed.

Lemma chars_of_ascii_app prefix t :
  forallb (fun b => byte_val b <=? 127) (bytes_of_string prefix) = true ->
  chars_of (prefix +:+ t) = chars_of prefix ++ chars_of t.
Proof.
  unfold chars_of. intros Hp.
  assert (Happ : bytes_of_string (prefix +:+ t) = bytes_of_string prefix ++ bytes_of_string t).
  { clear Hp. induction prefix as [|c prefix IH]; [done|]. exact (f_equal (cons _) IH). }
  rewrite Happ. clear Happ. revert Hp. generalize (bytes_of_string prefix). intros bs.
  induction bs as [|b bs IH]; intros Hp; [done|]. cbn [forallb] in Hp.
  apply andb_true_iff in Hp as [Hb Hp]. cbn [app utf8_chars]. rewrite Hb. cbn [app]. f_equal. by apply IH.
Qed.

(** An attribute set whose first value is the string of one hash sign. *)
Definition HASH_STRING : string :=
  "{ a = " +:+ String (Ascii.ascii_of_nat 34) (String (Ascii.ascii_of_nat 35)
    (String (Ascii.ascii_of_nat 34) "; ")).
Definition ORDINARY_PATH : string := "/etc/nixos/configuration.nix".

Definition hash_before : chars := chars_of "{ a = " ++ [C_DQUOTE].
Definition hash_after : chars := C_DQUOTE :: chars_of "; ".

Lemma hash_before_plain : plain hash_before.
Proof. split; [apply (bool_decide_unpack _); vm_compute; exact I|vm_compute; reflexivity]. Qed.

(** One change alone passes when it is clean. *)
Lemma scan_exact_from change :
  clean change -> check_protected_changes [change] = Ok tt.
Proof.
  intros Hc. apply check_from_exact.
  { intros c p text Hl. by rewrite lookup_empty in Hl. }
  split_and!; [by apply Forall_singleton|by intros c c' ->%list_elem_of_singleton ->%list_elem_of_singleton|].
  intros c text _ Hl. by rewrite lookup_empty in Hl.
Qed.

(** A hash sign inside a string hides the rest of its line.  The scanner
    takes the hash for the start of a comment, so whatever follows on that
    line -- another boot loader, another kernel, the firewall -- is accepted
    without being looked at, although to Nix it is code. *)
Theorem hash_in_string_hides `{!UnicodeCaseLaws} t :
  (C_NEWLINE ∉ chars_of t) ->
  check_protected_changes [mkChange ORDINARY_PATH (HASH_STRING +:+ t)] = Ok tt.
Proof.
  intros Ht. apply scan_exact_from. unfold clean. cbn [ch_path ch_content]. split.
  - rewrite to_lowercase_ascii by (vm_compute; reflexivity). apply (bool_decide_unpack _). vm_compute. exact I.
  - rewrite chars_of_ascii_app by (vm_compute; reflexivity). unfold normalize_nix_content.
    change (chars_of HASH_STRING) with (hash_before ++ C_HASH :: hash_after).
    rewrite <-app_assoc, strip_plain; [|exact hash_before_plain|by intros [[=] _]].
    cbn [app]. rewrite strip_cons. change (C_HASH =? C_HASH) with true. cbn match.
    rewrite skip_line_all; [apply (bool_decide_unpack _); vm_compute; exact I|].
    rewrite not_elem_of_app. split; [|exact Ht].
    apply (bool_decide_unpack _). vm_compute. exact I.
Qed.

(** The same with the escape of an indented string, three quotes: the scanner
    takes it for an end and a quote, and the end for a beginning. *)
Lemma indented_escape_hides `{!UnicodeCaseLaws} :
  check_protected_changes
    [mkChange ORDINARY_PATH "{ a = '' ''' ''; boot.loader.grub.enable = false; }"] = Ok tt.
Proof.
  apply scan_exact_from.  unfold clean. cbn [ch_path ch_content].
  rewrite to_lowercase_ascii by (vm_compute; reflexivity).
  split; apply (bool_decide_unpack _); vm_compute; exact I.
Qed.
End Verdicts.

(** ** A concrete lowercasing: ASCII letters only *)

Definition lower_ascii (c : Ascii.ascii) : Ascii.ascii :=
  Ascii.ascii_of_nat (Z.to_nat (to_ascii_lowercase (ch c))).

#[export] Instance ascii_case : UnicodeCase :=
  {| to_lowercase s := String.string_of_list_ascii (map lower_ascii (String.list_ascii_of_string s)) |}.

Lemma ch_range c : 0 <= ch c < 256.
Proof. destruct c as [[] [] [] [] [] [] [] []]; vm_compute; split; discriminate || reflexivity. Qed.

Lemma byte_val_ch c : byte_val (byte_of (ch c)) = ch c.
Proof. rewrite byte_val_of. apply Z.mod_small, ch_range. Qed.

Lemma ch_lower c : ch (lower_ascii c) = to_ascii_lowercase (ch c).
Proof. destruct c as [[] [] [] [] [] [] [] []]; vm_compute; reflexivity. Qed.

Lemma chars_of_cons c s : ch c <= 127 -> chars_of (String c s) = ch c :: chars_of s.
Proof.
  intros Hc. unfold chars_of. change (bytes_of_string (String c s)) with (byte_of (ch c) :: bytes_of_string s).
  cbn [utf8_chars]. rewrite byte_val_ch. by rewrite (proj2 (Z.leb_le _ _)) by lia.
Qed.

#[export] Instance ascii_case_laws : UnicodeCaseLaws.
Proof.
  split. intros s. induction s as [|c s IH]; intros Hs; [done|].
  change (bytes_of_string (String c s)) with (byte_of (ch c) :: bytes_of_string s) in Hs.
  cbn [forallb] in Hs. rewrite byte_val_ch in Hs. apply andb_true_iff in Hs as [Hc%Z.leb_le Hs].
  change (to_lowercase (String c s)) with (String (lower_ascii c) (to_lowercase s)).
  rewrite chars_of_cons; [|rewrite ch_lower; unfold to_ascii_lowercase; case_match; bool_to_prop; lia].
  rewrite chars_of_cons by done. cbn [map]. rewrite ch_lower. f_equal. by apply IH.
Qed.

(** A boot loader, with a comment in the middle of its name. *)
Lemma comments_do_not_hide_witness :
  check_protected_changes [mkChange ORDINARY_PATH "{ boot./* x */loader.timeout = 0; }"] =
  Err RejectBootloader.
Proof.
  etransitivity; [apply (comments_do_not_hide ORDINARY_PATH "{ boot./* x */loader.timeout = 0; }"
    "{ boot.loader.timeout = 0; }" (chars_of "{ boot.") (chars_of " x ") (chars_of "loader.timeout = 0; }"))|].
  - split; [apply (bool_decide_unpack _); vm_compute; exact I|vm_compute; reflexivity].
  - vm_compute. reflexivity.
  - intros [_ Hh]. vm_compute in Hh. discriminate Hh.
  - vm_compute. reflexivity.
  - vm_compute. reflexivity.
  - vm_compute. reflexivity.
Defined.

Lemma hash_in_string_hides_witness :
  check_protected_changes [mkChange ORDINARY_PATH (HASH_STRING +:+ "boot.loader.grub.enable = false; }")] =
  Ok tt.
Proof.
  apply (hash_in_string_hides "boot.loader.grub.enable = false; }").
  apply (bool_decide_unpack _). vm_compute. exact I.
Defined.

(** Without the string the same text is refused. *)
Lemma boot_loader_refused :
  check_protected_changes [mkChange ORDINARY_PATH "{ boot.loader.grub.enable = false; }"] =
  Err RejectBootloader.
Proof. vm_compute. reflexivity. Qed.
