(* ===== verification/NixRunner.v ===== *)
(** * Commands of the Nix adapter, and what it probes

    [adapters/nix/src/command_runner.rs], [probe.rs] and the adapter's own
    state, [adapter.rs].  The runner is an interface: it answers as it likes,
    from one call to the next.  The world keeps the commands that were run. *)

From S2P Require Import Prelude RustStd TxTypes Wire RustText NixScan.

(** ** command_runner.rs *)

Definition NIXOS_REBUILD : string := "/run/current-system/sw/bin/nixos-rebuild".
Definition NIX : string := "/run/current-system/sw/bin/nix".
Definition NIX_STORE : string := "/run/current-system/sw/bin/nix-store".
Definition NIX_ENV : string := "/run/current-system/sw/bin/nix-env".
Definition SYNC : string := "/run/current-system/sw/bin/sync".
Definition READLINK : string := "/run/current-system/sw/bin/readlink".
Definition CAT : string := "/run/current-system/sw/bin/cat".

Definition DEFAULT_TIMEOUT_SECS : Z := 3600.

Record CommandSpec := mkSpec {
  cs_executable : string;
  cs_argv : list string;
  cs_working_dir : option string;
  cs_env_clear : bool;
  cs_stdin_null : bool;
  cs_timeout_secs : option Z;
}.
#[export] Instance CommandSpec_eq_dec : EqDecision CommandSpec.
Proof. solve_decision. Defined.

Definition with_execution_policy (s : CommandSpec) : CommandSpec :=
  {| cs_executable := cs_executable s; cs_argv := cs_argv s; cs_working_dir := cs_working_dir s;
     cs_env_clear := true; cs_stdin_null := true; cs_timeout_secs := Some DEFAULT_TIMEOUT_SECS |}.

(** The shape every constructor has: the executable is the first argument. *)
Definition command (executable : string) (args : list string) (working_dir : option string) :
    CommandSpec :=
  with_execution_policy (mkSpec executable (executable :: args) working_dir false false None).

Definition SYSTEM_PROFILE : string := "/nix/var/nix/profiles/system".
Definition FLAKE_DIR : string := "/etc/nixos".

Record CapturedProposal := mkCapture {
  cap_base_revision : BaseRevision;
  cap_candidate_closure : string;
  cap_flake_ref : string;
  cap_diff : string;
}.
#[export] Instance CapturedProposal_eq_dec : EqDecision CapturedProposal.
Proof. solve_decision. Defined.

Definition nix_current_generation : CommandSpec := command READLINK ["-f"; SYSTEM_PROFILE] None.
Definition etc_git_head : CommandSpec := command CAT ["/etc/.git/refs/heads/agentbed-base"] None.
Definition config_digest : CommandSpec := command NIX ["hash"; "file"; FLAKE_DIR] None.

Definition nix_eval_candidate (changes : list ConfigFileChange) : CommandSpec :=
  command NIX (["eval"; "--raw"; "/etc/nixos#agentbed.candidate"] ++
               concat (map (fun c => ["--argstr"; ch_path c; ch_content c]) changes)) (Some FLAKE_DIR).

Definition nixos_rebuild_build (capture : CapturedProposal) : CommandSpec :=
  command NIXOS_REBUILD ["build"; "--flake"; cap_flake_ref capture] (Some FLAKE_DIR).

Definition nixos_rebuild_test (capture : CapturedProposal) : CommandSpec :=
  command NIXOS_REBUILD
    ["test"; "--flake"; cap_flake_ref capture; "--option"; "boot.loader.grub.default";
     default "" (br_generation (cap_base_revision capture))] (Some FLAKE_DIR).

Definition nix_store_realise (closure : string) : CommandSpec :=
  command NIX_STORE ["--realise"; closure] None.
Definition nix_env_profile_set (closure : string) : CommandSpec :=
  command NIX_ENV ["-p"; SYSTEM_PROFILE; "--set"; closure] None.
Definition switch_to_configuration_boot (closure : string) : CommandSpec :=
  command (closure +:+ "/bin/switch-to-configuration") ["boot"] None.
Definition sync_profile_boot_boundaries : CommandSpec :=
  command SYNC ["-f"; SYSTEM_PROFILE; "/boot"] None.
Definition read_profile_target : CommandSpec := command READLINK ["-f"; SYSTEM_PROFILE] None.
Definition read_boot_default : CommandSpec :=
  command CAT ["/boot/loader/entries/agentbed-default"] None.
Definition read_closure_hash (closure : string) : CommandSpec :=
  command NIX_STORE ["--query"; "--hash"; closure] None.
Definition read_closure_store_path (closure : string) : CommandSpec :=
  command NIX_STORE ["--query"; "--out-path"; closure] None.

Definition argv_contains (s : CommandSpec) (needle : string) : bool :=
  existsb (fun arg => has (chars_of arg) needle) (cs_argv s).

Record CommandOutput := mkOutput {
  co_exit_code : Z;
  co_stdout : string;
  co_stderr : string;
}.

Definition output_ok (stdout : string) : CommandOutput := mkOutput 0 stdout "".
Definition output_err (code : Z) (stderr : string) : CommandOutput := mkOutput code "" stderr.
Definition output_timed_out : CommandOutput := mkOutput (-3) "" "timeout".
Definition output_interrupted : CommandOutput := mkOutput (-4) "" "interrupted".

Inductive CommandError :=
  | NotRegistered
  | NonZeroExit (code : Z) (stderr : string)
  | Timeout
  | CommandInterrupted.

(** [trait CommandRunner]; the runner sees when it is called. *)
Class CommandRunner := { runner : nat -> CommandSpec -> result CommandError CommandOutput }.

Abbreviation NixWorld := (World CommandSpec).

(** [runner.run(&spec)] *)
Definition run_command `{!CommandRunner} (spec : CommandSpec) :
    M NixWorld CommandError CommandOutput := fun w =>
  let w' := mkWorld (w_fs w) (S (w_tick w)) (w_calls w ++ [spec]) in
  match runner (w_tick w) spec with
  | Ok output => (Ret output, w')
  | Err e => (Throw e, w')
  end.

(** [FakeCommandRunner]: a registry, the last registration of a command first. *)
Fixpoint registered (spec : CommandSpec) (registry : list (CommandSpec * CommandOutput)) :
    option CommandOutput :=
  match registry with
  | [] => None
  | (s, output) :: registry => if decide (s = spec) then Some output else registered spec registry
  end.

Definition fake_run (registry : list (CommandSpec * CommandOutput)) (spec : CommandSpec) :
    result CommandError CommandOutput :=
  output ← ok_or (registered spec registry) NotRegistered;
  if co_exit_code output =? -3 then Err Timeout
  else if co_exit_code output =? -4 then Err CommandInterrupted
  else if negb (co_exit_code output =? 0) then Err (NonZeroExit (co_exit_code output) (co_stderr output))
  else Ok output.

(** ** probe.rs *)

Record ProbeResult := mkProbe {
  pr_adapter : AdapterInfo;
  pr_safety : SafetyVector;
  pr_safety_source : SafetySource;
  pr_base_revision : BaseRevision;
}.

Inductive ProbeError := IncompleteObservation.

Definition is_ascii_hexdigit (c : Ascii.ascii) : bool :=
  let v := ch c in
  ((48 <=? v) && (v <=? 57)) || ((97 <=? v) && (v <=? 102)) || ((65 <=? v) && (v <=? 70)).

Definition hex_digit_value (c : Ascii.ascii) : Z :=
  let v := ch c in if v <=? 57 then v - 48 else if v <=? 70 then v - 55 else v - 87.

Fixpoint hex_pairs (s : string) : list byte :=
  match s with
  | String h (String l s) => byte_of (hex_digit_value h * 16 + hex_digit_value l) :: hex_pairs s
  | _ => []
  end.

Definition hex_to_digest (hex : string) : result ProbeError Digest :=
  let hex := trim hex in
  fail_if (negb (Nat.eqb (String.length hex) 64) ||
           negb (forallb is_ascii_hexdigit (String.list_ascii_of_string hex))) IncompleteObservation;;
  Ok (from_sha256_bytes (hex_pairs hex)).

Definition probed_safety : SafetyVector :=
  mkSafety HsGeneration HsGeneration HsNone HsNone SsNone DsNone DsNone DsNone EsNone RrRemoteReboot.
Definition unresolved_safety_vector : SafetyVector :=
  mkSafety HsNone HsNone HsNone HsNone SsNone DsNone DsNone DsNone EsNone RrOobConsole.

Section Probe.
Context `{!CommandRunner}.

(** One observation: the output of a command, trimmed. *)
Definition observe (spec : CommandSpec) : M NixWorld ProbeError string :=
  output ← mapping_err (fun _ => IncompleteObservation) (run_command spec);
  mret (trim (co_stdout output)).

Definition probe : M NixWorld ProbeError ProbeResult :=
  generation ← observe nix_current_generation;
  throw_if (bool_decide (generation = "")) IncompleteObservation;;
  etc_git ← observe etc_git_head;
  digest_hex ← observe config_digest;
  digest ← of_result (hex_to_digest digest_hex);
  mret {| pr_adapter := mkAdapterInfo "nix" true 1 (parse_u32 generation) None;
          pr_safety := probed_safety;
          pr_safety_source := AdapterProbe;
          pr_base_revision := mkBase (Some generation) etc_git digest |}.

(** ** adapter.rs: the cache of the probe *)

Record NixAdapter := mkNixAdapter {
  na_world : NixWorld;
  na_probe_cache : option ProbeResult;
}.

Definition set_na_world (w : NixWorld) (a : NixAdapter) : NixAdapter :=
  mkNixAdapter w (na_probe_cache a).

Definition probe_cached : M NixAdapter ProbeError ProbeResult := fun a =>
  match na_probe_cache a with
  | Some r => (Ret r, a)
  | None =>
      match probe (na_world a) with
      | (Ret r, w) => (Ret r, mkNixAdapter w (Some r))
      | (Throw e, w) => (Throw e, mkNixAdapter w None)
      | (Panic, w) => (Panic, mkNixAdapter w None)
      end
  end.

Definition cached {E A} (absent : A) (f : ProbeResult -> A) : M NixAdapter E A :=
  r ← attempt probe_cached;
  mret (match r with Ok r => f r | Err _ => absent end).

Definition na_info {E} : M NixAdapter E AdapterInfo :=
  cached (mkAdapterInfo "nix" false 1 None None) pr_adapter.
Definition na_safety_vector {E} : M NixAdapter E SafetyVector :=
  cached unresolved_safety_vector pr_safety.
Definition na_safety_source {E} : M NixAdapter E SafetySource :=
  cached UnresolvedAdapterSource pr_safety_source.

(** [broker/src/adapter.rs]: what an unresolved adapter says. *)
Definition unresolved_base_revision : BaseRevision :=
  mkBase (Some "gen-1") "deadbeef" (from_sha256_bytes (repeat (byte_of 34) 32)).

(** [broker/src/nix_host_adapter.rs] *)
Definition na_current_base_revision {E} : M NixAdapter E BaseRevision :=
  cached unresolved_base_revision pr_base_revision.
End Probe.
