(* ===== verification/NixCapture.v ===== *)
(** * Captures, activations and promotion of the Nix adapter

    [adapters/nix/src/capture.rs], [propose.rs], [promotion/] and
    [broker/src/nix_host_adapter.rs].  The store's records are files written
    with the production [StdPathSync]; the readers and writers of their JSON
    are the interface [CaptureCodec]. *)

From S2P Require Import Prelude RustStd TxTypes Wire RustText NixScan NixRunner.

(** ** capture.rs *)

Inductive CaptureError := Conflict | CaptureIo.

Record PinRecord := mkPin {
  pin_candidate_closure : string;
  pin_base_generation : option string;
  pin_base_git_commit : string;
  pin_base_config_digest : string;
  pin_realised_closure : string;
}.
#[export] Instance PinRecord_eq_dec : EqDecision PinRecord.
Proof. solve_decision. Defined.

Record StoredCapture := mkStoredCapture {
  sc_capture : CapturedProposal;
  sc_fingerprint : string;
}.
#[export] Instance StoredCapture_eq_dec : EqDecision StoredCapture.
Proof. solve_decision. Defined.

Class CaptureCodec := {
  pin_to_string : PinRecord -> option (list byte);
  pin_from_str : list byte -> option PinRecord;
  stored_to_string : StoredCapture -> option (list byte);
  stored_from_str : list byte -> option StoredCapture;
  changes_to_string : list ConfigFileChange -> option string;
}.

(** What is written is read back. *)
Class CaptureCodecLaws `{CaptureCodec} : Prop := {
  pin_roundtrip r raw : pin_to_string r = Some raw -> utf8_ok raw = true /\ pin_from_str raw = Some r;
  stored_roundtrip c raw :
    stored_to_string c = Some raw -> utf8_ok raw = true /\ stored_from_str raw = Some c;
}.

Definition digest_hex (d : Digest) : string := String.concat "" (map byte_hex (dg_bytes d)).

(** [PinRecord::matches_capture] *)
Definition matches_capture (r : PinRecord) (capture : CapturedProposal) : bool :=
  let base := cap_base_revision capture in
  bool_decide (pin_candidate_closure r = cap_candidate_closure capture) &&
  bool_decide (pin_base_generation r = br_generation base) &&
  bool_decide (pin_base_git_commit r = br_etc_git_commit base) &&
  bool_decide (pin_base_config_digest r = digest_hex (br_config_digest base)) &&
  bool_decide (pin_realised_closure r = cap_candidate_closure capture).

(** [str::replace('/', "_")] *)
Definition UNDERSCORE : Ascii.ascii := Ascii.ascii_of_nat 95.
Definition replace_slashes (s : string) : string :=
  String.string_of_list_ascii
    (map (fun c => if decide (ch c = C_SLASH) then UNDERSCORE else c) (String.list_ascii_of_string s)).

Definition activation_filename (candidate_closure : string) : string :=
  replace_slashes (trim_start_matches (String.length candidate_closure) "/nix/store/" candidate_closure)
  +:+ ".activated".

Record CaptureStore := mkCaptureStore { cst_root : Path }.

Definition activations_dir (s : CaptureStore) : Path := path_join (cst_root s) ["activations"].
Definition activation_record_path (s : CaptureStore) (candidate_closure : string) : Path :=
  path_join (activations_dir s) [activation_filename candidate_closure].
Definition activation_lock_path (s : CaptureStore) (candidate_closure : string) : Path :=
  path_join (activations_dir s) [activation_filename candidate_closure +:+ ".lock"].
Definition pin_path (s : CaptureStore) : Path := path_join (cst_root s) ["pin.json"].
Definition pin_tmp_path (s : CaptureStore) : Path := path_join (cst_root s) ["pin.json.tmp"].
Definition pin_marker_path (s : CaptureStore) : Path := path_join (cst_root s) ["pin.json.synced"].
Definition active_path (s : CaptureStore) : Path := path_join (cst_root s) ["active.json"].
Definition active_tmp_path (s : CaptureStore) : Path := path_join (cst_root s) ["active.json.tmp"].
Definition active_marker_path (s : CaptureStore) : Path := path_join (cst_root s) ["active.json.synced"].

Section Store.
Context `{!IoEnv, !CaptureCodec}.

Abbreviation StoreM := (M NixWorld CaptureError).

Definition nio {A} (m : M NixWorld IoError A) : StoreM A := mapping_err (fun _ => CaptureIo) m.

(** [StdPathSync] *)
Definition sync_path (p : Path) : StoreM unit := nio (open_existing p);; nio (sync_all p).
Definition nsync_parent (p : Path) : StoreM unit :=
  match path_parent p with
  | None => mret tt
  | Some parent => nio (open_dir parent);; nio (sync_all parent)
  end.
Definition sync_dir (p : Path) : StoreM unit := nio (open_dir p);; nio (sync_all p).

Definition is_durably_persisted (s : CaptureStore) : StoreM bool := path_exists (active_marker_path s).
Definition is_activation_recorded (s : CaptureStore) (candidate_closure : string) : StoreM bool :=
  path_exists (activation_record_path s candidate_closure).

Definition reserve_activation (s : CaptureStore) (candidate_closure : string) : StoreM unit :=
  let activations := activations_dir s in
  nio (create_dir_all activations);;
  sync_dir (cst_root s);;
  sync_dir activations;;
  recorded ← path_exists (activation_record_path s candidate_closure);
  throw_if recorded Conflict;;
  let lock := activation_lock_path s candidate_closure in
  locked ← path_exists lock;
  throw_if locked Conflict;;
  mapping_err (fun _ => Conflict) (open_create_new lock);;
  nio (write_all lock (bytes_of_string ("activating" +:+ String (Ascii.ascii_of_nat 10) "")));;
  sync_path lock;;
  nsync_parent lock.

Definition release_activation_reservation {E} (s : CaptureStore) (candidate_closure : string) :
    M NixWorld E unit :=
  _ ← attempt (remove_file (activation_lock_path s candidate_closure));
  mret tt.

Definition finalize_activation (s : CaptureStore) (candidate_closure : string) : StoreM unit :=
  let activated := activation_record_path s candidate_closure in
  there ← path_exists activated;
  if there : bool then mret tt else
  let lock := activation_lock_path s candidate_closure in
  locked ← path_exists lock;
  (if locked : bool then nio (fs_rename lock activated)
   else mapping_err (fun _ => Conflict) (open_create_new activated));;
  sync_path activated;;
  nsync_parent activated.

Definition SYNCED : list byte := bytes_of_string ("synced" +:+ String (Ascii.ascii_of_nat 10) "").

(** A record written beside its place, renamed into it, and marked. *)
Definition store_marked (tmp final marker : Path) (raw : list byte) : StoreM unit :=
  nio (fs_write tmp raw);;
  sync_path tmp;;
  nio (fs_rename tmp final);;
  sync_path final;;
  nsync_parent final;;
  nio (open_truncate marker);;
  nio (write_all marker SYNCED);;
  sync_path marker;;
  nsync_parent marker.

Definition store_pin (s : CaptureStore) (capture : CapturedProposal) (realised : string) : StoreM unit :=
  nio (create_dir_all (cst_root s));;
  sync_dir (cst_root s);;
  let base := cap_base_revision capture in
  let r := mkPin (cap_candidate_closure capture) (br_generation base) (br_etc_git_commit base)
             (digest_hex (br_config_digest base)) realised in
  raw ← of_result (ok_or (pin_to_string r) CaptureIo);
  store_marked (pin_tmp_path s) (pin_path s) (pin_marker_path s) raw.

Definition load_verified_pin (s : CaptureStore) (capture : CapturedProposal) : StoreM string :=
  there ← path_exists (pin_path s);
  throw_if (negb there) Conflict;;
  raw ← nio (fs_read_to_string (pin_path s));
  r ← of_result (ok_or (pin_from_str raw) CaptureIo);
  throw_if (negb (matches_capture r capture)) Conflict;;
  synced ← path_exists (pin_marker_path s);
  throw_if (negb synced) Conflict;;
  mret (pin_realised_closure r).

Definition load_active (s : CaptureStore) : StoreM (option StoredCapture) :=
  there ← path_exists (active_path s);
  if negb there then mret None else
  raw ← nio (fs_read_to_string (active_path s));
  c ← of_result (ok_or (stored_from_str raw) CaptureIo);
  mret (Some c).

Definition changes_fingerprint (changes : list ConfigFileChange) : string :=
  default "" (changes_to_string changes).

Definition store_active (s : CaptureStore) (capture : CapturedProposal)
    (changes : list ConfigFileChange) : StoreM unit :=
  nio (create_dir_all (cst_root s));;
  sync_dir (cst_root s);;
  there ← path_exists (active_path s);
  throw_if there Conflict;;
  raw ← of_result (ok_or (stored_to_string (mkStoredCapture capture (changes_fingerprint changes))) CaptureIo);
  store_marked (active_tmp_path s) (active_path s) (active_marker_path s) raw.
End Store.

(** ** propose.rs *)

Record ProposalResult := mkProposal {
  pp_capture : CapturedProposal;
  pp_diff : string;
  pp_test_plan : TestPlan;
  pp_affected_resources : list string;
}.

Inductive ProposeError :=
  | PCommand (e : CommandError)
  | PCapture (e : CaptureError).

(** ** promotion/mod.rs *)

Inductive PromotionError :=
  | CommandFailed (code : Z) (stderr : string)
  | AgreementMismatch (profile boot expected : string)
  | ClosureMismatch (expected actual : string)
  | AlreadyActivated
  | BaseMoved
  | PNotRegistered
  | ReservationNotDurable
  | PinRequired
  | PinMismatch (expected actual : string)
  | ProfileMismatch (expected actual : string).

Definition promotion_error_of (e : CommandError) : PromotionError :=
  match e with
  | NotRegistered => PNotRegistered
  | NonZeroExit code stderr => CommandFailed code stderr
  | Timeout => CommandFailed (-1) "timeout"
  | CommandInterrupted => CommandFailed (-2) "interrupted"
  end.

Record Agreement := mkAgreement {
  ag_profile_matches : bool;
  ag_boot_matches : bool;
  ag_closure_matches : bool;
}.

Section Promotion.
Context `{!IoEnv, !CaptureCodec, !CommandRunner}.

Definition LINE_FEED : string := String (Ascii.ascii_of_nat 10) "".

Definition propose (changes : list ConfigFileChange) (base : BaseRevision) :
    M NixWorld ProposeError ProposalResult :=
  output ← mapping_err PCommand (run_command (nix_eval_candidate changes));
  let closure := trim (co_stdout output) in
  let diff := String.concat LINE_FEED (map (fun c => ch_path c +:+ ": " +:+ ch_content c) changes) in
  let capture := mkCapture base closure "/etc/nixos#agentbed" diff in
  mret (mkProposal capture diff (mkPlan "nix" ["nixos-rebuild test"]) ["root_config"]).

Definition propose_and_capture (s : CaptureStore) (changes : list ConfigFileChange)
    (base : BaseRevision) : M NixWorld ProposeError ProposalResult :=
  active ← mapping_err PCapture (load_active s);
  throw_if (bool_decide (is_Some active)) (PCapture Conflict);;
  result ← propose changes base;
  mapping_err PCapture (store_active s (pp_capture result) changes);;
  mret result.

Abbreviation PromoM := (M NixWorld PromotionError).

(** [runner.run(&spec)?] *)
Definition prun (spec : CommandSpec) : PromoM CommandOutput :=
  mapping_err promotion_error_of (run_command spec).

(** [build.rs] *)
Definition build (capture : CapturedProposal) : PromoM unit :=
  output ← prun (nixos_rebuild_build capture);
  let stdout := trim (co_stdout output) in
  throw_if (negb (has (chars_of stdout) (cap_candidate_closure capture)))
           (ClosureMismatch (cap_candidate_closure capture) stdout).

(** [test_activation.rs] *)
Definition activate_once (s : CaptureStore) (capture : CapturedProposal) : PromoM unit :=
  let closure := cap_candidate_closure capture in
  mapping_err (fun e => match e with
                        | Conflict => AlreadyActivated
                        | CaptureIo => ReservationNotDurable
                        end) (reserve_activation s closure);;
  probed ← attempt probe;
  match probed with
  | Err _ => release_activation_reservation s closure;; throw BaseMoved
  | Ok current =>
      if bool_decide (pr_base_revision current <> cap_base_revision capture)
      then release_activation_reservation s closure;; throw BaseMoved
      else
        test_result ← attempt (run_command (nixos_rebuild_test capture));
        mapping_err (fun _ => AlreadyActivated) (finalize_activation s closure);;
        match test_result with
        | Ok output =>
            let stdout := trim (co_stdout output) in
            throw_if (negb (has (chars_of stdout) closure)) (ClosureMismatch closure stdout)
        | Err e => throw (promotion_error_of e)
        end
  end.

(** [pin.rs] *)
Definition pin_closure (s : CaptureStore) (capture : CapturedProposal) : PromoM string :=
  let closure := cap_candidate_closure capture in
  output ← prun (nix_store_realise closure);
  let realised := trim (co_stdout output) in
  throw_if (bool_decide (realised <> closure)) (ClosureMismatch closure realised);;
  mapping_err (fun _ => PinMismatch closure "pin persistence failed") (store_pin s capture realised);;
  mret realised.

(** [profile.rs] *)
Definition read_verified_profile_target (pinned : string) : PromoM unit :=
  output ← prun read_profile_target;
  let profile := trim (co_stdout output) in
  throw_if (bool_decide (profile = ""))
           (ProfileMismatch pinned "missing or empty profile target");;
  throw_if (bool_decide (profile <> pinned)) (ProfileMismatch pinned profile).

Definition verified_pin (s : CaptureStore) (capture : CapturedProposal) : PromoM string :=
  let closure := cap_candidate_closure capture in
  loaded ← attempt (load_verified_pin s capture);
  match loaded with
  | Ok closure => mret closure
  | Err Conflict =>
      there ← path_exists (pin_path s);
      throw (if there : bool then PinMismatch closure "corrupt or mismatched pin record" else PinRequired)
  | Err CaptureIo => throw (PinMismatch closure "pin readback failed")
  end.

Definition advance_profile (s : CaptureStore) (capture : CapturedProposal) : PromoM unit :=
  pinned ← verified_pin s capture;
  prun (nix_env_profile_set pinned);;
  read_verified_profile_target pinned.

(** [boot.rs] *)
Definition configure_boot (s : CaptureStore) (capture : CapturedProposal) : PromoM unit :=
  pinned ← verified_pin s capture;
  read_verified_profile_target pinned;;
  prun (switch_to_configuration_boot pinned);;
  mret tt.

(** [flush.rs] *)
Definition flush_boundaries : PromoM unit := prun sync_profile_boot_boundaries;; mret tt.

(** [readback.rs] *)
Definition read_agreement (pinned : string) : PromoM Agreement :=
  output ← prun read_profile_target;
  let profile := trim (co_stdout output) in
  output ← prun read_boot_default;
  let boot := trim (co_stdout output) in
  output ← prun (read_closure_store_path pinned);
  let store_path := trim (co_stdout output) in
  prun (read_closure_hash pinned);;
  let profile_matches := bool_decide (profile = pinned) in
  let boot_matches := bool_decide (boot = pinned) in
  let closure_matches := bool_decide (store_path = pinned) in
  throw_if (negb profile_matches || negb boot_matches || negb closure_matches)
           (AgreementMismatch profile boot pinned);;
  mret (mkAgreement profile_matches boot_matches closure_matches).

(** ** broker/src/nix_host_adapter.rs *)

(** Why the adapter rejected; the broker shows its [Debug] text. *)
Inductive Rejection :=
  | RejectedChange (r : ProtectedRejectReason)
  | RejectedProposal (e : ProposeError).

Definition on_nix_world {E A} : M NixWorld E A -> M NixAdapter E A := zoom na_world set_na_world.

Definition na_propose_config `{!UnicodeCase} (s : CaptureStore) (changes : list ConfigFileChange) :
    M NixAdapter Rejection AdapterProposeOutcome :=
  of_result (map_err RejectedChange (check_protected_changes changes));;
  base ← na_current_base_revision;
  proposal ← mapping_err RejectedProposal (on_nix_world (propose_and_capture s changes base));
  mret {| ao_diff := pp_diff proposal; ao_test_plan := pp_test_plan proposal;
          ao_affected_resources := pp_affected_resources proposal;
          ao_candidate_closure := Some (cap_candidate_closure (pp_capture proposal)) |}.
End Promotion.
