(* ===== verification/NixFacts.v ===== *)
(** * Facts about the Nix adapter

    What a piece of the adapter can do: which commands it can run and
    which files it can write ([acts]), put together from its calls the way
    the code is.  The reservation of an activation, and the markers. *)

From S2P Require Import Prelude RustStd TxTypes Wire RustText NixScan NixRunner NixCapture.

(** ** Effects *)

(** From [w] to [w']: commands of [Cs] were run, files of [Ps] may differ,
    and no directory went away. *)
Record effect (Cs : CommandSpec -> Prop) (Ps : Path -> Prop) (w w' : NixWorld) : Prop := {
  ef_calls : exists l, w_calls w' = w_calls w ++ l /\ Forall Cs l;
  ef_files : forall p, ~ Ps p -> fs_files (w_fs w') !! p = fs_files (w_fs w) !! p;
  ef_dirs : fs_dirs (w_fs w) ⊆ fs_dirs (w_fs w');
}.

#[export] Instance effect_refl Cs Ps : Reflexive (effect Cs Ps).
Proof. intros w. split; [exists []; by rewrite app_nil_r|done|done]. Qed.

#[export] Instance effect_trans Cs Ps : Transitive (effect Cs Ps).
Proof.
  intros w1 w2 w3 [(l & Hl & HCl) Hf Hd] [(k & Hk & HCk) Hf' Hd']. split.
  - exists (l ++ k). rewrite Hk, Hl, app_assoc. split; [done|by apply Forall_app].
  - intros p Hp. by rewrite Hf', Hf.
  - by etrans.
Qed.

Lemma effect_mono (Cs Cs' : CommandSpec -> Prop) (Ps Ps' : Path -> Prop) w w' :
  (forall c, Cs c -> Cs' c) -> (forall p, Ps p -> Ps' p) -> effect Cs Ps w w' -> effect Cs' Ps' w w'.
Proof.
  intros HC HP [(l & Hl & HCl) Hf Hd]. split; [|by auto|done].
  exists l. split; [done|]. by eapply Forall_impl.
Qed.

Lemma effect_exists Cs Ps w w' p :
  effect Cs Ps w w' -> ~ Ps p -> fs_exists (w_fs w) p = true -> fs_exists (w_fs w') p = true.
Proof.
  intros [_ Hf Hd] Hp. unfold fs_exists, dir_exists. rewrite (Hf _ Hp), !orb_true_iff, !bool_decide_eq_true.
  intros [?|?]; [by left|right; by apply Hd].
Qed.

Definition acts {E A} (Cs : CommandSpec -> Prop) (Ps : Path -> Prop) (m : M NixWorld E A) : Prop :=
  forall w, effect Cs Ps w (snd (m w)).

Section Touches.
Context `{!IoEnv} (Cs : CommandSpec -> Prop) (Ps : Path -> Prop).
Context {E A B : Type}.

Abbreviation acting := (acts Cs Ps).

Lemma acts_ret (a : A) : acting (mret a : M NixWorld E A).
Proof. by intros w. Qed.

Lemma acts_throw (e : E) : acting (throw e : M NixWorld E A).
Proof. by intros w. Qed.

Lemma acts_throw_if b (e : E) : acting (throw_if b e).
Proof. intros w. by destruct b. Qed.

Lemma acts_of_result (r : result E A) : acting (of_result r).
Proof. intros w. by destruct r. Qed.

Lemma acts_bind (m : M NixWorld E A) (f : A -> M NixWorld E B) :
  acting m -> (forall a, acting (f a)) -> acting (m ≫= f).
Proof.
  intros Hm Hf w. unfold mbind, M_bind. specialize (Hm w).
  destruct (m w) as [[a|e|] w1]; [|done|done]. etrans; [exact Hm|apply Hf].
Qed.

Lemma acts_mapping_err {F} (f : E -> F) (m : M NixWorld E A) :
  acting m -> acting (mapping_err f m).
Proof. intros Hm w. unfold mapping_err. specialize (Hm w). by destruct (m w) as [[] ?]. Qed.

Lemma acts_attempt {F} (m : M NixWorld E A) : acting m -> acting (attempt m : M NixWorld F _).
Proof. intros Hm w. unfold attempt. specialize (Hm w). by destruct (m w) as [[] ?]. Qed.

Lemma effect_fs w fs :
  (forall p, ~ Ps p -> fs_files fs !! p = fs_files (w_fs w) !! p) ->
  fs_dirs (w_fs w) ⊆ fs_dirs fs -> effect Cs Ps w (w_set_fs fs w).
Proof. intros Hf Hd. split; [exists []; by rewrite app_nil_r|done|done]. Qed.

Lemma acts_io_call (f : FS -> option (A * FS)) :
  (forall fs a fs', f fs = Some (a, fs') ->
     (forall p, ~ Ps p -> fs_files fs' !! p = fs_files fs !! p) /\ fs_dirs fs ⊆ fs_dirs fs') ->
  acting (io_call f).
Proof.
  intros Hf w. change (wp (io_call f) (fun _ => effect Cs Ps w) w). apply wp_io_call.
  - intros a fs Ha. cbn. apply Hf in Ha as [? ?]. by apply effect_fs.
  - by apply effect_fs.
Qed.
End Touches.

Section Calls.
Context `{!IoEnv} (Cs : CommandSpec -> Prop) (Ps : Path -> Prop).

Abbreviation acting := (acts Cs Ps).

Lemma acts_exists {E} p : acting (path_exists p : M NixWorld E bool).
Proof.
  intros w. change (wp (path_exists (E := E) p) (fun _ => effect Cs Ps w) w).
  rewrite wp_path_exists. by apply effect_fs.
Qed.

Lemma other_file_kept (p q : Path) bs fs :
  q <> p -> fs_files (put_file p bs fs) !! q = fs_files fs !! q.
Proof. intros Hq. cbn. by rewrite lookup_insert_ne. Qed.

Lemma acts_put p (f : FS -> bool) (g : FS -> list byte) :
  Ps p -> acting (io_call (fun fs => if f fs then Some (tt, put_file p (g fs) fs) else None)).
Proof.
  intros Hp. apply acts_io_call. intros fs a fs' Hf. destruct (f fs); [|done]. injection Hf as <- <-.
  split; [|done]. intros q Hq. apply other_file_kept. by intros ->.
Qed.

Lemma acts_write_all p bs : Ps p -> acting (write_all p bs).
Proof.
  intros Hp w. assert (Hput : forall bs, effect Cs Ps w (w_set_fs (put_file p bs (w_fs w)) w)).
  { intros bs'. apply effect_fs; [|done]. intros q Hq. apply other_file_kept. by intros ->. }
  change (wp (write_all p bs) (fun _ => effect Cs Ps w) w).
  apply wp_write_all; [intros k; apply Hput|by apply effect_fs|apply Hput].
Qed.

Lemma acts_open_create_new p : Ps p -> acting (open_create_new p).
Proof. apply (acts_put p (fun fs => can_create fs p && negb (fs_exists fs p)) (fun _ => [])). Qed.

Lemma acts_open_truncate p : Ps p -> acting (open_truncate p).
Proof. apply (acts_put p (fun fs => can_create fs p) (fun _ => [])). Qed.

Lemma acts_open_existing p : acting (open_existing p).
Proof. apply acts_io_call. intros fs a fs'. case_bool_decide; [|done]. by intros [= _ <-]. Qed.

Lemma acts_open_dir p : acting (open_dir p).
Proof. apply acts_io_call. intros fs a fs'. destruct (dir_exists fs p); [|done]. by intros [= _ <-]. Qed.

Lemma acts_sync_all p : acting (sync_all p).
Proof. apply acts_io_call. by intros fs a fs' [= _ <-]. Qed.

Lemma acts_create_dir_all p : acting (create_dir_all p).
Proof.
  apply acts_io_call. intros fs a fs'. case_bool_decide; [done|]. intros [= _ <-].
  split; [done|]. cbn. set_solver.
Qed.

Lemma acts_read p : acting (fs_read_to_string p).
Proof.
  apply acts_io_call. intros fs a fs'. destruct (fs_files fs !! p); [|done]. cbn.
  destruct (utf8_ok _); [|done]. by intros [= _ <-].
Qed.

Lemma acts_rename p q : Ps p -> Ps q -> acting (fs_rename p q).
Proof.
  intros Hp Hq. apply acts_io_call. intros fs a fs'. unfold rename_file.
  destruct (fs_files fs !! p); [|done]. cbn. destruct (can_create fs q); [|done]. intros [= _ <-].
  split; [|done]. intros r Hr. cbn. rewrite lookup_insert_ne, lookup_delete_ne; [done| |]; by intros ->.
Qed.

Lemma acts_remove p : Ps p -> acting (remove_file p).
Proof.
  intros Hp. apply acts_io_call. intros fs a fs'. destruct (fs_files fs !! p); [|done]. cbn.
  intros [= _ <-]. split; [|done]. intros r Hr. cbn. rewrite lookup_delete_ne; [done|]. by intros ->.
Qed.

Lemma acts_run `{!CommandRunner} spec : Cs spec -> acting (run_command spec).
Proof.
  intros Hs w. unfold run_command. destruct (runner _ _); cbn.
  all: split; cbn; [by exists [spec]; auto|done|done].
Qed.
End Calls.

Create HintDb acts.
#[export] Hint Resolve acts_ret acts_throw acts_throw_if acts_of_result acts_mapping_err
  acts_attempt acts_exists acts_write_all acts_open_create_new acts_open_truncate
  acts_open_existing acts_open_dir acts_sync_all acts_create_dir_all acts_read
  acts_rename acts_remove acts_run : acts.

(** Walk a computation call by call. *)
Ltac touch :=
  repeat (intros; cbn beta iota;
    first [ solve [eauto 6 with acts]
          | apply acts_bind | apply acts_mapping_err | apply acts_attempt
          | case_match ]).

(** ** What each operation acts *)

Definition no_command (c : CommandSpec) : Prop := False.
Definition no_file (p : Path) : Prop := False.

(** The two files of an activation; the files of the pin and of the capture. *)
Definition activation_file (s : CaptureStore) (closure : string) (p : Path) : Prop :=
  p = activation_record_path s closure \/ p = activation_lock_path s closure.
Definition pin_file (s : CaptureStore) (p : Path) : Prop :=
  p = pin_path s \/ p = pin_tmp_path s \/ p = pin_marker_path s.
Definition active_file (s : CaptureStore) (p : Path) : Prop :=
  p = active_path s \/ p = active_tmp_path s \/ p = active_marker_path s.

Definition probe_commands : list CommandSpec := [nix_current_generation; etc_git_head; config_digest].

Section Operations.
Context `{!IoEnv, !CaptureCodec, !CommandRunner}.
Implicit Types (s : CaptureStore) (capture : CapturedProposal) (closure : string).

Lemma acts_nsync_parent Cs Ps p : acts Cs Ps (nsync_parent p).
Proof. unfold nsync_parent. destruct (path_parent p); unfold nio; touch. Qed.
#[local] Hint Resolve acts_nsync_parent : acts.

Ltac touch_store := unfold nio, sync_path, sync_dir, fs_write; touch.

Lemma acts_reserve s closure :
  acts no_command (activation_file s closure) (reserve_activation s closure).
Proof. unfold reserve_activation, activation_file. touch_store. Qed.

Lemma acts_finalize s closure :
  acts no_command (activation_file s closure) (finalize_activation s closure).
Proof. unfold finalize_activation, activation_file. touch_store. Qed.

Lemma acts_release {E} s closure :
  acts no_command (activation_file s closure) (release_activation_reservation (E := E) s closure).
Proof. unfold release_activation_reservation, activation_file. touch_store. Qed.

Lemma acts_store_marked Ps tmp final marker raw :
  Ps tmp -> Ps final -> Ps marker -> acts no_command Ps (store_marked tmp final marker raw).
Proof. intros. unfold store_marked. touch_store. Qed.
#[local] Hint Resolve acts_store_marked : acts.

Lemma acts_store_pin s capture realised :
  acts no_command (pin_file s) (store_pin s capture realised).
Proof. unfold store_pin, pin_file. touch_store. Qed.

Lemma acts_store_active s capture changes :
  acts no_command (active_file s) (store_active s capture changes).
Proof. unfold store_active, active_file. touch_store. Qed.

Lemma acts_load_pin s capture : acts no_command no_file (load_verified_pin s capture).
Proof. unfold load_verified_pin. touch_store. Qed.

Lemma acts_load_active s : acts no_command no_file (load_active s).
Proof. unfold load_active. touch_store. Qed.

Lemma acts_observe (Cs : CommandSpec -> Prop) Ps spec : Cs spec -> acts Cs Ps (observe spec).
Proof. intros. unfold observe. touch. Qed.

Lemma acts_probe : acts (fun c => c ∈ probe_commands) no_file probe.
Proof.
  unfold probe, probe_commands.
  repeat (intros; first [apply acts_observe; set_solver | solve [eauto 6 with acts]
                        | apply acts_bind]).
Qed.
End Operations.

(** ** Reserving and finalizing an activation *)

(** The same world at a later tick. *)
Definition at_tick (w : NixWorld) (n : nat) : NixWorld := mkWorld (w_fs w) n (w_calls w).

(** A record or a reservation of the closure is there. *)
Definition taken (s : CaptureStore) (closure : string) (fs : FS) : Prop :=
  fs_exists fs (activation_record_path s closure) = true \/
  fs_exists fs (activation_lock_path s closure) = true.

Lemma fs_exists_file fs p : is_Some (fs_files fs !! p) -> fs_exists fs p = true.
Proof. intros Hp. unfold fs_exists. by rewrite bool_decide_eq_true_2. Qed.

Lemma list_ascii_of_app a b :
  String.list_ascii_of_string (a +:+ b) = String.list_ascii_of_string a ++ String.list_ascii_of_string b.
Proof. induction a as [|c a IH]; [done|].
  change (String c a +:+ b) with (String c (a +:+ b)). cbn. by rewrite IH. Qed.

Lemma fs_exists_put fs p q bs : fs_exists fs p = true -> fs_exists (put_file q bs fs) p = true.
Proof.
  unfold fs_exists. rewrite !orb_true_iff, !bool_decide_eq_true. intros [Hp|Hp]; [left|by right].
  cbn. destruct (decide (q = p)) as [->|Hq]; [rewrite lookup_insert_eq; by eexists|].
  by rewrite lookup_insert_ne.
Qed.

(** The record of one closure is never the lock of another. *)
Lemma activation_paths_differ s c c' : activation_record_path s c <> activation_lock_path s c'.
Proof.
  unfold activation_record_path, activation_lock_path, path_join. intros Heq.
  apply app_inv_head in Heq. injection Heq as Heq. revert Heq. unfold activation_filename.
  generalize (replace_slashes (trim_start_matches (String.length c) "/nix/store/" c)) as x.
  generalize (replace_slashes (trim_start_matches (String.length c') "/nix/store/" c')) as y.
  intros y x Heq. apply (f_equal (fun s => last (String.list_ascii_of_string s))) in Heq.
  rewrite !list_ascii_of_app, !last_app in Heq. by cbn in Heq.
Qed.

Section Activation.
Context `{!IoEnv, !CaptureCodec, !CommandRunner}.
Implicit Types (s : CaptureStore) (capture : CapturedProposal) (closure : string) (w : NixWorld).

Lemma wp_sync_dir p (Q : outcome CaptureError unit -> NixWorld -> Prop) w :
  Q (Ret tt) (at_tick w (2 + w_tick w)) -> (forall n, Q (Throw CaptureIo) (at_tick w n)) ->
  wp (sync_dir p) Q w.
Proof.
  intros HR HE. unfold sync_dir, nio. wp_simpl. apply wp_io_call; [|apply HE].
  intros a fs Ha. destruct (dir_exists _ _); [|done]. injection Ha as _ <-. wp_simpl.
  apply wp_io_call; [|apply HE]. by intros [] fs' [= <-].
Qed.

Lemma wp_sync_path p (Q : outcome CaptureError unit -> NixWorld -> Prop) w :
  (forall n, Q (Ret tt) (at_tick w n)) -> (forall n, Q (Throw CaptureIo) (at_tick w n)) ->
  wp (sync_path p) Q w.
Proof.
  intros HR HE. unfold sync_path, nio. wp_simpl. apply wp_io_call; [|apply HE].
  intros a fs Ha. case_bool_decide; [|done]. injection Ha as _ <-. wp_simpl.
  apply wp_io_call; [|apply HE]. intros [] fs' [= <-]. apply HR.
Qed.

Lemma wp_nsync_parent p (Q : outcome CaptureError unit -> NixWorld -> Prop) w :
  (forall n, Q (Ret tt) (at_tick w n)) -> (forall n, Q (Throw CaptureIo) (at_tick w n)) ->
  wp (nsync_parent p) Q w.
Proof.
  intros HR HE. unfold nsync_parent. destruct (path_parent p) as [d|].
  - apply (wp_sync_dir d); [apply HR|apply HE].
  - rewrite wp_ret. destruct w. apply (HR w_tick).
Qed.

Lemma wp_look {E} p (Q : outcome E bool -> NixWorld -> Prop) w :
  (forall b, (b = true -> fs_exists (w_fs w) p = true) ->
     (io_fault (w_tick w) = NoFault -> b = fs_exists (w_fs w) p) ->
     Q (Ret b) (at_tick w (S (w_tick w)))) ->
  wp (path_exists p) Q w.
Proof. intros HQ. rewrite wp_path_exists. destruct (io_fault (w_tick w)) eqn:Hf; by apply HQ. Qed.

Ltac grown := split_and!; try done; cbn; auto using fs_exists_put.

Lemma wp_reserve s closure w :
  wp (reserve_activation s closure) (fun o w' =>
    o <> Panic /\ w_calls w' = w_calls w /\
    (forall p, fs_exists (w_fs w) p = true -> fs_exists (w_fs w') p = true) /\
    (forall u, o = Ret u ->
       fs_exists (w_fs w) (activation_lock_path s closure) = false /\
       is_Some (fs_files (w_fs w') !! activation_lock_path s closure) /\
       (io_fault (w_tick w + 5) = NoFault ->
        fs_exists (w_fs w) (activation_record_path s closure) = false))) w.
Proof.
  set (lock := activation_lock_path s closure). set (record := activation_record_path s closure).
  unfold reserve_activation, nio. wp_simpl.
  apply wp_io_call; [|by intros; split_and!].
  intros a fs Hfs. case_bool_decide as Hb; [done|]. injection Hfs as _ <-.
  set (fs := mkFS _ _).
  assert (Hmono : forall p, fs_exists (w_fs w) p = true -> fs_exists fs p = true).
  { intros p. apply (effect_exists no_command no_file w (w_set_fs fs w)); [|by intros []].
    apply effect_fs; [done|]. cbn. set_solver. }
  wp_simpl. apply wp_sync_dir; [|by intros; split_and!]. wp_simpl.
  apply wp_sync_dir; [|by intros; split_and!]. wp_simpl.
  apply wp_look. intros recorded _ Hrec. wp_simpl. destruct recorded; [by split_and!|]. wp_simpl.
  apply wp_look. intros locked _ _. wp_simpl. destruct locked; [by split_and!|].
  wp_simpl. apply wp_io_call; [|by split_and!].
  intros u fs' Hfs'. cbn in Hfs'. fold lock in Hfs'.
  destruct (can_create fs lock && negb (fs_exists fs lock)) eqn:Hcc; [|done].
  apply andb_true_iff in Hcc as [_ Hno%negb_true_iff]. injection Hfs' as _ <-.
  assert (Hl : fs_exists (w_fs w) lock = false).
  { apply not_true_is_false. intros Hx%Hmono. congruence. }
  assert (Hr : io_fault (w_tick w + 5) = NoFault -> fs_exists (w_fs w) record = false).
  { intros Hn. apply not_true_is_false. intros Hx%Hmono. cbn in Hrec.
    rewrite Nat.add_comm in Hn. specialize (Hrec Hn). fold record in Hrec. congruence. }
  wp_simpl. apply wp_write_all; [intros k; grown|grown|].
  wp_simpl. apply wp_sync_path; intros n; [|grown]. wp_simpl.
  apply wp_nsync_parent; intros m; grown. intros _ _. split_and!; [done| |done].
  rewrite lookup_insert_eq. by eexists.
Qed.

Lemma wp_create_new p (Q : outcome IoError unit -> NixWorld -> Prop) w :
  (fs_exists (w_fs w) p = false -> Q (Ret tt) (w_set_fs (put_file p [] (w_fs w)) w)) ->
  Q (Throw "io") (w_set_fs (w_fs w) w) -> wp (open_create_new p) Q w.
Proof.
  intros HR HE. apply wp_io_call; [|done]. intros u fs Hfs.
  destruct (can_create _ p && negb (fs_exists _ p)) eqn:Hc; [|done]. injection Hfs as <- <-.
  apply andb_true_iff in Hc as [_ Hc%negb_true_iff]. by apply HR.
Qed.

Lemma wp_rename p q (Q : outcome IoError unit -> NixWorld -> Prop) w :
  (forall bs, fs_files (w_fs w) !! p = Some bs ->
     Q (Ret tt) (w_set_fs (mkFS (<[q := bs]> (delete p (fs_files (w_fs w)))) (fs_dirs (w_fs w))) w)) ->
  Q (Throw "io") (w_set_fs (w_fs w) w) -> wp (fs_rename p q) Q w.
Proof.
  intros HR HE. apply wp_io_call; [|done]. intros u fs Hfs. unfold rename_file in Hfs.
  destruct (fs_files (w_fs w) !! p) as [bs|]; [|done]. cbn in Hfs.
  destruct (can_create (w_fs w) q); [|done]. injection Hfs as <- <-. by apply HR.
Qed.

(** Finalizing never undoes an activation, and when it succeeds it is recorded. *)
Lemma wp_finalize s closure w :
  taken s closure (w_fs w) ->
  wp (finalize_activation s closure) (fun o w' =>
    o <> Panic /\ taken s closure (w_fs w') /\
    (forall u, o = Ret u -> fs_exists (w_fs w') (activation_record_path s closure) = true)) w.
Proof.
  set (record := activation_record_path s closure). intros Ht. unfold finalize_activation.
  wp_simpl. apply wp_look. intros there Hthere _. destruct there.
  { wp_simpl. split; [done|]. split; [done|]. intros _ _. by apply Hthere. }
  wp_simpl. apply wp_look. intros locked _ _. wp_simpl.
  set (next := sync_path _ ≫= _).
  assert (Hnext : forall v, fs_exists (w_fs v) record = true ->
    wp next (fun o w' => o <> Panic /\ taken s closure (w_fs w') /\
      (forall u, o = Ret u -> fs_exists (w_fs w') record = true)) v).
  { intros v Hv. subst next. wp_simpl.
    apply wp_sync_path; intros n; [|by split; [|split; [left|]]]. wp_simpl.
    apply wp_nsync_parent; intros m; (split; [done|]; split; [by left|done]). }
  destruct locked; wp_simpl; unfold nio; wp_simpl.
  - apply wp_rename; [|by split]. intros bs _. apply Hnext, fs_exists_file. cbn.
    rewrite lookup_insert_eq. by eexists.
  - apply wp_create_new; [|by split]. intros _. apply Hnext, fs_exists_file. cbn.
    rewrite lookup_insert_eq. by eexists.
Qed.

(** ** A whole activation *)

Lemma run_command_world spec w :
  snd (run_command spec w) = mkWorld (w_fs w) (S (w_tick w)) (w_calls w ++ [spec]).
Proof. unfold run_command. by destruct (runner _ _). Qed.

Lemma wp_run_command spec (Q : outcome CommandError CommandOutput -> NixWorld -> Prop) w :
  (forall o, runner (w_tick w) spec = Ok o ->
     Q (Ret o) (mkWorld (w_fs w) (S (w_tick w)) (w_calls w ++ [spec]))) ->
  (forall e, runner (w_tick w) spec = Err e ->
     Q (Throw e) (mkWorld (w_fs w) (S (w_tick w)) (w_calls w ++ [spec]))) ->
  wp (run_command spec) Q w.
Proof. intros HR HE. unfold wp, run_command. destruct (runner _ _); [by apply HR|by apply HE]. Qed.

(** A probe runs its commands in order and changes no file. *)
Lemma wp_probe w :
  wp probe (fun o w' => o <> Panic /\ w_fs w' = w_fs w /\
    (exists l, w_calls w' = w_calls w ++ l /\ Forall (fun c => c ∈ probe_commands) l) /\
    (forall r, o = Ret r -> w_calls w' = w_calls w ++ probe_commands)) w.
Proof.
  assert (Hl1 : Forall (fun c => c ∈ probe_commands) [nix_current_generation]) by (repeat constructor).
  assert (Hl2 : Forall (fun c => c ∈ probe_commands) [nix_current_generation; etc_git_head])
    by (repeat constructor; set_solver).
  assert (Hl3 : Forall (fun c => c ∈ probe_commands) probe_commands) by (by apply Forall_forall).
  unfold probe, observe. wp_simpl. apply wp_run_command; intros g Hg; wp_simpl;
    [|split_and!; try done; by eexists].
  destruct (bool_decide _); wp_simpl; [split_and!; try done; by eexists|].
  apply wp_run_command; intros h Hh; wp_simpl; cbn; rewrite <-?app_assoc;
    [|split_and!; try done; by eexists].
  apply wp_run_command; intros d Hd; wp_simpl; cbn; rewrite <-?app_assoc;
    [|split_and!; try done; by eexists].
  destruct (hex_to_digest _); cbn; wp_simpl; split_and!; try done; by eexists.
Qed.

(** The test ran: a probe saw the captured base under a reservation no
    record contradicted, and the activation is recorded as it turned out. *)
Definition test_ran s capture w (o : outcome PromotionError unit) w' : Prop :=
  let closure := cap_candidate_closure capture in
  exists w1 w2 r,
    probe w1 = (Ret r, w2) /\ w_calls w1 = w_calls w /\
    pr_base_revision r = cap_base_revision capture /\
    is_Some (fs_files (w_fs w2) !! activation_lock_path s closure) /\
    w_calls w' = w_calls w ++ probe_commands ++ [nixos_rebuild_test capture] /\
    taken s closure (w_fs w') /\
    (io_fault (w_tick w + 5) = NoFault -> ~ taken s closure (w_fs w)) /\
    (forall u, o = Ret u ->
       fs_exists (w_fs w') (activation_record_path s closure) = true /\
       exists output, runner (w_tick w2) (nixos_rebuild_test capture) = Ok output /\
                      has (chars_of (trim (co_stdout output))) closure = true).

(** It did not: only the probe's commands were run, and nothing succeeded. *)
Definition test_not_run w (o : outcome PromotionError unit) w' : Prop :=
  (forall u, o <> Ret u) /\
  exists l, w_calls w' = w_calls w ++ l /\ Forall (fun c => c ∈ probe_commands) l.

Lemma wp_test s capture w w1 w2 r :
  let closure := cap_candidate_closure capture in
  probe w1 = (Ret r, w2) -> w_calls w1 = w_calls w ->
  pr_base_revision r = cap_base_revision capture ->
  w_calls w2 = w_calls w ++ probe_commands ->
  is_Some (fs_files (w_fs w2) !! activation_lock_path s closure) ->
  (io_fault (w_tick w + 5) = NoFault -> ~ taken s closure (w_fs w)) ->
  wp (test_result ← attempt (run_command (nixos_rebuild_test capture));
      mapping_err (fun _ => AlreadyActivated) (finalize_activation s closure);;
      match test_result with
      | Ok output =>
          let stdout := trim (co_stdout output) in
          throw_if (negb (has (chars_of stdout) closure)) (ClosureMismatch closure stdout)
      | Err e => throw (promotion_error_of e)
      end) (fun o w' => o <> Panic /\ test_ran s capture w o w') w2.
Proof.
  intros closure Hp Hc1 Hb Hc2 Hlock Hnot. wp_simpl.
  apply wp_run_command; intros x Hx; wp_simpl.
  all: set (w3 := mkWorld _ _ _).
  all: assert (Ht : taken s closure (w_fs w3)) by (right; by apply fs_exists_file).
  all: pose proof (acts_finalize s closure w3) as [(l & Hl & HCl) _ _].
  all: assert (Hcalls : w_calls (snd (finalize_activation s closure w3)) =
         w_calls w ++ probe_commands ++ [nixos_rebuild_test capture]).
  1, 3: rewrite Hl; destruct HCl; [|done]; subst w3; cbn [w_calls]; by rewrite app_nil_r, Hc2, app_assoc.
  all: pose proof (wp_finalize s closure w3 Ht) as Hf; unfold wp in *.
  all: destruct (finalize_activation s closure w3) as [[[]|e|] w4]; cbn in *;
    destruct Hf as (Hf1 & Hf2 & Hf3); [|split; [done|]; exists w1, w2, r; by split_and!|done].
  - destruct (has _ closure) eqn:Hh; cbn; (split; [done|]; exists w1, w2, r; split_and!; try done).
    intros _ _. split; [by apply (Hf3 tt)|]. by exists x.
  - split; [done|]. exists w1, w2, r. by split_and!.
Qed.

Lemma app_ends_inj (a b t : string) : a +:+ t = b +:+ t -> a = b.
Proof.
  intros Heq. apply (f_equal String.list_ascii_of_string) in Heq.
  rewrite !list_ascii_of_app in Heq. apply app_inv_tail in Heq.
  by rewrite <-(String.string_of_list_ascii_of_string a), Heq, String.string_of_list_ascii_of_string.
Qed.

(** The files of an activation are those of the closures with its file name. *)
Lemma activation_file_other s c c' :
  activation_filename c <> activation_filename c' ->
  ~ activation_file s c (activation_record_path s c') /\
  ~ activation_file s c (activation_lock_path s c').
Proof.
  intros Hne. unfold activation_file. split; intros [Heq|Heq].
  - apply app_inv_head in Heq. congruence.
  - by apply activation_paths_differ in Heq.
  - symmetry in Heq. by apply activation_paths_differ in Heq.
  - apply app_inv_head in Heq. injection Heq as Heq. apply app_ends_inj in Heq. congruence.
Qed.

Lemma taken_same_name s c c' fs :
  activation_filename c = activation_filename c' -> taken s c fs -> taken s c' fs.
Proof. unfold taken, activation_record_path, activation_lock_path. by intros ->. Qed.

Lemma effect_taken Cs Ps s closure w w' :
  effect Cs Ps w w' -> ~ Ps (activation_record_path s closure) ->
  ~ Ps (activation_lock_path s closure) -> taken s closure (w_fs w) -> taken s closure (w_fs w').
Proof. intros He Hr Hl [Ht|Ht]; [left|right]; by eapply effect_exists. Qed.

Lemma acts_activate s capture :
  acts (fun c => c ∈ probe_commands \/ c = nixos_rebuild_test capture)
    (activation_file s (cap_candidate_closure capture)) (activate_once s capture).
Proof.
  assert (Hno : forall E A (m : M NixWorld E A) closure,
    acts no_command (activation_file s closure) m ->
    acts (fun c => c ∈ probe_commands \/ c = nixos_rebuild_test capture) (activation_file s closure) m).
  { intros E A m closure Hm w. eapply effect_mono; [| |apply Hm]; by auto. }
  assert (Hp : acts (fun c => c ∈ probe_commands \/ c = nixos_rebuild_test capture)
    (activation_file s (cap_candidate_closure capture)) probe).
  { intros w. eapply effect_mono; [| |apply acts_probe]; [by left|done]. }
  unfold activate_once. apply acts_bind.
  { apply acts_mapping_err, Hno, acts_reserve. }
  intros _. apply acts_bind; [by apply acts_attempt|]. intros [r|e].
  - destruct (bool_decide _).
    + apply acts_bind; [apply Hno, acts_release|]. intros. touch.
    + apply acts_bind; [touch|]. intros t. apply acts_bind; [|intros; touch].
      apply acts_mapping_err, Hno, acts_finalize.
  - apply acts_bind; [apply Hno, acts_release|]. intros. touch.
Qed.

(** Releasing a reservation removes the lock and nothing else. *)
Lemma wp_release {E} s closure (Q : outcome E unit -> NixWorld -> Prop) w :
  (forall fs, (forall p, p <> activation_lock_path s closure -> fs_files fs !! p = fs_files (w_fs w) !! p) ->
     fs_dirs fs = fs_dirs (w_fs w) -> Q (Ret tt) (w_set_fs fs w)) ->
  wp (release_activation_reservation s closure) Q w.
Proof.
  intros HQ. unfold release_activation_reservation. wp_simpl. apply wp_io_call.
  - intros u fs Hfs. destruct (fs_files _ !! _); [|done]. injection Hfs as _ <-. wp_simpl.
    apply HQ; [|done]. intros p Hp. cbn. by rewrite lookup_delete_ne.
  - wp_simpl. by apply HQ.
Qed.

Lemma wp_activate s capture w :
  wp (activate_once s capture) (fun o w' =>
    o <> Panic /\
    (taken s (cap_candidate_closure capture) (w_fs w) ->
     taken s (cap_candidate_closure capture) (w_fs w')) /\
    (test_not_run w o w' \/ test_ran s capture w o w')) w.
Proof.
  set (closure := cap_candidate_closure capture). unfold activate_once. fold closure. wp_simpl.
  eapply wp_mono; [apply wp_reserve|]. intros o w1 (Hp & Hcalls & Hgrow & Hret).
  destruct o as [[]|e|]; [|split_and!; [done|intros [Ht|Ht]; [left|right]; by apply Hgrow|]|done].
  2: { left. split; [done|]. exists []. by rewrite app_nil_r. }
  destruct (Hret tt eq_refl) as (Hno & Hlock & Hlook). wp_simpl. unfold wp at 1.
  pose proof (wp_probe w1) as Hpr. unfold wp in Hpr.
  destruct (probe w1) as [o w2] eqn:Hprobe. cbn [fst snd] in *.
  destruct Hpr as (Hp1 & Hfs & (l & Hl & HCl) & Hall).
  assert (Hstop : wp (release_activation_reservation s closure;; throw BaseMoved)
    (fun o w' => o <> Panic /\ (taken s closure (w_fs w) -> taken s closure (w_fs w')) /\
       (test_not_run w o w' \/ test_ran s capture w o w')) w2).
  { wp_simpl. apply wp_release. intros fs Hf Hd. wp_simpl. split_and!; [done| |left; split; [done|]].
    - intros [Ht|Ht]; [left|congruence]. apply Hgrow in Ht. revert Ht. cbn [w_fs w_set_fs].
      unfold fs_exists, dir_exists. rewrite Hf, Hd, Hfs; [done|]. apply activation_paths_differ.
    - exists l. by rewrite <-Hcalls. }
  destruct o as [r|e|]; [|exact Hstop|done]. cbn beta iota.
  destruct (bool_decide _) eqn:Hb; [exact Hstop|]. bool_to_prop.
  eapply wp_mono.
  - apply (wp_test s capture w w1 w2 r); try done.
    + by rewrite <-Hcalls, (Hall r).
    + by rewrite Hfs.
    + subst closure. intros Hn [Ht|Ht]; [|congruence]. rewrite (Hlook Hn) in Ht. done.
  - intros o' w' [Ho Htest]. split_and!; [done| |by right]. intros _.
    destruct Htest as (? & ? & ? & ? & ? & ? & ? & ? & ? & _). done.
Qed.
End Activation.
