(* ===== verification/NixTheorems.v ===== *)
(** * What the Nix adapter guarantees

    A store and a machine acted on by any sequence of the adapter's
    operations ([history]): no closure is test-activated twice, a capture
    never changes once it is stored; and what each promotion step implies. *)

From S2P Require Import Prelude RustStd TxTypes Wire RustText NixScan NixScanTheorems NixRunner NixCapture NixFacts.

(** ** The operations on a store, as steps *)

Inductive NixOp :=
  | OpPropose (changes : list ConfigFileChange) (base : BaseRevision)
  | OpBuild (capture : CapturedProposal)
  | OpActivate (capture : CapturedProposal)
  | OpPin (capture : CapturedProposal)
  | OpAdvance (capture : CapturedProposal)
  | OpBoot (capture : CapturedProposal)
  | OpFlush
  | OpAgreement (pinned : string)
  | OpProbe.

(** A test activation, by its command line. *)
Definition is_test (c : CommandSpec) : bool :=
  bool_decide (cs_executable c = NIXOS_REBUILD) && bool_decide (cs_argv c !! 1%nat = Some "test").

Definition new_calls (w w' : NixWorld) : list CommandSpec := drop (length (w_calls w)) (w_calls w').
Definition tests (w w' : NixWorld) : list CommandSpec := filter (fun c => is_test c = true) (new_calls w w').

Section Steps.
Context `{!IoEnv, !CaptureCodec, !CommandRunner} (s : CaptureStore).

Definition run_op (op : NixOp) (w : NixWorld) : NixWorld :=
  match op with
  | OpPropose changes base => snd (propose_and_capture s changes base w)
  | OpBuild capture => snd (build capture w)
  | OpActivate capture => snd (activate_once s capture w)
  | OpPin capture => snd (pin_closure s capture w)
  | OpAdvance capture => snd (advance_profile s capture w)
  | OpBoot capture => snd (configure_boot s capture w)
  | OpFlush => snd (flush_boundaries w)
  | OpAgreement pinned => snd (read_agreement pinned w)
  | OpProbe => snd (probe w)
  end.

(** The look at the record, or at the capture, is answered. *)
Definition look_answered (op : NixOp) (w : NixWorld) : Prop :=
  match op with
  | OpPropose _ _ => io_fault (w_tick w) = NoFault
  | OpActivate _ => io_fault (w_tick w + 5) = NoFault
  | _ => True
  end.

(** The closure an operation tested, if it did. *)
Definition tested (op : NixOp) (w : NixWorld) : list string :=
  match op with
  | OpActivate capture =>
      if decide (nixos_rebuild_test capture ∈ new_calls w (run_op op w))
      then [cap_candidate_closure capture] else []
  | _ => []
  end.

(** From [w0] to [w], testing the closures [l] on the way. *)
Inductive history (w0 : NixWorld) : list string -> NixWorld -> Prop :=
  | history_start : history w0 [] w0
  | history_step op l w :
      history w0 l w -> look_answered op w -> history w0 (l ++ tested op w) (run_op op w).

(** ** What a step runs and writes *)

Definition not_test (c : CommandSpec) : Prop := is_test c = false.

Definition written (op : NixOp) (p : Path) : Prop :=
  match op with
  | OpPropose _ _ => active_file s p
  | OpActivate capture => activation_file s (cap_candidate_closure capture) p
  | OpPin _ => pin_file s p
  | _ => False
  end.

Lemma acts_quiet {E A} (Cs : CommandSpec -> Prop) (Ps Ps' : Path -> Prop) (m : M NixWorld E A) :
  acts no_command Ps m -> (forall p, Ps p -> Ps' p) -> acts Cs Ps' m.
Proof. intros Hm HP w. eapply effect_mono; [|exact HP|apply Hm]. by intros c []. Qed.

Lemma not_test_exe c : cs_executable c <> NIXOS_REBUILD -> not_test c.
Proof. intros Hc. unfold not_test, is_test. by rewrite bool_decide_eq_false_2. Qed.

Lemma switch_not_test closure : not_test (switch_to_configuration_boot closure).
Proof.
  apply not_test_exe. cbn. intros Heq.
  apply (f_equal (fun s => last (String.list_ascii_of_string s))) in Heq.
  by rewrite list_ascii_of_app, last_app in Heq.
Qed.

Lemma test_is_test capture : is_test (nixos_rebuild_test capture) = true.
Proof. done. Qed.

Lemma probe_not_test c : c ∈ probe_commands -> not_test c.
Proof. unfold probe_commands. intros Hc. repeat (apply elem_of_cons in Hc as [->|Hc]; [done|]). set_solver. Qed.


(** Walk an operation whose every command is known not to be a test. *)
Ltac touch_op :=
  repeat (intros; cbn beta iota zeta;
    first [ solve [eauto 6 with acts]
          | apply acts_run; first [done | apply switch_not_test]
          | eapply acts_quiet; [apply acts_load_active|by intros ? []]
          | eapply acts_quiet; [apply acts_load_pin|by intros ? []]
          | eapply acts_quiet; [apply acts_store_active|done]
          | eapply acts_quiet; [apply acts_store_pin|done]
          | apply acts_mapping_err | apply acts_attempt | apply acts_bind | case_match ]).

Lemma acts_propose Ps changes base : acts not_test Ps (propose changes base).
Proof. unfold propose. touch_op. Qed.

Lemma acts_verified_pin Cs Ps capture : acts Cs Ps (verified_pin s capture).
Proof. unfold verified_pin. touch_op. Qed.

Lemma acts_read_target Ps pinned : acts not_test Ps (read_verified_profile_target pinned).
Proof. unfold read_verified_profile_target, prun. touch_op. Qed.
#[local] Hint Resolve acts_propose acts_verified_pin acts_read_target : acts.

Lemma op_effect op w :
  match op with OpActivate _ => True | _ => effect not_test (written op) w (run_op op w) end.
Proof.
  destruct op as [changes base|capture|capture|capture|capture|capture| |pinned|]; [| |done|..];
    cbn [run_op written]; revert w; match goal with |- forall w, effect ?Cs ?Ps w (snd (?m w)) =>
      change (acts Cs Ps m) end.
  - unfold propose_and_capture. touch_op.
  - unfold build, prun. touch_op.
  - unfold pin_closure, prun. touch_op.
  - unfold advance_profile, prun. touch_op.
  - unfold configure_boot, prun. touch_op.
  - unfold flush_boundaries, prun. touch_op.
  - unfold read_agreement, prun. touch_op.
  - intros w. eapply effect_mono; [apply probe_not_test| |apply acts_probe]. by intros p [].
Qed.

(** ** Activations over a history *)

Lemma no_tests l : Forall not_test l -> filter (fun c => is_test c = true) l = [].
Proof.
  induction 1 as [|c l Hc _ IH]; [done|]. rewrite filter_cons_False; [done|].
  unfold not_test in Hc. by rewrite Hc.
Qed.

Lemma new_calls_app w w' l : w_calls w' = w_calls w ++ l -> new_calls w w' = l.
Proof. unfold new_calls. intros ->. by rewrite drop_app_length. Qed.

(** Activation records are not among the files other operations write. *)
Lemma written_activation op closure p :
  match op with OpActivate _ => False | _ => True end ->
  p = activation_record_path s closure \/ p = activation_lock_path s closure -> ~ written op p.
Proof.
  destruct op; try done; intros _ Hp; cbn; try (by intros []); intros [->|[->| ->]].
  all: destruct Hp as [Hp|Hp]; unfold activation_record_path, activation_lock_path, activations_dir, path_join in Hp;
    rewrite <-?app_assoc in Hp; apply app_inv_head in Hp; discriminate Hp.
Qed.

(** What one operation adds. *)
Lemma step_tested op w :
  look_answered op w ->
  exists l, w_calls (run_op op w) = w_calls w ++ l /\
    length (filter (fun c => is_test c = true) l) = length (tested op w) /\
    (forall c, taken s c (w_fs w) -> taken s c (w_fs (run_op op w))) /\
    (forall c, c ∈ tested op w -> ~ taken s c (w_fs w) /\ taken s c (w_fs (run_op op w))).
Proof.
  intros Hlook. pose proof (op_effect op w) as He.
  destruct op as [changes base|capture|capture|capture|capture|capture| |pinned|] eqn:Hop.
  3: clear He; rename capture into cap.
  3: { set (closure := cap_candidate_closure cap) in *. cbn [look_answered] in Hlook.
    pose proof (wp_activate s cap w) as Ha. unfold wp in Ha. cbn [run_op tested].
    pose proof (acts_activate s cap w) as Hto. set (w' := snd (activate_once s cap w)) in *.
    destruct Ha as (_ & Hown & Hrun).
    assert (Hkeep : forall c, taken s c (w_fs w) -> taken s c (w_fs w')).
    { intros c Hc. destruct (decide (activation_filename closure = activation_filename c)) as [Hn|Hn].
      - apply (taken_same_name s closure); [done|]. apply Hown. by apply (taken_same_name s c).
      - destruct (activation_file_other s _ _ Hn). by eapply effect_taken. }
    destruct Hrun as [(_ & l & Hl & HCl)|(w1 & w2 & r & _ & _ & _ & _ & Hl & Ht & Hnot & _)];
      rewrite (new_calls_app _ _ _ Hl).
    - exists l. assert (Hq : Forall not_test l) by (eapply Forall_impl; [done|apply probe_not_test]).
      rewrite decide_False.
      + split_and!; [done|by rewrite no_tests|done|set_solver].
      + intros Hin. rewrite Forall_forall in Hq. by apply Hq in Hin.
    - exists (probe_commands ++ [nixos_rebuild_test cap]). rewrite decide_True by set_solver.
      split_and!; [done|done|done|]. intros c ->%list_elem_of_singleton. split; [by apply Hnot|done]. }
  all: pose proof (ef_calls _ _ _ _ He) as (l & Hl & HCl); exists l; rewrite (no_tests _ HCl).
  all: split_and!; [done|done| |cbn; set_solver]; intros c Hc.
  all: apply (effect_taken _ _ _ _ _ _ He); try exact Hc; apply (written_activation _ c); auto.
Qed.

Lemma history_tested w0 l w :
  history w0 l w ->
  exists cs, w_calls w = w_calls w0 ++ cs /\
    length (filter (fun c => is_test c = true) cs) = length l /\
    (forall c, c ∈ l -> taken s c (w_fs w)) /\ NoDup (map activation_filename l).
Proof.
  induction 1 as [|op l w _ (cs & Hcs & Hlen & Ht & Hnd) Hlook].
  { exists []. rewrite app_nil_r. split_and!; [done|done|set_solver|constructor]. }
  destruct (step_tested op w Hlook) as (k & Hk & Hlk & Hkeep & Hnew).
  exists (cs ++ k). split_and!.
  - by rewrite Hk, Hcs, app_assoc.
  - by rewrite filter_app, !length_app, Hlen, Hlk.
  - intros c [Hc|Hc]%elem_of_app; [by auto|by apply Hnew].
  - rewrite map_app. apply NoDup_app. split_and!; [done| |].
    + intros n Hn Hn'. apply list_elem_of_fmap in Hn as (c & -> & Hc), Hn' as (d & Heq & Hd).
      destruct (Hnew d Hd) as [Hno _]. apply Hno. by apply (taken_same_name s c); [|apply Ht].
    + destruct op; cbn [tested]; try constructor. destruct (decide _); [apply NoDup_singleton|constructor].
Qed.

(** ** The stored capture *)

Lemma propose_refused changes base w :
  is_Some (fs_files (w_fs w) !! active_path s) -> io_fault (w_tick w) = NoFault ->
  wp (propose_and_capture s changes base) (fun o w' =>
    (exists e, o = Throw (PCapture e)) /\ w_calls w' = w_calls w /\ w_fs w' = w_fs w) w.
Proof.
  intros Hraw Hn. unfold propose_and_capture, load_active, nio. wp_simpl. apply wp_look.
  intros b _ Hb. rewrite (Hb Hn), fs_exists_file by done. cbn [negb]. wp_simpl. apply wp_io_call.
  - intros a fs Hfs. destruct (fs_files _ !! _) as [raw|]; [|done]. cbn in Hfs.
    destruct (utf8_ok raw); [|done]. injection Hfs as -> <-. wp_simpl.
    destruct (stored_from_str a) as [c|]; cbn [ok_or]; wp_simpl; [|by eauto].
    rewrite bool_decide_eq_true_2 by (by eexists). by eauto.
  - by eauto.
Qed.

Lemma step_keeps_capture op w raw :
  look_answered op w -> fs_files (w_fs w) !! active_path s = Some raw ->
  fs_files (w_fs (run_op op w)) !! active_path s = Some raw.
Proof.
  intros Hlook Hraw.
  assert (Hw : match op with OpPropose _ _ => True | _ => ~ written op (active_path s) end).
  { destruct op; try done; cbn; try (by intros []).
    1: unfold activation_file. 2: unfold pin_file.
    all: intros Hp; repeat destruct Hp as [Hp|Hp];
      unfold active_path, activation_record_path, activation_lock_path, activations_dir, pin_path,
        pin_tmp_path, pin_marker_path, path_join in Hp; rewrite <-?app_assoc in Hp;
      apply app_inv_head in Hp; discriminate Hp. }
  destruct op as [changes base|capture|capture|capture|capture|capture| |pinned|] eqn:Hop.
  - pose proof (propose_refused changes base w (mk_is_Some _ _ Hraw) Hlook) as (_ & _ & Hfs).
    cbn [run_op]. by rewrite Hfs.
  - by rewrite (ef_files _ _ _ _ (op_effect (OpBuild capture) w)).
  - cbn [run_op]. by rewrite (ef_files _ _ _ _ (acts_activate s capture w)).
  - by rewrite (ef_files _ _ _ _ (op_effect (OpPin capture) w)).
  - by rewrite (ef_files _ _ _ _ (op_effect (OpAdvance capture) w)).
  - by rewrite (ef_files _ _ _ _ (op_effect (OpBoot capture) w)).
  - by rewrite (ef_files _ _ _ _ (op_effect OpFlush w)).
  - by rewrite (ef_files _ _ _ _ (op_effect (OpAgreement pinned) w)).
  - by rewrite (ef_files _ _ _ _ (op_effect OpProbe w)).
Qed.

(** ** The pin *)

(** The pin on disk attests the capture: its record is of this capture, whole
    and readable, and the marker is there. *)
Definition pin_attests (capture : CapturedProposal) (fs : FS) : Prop :=
  exists raw r, fs_files fs !! pin_path s = Some raw /\ pin_from_str raw = Some r /\
    matches_capture r capture = true /\ fs_exists fs (pin_marker_path s) = true.

Lemma wp_load_pin capture w :
  wp (load_verified_pin s capture) (fun o w' =>
    o <> Panic /\ w_fs w' = w_fs w /\ w_calls w' = w_calls w /\
    (forall pinned, o = Ret pinned ->
       pin_attests capture (w_fs w) /\ pinned = cap_candidate_closure capture)) w.
Proof.
  unfold load_verified_pin, nio. wp_simpl. apply wp_look. intros there _ _. wp_simpl.
  destruct there; cbn [negb]; wp_simpl; [|by split_and!]. apply wp_io_call; [|by split_and!].
  intros raw fs Hfs. destruct (fs_files _ !! _) as [raw'|] eqn:Hraw; [|done]. cbn in Hfs.
  destruct (utf8_ok raw'); [|done]. injection Hfs as -> <-. wp_simpl.
  destruct (pin_from_str raw) as [r|] eqn:Hr; cbn [ok_or]; wp_simpl; [|by split_and!]. wp_simpl.
  destruct (matches_capture r capture) eqn:Hm; cbn [negb]; wp_simpl; [|by split_and!]. wp_simpl.
  apply wp_look. intros synced Hs _. wp_simpl. destruct synced; cbn [negb]; wp_simpl; [|by split_and!].
  wp_simpl. split_and!; [done|done|done|]. intros pinned [= <-]. split.
  - exists raw, r. split_and!; try done. by apply Hs.
  - unfold matches_capture in Hm. by apply andb_true_iff in Hm as [_ Hm%bool_decide_eq_true].
Qed.

Lemma wp_verified_pin capture w :
  wp (verified_pin s capture) (fun o w' =>
    o <> Panic /\ w_fs w' = w_fs w /\ w_calls w' = w_calls w /\
    (forall pinned, o = Ret pinned ->
       pin_attests capture (w_fs w) /\ pinned = cap_candidate_closure capture)) w.
Proof.
  unfold verified_pin. wp_simpl. eapply wp_mono; [apply wp_load_pin|].
  intros o w' (Hp & Hfs & Hc & Hr). destruct o as [x|[]|]; wp_simpl; [split_and!; [done..|by intros p [= <-]; apply Hr]| |by split_and!|done].
  apply wp_look. intros b _ _. by wp_simpl; split_and!.
Qed.

(** A verified target: one command, and its output is the pin. *)
Lemma wp_read_target pinned w :
  wp (read_verified_profile_target pinned) (fun o w' =>
    o <> Panic /\ w_fs w' = w_fs w /\ w_calls w' = w_calls w ++ [read_profile_target] /\
    (forall u, o = Ret u -> pinned <> "" /\
       exists output, runner (w_tick w) read_profile_target = Ok output /\
                      trim (co_stdout output) = pinned)) w.
Proof.
  unfold read_verified_profile_target, prun. wp_simpl. apply wp_run_command; intros x Hx; wp_simpl;
    [|by split_and!].
  destruct (bool_decide (_ = "")) eqn:He; wp_simpl; [by split_and!|]. wp_simpl.
  destruct (bool_decide (_ <> _)) eqn:Hne; wp_simpl; [by split_and!|]. bool_to_prop.
  split_and!; [done|done|done|]. intros _ _. split; [congruence|]. by exists x.
Qed.

Lemma wp_open_truncate p (Q : outcome IoError unit -> NixWorld -> Prop) w :
  Q (Ret tt) (w_set_fs (put_file p [] (w_fs w)) w) -> Q (Throw "io") (w_set_fs (w_fs w) w) ->
  wp (open_truncate p) Q w.
Proof.
  intros HR HE. apply wp_io_call; [|done]. intros u fs Hfs.
  destruct (can_create _ p); [|done]. by injection Hfs as <- <-.
Qed.

(** The call that failed left the old record, or the new one. *)
Ltac step_fails Hfail := apply Hfail; [done|left; cbn; by rewrite ?lookup_insert_ne].
Ltac step_fails_late Hfail :=
    apply Hfail; [done|right; cbn; rewrite ?lookup_insert_ne by done; by rewrite lookup_insert_eq].

(** A marked record is replaced as a whole, or not at all. *)
Lemma wp_store_marked tmp final marker raw w :
  tmp <> final -> marker <> final ->
  wp (store_marked tmp final marker raw) (fun o w' =>
    o <> Panic /\ w_calls w' = w_calls w /\
    (fs_files (w_fs w') !! final = fs_files (w_fs w) !! final \/
     fs_files (w_fs w') !! final = Some raw) /\
    (forall u, o = Ret u ->
       fs_files (w_fs w') !! final = Some raw /\ fs_exists (w_fs w') marker = true)) w.
Proof.
  intros Ht Hm. set (Q := fun (o : outcome CaptureError unit) w' => _).
  assert (Hfail : forall (e : CaptureError) v, w_calls v = w_calls w ->
    fs_files (w_fs v) !! final = fs_files (w_fs w) !! final \/
    fs_files (w_fs v) !! final = Some raw -> Q (Throw e) v) by (intros; by split_and!).
  unfold store_marked, fs_write, nio. wp_simpl.
  apply wp_open_truncate; wp_simpl; [|step_fails Hfail].
  apply wp_write_all; wp_simpl; [intros k; step_fails Hfail|step_fails Hfail|].
  apply wp_sync_path; intros n; wp_simpl; [|step_fails Hfail].
  apply wp_rename; wp_simpl; [|step_fails Hfail]. intros bs Hbs.
  cbn in Hbs. rewrite !lookup_insert_eq in Hbs. cbn in Hbs. injection Hbs as <-. wp_simpl.
  apply wp_sync_path; intros n1; wp_simpl; [|step_fails_late Hfail].
  apply wp_nsync_parent; intros n2; wp_simpl; [|step_fails_late Hfail].
  apply wp_open_truncate; wp_simpl; [|step_fails_late Hfail].
  apply wp_write_all; wp_simpl; [intros k; step_fails_late Hfail|step_fails_late Hfail|].
  apply wp_sync_path; intros n3; wp_simpl; [|step_fails_late Hfail].
  apply wp_nsync_parent; intros n4; wp_simpl; [|step_fails_late Hfail].
  assert (Hfin : forall fs bs bs', fs_files fs !! final = Some raw ->
    fs_files (put_file marker bs (put_file marker bs' fs)) !! final = Some raw)
    by (intros; cbn; by rewrite !lookup_insert_ne).
  subst Q. split_and!; [done|done|right; apply Hfin; cbn; by rewrite lookup_insert_eq|].
  intros _ _. split; [apply Hfin; cbn; by rewrite lookup_insert_eq|].
  apply fs_exists_file. cbn. rewrite lookup_insert_eq. by eexists.
Qed.

Definition pin_record (capture : CapturedProposal) (realised : string) : PinRecord :=
  let base := cap_base_revision capture in
  mkPin (cap_candidate_closure capture) (br_generation base) (br_etc_git_commit base)
    (digest_hex (br_config_digest base)) realised.

Lemma pin_record_matches capture :
  matches_capture (pin_record capture (cap_candidate_closure capture)) capture = true.
Proof. unfold matches_capture. by rewrite !bool_decide_eq_true_2. Qed.

Lemma wp_create_dir_all p (Q : outcome IoError unit -> NixWorld -> Prop) w :
  (forall fs, fs_files fs = fs_files (w_fs w) -> Q (Ret tt) (w_set_fs fs w)) ->
  Q (Throw "io") (w_set_fs (w_fs w) w) -> wp (create_dir_all p) Q w.
Proof.
  intros HR HE. apply wp_io_call; [|done]. intros [] fs Hfs. case_bool_decide; [done|].
  injection Hfs as <-. by apply HR.
Qed.

Lemma wp_store_pin capture realised w :
  wp (store_pin s capture realised) (fun o w' =>
    o <> Panic /\ w_calls w' = w_calls w /\
    (fs_files (w_fs w') !! pin_path s = fs_files (w_fs w) !! pin_path s \/
     exists raw, pin_to_string (pin_record capture realised) = Some raw /\
                 fs_files (w_fs w') !! pin_path s = Some raw) /\
    (forall u, o = Ret u -> fs_exists (w_fs w') (pin_marker_path s) = true /\
       exists raw, pin_to_string (pin_record capture realised) = Some raw /\
                   fs_files (w_fs w') !! pin_path s = Some raw)) w.
Proof.
  unfold store_pin, nio. wp_simpl.
  apply wp_create_dir_all; wp_simpl; [|by split_and!; auto]. intros fs Hfs. wp_simpl.
  apply wp_sync_dir; wp_simpl; [|intros n; split_and!; try done; left; cbn; by rewrite Hfs].
  fold (pin_record capture realised).
  destruct (pin_to_string _) as [raw|] eqn:Hraw; cbn [ok_or]; wp_simpl;
    [|split_and!; try done; left; cbn; by rewrite Hfs].
  eapply wp_mono; [apply wp_store_marked|].
  1, 2: unfold pin_tmp_path, pin_marker_path, pin_path, path_join; intros Heq;
    apply app_inv_head in Heq; discriminate Heq.
  intros o w' (Hp & Hc & Hor & Hret). cbn in Hor. rewrite Hfs in Hor. split_and!; [done|done| |].
  - destruct Hor as [Hor|Hor]; [by left|right]. by exists raw.
  - intros u Hu. destruct (Hret u Hu) as [Hf Hm]. split; [done|]. by exists raw.
Qed.

(** ** What is proposed *)

Lemma wp_store_active capture changes w :
  wp (store_active s capture changes) (fun o w' => o <> Panic /\
    (forall u, o = Ret u -> exists raw,
       stored_to_string (mkStoredCapture capture (changes_fingerprint changes)) = Some raw /\
       fs_files (w_fs w') !! active_path s = Some raw)) w.
Proof.
  unfold store_active, nio. wp_simpl. apply wp_create_dir_all; wp_simpl; [|by split].
  intros fs Hfs. wp_simpl. apply wp_sync_dir; wp_simpl; [|by split].
  apply wp_look. intros there _ _. wp_simpl. destruct there; [by split|]. wp_simpl.
  destruct (stored_to_string _) as [raw|] eqn:Hraw; cbn [ok_or]; wp_simpl; [|by split].
  eapply wp_mono; [apply wp_store_marked|].
  1, 2: unfold active_tmp_path, active_marker_path, active_path, path_join; intros Heq;
    apply app_inv_head in Heq; discriminate Heq.
  intros o w' (Hp & _ & _ & Hret). split; [done|]. intros u Hu. exists raw. split; [done|].
  by apply (Hret u).
Qed.

(** The capture on disk is for the base revision [base]. *)
Definition captured_base (base : BaseRevision) (fs : FS) : Prop :=
  exists raw c, fs_files fs !! active_path s = Some raw /\ stored_from_str raw = Some c /\
                cap_base_revision (sc_capture c) = base.

Lemma wp_propose_and_capture `{!CaptureCodecLaws} changes base w :
  wp (propose_and_capture s changes base) (fun o w' => o <> Panic /\
    (forall p, o = Ret p -> cap_base_revision (pp_capture p) = base /\ captured_base base (w_fs w'))) w.
Proof.
  unfold propose_and_capture, load_active, nio. wp_simpl. apply wp_look. intros there _ _.
  assert (Hrest : forall w, wp (result ← propose changes base;
      mapping_err PCapture (store_active s (pp_capture result) changes);; mret result)
    (fun o w' => o <> Panic /\ (forall p, o = Ret p ->
      cap_base_revision (pp_capture p) = base /\ captured_base base (w_fs w'))) w).
  { intros w0. unfold propose. wp_simpl. apply wp_run_command; intros out _; wp_simpl; [|by split].
    eapply wp_mono; [apply wp_store_active|]. intros o w' [Hp Hr].
    destruct o as [[]|e|]; wp_simpl; [|by split|done]. split; [done|]. intros p [= <-]. split; [done|].
    destruct (Hr tt eq_refl) as (raw & Hraw & Hf). exists raw.
    apply stored_roundtrip in Hraw as [_ Hc]. by eexists. }
  destruct there; cbn [negb]; wp_simpl.
  - apply wp_io_call; [|by wp_simpl; split]. intros raw fs Hfs. wp_simpl.
    destruct (stored_from_str raw) as [c|]; cbn [ok_or]; wp_simpl; [|by split].
    rewrite bool_decide_eq_true_2 by (by eexists). by split.
  - rewrite bool_decide_eq_false_2 by (by intros [? ?]). specialize (Hrest (at_tick w (S (w_tick w)))). revert Hrest. by wp_simpl.
Qed.

(** ** The promotion steps *)

(** A command answered, and this is its text. *)
Definition answers (t : nat) (spec : CommandSpec) (text : string) : Prop :=
  exists output, runner t spec = Ok output /\ trim (co_stdout output) = text.

(** C22: Activating a capture either never gets to the test activation, having
    run nothing but the probe's commands and succeeding at nothing; or a probe
    saw the base the capture was made for, under a reservation on disk, the
    test was run once, the activation is on record whatever came of it, and it
    succeeds only when the record is final and the output names the closure. *)
Theorem activation_outcome capture w :
  wp (activate_once s capture) (fun o w' =>
    o <> Panic /\ (test_not_run w o w' \/ test_ran s capture w o w')) w.
Proof. eapply wp_mono; [apply wp_activate|]. by intros o w' (? & _ & ?). Qed.

(** C10: Whatever operations are run, in whatever order and whatever fails,
    as long as the look at an activation's record is answered no closure is
    test-activated twice, and no other operation runs a test activation. *)
Theorem no_closure_tested_twice w0 l w :
  history w0 l w ->
  NoDup (map activation_filename l) /\
  exists cs, w_calls w = w_calls w0 ++ cs /\
             length (filter (fun c => is_test c = true) cs) = length l.
Proof. intros Hh. destruct (history_tested _ _ _ Hh) as (cs & ? & ? & _ & ?). eauto. Qed.

(** A stored capture never changes again, whatever operations follow,
    and every later proposal is refused before any command is run: a store
    takes one capture in its life. *)
Theorem capture_is_for_ever w0 l w raw :
  history w0 l w -> fs_files (w_fs w0) !! active_path s = Some raw ->
  fs_files (w_fs w) !! active_path s = Some raw /\
  (forall changes base, io_fault (w_tick w) = NoFault ->
     wp (propose_and_capture s changes base) (fun o w' =>
       (exists e, o = Throw (PCapture e)) /\ w_calls w' = w_calls w /\ w_fs w' = w_fs w) w).
Proof.
  intros Hh Hraw. assert (Hw : fs_files (w_fs w) !! active_path s = Some raw).
  { induction Hh; [done|]. by apply step_keeps_capture. }
  split; [done|]. intros changes base Hn. by apply propose_refused.
Qed.

(** C37: Pinning runs the realisation and nothing else; the pin on disk is
    afterwards the old one or the whole new one, whatever failed, and when it
    succeeds the pin attests the capture and a later step reads it back. *)
Theorem pin_is_whole `{!CaptureCodecLaws} capture w :
  wp (pin_closure s capture) (fun o w' =>
    o <> Panic /\ w_calls w' = w_calls w ++ [nix_store_realise (cap_candidate_closure capture)] /\
    (fs_files (w_fs w') !! pin_path s = fs_files (w_fs w) !! pin_path s \/
     exists raw, pin_to_string (pin_record capture (cap_candidate_closure capture)) = Some raw /\
                 fs_files (w_fs w') !! pin_path s = Some raw) /\
    (forall x, o = Ret x -> x = cap_candidate_closure capture /\ pin_attests capture (w_fs w'))) w.
Proof.
  unfold pin_closure, prun. wp_simpl. apply wp_run_command; intros out Hout; wp_simpl;
    [|by split_and!; auto].
  destruct (bool_decide _) eqn:Hb; wp_simpl; [by split_and!; auto|]. bool_to_prop. rewrite Hb.
  eapply wp_mono; [apply wp_store_pin|]. intros o w' (Hp & Hc & Hor & Hret).
  destruct o as [[]|e|]; wp_simpl; [|by split_and!|done]. split_and!; [done|done|done|].
  intros x [= <-]. split; [done|]. destruct (Hret tt eq_refl) as (Hm & raw & Hraw & Hf).
  exists raw, (pin_record capture (cap_candidate_closure capture)). split_and!; try done.
  - by apply pin_roundtrip in Hraw as [_ ?].
  - apply pin_record_matches.
Qed.

(** C20: The system profile is set, and the boot entry switched, only for the
    closure a pin of this very capture attests; the boot entry only after the
    profile was read back and names it.  Success means every command was run. *)
Theorem promotion_follows_the_pin capture w :
  let closure := cap_candidate_closure capture in
  wp (advance_profile s capture) (fun o w' => exists l,
    w_calls w' = w_calls w ++ l /\
    l `prefix_of` [nix_env_profile_set closure; read_profile_target] /\
    (l <> [] -> pin_attests capture (w_fs w)) /\
    (forall u, o = Ret u -> length l = 2%nat /\ exists t, answers t read_profile_target closure)) w /\
  wp (configure_boot s capture) (fun o w' => exists l,
    w_calls w' = w_calls w ++ l /\
    l `prefix_of` [read_profile_target; switch_to_configuration_boot closure] /\
    (l <> [] -> pin_attests capture (w_fs w)) /\
    (length l = 2%nat -> closure <> "" /\ exists t, answers t read_profile_target closure) /\
    (forall u, o = Ret u -> length l = 2%nat)) w.
Proof.
  intros closure. split.
  - unfold advance_profile, prun. wp_simpl. eapply wp_mono; [apply wp_verified_pin|].
    intros o w1 (Hp & Hfs & Hc & Hr).
    destruct o as [pinned|e|]; [|by exists []; rewrite app_nil_r; split_and!; auto using prefix_nil|done].
    destruct (Hr pinned eq_refl) as [Hat ->]. fold closure. wp_simpl.
    apply wp_run_command; intros x Hx; wp_simpl;
      [|exists [nix_env_profile_set closure]; cbn; rewrite Hc; split_and!; [done|by eexists [_]|done|done]].
    eapply wp_mono; [apply wp_read_target|]. intros o w' (Hp' & _ & Hc' & Hr').
    exists [nix_env_profile_set closure; read_profile_target]. cbn in Hc'. rewrite Hc', Hc, <-app_assoc.
    split_and!; [done|done|done|]. intros u Hu. split; [done|]. destruct (Hr' u Hu) as [_ Ho]. by eexists.
  - unfold configure_boot, prun. wp_simpl. eapply wp_mono; [apply wp_verified_pin|].
    intros o w1 (Hp & Hfs & Hc & Hr).
    destruct o as [pinned|e|]; [|by exists []; rewrite app_nil_r; split_and!; auto using prefix_nil|done].
    destruct (Hr pinned eq_refl) as [Hat ->]. fold closure. wp_simpl.
    eapply wp_mono; [apply wp_read_target|]. intros o w2 (Hp2 & _ & Hc2 & Hr2).
    destruct o as [[]|e|]; [|exists [read_profile_target]; rewrite Hc2, Hc; split_and!; try done; by eexists [_]|done].
    wp_simpl. destruct (Hr2 tt eq_refl) as [Hne Ho].
    apply wp_run_command; intros x Hx; wp_simpl;
      exists [read_profile_target; switch_to_configuration_boot closure]; cbn; rewrite Hc2, Hc, <-app_assoc.
    all: split_and!; try done; intros _; split; [done|]; by eexists.
Qed.

(** Readback agrees exactly when the profile, the boot default and the
    store all answer the pinned closure and its hash can be read. *)
Theorem agreement_exact pinned w :
  let t := w_tick w in
  (exists a, fst (read_agreement pinned w) = Ret a) <->
  answers t read_profile_target pinned /\ answers (1 + t) read_boot_default pinned /\
  answers (2 + t) (read_closure_store_path pinned) pinned /\
  exists text, answers (3 + t) (read_closure_hash pinned) text.
Proof.
  intros t. unfold read_agreement, prun, mapping_err, run_command, answers.
  unfold mbind, M_bind. cbn. fold t.
  destruct (runner t _) as [o1|e1]; cbn; [|naive_solver].
  destruct (runner (S t) _) as [o2|e2]; cbn; [|naive_solver].
  destruct (runner (S (S t)) _) as [o3|e3]; cbn; [|naive_solver].
  destruct (runner (S (S (S t))) _) as [o4|e4]; cbn; [|naive_solver].
  unfold throw_if. repeat case_bool_decide; cbn; naive_solver.
Qed.

(** The adapter probes its base revision once.  From the first probe
    that succeeds on, every proposal is captured for that revision, whatever
    the machine has become, and a capture whose base the machine no longer
    has is never tested. *)
Theorem base_revision_is_frozen `{!CaptureCodecLaws} `{!UnicodeCase} (changes : list ConfigFileChange)
    (a : NixAdapter) (r : ProbeResult) :
  na_probe_cache a = Some r ->
  wp (na_propose_config s changes) (fun o a' => na_probe_cache a' = Some r /\
    (forall x, o = Ret x -> captured_base (pr_base_revision r) (w_fs (na_world a')))) a /\
  (forall capture w, cap_base_revision capture = pr_base_revision r ->
     (forall w1 r' w2, probe w1 = (Ret r', w2) -> pr_base_revision r' <> pr_base_revision r) ->
     wp (activate_once s capture) (fun o w' => test_not_run w o w') w).
Proof.
  intros Hr. split.
  - unfold na_propose_config, na_current_base_revision, cached, on_nix_world. wp_simpl.
    destruct (map_err _ _); [|by split]. unfold wp, mbind, M_bind, attempt, mapping_err, zoom.
    unfold probe_cached. rewrite Hr. cbn.
    pose proof (wp_propose_and_capture changes (pr_base_revision r) (na_world a)) as Hw. unfold wp in Hw.
    destruct (propose_and_capture _ _ _ _) as [[p|e|] w']; cbn in *; [|by split..].
    split; [done|]. intros x _. destruct Hw as [_ Hw]. by apply (Hw p).
  - intros capture w Hb Hmoved. eapply wp_mono; [apply wp_activate|].
    intros o w' (_ & _ & [Hn|(w1 & w2 & r' & Hp & _ & Hr' & _)]); [done|].
    exfalso. apply (Hmoved _ _ _ Hp). congruence.
Qed.
End Steps.

(** ** A machine to try it on *)

Section Demo.
Definition demo_digest : string := String.concat "" (repeat "11" 32).
Definition demo_base : BaseRevision :=
  mkBase (Some "system-1-link") "abc" (from_sha256_bytes (repeat (byte_of 17) 32)).
Definition demo_capture : CapturedProposal :=
  mkCapture demo_base "/nix/store/new-system" "/etc/nixos#agentbed" "a: b".
Definition demo_old : CapturedProposal :=
  mkCapture demo_base "/nix/store/old-system" "/etc/nixos#agentbed" "a: c".
Definition demo_store : CaptureStore := mkCaptureStore ["captures"].
Definition demo_world : NixWorld := mkWorld fs_empty 0 [].

Definition demo_registry : list (CommandSpec * CommandOutput) :=
  [(nix_current_generation, output_ok ("system-1-link" +:+ LINE_FEED)); (etc_git_head, output_ok "abc");
   (config_digest, output_ok demo_digest);
   (nixos_rebuild_test demo_capture, output_ok "activating /nix/store/new-system");
   (nix_store_realise "/nix/store/new-system", output_ok "/nix/store/new-system");
   (nix_store_realise "/nix/store/old-system", output_ok "/nix/store/old-system");
   (nix_eval_candidate [], output_ok "/nix/store/new-system")].

Definition demo_runner : CommandRunner := {| runner := fun _ => fake_run demo_registry |}.

(** A codec of two pins and one capture. *)
Definition demo_pin (c : CapturedProposal) : PinRecord := pin_record c (cap_candidate_closure c).
Definition demo_stored : StoredCapture :=
  mkStoredCapture (mkCapture demo_base "/nix/store/new-system" "/etc/nixos#agentbed" "") "[]".

Definition demo_codec : CaptureCodec := {|
  pin_to_string r :=
    if decide (r = demo_pin demo_old) then Some (bytes_of_string "old")
    else if decide (r = demo_pin demo_capture) then Some (bytes_of_string "new") else None;
  pin_from_str raw :=
    if decide (raw = bytes_of_string "old") then Some (demo_pin demo_old)
    else if decide (raw = bytes_of_string "new") then Some (demo_pin demo_capture) else None;
  stored_to_string c := if decide (c = demo_stored) then Some (bytes_of_string "capture") else None;
  stored_from_str raw := if decide (raw = bytes_of_string "capture") then Some demo_stored else None;
  changes_to_string changes := match changes with [] => Some "[]" | _ => None end;
|}.

Lemma demo_codec_laws : @CaptureCodecLaws demo_codec.
Proof.
  split; cbn.
  - intros r raw. case_decide as H1; [intros [= <-]; by subst|].
    case_decide as H2; [intros [= <-]; by subst|done].
  - intros c raw. case_decide as Hc; [intros [= <-]; by subst|done].
Qed.

(** An environment that refuses one call. *)
Definition refusing (n : nat) : IoEnv := {| io_fault k := if Nat.eqb k n then FailBefore else NoFault |}.

(** An unanswered look at the record lets the same closure be tested again. *)
Lemma lost_look_tests_twice :
  let act := @activate_once (refusing 29) demo_runner demo_store demo_capture in
  let '(o1, w1) := act demo_world in
  let '(o2, w2) := act w1 in
  o1 = Ret tt /\ o2 = Ret tt /\ length (tests demo_world w2) = 2%nat.
Proof. vm_compute. auto. Qed.

(** A pin whose first sync fails is still attested, by the marker of the pin
    before it. *)
Lemma stale_marker_attests :
  let pin c := @pin_closure (refusing 28) demo_codec demo_runner demo_store c in
  let '(o1, w1) := pin demo_old demo_world in
  let '(o2, w2) := pin demo_capture w1 in
  o1 = Ret "/nix/store/old-system" /\
  o2 = Throw (PinMismatch "/nix/store/new-system" "pin persistence failed") /\
  fst (@load_verified_pin (refusing 28) demo_codec demo_store demo_capture w2) =
    Ret "/nix/store/new-system".
Proof. vm_compute. auto. Qed.

(** Two attempts to activate on a machine that works. *)
Definition demo_op : NixOp := OpActivate demo_capture.
Definition demo_run (op : NixOp) (w : NixWorld) : NixWorld :=
  @run_op reliable_io demo_codec demo_runner demo_store op w.
Definition demo_tested (w : NixWorld) : list string :=
  @tested reliable_io demo_codec demo_runner demo_store demo_op w.

Lemma demo_history w :
  @history reliable_io demo_codec demo_runner demo_store w
    (([] ++ demo_tested w) ++ demo_tested (demo_run demo_op w)) (demo_run demo_op (demo_run demo_op w)).
Proof. by do 2 (apply history_step; [|done]); constructor. Defined.

Lemma no_closure_tested_twice_witness :
  ([] ++ demo_tested demo_world) ++ demo_tested (demo_run demo_op demo_world) = ["/nix/store/new-system"] /\
  NoDup (map activation_filename
    (([] ++ demo_tested demo_world) ++ demo_tested (demo_run demo_op demo_world))).
Proof.
  split; [vm_compute; reflexivity|].
  apply (@no_closure_tested_twice reliable_io demo_codec demo_runner demo_store demo_world _ _
           (demo_history demo_world)).
Defined.

Definition demo_captured : NixWorld := demo_run (OpPropose [] demo_base) demo_world.

Lemma capture_is_for_ever_witness :
  fs_files (w_fs (demo_run demo_op (demo_run demo_op demo_captured))) !! active_path demo_store =
  Some (bytes_of_string "capture").
Proof.
  apply (@capture_is_for_ever reliable_io demo_codec demo_runner demo_store demo_captured _ _
           (bytes_of_string "capture") (demo_history demo_captured)).
  vm_compute. reflexivity.
Defined.

Lemma pin_is_whole_witness :
  fst (@pin_closure reliable_io demo_codec demo_runner demo_store demo_capture demo_world) =
    Ret "/nix/store/new-system" /\
  @pin_attests demo_codec demo_store demo_capture
    (w_fs (snd (@pin_closure reliable_io demo_codec demo_runner demo_store demo_capture demo_world))).
Proof.
  assert (Ho : fst (@pin_closure reliable_io demo_codec demo_runner demo_store demo_capture demo_world) =
    Ret "/nix/store/new-system") by (vm_compute; reflexivity).
  split; [exact Ho|].
  destruct (@pin_is_whole reliable_io demo_codec demo_runner demo_store demo_codec_laws demo_capture
              demo_world) as (_ & _ & _ & Hr).
  exact (proj2 (Hr _ Ho)).
Defined.

(** A machine that has moved on from what was probed first. *)
Definition moved_base : BaseRevision :=
  mkBase (Some "system-0-link") "abc" (from_sha256_bytes (repeat (byte_of 17) 32)).
Definition moved_probe : ProbeResult :=
  mkProbe (mkAdapterInfo "nix" true 1 None None) probed_safety AdapterProbe moved_base.

Lemma demo_probe_base w1 r w2 : @probe demo_runner w1 = (Ret r, w2) -> pr_base_revision r = demo_base.
Proof. destruct w1. vm_compute. by intros [= <- _]. Qed.

Lemma base_revision_is_frozen_witness :
  na_probe_cache (mkNixAdapter demo_world (Some moved_probe)) = Some moved_probe /\
  wp (@activate_once reliable_io demo_runner demo_store
        (mkCapture moved_base "/nix/store/new-system" "/etc/nixos#agentbed" ""))
     (fun o w' => test_not_run demo_world o w') demo_world.
Proof.
  split; [reflexivity|].
  apply (@base_revision_is_frozen reliable_io demo_codec demo_runner demo_store demo_codec_laws
           ascii_case [] (mkNixAdapter demo_world (Some moved_probe)) moved_probe); [reflexivity|reflexivity|].
  intros w1 r' w2 Hp. rewrite (demo_probe_base _ _ _ Hp). discriminate.
Defined.
End Demo.
