(* ===== verification/WdTopology.v ===== *)
(** * Watchdog: the topology of the sealed store

    [watchdogd/src/topology.rs].  What the host reports of its mounts and of
    the metadata of a path is the interface [HostView], asked anew at every
    call; the probe of writing goes through the file system of [RustStd]. *)

From S2P Require Import Prelude RustStd WdTypes RustText.

Definition WATCHDOG_MOUNT_ROOT : string := "/var/lib/agentbed/watchdog".

(** Protected domains whose mount identity and device must differ. *)
Definition PROTECTED_DOMAIN_PATHS : list string :=
  ["/"; "/nix"; "/nix/store"; "/var/lib/agentbed/broker/state"; "/var/lib/agentbed/rollback"].

(** Modes, in octal in the source: 0700, 0600, 0400, 0555, 0777. *)
Definition STORE_DIR_MODE : Z := 448.
Definition AUTHORITATIVE_FILE_MODE : Z := 384.
Definition CONFIG_FILE_MODE : Z := 256.
Definition RUNTIME_BINARY_MODE : Z := 365.
Definition PERMISSION_BITS : Z := 511.

Definition WATCHDOG_SUBDIRS : list string := ["decisions"; "epoch"; "state"; "config"; "runtime"].

Definition WATCHDOG_AUTHORITATIVE_FILES : list (string * Z) :=
  [("decisions/decision.log", AUTHORITATIVE_FILE_MODE);
   ("epoch/high-water.json", AUTHORITATIVE_FILE_MODE);
   ("state/safe-mode.json", AUTHORITATIVE_FILE_MODE)].

Definition WATCHDOG_OPTIONAL_FILES : list (string * Z) :=
  [("config/watchdog.json", CONFIG_FILE_MODE);
   ("runtime/agentbed-watchdogd", RUNTIME_BINARY_MODE)].

(** ** What the host reports *)

Inductive FileType := FtSymlink | FtDir | FtFile | FtOther.
#[export] Instance FileType_eq_dec : EqDecision FileType.
Proof. solve_decision. Defined.

(** [fs::Metadata], as far as it is looked at. *)
Record Metadata := mkMetadata {
  md_uid : Z;
  md_gid : Z;
  md_mode : Z;
  md_nlink : Z;
  md_dev : Z;
  md_type : FileType;
}.

Definition is_symlink (m : Metadata) : bool := bool_decide (md_type m = FtSymlink).
Definition is_dir (m : Metadata) : bool := bool_decide (md_type m = FtDir).
Definition is_file (m : Metadata) : bool := bool_decide (md_type m = FtFile).

Inductive LstatError := LNotFound | LOther.

(** Each answer is that of the moment of the call. *)
Class HostView := {
  hv_symlink_metadata : nat -> string -> result LstatError Metadata;
  hv_exists : nat -> string -> bool;
  hv_mountinfo : nat -> option string;
  hv_current_dir : nat -> option string;
  hv_nanos : nat -> option Z;
}.

Record MountEntry := mkMount { mount_id : Z; mount_point : string }.
#[export] Instance MountEntry_eq_dec : EqDecision MountEntry.
Proof. solve_decision. Defined.

Record DirEvidence := mkDirEvidence {
  de_uid : Z; de_gid : Z; de_mode : Z; de_is_symlink : bool; de_is_dir : bool;
}.

Record FileEvidence := mkFileEvidence {
  fe_uid : Z; fe_gid : Z; fe_mode : Z; fe_link_count : Z; fe_is_symlink : bool; fe_is_file : bool;
}.

(** ** Paths *)

Definition or_root (p : PathBuf) : PathBuf :=
  if negb (pb_rooted p) && bool_decide (pb_names p = []) then mkPathBuf true [] else p.

(** [normalize_mount_path] of the components of a path *)
Definition normalize_components (cs : list Component) : PathBuf :=
  or_root (fold_left pathbuf_push cs (mkPathBuf false [])).

Definition normalize_mount_path (path : string) : string :=
  pathbuf_text (normalize_components (components path)).

Definition path_matches_sealed_mount_root (path : string) : bool :=
  bool_decide (components (normalize_mount_path path) = components WATCHDOG_MOUNT_ROOT).

Definition reject_lexical_traversal (path : string) : result TopologyError unit :=
  fail_if (existsb (fun c => match c with ParentDir => true | _ => false end) (components path))
          UnavailableStore.

Definition is_absolute (path : string) : bool :=
  match components path with RootDir :: _ => true | _ => false end.

(** ** The mount table *)

(** [String::push(char::from(byte))]: a byte becomes the character of its
    number, which takes two bytes from 128 on. *)
Definition push_byte (b : byte) : list byte :=
  let v := byte_val b in
  if v <=? 127 then [b] else [byte_of (192 + v / 64); byte_of (128 + v mod 64)].

Definition BACKSLASH_BYTE : byte := byte_of 92.

(** The four octal escapes. *)
Definition decode_escape (seq : list byte) : option byte :=
  if bool_decide (seq = bytes_of_string "\040") then Some (byte_of 32)
  else if bool_decide (seq = bytes_of_string "\011") then Some (byte_of 9)
  else if bool_decide (seq = bytes_of_string "\012") then Some (byte_of 10)
  else if bool_decide (seq = bytes_of_string "\134") then Some BACKSLASH_BYTE
  else None.

(** The loop of [unescape_mount_path], on what is left of the bytes. *)
Fixpoint unescape_bytes (bs : list byte) : result TopologyError (list byte) :=
  match bs with
  | [] => Ok []
  | b :: rest =>
      if bool_decide (b = BACKSLASH_BYTE) then
        match rest with
        | b1 :: b2 :: b3 :: rest =>
            decoded ← ok_or (decode_escape [b; b1; b2; b3]) UnavailableStore;
            out ← unescape_bytes rest;
            Ok (decoded :: out)
        | _ => Err UnavailableStore
        end
      else out ← unescape_bytes rest; Ok (push_byte b ++ out)
  end.

Definition unescape_mount_path (raw : string) : result TopologyError string :=
  string_of_bytes <$> unescape_bytes (bytes_of_string raw).

Definition parse_major_minor (token : string) : result TopologyError unit :=
  '(major, minor) ← ok_or (split_once_str ":" token) UnavailableStore;
  _ ← ok_or (parse_u32 major) UnavailableStore;
  _ ← ok_or (parse_u32 minor) UnavailableStore;
  Ok tt.

(** [fields.next().ok_or(..)?] *)
Definition next_field (fields : list string) : result TopologyError (string * list string) :=
  match fields with
  | [] => Err UnavailableStore
  | f :: fields => Ok (f, fields)
  end.

Definition parse_mountinfo_line (line : string) : result TopologyError MountEntry :=
  '(before, _) ← ok_or (split_once_str " - " line) UnavailableStore;
  let fields := split_whitespace before in
  '(id, fields) ← next_field fields;
  mount_id ← ok_or (parse_u32 id) UnavailableStore;
  '(_, fields) ← next_field fields;
  '(major_minor, fields) ← next_field fields;
  parse_major_minor major_minor;;
  '(_, fields) ← next_field fields;
  '(mount_point_raw, _) ← next_field fields;
  mount_point ← unescape_mount_path mount_point_raw;
  fail_if (negb (str_starts_with mount_point "/")) UnavailableStore;;
  Ok (mkMount mount_id mount_point).

Fixpoint parse_lines_from (ls : list string) : result TopologyError (list MountEntry) :=
  match ls with
  | [] => Ok []
  | line :: ls =>
      if decide (line = "") then parse_lines_from ls else
      entry ← parse_mountinfo_line line;
      entries ← parse_lines_from ls;
      Ok (entry :: entries)
  end.

Definition parse_mountinfo (raw : string) : result TopologyError (list MountEntry) :=
  parse_lines_from (lines raw).

Definition find_exact_mount_unique (entries : list MountEntry) (path : string) :
    result TopologyError MountEntry :=
  let normalized := normalize_mount_path path in
  match filter (fun e => mount_point e = normalized) entries with
  | [] => Err OrdinaryDirectoryFallback
  | [first] => Ok first
  | _ => Err UnavailableStore
  end.

Definition mount_point_contains (mount_point path : string) : bool :=
  if decide (mount_point = "/") then str_starts_with path "/"
  else bool_decide (path = mount_point) || str_starts_with path (mount_point +:+ "/").

Definition max_list (ns : list nat) : nat := foldr Nat.max 0%nat ns.

Definition containing_mount_unique (entries : list MountEntry) (path : string) :
    result TopologyError MountEntry :=
  let candidates := filter (fun e => mount_point_contains (mount_point e) path = true) entries in
  if bool_decide (candidates = []) then Err UnavailableStore else
  let max_len := max_list (map (fun e => String.length (mount_point e)) candidates) in
  match filter (fun e => String.length (mount_point e) = max_len) candidates with
  | [only] => Ok only
  | _ => Err UnavailableStore
  end.

(** ** Verdicts on metadata *)

Definition evaluate_mount_device_separation (store_mount_id store_dev domain_mount_id domain_dev : Z) :
    result TopologyError unit :=
  fail_if ((store_mount_id =? domain_mount_id) || (store_dev =? domain_dev)) SameDeviceAlias.

Definition evaluate_dir_ownership (evidence : DirEvidence) (expected_mode : Z) :
    result TopologyError unit :=
  fail_if (de_is_symlink evidence) SymlinkComponent;;
  fail_if (negb (de_is_dir evidence)) NonRegularComponent;;
  fail_if (negb (de_uid evidence =? 0) || negb (de_gid evidence =? 0)) WrongOwnershipOrMode;;
  fail_if (negb (de_mode evidence =? expected_mode)) WrongOwnershipOrMode.

Definition evaluate_root_dir_metadata (meta : Metadata) (expected_mode : Z) :
    result TopologyError unit :=
  evaluate_dir_ownership
    (mkDirEvidence (md_uid meta) (md_gid meta) (Z.land (md_mode meta) PERMISSION_BITS)
       (is_symlink meta) (is_dir meta)) expected_mode.

Definition evaluate_file_ownership (evidence : FileEvidence) (expected_mode : Z) :
    result TopologyError unit :=
  fail_if (fe_is_symlink evidence) SymlinkComponent;;
  fail_if (negb (fe_is_file evidence)) NonRegularComponent;;
  fail_if (negb (fe_uid evidence =? 0) || negb (fe_gid evidence =? 0)) WrongOwnershipOrMode;;
  fail_if (negb (fe_mode evidence =? expected_mode)) WrongOwnershipOrMode;;
  fail_if (negb (fe_link_count evidence =? 1)) WrongLinkCount.

Definition evaluate_regular_file_metadata (meta : Metadata) (expected_mode : Z) :
    result TopologyError unit :=
  evaluate_file_ownership
    (mkFileEvidence (md_uid meta) (md_gid meta) (Z.land (md_mode meta) PERMISSION_BITS)
       (md_nlink meta) (is_symlink meta) (is_file meta)) expected_mode.

(** ** The probe *)

Section Probe.
Context {C : Type} `{!IoEnv, !HostView}.

Abbreviation TopoM := (M (World C) TopologyError).

(** One question to the host. *)
Definition ask {E A} (f : nat -> A) : M (World C) E A := fun w =>
  (Ret (f (w_tick w)), mkWorld (w_fs w) (S (w_tick w)) (w_calls w)).

(** [fs::symlink_metadata(path).map_err(..)?] *)
Definition metadata_or_unavailable (path : string) : TopoM Metadata :=
  meta ← ask (fun n => hv_symlink_metadata n path);
  of_result (map_err (fun _ => UnavailableStore) meta).

Fixpoint reject_symlinks_from (cumulative : PathBuf) (cs : list Component) : TopoM unit :=
  match cs with
  | [] => mret tt
  | c :: cs =>
      throw_if (match c with ParentDir => true | _ => false end) UnavailableStore;;
      let cumulative := pathbuf_push cumulative c in
      if decide (pathbuf_text cumulative = "") then reject_symlinks_from cumulative cs else
      meta ← metadata_or_unavailable (pathbuf_text cumulative);
      throw_if (is_symlink meta) SymlinkComponent;;
      reject_symlinks_from cumulative cs
  end.

Definition reject_symlink_components (path : string) : TopoM unit :=
  reject_symlinks_from (mkPathBuf false []) (components path).

Definition absolute_lexical_path (path : string) : TopoM string :=
  base ← (if is_absolute path then mret []
          else cwd ← ask hv_current_dir;
               of_result (components <$> ok_or cwd UnavailableStore));
  mret (pathbuf_text (normalize_components (base ++ components path))).

Definition read_mount_table : TopoM (list MountEntry) :=
  raw ← ask hv_mountinfo;
  of_result (raw ← ok_or raw UnavailableStore; parse_mountinfo raw).

Definition protected_domain_identity (entries : list MountEntry) (domain_path : string) :
    TopoM (Z * Z) :=
  of_result (reject_lexical_traversal domain_path);;
  reject_symlink_components domain_path;;
  there ← ask (fun n => hv_exists n domain_path);
  throw_if (negb there) MissingMount;;
  containing ← of_result (containing_mount_unique entries domain_path);
  meta ← metadata_or_unavailable domain_path;
  mret (mount_id containing, md_dev meta).

Definition inspect_optional (evaluate : Metadata -> Z -> result TopologyError unit)
    (path : string) (expected_mode : Z) : TopoM unit :=
  meta ← ask (fun n => hv_symlink_metadata n path);
  match meta with
  | Ok meta => of_result (evaluate meta expected_mode)
  | Err LNotFound => mret tt
  | Err LOther => throw UnavailableStore
  end.
Definition inspect_optional_dir := inspect_optional evaluate_root_dir_metadata.
Definition inspect_optional_file := inspect_optional evaluate_regular_file_metadata.

(** [for x in xs { f(x)?; }] *)
Fixpoint for_each {A} (f : A -> TopoM unit) (xs : list A) : TopoM unit :=
  match xs with
  | [] => mret tt
  | x :: xs => f x;; for_each f xs
  end.

Definition inspect_existing_layout (store_root : string) : TopoM unit :=
  for_each (fun subdir => inspect_optional_dir (join_text store_root subdir) STORE_DIR_MODE)
           WATCHDOG_SUBDIRS;;
  for_each (fun '(rel, mode) => inspect_optional_file (join_text store_root rel) mode)
           WATCHDOG_AUTHORITATIVE_FILES;;
  for_each (fun '(rel, mode) => inspect_optional_file (join_text store_root rel) mode)
           WATCHDOG_OPTIONAL_FILES.

(** ** The proof that the store can be written *)

(** The place of a path in the file system. *)
Definition fs_path (path : string) : Path := pb_names (normalize_components (components path)).

Definition unwritable {A} (m : M (World C) IoError A) : TopoM A := mapping_err (fun _ => Unwritable) m.

Definition dir_fsync (path : Path) : TopoM unit :=
  unwritable (open_dir path);; unwritable (sync_all path).

(** [fs::remove_file], where a file that is not there is no failure. *)
Definition remove_if_there (p : Path) : M (World C) IoError unit :=
  io_call (fun fs =>
    if dir_exists fs p then None else Some (tt, mkFS (delete p (fs_files fs)) (fs_dirs fs))).

Definition cleanup_probe_residue (parent : Path) (paths : list Path) : TopoM unit :=
  for_each (fun p => unwritable (remove_if_there p)) paths;;
  dir_fsync parent.

Definition payload : list byte := bytes_of_string "agentbed-topology-probe".

(** What is done while [ProbeResidueGuard] is armed. *)
Definition write_probe (store_root tmp renamed : Path) : TopoM unit :=
  unwritable (open_create_new tmp);;
  unwritable (write_all tmp payload);;
  unwritable (sync_all tmp);;
  unwritable (fs_rename tmp renamed);;
  dir_fsync store_root;;
  readback ← unwritable (fs_read renamed);
  throw_if (bool_decide (readback <> payload)) Unwritable;;
  cleanup_probe_residue store_root [renamed].

(** The guard: a failure is followed by one more attempt to clean up, whose
    own failure is ignored. *)
Definition guarded (parent : Path) (paths : list Path) (m : TopoM unit) : TopoM unit :=
  result ← attempt m;
  match result with
  | Ok _ => mret tt
  | Err e => _ ← attempt (cleanup_probe_residue parent paths); throw e
  end.

Definition probe_name (prefix : string) (nanos : Z) : string := prefix +:+ format_decimal nanos.

Definition prove_writable_same_directory_atomic (store_root : string) : TopoM unit :=
  nanos ← ask hv_nanos;
  let nanos := default 0 nanos in
  let root := fs_path store_root in
  let tmp := path_join root [probe_name ".tmp-topology-probe-" nanos] in
  let renamed := path_join root [probe_name ".tmp-topology-probe-renamed-" nanos] in
  guarded root [tmp; renamed] (write_probe root tmp renamed).

(** The part of [verify_startup] that only asks. *)
Definition inspect_store (store_root : string) : TopoM unit :=
  of_result (reject_lexical_traversal store_root);;
  reject_symlink_components store_root;;
  there ← ask (fun n => hv_exists n store_root);
  throw_if (negb there) MissingMount;;
  store_abs ← absolute_lexical_path store_root;
  mountinfo ← read_mount_table;
  store_mount ← (match find_exact_mount_unique mountinfo store_abs with
                 | Ok entry => mret entry
                 | Err UnavailableStore => throw UnavailableStore
                 | Err _ =>
                     meta ← ask (fun n => hv_symlink_metadata n store_root);
                     throw (match meta with
                            | Ok m => if is_dir m then OrdinaryDirectoryFallback else NonRegularComponent
                            | Err _ => UnavailableStore
                            end)
                 end);
  throw_if (negb (path_matches_sealed_mount_root store_abs)) MissingMount;;
  store_meta ← metadata_or_unavailable store_root;
  let store_mount_id := mount_id store_mount in
  let store_dev := md_dev store_meta in
  of_result (evaluate_root_dir_metadata store_meta STORE_DIR_MODE);;
  for_each (fun domain =>
    '(domain_mount_id, domain_dev) ← protected_domain_identity mountinfo domain;
    of_result (evaluate_mount_device_separation store_mount_id store_dev domain_mount_id domain_dev))
    PROTECTED_DOMAIN_PATHS;;
  inspect_existing_layout store_root.

(** [ProductionTopologyProbe::verify_startup] *)
Definition verify_startup (store_root : string) : TopoM unit :=
  inspect_store store_root;;
  prove_writable_same_directory_atomic store_root.
End Probe.
