(* ===== verification/WdTopologyTheorems.v ===== *)
(** * Watchdog: what the topology check guarantees

    A store that passes is the sealed one: at its path, on a mount and a
    device of its own, owned by root and closed to others, as the host said at
    moments of the check; the check leaves no trace; and the mount a path is
    taken to lie on is the innermost that contains it. *)

From S2P Require Import Prelude RustStd WdTypes RustText WdTopology.

(** ** Where a path lies *)

(** The names that lead from the root of the file system to the place a
    sequence of components names; none, unless it starts at the root. *)
Definition resolve_step (at_ : option (list string)) (c : Component) : option (list string) :=
  match c with
  | RootDir => Some []
  | CurDir => at_
  | ParentDir => (fun ns => removelast ns) <$> at_
  | Normal name => (fun ns => ns ++ [name]) <$> at_
  end.

Definition resolve (cs : list Component) : option (list string) := fold_left resolve_step cs None.

(** The place of the sealed mount. *)
Definition WATCHDOG_NAMES : list string := ["var"; "lib"; "agentbed"; "watchdog"].

Lemma push_resolves cs p :
  let q := fold_left pathbuf_push cs p in
  fold_left resolve_step cs (if pb_rooted p then Some (pb_names p) else None) =
  if pb_rooted q then Some (pb_names q) else None.
Proof.
  revert p. induction cs as [|c cs IH]; intros [r ns]; [done|]. cbn [fold_left]. rewrite <-IH. f_equal.
  by destruct c, r.
Qed.

(** A name that is one component. *)
Definition good_name (s : string) : Prop := component_of s = Some (Normal s) /\ split_slash s = (s, []).

Lemma split_slash_pieces s :
  split_slash (split_slash s).1 = ((split_slash s).1, []) /\
  forall piece, piece ∈ (split_slash s).2 -> split_slash piece = (piece, []).
Proof.
  induction s as [|c s [IH1 IH2]]; [split; [done|by intros p ?%not_elem_of_nil]|].
  cbn [split_slash]. destruct (split_slash s) as [first rest]. case_decide; cbn [fst snd] in *.
  - split; [done|]. intros p [->|Hp]%elem_of_cons; auto.
  - split; [|done]. cbn [split_slash]. rewrite IH1. by case_decide.
Qed.

Definition good_component (c : Component) : Prop :=
  match c with Normal name => good_name name | _ => True end.

Lemma omap_good ps :
  (forall p, p ∈ ps -> split_slash p = (p, [])) -> Forall good_component (omap component_of ps).
Proof.
  intros Hps. apply Forall_forall. intros c (p & Hp & Hc)%list_elem_of_omap.
  destruct c; try done. unfold component_of in Hc. repeat case_decide; simplify_eq.
  split; [by unfold component_of; rewrite !decide_False|by apply Hps].
Qed.

Lemma components_good path : Forall good_component (components path).
Proof.
  unfold components. pose proof (split_slash_pieces path) as [H1 H2].
  destruct (split_slash path) as [first rest]. cbn [fst snd] in *.
  assert (Hall : Forall good_component (omap component_of (first :: rest))).
  { apply omap_good. intros p [->|Hp]%elem_of_cons; auto. }
  repeat (case_match; subst; try done); (constructor; [done|by apply omap_good]).
Qed.

Lemma push_good cs p :
  Forall good_component cs -> Forall good_name (pb_names p) ->
  Forall good_name (pb_names (fold_left pathbuf_push cs p)).
Proof.
  intros Hcs. revert p. induction Hcs as [|c cs Hc Hcs IH]; intros p Hp; [done|]. cbn [fold_left].
  apply IH. destruct c; cbn [pathbuf_push pathbuf_pop pb_names]; [constructor|done| |].
  - apply Forall_forall. intros x Hx. eapply Forall_forall; [exact Hp|].
    destruct (pb_names p) as [|y l] eqn:He; [done|].
    rewrite (app_removelast_last (l:=y :: l) y) by done. apply elem_of_app. by left.
  - apply Forall_app. split; [done|by apply Forall_singleton].
Qed.

Abbreviation SLASH := (Ascii.Ascii true true true true false true false false).

(** Reading the text of a path gives its components again. *)
Lemma split_slash_app a b :
  split_slash a = (a, []) -> split_slash (a +:+ String SLASH b) =
  (a, (split_slash b).1 :: (split_slash b).2).
Proof.
  induction a as [|c a IH]; intros Ha.
  - change (EmptyString +:+ ?x) with x. cbn [split_slash]. by destruct (split_slash b).
  - change (String c a +:+ ?x) with (String c (a +:+ x)). cbn [split_slash] in *. destruct (split_slash a) as [x y] eqn:E.
    destruct (decide (ch c = C_SLASH)); [done|]. simplify_eq. by rewrite (IH eq_refl).
Qed.

Lemma split_slash_concat n ns :
  Forall good_name (n :: ns) -> split_slash (String.concat "/" (n :: ns)) = (n, ns).
Proof.
  revert n. induction ns as [|m ns IH]; intros n [[Hn Hs] Hns]%Forall_cons; [done|].
  change (String.concat "/" (n :: m :: ns)) with (n +:+ String SLASH (String.concat "/" (m :: ns))).
  rewrite split_slash_app by done. by rewrite (IH m Hns).
Qed.

Lemma omap_normal ns : Forall good_name ns -> omap component_of ns = map Normal ns.
Proof. induction 1 as [|n ns [Hn _] _ IH]; [done|]. cbn. by rewrite Hn, <-IH. Qed.

Lemma components_text p :
  Forall good_name (pb_names p) -> pb_rooted p = true \/ pb_names p <> [] ->
  components (pathbuf_text p) = (if pb_rooted p then [RootDir] else []) ++ map Normal (pb_names p).
Proof.
  destruct p as [r ns]. unfold pathbuf_text, components. cbn [pb_rooted pb_names]. intros Hns Hor.
  destruct ns as [|n ns]; [destruct Hor as [->|]; done|]. destruct r; cbn [String.append].
  - change ("/" +:+ ?x) with (String SLASH x). cbn [split_slash].
    rewrite split_slash_concat by done. cbn. do 2 f_equal. by apply (omap_normal (n :: ns)).
  - change ("" +:+ ?x) with x. rewrite split_slash_concat by done. rewrite <-(omap_normal (n :: ns)) by done.
    apply Forall_cons in Hns as [[Hn _] _]. cbn. unfold component_of in Hn.
    repeat case_decide; try done. repeat (case_match; try done).
Qed.

Lemma normalize_again p :
  normalize_components ((if pb_rooted p then [RootDir] else []) ++ map Normal (pb_names p)) = or_root p.
Proof.
  unfold normalize_components. f_equal. destruct p as [r ns]. cbn [pb_rooted pb_names].
  assert (Hfold : forall l q, fold_left pathbuf_push (map Normal l) q = mkPathBuf (pb_rooted q) (pb_names q ++ l)).
  { induction l as [|x l IH]; intros [rq nq]; cbn [map fold_left]; [by rewrite app_nil_r|].
    rewrite IH. cbn. by rewrite <-app_assoc. }
  rewrite fold_left_app, Hfold. by destruct r.
Qed.

(** The path whose normal form is that of the sealed mount leads there. *)
Lemma sealed_root_resolves cs :
  Forall good_component cs ->
  path_matches_sealed_mount_root (pathbuf_text (normalize_components cs)) = true ->
  resolve cs = Some WATCHDOG_NAMES /\
  normalize_mount_path (pathbuf_text (normalize_components cs)) = WATCHDOG_MOUNT_ROOT.
Proof.
  intros Hcs Hm%bool_decide_eq_true.
  pose proof (push_resolves cs (mkPathBuf false [])) as Hres. cbn [pb_rooted] in Hres.
  assert (Hgood := push_good cs (mkPathBuf false []) Hcs (Forall_nil_2 _)).
  unfold normalize_mount_path in *. change (normalize_components cs) with (or_root (fold_left pathbuf_push cs (mkPathBuf false []))) in *.
  set (q := fold_left pathbuf_push cs (mkPathBuf false [])) in *.
  assert (Hq : Forall good_name (pb_names (or_root q)) /\
               (pb_rooted (or_root q) = true \/ pb_names (or_root q) <> [])).
  { unfold or_root. destruct q as [[] [|n ns]]; cbn; split; auto. }
  destruct Hq as [Hg Hor].
  assert (Hfix : normalize_components (components (pathbuf_text (or_root q))) = or_root q).
  { rewrite components_text, normalize_again by done. unfold or_root. by destruct q as [[] [|n ns]]. }
  rewrite Hfix in *. rewrite components_text in Hm by done.
  assert (Hq : or_root q = mkPathBuf true WATCHDOG_NAMES).
  { change (components WATCHDOG_MOUNT_ROOT) with (RootDir :: map Normal WATCHDOG_NAMES) in Hm.
    destruct (or_root q) as [[] ns]; cbn [pb_rooted pb_names app] in Hm.
    - injection Hm as Hm. f_equal. apply (list_fmap_eq_inj Normal); [by intros ?? [= ->]|exact Hm].
    - destruct ns; discriminate Hm. }
  assert (Hq' : q = mkPathBuf true WATCHDOG_NAMES).
  { unfold or_root in Hq. by destruct q as [[] [|n ns]]; cbn in Hq; simplify_eq. }
  rewrite Hq. split; [|done]. unfold resolve. by rewrite Hres, Hq'.
Qed.

(** ** What a computation that only asks has seen *)

Section Reports.
Context {C : Type} `{!IoEnv, !HostView}.

Abbreviation TopoM := (M (World C) TopologyError).
Implicit Types (w : World C).

(** The moments at which a run asks. *)
Context (asked : nat -> Prop).

(** [m] changes no file; and if it asks at those moments only, what it returns
    satisfies [P]. *)
Definition reports {A} (m : TopoM A) (P : A -> Prop) : Prop :=
  forall w, wp m (fun o w' => o <> Panic /\ w_fs w' = w_fs w /\ w_calls w' = w_calls w /\
                              (w_tick w <= w_tick w')%nat /\
                              ((forall n, (w_tick w <= n < w_tick w')%nat -> asked n) ->
                               forall a, o = Ret a -> P a)) w.

Lemma reports_ret {A} (a : A) (P : A -> Prop) : P a -> reports (mret a) P.
Proof. intros Ha w. rewrite wp_ret. split_and!; try done. by intros _ b [= <-]. Qed.

Lemma reports_throw {A} (e : TopologyError) (P : A -> Prop) : reports (throw e) P.
Proof. intros w. by rewrite wp_throw. Qed.

Lemma reports_throw_if b e (P : unit -> Prop) : (b = false -> P tt) -> reports (throw_if b e) P.
Proof.
  intros HP w. rewrite wp_throw_if. destruct b; split_and!; try done. intros _ [] _. by apply HP.
Qed.

Lemma reports_of_result {A} (r : result TopologyError A) : reports (of_result r) (fun a => r = Ok a).
Proof.
  intros w. rewrite wp_of_result. destruct r; split_and!; try done. by intros _ b [= <-].
Qed.

Lemma reports_ask {A} (f : nat -> A) : reports (ask f) (fun a => exists n, asked n /\ f n = a).
Proof.
  intros w. unfold wp, ask. cbn. split_and!; try done; [lia|]. intros Hn a [= <-].
  exists (w_tick w). split; [apply Hn; lia|done].
Qed.

(** No moment is asked at that is not. *)
Lemma reports_bind {A B} (m : TopoM A) (f : A -> TopoM B) (P : A -> Prop) (Q : B -> Prop) :
  reports m P -> (forall a, reports (f a) (fun b => P a -> Q b)) -> reports (m ≫= f) Q.
Proof.
  intros Hm Hf w. rewrite wp_bind. eapply wp_mono; [apply Hm|].
  intros o w' (Hp & Hfs & Hc & Ht & Hr). destruct o as [a|e|]; [|by split_and!|done].
  eapply wp_mono; [apply (Hf a)|]. intros o w'' (? & Hfs' & Hc' & Ht' & Hr').
  split_and!; [done|by rewrite Hfs'|by rewrite Hc'|lia|]. intros Hn b Hb.
  apply (Hr' (fun n Hn' => Hn n ltac:(lia)) b Hb). apply Hr; [|done]. intros n Hn'. apply Hn. lia.
Qed.

Lemma reports_mono {A} (m : TopoM A) (P Q : A -> Prop) :
  reports m P -> (forall a, P a -> Q a) -> reports m Q.
Proof.
  intros Hm HPQ w. eapply wp_mono; [apply Hm|]. intros o w' (? & ? & ? & ? & Hr).
  split_and!; try done. intros Hn a Ha. by eapply HPQ, Hr.
Qed.

Lemma reports_for_each {A} (f : A -> TopoM unit) (xs : list A) (P : A -> Prop) :
  (forall x, x ∈ xs -> reports (f x) (fun _ => P x)) ->
  reports (for_each f xs) (fun _ => forall x, x ∈ xs -> P x).
Proof.
  induction xs as [|x xs IH]; intros Hf; cbn [for_each].
  { apply reports_ret. intros x Hx. by apply not_elem_of_nil in Hx. }
  eapply reports_bind; [apply Hf; by left|]. intros [].
  eapply reports_mono; [apply IH; intros; apply Hf; by right|].
  intros u Hrest Hx y [->|Hy]%elem_of_cons; [done|by apply Hrest].
Qed.

Lemma reports_metadata path :
  reports (metadata_or_unavailable path) (fun m => exists n, asked n /\ hv_symlink_metadata n path = Ok m).
Proof.
  unfold metadata_or_unavailable. eapply reports_bind; [apply reports_ask|]. intros r.
  eapply reports_mono; [apply reports_of_result|]. intros m Hm (n & Hn & <-). exists n. split; [done|].
  by destruct (hv_symlink_metadata n path); cbn in Hm; simplify_eq.
Qed.

(** Every place on the way along a path was seen, and was no symbolic link. *)
Definition no_symlink_along (from : PathBuf) (cs : list Component) : Prop :=
  forall cs1 c cs2, cs = cs1 ++ c :: cs2 ->
    let place := pathbuf_text (fold_left pathbuf_push (cs1 ++ [c]) from) in
    c <> ParentDir /\
    (place <> "" -> exists n m, asked n /\ hv_symlink_metadata n place = Ok m /\ md_type m <> FtSymlink).

Lemma no_symlink_cons from c cs :
  (c <> ParentDir /\ let place := pathbuf_text (pathbuf_push from c) in
    (place <> "" -> exists n m, asked n /\ hv_symlink_metadata n place = Ok m /\ md_type m <> FtSymlink)) ->
  no_symlink_along (pathbuf_push from c) cs -> no_symlink_along from (c :: cs).
Proof.
  intros Hc Hcs [|c1 cs1] c' cs2 Heq; cbn in Heq; simplify_eq; [exact Hc|]. by apply (Hcs cs1 c' cs2).
Qed.

Lemma reports_symlinks path :
  reports (reject_symlink_components path) (fun _ => no_symlink_along (mkPathBuf false []) (components path)).
Proof.
  unfold reject_symlink_components. generalize (mkPathBuf false []).
  induction (components path) as [|c cs IH]; intros p; cbn [reject_symlinks_from].
  { apply reports_ret. by intros [] ? ?. }
  eapply reports_bind.
  { apply (reports_throw_if _ _ (fun _ => c <> ParentDir)). by destruct c. }
  intros []. case_decide as Hempty.
  - eapply reports_mono; [apply IH|]. intros u Hu Hc. apply no_symlink_cons; [|done]. by split.
  - eapply reports_bind; [apply reports_metadata|]. intros m.
    eapply reports_bind; [apply (reports_throw_if _ _ (fun _ => md_type m <> FtSymlink)),
      bool_decide_eq_false|]. intros [].
    eapply reports_mono; [apply IH|]. intros u Hu Hm (n & Hn & Hmeta) Hc. apply no_symlink_cons; [|done].
    split; [done|]. intros place _. by exists n, m.
Qed.

(** The path [root], from where the process works if it is relative, leads to
    the place that [names] names. *)
Definition leads_to (root : string) (names : list string) : Prop :=
  if is_absolute root then resolve (components root) = Some names
  else exists n cwd, asked n /\ hv_current_dir n = Some cwd /\
         resolve (components cwd ++ components root) = Some names.

Lemma reports_absolute path :
  reports (absolute_lexical_path path) (fun place => exists cs,
    place = pathbuf_text (normalize_components cs) /\ Forall good_component cs /\
    forall names, resolve cs = Some names -> leads_to path names).
Proof.
  unfold absolute_lexical_path, leads_to. destruct (is_absolute path).
  - eapply (reports_bind _ _ (fun base => base = [])); [by apply reports_ret|]. intros base.
    apply reports_ret. intros ->. exists (components path). by split_and!; [|apply components_good|].
  - eapply (reports_bind _ _ (fun base => exists n cwd, asked n /\ hv_current_dir n = Some cwd /\
      base = components cwd)).
    + eapply reports_bind; [apply reports_ask|]. intros cwd.
      eapply reports_mono; [apply reports_of_result|]. intros base Hb (n & Hn & Hcwd).
      destruct cwd as [cwd|]; [|done]. cbn in Hb. exists n, cwd. by simplify_eq.
    + intros base. apply reports_ret. intros (n & cwd & Hn & Hcwd & ->).
      exists (components cwd ++ components path). split_and!; [done| |by eauto].
      apply Forall_app. split; apply components_good.
Qed.

(** Some look at the mounts gave these entries. *)
Definition mounts_seen (entries : list MountEntry) : Prop :=
  exists n raw, asked n /\ hv_mountinfo n = Some raw /\ parse_mountinfo raw = Ok entries.

Lemma reports_mount_table : reports read_mount_table mounts_seen.
Proof.
  unfold read_mount_table. eapply reports_bind; [apply reports_ask|]. intros raw.
  eapply reports_mono; [apply reports_of_result|]. intros entries He (n & Hn & Hraw).
  destruct raw as [raw|]; [|done]. by exists n, raw.
Qed.

(** ** The verdicts on metadata *)

Definition owned_by_root (m : Metadata) (mode : Z) : Prop :=
  md_uid m = 0 /\ md_gid m = 0 /\ Z.land (md_mode m) PERMISSION_BITS = mode.

Lemma evaluate_dir_exact m mode :
  evaluate_root_dir_metadata m mode = Ok tt <-> md_type m = FtDir /\ owned_by_root m mode.
Proof.
  unfold evaluate_root_dir_metadata, evaluate_dir_ownership, owned_by_root, is_symlink, is_dir. cbn.
  destruct (md_type m) eqn:Ht; cbn; try (split; [done|by intros [? _]]).
  destruct (Z.eqb_spec (md_uid m) 0), (Z.eqb_spec (md_gid m) 0), (Z.eqb_spec (Z.land (md_mode m) PERMISSION_BITS) mode);
    cbn; tauto || (split; [done|tauto]).
Qed.

Lemma evaluate_file_exact m mode :
  evaluate_regular_file_metadata m mode = Ok tt <->
  md_type m = FtFile /\ owned_by_root m mode /\ md_nlink m = 1.
Proof.
  unfold evaluate_regular_file_metadata, evaluate_file_ownership, owned_by_root, is_symlink, is_file. cbn.
  destruct (md_type m) eqn:Ht; cbn; try (split; [done|by intros [? _]]).
  destruct (Z.eqb_spec (md_uid m) 0), (Z.eqb_spec (md_gid m) 0), (Z.eqb_spec (Z.land (md_mode m) PERMISSION_BITS) mode),
    (Z.eqb_spec (md_nlink m) 1); cbn; tauto || (split; [done|tauto]).
Qed.

(** A directory, or a file, of the layout: absent, or as it has to be. *)
Definition layout_dir (path : string) : Prop :=
  exists n, asked n /\ (hv_symlink_metadata n path = Err LNotFound \/
    exists m, hv_symlink_metadata n path = Ok m /\ md_type m = FtDir /\ owned_by_root m STORE_DIR_MODE).
Definition layout_file (path : string) (mode : Z) : Prop :=
  exists n, asked n /\ (hv_symlink_metadata n path = Err LNotFound \/
    exists m, hv_symlink_metadata n path = Ok m /\
              md_type m = FtFile /\ owned_by_root m mode /\ md_nlink m = 1).

Definition layout_ok (store_root : string) : Prop :=
  (forall d, d ∈ WATCHDOG_SUBDIRS -> layout_dir (join_text store_root d)) /\
  (forall f, f ∈ WATCHDOG_AUTHORITATIVE_FILES -> layout_file (join_text store_root f.1) f.2) /\
  (forall f, f ∈ WATCHDOG_OPTIONAL_FILES -> layout_file (join_text store_root f.1) f.2).

Lemma reports_optional evaluate path mode (P : Prop) :
  (forall n, asked n -> hv_symlink_metadata n path = Err LNotFound -> P) ->
  (forall n m, asked n -> hv_symlink_metadata n path = Ok m -> evaluate m mode = Ok tt -> P) ->
  reports (inspect_optional evaluate path mode) (fun _ => P).
Proof.
  intros Hno Hyes. unfold inspect_optional. eapply reports_bind; [apply reports_ask|].
  intros [m|[]]; [|apply reports_ret; intros (n & Hn & Hm); by apply (Hno n)|apply reports_throw].
  eapply reports_mono; [apply reports_of_result|]. intros [] He (n & Hn & Hm). by apply (Hyes n m).
Qed.

Lemma reports_layout_dir path :
  reports (inspect_optional_dir path STORE_DIR_MODE) (fun _ => layout_dir path).
Proof.
  apply reports_optional; intros n; [intros Hn Hm; exists n; by split; [|left]|].
  intros m Hn Hm He%evaluate_dir_exact. exists n. split; [done|]. right. by eexists.
Qed.

Lemma reports_layout_file path mode :
  reports (inspect_optional_file path mode) (fun _ => layout_file path mode).
Proof.
  apply reports_optional; intros n; [intros Hn Hm; exists n; by split; [|left]|].
  intros m Hn Hm He%evaluate_file_exact. exists n. split; [done|]. right. by eexists.
Qed.

Lemma reports_layout store_root :
  reports (inspect_existing_layout store_root) (fun _ => layout_ok store_root).
Proof.
  unfold inspect_existing_layout.
  eapply reports_bind; [apply (reports_for_each _ _ (fun d => layout_dir (join_text store_root d)));
    intros; apply reports_layout_dir|].
  intros []. eapply reports_bind;
    [apply (reports_for_each _ _ (fun f => layout_file (join_text store_root f.1) f.2));
     intros [f mode] _; apply reports_layout_file|].
  intros []. eapply reports_mono;
    [apply (reports_for_each _ _ (fun f => layout_file (join_text store_root f.1) f.2));
     intros [f mode] _; apply reports_layout_file|].
  intros u Ho Hf Hd. by split_and!.
Qed.

(** ** Domains of their own *)

(** The domain lies on another mount and another device. *)
Definition separate (entries : list MountEntry) (store : MountEntry) (store_dev : Z) (domain : string) : Prop :=
  exists n m containing,
    asked n /\ hv_symlink_metadata n domain = Ok m /\
    containing_mount_unique entries domain = Ok containing /\
    mount_id containing <> mount_id store /\ md_dev m <> store_dev.

Lemma reports_domain entries domain :
  reports (protected_domain_identity entries domain) (fun x => exists n m containing,
    asked n /\ hv_symlink_metadata n domain = Ok m /\
    containing_mount_unique entries domain = Ok containing /\ x = (mount_id containing, md_dev m)).
Proof.
  unfold protected_domain_identity. eapply reports_bind; [apply reports_of_result|]. intros [].
  eapply reports_bind; [apply reports_symlinks|]. intros [].
  eapply reports_bind; [apply reports_ask|]. intros there.
  eapply reports_bind; [by apply (reports_throw_if _ _ (fun _ => True))|]. intros [].
  eapply reports_bind; [apply reports_of_result|]. intros c.
  eapply reports_bind; [apply reports_metadata|]. intros m.
  apply reports_ret. intros (n & Hn & Hm) Hc _ _ _ _. by exists n, m, c.
Qed.

Lemma reports_separate entries store store_dev domain :
  reports ('(domain_mount_id, domain_dev) ← protected_domain_identity entries domain;
           of_result (evaluate_mount_device_separation (mount_id store) store_dev domain_mount_id domain_dev))
    (fun _ => separate entries store store_dev domain).
Proof.
  eapply reports_bind; [apply reports_domain|]. intros [id dev].
  eapply reports_mono; [apply reports_of_result|]. intros [] He (n & m & c & Hn & Hm & Hc & Hx).
  apply fail_if_Ok in He. bool_to_prop. exists n, m, c. split_and!; congruence.
Qed.

(** Everything before the store is written to.  The directory's own entries
    are not listed: the layout's paths are looked at, and no others. *)
Definition sealed (store_root : string) : Prop :=
  leads_to store_root WATCHDOG_NAMES /\
  no_symlink_along (mkPathBuf false []) (components store_root) /\
  exists entries store m n,
    mounts_seen entries /\
    filter (fun e => mount_point e = WATCHDOG_MOUNT_ROOT) entries = [store] /\
    asked n /\ hv_symlink_metadata n store_root = Ok m /\
    md_type m = FtDir /\ owned_by_root m STORE_DIR_MODE /\
    (forall domain, domain ∈ PROTECTED_DOMAIN_PATHS -> separate entries store (md_dev m) domain) /\
    layout_ok store_root.

Lemma find_exact_spec entries path e :
  find_exact_mount_unique entries path = Ok e <->
  filter (fun e => mount_point e = normalize_mount_path path) entries = [e].
Proof. unfold find_exact_mount_unique. destruct (filter _ entries) as [|x [|y l]]; naive_solver. Qed.

Lemma reports_exact_mount store_root entries path :
  reports (match find_exact_mount_unique entries path with
           | Ok entry => mret entry
           | Err UnavailableStore => throw UnavailableStore
           | Err _ =>
               meta ← ask (fun n => hv_symlink_metadata n store_root);
               throw (match meta with
                      | Ok m => if is_dir m then OrdinaryDirectoryFallback else NonRegularComponent
                      | Err _ => UnavailableStore
                      end)
           end : TopoM MountEntry)
    (fun e => find_exact_mount_unique entries path = Ok e).
Proof.
  destruct (find_exact_mount_unique entries path) as [e|e]; [by apply reports_ret|].
  destruct e; try apply reports_throw;
    (eapply reports_bind; [apply reports_ask|]; intros; apply reports_throw).
Qed.

Lemma reports_sealed store_root : reports (inspect_store store_root) (fun _ => sealed store_root).
Proof.
  unfold inspect_store. cbv zeta. eapply reports_bind; [apply reports_of_result|]. intros [].
  eapply reports_bind; [apply reports_symlinks|]. intros [].
  eapply reports_bind; [apply reports_ask|]. intros there.
  eapply reports_bind; [by apply (reports_throw_if _ _ (fun _ => True))|]. intros [].
  eapply reports_bind; [apply reports_absolute|]. intros path.
  eapply reports_bind; [apply reports_mount_table|]. intros entries.
  eapply reports_bind; [apply reports_exact_mount|]. intros store.
  eapply reports_bind; [by apply (reports_throw_if _ _
    (fun _ => path_matches_sealed_mount_root path = true)); intros ?%negb_false_iff|]. intros [].
  eapply reports_bind; [apply reports_metadata|]. intros m.
  eapply reports_bind; [apply reports_of_result|]. intros [].
  eapply reports_bind; [apply (reports_for_each _ _ (separate entries store (md_dev m)));
    intros; apply reports_separate|]. intros [].
  eapply reports_mono; [apply reports_layout|].
  intros [] Hlayout Hsep [Hdir Howned]%evaluate_dir_exact (n & Hn & Hm) Hroot Hstore%find_exact_spec
    Hent (cs & -> & Hgood & Hleads) _ _ Hlinks _.
  apply sealed_root_resolves in Hroot as [Hres Hpoint]; [|done]. rewrite Hpoint in Hstore.
  split_and!; [by apply Hleads|done|]. exists entries, store, m, n. by split_and!.
Qed.
End Reports.

(** ** The probe of writing *)

Section Confined.
Context {C : Type} `{!IoEnv, !HostView}.

Abbreviation TopoM := (M (World C) TopologyError).
Implicit Types (w : World C).

Definition probe_paths (store_root : string) (nanos : Z) : list Path :=
  [path_join (fs_path store_root) [probe_name ".tmp-topology-probe-" nanos];
   path_join (fs_path store_root) [probe_name ".tmp-topology-probe-renamed-" nanos]].

(** Nothing but the files [ps] differs. *)
Definition only_at (ps : list Path) w w' : Prop :=
  w_calls w' = w_calls w /\ fs_dirs (w_fs w') = fs_dirs (w_fs w) /\
  forall p, p ∉ ps -> fs_files (w_fs w') !! p = fs_files (w_fs w) !! p.

(** Started where [R] holds of the files, [m] is confined to the files [ps],
    and [P] holds when it returns. *)
Definition confined {E A} (ps : list Path) (R : FS -> Prop) (m : M (World C) E A) (P : FS -> Prop) : Prop :=
  forall w, R (w_fs w) ->
    wp m (fun o w' => o <> Panic /\ only_at ps w w' /\ forall a, o = Ret a -> P (w_fs w')) w.

Definition anything (fs : FS) : Prop := True.

Lemma only_at_refl ps w : only_at ps w w.
Proof. by split_and!. Qed.

Lemma only_at_trans ps w1 w2 w3 : only_at ps w1 w2 -> only_at ps w2 w3 -> only_at ps w1 w3.
Proof.
  intros (Hc & Hd & Hf) (Hc' & Hd' & Hf'). split_and!; [congruence|congruence|].
  intros p Hp. by rewrite Hf', Hf.
Qed.

Lemma confined_bind {E A B} ps R (m : M (World C) E A) (f : A -> M (World C) E B) P Q :
  confined ps R m P -> (forall a, confined ps P (f a) Q) -> confined ps R (m ≫= f) Q.
Proof.
  intros Hm Hf w HR. rewrite wp_bind. eapply wp_mono; [by apply Hm|].
  intros o w1 (Hp & Ho & HP). destruct o as [a|e|]; [|by split_and!|done].
  eapply wp_mono; [apply (Hf a), (HP a), eq_refl|]. intros o w2 (? & Ho' & ?).
  split_and!; try done. by eapply only_at_trans.
Qed.

Lemma confined_unwritable {A} ps R (m : M (World C) IoError A) P :
  confined ps R m P -> confined ps R (unwritable m) P.
Proof.
  intros Hm w HR. unfold unwritable. rewrite wp_mapping_err. eapply wp_mono; [by apply Hm|].
  intros o w' (? & ? & Hr). destruct o; [|by split_and!|done]. split_and!; try done.
  intros b _. by eapply Hr.
Qed.

Lemma confined_io_call {A} ps (R P : FS -> Prop) (f : FS -> option (A * FS)) :
  (forall fs a fs', R fs -> f fs = Some (a, fs') -> fs_dirs fs' = fs_dirs fs /\
     (forall p, p ∉ ps -> fs_files fs' !! p = fs_files fs !! p) /\ P fs') ->
  confined ps R (io_call f) P.
Proof.
  intros Hf w HR. apply wp_io_call; [|by split_and!]. intros a fs Ha.
  apply (Hf _ _ _ HR) in Ha as (Hd & Hl & HP). by split_and!.
Qed.

(** A call that looks and changes nothing. *)
Lemma confined_look {A} ps (R : FS -> Prop) (f : FS -> option (A * FS)) :
  (forall fs a fs', f fs = Some (a, fs') -> fs' = fs) -> confined ps R (io_call f) R.
Proof. intros Hf. apply confined_io_call. by intros fs a fs' HR ->%Hf. Qed.

Lemma confined_dir_fsync ps R d : confined ps R (dir_fsync d) R.
Proof.
  apply (confined_bind ps R _ _ R); intros; apply confined_unwritable, confined_look; intros fs x fs'.
  - destruct (dir_exists fs d); [|done]. by intros [= _ <-].
  - by intros [= _ <-].
Qed.

Lemma confined_remove ps p (R : FS -> Prop) :
  p ∈ ps -> (forall fs, R fs -> R (mkFS (delete p (fs_files fs)) (fs_dirs fs))) ->
  confined ps R (remove_if_there p) (fun fs => R fs /\ fs_files fs !! p = None).
Proof.
  intros Hp HR. apply confined_io_call. intros fs a fs' Hfs. destruct (dir_exists fs p); [done|].
  intros [= _ <-]. cbn. rewrite lookup_delete_eq. split_and!; auto.
  intros q Hq. rewrite lookup_delete_ne; [done|]. by intros ->.
Qed.

Lemma confined_put {A} ps p (g : FS -> list byte) (f : FS -> option (A * FS)) R :
  p ∈ ps -> (forall fs a fs', f fs = Some (a, fs') -> fs' = put_file p (g fs) fs) ->
  confined ps R (io_call f) anything.
Proof.
  intros Hp Hf. apply confined_io_call. intros fs a fs' _ ->%Hf. split_and!; [done| |done].
  intros q Hq. cbn. rewrite lookup_insert_ne; [done|]. by intros ->.
Qed.

Lemma confined_write_all ps p bs R : p ∈ ps -> confined ps R (write_all p bs) anything.
Proof.
  intros Hp w _.
  assert (Hput : forall bs, only_at ps w (w_set_fs (put_file p bs (w_fs w)) w)).
  { intros bs'. split_and!; [done|done|]. intros q Hq. cbn. rewrite lookup_insert_ne; [done|]. by intros ->. }
  apply wp_write_all; [intros k|..]; split_and!; try done; apply Hput.
Qed.

(** A failed clean-up is confined as well. *)
Lemma confined_cleanup ps parent paths :
  (forall p, p ∈ paths -> p ∈ ps) -> confined ps anything (cleanup_probe_residue parent paths) anything.
Proof.
  intros Hps. apply (confined_bind _ _ _ _ anything); [|intros; apply confined_dir_fsync].
  induction paths as [|p paths IH]; cbn [for_each]; [by intros w _; rewrite wp_ret; split_and!|].
  apply (confined_bind _ _ _ _ anything); [|intros _; apply IH; set_solver].
  apply confined_unwritable. intros w _. eapply wp_mono;
    [apply (confined_remove ps p anything); [apply Hps; left|done|done]|].
  intros o w' (? & ? & _). by split_and!.
Qed.

Definition gone (p : Path) (fs : FS) : Prop := fs_files fs !! p = None.

Lemma confined_write_probe ps root tmp renamed :
  tmp ∈ ps -> renamed ∈ ps -> tmp <> renamed ->
  confined ps anything (write_probe root tmp renamed) (fun fs => gone tmp fs /\ gone renamed fs).
Proof.
  intros Ht Hr Hne. unfold write_probe.
  apply (confined_bind _ _ _ _ anything).
  { apply confined_unwritable, (confined_put _ tmp (fun _ => [])); [done|]. intros fs a fs'.
    destruct (_ && _); [|done]. by intros [= _ <-]. }
  intros _. apply (confined_bind _ _ _ _ anything); [by apply confined_unwritable, confined_write_all|].
  intros _. apply (confined_bind _ _ _ _ anything).
  { apply confined_unwritable, confined_look. by intros fs a fs' [= _ <-]. }
  intros _. apply (confined_bind _ _ _ _ (gone tmp)).
  { apply confined_unwritable, confined_io_call. intros fs a fs' _. unfold rename_file, gone.
    destruct (fs_files fs !! tmp); [|done]. cbn. destruct (can_create fs renamed); [|done]. intros [= _ <-].
    cbn. split_and!; [done| |by rewrite lookup_insert_ne, lookup_delete_eq].
    intros p Hp. rewrite lookup_insert_ne, lookup_delete_ne; [done|..]; by intros ->. }
  intros _. apply (confined_bind _ _ _ _ (gone tmp)); [apply confined_dir_fsync|].
  intros _. apply (confined_bind _ _ _ _ (gone tmp)).
  { apply confined_unwritable, confined_look. intros fs x fs'.
    by destruct (fs_files fs !! renamed); intros [= _ <-]. }
  intros readback. apply (confined_bind _ _ _ _ (gone tmp)).
  { intros w Hw. rewrite wp_throw_if. case_match; by split_and!. }
  intros _. apply (confined_bind _ _ _ _ (fun fs => gone tmp fs /\ gone renamed fs));
    [|intros; apply confined_dir_fsync].
  cbn [for_each]. apply (confined_bind _ _ _ _ (fun fs => gone tmp fs /\ gone renamed fs)).
  - apply confined_unwritable, confined_remove; [done|]. unfold gone. intros fs Hfs. cbn.
    by rewrite lookup_delete_ne.
  - intros _ w Hw. rewrite wp_ret. by split_and!.
Qed.

(** A failure is cleaned up after, within the same files. *)
Lemma confined_guarded ps parent paths m P :
  (forall p, p ∈ paths -> p ∈ ps) -> confined ps anything m P ->
  confined ps anything (guarded parent paths m) P.
Proof.
  intros Hps Hm w HR. unfold guarded. rewrite wp_bind, wp_attempt. eapply wp_mono; [by apply Hm|].
  intros o w1 (Hp & Ho & HP). destruct o as [[]|e|]; [|..|done].
  - rewrite wp_ret. by split_and!.
  - rewrite wp_bind, wp_attempt. eapply wp_mono; [by apply confined_cleanup|].
    intros o w2 (Hp2 & Ho2 & _). pose proof (only_at_trans _ _ _ _ Ho Ho2).
    destruct o; [| |done]; rewrite wp_throw; by split_and!.
Qed.

Lemma decimal_head_not_r fuel n acc :
  exists d s, 0 <= d < 10 /\ decimal_digits (S fuel) n acc = String (digit_char d) s.
Proof.
  revert n acc. induction fuel as [|fuel IH]; intros n acc; cbn [decimal_digits].
  - exists (n mod 10), acc. split; [apply Z.mod_pos_bound; lia|]. by destruct (n <? 10).
  - destruct (n <? 10); [|apply IH]. exists (n mod 10), acc. split; [apply Z.mod_pos_bound; lia|done].
Qed.

Lemma probe_names_differ nanos :
  probe_name ".tmp-topology-probe-" nanos <> probe_name ".tmp-topology-probe-renamed-" nanos.
Proof.
  unfold probe_name, format_decimal. destruct (decimal_head_not_r 39 nanos "") as (d & s & Hd & ->).
  intros Heq. assert (Hcases : In d (map Z.of_nat (seq 0 10))).
  { apply in_map_iff. exists (Z.to_nat d). split; [lia|]. apply in_seq. lia. }
  cbn in Hcases. repeat (destruct Hcases as [<-|Hcases]; [discriminate Heq|]). done.
Qed.

Lemma prove_writable_confined store_root w :
  wp (prove_writable_same_directory_atomic store_root) (fun o w' => o <> Panic /\
    exists nanos, only_at (probe_paths store_root nanos) w w' /\
      forall u, o = Ret u -> forall p, p ∈ probe_paths store_root nanos -> gone p (w_fs w')) w.
Proof.
  unfold prove_writable_same_directory_atomic. rewrite wp_bind. unfold wp at 1, ask. cbn [fst snd].
  set (nanos := default 0 (hv_nanos (w_tick w))).
  eapply wp_mono.
  - apply (confined_guarded (probe_paths store_root nanos)); [done| |done].
    apply confined_write_probe; unfold probe_paths; [left|right; left|].
    intros Heq. apply app_inv_head in Heq. apply (f_equal (hd "")) in Heq.
    by apply probe_names_differ in Heq.
  - intros o w' (Hp & Ho & HP). split; [done|]. exists nanos. split; [exact Ho|].
    intros u Hu p Hin. destruct (HP u Hu) as [H1 H2]. unfold probe_paths in Hin.
    apply elem_of_cons in Hin as [->|Hin]; [done|]. by apply list_elem_of_singleton in Hin as ->.
Qed.

(** The moments from one world to a later one. *)
Definition asked_between w w' (n : nat) : Prop := (w_tick w <= n < w_tick w')%nat.

Lemma inspected_sealed store_root w o w' :
  inspect_store store_root w = (o, w') ->
  o <> Panic /\ w_fs w' = w_fs w /\ w_calls w' = w_calls w /\ (w_tick w <= w_tick w')%nat /\
  (o = Ret tt -> sealed (asked_between w w') store_root).
Proof.
  intros Hrun. pose proof (reports_sealed (C:=C) (asked_between w w') store_root w) as Hs.
  unfold wp in Hs. rewrite Hrun in Hs. destruct Hs as (? & ? & ? & ? & Hs). split_and!; try done.
  by apply Hs.
Qed.

(** C32: A store that passes the startup check is the sealed one.  At moments
    of that check the host said: the configured path - from the working
    directory, if it is relative - is /var/lib/agentbed/watchdog, with no
    symbolic link on the way; exactly one mount is mounted there; the path is
    a directory of root's that nobody else can enter, apart in mount and in
    device from every protected domain; and each directory and file of the
    layout is absent there or of the kind, owner, mode and link count the
    layout gives it - the check looks at those paths only and does not list
    the directory.  Whether the store passes or not, the check changes at most
    its own two probe files, which are gone again when it passes. *)
Theorem verified_store_is_sealed store_root w o w' :
  verify_startup store_root w = (o, w') ->
  o <> Panic /\
  (exists nanos, only_at (probe_paths store_root nanos) w w' /\
     (o = Ret tt -> forall p, p ∈ probe_paths store_root nanos -> gone p (w_fs w'))) /\
  (o = Ret tt -> exists inspected,
     inspect_store store_root w = (Ret tt, inspected) /\
     sealed (asked_between w inspected) store_root).
Proof.
  unfold verify_startup, mbind, M_bind. destruct (inspect_store store_root w) as [o1 w1] eqn:Hins.
  apply inspected_sealed in Hins as Hs. destruct Hs as (Hp & Hfs & Hc & Ht & Hs).
  destruct o1 as [[]|e|]; [| |done].
  - intros Hrun. pose proof (prove_writable_confined store_root w1) as Hw. unfold wp in Hw.
    rewrite Hrun in Hw. cbn [fst snd] in Hw. destruct Hw as (Hp2 & nanos & Ho & Hgone). split_and!; [done| |by eauto].
    exists nanos. split; [|intros ->; by apply (Hgone tt)]. destruct Ho as (H1 & H2 & H3).
    split_and!; [congruence|by rewrite H2, Hfs|]. intros p Hin. by rewrite H3, Hfs.
  - intros [= <- <-]. split_and!; [done| |done]. exists 0. split; [|done].
    split_and!; [done|by rewrite Hfs|by rewrite Hfs].
Qed.
End Confined.

(** ** The mount a path lies on *)

Lemma filter_one {A} (P : A -> Prop) `{forall x, Decision (P x)} l x :
  filter P l = [x] <-> exists l1 l2, l = l1 ++ x :: l2 /\ P x /\ forall y, y ∈ l1 ++ l2 -> ~ P y.
Proof.
  split.
  - induction l as [|y l IH]; [done|]. rewrite filter_cons. case_decide as Hy.
    + intros [= -> Hl]. exists [], l. split_and!; [done|done|]. intros z Hz HP.
      assert (Hin : z ∈ filter P l) by (by apply list_elem_of_filter). by rewrite Hl in Hin; apply not_elem_of_nil in Hin.
    + intros (l1 & l2 & -> & Hx & Hno)%IH. exists (y :: l1), l2. split_and!; [done|done|].
      intros z [->|Hz]%elem_of_cons; [done|by apply Hno].
  - intros (l1 & l2 & -> & Hx & Hno). rewrite filter_app, filter_cons_True by done.
    assert (Hnil : forall k, (forall y, y ∈ k -> ~ P y) -> filter P k = []).
    { induction k as [|y k IH]; intros Hk; [done|]. rewrite filter_cons_False by (apply Hk; left).
      apply IH. intros z Hz. apply Hk. by right. }
    rewrite !Hnil; [done|..]; intros y Hy; apply Hno, elem_of_app; auto.
Qed.

Lemma max_list_le ns n : n ∈ ns -> (n <= max_list ns)%nat.
Proof. induction ns as [|m ns IH]; [by intros ?%not_elem_of_nil|].
  change (max_list (m :: ns)) with (Nat.max m (max_list ns)). intros [->|Hn%IH]%elem_of_cons; lia. Qed.

Lemma max_list_in ns : ns <> [] -> max_list ns ∈ ns.
Proof.
  induction ns as [|m ns IH]; [done|]. intros _.
  change (max_list (m :: ns)) with (Nat.max m (max_list ns)). destruct (decide (ns = [])) as [->|Hns].
  - cbn. rewrite Nat.max_0_r. left.
  - destruct (Nat.max_spec m (max_list ns)) as [[_ ->]|[_ ->]]; [right; by apply IH|left].
Qed.

(** The mount a protected domain is taken to lie on is found exactly when
    one entry contains the path and is longer than every other entry that
    does; of two equally long ones neither is chosen. *)
Theorem containing_mount_exact entries path e :
  containing_mount_unique entries path = Ok e <->
  exists l1 l2, entries = l1 ++ e :: l2 /\ mount_point_contains (mount_point e) path = true /\
    forall e', e' ∈ l1 ++ l2 -> mount_point_contains (mount_point e') path = true ->
               (String.length (mount_point e') < String.length (mount_point e))%nat.
Proof.
  unfold containing_mount_unique. set (Q := fun e => mount_point_contains (mount_point e) path = true).
  set (candidates := filter _ entries). set (lens := map _ candidates).
  assert (Hlen : forall e', e' ∈ entries -> Q e' -> (String.length (mount_point e') <= max_list lens)%nat).
  { intros e' Hin HQ. apply max_list_le, list_elem_of_fmap. exists e'. split; [done|].
    by apply list_elem_of_filter. }
  split.
  - case_bool_decide as Hnil; [done|]. destruct (filter _ candidates) as [|x [|y l]] eqn:Hf; try done.
    intros [= ->]. unfold candidates in Hf. rewrite list_filter_filter in Hf.
    apply filter_one in Hf as (l1 & l2 & Heq & [Hl HQ] & Hno). exists l1, l2. split_and!; [done|done|].
    intros e' Hin HQ'. rewrite Hl. specialize (Hno e' Hin).
    assert (Hin' : e' ∈ entries) by (rewrite Heq; set_solver). specialize (Hlen _ Hin' HQ').
    destruct (decide (String.length (mount_point e') = max_list lens)); [exfalso; by apply Hno|lia].
  - intros (l1 & l2 & Heq & HQ & Hlt).
    assert (Hin : e ∈ candidates) by (apply list_elem_of_filter; split; [done|rewrite Heq; set_solver]).
    rewrite bool_decide_eq_false_2 by (intros Hnil; rewrite Hnil in Hin; by apply not_elem_of_nil in Hin).
    assert (Hmax : String.length (mount_point e) = max_list lens).
    { apply Nat.le_antisymm; [apply Hlen; [rewrite Heq; set_solver|done]|].
      assert (Hml : max_list lens ∈ lens).
      { apply max_list_in. unfold lens. destruct candidates; [by apply not_elem_of_nil in Hin|done]. }
      apply list_elem_of_fmap in Hml as (x & -> & [HQx Hx]%list_elem_of_filter).
      rewrite Heq in Hx. apply elem_of_app in Hx as [Hx|[->|Hx]%elem_of_cons]; [|done|].
      all: apply Nat.lt_le_incl, Hlt; [set_solver|done]. }
    assert (Hone : filter (fun e => String.length (mount_point e) = max_list lens) candidates = [e]).
    { unfold candidates. rewrite list_filter_filter. apply filter_one. exists l1, l2.
      split_and!; [done|done|done|]. intros y Hy [Hl HQy]. specialize (Hlt y Hy HQy). lia. }
    by rewrite Hone.
Qed.

(** ** A host whose store passes *)

Definition demo_dir (dev : Z) : Metadata := mkMetadata 0 0 (16384 + STORE_DIR_MODE) 2 dev FtDir.
Definition demo_line (id point : string) : string :=
  id +:+ " 0 8:1 / " +:+ point +:+ " rw - ext4 /dev/sda rw" +:+ String LF "".

Definition demo_host : HostView := {|
  hv_symlink_metadata _ path :=
    if decide (path = WATCHDOG_MOUNT_ROOT) then Ok (demo_dir 2)
    else if str_starts_with path WATCHDOG_MOUNT_ROOT then Err LNotFound else Ok (demo_dir 1);
  hv_exists _ _ := true;
  hv_mountinfo _ := Some (demo_line "1" "/" +:+ demo_line "2" WATCHDOG_MOUNT_ROOT);
  hv_current_dir _ := Some "/";
  hv_nanos _ := Some 1;
|}.

Definition demo_disk : World unit :=
  mkWorld (mkFS ∅ {[ ["var"; "lib"; "agentbed"; "watchdog"] ]}) 0 [].

Lemma sealed_store_passes :
  let '(o, w') := @verify_startup unit reliable_io demo_host WATCHDOG_MOUNT_ROOT demo_disk in
  o = Ret tt /\ w_fs w' = w_fs demo_disk.
Proof. vm_compute. auto. Qed.

(** The theorem on that run: the store is the sealed one. *)
Lemma verified_store_is_sealed_witness :
  exists w', @verify_startup unit reliable_io demo_host WATCHDOG_MOUNT_ROOT demo_disk = (Ret tt, w') /\
    exists inspected, @sealed demo_host (asked_between demo_disk inspected) WATCHDOG_MOUNT_ROOT.
Proof.
  destruct (@verify_startup unit reliable_io demo_host WATCHDOG_MOUNT_ROOT demo_disk) as [o w'] eqn:Hrun.
  assert (Ho : o = Ret tt).
  { change o with (fst (o, w')). rewrite <-Hrun. vm_compute. reflexivity. }
  rewrite Ho in *. exists w'. split; [reflexivity|].
  pose proof (verified_store_is_sealed _ _ _ _ Hrun) as (_ & _ & Hs).
  destruct (Hs eq_refl) as (inspected & _ & Hsealed). exists inspected. exact Hsealed.
Defined.

(** An ordinary directory elsewhere is refused. *)
Lemma elsewhere_refused :
  fst (@verify_startup unit reliable_io demo_host "/srv/data" demo_disk) =
    Throw OrdinaryDirectoryFallback.
Proof. vm_compute. reflexivity. Qed.

(** On the root's own device the same store is refused. *)
Lemma shared_device_refused :
  fst (@verify_startup unit reliable_io
         {| hv_symlink_metadata _ _ := Ok (demo_dir 1); hv_exists _ _ := true;
            hv_mountinfo _ := Some (demo_line "1" "/" +:+ demo_line "2" WATCHDOG_MOUNT_ROOT);
            hv_current_dir _ := Some "/"; hv_nanos _ := Some 1 |}
         WATCHDOG_MOUNT_ROOT demo_disk) = Throw SameDeviceAlias.
Proof. vm_compute. reflexivity. Qed.
