(* ===== verification/WdMountTable.v ===== *)
(** * Watchdog: the mount table is read as the kernel writes it

    A line of [/proc/self/mountinfo], rendered as the kernel does, and that the
    reader of [WdTopology] gives back its mount: words, escapes, lines. *)

From S2P Require Import Prelude RustStd TxNames JcsFacts WdTypes RustText WdTopology.

(** ** What the kernel writes *)

(** The four bytes the kernel escapes in a mount point. *)
Definition escape_char (c : Ascii.ascii) : string :=
  if ch c =? 32 then "\040" else if ch c =? 9 then "\011"
  else if ch c =? 10 then "\012" else if ch c =? 92 then "\134"
  else String c "".

Fixpoint escape (s : string) : string :=
  match s with
  | EmptyString => ""
  | String c s => escape_char c +:+ escape s
  end.

Record KernelMount := mkKernelMount {
  km_id : Z;
  km_parent : Z;
  km_major : Z;
  km_minor : Z;
  km_root : string;
  km_point : string;
  km_options : list string;
  km_rest : string;
}.

Definition km_words (m : KernelMount) : list string :=
  [format_decimal (km_id m); format_decimal (km_parent m);
   format_decimal (km_major m) +:+ ":" +:+ format_decimal (km_minor m);
   km_root m; escape (km_point m)] ++ km_options m.

Definition kernel_line (m : KernelMount) : string :=
  String.concat " " (km_words m ++ ["-"; km_rest m]).

Definition kernel_table (ms : list KernelMount) : string :=
  String.concat "" (map (fun m => kernel_line m +:+ String LF "") ms).

(** A character that is printed as it is, and words of them. *)
Definition printed (c : Ascii.ascii) : bool := (33 <=? ch c) && (ch c <=? 126).
Definition all_chars (P : Ascii.ascii -> bool) (s : string) : bool :=
  forallb P (String.list_ascii_of_string s).
Definition word (s : string) : Prop := s <> "" /\ s <> "-" /\ all_chars printed s = true.

(** A character of a mount point the kernel can tell us: ASCII, and no
    control character but the two it escapes. *)
Definition tellable (c : Ascii.ascii) : bool :=
  (ch c =? 9) || (ch c =? 10) || ((32 <=? ch c) && (ch c <=? 126)).

Record well_formed (m : KernelMount) : Prop := {
  wf_id : is_u32 (km_id m);
  wf_parent : is_u32 (km_parent m);
  wf_major : is_u32 (km_major m);
  wf_minor : is_u32 (km_minor m);
  wf_root : word (km_root m);
  wf_point : exists p, km_point m = "/" +:+ p;
  wf_tellable : all_chars tellable (km_point m) = true;
  wf_options : Forall word (km_options m);
  wf_rest : all_chars (fun c => (32 <=? ch c) && (ch c <=? 126)) (km_rest m) = true;
}.

(** ** Texts *)

Lemma all_chars_app P a b : all_chars P (a +:+ b) = all_chars P a && all_chars P b.
Proof.
  unfold all_chars. induction a as [|c a IH]; [done|].
  change (String c a +:+ b) with (String c (a +:+ b)). cbn. by rewrite IH, andb_assoc.
Qed.

Lemma bytes_of_cons c s : bytes_of_string (String c s) = byte_of (ch c) :: bytes_of_string s.
Proof. done. Qed.

Lemma bytes_of_app a b : bytes_of_string (a +:+ b) = bytes_of_string a ++ bytes_of_string b.
Proof. induction a as [|c a IH]; [done|]. exact (f_equal (cons _) IH). Qed.

Lemma char_range c : 0 <= ch c < 256.
Proof. destruct c as [[] [] [] [] [] [] [] []]; vm_compute; split; discriminate || reflexivity. Qed.

Lemma byte_val_char c : byte_val (byte_of (ch c)) = ch c.
Proof. rewrite byte_val_of. apply Z.mod_small, char_range. Qed.

Lemma string_of_bytes_of s : string_of_bytes (bytes_of_string s) = s.
Proof.
  induction s as [|c s IH]; [done|]. rewrite bytes_of_cons.
  change (string_of_bytes (byte_of (ch c) :: bytes_of_string s)) with
    (String (Ascii.ascii_of_nat (Z.to_nat (byte_val (byte_of (ch c))))) (string_of_bytes (bytes_of_string s))).
  rewrite IH, byte_val_char. unfold ch. by rewrite Nat2Z.id, Ascii.ascii_nat_embedding.
Qed.

Lemma strip_prefix_app p s : strip_prefix_string p (p +:+ s) = Some s.
Proof.
  induction p as [|c p IH]; [done|]. change (String c p +:+ s) with (String c (p +:+ s)).
  cbn. by rewrite decide_True.
Qed.

(** ** Escapes *)

Lemma unescape_plain b bs : b <> BACKSLASH_BYTE ->
  unescape_bytes (b :: bs) = (out ← unescape_bytes bs; Ok (push_byte b ++ out)).
Proof. intros Hb. cbn [unescape_bytes]. by rewrite bool_decide_eq_false_2. Qed.

Lemma char_of_code c (n : nat) : ch c = Z.of_nat n -> c = Ascii.ascii_of_nat n.
Proof. unfold ch. intros Hc. apply Nat2Z.inj in Hc. by rewrite <-Hc, Ascii.ascii_nat_embedding. Qed.

Lemma unescape_escape_char c bs out :
  tellable c = true -> unescape_bytes bs = Ok out ->
  unescape_bytes (bytes_of_string (escape_char c) ++ bs) = Ok (byte_of (ch c) :: out).
Proof.
  intros Hc Hbs. unfold escape_char.
  destruct (ch c =? 32) eqn:H32; [|destruct (ch c =? 9) eqn:H9; [|destruct (ch c =? 10) eqn:H10;
    [|destruct (ch c =? 92) eqn:H92]]]; bool_to_prop.
  - rewrite H32. change (bytes_of_string "\040") with (map byte_of [92; 48; 52; 48]). cbn. by rewrite Hbs.
  - rewrite H9. change (bytes_of_string "\011") with (map byte_of [92; 48; 49; 49]). cbn. by rewrite Hbs.
  - rewrite H10. change (bytes_of_string "\012") with (map byte_of [92; 48; 49; 50]). cbn. by rewrite Hbs.
  - rewrite H92. change (bytes_of_string "\134") with (map byte_of [92; 49; 51; 52]). cbn. by rewrite Hbs.
  - rewrite bytes_of_cons. change (bytes_of_string "") with (@nil byte). cbn [app].
    rewrite unescape_plain.
    + rewrite Hbs. unfold push_byte. rewrite byte_val_char. unfold tellable in Hc.
      rewrite (proj2 (Z.leb_le _ _)); [done|]. rewrite !orb_true_iff, andb_true_iff, !Z.eqb_eq, !Z.leb_le in Hc.
      lia.
    + intros Heq. apply (f_equal byte_val) in Heq. rewrite byte_val_char in Heq. by vm_compute in Heq.
Qed.

Lemma unescape_escape s :
  all_chars tellable s = true -> unescape_bytes (bytes_of_string (escape s)) = Ok (bytes_of_string s).
Proof.
  unfold all_chars. induction s as [|c s IH]; [done|].
  cbn [forallb String.list_ascii_of_string escape]. intros [Hc Hs]%andb_true_iff.
  rewrite bytes_of_app. by apply unescape_escape_char, IH.
Qed.

Lemma mount_path_round_trip s :
  all_chars tellable s = true -> unescape_mount_path (escape s) = Ok s.
Proof.
  intros Hs. unfold unescape_mount_path. rewrite unescape_escape by done. cbn.
  by rewrite string_of_bytes_of.
Qed.

(** What is escaped is a word. *)
Lemma escape_printed s : all_chars tellable s = true -> all_chars printed (escape s) = true.
Proof.
  induction s as [|c s IH]; [done|]. unfold all_chars at 1.
  cbn [forallb String.list_ascii_of_string escape]. intros [Hc Hs]%andb_true_iff.
  rewrite all_chars_app, IH by done. rewrite andb_true_r. unfold escape_char.
  repeat case_match; try reflexivity. unfold all_chars. cbn. unfold printed, tellable in *.
  rewrite !orb_true_iff, !andb_true_iff, !Z.eqb_eq, !Z.leb_le in Hc. bool_to_prop.
  rewrite andb_true_r, andb_true_iff, !Z.leb_le. lia.
Qed.

(** ** Separators *)

Lemma strip_space_not c s : printed c = true -> strip_prefix_string " - " (String c s) = None.
Proof.
  intros Hc. change " - " with (String (Ascii.ascii_of_nat 32) "- "). cbn [strip_prefix_string].
  rewrite decide_False; [done|]. intros <-. by vm_compute in Hc.
Qed.

Lemma split_skip_word w s :
  all_chars printed w = true ->
  split_once_str " - " (w +:+ s) = ('(a, b) ← split_once_str " - " s; Some (w +:+ a, b)).
Proof.
  unfold all_chars. induction w as [|c w IH]; intros Hw.
  - change ("" +:+ s) with s. destruct (split_once_str " - " s) as [[a b]|]; done.
  - cbn in Hw. apply andb_true_iff in Hw as [Hc Hw]. rewrite append_cons. cbn [split_once_str].
    rewrite strip_space_not by done. rewrite (IH Hw).
    by destruct (split_once_str " - " s) as [[a b]|].
Qed.

Lemma word_not_dash w s : word w -> strip_prefix_string "- " (w +:+ " " +:+ s) = None.
Proof.
  intros (Hne & Hdash & Hw). destruct w as [|c w]; [done|]. rewrite append_cons.
  change "- " with (String (Ascii.ascii_of_nat 45) " "). cbn [strip_prefix_string].
  case_decide as Hc; [|done]. destruct w as [|d w]; [by subst|].
  unfold all_chars in Hw. cbn in Hw. apply andb_true_iff in Hw as [_ [Hd _]%andb_true_iff].
  rewrite append_cons. change " " with (String (Ascii.ascii_of_nat 32) "") at 1. cbn [strip_prefix_string].
  rewrite decide_False; [done|]. intros <-. by vm_compute in Hd.
Qed.

Lemma concat_words w w' ws :
  String.concat " " (w :: w' :: ws) = w +:+ " " +:+ String.concat " " (w' :: ws).
Proof. reflexivity. Qed.

Lemma split_space s :
  strip_prefix_string "- " s = None ->
  split_once_str " - " (" " +:+ s) = ('(a, b) ← split_once_str " - " s; Some (" " +:+ a, b)).
Proof.
  intros Hs. change (" " +:+ s) with (String (Ascii.ascii_of_nat 32) s). cbn [split_once_str].
  change (strip_prefix_string " - " (String (Ascii.ascii_of_nat 32) s)) with (strip_prefix_string "- " s).
  by rewrite Hs.
Qed.

(** The separator of a line is found after its words. *)
Lemma split_at_dash ws rest :
  Forall word ws -> ws <> [] ->
  split_once_str " - " (String.concat " " (ws ++ ["-"; rest])) = Some (String.concat " " ws, rest).
Proof.
  induction 1 as [|w ws Hw Hws IH]; [done|]. intros _. destruct ws as [|w' ws].
  - cbn [app]. rewrite !concat_words, split_skip_word by apply Hw.
    change (" " +:+ "-" +:+ " " +:+ String.concat " " [rest]) with (" - " +:+ rest).
    assert (Hd : split_once_str " - " (" - " +:+ rest) = Some ("", rest)).
    { change (" - " +:+ rest) with (String (Ascii.ascii_of_nat 32) ("- " +:+ rest)).
      cbn [split_once_str]. change (String (Ascii.ascii_of_nat 32) ("- " +:+ rest)) with (" - " +:+ rest).
      by rewrite strip_prefix_app. }
    rewrite Hd. cbn [mbind option_bind]. by rewrite append_empty_r.
  - specialize (IH ltac:(done)). change ((w :: w' :: ws) ++ ["-"; rest]) with (w :: w' :: (ws ++ ["-"; rest])).
    rewrite concat_words, split_skip_word by apply Hw. change (w' :: ws ++ ["-"; rest]) with ((w' :: ws) ++ ["-"; rest]).
    rewrite split_space, IH; [done|]. apply Forall_cons_1 in Hws as [Hw' _].
    destruct ws as [|w'' ws]; apply word_not_dash, Hw'.
Qed.

Lemma strip_one_none ps b bs :
  Forall (fun p => match p with z :: _ => byte_val b <> z | [] => False end) ps ->
  strip_one ps (b :: bs) = None.
Proof.
  induction 1 as [|p ps Hp _ IH]; [done|]. cbn. destruct p as [|z p]; [done|]. cbn.
  by rewrite (proj2 (Z.eqb_neq _ _) Hp).
Qed.

Lemma printed_not_blank c bs : printed c = true -> strip_one blanks (byte_of (ch c) :: bs) = None.
Proof.
  unfold printed. rewrite andb_true_iff, !Z.leb_le. intros Hc. apply strip_one_none.
  rewrite byte_val_char. unfold blanks. repeat constructor; lia.
Qed.

Lemma split_blanks_word w k piece bs :
  all_chars printed w = true ->
  split_blanks (String.length w + S k) piece (bytes_of_string w ++ bs) =
  split_blanks (S k) (piece ++ bytes_of_string w) bs.
Proof.
  unfold all_chars. revert piece. induction w as [|c w IH]; intros piece Hw.
  { change (bytes_of_string "") with (@nil byte). by rewrite app_nil_r. }
  cbn in Hw. apply andb_true_iff in Hw as [Hc Hw]. rewrite bytes_of_cons.
  cbn [String.length Nat.add app split_blanks]. rewrite printed_not_blank by done.
  rewrite IH by done. by rewrite <-app_assoc.
Qed.

Lemma emit_word w : word w -> emit (bytes_of_string w) = [w].
Proof.
  intros (Hne & _). unfold emit. destruct w as [|c w]; [done|]. rewrite bytes_of_cons.
  by rewrite <-bytes_of_cons, string_of_bytes_of.
Qed.

Lemma length_bytes_of s : length (bytes_of_string s) = String.length s.
Proof. induction s as [|c s IH]; [done|]. rewrite bytes_of_cons. cbn. by rewrite IH. Qed.

Lemma split_words ws : Forall word ws -> split_whitespace (String.concat " " ws) = ws.
Proof.
  unfold split_whitespace. induction 1 as [|w ws Hw Hws IH]; [done|]. destruct ws as [|w' ws].
  - cbn [String.concat]. rewrite length_bytes_of, <-(app_nil_r (bytes_of_string w)).
    replace (S (String.length w)) with (String.length w + 1)%nat by lia.
    rewrite split_blanks_word by apply Hw. change (split_blanks 1 ?p []) with (emit p). cbn [app].
    by apply emit_word.
  - rewrite concat_words, !bytes_of_app. change (bytes_of_string " ") with [byte_of 32]. cbn [app].
    set (rest := bytes_of_string _) in *.
    replace (S (length _)) with (String.length w + S (S (length rest)))%nat
      by (rewrite length_app, length_bytes_of; cbn; lia).
    rewrite split_blanks_word by apply Hw. cbn [app].
    change (split_blanks (S (S (length rest))) ?p (byte_of 32 :: rest)) with
      (emit p ++ split_blanks (S (length rest)) [] rest).
    rewrite IH, emit_word by done. done.
Qed.

(** ** Numbers *)

Lemma all_chars_impl (P Q : Ascii.ascii -> bool) s :
  (forall c, P c = true -> Q c = true) -> all_chars P s = true -> all_chars Q s = true.
Proof. unfold all_chars. rewrite !forallb_forall. auto. Qed.

Lemma decimal_chars n : 0 <= n -> all_chars number_char (format_decimal n) = true.
Proof. intros Hn. by apply decimal_digits_chars. Qed.

Lemma number_char_range c : number_char c = true -> 45 <= ch c <= 57.
Proof. destruct c as [[] [] [] [] [] [] [] []]; vm_compute; try discriminate; split; discriminate. Qed.

Lemma number_char_printed c : number_char c = true -> printed c = true.
Proof. intros Hc%number_char_range. unfold printed. rewrite andb_true_iff, !Z.leb_le. lia. Qed.

Lemma decimal_word n : 0 <= n -> word (format_decimal n).
Proof.
  intros Hn. split_and!; [by apply format_nonempty| |].
  - rewrite <-(append_empty_r "-"). by apply decimal_not_minus.
  - eapply all_chars_impl; [apply number_char_printed|by apply decimal_chars].
Qed.

Lemma parse_u32_format n : is_u32 n -> parse_u32 (format_decimal n) = Some n.
Proof.
  unfold is_u32, u32_max. intros Hn. unfold parse_u32. rewrite parse_format.
  - cbn [mbind option_bind]. rewrite (proj2 (Z.leb_le _ _)); [done|]. unfold u32_max. lia.
  - unfold is_u64, u64_max. lia.
Qed.

Lemma split_at_colon a b :
  all_chars number_char a = true -> split_once_str ":" (a +:+ ":" +:+ b) = Some (a, b).
Proof.
  unfold all_chars. induction a as [|c a IH]; intros Ha.
  - change ("" +:+ ":" +:+ b) with (String (Ascii.ascii_of_nat 58) b). reflexivity.
  - cbn in Ha. apply andb_true_iff in Ha as [Hc Ha]. rewrite append_cons. cbn [split_once_str].
    change ":" with (String (Ascii.ascii_of_nat 58) "") at 1. cbn [strip_prefix_string].
    rewrite decide_False; [by rewrite IH|]. intros <-. by vm_compute in Hc.
Qed.

Lemma parse_device a b :
  is_u32 a -> is_u32 b -> parse_major_minor (format_decimal a +:+ ":" +:+ format_decimal b) = Ok tt.
Proof.
  intros Ha Hb. unfold parse_major_minor. rewrite split_at_colon by (apply decimal_chars, Ha). cbn [ok_or].
  rewrite bind_Ok, !parse_u32_format by done. reflexivity.
Qed.

Lemma device_word a b : 0 <= a -> 0 <= b -> word (format_decimal a +:+ ":" +:+ format_decimal b).
Proof.
  intros Ha Hb. destruct (decimal_word a Ha) as (Hne & _ & Hca), (decimal_word b Hb) as (_ & _ & Hcb).
  destruct (format_decimal a) as [|c s] eqn:Ea; [done|]. rewrite append_cons. split_and!; [done| |].
  - intros [= _ Heq]. destruct s; discriminate Heq.
  - rewrite <-append_cons, all_chars_app, Hca. change (all_chars printed (":" +:+ format_decimal b)) with
      (all_chars printed (format_decimal b)). by rewrite Hcb.
Qed.

(** ** Lines *)

Lemma km_words_ok m : well_formed m -> Forall word (km_words m).
Proof.
  intros [Hid Hpar Hmaj Hmin Hroot [p Hp] Htell Hopt _]. unfold is_u32 in *. unfold km_words.
  apply Forall_app. split; [|done].
  assert (Hpoint : word (escape (km_point m))).
  { split_and!; [..|by apply escape_printed]; rewrite Hp;
      change (escape ("/" +:+ p)) with ("/" +:+ escape p); done. }
  repeat constructor; apply decimal_word || apply device_word || apply Hroot || apply Hpoint; apply Hid || lia.
Qed.

(** Take the next fields. *)
Ltac fields := repeat first [rewrite bind_Ok | progress cbn [next_field ok_or]].

Lemma kernel_line_parses m :
  well_formed m -> parse_mountinfo_line (kernel_line m) = Ok (mkMount (km_id m) (km_point m)).
Proof.
  intros Hm. pose proof (km_words_ok m Hm) as Hw. destruct Hm as [Hid _ Hmaj Hmin _ [p Hp] Htell _ _].
  unfold parse_mountinfo_line, kernel_line. rewrite split_at_dash by done. cbn [ok_or].
  rewrite bind_Ok, split_words by done. unfold km_words. cbn [app].
  fields. rewrite parse_u32_format by done. fields. rewrite parse_device by done. fields.
  rewrite mount_path_round_trip by done. fields. rewrite Hp.
  unfold str_starts_with. rewrite strip_prefix_app. reflexivity.
Qed.

(** Characters of a line: no control character. *)
Definition in_line (c : Ascii.ascii) : bool := (32 <=? ch c) && (ch c <=? 126).

Lemma printed_in_line c : printed c = true -> in_line c = true.
Proof. unfold printed, in_line. rewrite !andb_true_iff, !Z.leb_le. lia. Qed.

Lemma kernel_line_chars m : well_formed m -> all_chars in_line (kernel_line m) = true.
Proof.
  intros Hm. unfold kernel_line.
  assert (Hall : Forall (fun w => all_chars in_line w = true) (km_words m ++ ["-"; km_rest m])).
  { apply Forall_app. split; [|by repeat constructor; apply Hm].
    eapply Forall_impl; [by apply km_words_ok|]. intros w (_ & _ & Hw).
    eapply all_chars_impl; [apply printed_in_line|done]. }
  induction Hall as [|w ws Hw Hws IH]; [done|]. destruct ws as [|w' ws]; [done|].
  rewrite concat_words, !all_chars_app, Hw, IH. done.
Qed.

Lemma split_line s first rest rest' :
  all_chars in_line s = true -> split_lines rest' = (first, rest) ->
  split_lines (s +:+ String LF rest') = (s, first :: rest).
Proof.
  unfold all_chars. intros Hs Hr. induction s as [|c s IH].
  - change ("" +:+ String LF rest') with (String LF rest'). cbn [split_lines]. rewrite Hr.
    by rewrite decide_True.
  - cbn in Hs. apply andb_true_iff in Hs as [Hc Hs]. rewrite append_cons. cbn [split_lines].
    rewrite IH by done. rewrite decide_False; [done|]. intros ->. by vm_compute in Hc.
Qed.

Lemma strip_cr_line s : all_chars in_line s = true -> strip_cr s = s.
Proof.
  unfold all_chars. induction s as [|c s IH]; [done|]. cbn [forallb String.list_ascii_of_string].
  intros [Hc Hs]%andb_true_iff. destruct s as [|d s].
  - cbn. rewrite decide_False; [done|]. intros ->. by vm_compute in Hc.
  - change (strip_cr (String c (String d s))) with (String c (strip_cr (String d s))). by rewrite IH.
Qed.

Lemma table_lines ls :
  Forall (fun l => all_chars in_line l = true) ls ->
  lines (String.concat "" (map (fun l => l +:+ String LF "") ls)) = ls.
Proof.
  intros Hls. unfold lines.
  assert (Hsplit : exists first rest,
    split_lines (String.concat "" (map (fun l => l +:+ String LF "") ls)) = (first, rest) /\
    finish_lines first rest = ls).
  { induction Hls as [|l ls Hl _ (first & rest & Hs & Hf)]; [by exists "", []|].
    exists l, (first :: rest). cbn [map]. rewrite concat_cons, append_assoc.
    change (String LF "" +:+ ?x) with (String LF x). split; [by apply split_line|].
    cbn [finish_lines]. by rewrite strip_cr_line, Hf. }
  destruct Hsplit as (first & rest & -> & Hf). exact Hf.
Qed.

(** The mount table is read as the kernel writes it: from the lines of
    any mounts whose points are ASCII without control characters other than
    tab and line feed, whatever the escapes, the options, the optional fields
    and what follows the separator, the reader gets their identities and mount
    points, in order. *)
Theorem mount_table_round_trip ms :
  Forall well_formed ms ->
  parse_mountinfo (kernel_table ms) = Ok (map (fun m => mkMount (km_id m) (km_point m)) ms).
Proof.
  intros Hms. unfold parse_mountinfo, kernel_table.
  rewrite <-(map_map kernel_line (fun l => l +:+ String LF "")), table_lines.
  2: { apply Forall_map. eapply Forall_impl; [done|apply kernel_line_chars]. }
  induction Hms as [|m ms Hm _ IH]; [done|]. cbn [map parse_lines_from].
  rewrite decide_False.
  - rewrite kernel_line_parses, bind_Ok by done. rewrite IH. done.
  - intros Hempty. pose proof (kernel_line_parses m Hm) as Hp. by rewrite Hempty in Hp.
Qed.

Definition demo_mount : KernelMount :=
  mkKernelMount 36 35 253 0 "/" "/var/lib/agentbed/watch dog" ["rw,relatime"; "shared:1"]
    "ext4 /dev/sda1 rw".

Lemma demo_mount_ok : well_formed demo_mount.
Proof.
  split; try (cbn; unfold is_u32, u32_max; lia); try (vm_compute; reflexivity).
  - by split_and!.
  - exists "var/lib/agentbed/watch dog". reflexivity.
  - by repeat constructor.
Qed.

Lemma mount_table_round_trip_witness :
  parse_mountinfo (kernel_table [demo_mount]) = Ok [mkMount 36 "/var/lib/agentbed/watch dog"].
Proof. apply (mount_table_round_trip [demo_mount]), Forall_singleton, demo_mount_ok. Defined.

(** A byte above 127 is not read back: it becomes the character of its number. *)
Lemma non_ascii_mount_point_changed :
  unescape_mount_path (string_of_bytes (map byte_of [47; 195; 169])) =
  Ok (string_of_bytes (map byte_of [47; 195; 131; 194; 169])).
Proof. vm_compute. reflexivity. Qed.
