(* ===== verification/WdSealed.v ===== *)
(** * The watchdog starts on a sealed store only

    [WdCore] takes the verdict on the store from the interface
    [Dependencies], as [core.rs] takes it from [TopologyProbe];
    [WdTopology] is the probe that topology.rs implements it with.  The class
    [ProductionTopology] says that it is there, and composes the two. *)

From S2P Require Import Prelude RustStd WdTypes WdLog WdProtocol WdCore WdCoreFacts WdDemo.
From S2P Require Import RustText WdTopology WdTopologyTheorems.

(** A probe's outcome as the [Result] it returns. *)
Definition verdict_of (o : outcome TopologyError unit) : option (result TopologyError unit) :=
  match o with
  | Ret _ => Some (Ok tt)
  | Throw e => Some (Err e)
  | Panic => None
  end.

(** What the watchdog is told of its store at a moment is what the probe says
    when it is started at that moment. *)
Class ProductionTopology `{!Dependencies, !IoEnv, !HostView} (root : string) : Prop :=
  production_verdict n : exists w : World unit, w_tick w = n /\
    verdict_of (fst (verify_startup root w)) = Some (topology_verify_startup n (fs_path root)).

(** The probe, started at [n], found the store sealed: [sealed] of what the
    host said from then until it was done. *)
Definition found_sealed `{!IoEnv, !HostView} (root : string) (n : nat) : Prop :=
  exists w w' : World unit, w_tick w = n /\ inspect_store root w = (Ret tt, w') /\
    sealed (asked_between w w') root.

Section Sealed.
Context `{!RecordCodec, !Dependencies, !IoEnv, !HostView}.

Lemma verdict_sealed root `{!ProductionTopology root} n :
  topology_verify_startup n (fs_path root) = Ok tt -> found_sealed root n.
Proof.
  intros Hok. destruct (production_verdict (root := root) n) as (w & Hn & Hw).
  rewrite Hok in Hw. unfold verify_startup, mbind, M_bind in Hw.
  destruct (inspect_store root w) as [o w1] eqn:Hins.
  apply inspected_sealed in Hins as Hs. destruct Hs as (_ & _ & _ & _ & Hs).
  destruct o as [[]|e|]; [|done|done]. exists w, w1. split_and!; [done|done|by apply Hs].
Qed.

(** How a startup ends, by the verdict it is told: the second thing it asks. *)
Lemma wp_startup_verdict config is_reopen w
    (Q : outcome WatchdogError WatchdogCore -> WdWorld -> Prop) :
  let verdict := topology_verify_startup (S (w_tick w)) (cfg_store_root config) in
  (verdict = Ok tt -> forall o w', Q o w') ->
  (forall w', w_fs w' = w_fs w -> Q (Throw WSafeModeActive) w') ->
  (forall e w', verdict = Err e -> w_fs w' = w_fs w -> Q (Throw (WTopology e)) w') ->
  (verdict = Err Unwritable -> forall o w', (forall c, o <> Ret c) -> Q o w') ->
  wp (startup config is_reopen) Q w.
Proof.
  intros verdict Hok Hmarked Hrefused Hunwritable. unfold startup. rewrite wp_bind, wp_path_exists.
  set (marked := match io_fault (w_tick w) with NoFault => _ | _ => _ end).
  rewrite wp_bind, wp_throw_if. destruct marked; [by apply Hmarked|].
  rewrite wp_bind. unfold dep_call at 1, wp at 1. cbn [fst snd w_tick w_set_fs]. fold verdict.
  destruct verdict as [[]|e] eqn:Htop.
  { unfold wp. by eapply Hok. }
  rewrite wp_bind. destruct e; try (rewrite wp_throw; by apply Hrefused).
  eapply (wp_mono _ (fun o _ => forall a, o <> Ret a)).
  - unfold wp, mbind, M_bind, throw. repeat case_match; simplify_eq/=; done.
  - intros [a|e|] w1 Ho; [by destruct (Ho a)|..]; by eapply Hunwritable.
Qed.

(** C31: the watchdog runs on a sealed store only.  With the production probe
    in its place - what startup is told is what that probe says when started
    at that moment - startup returns a watchdog only if the probe found the
    configured path to be the sealed mount (its path, its mount, its owner,
    mode and devices, and every path of its layout, as the host said them
    while the probe asked).  Otherwise it ends in the error the probe found or
    in the safe mode it was marked with, and no file is changed - only when
    the probe found that the store cannot be written does the startup try to
    leave a marker there, and it does not succeed either. *)
Theorem watchdog_starts_sealed root `{!ProductionTopology root} config is_reopen w o w' :
  cfg_store_root config = fs_path root ->
  startup config is_reopen w = (o, w') ->
  found_sealed root (S (w_tick w)) \/
  (w_fs w' = w_fs w /\ (o = Throw WSafeModeActive \/
     exists e, o = Throw (WTopology e) /\
               topology_verify_startup (S (w_tick w)) (fs_path root) = Err e)) \/
  (topology_verify_startup (S (w_tick w)) (fs_path root) = Err Unwritable /\
   forall core, o <> Ret core).
Proof.
  intros Hroot Hrun. pattern o, w'. eapply wp_run; [|exact Hrun].
  apply wp_startup_verdict; rewrite ?Hroot.
  - intros Hn o1 w1. left. by apply verdict_sealed.
  - intros w1 Hw. right; left. auto.
  - intros e w1 He Hw. right; left. eauto.
  - intros Hn o1 w1 Ho. right; right. eauto.
Qed.
End Sealed.

(** ** The probe in its place *)

Lemma verify_answers `{!IoEnv, !HostView} root (w : World unit) :
  fst (verify_startup root w) <> Panic.
Proof.
  unfold verify_startup, mbind, M_bind. destruct (inspect_store root w) as [o w1] eqn:Hins.
  apply inspected_sealed in Hins as (Hp & _). destruct o as [[]|e|]; [|done|done].
  pose proof (prove_writable_confined root w1) as Hc. unfold wp in Hc. apply Hc.
Qed.

(** The interfaces of [WdDemo], with the probe's verdict, at any moment, on a
    host whose disk is that of [WdTopologyTheorems]. *)
Definition disk_at (n : nat) : World unit :=
  mkWorld (w_fs WdTopologyTheorems.demo_disk) n [].

Definition probed (host : HostView) : Dependencies :=
  {| clock_now := clock_now; entropy_byte := entropy_byte;
     topology_verify_startup n _ :=
       default (Err UnavailableStore)
         (verdict_of (fst (@verify_startup unit reliable_io host WATCHDOG_MOUNT_ROOT (disk_at n))));
     dur_file_fsync := dur_file_fsync; dur_dir_fsync := dur_dir_fsync;
     dur_atomic_rename := dur_atomic_rename; dur_rename_moves := dur_rename_moves;
     dur_readback_verify := dur_readback_verify; pg_signal := pg_signal;
     pg_group_alive := pg_group_alive; pg_bounded_wait := pg_bounded_wait;
     job_candidate_count := job_candidate_count; floor_read_epoch := floor_read_epoch;
     inv_evaluate := inv_evaluate; base_observed := base_observed;
     peer_credentials := peer_credentials; temp_nanos := temp_nanos |}.

Lemma probed_production host :
  @ProductionTopology (probed host) reliable_io host WATCHDOG_MOUNT_ROOT.
Proof.
  intros n. exists (disk_at n). split; [done|]. cbn [topology_verify_startup probed].
  pose proof (@verify_answers reliable_io host WATCHDOG_MOUNT_ROOT (disk_at n)) as Hp.
  by destruct (fst (verify_startup _ _)).
Qed.

Definition sealed_config : CoreConfig :=
  mkConfig (fs_path WATCHDOG_MOUNT_ROOT) 1000 1000 "host-1".

Definition started (host : HostView) : outcome WatchdogError WatchdogCore * WdWorld :=
  @startup demo_codec reliable_io (probed host) sealed_config false WdDemo.demo_disk.

(** On the demo host the watchdog starts, and the theorem says why. *)
Lemma watchdog_starts_sealed_witness :
  (exists core, fst (started WdTopologyTheorems.demo_host) = Ret core) /\
  @found_sealed reliable_io WdTopologyTheorems.demo_host WATCHDOG_MOUNT_ROOT
    (S (w_tick WdDemo.demo_disk)).
Proof.
  assert (Hret : exists core, fst (started WdTopologyTheorems.demo_host) = Ret core)
    by (eexists; vm_compute; reflexivity).
  split; [exact Hret|]. destruct Hret as [core Hcore].
  destruct (@watchdog_starts_sealed demo_codec (probed WdTopologyTheorems.demo_host)
              reliable_io WdTopologyTheorems.demo_host WATCHDOG_MOUNT_ROOT (probed_production _)
              sealed_config false WdDemo.demo_disk _ _ eq_refl (surjective_pairing _))
    as [Hs|[[_ [Hno|[e [Hno _]]]]|[_ Hno]]].
  - exact Hs.
  - exfalso. unfold started in Hcore. rewrite Hcore in Hno. discriminate Hno.
  - exfalso. unfold started in Hcore. rewrite Hcore in Hno. discriminate Hno.
  - exfalso. exact (Hno core Hcore).
Defined.

(** On a host whose store lies on the root's own device it does not. *)
Lemma shared_device_does_not_start :
  let host := {| hv_symlink_metadata _ _ := Ok (demo_dir 1); hv_exists _ _ := true;
                 hv_mountinfo _ := Some (demo_line "1" "/" +:+ demo_line "2" WATCHDOG_MOUNT_ROOT);
                 hv_current_dir _ := Some "/"; hv_nanos _ := Some 1 |} in
  fst (started host) = Throw (WTopology SameDeviceAlias) /\
  w_fs (snd (started host)) = w_fs WdDemo.demo_disk.
Proof. vm_compute. auto. Qed.
