(* ===== verification/Gw.v ===== *)
(** * The gateway

    [gw/src]: the relay between an agent's stdio and the broker's socket.
    [client.rs] opens a connection per call, [session.rs] holds the token and
    the number of the next request, [mcp.rs] answers the lines of JSON-RPC,
    [main.rs] reads the arguments and runs the loop.

    What the peer of a connection sends depends on what it was sent: it is the
    interface [GwPeer].  [serde_json]'s readers and writers and the schema
    validator are the interface [GwCodec].  An object built by [json!] is the
    list of its members in the order its map iterates them, by key. *)

From S2P Require Import Prelude RustStd Json TxTypes Wire Jcs Policy Frame RustText.

(** ** What is read and written *)

Section Messages.
Context `{JsonNumber}.

(** [mcp.rs] *)
Record Incoming := mkIncoming {
  in_jsonrpc : string;
  in_id : option Value;
  in_method : string;
  in_params : Value;
}.

Record RpcError := mkRpcError { rpc_code : Z; rpc_message : string }.

Record Outgoing := mkOutgoing {
  out_jsonrpc : string;
  out_id : Value;
  out_result : option Value;
  out_error : option RpcError;
}.

(** Why [BrokerClient::call] failed, as far as its steps tell. *)
Inductive CallError :=
  | ConnectFailed
  | SendFailed (e : FrameError)
  | ReceiveFailed (e : FrameError)
  | MalformedResponse.

Class GwCodec := {
  incoming_from_str : string -> option Incoming;
  outgoing_to_string : Outgoing -> option string;
  value_to_text : Value -> string;
  value_to_vec : Value -> option (list byte);
  response_from_slice : list byte -> option Response;
  system_info_to_value : SystemInfo -> option Value;
  events_replay_to_value : EventsReplayResult -> option Value;
  schema_validate : SchemaKind -> Value -> result string unit;
  call_error_text : CallError -> string;
}.
End Messages.

(** The peer of the [n]-th connection: whether it can be connected to, how
    much of each write goes through, and what it sends once it was sent that. *)
Class GwPeer := {
  gw_connect : nat -> option (list (option nat));
  gw_reply : nat -> list byte -> Reader;
}.

(** ** client.rs and session.rs *)

Record BrokerClient := mkClient { bcl_socket_path : string }.

Record Session := mkSession {
  ss_broker : BrokerClient;
  ss_token : string;
  ss_next_request : Z;
}.

Definition session_new (broker : BrokerClient) (token : string) : Session := mkSession broker token 0.

(** A session, and what was written to each connection so far. *)
Record Gateway := mkGateway {
  gw_session : Session;
  gw_sent : list (list byte);
}.

Definition SYSTEM_INFO : string := "system.info".
Definition EVENTS_URI : string := "agentbed://events".
Definition GW_PROTOCOL_VERSION : string := "2025-06-18".
Definition CARGO_PKG_VERSION : string := "0.0.1".

Definition PARSE_ERROR : Z := -32700.
Definition INVALID_REQUEST : Z := -32600.
Definition METHOD_NOT_FOUND : Z := -32601.
Definition INVALID_PARAMS : Z := -32602.

Section Gateway.
Context `{JsonNumberFrom, !GwCodec, !GwPeer}.

Abbreviation GwM := (M Gateway (Z * string)).

Inductive CallOutcome :=
  | CallResult (v : Value)
  | Refused (reason : string)
  | UnknownTool
  | InvalidArguments (reason : string).

(** [BrokerClient::call] *)
Definition broker_call {E} (request_body : list byte) : M Gateway E (result CallError Response) := fun g =>
  let n := length (gw_sent g) in
  match gw_connect n with
  | None => (Ret (Err ConnectFailed), mkGateway (gw_session g) (gw_sent g ++ [[]]))
  | Some faults =>
      let '(written, w) := write_frame MAX_FRAME_BYTES request_body (mkWriter [] faults) in
      let g := mkGateway (gw_session g) (gw_sent g ++ [wt_written w]) in
      (Ret (match written with
            | Err e => Err (SendFailed e)
            | Ok _ =>
                match fst (read_frame MAX_FRAME_BYTES (gw_reply n (wt_written w))) with
                | Err e => Err (ReceiveFailed e)
                | Ok body => ok_or (response_from_slice body) MalformedResponse
                end
            end), g)
  end.

(** [Session::next_request_id] *)
Definition next_request_id {E} : M Gateway E string := fun g =>
  let s := gw_session g in
  let n := u64_saturating_add (ss_next_request s) 1 in
  (Ret ("gw-" +:+ format_hex16 n), mkGateway (mkSession (ss_broker s) (ss_token s) n) (gw_sent g)).

(** [Session::tool_descriptors] *)
Definition tool_descriptors : Value :=
  VArray [VObject
    [("description", VString "Host facts, host adapter state, the per-resource rollback safety vector, and the probed Landlock ABI. Read-only (effect set {R}).");
     ("inputSchema", VObject [("additionalProperties", VBool false); ("properties", VObject []);
                              ("type", VString "object")]);
     ("name", VString SYSTEM_INFO)]].

(** [Session::resource_descriptors] *)
Definition resource_descriptors : Value :=
  VArray [VObject
    [("description", VString "Durable append-only activity log with cursor replay.");
     ("mimeType", VString "application/json"); ("name", VString "agentbed-events");
     ("uri", VString EVENTS_URI)]].

(** The body of a request. *)
Definition request_body (v : Z) (id op token : string) (params : Value) : Value :=
  VObject [("auth", VObject [("token", VString token)]); ("id", VString id); ("op", VString op);
           ("params", params); ("v", VNumber (from_u64 v))].

Definition refused_by_broker (e : ResponseError) : string :=
  "broker refused: code=" +:+ error_code_debug (re_code e) +:+ " precedence_stage=" +:+
  match re_stage e with Some s => format_decimal (ordinal s) | None => "-" end.

(** What becomes of the broker's answer; [expected] reads the result the
    operation has, [None] for one of another operation. *)
Definition outcome_of (expected : OperationResult -> option (option Value))
    (answer : result CallError Response) : CallOutcome :=
  match answer with
  | Ok response =>
      match rs_error response with
      | Some error => Refused (refused_by_broker error)
      | None =>
          match rs_result response with
          | Some r =>
              match expected r with
              | Some (Some v) => CallResult v
              | Some None => Refused "gateway could not encode the result"
              | None => Refused "broker returned an operation this gateway does not expose"
              end
          | None => Refused "broker returned neither a result nor an error"
          end
      end
  | Err e => Refused ("broker unreachable: " +:+ call_error_text e)
  end.

(** The common part of [Session::read_resource] and [Session::call_tool]. *)
Definition relay {E} (v : Z) (op : string) (params : Value)
    (expected : OperationResult -> option (option Value)) : M Gateway E CallOutcome :=
  request_id ← next_request_id;
  token ← gets (fun g => ss_token (gw_session g));
  match value_to_vec (request_body v request_id op token params) with
  | None => mret (Refused "gateway could not encode the request")
  | Some encoded =>
      answer ← broker_call encoded;
      mret (outcome_of expected answer)
  end.

Definition expect_replay (r : OperationResult) : option (option Value) :=
  match r with REventsReplay replay => Some (events_replay_to_value replay) | _ => None end.
Definition expect_info (r : OperationResult) : option (option Value) :=
  match r with RSystemInfo info => Some (system_info_to_value info) | _ => None end.

(** [Session::read_resource] *)
Definition read_resource {E} (uri : string) (cursor : option string) : M Gateway E CallOutcome :=
  if bool_decide (uri <> EVENTS_URI) then mret (Refused ("unknown resource: " +:+ uri)) else
  let params := VObject (match cursor with Some c => [("cursor", VString c)] | None => [] end) in
  match schema_validate SkEventsReplayRequest params with
  | Err e => mret (InvalidArguments e)
  | Ok _ => relay 2 "events.replay" params expect_replay
  end.

(** [Session::call_tool] *)
Definition call_tool {E} (name : string) (arguments : Value) : M Gateway E CallOutcome :=
  if bool_decide (name <> SYSTEM_INFO) then mret UnknownTool else
  match schema_validate SkSystemInfoRequest arguments with
  | Err e => mret (InvalidArguments e)
  | Ok _ => relay 1 SYSTEM_INFO arguments expect_info
  end.

(** ** mcp.rs *)

Definition initialize_result : Value :=
  VObject
    [("capabilities", VObject
       [("resources", VObject [("listChanged", VBool false); ("subscribe", VBool false)]);
        ("tools", VObject [("listChanged", VBool false)])]);
     ("protocolVersion", VString GW_PROTOCOL_VERSION);
     ("serverInfo", VObject [("name", VString "agentbed-gw"); ("version", VString CARGO_PKG_VERSION)])].

Definition tools_list_result : Value := VObject [("tools", tool_descriptors)].
Definition resources_list_result : Value := VObject [("resources", resource_descriptors)].

Definition resources_read (params : Value) : GwM Value :=
  match (uri ← value_get "uri" params; value_as_str uri) with
  | None => throw (INVALID_PARAMS, "resources/read requires a resource uri")
  | Some uri =>
      let cursor := c ← value_get "cursor" params; value_as_str c in
      outcome ← read_resource uri cursor;
      match outcome with
      | CallResult value =>
          mret (VObject [("contents", VArray [VObject
            [("mimeType", VString "application/json"); ("text", VString (value_to_text value));
             ("uri", VString uri)]])])
      | Refused reason =>
          mret (VObject [("contents", VArray [VObject
            [("mimeType", VString "text/plain"); ("text", VString reason); ("uri", VString uri)]]);
             ("isError", VBool true)])
      | UnknownTool => throw (INVALID_PARAMS, "unknown resource: " +:+ uri)
      | InvalidArguments reason => throw (INVALID_PARAMS, reason)
      end
  end.

Definition tools_call (params : Value) : GwM Value :=
  match (name ← value_get "name" params; value_as_str name) with
  | None => throw (INVALID_PARAMS, "tools/call requires a tool name")
  | Some name =>
      let arguments := default (VObject []) (value_get "arguments" params) in
      outcome ← call_tool name arguments;
      match outcome with
      | CallResult value =>
          mret (VObject [("content", VArray [VObject
            [("text", VString (value_to_text value)); ("type", VString "text")]]);
             ("isError", VBool false); ("structuredContent", value)])
      | Refused reason =>
          mret (VObject [("content", VArray [VObject
            [("text", VString reason); ("type", VString "text")]]); ("isError", VBool true)])
      | UnknownTool => throw (INVALID_PARAMS, "unknown tool: " +:+ name)
      | InvalidArguments reason => throw (INVALID_PARAMS, reason)
      end
  end.

(** The line written when a reply cannot be encoded. *)
Definition quoted (s : string) : string :=
  String (Ascii.ascii_of_nat 34) (s +:+ String (Ascii.ascii_of_nat 34) "").
Definition INTERNAL_ERROR_LINE : string :=
  "{" +:+ quoted "jsonrpc" +:+ ":" +:+ quoted "2.0" +:+ "," +:+ quoted "id" +:+ ":null," +:+
  quoted "error" +:+ ":{" +:+ quoted "code" +:+ ":-32603," +:+ quoted "message" +:+ ":" +:+
  quoted "internal error" +:+ "}}".

Definition line_of (o : Outgoing) : string := default INTERNAL_ERROR_LINE (outgoing_to_string o).
Definition result_message (id result : Value) : Outgoing := mkOutgoing "2.0" id (Some result) None.
Definition error_message (id : Value) (code : Z) (message : string) : Outgoing :=
  mkOutgoing "2.0" id None (Some (mkRpcError code message)).
Definition result_line (id result : Value) : string := line_of (result_message id result).
Definition error_line (id : Value) (code : Z) (message : string) : string :=
  line_of (error_message id code message).

(** The method of a request that has an identifier. *)
Definition run_method (method : string) (params : Value) : GwM Value :=
  if decide (method = "initialize") then mret initialize_result
  else if decide (method = "tools/list") then mret tools_list_result
  else if decide (method = "tools/call") then tools_call params
  else if decide (method = "resources/list") then mret resources_list_result
  else if decide (method = "resources/read") then resources_read params
  else if decide (method = "ping") then mret (VObject [])
  else throw (METHOD_NOT_FOUND, "unknown method: " +:+ method).

(** The reply to a line, before it is encoded. *)
Definition handle_message {E} (line : string) : M Gateway E (option Outgoing) :=
  if decide (trim line = "") then mret None else
  match incoming_from_str line with
  | None => mret (Some (error_message VNull PARSE_ERROR "malformed JSON-RPC message"))
  | Some message =>
      if bool_decide (in_jsonrpc message <> "2.0")
      then mret (Some (error_message (default VNull (in_id message)) INVALID_REQUEST
                        ("jsonrpc must be " +:+ quoted "2.0")))
      else
      match in_id message with
      | None => mret None
      | Some id =>
          response ← attempt (run_method (in_method message) (in_params message));
          mret (Some (match response with
                      | Ok result => result_message id result
                      | Err (code, message) => error_message id code message
                      end))
      end
  end.

Definition handle_line {E} (line : string) : M Gateway E (option string) :=
  reply ← handle_message line;
  mret (line_of <$> reply).
End Gateway.

(** ** main.rs *)

(** What the process reads and where it writes; failures carry their text. *)
Class GwProcess := {
  read_token_file : string -> result string string;
  agent_token_variable : option string;
  stdout_write : nat -> result string unit;
}.

Definition LINE_END : string := String LF "".
Definition GW_USAGE : string :=
  "usage: agentbed-gw --socket <broker socket> [--token-file <path>]" +:+ LINE_END +:+
  "the agent's token is read from AGENTBED_TOKEN unless --token-file is given".
Definition with_usage (message : string) : string := message +:+ LINE_END +:+ LINE_END +:+ GW_USAGE.

Inductive GwArgs := GwHelp | GwRun (socket_path token_file : option string).

Section Main.
Context `{JsonNumberFrom, !GwCodec, !GwPeer, !GwProcess}.

Definition next_value (args : list string) (flag : string) : result string (string * list string) :=
  match args with
  | [] => Err (flag +:+ " requires a value")
  | v :: args => Ok (v, args)
  end.

(** The loop over the arguments; a flag and its value are two of them. *)
Fixpoint parse_args (fuel : nat) (args : list string) (socket_path token_file : option string) :
    result string GwArgs :=
  match fuel, args with
  | S fuel, arg :: args =>
      if decide (arg = "--socket") then
        '(v, args) ← next_value args arg; parse_args fuel args (Some v) token_file
      else if decide (arg = "--token-file") then
        '(v, args) ← next_value args arg; parse_args fuel args socket_path (Some v)
      else if decide (arg = "--help") then Ok GwHelp
      else if decide (arg = "-h") then Ok GwHelp
      else Err (with_usage ("unknown argument: " +:+ arg))
  | _, _ => Ok (GwRun socket_path token_file)
  end.

(** The variable is also removed from the environment, which nothing reads
    again. *)
Definition load_token (token_file : option string) : result string string :=
  match token_file with
  | Some path =>
      raw ← map_err (fun e => "cannot read token file " +:+ path +:+ ": " +:+ e) (read_token_file path);
      Ok (trim raw)
  | None =>
      raw ← ok_or agent_token_variable
              (with_usage "no agent token: set AGENTBED_TOKEN or --token-file");
      fail_if (bool_decide (trim raw = "")) "AGENTBED_TOKEN is empty";;
      Ok (trim raw)
  end.

(** The loop over the lines of stdin: the replies written, and how it ended. *)
Fixpoint serve_lines (ls : list (result string string)) (g : Gateway) (written : list string) :
    result string unit * list string * Gateway :=
  match ls with
  | [] => (Ok tt, written, g)
  | Err e :: _ => (Err ("stdin: " +:+ e), written, g)
  | Ok line :: ls =>
      match handle_line (E := Empty_set) line g with
      | (Ret (Some reply), g) =>
          match stdout_write (length written) with
          | Ok _ => serve_lines ls g (written ++ [reply])
          | Err e => (Err ("stdout: " +:+ e), written, g)
          end
      | (_, g) => serve_lines ls g written
      end
  end.

(** [run]: what is written to stdout, and how it ended. *)
Definition gw_run (args : list string) (ls : list (result string string)) :
    result string unit * list string :=
  match parse_args (length args) args None None with
  | Err e => (Err e, [])
  | Ok GwHelp => (Ok tt, [GW_USAGE])
  | Ok (GwRun socket_path token_file) =>
      match (socket ← ok_or socket_path (with_usage "--socket is required");
             token ← load_token token_file; Ok (socket, token)) with
      | Err e => (Err e, [])
      | Ok (socket, token) =>
          fst (serve_lines ls (mkGateway (session_new (mkClient socket) token) []) [])
      end
  end.
End Main.
