(* ===== verification/GwTheorems.v ===== *)
(** * The gateway: the theorems

    What a session can send, however the agent behaves; what is replied to a
    line; and a tool call all the way through the broker and back. *)

From S2P Require Import Prelude RustStd Json TxTypes TxStorage TxEngine Wire Jcs JcsFacts Policy Quota RustText.
From S2P Require Import TxDemo QuotaTheorems PolicyTheorems JcsTheorems DispatchDemo.
From S2P Require Import Dispatch Frame FrameTheorems Serve ServeTheorems Gw.

(** ** Identifiers *)

Lemma hex_char_inj a b : 0 <= a < 16 -> 0 <= b < 16 -> hex_char a = hex_char b -> a = b.
Proof.
  intros Ha Hb. assert (Hall : forall z, 0 <= z < 16 -> In z (map Z.of_nat (seq 0 16))).
  { intros z Hz. apply in_map_iff. exists (Z.to_nat z). split; [lia|]. apply in_seq. lia. }
  pose proof (Hall a Ha) as Ia. pose proof (Hall b Hb) as Ib. cbn in Ia, Ib.
  repeat (destruct Ia as [<-|Ia]; [repeat (destruct Ib as [<-|Ib]; [done||discriminate|]); done|]). done.
Qed.

Lemma hex_digits_inj width a b s t :
  0 <= a < 16 ^ Z.of_nat width -> 0 <= b < 16 ^ Z.of_nat width ->
  hex_digits width a s = hex_digits width b t -> a = b /\ s = t.
Proof.
  revert a b s t. induction width as [|width IH]; intros a b s t Ha Hb; cbn [hex_digits].
  { cbn in Ha, Hb. intros ->. split; [lia|done]. }
  rewrite Nat2Z.inj_succ, Z.pow_succ_r in Ha, Hb by lia. intros Heq.
  apply IH in Heq as [Hd [= Hc ->]].
  - apply hex_char_inj in Hc; [|apply Z.mod_pos_bound; lia..]. split; [|done].
    rewrite (Z.div_mod a 16), (Z.div_mod b 16) by lia. lia.
  - split; [apply Z.div_pos; lia|apply Z.div_lt_upper_bound; lia].
  - split; [apply Z.div_pos; lia|apply Z.div_lt_upper_bound; lia].
Qed.

Definition gw_id (k : Z) : string := "gw-" +:+ format_hex16 k.

Lemma gw_id_inj a b : is_u64 a -> is_u64 b -> gw_id a = gw_id b -> a = b.
Proof.
  unfold gw_id, is_u64, u64_max. intros Ha Hb Heq. apply append_inj_l in Heq.
  unfold format_hex16 in Heq. apply hex_digits_inj in Heq as [? _]; [done|cbn; lia..].
Qed.

Section Session.
Context `{JsonNumberFrom, !GwCodec, !GwPeer}.
Implicit Types (g : Gateway) (token : string).

(** ** What a session sends *)

(** A call the gateway publishes, with parameters its schema accepts. *)
Definition published (v : Z) (op : string) (params : Value) : Prop :=
  (v = 1 /\ op = SYSTEM_INFO /\ schema_validate SkSystemInfoRequest params = Ok tt) \/
  (v = 2 /\ op = "events.replay" /\ schema_validate SkEventsReplayRequest params = Ok tt /\
   (params = VObject [] \/ exists c, params = VObject [("cursor", VString c)])).

(** What was written to one connection: a frame of request [k] made with
    [token], or the beginning of one. *)
Definition request_of token (k : Z) (sent : list byte) : Prop :=
  exists v op params encoded,
    published v op params /\
    value_to_vec (request_body v (gw_id k) op token params) = Some encoded /\
    sent `prefix_of` framed encoded.

(** One line takes at most one number and one connection. *)
Definition one_call g g' : Prop :=
  ss_broker (gw_session g') = ss_broker (gw_session g) /\
  ss_token (gw_session g') = ss_token (gw_session g) /\
  (g' = g \/
   ss_next_request (gw_session g') = u64_saturating_add (ss_next_request (gw_session g)) 1 /\
   exists new, gw_sent g' = gw_sent g ++ new /\ (length new <= 1)%nat /\
     Forall (request_of (ss_token (gw_session g)) (ss_next_request (gw_session g'))) new).

Lemma one_call_refl g : one_call g g.
Proof. split_and!; auto. Qed.

Lemma write_frame_prefix limit body faults r w :
  write_frame limit body (mkWriter [] faults) = (r, w) -> wt_written w `prefix_of` framed body.
Proof.
  unfold write_frame, framed. case_bool_decide; [intros [= <- <-]; apply prefix_nil|].
  destruct (_ <? _); [intros [= <- <-]; apply prefix_nil|].
  destruct (_ <? _); [intros [= <- <-]; apply prefix_nil|].
  assert (Hw : forall bytes (v : Writer), exists k, wt_written (snd (stream_write_all bytes v)) =
    wt_written v ++ take k bytes /\ (fst (stream_write_all bytes v) = Ok tt -> k = length bytes)).
  { intros bytes [written [|[k|] faults']]; cbn; [exists (length bytes)|exists k|exists (length bytes)];
      rewrite ?firstn_all; done. }
  set (prefix := be_bytes 4 _). pose proof (Hw prefix (mkWriter [] faults)) as (k & Hk & Hok).
  destruct (stream_write_all prefix _) as [[[]|e] w1]; cbn in Hk, Hok.
  - intros Hr. pose proof (Hw body w1) as (j & Hj & _). rewrite Hr in Hj. cbn in Hj.
    rewrite Hj, Hk, Hok, firstn_all by done. apply prefix_app, prefix_take.
  - intros [= <- <-]. rewrite Hk. apply prefix_app_r, prefix_take.
Qed.

Lemma wp_broker_call {E} body (Q : outcome E (result CallError Response) -> Gateway -> Prop) g :
  (forall r sent, sent `prefix_of` framed body ->
     Q (Ret r) (mkGateway (gw_session g) (gw_sent g ++ [sent]))) -> wp (broker_call body) Q g.
Proof.
  intros HQ. unfold wp, broker_call. destruct (gw_connect _) as [faults|]; [|apply HQ, prefix_nil].
  destruct (write_frame _ _ _) as [written w] eqn:Hw. apply HQ. by eapply write_frame_prefix.
Qed.

Lemma wp_relay {E} v op params expected g :
  published v op params ->
  wp (relay (E := E) v op params expected) (fun o g' => (exists x, o = Ret x) /\ one_call g g') g.
Proof.
  intros Hp. unfold relay, next_request_id. wp_simpl. unfold wp at 1. cbn [fst snd]. wp_simpl.
  set (k := u64_saturating_add _ 1). fold (gw_id k). cbn [gw_session ss_token].
  destruct (value_to_vec _) as [encoded|] eqn:Henc; wp_simpl.
  - apply wp_broker_call. intros r sent Hsent. wp_simpl. split; [by eexists|].
    split_and!; [done|done|right]. split; [done|]. exists [sent]. split_and!; [done|cbn; lia|].
    apply Forall_singleton. exists v, op, params, encoded. by split_and!.
  - split; [by eexists|]. split_and!; [done|done|right]. split; [done|]. exists [].
    split_and!; [by rewrite app_nil_r|cbn; lia|done].
Qed.

Lemma wp_call_tool {E} name arguments g :
  wp (call_tool (E := E) name arguments) (fun o g' => (exists x, o = Ret x) /\ one_call g g') g.
Proof.
  unfold call_tool. case_bool_decide; [wp_simpl; split; [by eexists|apply one_call_refl]|].
  destruct (schema_validate _ arguments) as [[]|e] eqn:Hs; wp_simpl.
  - apply wp_relay. by left.
  - split; [by eexists|apply one_call_refl].
Qed.

Lemma wp_read_resource {E} uri cursor g :
  wp (read_resource (E := E) uri cursor) (fun o g' => (exists x, o = Ret x) /\ one_call g g') g.
Proof.
  unfold read_resource. case_bool_decide; [wp_simpl; split; [by eexists|apply one_call_refl]|].
  destruct (schema_validate _ _) as [[]|e] eqn:Hs; wp_simpl.
  - apply wp_relay. right. split_and!; [done|done|done|]. destruct cursor as [c|]; [right; by exists c|by left].
  - split; [by eexists|apply one_call_refl].
Qed.

Lemma wp_run_method method params g :
  wp (run_method method params) (fun o g' => o <> Panic /\ one_call g g') g.
Proof.
  unfold run_method. pose proof (one_call_refl g).
  repeat case_decide; wp_simpl; try by split.
  - unfold tools_call. destruct (_ ≫= _) as [name|]; wp_simpl; [|by split].
    eapply wp_mono; [apply wp_call_tool|]. intros o g' [[x ->] Hc]. destruct x; by wp_simpl.
  - unfold resources_read. destruct (_ ≫= _) as [uri|]; wp_simpl; [|by split].
    eapply wp_mono; [apply wp_read_resource|]. intros o g' [[x ->] Hc]. destruct x; by wp_simpl.
Qed.

(** The identifier a reply to a message carries. *)
Definition reply_id (message : Incoming) : Value := default VNull (in_id message).

(** Nothing is replied to a blank line and to a notification. *)
Definition silent (line : string) : Prop :=
  trim line = "" \/
  exists message, incoming_from_str line = Some message /\ in_jsonrpc message = "2.0" /\ in_id message = None.

Lemma wp_handle_message {E} line g :
  wp (handle_message (E := E) line) (fun o g' => one_call g g' /\
    match o with
    | Ret None => silent line /\ g' = g
    | Ret (Some reply) =>
        ~ silent line /\ out_jsonrpc reply = "2.0" /\
        (is_Some (out_result reply) <-> out_error reply = None) /\
        out_id reply = from_option reply_id VNull (incoming_from_str line)
    | _ => False
    end) g.
Proof.
  pose proof (one_call_refl g) as Hrefl. unfold handle_message, silent.
  case_decide as Ht; [wp_simpl; by auto|].
  destruct (incoming_from_str line) as [message|] eqn:Hin; wp_simpl.
  2: { split_and!; try done; [intros [?|(m & ? & _)]; [done|congruence]|].
       cbn. split; [by intros [? ?]|done]. }
  case_bool_decide as Hv; wp_simpl.
  { split_and!; try done; [intros [?|(m & ? & ? & _)]; [done|congruence]|].
    cbn. split; [by intros [? ?]|done]. }
  destruct (in_id message) as [id|] eqn:Hid; wp_simpl.
  - eapply wp_mono; [apply wp_run_method|]. intros o g' [Hp Hc].
    assert (Hns : ~ (trim line = "" \/ exists m, Some message = Some m /\ in_jsonrpc m = "2.0" /\ in_id m = None)).
    { intros [?|(m & [= ->] & _ & ?)]; [done|congruence]. }
    destruct o as [v|[code msg]|]; [..|done]; wp_simpl; (split_and!; [done|done|done| |]); cbn.
    + split; [done|by eexists].
    + unfold reply_id. by rewrite Hid.
    + split; [by intros [? ?]|done].
    + unfold reply_id. by rewrite Hid.
  - split; [done|]. split; [right; by exists message|done].
Qed.

(** ** A whole session *)

(** What was sent so far is requests of this token, numbered upwards. *)
Record session_log token (calls : Z) g : Prop := {
  sl_token : ss_token (gw_session g) = token;
  sl_next : 0 <= ss_next_request (gw_session g) <= Z.min calls u64_max;
  sl_sent : Z.of_nat (length (gw_sent g)) <= calls;
  sl_requests : exists ks, Forall2 (request_of token) ks (gw_sent g) /\
    Forall (fun k => 1 <= k <= ss_next_request (gw_session g)) ks /\
    (ss_next_request (gw_session g) < u64_max -> NoDup ks);
}.

Lemma session_log_step token calls g g' :
  session_log token calls g -> one_call g g' -> session_log token (calls + 1) g'.
Proof.
  intros [Ht Hn Hl (ks & Hks & Hr & Hnd)] (_ & Ht' & Hc). pose proof u64_max as Hm.
  destruct Hc as [->|[Hn' (new & Hs & Hlen & Hf)]].
  { split; [done|lia|lia|by exists ks]. }
  unfold u64_saturating_add in Hn'. split; [congruence|rewrite Hn'; lia|rewrite Hs, length_app; lia|].
  assert (Hlift : Forall (fun k => 1 <= k <= ss_next_request (gw_session g')) ks).
  { eapply Forall_impl; [exact Hr|]. cbn. intros k Hk. rewrite Hn'. unfold u64_max in *. lia. }
  assert (Hfree : ss_next_request (gw_session g') < u64_max ->
    ss_next_request (gw_session g') ∉ ks /\ NoDup ks).
  { intros Hlt. assert (Hlt' : ss_next_request (gw_session g) < u64_max) by lia. split; [|by apply Hnd].
    intros Hin. rewrite Forall_forall in Hr. apply Hr in Hin. lia. }
  destruct new as [|sent [|]]; [..|cbn in Hlen; lia].
  - exists ks. rewrite Hs, app_nil_r. split_and!; [done|done|]. intros Hlt. by apply Hfree.
  - exists (ks ++ [ss_next_request (gw_session g')]). rewrite Hs. split_and!.
    + apply Forall2_app; [done|]. apply Forall2_cons; split; [|done].
      apply Forall_inv in Hf. by rewrite Ht in Hf.
    + apply Forall_app. split; [done|]. apply Forall_singleton. rewrite Hn'. unfold u64_max in *. lia.
    + intros Hlt. destruct (Hfree Hlt) as [Hno Hks']. apply NoDup_app. split_and!; [done| |apply NoDup_singleton].
      intros k Hk ->%list_elem_of_singleton. done.
Qed.

Lemma session_log_mono token a b g : a <= b -> session_log token a g -> session_log token b g.
Proof. intros Hab [? ? ? ?]. split; [done|lia|lia|done]. Qed.

Lemma serve_lines_log `{!GwProcess} ls token calls g written :
  session_log token calls g ->
  session_log token (calls + Z.of_nat (length ls)) (snd (serve_lines ls g written)) /\
  (length (snd (fst (serve_lines ls g written))) <= length written + length ls)%nat.
Proof.
  revert calls g written. induction ls as [|[line|e] ls IH]; intros calls g written Hg; cbn [serve_lines].
  - cbn. split; [|lia]. by rewrite Z.add_0_r.
  - unfold handle_line, mbind, M_bind.
    pose proof (wp_handle_message (E := Empty_set) line g) as Hm. unfold wp in Hm.
    destruct (handle_message line g) as [o g'] eqn:Heq. cbn [fst snd] in Hm. destruct Hm as [Hc Ho].
    apply (session_log_step _ _ _ _ Hg) in Hc.
    assert (Hlen : calls + 1 + Z.of_nat (length ls) = calls + Z.of_nat (length (Ok line :: ls)))
      by (cbn [length]; lia).
    rewrite <-Hlen. cbn [length].
    destruct o as [[reply|]|e|]; [| |done|done]; cbn.
    + destruct (stdout_write _) as [[]|e].
      * destruct (IH _ _ (written ++ [line_of reply]) Hc) as [Hl1 Hl2]. split; [done|].
        etrans; [exact Hl2|]. rewrite length_app. cbn. lia.
      * cbn. split; [|lia]. eapply session_log_mono; [|exact Hc]. lia.
    + destruct (IH _ _ written Hc) as [Hl1 Hl2]. split; [done|]. lia.
  - cbn. split; [|lia]. eapply session_log_mono; [|exact Hg]. cbn [length]. lia.
Qed.

(** C33: Whatever lines an agent sends, a session writes to the broker, over at
    most one connection a line, only requests of the two operations it
    publishes, each with the session's own token, with parameters its schema
    accepts, whole or cut short by a failing connection; and no two of them
    carry the same identifier.  It replies to a line at most once. *)
Theorem session_sends_only_what_it_publishes `{!GwProcess} broker token ls :
  let start := mkGateway (session_new broker token) [] in
  let '(_, written, g) := serve_lines ls start [] in
  (length written <= length ls)%nat /\ (length (gw_sent g) <= length ls)%nat /\
  exists ks, Forall2 (request_of token) ks (gw_sent g) /\
             (Z.of_nat (length ls) < u64_max -> NoDup (map gw_id ks)).
Proof.
  intros start.
  assert (Hstart : session_log token 0 start).
  { split; [done|cbn; unfold u64_max; lia|cbn; lia|]. exists []. split_and!; [constructor|done|constructor]. }
  destruct (serve_lines_log ls token 0 start [] Hstart) as [[_ Hn Hl (ks & Hks & Hr & Hnd)] Hw].
  destruct (serve_lines ls start []) as [[r written] g]. cbn [fst snd] in *.
  split_and!; [cbn in Hw; lia|lia|]. exists ks. split; [done|]. intros Hlt.
  apply NoDup_fmap_2_strong; [|apply Hnd; lia]. rewrite Forall_forall in Hr.
  intros a b Ha%Hr Hb%Hr. apply gw_id_inj; unfold is_u64; lia.
Qed.

(** A line is answered exactly unless it is blank or a notification; a
    reply has either a result or an error, and the identifier that was asked
    with, null when there was none; a line that is not answered changes
    nothing and calls nobody. *)
Theorem lines_are_answered_once {E} line g :
  wp (handle_message (E := E) line) (fun o g' =>
    match o with
    | Ret None => silent line /\ g' = g
    | Ret (Some reply) =>
        ~ silent line /\ out_jsonrpc reply = "2.0" /\
        (is_Some (out_result reply) <-> out_error reply = None) /\
        out_id reply = from_option reply_id VNull (incoming_from_str line)
    | _ => False
    end) g.
Proof. eapply wp_mono; [apply wp_handle_message|]. by intros o g' [_ Ho]. Qed.
End Session.

(** ** Two corners *)

(** An empty variable is refused; an empty token file is not, and the session
    starts without a token. *)
Lemma empty_token_file_accepted `{!GwProcess} path raw :
  read_token_file path = Ok raw -> trim raw = "" -> load_token (Some path) = Ok "".
Proof. intros Hr Ht. unfold load_token. rewrite Hr. cbn [map_err mbind result_bind]. by rewrite Ht. Qed.

(** A resource the gateway does not know is answered with a result, never with
    the error there is for it. *)
Lemma unknown_resource_is_a_result `{JsonNumberFrom, !GwCodec, !GwPeer} uri params g :
  (u ← value_get "uri" params; value_as_str u) = Some uri -> uri <> EVENTS_URI ->
  exists v, resources_read params g = (Ret v, g) /\ value_get "isError" v = Some (VBool true).
Proof.
  intros Hu Hne. unfold resources_read. rewrite Hu. unfold read_resource, mbind, M_bind.
  rewrite bool_decide_eq_true_2 by done. cbn. by eexists.
Qed.

(** ** Through the broker and back *)

Section EndToEnd.
Context `{JsonNumberFrom, !JsonFloat, !JsonDocument, !Sha256Hash, !WireSerde, !ManifestCodec,
          !BrokerCodec, !IoEnv, !HostAdapter, !HostReport, !Clock, !ResponseSerde, !GwCodec}.
Context (own : Z) (peer : PeerCredentials) (config : BrokerConfig) (d : Dispatcher) (b : BrokerW).
Hypothesis Hallowed : peer_uid_allowed own peer config = true.
Hypothesis Hserves : 0 < bc_max_requests_per_connection config.

(** Connections to the broker: each is served, by the broker as it is now, from
    what was written to it. *)
Definition served (sent : list byte) : list byte :=
  wt_written (cn_writer (snd (serve_connection own (Some peer) config d
    (mkConnection [RData sent] (mkWriter [] []) b)))).

#[local] Instance broker_peer : GwPeer := {|
  gw_connect _ := Some [];
  gw_reply _ sent := [RData (served sent)];
|}.

Definition sendable (body : list byte) : Prop := 0 < Z.of_nat (length body) <= MAX_FRAME_BYTES.

Lemma write_frame_sendable body w :
  sendable body -> wt_faults w = [] ->
  write_frame MAX_FRAME_BYTES body w = (Ok tt, mkWriter (wt_written w ++ framed body) []).
Proof.
  intros Hb Hw. unfold write_frame, sendable, MAX_FRAME_BYTES in *.
  rewrite bool_decide_eq_false_2 by (intros ->; cbn in Hb; lia).
  rewrite (proj2 (Z.ltb_ge _ _)) by (unfold u32_max; lia). rewrite (proj2 (Z.ltb_ge _ _)) by lia.
  unfold stream_write_all, framed. destruct w as [written faults]. cbn in *. subst faults. cbn.
  by rewrite app_assoc.
Qed.

Lemma contents_framed body : contents [RData (framed body)] = (framed body ++ [], false).
Proof.
  rewrite contents_data; [done|]. unfold framed. intros Hnil. apply (f_equal length) in Hnil.
  rewrite length_app, length_be_bytes in Hnil. discriminate.
Qed.

Lemma frame_of_sendable body rest f :
  sendable body -> frame_of MAX_FRAME_BYTES (framed body ++ rest, f) = Ok body.
Proof.
  unfold sendable, MAX_FRAME_BYTES. intros Hb.
  rewrite frame_of_framed by (unfold u32_max; lia). by rewrite (proj2 (Z.ltb_ge _ _)) by lia.
Qed.

Lemma read_frame_framed body :
  sendable body -> fst (read_frame MAX_FRAME_BYTES [RData (framed body)]) = Ok body.
Proof.
  intros Hb. destruct (read_frame_spec MAX_FRAME_BYTES [RData (framed body)]) as (s' & -> & _). cbn [fst].
  rewrite contents_framed. by apply frame_of_sendable.
Qed.

Lemma frames_of_one body : sendable body -> frames_of_stream [RData (framed body)] = [Ok body; Err Eof].
Proof.
  intros Hb. unfold frames_of_stream. rewrite contents_framed. cbn [fst].
  assert (Hlen : length (framed body ++ []) = (4 + length body)%nat).
  { unfold framed. rewrite app_nil_r, length_app, length_be_bytes. done. }
  rewrite Hlen. cbn [frames_in Nat.add]. rewrite frame_of_sendable by done. cbn [position_known].
  f_equal. cbn [frames_in frame_length]. unfold drop_of. cbn [fst snd].
  rewrite drop_ge by lia. done.
Qed.

Lemma served_one encoded response b' body :
  sendable encoded -> handle_frame d encoded peer b = (Ret response, b') ->
  response_to_vec response = Some body -> sendable body -> served (framed encoded) = framed body.
Proof.
  intros He Hh Hr Hb. unfold served.
  destruct (connection_spec own (Some peer) config d [RData (framed encoded)] (mkWriter [] []) b) as [s' ->].
  rewrite Hallowed, frames_of_one by done. cbn [snd serve_frames].
  rewrite (proj2 (Z.leb_gt _ _)) by done. rewrite Hh. unfold send. rewrite Hr.
  rewrite write_frame_sendable by done. cbn [is_ok serve_frames]. by destruct (_ <=? _).
Qed.

(** C34: A call of the published tool reaches the broker, and its answer
    reaches the agent.  What the gateway writes is one frame the broker's
    connection reads whole; the broker handles exactly that request, and what
    the agent is told is what the broker answered: its result, or its refusal
    with the code and the stage.  Nothing in between adds or loses a call. *)
Theorem tool_call_reaches_the_broker g arguments encoded response b' body :
  let s := gw_session g in
  let id := gw_id (u64_saturating_add (ss_next_request s) 1) in
  schema_validate SkSystemInfoRequest arguments = Ok tt ->
  value_to_vec (request_body 1 id SYSTEM_INFO (ss_token s) arguments) = Some encoded -> sendable encoded ->
  handle_frame d encoded peer b = (Ret response, b') ->
  response_to_vec response = Some body -> sendable body -> response_from_slice body = Some response ->
  let '(outcome, g') := call_tool (E := Empty_set) SYSTEM_INFO arguments g in
  outcome = Ret (outcome_of expect_info (Ok response)) /\
  gw_sent g' = gw_sent g ++ [framed encoded].
Proof.
  intros s id Hschema Henc He Hh Hr Hb Hback. unfold call_tool.
  rewrite bool_decide_eq_false_2 by (intros Hne; by apply Hne). rewrite Hschema.
  unfold relay, next_request_id, mbind, M_bind, gets. cbn [gw_session gw_sent ss_token].
  fold (gw_id (u64_saturating_add (ss_next_request (gw_session g)) 1)). fold s. fold id. rewrite Henc.
  unfold broker_call. cbn [gw_connect broker_peer gw_session gw_sent].
  rewrite write_frame_sendable by done. cbn [wt_written app gw_reply broker_peer].
  rewrite (served_one encoded response b' body) by done. rewrite read_frame_framed by done.
  rewrite Hback. by split.
Qed.
End EndToEnd.

(** ** A concrete session *)

(** One request, as the bytes of its document, and the broker's answer. *)
Definition demo_gw_document : JsonDocument :=
  {| json_document := fun _ =>
       Some (DMap [("v", DU64 1); ("id", DStr (gw_id 1)); ("op", DStr SYSTEM_INFO);
                   ("auth", DMap [("token", DStr TOKEN_A)]); ("params", DMap [])]) |}.

Definition demo_handle (b : BrokerW) : outcome Never Response * BrokerW :=
  @handle_frame int_number int_number_from no_floats demo_gw_document demo_sha256 demo_wire
    demo_manifests demo_broker_codec reliable_io demo_host (demo_report generous_host) demo_clock
    demo_dispatcher (frame 5) demo_peer b.

Definition demo_answer : Response :=
  match demo_handle demo_broker with (Ret r, _) => r | _ => invalid_frame end.

#[local] Instance demo_gw_codec : @GwCodec int_number :=
  {| incoming_from_str := fun _ => None;
     outgoing_to_string := fun _ => None;
     value_to_text := fun _ => "";
     value_to_vec := fun v =>
       match value_get "op" v with Some (VString "system.info") => Some (frame 5) | _ => None end;
     response_from_slice := fun bytes =>
       if decide (bytes = bytes_of_string "ok") then Some demo_answer else None;
     system_info_to_value := fun _ => Some (VObject []);
     events_replay_to_value := fun _ => None;
     schema_validate := fun _ v => match v with VObject [] => Ok tt | _ => Err "closed" end;
     call_error_text := fun _ => "" |}.

Definition demo_gateway : Gateway := mkGateway (session_new (mkClient "broker.sock") TOKEN_A) [].

(** The agent is told the broker's result. *)
Lemma tool_call_reaches_the_broker_witness :
  let '(outcome, g') :=
    @call_tool int_number int_number_from demo_gw_codec
      (@broker_peer int_number int_number_from no_floats demo_gw_document demo_sha256 demo_wire
         demo_manifests demo_broker_codec reliable_io demo_host (demo_report generous_host) demo_clock
         demo_response_serde 0 demo_peer demo_config demo_dispatcher demo_broker)
      Empty_set SYSTEM_INFO (VObject []) demo_gateway in
  outcome = Ret (outcome_of expect_info (Ok demo_answer)) /\
  gw_sent g' = [framed (frame 5)] /\
  is_success demo_answer = true.
Proof.
  assert (Hrun : demo_handle demo_broker = (Ret demo_answer, snd (demo_handle demo_broker))).
  { vm_compute. reflexivity. }
  pose proof (@tool_call_reaches_the_broker int_number int_number_from no_floats demo_gw_document
    demo_sha256 demo_wire demo_manifests demo_broker_codec reliable_io demo_host
    (demo_report generous_host) demo_clock demo_response_serde demo_gw_codec 0 demo_peer demo_config
    demo_dispatcher demo_broker eq_refl eq_refl demo_gateway (VObject []) (frame 5) demo_answer
    (snd (demo_handle demo_broker)) (bytes_of_string "ok") eq_refl eq_refl) as Hcall.
  cbn beta zeta in Hcall.
  match type of Hcall with _ -> _ -> _ -> _ -> _ -> ?P => assert (Hp : P) end.
  { apply Hcall; [split; vm_compute; congruence|exact Hrun|vm_compute; reflexivity|
                  split; vm_compute; congruence|vm_compute; reflexivity]. }
  destruct (call_tool _ _ _) as [outcome g']. destruct Hp as [Ho Hs].
  split; [exact Ho|]. split; [exact Hs|]. vm_compute. reflexivity.
Defined.
