(* ===== verification/BrokerHost.v ===== *)
(** * What the broker knows of its host

    [broker/src/adapter.rs], [host.rs], [peercred.rs] and the line that
    [observability.rs] prints.  The adapter is the one [main.rs] installs, which
    resolves nothing.  Reading a file, [uname] and the two system calls are the
    interface [HostSys], asked anew at every call. *)

From S2P Require Import Prelude RustStd Json TxTypes Wire Jcs Policy Dispatch RustText.

(** ** adapter.rs *)

Definition unresolved_propose (changes : list ConfigFileChange) : AdapterProposeOutcome :=
  {| ao_diff := String.concat (String LF "") (map (fun c => ch_path c +:+ " => staged") changes);
     ao_test_plan := mkPlan "unresolved" ["noop-test"];
     ao_affected_resources := ["root_config"];
     ao_candidate_closure := None |}.

Definition unresolved_info : AdapterInfo := mkAdapterInfo "unresolved" false 1 None None.

Definition unresolved_safety_vector : SafetyVector :=
  {| sv_root_config := HsNone; sv_packages := HsNone; sv_bootloader := HsNone; sv_kernel := HsNone;
     sv_service_state := SsNone; sv_plugin_data := DsNone; sv_desktop_data := DsNone;
     sv_home_data := DsNone; sv_external_effects := EsNone; sv_recovery_requires := RrOobConsole |}.

Definition unresolved_base_revision : BaseRevision :=
  mkBase (Some "gen-1") "deadbeef" (from_sha256_bytes (repeat (byte_of 34) 32)).

(** [UnresolvedAdapter], as the engine sees it. *)
Definition UnresolvedAdapter : HostAdapter :=
  {| current_base_revision := fun _ => unresolved_base_revision;
     propose_config := fun _ changes => Ok (unresolved_propose changes) |}.

(** ** host.rs *)

(** The [k]-th reading of files at a call, the fields of [utsname] as C
    characters, the answer of the Landlock system call. *)
Class HostSys := {
  sys_read_to_string : nat -> nat -> string -> option string;
  sys_uname : nat -> option (list Z * list Z);
  sys_landlock_create_ruleset : nat -> Z;
}.

Definition UNKNOWN : string := "unknown".
Definition QUOTE : Ascii.ascii := Ascii.ascii_of_nat 34.

(** The characters before the first null; a negative one is no byte. *)
Fixpoint c_chars_bytes (field : list Z) : list byte :=
  match field with
  | [] => []
  | c :: field => if c =? 0 then [] else byte_of (if c <? 0 then 63 else c) :: c_chars_bytes field
  end.

Definition c_chars_to_string (field : list Z) : string :=
  let bytes := c_chars_bytes field in
  if utf8_ok bytes then string_of_bytes bytes else UNKNOWN.

(** [str::trim_matches] of one character *)
Fixpoint trim_start_char (c : Ascii.ascii) (l : list Ascii.ascii) : list Ascii.ascii :=
  match l with
  | d :: l' => if decide (c = d) then trim_start_char c l' else l
  | [] => []
  end.
Definition trim_matches_char (c : Ascii.ascii) (s : string) : string :=
  String.string_of_list_ascii
    (rev (trim_start_char c (rev (trim_start_char c (String.list_ascii_of_string s))))).

Fixpoint os_release_value (key : string) (ls : list string) : string :=
  match ls with
  | [] => UNKNOWN
  | line :: ls =>
      match split_once_str "=" line with
      | None => os_release_value key ls
      | Some (name, value) =>
          if decide (trim name = key) then trim_matches_char QUOTE (trim value)
          else os_release_value key ls
      end
  end.

Section Host.
Context `{!HostSys}.

Definition uname_fields (n : nat) : string * string :=
  match sys_uname n with
  | None => (UNKNOWN, UNKNOWN)
  | Some (release, machine) => (c_chars_to_string release, c_chars_to_string machine)
  end.

Definition read_trimmed (n k : nat) (path : string) : string :=
  match trim <$> sys_read_to_string n k path with
  | Some s => if decide (s = "") then UNKNOWN else s
  | None => UNKNOWN
  end.

Definition os_release_field (n k : nat) (key : string) : string :=
  match sys_read_to_string n k "/etc/os-release" with
  | Some contents => os_release_value key (lines contents)
  | None => UNKNOWN
  end.

Definition host_info (n : nat) : HostInfo :=
  let '(kernel_release, architecture) := uname_fields n in
  mkHostInfo (read_trimmed n 0 "/proc/sys/kernel/hostname") (os_release_field n 1 "ID")
             (os_release_field n 2 "VERSION_ID") kernel_release architecture.

(** [i32::try_from(rc)], when it is positive *)
Definition landlock_abi_version (n : nat) : option Z :=
  let rc := sys_landlock_create_ruleset n in
  if (- 2 ^ 31 <=? rc) && (rc <=? i32_max) && (0 <? rc) then Some rc else None.

(** What the dispatcher asks of the host that [main.rs] gives it. *)
Definition unresolved_report : HostReport :=
  {| hr_host_info := host_info;
     hr_info := fun _ => unresolved_info;
     hr_safety_vector := fun _ => unresolved_safety_vector;
     hr_safety_source := fun _ => UnresolvedAdapterSource;
     hr_landlock_abi_version := landlock_abi_version |}.
End Host.

(** ** peercred.rs *)

(** [getsockopt(SO_PEERCRED)]: its return code and what it filled in. *)
Definition peer_credentials (rc : Z) (cred : PeerCredentials) (last_os_error : string) :
    result string PeerCredentials :=
  if negb (rc =? 0) then Err last_os_error else Ok cred.

(** ** observability.rs *)

Definition bool_text (b : bool) : string := if b then "true" else "false".

(** The line [StderrObserver] prints. *)
Definition observation_line (r : CallObservation) : string :=
  "observation agent=" +:+ default "-" (ob_agent_id r) +:+
  " peer_uid=" +:+ format_decimal (pc_uid (ob_peer r)) +:+
  " op=" +:+ default "-" (ob_op r) +:+
  " allowed=" +:+ bool_text (ob_allowed r) +:+
  " stage=" +:+ match ob_stage r with Some s => format_decimal (ordinal s) | None => "-" end +:+
  " error=" +:+ match ob_error r with Some e => error_code_debug e | None => "-" end +:+
  " reason=" +:+ ob_reason r +:+
  " req=" +:+ default "-" (ob_request_id r).
