(* ===== verification/BrokerProcess.v ===== *)
(** * The broker's process

    [broker/src/main.rs], [signals.rs] and the parts of [server.rs] around the
    accept loop: the arguments, what is opened and in which order, the socket,
    and the way down.  The system calls are the interface [ProcessEnv]; the
    process keeps the ones it made, oldest first, and the time that passed. *)

From S2P Require Import Prelude RustStd Json TxTypes TxStorage TxEngine Wire Jcs Policy Quota.
From S2P Require Import Dispatch Frame Serve RustText BrokerHost.

(** ** The calls of the process *)

Inductive Signal := SIGTERM | SIGINT.

Inductive ProcAction :=
  | PSigEmptySet
  | PSigAddSet (signal : Signal)
  | PSigBlock
  | PPrint (text : string)
  | PSetMode (path : Path) (mode : Z)
  | PStat (path : Path)
  | PRemove (path : Path)
  | PBind (path : Path)
  | PNonblocking
  | PSpawnAccept
  | PJoinAccept.

Inductive StatError := StatNotFound | StatFailed (e : string).

(** Answers depend on how many calls were made before; [time_passed] is what
    passes between two looks at the clock beside the sleeps. *)
Class ProcessEnv := {
  proc_call : nat -> ProcAction -> result string unit;
  proc_stat_is_socket : nat -> Path -> result StatError bool;
  thread_finished : nat -> bool;
  time_passed : nat -> Z;
  sigwait : nat -> Z;
  path_of : string -> Path;
  path_display : Path -> string;
}.

(** [Instant] never goes back. *)
Class ProcessEnvLaws `{ProcessEnv} : Prop := { time_passed_positive n : 0 <= time_passed n }.

Record ProcW := mkProc {
  pr_world : TxWorld;
  pr_did : list ProcAction;
  pr_now : Z;
  pr_asks : nat;
}.

Abbreviation Proc := (M ProcW string).

Definition on_world {E A} : M TxWorld E A -> M ProcW E A :=
  zoom pr_world (fun w s => mkProc w (pr_did s) (pr_now s) (pr_asks s)).

Definition did (a : ProcAction) (s : ProcW) : ProcW :=
  mkProc (pr_world s) (pr_did s ++ [a]) (pr_now s) (pr_asks s).

Section Calls.
Context `{!ProcessEnv}.

Definition sys (a : ProcAction) : Proc unit := fun s =>
  (match proc_call (length (pr_did s)) a with Ok _ => Ret tt | Err e => Throw e end, did a s).

Definition sys_stat (path : Path) : Proc (result StatError bool) := fun s =>
  (Ret (proc_stat_is_socket (length (pr_did s)) path), did (PStat path) s).

Definition instant_now {E} : M ProcW E Z := fun s =>
  let now := pr_now s + time_passed (pr_asks s) in
  (Ret now, mkProc (pr_world s) (pr_did s) now (S (pr_asks s))).

Definition is_finished {E} : M ProcW E bool := fun s =>
  (Ret (thread_finished (pr_asks s)), mkProc (pr_world s) (pr_did s) (pr_now s) (S (pr_asks s))).

Definition sleep {E} (d : Duration) : M ProcW E unit := fun s =>
  (Ret tt, mkProc (pr_world s) (pr_did s) (pr_now s + d) (pr_asks s)).

(** ** signals.rs *)

Definition block_termination_signals : Proc unit :=
  mapping_err (fun _ => "sigemptyset failed") (sys PSigEmptySet);;
  mfor (fun signal => mapping_err (fun _ => "sigaddset failed") (sys (PSigAddSet signal)))
       [SIGTERM; SIGINT];;
  mapping_err (fun _ => "pthread_sigmask failed") (sys PSigBlock).

Definition EINTR : Z := 4.

Inductive Waited := Terminated | ParkedForever | StillWaiting.

(** [wait_for_termination], over its first [fuel] calls of [sigwait]. *)
Fixpoint wait_for_termination (fuel n : nat) : Waited :=
  match fuel with
  | O => StillWaiting
  | S fuel =>
      let rc := sigwait n in
      if rc =? 0 then Terminated
      else if negb (rc =? EINTR) then ParkedForever
      else wait_for_termination fuel (S n)
  end.

(** ** server.rs: the socket *)

Definition ACCEPT_POLL : Duration := 5000000.

Definition remove_stale_socket (path : Path) : Proc unit :=
  meta ← sys_stat path;
  match meta with
  | Ok true => sys (PRemove path)
  | Ok false => throw "refusing to replace a non-socket at the socket path"
  | Err StatNotFound => mret tt
  | Err (StatFailed e) => throw e
  end.

Record Server := mkServerHandle {
  sr_socket_path : Path;
  sr_shutdown : bool;
  sr_accept_thread : bool;
}.

Definition MODE_0700 : Z := 448.
Definition MODE_0600 : Z := 384.

(** [Server::start] *)
Definition server_start `{!IoEnv} (config : BrokerConfig) : Proc Server :=
  let socket_path := bc_socket_path config in
  match path_parent socket_path with
  | Some parent => on_world (create_dir_all parent);; sys (PSetMode parent MODE_0700)
  | None => mret tt
  end;;
  remove_stale_socket socket_path;;
  sys (PBind socket_path);;
  sys (PSetMode socket_path MODE_0600);;
  sys PNonblocking;;
  sys PSpawnAccept;;
  mret (mkServerHandle socket_path false true).

(** The polls of [Server::shutdown]; [false] when the fuel ended first. *)
Fixpoint wait_finished {E} (fuel : nat) (deadline : option Z) : M ProcW E bool :=
  match fuel with
  | O => mret false
  | S fuel =>
      finished ← is_finished;
      if finished : bool then mret true else
      late ← match deadline with
             | Some d => now ← instant_now; mret (d <=? now)
             | None => mret false
             end;
      if late : bool then mret true
      else sleep ACCEPT_POLL;; wait_finished fuel deadline
  end.

Definition shutdown_polls (within : Duration) : nat := S (S (Z.to_nat (within / ACCEPT_POLL))).

(** [Server::shutdown]: the server it leaves, and whether it returned. *)
Definition server_shutdown (server : Server) (within : Duration) : M ProcW Never (Server * bool) :=
  returned ←
    (if sr_accept_thread server then
       now ← instant_now;
       returned ← wait_finished (shutdown_polls within) (SystemTime_checked_add now within);
       finished ← is_finished;
       (if finished : bool then _ ← attempt (sys PJoinAccept); mret tt else mret tt);;
       mret returned
     else mret true);
  _ ← attempt (sys (PRemove (sr_socket_path server)));
  mret (mkServerHandle (sr_socket_path server) true false, returned).

(** ** main.rs *)

Definition NEWLINE : string := String LF "".
Definition USAGE : string :=
  "usage: agentbed-broker --tokens <file> --manifests <dir> [--socket <path>] [--allow-peer-uid <uid>]".
Definition and_usage (message : string) : string := message +:+ NEWLINE +:+ NEWLINE +:+ USAGE.

Definition next_value (args : list string) (flag : string) : result string (string * list string) :=
  match args with
  | [] => Err (flag +:+ " requires a value")
  | v :: args => Ok (v, args)
  end.

Definition set_socket_path (p : Path) (c : BrokerConfig) : BrokerConfig :=
  mkConfig p (bc_token_store_path c) (bc_manifest_dir c) (bc_state_dir c) (bc_allowed_peer_uids c)
    (bc_max_connections c) (bc_max_requests_per_connection c) (bc_read_timeout c) (bc_write_timeout c).
Definition set_token_store_path (p : Path) (c : BrokerConfig) : BrokerConfig :=
  mkConfig (bc_socket_path c) (Some p) (bc_manifest_dir c) (bc_state_dir c) (bc_allowed_peer_uids c)
    (bc_max_connections c) (bc_max_requests_per_connection c) (bc_read_timeout c) (bc_write_timeout c).
Definition set_manifest_dir (p : Path) (c : BrokerConfig) : BrokerConfig :=
  mkConfig (bc_socket_path c) (bc_token_store_path c) (Some p) (bc_state_dir c) (bc_allowed_peer_uids c)
    (bc_max_connections c) (bc_max_requests_per_connection c) (bc_read_timeout c) (bc_write_timeout c).
Definition push_peer_uid (uid : Z) (c : BrokerConfig) : BrokerConfig :=
  mkConfig (bc_socket_path c) (bc_token_store_path c) (bc_manifest_dir c) (bc_state_dir c)
    (bc_allowed_peer_uids c ++ [uid]) (bc_max_connections c) (bc_max_requests_per_connection c)
    (bc_read_timeout c) (bc_write_timeout c).

(** The loop over the arguments; [None] when help was asked for. *)
Fixpoint parse_args (fuel : nat) (args : list string) (config : BrokerConfig) :
    result string (option BrokerConfig) :=
  match fuel, args with
  | S fuel, arg :: args =>
      if decide (arg = "--socket") then
        '(v, args) ← next_value args arg; parse_args fuel args (set_socket_path (path_of v) config)
      else if decide (arg = "--tokens") then
        '(v, args) ← next_value args arg; parse_args fuel args (set_token_store_path (path_of v) config)
      else if decide (arg = "--manifests") then
        '(v, args) ← next_value args arg; parse_args fuel args (set_manifest_dir (path_of v) config)
      else if decide (arg = "--allow-peer-uid") then
        '(raw, args) ← next_value args arg;
        uid ← ok_or (parse_u32 raw) ("invalid uid: " +:+ raw);
        parse_args fuel args (push_peer_uid uid config)
      else if decide (arg = "--help") then Ok None
      else if decide (arg = "-h") then Ok None
      else Err (and_usage ("unknown argument: " +:+ arg))
  | _, _ => Ok (Some config)
  end.

(** [TokenStore::load] *)
Definition token_store_load `{!IoEnv, !TokenCodec} (path : Path) : Proc TokenStore :=
  raw ← mapping_err (fun e => "cannot read token store " +:+ path_display path +:+ ": " +:+ e)
          (on_world (fs_read_to_string path));
  of_result (from_json (string_of_bytes raw)).

(** [TokenStore::is_empty] *)
Definition store_is_empty (store : TokenStore) : bool := bool_decide (by_hash store = ∅).

Definition STATE_DIR : Path := ["var"; "lib"; "agentbed"; "broker"; "state"].

(** What runs once the broker listens. *)
Record Running := mkRunning {
  rn_config : BrokerConfig;
  rn_dispatcher : Dispatcher;
  rn_engine : TransactionEngine;
  rn_server : Server;
}.

Context `{JsonNumber, !BrokerCodec, !IoEnv, !HostAdapter, !TokenCodec}.

(** [Dispatcher::new]: an engine that does not open is a panic. *)
Definition dispatcher_new (tokens : TokenStore) (manifests : ManifestStore) (state_dir : Path) :
    Proc (Dispatcher * TransactionEngine) :=
  opened ← attempt (on_world (open_owned state_dir));
  match opened with
  | Ok engine => mret (mkDispatcher tokens manifests, engine)
  | Err _ => panic
  end.

(** [run], up to the wait. *)
Definition broker_start (args : list string) : Proc (option Running) :=
  block_termination_signals;;
  parsed ← of_result (parse_args (length args) args config_default);
  match parsed with
  | None => sys (PPrint USAGE);; mret None
  | Some config =>
      token_path ← of_result (ok_or (bc_token_store_path config) (and_usage "--tokens is required"));
      tokens ← token_store_load token_path;
      throw_if (store_is_empty tokens) "token store is empty: no agent could authenticate";;
      manifest_dir ← of_result (ok_or (bc_manifest_dir config) (and_usage "--manifests is required"));
      let state_dir := default STATE_DIR (bc_state_dir config) in
      on_world (create_dir_all state_dir);;
      '(dispatcher, engine) ← dispatcher_new tokens (mkManifestStore manifest_dir) state_dir;
      server ← server_start config;
      mret (Some (mkRunning config dispatcher engine server))
  end.

(** The end of [run], once a signal came: shut down, and again when the
    server is dropped. *)
Definition broker_stop (r : Running) : M ProcW Never bool :=
  '(server, first) ← server_shutdown (rn_server r) (Duration_from_secs 5);
  '(_, second) ← server_shutdown server (Duration_from_secs 2);
  mret (first && second).
End Calls.
