(* ===== verification/ProcessTheorems.v ===== *)
(** * The broker's process: the theorems

    In which order the process takes its steps and what is there once it
    listens; that the broker as [main.rs] assembles it changes nothing; and
    that it comes down. *)

From S2P Require Import Prelude RustStd Json TxTypes TxStorage TxEngine Reading Wire Jcs Policy Quota.
From S2P Require Import TxDemo QuotaTheorems PolicyTheorems JcsTheorems DispatchDemo.
From S2P Require Import Dispatch DispatchFacts DispatchTheorems Frame Serve RustText BrokerHost BrokerProcess.

(** ** The broker of [main.rs] *)

Section Shipped.
Context `{JsonNumberFrom, !JsonFloat, !JsonDocument, !Sha256Hash, !WireSerde, !ManifestCodec,
          !BrokerCodec, !IoEnv, !HostSys, !Clock}.

#[local] Existing Instance UnresolvedAdapter.
#[local] Existing Instance unresolved_report.

(** The steps of the engine that leave it alone. *)
Definition engine_same (e e' : EngineW) : Prop :=
  ew_engine e' = ew_engine e /\ w_fs (ew_world e') = w_fs (ew_world e) /\
  w_calls (ew_world e') = w_calls (ew_world e).

Lemma wp_status_step digest params e : wp (status_step digest params) (fun _ e' => e' = e) e.
Proof.
  unfold status_step, tx_status, get_engine. wp_simpl. destruct (en_safe_mode _); [done|].
  destruct (ok_or _ _); by wp_simpl.
Qed.

Lemma wp_events_replay cursor e :
  wp (TxEngine.events_replay cursor) (fun _ e' => engine_same e e') e.
Proof.
  unfold TxEngine.events_replay, get_engine. rewrite wp_bind, wp_gets, wp_bind, wp_throw_if.
  destruct (en_safe_mode _); [done|]. cbn beta zeta. rewrite wp_bind.
  apply (wp_mono _ (fun _ e' => e' = e)).
  { destruct cursor as [raw|]; [case_bool_decide|]; wp_simpl; try done. by destruct (map_err _ _). }
  intros o e' ->. destruct o as [parsed|err|]; [|done|done].
  rewrite wp_bind, wp_mapping_err. unfold on_disk. rewrite wp_zoom.
  eapply wp_mono; [apply reads_replay|]. intros o w' [Hf Hc]. by destruct o; wp_simpl.
Qed.

Lemma wp_replay_step digest params e :
  wp (replay_step digest params) (fun _ e' => engine_same e e') e.
Proof.
  unfold replay_step. rewrite wp_bind. eapply wp_mono; [apply wp_events_replay|].
  intros o e' He. by destruct o as [[[log_id events] cursor]|err|].
Qed.

(** Nothing the adapter claims covers a change. *)
Lemma change_not_covered op m :
  op = OpConfigPropose \/ op = OpTxTest \/ op = OpTxApply \/ op = OpTxRollback ->
  ~ passes_first_four (call_of op) m unresolved_safety_vector.
Proof.
  intros Hop (_ & Hsafe & _)%passes_all_four. cbn [stage_passes] in Hsafe.
  destruct (Hsafe RootConfig EffD) as [Hpos _]; [|by left|cbn in Hpos; lia].
  destruct Hop as [->|[->|[->| ->]]]; by apply list_elem_of_singleton.
Qed.

Lemma attempt_post {S E F A} (P : S -> Prop) (m : M S E A) s r s' :
  wp m (fun _ s' => P s') s -> attempt (F:=F) m s = (Ret r, s') -> P s'.
Proof. unfold wp, attempt. destruct (m s) as [[] ?]; cbn; [| |done]; by intros Hp [= _ <-]. Qed.

(** A frame that was handled. *)
Definition handled (d : Dispatcher) (b b' : BrokerW) : Prop :=
  exists body peer resp, handle_frame d body peer b = (Ret resp, b').

Lemma shipped_frame d body peer b o b' :
  handle_frame d body peer b = (o, b') ->
  same_engine b b' /\
  forall resp request, o = Ret resp -> is_success resp = true -> parsed_request body = Some request ->
    rq_op request = OpSystemInfo \/ rq_op request = OpTxStatus \/ rq_op request = OpEventsReplay.
Proof.
  intros Hrun. pose proof (wp_run _ _ _ _ _ (wp_handle_frame d body peer b) Hrun) as Hpost.
  assert (Href : forall id v, refused_post id v b o b' -> same_engine b b' /\
    forall resp request, o = Ret resp -> is_success resp = true -> parsed_request body = Some request ->
      rq_op request = OpSystemInfo \/ rq_op request = OpTxStatus \/ rq_op request = OpEventsReplay).
  { intros id v (e & obs & -> & _ & _ & _ & Hs & _). split; [exact Hs|]. by intros resp request [= <-]. }
  unfold frame_post in Hpost. destruct (parsed_request body) as [request|]; [|by eapply Href].
  destruct Hpost as [Hr|(agent & m & digest & s1 & resp & Hac & -> & Hex)]; [by eapply Href|].
  destruct Hac as [_ _ _ _ _ [n Hn] _ Heng _]. pose proof (change_not_covered (rq_op request) m) as Hno.
  destruct Hex as (_ & _ & Hex). unfold engine_step in Hex.
  destruct (rq_op request) eqn:Hop; try (by exfalso; apply Hno; auto).
  - destruct Hex as [Hs _]. split; [done|]. intros resp' request' _ _ [= <-]. by left.
  - destruct Hex as (step & r & Hstep & Hstep' & _). destruct (tx_status_params _) as [p|]; [|done].
    injection Hstep as <-. split; [|intros resp' request' _ _ [= <-]; by auto].
    pose proof (attempt_post (fun e' => e' = bk_engine s1) _ _ _ _ (wp_status_step _ _ _) Hstep') as He.
    unfold same_engine. rewrite He. exact Heng.
  - destruct Hex as (step & r & Hstep & Hstep' & _). destruct (events_replay_params _) as [p|]; [|done].
    injection Hstep as <-. split; [|intros resp' request' _ _ [= <-]; by auto].
    etrans; [exact Heng|]. exact (attempt_post _ _ _ _ _ (wp_replay_step _ _ _) Hstep').
Qed.

(** C17: The broker as [main.rs] assembles it changes nothing.  Its adapter
    resolves nothing and claims no coverage, so however many frames are
    handled, from whatever peers and with whatever tokens and manifests, no
    file, no transaction and no event changes and the adapter is never asked
    to stage anything; the calls that succeed are those that read. *)
Theorem shipped_broker_only_reads d b b' :
  rtc (handled d) b b' ->
  same_engine b b' /\
  forall body peer resp b'' request,
    handle_frame d body peer b' = (Ret resp, b'') -> is_success resp = true ->
    parsed_request body = Some request ->
    rq_op request = OpSystemInfo \/ rq_op request = OpTxStatus \/ rq_op request = OpEventsReplay.
Proof.
  intros Hr. split.
  - induction Hr as [|b1 b2 b3 (body & peer & resp & Hh) _ IH]; [done|].
    etrans; [|exact IH]. by apply (shipped_frame _ _ _ _ _ _ Hh).
  - intros body peer resp b'' request Hh Hs Hp. by eapply (shipped_frame _ _ _ _ _ _ Hh).
Qed.
End Shipped.

(** ** Starting *)

Definition signal_actions : list ProcAction :=
  [PSigEmptySet; PSigAddSet SIGTERM; PSigAddSet SIGINT; PSigBlock].

(** What the socket takes, [there] telling whether one was left behind. *)
Definition socket_actions (path : Path) (there : bool) : list ProcAction :=
  match path_parent path with Some parent => [PSetMode parent MODE_0700] | None => [] end ++
  [PStat path] ++ (if there then [PRemove path] else []) ++
  [PBind path; PSetMode path MODE_0600; PNonblocking; PSpawnAccept].

Section Start.
Context `{JsonNumber, !BrokerCodec, !IoEnv, !HostAdapter, !TokenCodec, !ProcessEnv}.
Implicit Types (s : ProcW).

Lemma wp_sys a (Q : outcome string unit -> ProcW -> Prop) s :
  (forall e, Q (Throw e) (did a s)) -> Q (Ret tt) (did a s) -> wp (sys a) Q s.
Proof. intros Ht Hr. unfold wp, sys. cbn. by destruct (proc_call _ _). Qed.

Lemma wp_on_world {E A} (m : M TxWorld E A) (Q : outcome E A -> ProcW -> Prop) s :
  wp (on_world m) Q s <->
  wp m (fun o w => Q o (mkProc w (pr_did s) (pr_now s) (pr_asks s))) (pr_world s).
Proof. unfold on_world. by rewrite wp_zoom. Qed.

(** From [s], a run has done a beginning of [full], all of it when it answers. *)
Definition so_far {A} (s : ProcW) (full : list ProcAction) (o : outcome string A) (s' : ProcW) : Prop :=
  o <> Panic /\ exists l, pr_did s' = pr_did s ++ l /\ l `prefix_of` full /\
  (forall a, o = Ret a -> l = full).

Lemma so_far_then {A B} (m : Proc A) (f : A -> Proc B) full1 full2 s :
  wp m (so_far s full1) s ->
  (forall a s1, pr_did s1 = pr_did s ++ full1 -> wp (f a) (so_far s1 full2) s1) ->
  wp (m ≫= f) (so_far s (full1 ++ full2)) s.
Proof.
  intros Hm Hf. rewrite wp_bind. eapply wp_mono; [exact Hm|]. intros o s1 (Hp & l & Hl & Hpre & Hall).
  destruct o as [a|e|]; [|split; [done|]; exists l; split_and!; [done|by apply prefix_app_r|done]|done].
  rewrite (Hall a eq_refl) in Hl.
  eapply wp_mono; [by apply Hf|]. intros o s2 (Hp2 & l2 & Hl2 & Hpre2 & Hall2). split; [done|].
  exists (full1 ++ l2). split_and!.
  - by rewrite Hl2, Hl, app_assoc.
  - by apply prefix_app.
  - intros b Hb. by rewrite (Hall2 b Hb).
Qed.

Lemma so_far_bind {A B} (m : Proc A) (f : A -> Proc B) full1 full2 s :
  wp m (so_far s full1) s -> (forall a s1, wp (f a) (so_far s1 full2) s1) ->
  wp (m ≫= f) (so_far s (full1 ++ full2)) s.
Proof. intros Hm Hf. apply so_far_then; auto. Qed.

Lemma so_far_sys a s : wp (sys a) (so_far s [a]) s.
Proof. apply wp_sys; [intros e|]; (split; [done|]; exists [a]; by split_and!). Qed.

Lemma so_far_ret {A} (a : A) s : wp (mret (M:=Proc) a) (so_far s []) s.
Proof. split; [done|]. exists []. split_and!; [by rewrite app_nil_r|done|done]. Qed.

Lemma so_far_mapping {A} (f : string -> string) (m : Proc A) full s :
  wp m (so_far s full) s -> wp (mapping_err f m) (so_far s full) s.
Proof.
  intros Hm. rewrite wp_mapping_err. eapply wp_mono; [exact Hm|].
  intros [a|e|] s1 (Hp & l & Hl & Hpre & Hall); [|split; [done|]; exists l; by split_and!|done].
  split; [done|]. exists l. split_and!; [done|done|]. intros b [= <-]. by apply (Hall a).
Qed.

Lemma so_far_world {A} (m : M TxWorld string A) s : calm m -> wp (on_world m) (so_far s []) s.
Proof.
  intros Hm. rewrite wp_on_world. unfold wp. specialize (Hm (pr_world s)). split; [exact Hm|].
  exists []. cbn. split_and!; [by rewrite app_nil_r|done|done].
Qed.

Lemma signals_in_order s : wp block_termination_signals (so_far s signal_actions) s.
Proof.
  unfold block_termination_signals.
  apply (so_far_bind _ _ [PSigEmptySet] [PSigAddSet SIGTERM; PSigAddSet SIGINT; PSigBlock]);
    [apply so_far_mapping, so_far_sys|intros ? s1].
  apply (so_far_bind _ _ [PSigAddSet SIGTERM; PSigAddSet SIGINT] [PSigBlock]);
    [|intros ? s2; apply so_far_mapping, so_far_sys].
  cbn [mfor]. apply (so_far_bind _ _ [PSigAddSet SIGTERM] [PSigAddSet SIGINT]);
    [apply so_far_mapping, so_far_sys|intros ? s2].
  apply (so_far_bind _ _ [PSigAddSet SIGINT] []); [|intros ? s3; apply so_far_ret].
  apply (so_far_bind _ _ [PSigAddSet SIGINT] []); [apply so_far_mapping, so_far_sys|intros ? s3].
  apply (so_far_bind _ _ [] []); [apply so_far_ret|intros ? s4; apply so_far_ret].
Qed.

Lemma stale_in_order path s :
  let there := match proc_stat_is_socket (length (pr_did s)) path with Ok b => b | Err _ => false end in
  wp (remove_stale_socket path) (so_far s (PStat path :: if there then [PRemove path] else [])) s.
Proof.
  unfold remove_stale_socket. rewrite wp_bind. unfold wp at 1. unfold sys_stat. cbn [fst snd].
  destruct (proc_stat_is_socket _ _) as [[]|[|e]].
  - apply wp_sys; [intros e|]; (split; [done|]; exists [PStat path; PRemove path];
      split_and!; first [done|cbn; by rewrite <-app_assoc]).
  - rewrite wp_throw. split; [done|]. exists [PStat path]. by split_and!.
  - rewrite wp_ret. split; [done|]. exists [PStat path]. by split_and!.
  - rewrite wp_throw. split; [done|]. exists [PStat path]. by split_and!.
Qed.

Lemma server_in_order config s :
  exists there,
    (there = true -> exists n, proc_stat_is_socket n (bc_socket_path config) = Ok true) /\
    wp (server_start config) (so_far s (socket_actions (bc_socket_path config) there)) s.
Proof.
  set (path := bc_socket_path config).
  set (before := match path_parent path with Some parent => [PSetMode parent MODE_0700] | None => [] end).
  set (n := length (pr_did s ++ before)).
  exists (match proc_stat_is_socket n path with Ok b => b | Err _ => false end). split.
  { intros Ht. exists n. by destruct (proc_stat_is_socket n path) as [[]|]. }
  unfold server_start, socket_actions. fold path. fold before. apply so_far_then.
  { unfold before. destruct (path_parent path) as [parent|]; [|apply so_far_ret].
    apply (so_far_bind _ _ [] [_]); [apply so_far_world, calm_io_call|intros ? s1; apply so_far_sys]. }
  intros _ s1 Hs1.
  rewrite app_assoc. apply (so_far_bind _ _ (PStat path :: _) [_; _; _; _]).
  { unfold n. rewrite <-Hs1. apply stale_in_order. }
  intros _ s2.
  apply (so_far_bind _ _ [_] [_; _; _]); [apply so_far_sys|intros _ s3].
  apply (so_far_bind _ _ [_] [_; _]); [apply so_far_sys|intros _ s4].
  apply (so_far_bind _ _ [_] [_]); [apply so_far_sys|intros _ s5].
  apply (so_far_bind _ _ [_] []); [apply so_far_sys|intros _ s6; apply so_far_ret].
Qed.

Lemma wp_world_calm {E A} (m : M TxWorld E A) (Q : outcome E A -> ProcW -> Prop) s :
  calm m ->
  (forall o w', m (pr_world s) = (o, w') -> o <> Panic ->
     Q o (mkProc w' (pr_did s) (pr_now s) (pr_asks s))) -> wp (on_world m) Q s.
Proof.
  intros Hm HQ. rewrite wp_on_world. unfold wp. specialize (Hm (pr_world s)).
  destruct (m (pr_world s)) as [o w']. by apply HQ.
Qed.

(** What has to be there before the socket is touched. *)
Definition prepared (config : BrokerConfig) (d : Dispatcher) (engine : TransactionEngine) : Prop :=
  (exists token_path raw, bc_token_store_path config = Some token_path /\
     from_json (string_of_bytes raw) = Ok (dp_tokens d) /\ by_hash (dp_tokens d) <> ∅) /\
  bc_manifest_dir config = Some (mst_dir (dp_manifests d)) /\
  exists w w', open_owned (default STATE_DIR (bc_state_dir config)) w = (Ret engine, w').

(** Where a start that never came to the socket stands. *)
Definition stopped_early (args : list string) (o : outcome string (option Running)) s : Prop :=
  pr_did s `prefix_of` signal_actions ++ [PPrint USAGE] /\
  match o with
  | Ret None => parse_args (length args) args config_default = Ok None /\
                pr_did s = signal_actions ++ [PPrint USAGE]
  | Ret (Some _) => False
  | Throw _ => True
  | Panic => exists state_dir w r w', open_owned state_dir w = (r, w') /\ forall engine, r <> Ret engine
  end.

Definition reached_socket (args : list string) (o : outcome string (option Running)) s : Prop :=
  exists config d engine there,
    parse_args (length args) args config_default = Ok (Some config) /\ prepared config d engine /\
    (there = true -> exists n, proc_stat_is_socket n (bc_socket_path config) = Ok true) /\
    let all := signal_actions ++ socket_actions (bc_socket_path config) there in
    pr_did s `prefix_of` all /\
    match o with
    | Ret r => pr_did s = all /\
               r = Some (mkRunning config d engine (mkServerHandle (bc_socket_path config) false true))
    | Throw _ => True
    | Panic => False
    end.

Lemma server_start_handle config s :
  wp (server_start config) (fun o _ => forall sv, o = Ret sv ->
    sv = mkServerHandle (bc_socket_path config) false true) s.
Proof.
  unfold server_start. do 6 (apply wp_returns; intros ? ?). by intros sv [= <-].
Qed.

Lemma started_by_order args s :
  pr_did s = [] -> wp (broker_start args) (fun o s' => stopped_early args o s' \/ reached_socket args o s') s.
Proof.
  intros Hs. unfold broker_start. rewrite wp_bind.
  eapply wp_mono; [apply signals_in_order|]. intros o s1 (Hp & l & Hl & Hpre & Hall). rewrite Hs in Hl. cbn in Hl.
  destruct o as [[]|e|]; [|left; split; [rewrite Hl; by apply prefix_app_r|done]|done].
  rewrite (Hall tt eq_refl) in Hl. clear Hp Hpre Hall.
  assert (Hstop : forall e s2, pr_did s2 = signal_actions ->
    stopped_early args (Throw e) s2 \/ reached_socket args (Throw e) s2).
  { intros e s2 Hd2. left. split; [rewrite Hd2; by apply prefix_app_r|done]. }
  rewrite wp_bind, wp_of_result. destruct (parse_args _ _ _) as [[config|]|e] eqn:Hargs; [| |by apply Hstop].
  2: { rewrite wp_bind. apply wp_sys; [intros e|]; left; unfold stopped_early; cbn; rewrite Hl; by split_and!. }
  rewrite wp_bind, wp_of_result. destruct (bc_token_store_path config) as [token_path|] eqn:Htp; [|by apply Hstop].
  cbn [ok_or]. rewrite wp_bind. unfold token_store_load. rewrite wp_bind, wp_mapping_err.
  apply wp_world_calm; [apply calm_io_call|]. intros o w1 _ Ho. destruct o as [raw|e|]; [|by apply Hstop|done].
  rewrite wp_of_result. destruct (from_json _) as [tokens|e] eqn:Hj; [|by apply Hstop].
  rewrite wp_bind, wp_throw_if. unfold store_is_empty. case_bool_decide as Hemp; [by apply Hstop|].
  rewrite wp_bind, wp_of_result. destruct (bc_manifest_dir config) as [manifest_dir|] eqn:Hmd; [|by apply Hstop].
  cbn [ok_or]. rewrite wp_bind. apply wp_world_calm; [apply calm_io_call|].
  intros o w2 _ Ho2. destruct o as [u|e|]; [|by apply Hstop|done].
  rewrite wp_bind. unfold dispatcher_new. rewrite wp_bind, wp_attempt, wp_on_world. unfold wp at 1.
  destruct (open_owned _ _) as [o w3] eqn:Hopen. cbn [fst snd].
  assert (Hpanic : (forall engine, o <> Ret engine) -> forall s2, pr_did s2 = signal_actions ->
    stopped_early args Panic s2 \/ reached_socket args Panic s2).
  { intros Hne s2 Hd2. left. split; [rewrite Hd2; by apply prefix_app_r|]. by eexists _, _, _, _. }
  destruct o as [engine|e|]; [|by apply Hpanic|by apply Hpanic].
  rewrite wp_ret, wp_bind.
  set (s2 := mkProc w3 _ _ _). destruct (server_in_order config s2) as (there & Hthere & Hserver).
  pose proof (server_start_handle config s2) as Hhandle. unfold wp in Hserver, Hhandle. unfold wp at 1.
  destruct (server_start config s2) as [o s3]. cbn [fst snd] in *.
  destruct Hserver as (Hp & l' & Hl' & Hpre & Hall). cbn in Hl'. rewrite Hl in Hl'.
  assert (Hprep : prepared config (mkDispatcher tokens (mkManifestStore manifest_dir)) engine).
  { split; [by exists token_path, raw|]. split; [done|]. by eexists _, _. }
  assert (Hat : pr_did s3 `prefix_of` signal_actions ++ socket_actions (bc_socket_path config) there).
  { rewrite Hl'. by apply prefix_app. }
  destruct o as [server|e|]; [rewrite wp_ret| |done]; right;
    exists config, (mkDispatcher tokens (mkManifestStore manifest_dir)), engine, there;
    cbn zeta; split_and!; try done.
  - by rewrite Hl', (Hall server eq_refl).
  - by rewrite (Hhandle server eq_refl).
Qed.

(** ** What has happened before what *)

(** Wherever [b] was done, [a] had been done before. *)
Definition guards (a b : ProcAction) (l : list ProcAction) : Prop :=
  forall l1 l2, l = l1 ++ b :: l2 -> a ∈ l1.

Lemma guards_prefix a b l l' : l `prefix_of` l' -> guards a b l' -> guards a b l.
Proof. intros [k ->] Hg l1 l2 ->. apply (Hg l1 (l2 ++ k)). by rewrite <-app_assoc. Qed.

Lemma guards_intro a b l1 l2 : a <> b -> b ∉ l1 -> guards a b (l1 ++ a :: l2).
Proof.
  intros Hab. induction l1 as [|x l1 IH]; intros Hb [|y m1] m2 Heq; cbn in Heq; simplify_eq; try by left.
  - by apply not_elem_of_cons in Hb as [? _].
  - apply not_elem_of_cons in Hb as [_ Hb]. right. by apply (IH Hb m1 m2).
Qed.

Ltac no_such := intros Hin; cbn in Hin; repeat (apply elem_of_cons in Hin as [Hin|Hin]; [discriminate Hin|]);
  by apply not_elem_of_nil in Hin.

(** What the whole start does, as far as the socket goes. *)
Record well_ordered (path : Path) (did : list ProcAction) : Prop := {
  wo_signals : signal_actions `prefix_of` did \/ did `prefix_of` signal_actions;
  wo_directory parent : path_parent path = Some parent -> guards (PSetMode parent MODE_0700) (PBind path) did;
  wo_look : guards (PStat path) (PBind path) did;
  wo_bound : guards (PBind path) PSpawnAccept did;
  wo_mode : guards (PSetMode path MODE_0600) PSpawnAccept did;
  wo_nonblocking : guards PNonblocking PSpawnAccept did;
}.

Lemma socket_well_ordered path there :
  well_ordered path (signal_actions ++ socket_actions path there).
Proof.
  unfold socket_actions. split; [left; by eexists|..].
  - intros parent ->. apply guards_intro; [done|no_such].
  - destruct (path_parent path) as [parent|].
    + apply (guards_intro _ _ (signal_actions ++ [_]) _); [done|no_such].
    + apply (guards_intro _ _ signal_actions _); [done|no_such].
  - destruct (path_parent path) as [parent|], there.
    + apply (guards_intro _ _ (signal_actions ++ [_; _; _]) _); [done|no_such].
    + apply (guards_intro _ _ (signal_actions ++ [_; _]) _); [done|no_such].
    + apply (guards_intro _ _ (signal_actions ++ [_; _]) _); [done|no_such].
    + apply (guards_intro _ _ (signal_actions ++ [_]) _); [done|no_such].
  - destruct (path_parent path) as [parent|], there.
    + apply (guards_intro _ _ (signal_actions ++ [_; _; _; _]) _); [done|no_such].
    + apply (guards_intro _ _ (signal_actions ++ [_; _; _]) _); [done|no_such].
    + apply (guards_intro _ _ (signal_actions ++ [_; _; _]) _); [done|no_such].
    + apply (guards_intro _ _ (signal_actions ++ [_; _]) _); [done|no_such].
  - destruct (path_parent path) as [parent|], there.
    + apply (guards_intro _ _ (signal_actions ++ [_; _; _; _; _]) _); [done|no_such].
    + apply (guards_intro _ _ (signal_actions ++ [_; _; _; _]) _); [done|no_such].
    + apply (guards_intro _ _ (signal_actions ++ [_; _; _; _]) _); [done|no_such].
    + apply (guards_intro _ _ (signal_actions ++ [_; _; _]) _); [done|no_such].
Qed.

Lemma well_ordered_prefix path l l' : l `prefix_of` l' -> well_ordered path l' -> well_ordered path l.
Proof.
  intros Hl [Hs Hd Hk Hb Hm Hn].
  split; [|intros; eapply guards_prefix; [exact Hl|]; auto..].
  destruct Hs as [Hs|Hs]; [|right; by etrans]. by eapply prefix_weak_total.
Qed.

(** An action on the socket, or on its directory. *)
Definition on_socket (a : ProcAction) : bool :=
  match a with
  | PSetMode _ _ | PStat _ | PRemove _ | PBind _ | PNonblocking | PSpawnAccept => true
  | _ => false
  end.

Lemma removed_at path there p :
  PRemove p ∈ signal_actions ++ socket_actions path there -> p = path /\ there = true.
Proof.
  unfold socket_actions. intros Hin. destruct (path_parent path), there; cbn in Hin;
    repeat (apply elem_of_cons in Hin as [Hin|Hin]; [try discriminate Hin; by injection Hin as ->|]);
    by apply not_elem_of_nil in Hin.
Qed.

(** Bound before its mode is set: until then only the mode of the directory
    keeps others out. *)
Lemma bound_before_closed path there :
  guards (PBind path) (PSetMode path MODE_0600) (signal_actions ++ socket_actions path there) \/
  path_parent path = Some path.
Proof.
  unfold socket_actions. destruct (path_parent path) as [parent|] eqn:Hp; [|left].
  - destruct (decide (parent = path)) as [->|Hne]; [by right|left].
    assert (Hno : PSetMode path MODE_0600 <> PSetMode parent MODE_0700) by congruence.
    destruct there; [apply (guards_intro _ _ (signal_actions ++ [_; _; _]) _)
      |apply (guards_intro _ _ (signal_actions ++ [_; _]) _)]; try done;
      intros Hin; cbn in Hin;
      repeat (apply elem_of_cons in Hin as [Hin|Hin]; [discriminate Hin || by apply Hno|]);
      by apply not_elem_of_nil in Hin.
  - destruct there; [apply (guards_intro _ _ (signal_actions ++ [_; _]) _)
      |apply (guards_intro _ _ (signal_actions ++ [_]) _)]; done || no_such.
Qed.

End Start.

(** ** Coming down *)

Section Stop.
Context `{!ProcessEnv, !ProcessEnvLaws}.
Implicit Types (s : ProcW).

(** One poll. *)
Lemma wait_finished_poll {E} fuel d s :
  wait_finished (E:=E) (S fuel) (Some d) s =
  let now := pr_now s + time_passed (S (pr_asks s)) in
  if thread_finished (pr_asks s)
  then (Ret true, mkProc (pr_world s) (pr_did s) (pr_now s) (S (pr_asks s)))
  else if d <=? now
  then (Ret true, mkProc (pr_world s) (pr_did s) now (S (S (pr_asks s))))
  else wait_finished fuel (Some d)
         (mkProc (pr_world s) (pr_did s) (now + ACCEPT_POLL) (S (S (pr_asks s)))).
Proof.
  cbn [wait_finished]. unfold mbind, M_bind, is_finished, instant_now, sleep. cbn [pr_now pr_asks].
  destruct (thread_finished _); [done|]. cbn. by destruct (d <=? _).
Qed.

(** The polls end: every sleep brings the deadline nearer. *)
Lemma wait_finished_returns {E} fuel d s :
  d <= pr_now s + Z.of_nat fuel * ACCEPT_POLL ->
  exists s', wait_finished (E:=E) (S fuel) (Some d) s = (Ret true, s') /\ pr_did s' = pr_did s.
Proof.
  revert s. induction fuel as [|fuel IH]; intros s Hd; rewrite wait_finished_poll; cbn zeta;
    pose proof (time_passed_positive (S (pr_asks s))) as Hpos;
    (destruct (thread_finished _); [by eexists|]);
    (destruct (d <=? _) eqn:Hlate; bool_to_prop; [by eexists|]); [lia|].
  match goal with |- exists s', wait_finished _ _ ?s1 = _ /\ _ => destruct (IH s1) as (s' & Hrun & Hdid) end.
  { cbn [pr_now]. unfold ACCEPT_POLL in *. lia. }
  exists s'. by split.
Qed.

(** The thread is joined only when it was seen to have finished. *)
Definition joined (finished : bool) : list ProcAction := if finished then [PJoinAccept] else [].

Lemma attempt_sys {E} a s :
  exists r, attempt (F:=E) (sys a) s = (Ret r, did a s).
Proof. unfold attempt, sys. destruct (proc_call _ _); by eexists. Qed.

Lemma shutdown_without_thread server within s :
  sr_accept_thread server = false ->
  server_shutdown server within s =
    (Ret (mkServerHandle (sr_socket_path server) true false, true), did (PRemove (sr_socket_path server)) s).
Proof.
  intros Ht. unfold server_shutdown. rewrite Ht. unfold mbind, M_bind, mret, M_ret.
  destruct (attempt_sys (E:=Never) (PRemove (sr_socket_path server)) s) as [r Hr]. by rewrite Hr.
Qed.

Lemma shutdown_with_thread server within s :
  0 <= within -> sr_accept_thread server = true ->
  pr_now s + time_passed (pr_asks s) + within < 2 ^ 63 * NSEC ->
  exists s' finished,
    server_shutdown server within s = (Ret (mkServerHandle (sr_socket_path server) true false, true), s') /\
    pr_did s' = pr_did s ++ joined finished ++ [PRemove (sr_socket_path server)] /\
    (finished = true -> exists n, thread_finished n = true).
Proof.
  intros Hw Ht Hover. unfold server_shutdown. rewrite Ht. unfold mbind, M_bind.
  unfold instant_now at 1. cbn [fst snd]. unfold SystemTime_checked_add.
  rewrite (proj2 (Z.ltb_lt _ _)) by done.
  set (s1 := mkProc _ _ _ _). set (d := pr_now s + _ + within).
  destruct (wait_finished_returns (E:=Never) (S (Z.to_nat (within / ACCEPT_POLL))) d s1) as (s2 & Hwait & Hdid).
  { unfold d, s1. cbn [pr_now]. rewrite Nat2Z.inj_succ, Z2Nat.id by (apply Z.div_pos; [done|by vm_compute]).
    pose proof (Z.div_mod within ACCEPT_POLL) as Hdm. pose proof (Z.mod_pos_bound within ACCEPT_POLL) as Hb.
    unfold ACCEPT_POLL in *. lia. }
  unfold shutdown_polls. rewrite Hwait. unfold is_finished at 1. cbn [fst snd].
  destruct (thread_finished (pr_asks s2)) eqn:Hfin.
  - set (s3 := mkProc _ _ _ _).
    destruct (attempt_sys (E:=Never) PJoinAccept s3) as [r Hr]. rewrite Hr. cbn [mret M_ret].
    destruct (attempt_sys (E:=Never) (PRemove (sr_socket_path server)) (did PJoinAccept s3)) as [r' Hr'].
    unfold mret, M_ret. rewrite Hr'. exists (did (PRemove (sr_socket_path server)) (did PJoinAccept s3)), true.
    split_and!; [done| |by exists (pr_asks s2)]. cbn. rewrite Hdid. cbn. by rewrite <-app_assoc.
  - unfold mret, M_ret. set (s3 := mkProc _ _ _ _).
    destruct (attempt_sys (E:=Never) (PRemove (sr_socket_path server)) s3) as [r' Hr']. rewrite Hr'.
    exists (did (PRemove (sr_socket_path server)) s3), false. split_and!; [done| |done]. cbn. by rewrite Hdid.
Qed.

(** The broker comes down.  On a clock that does not go back the polls of
    the shutdown end within the time they are given, whether the accepting
    thread finishes or not; the thread is joined only when it was seen to have
    finished, so the wait for it cannot hang; and the socket's path is removed,
    once by the shutdown and once more when the server is dropped. *)
Theorem shutdown_returns r s :
  sr_accept_thread (rn_server r) = true ->
  pr_now s + time_passed (pr_asks s) + Duration_from_secs 5 < 2 ^ 63 * NSEC ->
  exists s' finished,
    broker_stop r s = (Ret true, s') /\
    pr_did s' = pr_did s ++ joined finished ++
      [PRemove (sr_socket_path (rn_server r)); PRemove (sr_socket_path (rn_server r))] /\
    (finished = true -> exists n, thread_finished n = true).
Proof.
  intros Ht Hover. unfold broker_stop.
  destruct (shutdown_with_thread (rn_server r) (Duration_from_secs 5) s) as (s1 & fin & Hrun & Hdid & Hfin);
    [by vm_compute|done|done|].
  exists (did (PRemove (sr_socket_path (rn_server r))) s1), fin. unfold mbind, M_bind. rewrite Hrun.
  rewrite shutdown_without_thread by done. cbn. split_and!; [done| |done].
  rewrite Hdid. by rewrite <-!app_assoc.
Qed.
End Stop.

(** ** A concrete process *)

Definition demo_host_sys : HostSys :=
  {| sys_read_to_string := fun _ _ _ => None; sys_uname := fun _ => None;
     sys_landlock_create_ruleset := fun _ => 4 |}.

(** A frame handled by the broker that [main.rs] assembles. *)
Definition shipped_handle (body : list byte) (b : BrokerW) : outcome Never Response * BrokerW :=
  @handle_frame int_number int_number_from no_floats demo_document demo_sha256 demo_wire
    demo_manifests demo_broker_codec reliable_io UnresolvedAdapter (@unresolved_report demo_host_sys)
    demo_clock demo_dispatcher body demo_peer b.

(** The proposal that a host with generations accepts is refused here. *)
Lemma shipped_broker_only_reads_witness :
  same_engine demo_broker (snd (shipped_handle (frame 0) demo_broker)) /\
  match fst (shipped_handle (frame 0) demo_broker) with
  | Ret r => answer_of r = (Some Denied, Some SafetyMinimum)
  | _ => False
  end.
Proof.
  split; [|vm_compute; reflexivity].
  apply (@shipped_broker_only_reads int_number int_number_from no_floats demo_document demo_sha256
           demo_wire demo_manifests demo_broker_codec reliable_io demo_host_sys demo_clock
           demo_dispatcher).
  apply rtc_once.
  assert (Hrun : exists resp, fst (shipped_handle (frame 0) demo_broker) = Ret resp).
  { eexists. vm_compute. reflexivity. }
  destruct Hrun as [resp Hresp]. exists (frame 0), demo_peer, resp.
  etrans; [apply surjective_pairing|]. f_equal. exact Hresp.
Defined.

(** A token file of one entry; a socket was left behind. *)
Definition demo_token_codec : TokenCodec :=
  {| token_file_from_str := fun _ =>
       Some [mkTokenEntry "agent" "agent.yaml" (hex (repeat (byte_of 7) 32)) false None] |}.

Definition demo_process : ProcessEnv :=
  {| proc_call := fun _ _ => Ok tt; proc_stat_is_socket := fun _ _ => Ok true;
     thread_finished := fun n => Nat.leb 7 n; time_passed := fun _ => 1; sigwait := fun _ => 0;
     path_of := fun s => [s]; path_display := fun _ => "" |}.

Lemma demo_process_laws : @ProcessEnvLaws demo_process.
Proof. constructor. intros n. vm_compute. discriminate. Qed.

Definition demo_args : list string := ["--tokens"; "tokens.json"; "--manifests"; "manifests"].

Definition demo_fresh : ProcW :=
  mkProc (mkWorld (mkFS {[ ["tokens.json"] := bytes_of_string "[]" ]} {[ [] ]}) 0 []) [] 0 0.

Definition demo_start : outcome string (option Running) * ProcW :=
  @broker_start demo_process int_number demo_broker_codec reliable_io demo_token_codec demo_args demo_fresh.


Definition demo_running : Running :=
  mkRunning config_default demo_dispatcher demo_idle_engine
    (mkServerHandle ["run"; "agentbed"; "broker.sock"] false true).

Lemma shutdown_returns_witness :
  exists s' finished,
    @broker_stop demo_process demo_running demo_fresh = (Ret true, s') /\
    pr_did s' = joined finished ++ [PRemove ["run"; "agentbed"; "broker.sock"];
                                    PRemove ["run"; "agentbed"; "broker.sock"]].
Proof.
  destruct (@shutdown_returns demo_process demo_process_laws demo_running demo_fresh eq_refl)
    as (s' & finished & Hrun & Hdid & _); [vm_compute; reflexivity|].
  exists s', finished. split; [exact Hrun|exact Hdid].
Defined.
