(* ===== verification/WdClient.v ===== *)
(** * The broker's client of the watchdog, and the watchdog's socket

    [broker/src/watchdog/client.rs] over [rpc/protocol.rs], composed with
    [serve_one] of the watchdog; [RpcServer::bind] and [peercred.rs].  The
    socket is the interface [WatchdogSocket]: whether it can be connected to,
    which writes go through, and what comes back for what was sent. *)

From S2P Require Import Prelude RustStd Json TxTypes TxStorage TxEngine Wire Jcs Policy Quota.
From S2P Require Import Dispatch DispatchFacts Frame Serve RustText BrokerHost BrokerProcess ProcessTheorems.
From S2P Require Import WdTypes WdLog WdProtocol WdProtocolFacts WdCore WdDemo.

(** ** client.rs *)

(** The texts of the code are those of these errors. *)
Inductive WatchdogClientError :=
  | ClientTransport
  | ClientBootstrap (e : RpcError).

Class WatchdogSocket := {
  wd_connect : option (list bool);
  wd_answers : list byte -> Stream;
}.

Section Client.
Context `{JsonNumber} `{!WireCodec} `{!WatchdogSocket}.

(** [WatchdogClient::bootstrap_session]: what it returns, and what it sent. *)
Definition bootstrap_session (bind : SessionBind) :
    result WatchdogClientError SessionEstablished * list byte :=
  match wd_connect with
  | None => (Err ClientTransport, [])
  | Some writes =>
      match encode_session_bind bind with
      | Err e => (Err (ClientBootstrap e), [])
      | Ok frame =>
          match stream_write_all frame (mkConn (mkStream [] "") [] writes true) with
          | (Ret _, c) =>
              (match fst (read_frame (wd_answers (cn_out c))) with
               | Ret established_frame =>
                   map_err ClientBootstrap (decode_session_established established_frame)
               | Throw e => Err (ClientBootstrap e)
               | Panic => Err ClientTransport
               end, cn_out c)
          | (_, c) => (Err ClientTransport, cn_out c)
          end
      end
  end.

Definition encode_authenticated_request (request : LocalRequest) (established : SessionEstablished)
    (counter : Z) : result WatchdogClientError (list byte) :=
  map_err ClientBootstrap (encode_request request established counter).
End Client.

(** ** rpc/server.rs and peercred.rs *)

Section Bind.
Context `{!ProcessEnv, !IoEnv}.

(** [fs::metadata], asked for the permissions that are overwritten. *)
Definition metadata (path : Path) : Proc unit := sys (PStat path).

(** [RpcServer::bind] *)
Definition rpc_server_bind (socket_path : Path) : Proc unit :=
  match path_parent socket_path with
  | Some parent =>
      on_world (create_dir_all parent);; metadata parent;; sys (PSetMode parent MODE_0700)
  | None => mret tt
  end;;
  _ ← attempt (sys (PRemove socket_path));
  sys (PBind socket_path);;
  metadata socket_path;;
  sys (PSetMode socket_path MODE_0600).
End Bind.

Record StreamPeerCred := mkStreamCred { spc_uid : Z; spc_gid : Z; spc_pid : Z }.

Definition peer_cred_from (c : StreamPeerCred) : PeerCred := mkCred (spc_uid c) (spc_gid c) (spc_pid c).

(** [peer_credentials]: [getsockopt]'s return code and what it filled in. *)
Definition stream_peer_credentials (rc : Z) (cred : StreamPeerCred) (last_os_error : string) :
    result string StreamPeerCred :=
  if negb (rc =? 0) then Err last_os_error else Ok cred.

Definition peer_credentials_for_stream (rc : Z) (cred : StreamPeerCred) (last_os_error : string) :
    result PeerCredError PeerCred :=
  map_err (fun _ => PeerCredUnavailable) (peer_cred_from <$> stream_peer_credentials rc cred last_os_error).

(** ** The socket of the watchdog *)

Section BindOrder.
Context `{!ProcessEnv, !IoEnv}.

(** The watchdog closes the directory before it binds, and the socket after;
    unlike the broker it removes whatever lies at the path. *)
Lemma rpc_socket_in_order parent name s :
  wp (rpc_server_bind (parent ++ [name]))
    (so_far s ([PStat parent; PSetMode parent MODE_0700] ++ [PRemove (parent ++ [name])] ++
               [PBind (parent ++ [name]); PStat (parent ++ [name]); PSetMode (parent ++ [name]) MODE_0600])) s.
Proof.
  unfold rpc_server_bind. rewrite path_parent_snoc. set (path := parent ++ [name]).
  apply so_far_bind; [|intros ? s1; apply so_far_bind; [|intros ? s2]].
  - apply (so_far_bind _ _ [] [_; _]); [apply so_far_world, calm_io_call|intros ? s1].
    apply (so_far_bind _ _ [_] [_]); [apply so_far_sys|intros ? s2; apply so_far_sys].
  - rewrite wp_attempt. apply wp_sys; [intros e|]; (split; [done|]; exists [PRemove path]; by split_and!).
  - apply (so_far_bind _ _ [_] [_; _]); [apply so_far_sys|intros ? s3].
    apply (so_far_bind _ _ [_] [_]); [apply so_far_sys|intros ? s4; apply so_far_sys].
Qed.
End BindOrder.

(** ** Client and server *)

(** What [serde] promises of the answer to a bind. *)
Class EstablishedLaws `{JsonNumber, !WireCodec} : Prop := {
  established_roundtrip e bs :
    is_u64 (se_epoch e) -> is_u64 (se_counter e) ->
    established_to_vec (mkControl PROTOCOL_VERSION e) = Some bs ->
    exists v, json_from_slice bs = Some v /\ versioned_object ["version"; "payload"] PROTOCOL_VERSION v /\
      established_from_value v = Ok (mkControl PROTOCOL_VERSION e);
}.

Section Agreement.
Context `{JsonNumber, !JsonNumberLaws, !WireCodec, !WireCodecLaws, !EstablishedLaws,
          !RecordCodec, !IoEnv, !Dependencies}.
Context (core : CoreW) (gone : string).

(** The watchdog on the other end: it serves one connection, on which it is
    sent what the client sends and then nothing. *)
Definition serve_client (sent : list byte) : outcome RpcError unit * ServeState :=
  serve_one (mkServe core (mkConn (mkStream sent gone) [] [] true)).

#[local] Instance watchdog_socket : WatchdogSocket := {|
  wd_connect := Some [];
  wd_answers sent := mkStream (cn_out (sv_conn (snd (serve_client sent)))) gone;
|}.

Lemma decode_encode_established e f :
  encode_session_established e = Ok f -> is_u64 (se_epoch e) -> is_u64 (se_counter e) ->
  decode_session_established f = Ok e.
Proof.
  unfold encode_session_established. rewrite encode_json_Ok. intros (p & Hp & Hf) He Hc.
  apply established_roundtrip in Hp as (v & Hj & Hv & Hfrom); [|done..].
  apply decode_frame_Ok in Hf. apply versioned_object_ok in Hv as [Hver Hkeys].
  unfold decode_session_established, decode_control, parse_json.
  rewrite Hf. run_ok. rewrite Hj. cbn [ok_or]. run_ok. rewrite Hver. run_ok.
  rewrite Hkeys. run_ok. rewrite Hfrom. done.
Qed.

Lemma encoded_read o f rest e :
  encode_json o = Ok f -> read_frame (mkStream (f ++ rest) e) = (Ret f, mkStream rest e).
Proof. rewrite encode_json_Ok. intros (p & _ & Hf). by eapply read_frame_written. Qed.

(** A session starts with its answer and no request behind it. *)
Lemma bind_starts_fresh cred bind s :
  wp (bind_with_stream_cred cred bind) (fun o _ => forall r, o = Ret r ->
    ss_established (fst r) = Some (snd r) /\ ss_last_counter (fst r) = 0 /\ se_counter (snd r) = 0) s.
Proof.
  unfold bind_with_stream_cred. do 3 (apply wp_returns; intros ? ?).
  rewrite wp_bind. unfold in_world. rewrite wp_zoom.
  eapply (wp_mono _ (fun o _ => forall r, o = Ret r -> ss_established (fst (fst r)) = Some (snd (fst r)) /\
    ss_last_counter (fst (fst r)) = 0 /\ se_counter (snd (fst r)) = 0)).
  { unfold try_bind_with_cred. do 4 (apply wp_returns; intros ? ?). by intros r [= <-]. }
  intros o w Hr. destruct o as [[[state est] binding]|e|]; [|done|done].
  specialize (Hr _ eq_refl). apply wp_returns. intros ? ?. by intros r [= <-].
Qed.

Lemma serve_client_bind cred bind frame core1 session est core2 est_frame :
  bind_ok bind -> encode_session_bind bind = Ok frame ->
  in_world (E:=RpcError) (dep_call CPeer peer_credentials) core = (Ret (Ok cred), core1) ->
  bind_with_stream_cred cred bind core1 = (Ret (session, est), core2) ->
  encode_session_established est = Ok est_frame ->
  exists conn, serve_client frame = (Throw (Transport gone), mkServe core2 conn) /\ cn_out conn = est_frame.
Proof.
  intros Hok Hbind Hpeer Hrun Hest. unfold serve_client, serve_one, mbind, M_bind, gets, throw_if.
  cbn [sv_conn cn_ready negb]. unfold mret, M_ret. unfold in_conn at 1. unfold in_stream at 1. unfold zoom at 1 2.
  cbn [sv_conn cn_in]. rewrite <-(app_nil_r frame). rewrite (encoded_read _ _ _ _ Hbind). cbn beta iota.
  rewrite (decode_encode_bind bind frame) by done. unfold of_result at 1. cbn beta iota.
  unfold in_core at 1. unfold zoom at 1. cbn [sv_core sv_conn]. rewrite Hpeer. cbn beta iota.
  unfold of_result at 1. cbn [map_err]. unfold in_core at 1. unfold zoom at 1. cbn [sv_core sv_conn].
  rewrite Hrun. cbn beta iota. rewrite Hest. unfold of_result at 1. cbn beta iota.
  unfold in_conn at 1. unfold zoom at 1. cbn [sv_core sv_conn]. unfold stream_write_all at 1.
  cbn [cn_write_ok cn_in cn_out cn_ready tl]. unfold in_conn at 1, in_stream at 1. unfold zoom at 1 2.
  cbn [sv_core sv_conn cn_in cn_out].
  unfold read_frame at 1. unfold mbind, M_bind, mapping_err. unfold read_exact at 1. cbn.
  eexists. by split.
Qed.

(** C36: Client and server agree on a session.  When the watchdog binds the
    session that the broker's client asks for, the client is told exactly what
    the watchdog holds, and the first request that it encodes for the session
    is one the session accepts, with the counter after its own.  The client
    gives the connection up with its answer: the watchdog, which serves one
    request a connection, waits for a request that does not come, and handles
    none. *)
Theorem bootstrap_agrees cred bind frame core1 session est core2 est_frame :
  bind_ok bind -> encode_session_bind bind = Ok frame ->
  in_world (E:=RpcError) (dep_call CPeer peer_credentials) core = (Ret (Ok cred), core1) ->
  bind_with_stream_cred cred bind core1 = (Ret (session, est), core2) ->
  encode_session_established est = Ok est_frame -> is_u64 (se_epoch est) ->
  bootstrap_session bind = (Ok est, frame) /\
  (exists conn, serve_client frame = (Throw (Transport gone), mkServe core2 conn)) /\
  forall request frame',
    encode_authenticated_request request est 1 = Ok frame' -> local_request_ok request ->
    binding_identity request = (se_host_id est, se_tx_id est, se_epoch est) ->
    decode_request frame' session = (Ret (mkAuthenticated request 1), advance_counter 1 session).
Proof.
  intros Hok Hbind Hpeer Hrun Hest Hepoch.
  destruct (serve_client_bind cred bind frame core1 session est core2 est_frame) as (conn & Hserve & Hout); [done..|].
  pose proof (wp_run _ _ _ _ _ (bind_starts_fresh cred bind core1) Hrun _ eq_refl) as (Hfirst & Hlast & Hcount).
  cbn [fst snd] in *. split_and!.
  - unfold bootstrap_session. cbn [wd_connect watchdog_socket]. rewrite Hbind.
    unfold stream_write_all. cbn [cn_write_ok cn_in cn_out cn_ready tl app wd_answers watchdog_socket].
    rewrite Hserve. cbn [snd sv_conn]. rewrite Hout. rewrite <-(app_nil_r est_frame).
    rewrite (encoded_read _ _ _ _ Hest). cbn [fst].
    rewrite (decode_encode_established est est_frame); [done|done|done|]. rewrite Hcount. by split; vm_compute.
  - by exists conn.
  - intros request frame' Henc Hreq Hident. unfold encode_authenticated_request in Henc.
    apply (decode_encode_request request est); try done.
    + revert Henc. destruct (encode_request request est 1); [by intros [= <-]|done].
    + by rewrite Hlast.
Qed.
End Agreement.

(** ** A concrete session *)

(** The documents of [WdDemo], with the one answer to a bind written only as
    itself. *)
Definition demo_session_wire : @WireCodec int_number :=
  {| json_from_slice := @json_from_slice _ demo_wire;
     request_to_vec := @request_to_vec _ demo_wire;
     request_from_value := @request_from_value _ demo_wire;
     response_to_vec := @response_to_vec _ demo_wire;
     response_from_value := @response_from_value _ demo_wire;
     bind_to_vec := @bind_to_vec _ demo_wire;
     bind_from_value := @bind_from_value _ demo_wire;
     established_to_vec := fun c =>
       if decide (ce_version c = PROTOCOL_VERSION /\ ce_payload c = demo_established)
       then Some (demo_document 3 0) else None;
     established_from_value := @established_from_value _ demo_wire |}.

Lemma demo_session_laws : @WireCodecLaws _ demo_session_wire.
Proof. destruct demo_wire_laws as [Hreq Hresp Hbind]. split; [exact Hreq|exact Hresp|exact Hbind]. Qed.

Lemma demo_established_laws : @EstablishedLaws _ demo_session_wire.
Proof.
  constructor. intros e bs _ _. cbn [established_to_vec demo_session_wire ce_version ce_payload].
  case_decide as Hd; [|done]. destruct Hd as [_ ->]. intros [= <-].
  exists (demo_value "payload" 0). split_and!; [reflexivity| |reflexivity].
  split; [|reflexivity]. eexists. split; [reflexivity|].
  by repeat constructor; cbn; apply bool_decide_eq_true; vm_compute.
Qed.

(** The watchdog before anybody bound. *)
Definition demo_core1 : CoreW :=
  snd (in_world (E:=RpcError) (dep_call CPeer peer_credentials) demo_opened).
Definition demo_bind_run : outcome RpcError (SessionState * SessionEstablished) * CoreW :=
  bind_with_stream_cred demo_cred demo_bind demo_core1.

Definition demo_established_frame : list byte :=
  match @encode_session_established int_number demo_session_wire demo_established with Ok f => f | Err _ => [] end.

Lemma bootstrap_agrees_witness :
  exists frame,
    @bootstrap_session int_number demo_session_wire
      (@watchdog_socket int_number demo_session_wire demo_codec reliable_io demo_env demo_opened "eof")
      demo_bind = (Ok demo_established, frame) /\
    exists conn,
      @serve_client int_number demo_session_wire demo_codec reliable_io demo_env demo_opened "eof" frame =
        (Throw (Transport "eof"), mkServe (snd demo_bind_run) conn).
Proof.
  assert (Hframe : exists frame, @encode_session_bind int_number demo_session_wire demo_bind = Ok frame).
  { eexists. vm_compute. reflexivity. }
  destruct Hframe as [frame Hframe]. exists frame.
  destruct (@bootstrap_agrees int_number int_number_laws demo_session_wire demo_session_laws
              demo_established_laws demo_codec reliable_io demo_env demo_opened "eof"
              demo_cred demo_bind frame demo_core1 demo_session demo_established (snd demo_bind_run)
              demo_established_frame) as (Hclient & Hserver & _).
  - split; vm_compute; [split; discriminate|]. split; discriminate.
  - exact Hframe.
  - vm_compute. reflexivity.
  - vm_compute. reflexivity.
  - vm_compute. reflexivity.
  - split; vm_compute; discriminate.
  - split; [exact Hclient|exact Hserver].
Defined.
