(* ===== verification/Schemas.v ===== *)
(** * The embedded schemas

    [schemas/src/lib.rs]: the schema of each kind, the validators compiled
    once and kept, and what a reference in a schema may lead to.  The text of
    an embedded file, [serde_json], [jsonschema] and the YAML reader are the
    interface [SchemaLib]. *)

From S2P Require Import Prelude RustStd Json TxTypes TxStorage TxEngine Jcs Policy.

Section Schemas.
Context `{JsonNumber}.

Class SchemaLib := {
  Validator : Type;
  include_str : string -> string;
  json_from_str : string -> result string Value;
  build : (string -> result string Value) -> Value -> result string Validator;
  iter_errors : Validator -> Value -> list (string * string);
  yaml_from_str : string -> result string Value;
}.

Context `{!SchemaLib}.

Record Embedded := mkEmbedded { eb_id : string; eb_source : string }.

Definition CAPABILITIES : Embedded :=
  mkEmbedded "https://agentbed.dev/schemas/capabilities.schema.json"
             (include_str "../capabilities.schema.json").
Definition SAFETY_VECTOR : Embedded :=
  mkEmbedded "https://agentbed.dev/schemas/safety-vector.schema.json"
             (include_str "../safety-vector.schema.json").

(** [SchemaKind::all] *)
Definition all_kinds : list SchemaKind :=
  [SkAgentManifest; SkSkillManifest; SkPluginManifest; SkDesktopManifest; SkApproval; SkLedgerRecord;
   SkSafetyVector; SkSystemInfoRequest; SkSystemInfoResponse; SkConfigProposeRequest;
   SkConfigProposeResponse; SkTxTestRequest; SkTxApplyRequest; SkTxRollbackRequest; SkTxStatusRequest;
   SkTxStepResponse; SkTxStatusResponse; SkEventsReplayRequest; SkEventsReplayResponse].

(** [SchemaKind::source] *)
Definition source (kind : SchemaKind) : string :=
  match kind with
  | SkAgentManifest => include_str "../manifest.agent.schema.json"
  | SkSkillManifest => include_str "../manifest.skill.schema.json"
  | SkPluginManifest => include_str "../manifest.plugin.schema.json"
  | SkDesktopManifest => include_str "../manifest.desktop.schema.json"
  | SkApproval => include_str "../approval.schema.json"
  | SkLedgerRecord => include_str "../ledger-record.schema.json"
  | SkSafetyVector => eb_source SAFETY_VECTOR
  | SkSystemInfoRequest => include_str "../tool/system.info.request.schema.json"
  | SkSystemInfoResponse => include_str "../tool/system.info.response.schema.json"
  | SkConfigProposeRequest => include_str "../tool/config.propose.request.schema.json"
  | SkConfigProposeResponse => include_str "../tool/config.propose.response.schema.json"
  | SkTxTestRequest => include_str "../tool/tx.test.request.schema.json"
  | SkTxApplyRequest => include_str "../tool/tx.apply.request.schema.json"
  | SkTxRollbackRequest => include_str "../tool/tx.rollback.request.schema.json"
  | SkTxStatusRequest => include_str "../tool/tx.status.request.schema.json"
  | SkTxStepResponse => include_str "../tool/tx.step.response.schema.json"
  | SkTxStatusResponse => include_str "../tool/tx.status.response.schema.json"
  | SkEventsReplayRequest => include_str "../tool/events.replay.request.schema.json"
  | SkEventsReplayResponse => include_str "../tool/events.replay.response.schema.json"
  end.

(** [EmbeddedRetriever::retrieve] *)
Definition retrieve (uri : string) : result string Value :=
  if decide (uri = eb_id CAPABILITIES) then json_from_str (eb_source CAPABILITIES)
  else if decide (uri = eb_id SAFETY_VECTOR) then json_from_str (eb_source SAFETY_VECTOR)
  else Err ("refusing to fetch external schema " +:+ uri).

(** The slots of the process: one per kind, filled at most once. *)
Definition Slots : Type := SchemaKind -> option (result string Validator).
Definition no_slots : Slots := fun _ => None.
Definition fill (kind : SchemaKind) (compiled : result string Validator) (slots : Slots) : Slots :=
  fun k => if decide (k = kind) then Some compiled else slots k.

(** What a slot is initialized with. *)
Definition compile (kind : SchemaKind) : result string Validator :=
  schema ← map_err (fun e => "schema is not valid JSON: " +:+ e) (json_from_str (source kind));
  map_err (fun e => "schema does not compile: " +:+ e) (build retrieve schema).

(** [get_or_init] *)
Definition get_or_init {E} (kind : SchemaKind) : M Slots E (result string Validator) := fun slots =>
  match slots kind with
  | Some compiled => (Ret compiled, slots)
  | None => let compiled := compile kind in (Ret compiled, fill kind compiled slots)
  end.

Definition ValidationError := list string.
Definition validation_error_display (e : ValidationError) : string := String.concat "; " e.

(** [validator] *)
Definition validator (kind : SchemaKind) : M Slots ValidationError Validator :=
  compiled ← get_or_init kind;
  match compiled with Ok v => mret v | Err e => throw [e] end.

Definition problems_of (v : Validator) (value : Value) : result ValidationError unit :=
  let problems := map (fun '(path, e) => path +:+ ": " +:+ e) (iter_errors v value) in
  if bool_decide (problems = []) then Ok tt else Err problems.

(** [validate] *)
Definition validate (kind : SchemaKind) (value : Value) : M Slots ValidationError unit :=
  v ← validator kind; of_result (problems_of v value).

(** [yaml_to_json] *)
Definition yaml_to_json (yaml : string) : result ValidationError Value :=
  map_err (fun e => ["manifest is not valid YAML: " +:+ e]) (yaml_from_str yaml).

(** ** What keeping the validators changes *)

Definition slots_sound (slots : Slots) : Prop := forall k c, slots k = Some c -> c = compile k.

(** Validation by a schema compiled for the purpose. *)
Definition validate_fresh (kind : SchemaKind) (value : Value) : result ValidationError unit :=
  v ← map_err (fun e => [e]) (compile kind); problems_of v value.

Lemma wp_validate kind value slots :
  slots_sound slots ->
  wp (validate kind value) (fun o slots' => slots_sound slots' /\
    o = match validate_fresh kind value with Ok _ => Ret tt | Err e => Throw e end) slots.
Proof.
  intros Hs. unfold validate, validator, validate_fresh. wp_simpl. unfold wp, get_or_init.
  assert (Hfill : slots_sound (fill kind (compile kind) slots)).
  { intros k c. unfold fill. case_decide as Hk; [subst k; by intros [= <-]|apply Hs]. }
  destruct (slots kind) as [c|] eqn:Hc; [apply Hs in Hc; subst c|]; cbn [fst snd];
    destruct (compile kind) as [v|e]; cbn; split; try done; by destruct (problems_of v value) as [[]|].
Qed.

(** Whatever was validated before, a validation answers what a freshly
    compiled schema answers: the interfaces of the dispatcher and of the
    gateway may take it for a function of kind and value. *)
Lemma validations_forget_history calls kind value :
  wp (mfor (fun c => attempt (F:=ValidationError) (validate (fst c) (snd c))) (calls ++ [(kind, value)]))
     (fun o _ => o = Ret (map (fun c => validate_fresh (fst c) (snd c)) (calls ++ [(kind, value)]))) no_slots.
Proof.
  assert (Hgen : forall l slots, slots_sound slots ->
    wp (mfor (fun c => attempt (F:=ValidationError) (validate (fst c) (snd c))) l)
       (fun o _ => o = Ret (map (fun c => validate_fresh (fst c) (snd c)) l)) slots).
  { induction l as [|[k v] l IH]; intros slots Hs; cbn [mfor map]; wp_simpl; [done|].
    eapply wp_mono; [by apply wp_validate|]. cbn [fst snd]. intros o slots' [Hs' ->].
    destruct (validate_fresh k v) as [[]|e]; wp_simpl; (eapply wp_mono; [by apply IH|]);
      intros o slots'' ->; by wp_simpl. }
  by apply Hgen.
Qed.

(** No reference leads out of the binary. *)
Lemma nothing_is_fetched uri v :
  retrieve uri = Ok v -> uri = eb_id CAPABILITIES \/ uri = eb_id SAFETY_VECTOR.
Proof. unfold retrieve. case_decide; [by left|]. case_decide; [by right|done]. Qed.

(** Every kind is in the list. *)
Lemma all_kinds_complete kind : kind ∈ all_kinds.
Proof. apply (bool_decide_unpack _). by destruct kind; vm_compute. Qed.
End Schemas.
